(* ===== verification/_CoqProject ===== *)
-Q . S2P
Prelude.v
StdList.v
CppString.v
Executor.v
JwksCache.v
Http.v
DecisionCache.v
AuditLog.v
External.v
Toy.v
Clock.v
Json.v
JwtParse.v
JwtVerify.v
Validator.v
Availability.v
Introspect.v
UrlGuard.v
HttpClientDuckdb.v
Providers.v
Policy.v
DuckDb.v
TokenEndpoint.v
Acquire.v
PolicyTable.v
State.v
Settings.v
SqlAst.v
SqlInspect.v
CheckToken.v
Scrub.v
CheckAuthorization.v
Login.v
Diagnose.v
Server.v
Uniform.v
Threads.v
Catalog.v
