(* ===== verification/Prelude.v ===== *)
(** * quack-oauth: a verification library

    quack-oauth is a DuckDB extension that puts OAuth in front of a Quack server.
    On the server it swaps two callbacks: [quack_oauth_check_token] authenticates
    a bearer token, [quack_oauth_check_authorization] decides every query of an
    authenticated session.  On the client a few SQL functions fetch, renew and
    forget tokens that are kept on a DuckDB secret.  Table functions show what the
    process holds.

    ** The parts and how they interact

    A call of [check_token] reads its configuration from a secret and the settings
    (completed from a provider preset), refuses to run behind a plaintext listener,
    and validates each row under one process-wide mutex: a JWT against the JWKS
    cache, which fetches, rotates and evicts keys with the mutex released around
    the network; an opaque token through introspection, Google's tokeninfo or
    GitHub's check, behind the decision cache.  An accepted row of a session stores
    a principal; every row leaves an audit event.  [check_authorization] finds that
    principal, drops it when expired, inspects the SQL text for its action and the
    objects and columns it touches, and applies the policy: a table of rules, or
    scopes when no table is configured.  Everything is fail-closed, and that is what
    the theorems say.

    ** Which file models what

    - [Prelude]: outcomes of C++ code, state passing, Hoare rules and triples with
      exceptions, references into the world, lists and integers; [StdList]: std::list
      with the identity of its nodes and the list-plus-index invariant; [CppString]:
      std::string; [Executor]: DuckDB's unary and binary executors.
    - [JwksCache] (jwks_cache.hpp/.cpp), [DecisionCache] (decision_cache.hpp/.cpp),
      [AuditLog] (audit.hpp/.cpp): the three stores, one definition per method, the
      names of the code.
    - [Http] (http_client.hpp, retry_http_client.cpp, idp_probe.cpp): the client
      interface and its retrying decorator.
    - [External]: picojson, jwt-cpp, OpenSSL as classes; [Toy]: small executable
      instances of them for the evaluations.
    - [Json] (picojson_helpers.cpp, jwks_parse.cpp), [JwtParse] (jwt_parse.cpp),
      [JwtVerify] (jwt_verify.cpp): documents, tokens, one verification.
    - [Validator] (validator.cpp, the JWKS half): cold fetch, refresh of a rotated
      kid, reconciliation, re-verification, and that what is accepted is sound;
      [Availability]: what a good token is owed by the same definitions;
      [Introspect] (the opaque half, introspect.cpp, tokeninfo.cpp,
      github_check.cpp).
    - [UrlGuard] (plaintext_guard.cpp, the checks of secrets.cpp, the URL splitter
      of http_client_duckdb.cpp), [HttpClientDuckdb] (the rest of
      http_client_duckdb.cpp, over httplib as a parameter), [Providers]
      (providers.cpp).
    - [Policy] (authz.cpp, policy.cpp), [PolicyTable] (policy_table.cpp).
    - [DuckDb] (secret_accessor.cpp, secrets.cpp, and DuckDB's values and context as
      parameters).
    - [Clock] (platform_time.cpp and the ISO 8601 reader of acquire_function.cpp),
      [TokenEndpoint] (token_endpoint.cpp, device_code.cpp), [Acquire]
      (acquire_flow.cpp, acquire_function.cpp, login_function.cpp,
      refresh_function.cpp, device_login_function.cpp, logout_function.cpp): the
      client side.
    - [State] (quack_oauth_state.hpp, settings.cpp, env_overrides.cpp,
      audit_sink.cpp, tracing_redact.cpp): the singleton with its mutex, callbacks,
      the sinks of an audit event; [Settings] (settings.cpp): the table of options.
    - [SqlAst] (DuckDB's parser as a parameter), [SqlInspect] (sql_inspect.cpp).
    - [CheckToken] (check_token_function.cpp), [CheckAuthorization]
      (check_authorization_function.cpp, principal_expiry.cpp), [Diagnose]
      (diagnose.cpp, inspect_sql_function.cpp): the SQL functions; [Scrub]
      (secure_scrub.cpp): what a scrubbed string leaves in memory; [Login]: a user
      followed through both callbacks.
    - [Server]: the SQL functions and settings as calls on one process state, and
      what a single call keeps and promises; [Uniform]: a call cannot tell two worlds
      apart that answer alike; [Threads]: the process, any number of calls at once in
      any interleaving.
    - [Catalog] (quack_oauth_extension.cpp and every [Register...] function): the
      calls a load makes on DuckDB, and the scalar functions over columns.

    ** How the code is modelled

    A pure function is a function.  Code that may throw returns [exc]: [Ret],
    [Throw], or [Stuck] for undefined behaviour (a dangling iterator, signed
    overflow, a mutex locked twice) and for fuel that ran out; no theorem takes
    [Stuck] for success, and the theorems about a whole call prove that it does not
    happen.  Code with effects is [M W A]: it runs in a world [W] that is a
    parameter, and a component sees its part of [W] through a [Ref].

    The mutex is part of the state ([st_mu]).  A client's contract is relative to an
    invariant of the world: [hoare I (Get http uri) (λ _, I)], not that the state is
    left alone, so that each component's theorem holds whatever runs while the mutex
    is free.  [Inv] of [State] is that invariant; [good] of [Validator] is its part on
    the JWKS cache.  Taking the mutex waits for it ([wait_mu] of the class [Threads]
    of State): one thread alone never waits, and locking it twice is [Stuck].  The file
    [Threads] builds the threads.  A call there runs over a world with a record of what
    the other threads did at each of its pauses (before it takes the mutex and around
    every request, when it does not hold the mutex); a thread of the [pool] is a call
    with the record so far, and a [step] gives one thread its next segment, replayed
    from its start with the new entry.  That this is the same run continued, not a
    different one, is a theorem ([resume_keeps_past]), which rests on [run_call_uniform]
    of [Uniform]: every call, with everything it calls, takes the same steps in two
    worlds that answer it alike.  A call that nobody disturbs is the plain sequential
    call ([uninterrupted_call]).  The properties of the process then quantify over
    every reachable pool.

    Machine integers are [Z].  Clock values and lifetimes are exact where the code
    cannot overflow and checked ([i64_ok], overflow being [Stuck]) where a provider's
    or a caller's number enters: an expiry plus the skew ([IsPrincipalExpired],
    [tokeninfo_expired]), the clock plus a lifetime ([expiry_text]), the polling
    deadline and interval, the doubled delay of a retry.  The first of these the code
    does not guard: an opaque token's expiry can be any 64-bit number.  The theorems
    that say a call returns therefore assume that the issuers' expiries leave room
    for the skew ([leaves_room], [session_room], [expiries_fit] of [Server]), and
    [expiry_overflow] and [tokeninfo_overflow] show what happens otherwise; the dates
    of a JWT are bounded by jwt-cpp's clock ([JwtCppTimes]).  Unsigned counters wrap
    ([u64_succ]).  Bytes are [ascii].  An unordered_map is a [gmap];
    where the code iterates one, the order is the parameter [UMapOrder] and the
    theorems hold for every order.  A DataChunk column is the list of its rows, NULL
    being [None].  How often an executor calls a function over a column is its own
    choice (once, for a constant vector): the class [Executor] leaves it open, and
    the theorems hold for every executor whose answers are answers of the function
    ([ExecutorUniform] adds, for the threads, that it does not look at the world).
    A variable that a row function captures is a second component of its world.

    Loops that are not structural have fuel, chosen so that it cannot run out:
    eviction loops, the size of the container (each turn removes one entry);
    [Substitute], the length of the template (each turn consumes a placeholder);
    the glob matcher, [glob_fuel], quadratic in the two lengths (a backtrack moves
    the star's position); scope splitting, the length of the text; the SQL walk, the
    rank of the statement (every part of a node has a smaller one); the polling
    loop, the lifetime in seconds plus one (a turn sleeps for a second at least).
    In each case a theorem or lemma proves that the result is not [Stuck].

    What is not in the repository is a parameter with its documented behaviour as a
    class of laws or as named hypotheses: picojson, jwt-cpp, httplib, OpenSSL (a
    failed call is [None]), SHA-256, the DuckDB values, settings, secret manager,
    queries, parser and executors, the network and the clocks.  Each property
    with such a hypothesis has a witness, an evaluation in a concrete world that
    satisfies it.

    ** What the theorems show

    - The process, over every interleaving of any number of calls and relative to a
      [History] of what the outside did (documents served, answers given,
      configurations that load, clock readings, tokens offered and presented with a
      session): [server_invariant] (in every reachable state, every cached key was
      published, every decision and session rests on evidence in the history; no
      deadlock), [allowed_query_provenance] (an allowed query goes back to a token
      presented for its session).
    - End to end: [check_token_jwks_sound] (true only for tokens signed by a key the
      issuer publishes, with the configured checks), [check_authorization_sound]
      (true only for an unexpired stored principal and a request the policy in force
      allows), [plaintext_guard], [server_config_valid], [policy_in_force],
      [authorization_exact] (the answer is true exactly when the state at the call
      grants the query), [authorization_audited], [good_user_served] (a user whose
      token the issuer's keys vouch for is let in and answered).
    - Token validation: [VerifyJwt_accepts_soundly], [validate_token_sound],
      [owed_verdict_given] (a token that a published key signed gets its verdict: from
      the cache, after a fetch, after a rotation), [fetch_budget],
      [introspection_sound], [tokeninfo_and_github_sound].
    - Stores: [jwks_cache_safe] (no dangling iterator in any run), [reconcile_exact],
      [decision_cache_refines], [session_store_bounded].
    - Authorization: [EvaluatePolicy_all_cells], [GlobMatch_spec],
      [star_sees_no_column_rule] (rules about columns and SELECT-star),
      [policy_table_fail_closed], [inspect_complete] (what is not unsafe lists every
      object of the statement), [sql_names_roundtrip].
    - Configuration: [ValidateHttpUrl_spec], [requests_confined] (secrets travel over
      verified TLS or stay on the machine), [CreateServerSecret_sound], [load_sound] (every
      registered function has the types it declares).
    - Acquisition: [acquire_sound] and [acquire_invalid_input] (the ladder),
      [acquired_token_reused] (one fetch per lifetime of the provider's answer),
      [device_polling_terminates] (liveness), [token_fields_only] (the secret gets what
      the provider answered and nothing else), [token_requests_parse],
      [iso8601_roundtrip].
    - Operations: [diagnose_correct] (the six rows give the numbers of one state),
      [audit_line_roundtrip], [retry_schedule_correct] (GET and POST).

    Several more theorems of the same kind are in the files, for instance
    [UrlEncode_roundtrip], [Base64UrlDecode_encode], [CacheKey_inj],
    [audit_ring_last_n], [decision_cache_sound], [reserve_rate_limited],
    [probe_rate_limited], [min_refresh_setting_bounds], [presets_pin_host], [options_well_typed],
    [scan_complete], [Substitute_one_pass], [forbidden_algorithm_rejected],
    [early_rejection_no_effect], [stale_commit_refused], [SecureScrub_zeroes],
    [uninterrupted_call], [resume_keeps_past]; and the ones that show a limit of the code:
    [hash_failure_confuses_tokens], [raw_token_lingers], the example [renewal_lost].

    ** Not modelled

    What the banner and the telemetry library do with their calls, DuckDB's own
    side of registration and inside the executors, and the WASM variants; none of
    them keeps state the rest reads.  tracing_log.cpp has no code. *)

From stdpp Require Export base gmap strings list fin_maps pretty sorting.
From Stdlib Require Export ZArith Lia.

#[global] Open Scope Z_scope.

(** ** Outcomes of C++ code

    [Ret] is a normal return, [Throw] a C++ exception and [Stuck] undefined
    behaviour (a dangling iterator, [back()] of an empty list) or a loop whose
    fuel ran out.  No theorem of the library equates [Stuck] with success. *)
Inductive cpp_exn : Type :=
  | InvalidInputException (msg : string)
  | IOException (msg : string)
  | BinderException (msg : string)
  | StdException.

Inductive exc (A : Type) : Type :=
  | Ret (a : A)
  | Throw (e : cpp_exn)
  | Stuck.
Arguments Ret {A} a.
Arguments Throw {A} e.
Arguments Stuck {A}.

#[export] Instance exc_ret : MRet exc := λ A a, Ret a.
#[export] Instance exc_bind : MBind exc := λ A B f m,
  match m with Ret a => f a | Throw e => Throw e | Stuck => Stuck end.
#[export] Instance exc_fmap : FMap exc := λ A B f m,
  match m with Ret a => Ret (f a) | Throw e => Throw e | Stuck => Stuck end.

(** A partial library operation: [None] is undefined behaviour. *)
Definition defined {A} (o : option A) : exc A :=
  match o with Some a => Ret a | None => Stuck end.

Lemma exc_bind_Ret {A B} (f : A → exc B) (m : exc A) b :
  (m ≫= f) = Ret b ↔ ∃ a, m = Ret a ∧ f a = Ret b.
Proof. destruct m; simpl; naive_solver. Qed.

(** Code that does not get stuck. *)
Lemma exc_bind_total {A B} (f : A → exc B) (m : exc A) :
  m ≠ Stuck → (∀ a, m = Ret a → f a ≠ Stuck) → m ≫= f ≠ Stuck.
Proof. destruct m; simpl; auto. Qed.

Lemma defined_Ret {A} (o : option A) a : defined o = Ret a ↔ o = Some a.
Proof. destruct o; simpl; naive_solver. Qed.

Lemma exc_fmap_Ret {A B} (f : A → B) (m : exc A) b :
  (f <$> m) = Ret b ↔ ∃ a, m = Ret a ∧ f a = b.
Proof. destruct m; simpl; naive_solver. Qed.

(** Folding an operation that may throw or get stuck over a list, left to right:
    a C++ range-for whose body updates one accumulator. *)
Fixpoint exc_fold {A S} (f : S → A → exc S) (s : S) (l : list A) : exc S :=
  match l with
  | [] => Ret s
  | x :: l => s' ← f s x; exc_fold f s' l
  end.

Lemma exc_fold_inv {A S} (I : S → Prop) (P : A → Prop) (f : S → A → exc S) l s s' :
  (∀ s x s', P x → I s → f s x = Ret s' → I s') →
  Forall P l → I s → exc_fold f s l = Ret s' → I s'.
Proof.
  intros Hf HP. revert s. induction HP as [|x l Hx HP IH]; intros s Hs; simpl.
  - naive_solver.
  - intros (s1 & H1 & H2)%exc_bind_Ret. eauto.
Qed.

Lemma exc_fold_not_stuck {A S} (P : A → Prop) (f : S → A → exc S) l s :
  (∀ s x, P x → f s x ≠ Stuck) → Forall P l → exc_fold f s l ≠ Stuck.
Proof.
  intros Hf HP. revert s. induction HP as [|x l Hx HP IH]; intros s; simpl; [done|].
  apply exc_bind_total; auto.
Qed.

Lemma exc_fold_total {A S} (I : S → Prop) (P : A → Prop) (f : S → A → exc S) l s :
  (∀ s x, P x → I s → ∃ s', f s x = Ret s' ∧ I s') →
  Forall P l → I s → ∃ s', exc_fold f s l = Ret s' ∧ I s'.
Proof.
  intros Hf HP. revert s. induction HP as [|x l Hx HP IH]; intros s Hs; simpl; [eauto|].
  destruct (Hf s x Hx Hs) as (s1 & -> & H1). simpl. eauto.
Qed.

(** ** Stateful code

    [M W A] is code that runs in the world [W] (process state, network, clock)
    and returns, throws or gets stuck; the state is kept when it throws. *)
Definition M (W A : Type) : Type := W → exc A * W.

#[export] Instance M_ret {W} : MRet (M W) := λ A a w, (Ret a, w).
#[export] Instance M_bind {W} : MBind (M W) := λ A B f m w,
  match m w with
  | (Ret a, w') => f a w'
  | (Throw e, w') => (Throw e, w')
  | (Stuck, w') => (Stuck, w')
  end.

Definition lift {W A} (m : exc A) : M W A := λ w, (m, w).
Definition throw {W A} (e : cpp_exn) : M W A := λ w, (Throw e, w).
Definition gets {W A} (f : W → A) : M W A := λ w, (Ret (f w), w).
Definition modify {W} (f : W → W) : M W unit := λ w, (Ret tt, f w).

Lemma M_bind_eq {W A B} (m : M W A) (f : A → M W B) w :
  (m ≫= f) w = match m w with
               | (Ret a, w') => f a w' | (Throw e, w') => (Throw e, w') | (Stuck, w') => (Stuck, w') end.
Proof. reflexivity. Qed.

Lemma M_bind_Ret {W A B} (m : M W A) (f : A → M W B) w b w' :
  (m ≫= f) w = (Ret b, w') ↔ ∃ a w1, m w = (Ret a, w1) ∧ f a w1 = (Ret b, w').
Proof. unfold mbind, M_bind. destruct (m w) as [[a|e|] w1]; naive_solver. Qed.

Lemma M_bind_run {W A B} (m : M W A) (f : A → M W B) w a w1 :
  m w = (Ret a, w1) → (m ≫= f) w = f a w1.
Proof. intros H. by rewrite M_bind_eq, H. Qed.

Lemma lift_Ret {W A} (m : exc A) (w w' : W) a : lift m w = (Ret a, w') ↔ m = Ret a ∧ w' = w.
Proof. unfold lift. naive_solver. Qed.

Fixpoint M_fold {W A S} (f : S → A → M W S) (s : S) (l : list A) : M W S :=
  match l with
  | [] => mret s
  | x :: l => s' ← f s x; M_fold f s' l
  end.

(** A loop whose every turn adds one to a measure. *)
Lemma M_fold_count {W A S} (m : S → nat) (f : S → A → M W S) l s w s' w' :
  (∀ s x w s' w', f s x w = (Ret s', w') → m s' = Datatypes.S (m s)) →
  M_fold f s l w = (Ret s', w') → m s' = (m s + length l)%nat.
Proof.
  intros Hf. revert s w. induction l as [|x l IH]; intros s w; cbn [M_fold length].
  - intros [= <- _]. lia.
  - intros (s1 & w1 & H1%Hf & H2%IH)%M_bind_Ret. lia.
Qed.

(** Code with variables of its own, which a callee captures by reference: they are
    a second component of the world while it runs. *)
Definition local {W E A} (m : M W A) : M (W * E) A := λ w, let '(r, w') := m w.1 in (r, (w', w.2)).
Definition run_local {W E A} (m : M (W * E) A) (e : E) : M W (A * E) := λ w,
  match m (w, e) with
  | (Ret a, (w', e')) => (Ret (a, e'), w')
  | (Throw x, (w', _)) => (Throw x, w')
  | (Stuck, (w', _)) => (Stuck, w')
  end.

(** A destructor: [c] runs on both ways out of [m]. *)
Definition finally {W A} (m : M W A) (c : M W unit) : M W A := λ w,
  match m w with
  | (Ret a, w') => (_ ← c; mret a) w'
  | (Throw e, w') => (_ ← c; throw e) w'
  | (Stuck, w') => (Stuck, w')
  end.

(** The way out of [m], as a value. *)
Definition catch {W A} (m : M W A) : M W (exc A) := λ w,
  match m w with
  | (Stuck, w') => (Stuck, w')
  | (r, w') => (Ret r, w')
  end.
Lemma finally_catch {W A} (m : M W A) (c : M W unit) w : finally m c w = (r ← catch m; _ ← c; lift r) w.
Proof. unfold finally, catch. rewrite M_bind_eq. by destruct (m w) as [[]]. Qed.

(** Weakest precondition of one run: [wp m Q w] says that [Q] holds of the
    outcome and the final world of [m] started in [w]. *)
Definition wp {W A} (m : M W A) (Q : exc A → W → Prop) (w : W) : Prop :=
  Q (m w).1 (m w).2.

(** The continuation of a bind inside a postcondition. *)
Definition wp_then {W A B} (f : A → M W B) (Q : exc B → W → Prop) (r : exc A) (w : W) : Prop :=
  match r with
  | Ret a => wp (f a) Q w
  | Throw e => Q (Throw e) w
  | Stuck => Q Stuck w
  end.

Section wp_rules.
Context {W : Type}.
Implicit Types w : W.

Lemma wp_unfold {A} (m : M W A) Q w r w' :
  m w = (r, w') → Q r w' → wp m Q w.
Proof. unfold wp. by intros ->. Qed.

Lemma wp_ret {A} (a : A) Q w : Q (Ret a) w → wp (mret a : M W A) Q w.
Proof. done. Qed.

Lemma wp_bind {A B} (m : M W A) (f : A → M W B) Q w :
  wp m (wp_then f Q) w → wp (m ≫= f) Q w.
Proof.
  unfold wp, wp_then, mbind, M_bind. by destruct (m w) as [[a|e|] w'].
Qed.

Lemma wp_bind_inv {A B} (m : M W A) (f : A → M W B) Q w :
  wp (m ≫= f) Q w → wp m (wp_then f Q) w.
Proof.
  unfold wp, wp_then, mbind, M_bind. by destruct (m w) as [[a|e|] w'].
Qed.

Lemma wp_lift {A} (m : exc A) Q w : Q m w → wp (lift m : M W A) Q w.
Proof. done. Qed.

Lemma wp_gets {A} (f : W → A) Q w : Q (Ret (f w)) w → wp (gets f) Q w.
Proof. done. Qed.

Lemma wp_modify (f : W → W) Q w : Q (Ret tt) (f w) → wp (modify f) Q w.
Proof. done. Qed.

Lemma wp_throw {A} e (Q : exc A → W → Prop) w : Q (Throw e) w → wp (throw e) Q w.
Proof. done. Qed.

Lemma wp_mono {A} (m : M W A) (Q Q' : exc A → W → Prop) w :
  wp m Q w → (∀ r w', Q r w' → Q' r w') → wp m Q' w.
Proof. unfold wp. auto. Qed.

Lemma wp_and {A} (m : M W A) (Q Q' : exc A → W → Prop) w :
  wp m Q w → wp m Q' w → wp m (λ r w', Q r w' ∧ Q' r w') w.
Proof. done. Qed.
End wp_rules.

(** A C++ reference into the world: a lens.  [ref_get] reads through the
    reference, [ref_set] assigns through it. *)
Record Ref (W S : Type) : Type := mkRef {
  ref_get : W → S;
  ref_set : S → W → W;
}.
Arguments mkRef {W S} _ _.
Arguments ref_get {W S} _ _.
Arguments ref_set {W S} _ _ _.

Class RefLaws {W S} (r : Ref W S) : Prop := {
  ref_get_set s w : ref_get r (ref_set r s w) = s;
  ref_set_set s s' w : ref_set r s (ref_set r s' w) = ref_set r s w;
  ref_set_get w : ref_set r (ref_get r w) w = w;
}.

Definition ref_id {W} : Ref W W := mkRef (λ w, w) (λ s _, s).
#[export] Instance ref_id_laws {W} : RefLaws (@ref_id W).
Proof. by split. Qed.

Definition ref_comp {W S T} (r : Ref W S) (q : Ref S T) : Ref W T :=
  mkRef (λ w, ref_get q (ref_get r w))
        (λ t w, ref_set r (ref_set q t (ref_get r w)) w).
#[export] Instance ref_comp_laws {W S T} (r : Ref W S) (q : Ref S T) :
  RefLaws r → RefLaws q → RefLaws (ref_comp r q).
Proof.
  intros Hr Hq. split; intros; simpl.
  - by rewrite !ref_get_set.
  - by rewrite !ref_get_set, !ref_set_set.
  - by rewrite !ref_set_get.
Qed.

(** A property of the world around what the reference refers to. *)
Class Frame {W S} (r : Ref W S) (F : W → Prop) : Prop := frame_set s w : F w → F (ref_set r s w).
#[export] Instance frame_True {W S} (r : Ref W S) : Frame r (λ _, True).
Proof. by intros s w. Qed.
#[export] Instance frame_comp {W S T} (r : Ref W S) (q : Ref S T) F : Frame r F → Frame (ref_comp r q) F.
Proof. intros Hr t w. apply Hr. Qed.

(** Read through a reference; run a state-passing method of the referenced
    object: an observer, a mutator, a mutator with a result.  A method that
    throws or gets stuck leaves the object as it was; none of the modelled
    methods throws. *)
Definition ref_read {W S A} (r : Ref W S) (f : S → A) : M W A := gets (λ w, f (ref_get r w)).
Definition ref_upd {W S} (r : Ref W S) (f : S → S) : M W unit :=
  modify (λ w, ref_set r (f (ref_get r w)) w).
Definition ref_call {W S} (r : Ref W S) (f : S → exc S) : M W unit := λ w,
  match f (ref_get r w) with
  | Ret s => (Ret tt, ref_set r s w)
  | Throw e => (Throw e, w)
  | Stuck => (Stuck, w)
  end.
Definition ref_run {W S A} (r : Ref W S) (f : S → exc (A * S)) : M W A := λ w,
  match f (ref_get r w) with
  | Ret (a, s) => (Ret a, ref_set r s w)
  | Throw e => (Throw e, w)
  | Stuck => (Stuck, w)
  end.

Section ref_rules.
Context {W S : Type} (r : Ref W S).

Lemma wp_ref_read {A} (f : S → A) Q w :
  Q (Ret (f (ref_get r w))) w → wp (ref_read r f) Q w.
Proof. done. Qed.

Lemma wp_ref_upd f Q w :
  Q (Ret tt) (ref_set r (f (ref_get r w)) w) → wp (ref_upd r f) Q w.
Proof. done. Qed.

Lemma wp_ref_call f Q w s :
  f (ref_get r w) = Ret s → Q (Ret tt) (ref_set r s w) → wp (ref_call r f) Q w.
Proof. unfold wp, ref_call. by intros ->. Qed.

Lemma wp_ref_run {A} (f : S → exc (A * S)) Q w a s :
  f (ref_get r w) = Ret (a, s) → Q (Ret a) (ref_set r s w) → wp (ref_run r f) Q w.
Proof. unfold wp, ref_run. by intros ->. Qed.

(** One step of a run through the reference. *)
Lemma ref_read_bind {A B} (f : S → A) (k : A → M W B) w : (ref_read r f ≫= k) w = k (f (ref_get r w)) w.
Proof. done. Qed.
Lemma ref_upd_bind {B} f (k : unit → M W B) w : (ref_upd r f ≫= k) w = k tt (ref_set r (f (ref_get r w)) w).
Proof. done. Qed.
Lemma ref_run_bind {A B} (f : S → exc (A * S)) (k : A → M W B) w a s :
  f (ref_get r w) = Ret (a, s) → (ref_run r f ≫= k) w = k a (ref_set r s w).
Proof. intros H. apply M_bind_run. unfold ref_run. by rewrite H. Qed.
End ref_rules.

(** ** What code leaves alone

    [unchanged f m]: whatever the outcome of [m], [f] is the same in the world after
    it. *)
Definition unchanged {W X A} (f : W → X) (m : M W A) : Prop := ∀ w, f (m w).2 = f w.

Section unchanged_rules.
Context {W X : Type} (f : W → X).

Lemma unchanged_run {A} (m : M W A) w r w' : unchanged f m → m w = (r, w') → f w' = f w.
Proof. intros Hm Hr. specialize (Hm w). by rewrite Hr in Hm. Qed.

Lemma un_ret {A} (a : A) : unchanged f (mret a).
Proof. by intros w. Qed.
Lemma un_lift {A} (m : exc A) : unchanged f (lift m).
Proof. by intros w. Qed.
Lemma un_throw {A} e : unchanged f (throw (A:=A) e).
Proof. by intros w. Qed.
Lemma un_gets {A} (g : W → A) : unchanged f (gets g).
Proof. by intros w. Qed.
Lemma un_bind {A B} (m : M W A) (k : A → M W B) :
  unchanged f m → (∀ a, unchanged f (k a)) → unchanged f (m ≫= k).
Proof.
  intros Hm Hk w. specialize (Hm w). rewrite M_bind_eq. destruct (m w) as [[a|e|] w1]; [|done..].
  by rewrite Hk.
Qed.
Lemma un_fold {A S} (g : S → A → M W S) l s : (∀ s a, unchanged f (g s a)) → unchanged f (M_fold g s l).
Proof. intros Hg. revert s. induction l as [|a l IH]; intros s; [apply un_ret|]. by apply un_bind. Qed.
Lemma un_finally {A} (m : M W A) c : unchanged f m → unchanged f c → unchanged f (finally m c).
Proof.
  intros Hm Hc w. rewrite finally_catch. revert w. apply un_bind.
  - intros w. specialize (Hm w). unfold catch. by destruct (m w) as [[]].
  - intros r. apply un_bind; [done|]. intros _. apply un_lift.
Qed.

(** What is not seen through the reference. *)
Context {S : Type} (r : Ref W S) (Hr : ∀ s w, f (ref_set r s w) = f w).
Lemma un_read {A} (g : S → A) : unchanged f (ref_read r g).
Proof. apply un_gets. Qed.
Lemma un_upd g : unchanged f (ref_upd r g).
Proof. intros w. apply Hr. Qed.
Lemma un_call g : unchanged f (ref_call r g).
Proof. intros w. unfold ref_call. destruct (g _); simpl; auto. Qed.
Lemma un_run {A} (g : S → exc (A * S)) : unchanged f (ref_run r g).
Proof. intros w. unfold ref_run. destruct (g _) as [[]| |]; simpl; auto. Qed.
End unchanged_rules.

(** Take the code apart; what remains is about other code. *)
Ltac leaves_alone := repeat match goal with
  | |- unchanged _ _ => assumption
  | H : ∀ _, unchanged _ _ |- unchanged _ _ => apply H
  | H : ∀ _ _, unchanged _ _ |- unchanged _ _ => apply H
  | |- unchanged _ (mret _) => apply un_ret
  | |- unchanged _ (lift _) => apply un_lift
  | |- unchanged _ (throw _) => apply un_throw
  | |- unchanged _ (gets _) => apply un_gets
  | |- unchanged _ (_ ≫= _) => apply un_bind; [|intros ?]
  | |- unchanged _ (M_fold _ _ _) => apply un_fold; intros ? ?
  | |- unchanged _ (finally _ _) => apply un_finally
  | |- unchanged _ (ref_read _ _) => apply un_read
  | |- unchanged _ (ref_upd _ _) => apply un_upd; solve [auto]
  | |- unchanged _ (ref_call _ _) => apply un_call; solve [auto]
  | |- unchanged _ (ref_run _ _) => apply un_run; solve [auto]
  | |- unchanged _ (let _ := _ in _) => cbv zeta
  | |- unchanged _ (match ?x with _ => _ end) => destruct x
  end.

(** ** Hoare triples

    [hoare P m Q]: started in a world satisfying [P], [m] returns normally (it
    neither throws nor gets stuck) with a result and a world satisfying [Q]. *)
Definition hoare {W A} (P : W → Prop) (m : M W A) (Q : A → W → Prop) : Prop :=
  ∀ w, P w → wp m (λ r w', ∃ a, r = Ret a ∧ Q a w') w.

Section hoare_rules.
Context {W : Type}.
Implicit Types P : W → Prop.

Lemma hoare_run {A} P (m : M W A) Q w r w' :
  hoare P m Q → P w → m w = (r, w') → ∃ a, r = Ret a ∧ Q a w'.
Proof. intros Hm Hw Hr. specialize (Hm w Hw). unfold wp in Hm. by rewrite Hr in Hm. Qed.

Lemma hoare_ret {A} P (a : A) (Q : A → W → Prop) : (∀ w, P w → Q a w) → hoare P (mret a) Q.
Proof. intros HQ w Hw. exists a. auto. Qed.

Lemma hoare_bind {A B} P (m : M W A) (f : A → M W B) R Q :
  hoare P m R → (∀ a, hoare (R a) (f a) Q) → hoare P (m ≫= f) Q.
Proof.
  intros Hm Hf w Hw. apply wp_bind. eapply wp_mono; [apply (Hm w Hw)|].
  intros r w' (a & -> & HR). by apply Hf.
Qed.

Lemma hoare_pre {A} P P' (m : M W A) Q : (∀ w, P' w → P w) → hoare P m Q → hoare P' m Q.
Proof. intros HP Hm w Hw. by apply Hm, HP. Qed.

Lemma hoare_post {A} P (m : M W A) (Q Q' : A → W → Prop) :
  (∀ a w, Q a w → Q' a w) → hoare P m Q → hoare P m Q'.
Proof. intros HQ Hm w Hw. eapply wp_mono; [by apply Hm|]. intros r w' (a & -> & ?). eauto. Qed.

(** A pure fact of the precondition is available to the proof. *)
Lemma hoare_pure {A} (φ : Prop) P (m : M W A) Q : (φ → hoare P m Q) → hoare (λ w, φ ∧ P w) m Q.
Proof. intros Hm w [Hφ Hw]. by apply Hm. Qed.

Lemma hoare_lift {A} P (m : exc A) a (Q : A → W → Prop) :
  m = Ret a → (∀ w, P w → Q a w) → hoare P (lift m) Q.
Proof. intros -> HQ w Hw. exists a. auto. Qed.

Lemma hoare_read {S A} P (r : Ref W S) (f : S → A) (Q : A → W → Prop) :
  (∀ w, P w → Q (f (ref_get r w)) w) → hoare P (ref_read r f) Q.
Proof. intros HQ w Hw. eexists. split; [done|]. auto. Qed.

Lemma hoare_upd {S} P (r : Ref W S) f (Q : unit → W → Prop) :
  (∀ w, P w → Q tt (ref_set r (f (ref_get r w)) w)) → hoare P (ref_upd r f) Q.
Proof. intros HQ w Hw. eexists. split; [done|]. simpl. auto. Qed.

Lemma hoare_call {S} P (r : Ref W S) f (Q : unit → W → Prop) :
  (∀ w, P w → ∃ s, f (ref_get r w) = Ret s ∧ Q tt (ref_set r s w)) → hoare P (ref_call r f) Q.
Proof. intros HQ w Hw. destruct (HQ w Hw) as (s & Hs & ?). eapply wp_ref_call; [done|eauto]. Qed.

Lemma hoare_ref_run {S A} P (r : Ref W S) (f : S → exc (A * S)) (Q : A → W → Prop) :
  (∀ w, P w → ∃ a s, f (ref_get r w) = Ret (a, s) ∧ Q a (ref_set r s w)) → hoare P (ref_run r f) Q.
Proof. intros HQ w Hw. destruct (HQ w Hw) as (a & s & Hs & ?). eapply wp_ref_run; [done|eauto]. Qed.

(** A loop that keeps an invariant over the accumulator and the world. *)
Lemma hoare_fold {A S} (I : S → W → Prop) (f : S → A → M W S) (l : list A) (s : S) :
  (∀ s x, x ∈ l → hoare (I s) (f s x) I) → hoare (I s) (M_fold f s l) I.
Proof.
  revert s. induction l as [|x l IH]; intros s Hf; simpl.
  - by apply hoare_ret.
  - eapply hoare_bind; [apply Hf; left|]. intros s'. apply IH. intros s0 y Hy. apply Hf. by right.
Qed.

(** A loop whose invariant looks at the elements that are left. *)
Lemma hoare_fold_rest {A S} (I : list A → S → W → Prop) (f : S → A → M W S) (l : list A) (s : S) :
  (∀ pre x rest s, l = pre ++ x :: rest → hoare (I (x :: rest) s) (f s x) (I rest)) →
  hoare (I l s) (M_fold f s l) (I []).
Proof.
  revert s. induction l as [|x l IH]; intros s Hf; cbn [M_fold].
  - by apply hoare_ret.
  - eapply hoare_bind; [by apply (Hf [])|]. intros s'. apply IH.
    intros pre y rest s0 ->. by apply (Hf (x :: pre)).
Qed.

(** A run that returns, with what it promises and what it leaves alone. *)
Lemma hoare_exists {A X} P (m : M W A) Q (f : W → X) w :
  hoare P m Q → unchanged f m → P w → ∃ a w', m w = (Ret a, w') ∧ Q a w' ∧ f w' = f w.
Proof.
  intros Hm Hf Hw. destruct (m w) as [r w'] eqn:Hr. destruct (hoare_run _ _ _ _ _ _ Hm Hw Hr) as (a & -> & HQ).
  exists a, w'. split_and!; [done|done|]. by eapply unchanged_run.
Qed.
End hoare_rules.

(** ** Triples with an exceptional postcondition

    [triple P m Q X]: [Q] holds of a normal return, [X] of the world of any other
    outcome: [Some e] an exception, [None] undefined behaviour.  [safe I m Q]: [m]
    keeps [I], returns something satisfying [Q] or throws, and never gets stuck. *)
Definition triple {W A} (P : W → Prop) (m : M W A) (Q : A → W → Prop) (X : option cpp_exn → W → Prop) : Prop :=
  ∀ w, P w → wp m (λ r w', match r with Ret a => Q a w' | Throw e => X (Some e) w' | Stuck => X None w' end) w.

Definition may_throw {W} (I : W → Prop) (e : option cpp_exn) (w : W) : Prop := is_Some e ∧ I w.
Definition safe {W A} (I : W → Prop) (m : M W A) (Q : A → Prop) : Prop :=
  triple I m (λ a w, Q a ∧ I w) (may_throw I).

Section triple_rules.
Context {W : Type}.
Implicit Types (P I : W → Prop) (X : option cpp_exn → W → Prop).

Lemma triple_run {A} P (m : M W A) Q X w r w' :
  triple P m Q X → P w → m w = (r, w') →
  match r with Ret a => Q a w' | Throw e => X (Some e) w' | Stuck => X None w' end.
Proof. intros Hm Hw Hr. specialize (Hm w Hw). unfold wp in Hm. by rewrite Hr in Hm. Qed.

Lemma triple_ret {A} P (a : A) (Q : A → W → Prop) X : (∀ w, P w → Q a w) → triple P (mret a) Q X.
Proof. intros HQ w Hw. by apply HQ. Qed.

Lemma triple_bind {A B} P (m : M W A) (f : A → M W B) R Q X :
  triple P m R X → (∀ a, triple (R a) (f a) Q X) → triple P (m ≫= f) Q X.
Proof.
  intros Hm Hf w Hw. apply wp_bind. eapply wp_mono; [apply (Hm w Hw)|].
  intros [a|e|] w' HR; [by apply Hf|done..].
Qed.

Lemma triple_conseq {A} P P' (m : M W A) Q Q' X X' :
  (∀ w, P' w → P w) → (∀ a w, Q a w → Q' a w) → (∀ e w, X e w → X' e w) → triple P m Q X → triple P' m Q' X'.
Proof. intros HP HQ HX Hm w Hw. eapply wp_mono; [by apply Hm, HP|]. intros [a|e|] w'; auto. Qed.

Lemma triple_post {A} P (m : M W A) (Q Q' : A → W → Prop) X :
  (∀ a w, Q a w → Q' a w) → triple P m Q X → triple P m Q' X.
Proof. intros HQ. by apply triple_conseq. Qed.

Lemma triple_pure {A} (φ : Prop) P (m : M W A) Q X : (φ → triple P m Q X) → triple (λ w, φ ∧ P w) m Q X.
Proof. intros Hm w [Hφ Hw]. by apply Hm. Qed.

Lemma triple_hoare {A} P (m : M W A) Q X : hoare P m Q → triple P m Q X.
Proof. intros Hm w Hw. eapply wp_mono; [by apply Hm|]. by intros r w' (a & -> & ?). Qed.

(** A triple that excludes the exceptional outcomes is a Hoare triple. *)
Lemma hoare_triple {A} P (m : M W A) Q : triple P m Q (λ _ _, False) → hoare P m Q.
Proof. intros Hm w Hw. eapply wp_mono; [by apply Hm|]. intros [a|e|] w'; naive_solver. Qed.

Lemma triple_fold {A S} P (R : S → Prop) X (f : S → A → M W S) (l : list A) s :
  R s → (∀ s x, x ∈ l → R s → triple P (f s x) (λ s w, R s ∧ P w) X) → triple P (M_fold f s l) (λ s w, R s ∧ P w) X.
Proof.
  revert s. induction l as [|x l IH]; intros s Hs Hf; cbn [M_fold]; [by apply triple_ret|].
  eapply triple_bind; [apply (Hf s x); [left|done]|]. intros s'. apply triple_pure. intros Hs'.
  apply IH; [done|]. intros s0 y Hy. apply Hf. by right.
Qed.

Lemma triple_local {E A} P (m : M W A) (Q : A → W → Prop) X :
  triple P m Q X → triple (λ w : W * E, P w.1) (local m) (λ a w, Q a w.1) (λ e w, X e w.1).
Proof. intros Hm [w e] Hw. specialize (Hm w Hw). unfold wp, local in *. simpl. by destruct (m w) as [[]]. Qed.

Lemma triple_run_local {E A} P (m : M (W * E) A) (e : E) (Q : A → W → Prop) X :
  triple (λ w, P w.1) m (λ a w, Q a w.1) (λ e w, X e w.1) → triple P (run_local m e) (λ a w, Q a.1 w) X.
Proof.
  intros Hm w Hw. specialize (Hm (w, e) Hw). unfold wp, run_local in *. by destruct (m (w, e)) as [[] []].
Qed.

Lemma safe_run {A} I (m : M W A) Q w r w' :
  safe I m Q → I w → m w = (r, w') → I w' ∧ r ≠ Stuck ∧ ∀ a, r = Ret a → Q a.
Proof.
  intros Hm Hw Hr. pose proof (triple_run _ _ _ _ _ _ _ Hm Hw Hr) as Hout. unfold may_throw, is_Some in Hout.
  destruct r; naive_solver.
Qed.

Lemma safe_ret {A} I (a : A) (Q : A → Prop) : Q a → safe I (mret a) Q.
Proof. intros HQ. by apply triple_ret. Qed.

Lemma safe_bind {A B} I (m : M W A) (f : A → M W B) R Q :
  safe I m R → (∀ a, R a → safe I (f a) Q) → safe I (m ≫= f) Q.
Proof. intros Hm Hf. eapply triple_bind; [exact Hm|]. intros a. apply triple_pure, Hf. Qed.

Lemma safe_hoare {A} I (m : M W A) (Q : A → Prop) : hoare I m (λ a w, Q a ∧ I w) → safe I m Q.
Proof. apply triple_hoare. Qed.

Lemma safe_post {A} I (m : M W A) (Q Q' : A → Prop) : (∀ a, Q a → Q' a) → safe I m Q → safe I m Q'.
Proof. intros HQ. apply triple_conseq; [done| |done]. intros a w [??]. auto. Qed.

Lemma safe_lift {A} I (m : exc A) (Q : A → Prop) : m ≠ Stuck → (∀ a, m = Ret a → Q a) → safe I (lift m) Q.
Proof. intros Hm HQ w Hw. unfold wp, lift. simpl. destruct m; [by split; [apply HQ|]|by split|done]. Qed.

Lemma safe_throw {A} I e (Q : A → Prop) : safe I (throw e : M W A) Q.
Proof. intros w Hw. by split. Qed.

Lemma safe_gets {A} I (f : W → A) : safe I (gets f) (λ _, True).
Proof. intros w Hw. by split. Qed.

Lemma safe_fold {A S} I (R : S → Prop) (f : S → A → M W S) (l : list A) s :
  R s → (∀ s x, x ∈ l → R s → safe I (f s x) R) → safe I (M_fold f s l) R.
Proof. apply triple_fold. Qed.

(** What every returning run satisfies. *)
Lemma safe_returns {A} I (m : M W A) (Q Q' : A → Prop) :
  safe I m Q → (∀ w a w', m w = (Ret a, w') → Q' a) → safe I m Q'.
Proof.
  intros Hm HQ w Hw. specialize (Hm w Hw). specialize (HQ w). unfold wp in *.
  destruct (m w) as [[a|e|] w']; simpl in *; [|done..]. split; [by eapply HQ|apply Hm].
Qed.
End triple_rules.

(** Code without effects but throwing: a step per construct. *)
Ltac safe_step :=
  lazymatch goal with
  | |- safe _ (throw _) _ => apply safe_throw
  | |- safe _ (gets _) _ => apply safe_gets
  | |- safe _ (mret _) _ => apply safe_ret; exact I
  | |- safe _ (mbind _ _) _ => apply (safe_bind _ _ _ (λ _, True)); [|intros ? _]
  | |- safe _ (match ?x with _ => _ end) _ => let Hx := fresh in destruct x eqn:Hx
  | |- safe _ (let _ := _ in _) _ => cbv zeta
  end.
Ltac safe_steps := repeat safe_step.

(** ** Two runs of the same code

    A relation between computations in two worlds that respects how code is put
    together: what is related in its primitive steps is related as a whole. *)
Class Congruent {V V'} (R : ∀ A, M V A → M V' A → Prop) : Prop := {
  cg_ext A (m n : M V A) (m' n' : M V' A) : (∀ v, m v = n v) → (∀ v, m' v = n' v) → R A n n' → R A m m';
  cg_lift A (x : exc A) : R A (lift x) (lift x);
  cg_bind A B (m : M V A) (m' : M V' A) (f : A → M V B) (f' : A → M V' B) :
    R A m m' → (∀ a, R B (f a) (f' a)) → R B (m ≫= f) (m' ≫= f');
}.
(** Handlers too. *)
Class CongruentCatch {V V'} (R : ∀ A, M V A → M V' A → Prop) : Prop :=
  cg_catch A (m : M V A) (m' : M V' A) : R A m m' → R (exc A) (catch m) (catch m').

Section congruent.
Context {V V' : Type} (R : ∀ A, M V A → M V' A → Prop) `{!Congruent R}.

Lemma cg_ret {A} (a : A) : R A (mret a) (mret a).
Proof. apply (cg_lift A (Ret a)). Qed.
Lemma cg_throw {A} e : R A (throw e) (throw e).
Proof. apply (cg_lift A (Throw e)). Qed.

Lemma cg_finally `{!CongruentCatch R} {A} (m : M V A) (m' : M V' A) c c' :
  R A m m' → R unit c c' → R A (finally m c) (finally m' c').
Proof.
  intros Hm Hc. eapply cg_ext; [apply finally_catch..|]. apply cg_bind; [by apply cg_catch|]. intros r.
  apply cg_bind; [done|]. intros []. apply cg_lift.
Qed.

Lemma cg_fold {A S} (f : S → A → M V S) (f' : S → A → M V' S) l s :
  (∀ s x, R S (f s x) (f' s x)) → R S (M_fold f s l) (M_fold f' s l).
Proof.
  intros Hf. revert s. induction l as [|x l IH]; intros s; cbn [M_fold]; [apply cg_ret|]. by apply cg_bind.
Qed.

(** Code with a variable of its own is related when its runs are. *)
Definition with_variable E : ∀ A, M (V * E) A → M (V' * E) A → Prop := λ A m m',
  ∀ e, R (A * E) (run_local m e) (run_local m' e).

#[export] Instance with_variable_congruent E : Congruent (with_variable E).
Proof.
  split.
  - intros A m n m' n' Hm Hm' Hn e. eapply cg_ext; [..|apply (Hn e)]; intros v; unfold run_local; by rewrite ?Hm, ?Hm'.
  - intros A x e. apply (cg_ext _ _ (lift ((λ a, (a, e)) <$> x)) _ (lift ((λ a, (a, e)) <$> x))); [| |apply cg_lift];
      intros v; unfold run_local, lift; by destruct x.
  - intros A B m m' f f' Hm Hf e.
    apply (cg_ext _ _ (run_local m e ≫= λ '(a, e), run_local (f a) e) _ (run_local m' e ≫= λ '(a, e), run_local (f' a) e)).
    + intros v. unfold run_local. rewrite !M_bind_eq. by destruct (m (v, e)) as [[] []].
    + intros v. unfold run_local. rewrite !M_bind_eq. by destruct (m' (v, e)) as [[] []].
    + apply cg_bind; [apply Hm|]. intros [a e']. apply Hf.
Qed.

Lemma cg_local {E A} (m : M V A) (m' : M V' A) : R A m m' → with_variable E A (local m) (local m').
Proof.
  intros Hm e. apply (cg_ext _ _ (a ← m; mret (a, e)) _ (a ← m'; mret (a, e))).
  - intros v. unfold run_local, local. rewrite M_bind_eq. cbn. by destruct (m v) as [[]].
  - intros v. unfold run_local, local. rewrite M_bind_eq. cbn. by destruct (m' v) as [[]].
  - apply cg_bind; [done|]. intros a. apply cg_ret.
Qed.
Lemma cg_variable {E} : with_variable E E (gets snd) (gets snd).
Proof. intros e. eapply cg_ext; [..|exact (cg_ret (e, e))]; done. Qed.
Lemma cg_assign {E} (x : E) : with_variable E unit (modify (λ w, (w.1, x))) (modify (λ w, (w.1, x))).
Proof. intros e. eapply cg_ext; [..|exact (cg_ret (tt, x))]; done. Qed.
End congruent.

(** A method of a referenced object: a result, and the new state if there is one. *)
Definition method {V S A} (r : Ref V S) (f : S → exc A * option S) : M V A := λ v,
  let '(x, s) := f (ref_get r v) in (x, match s with Some s => ref_set r s v | None => v end).

Section methods.
Context {V V' : Type} (R : ∀ A, M V A → M V' A → Prop) `{!Congruent R}.

(** The two references see the same object. *)
Definition same_object {S} (r : Ref V S) (r' : Ref V' S) : Prop :=
  ∀ A (f : S → exc A * option S), R A (method r f) (method r' f).

Context {S : Type} (r : Ref V S) (r' : Ref V' S) (Hr : same_object r r').

Lemma same_object_comp {T} (q : Ref S T) : same_object (ref_comp r q) (ref_comp r' q).
Proof.
  intros A f. eapply cg_ext; [..|apply (Hr A (λ s, let '(x, t) := f (ref_get q s) in (x, (λ t, ref_set q t s) <$> t)))];
    intros v; unfold method; cbn; by destruct (f _) as [? []].
Qed.
Lemma cg_get {A} (f : S → A) : R A (gets (λ v, f (ref_get r v))) (gets (λ v, f (ref_get r' v))).
Proof. eapply cg_ext; [..|apply (Hr A (λ s, (Ret (f s), None)))]; done. Qed.
Lemma cg_object : R S (gets (ref_get r)) (gets (ref_get r')).
Proof. apply (cg_get (λ s, s)). Qed.
Lemma cg_read {A} (f : S → A) : R A (ref_read r f) (ref_read r' f).
Proof. apply cg_get. Qed.
Lemma cg_set s : R unit (modify (ref_set r s)) (modify (ref_set r' s)).
Proof. eapply cg_ext; [..|apply (Hr unit (λ _, (Ret tt, Some s)))]; done. Qed.
Lemma cg_upd f : R unit (ref_upd r f) (ref_upd r' f).
Proof. eapply cg_ext; [..|apply (Hr unit (λ s, (Ret tt, Some (f s))))]; done. Qed.
Lemma cg_call f : R unit (ref_call r f) (ref_call r' f).
Proof.
  eapply cg_ext; [..|apply (Hr unit (λ s, match f s with Ret s' => (Ret tt, Some s') | Throw e => (Throw e, None)
    | Stuck => (Stuck, None) end))]; intros v; unfold method, ref_call; by destruct (f _).
Qed.
Lemma cg_run {A} (f : S → exc (A * S)) : R A (ref_run r f) (ref_run r' f).
Proof.
  eapply cg_ext; [..|apply (Hr A (λ s, match f s with Ret (a, s') => (Ret a, Some s') | Throw e => (Throw e, None)
    | Stuck => (Stuck, None) end))]; intros v; unfold method, ref_run; by destruct (f _) as [[]| |].
Qed.
End methods.

(** ** Lists *)
Lemma filter_all {A} (P : A → Prop) `{!∀ x, Decision (P x)} (l : list A) :
  Forall P l → filter P l = l.
Proof.
  induction 1; [done|]. rewrite filter_cons_True by done. by f_equal.
Qed.

Lemma existsb_elem {A} (f : A → bool) (l : list A) :
  existsb f l = true ↔ ∃ x, x ∈ l ∧ f x = true.
Proof.
  rewrite existsb_exists. split; intros (x & Hx & Hf); exists x; split; try done;
    by apply list_elem_of_In.
Qed.

Lemma forallb_elem {A} (f : A → bool) (l : list A) :
  forallb f l = true ↔ ∀ x, x ∈ l → f x = true.
Proof.
  rewrite forallb_forall. split; intros H x Hx; apply H; by apply list_elem_of_In.
Qed.

(** The first occurrence of a separator splits a list in one way. *)
Lemma app_cons_first_inj {A} (x : A) a a' b b' :
  x ∉ a → x ∉ a' → a ++ x :: b = a' ++ x :: b' → a = a' ∧ b = b'.
Proof.
  revert a'. induction a as [|y a IH]; intros [|y' a'] Ha Ha' Heq; simplify_eq/=.
  - done.
  - destruct Ha'. left.
  - destruct Ha. left.
  - apply not_elem_of_cons in Ha as [_ Ha]. apply not_elem_of_cons in Ha' as [_ Ha'].
    by destruct (IH a' Ha Ha') as [-> ->].
Qed.

(** ** Machine integers

    The code's 64-bit clock values are [Z]; signed overflow is undefined
    behaviour in C++, so the arithmetic is exact and [in_i64] states the range.
    Unsigned counters wrap. *)
Definition in_i64 (z : Z) : Prop := - 2 ^ 63 ≤ z < 2 ^ 63.
(** Signed 64-bit addition and multiplication, undefined on overflow. *)
Definition i64_ok (z : Z) : exc Z := if (- 2 ^ 63 <=? z) && (z <? 2 ^ 63) then Ret z else Stuck.
Lemma i64_ok_Ret z : in_i64 z → i64_ok z = Ret z.
Proof.
  unfold in_i64, i64_ok. intros [H1 H2]. by rewrite (proj2 (Z.leb_le _ _) H1), (proj2 (Z.ltb_lt _ _) H2).
Qed.
Lemma i64_ok_inv z a : i64_ok z = Ret a → a = z ∧ in_i64 z.
Proof. unfold i64_ok, in_i64. destruct (_ && _) eqn:E; intros [= <-]. split; [done|lia]. Qed.
(** Closed decidable goals, by evaluation. *)
Ltac decide_closed := refine (bool_decide_unpack _ _); vm_compute; exact I.

(** Linear arithmetic with divisions and remainders by constants. *)
Ltac div_lia := zify; Z.to_euclidean_division_equations; lia.
Definition u64_succ (z : Z) : Z := (z + 1) `mod` 2 ^ 64.
Definition clamp (z lo hi : Z) : Z := if z <? lo then lo else if hi <? z then hi else z.

Lemma clamp_bounds z lo hi : lo ≤ hi → lo ≤ clamp z lo hi ≤ hi.
Proof. unfold clamp. destruct (Z.ltb_spec z lo), (Z.ltb_spec hi z); lia. Qed.

Lemma clamp_id z lo hi : lo ≤ z ≤ hi → clamp z lo hi = z.
Proof. unfold clamp. destruct (Z.ltb_spec z lo), (Z.ltb_spec hi z); lia. Qed.

(** ** Iteration over std::unordered_map

    The order in which a hash map is iterated is unspecified: it is a parameter
    of every definition that iterates one, and the only law is that it visits
    each binding once. *)
Class UMapOrder : Type := {
  um_iter : ∀ {A : Type}, gmap string A → list (string * A);
  um_iter_perm : ∀ {A : Type} (m : gmap string A), um_iter m ≡ₚ map_to_list m;
}.

Lemma um_iter_elem `{!UMapOrder} {A} (m : gmap string A) k v :
  (k, v) ∈ um_iter m ↔ m !! k = Some v.
Proof. rewrite um_iter_perm. apply elem_of_map_to_list. Qed.

Lemma um_iter_nodup `{!UMapOrder} {A} (m : gmap string A) : NoDup (um_iter m).*1.
Proof. rewrite um_iter_perm. apply NoDup_fst_map_to_list. Qed.

(** The order used by the evaluation examples. *)
Definition um_canonical : UMapOrder := {|
  um_iter A m := map_to_list m;
  um_iter_perm A m := reflexivity _;
|}.
