(* ===== verification/StdList.v ===== *)
(** * std::list and the list-plus-index pattern

    [slist] models [std::list] with the identity of its nodes: an iterator is
    the identity of a node, it survives operations on other nodes, and using
    one whose node is gone is undefined behaviour ([None]).  [lru_wf] is the
    invariant of the pattern the caches share (a hash map whose values hold
    iterators into a recency list, or which is itself such an index), with one
    lemma per operation the caches perform on the pair. *)
From S2P Require Import Prelude.

Record slist (A : Type) : Type := SList {
  sl_nodes : list (nat * A);   (* front first *)
  sl_fresh : nat;              (* identity of the next node *)
}.
Arguments SList {A} _ _.
Arguments sl_nodes {A} _.
Arguments sl_fresh {A} _.

Definition sl_empty {A} : slist A := SList [] 0.
Definition sl_size {A} (l : slist A) : Z := Z.of_nat (length (sl_nodes l)).

Definition sl_push_front {A} (x : A) (l : slist A) : slist A :=
  SList ((sl_fresh l, x) :: sl_nodes l) (S (sl_fresh l)).

(** [begin()], used right after [push_front]. *)
Definition sl_begin {A} (l : slist A) : option nat := fst <$> head (sl_nodes l).

Fixpoint nodes_get {A} (it : nat) (l : list (nat * A)) : option A :=
  match l with
  | [] => None
  | (i, x) :: l => if decide (i = it) then Some x else nodes_get it l
  end.

Fixpoint nodes_set {A} (it : nat) (y : A) (l : list (nat * A)) : list (nat * A) :=
  match l with
  | [] => []
  | (i, x) :: l => if decide (i = it) then (i, y) :: l else (i, x) :: nodes_set it y l
  end.

Definition nodes_erase {A} (it : nat) (l : list (nat * A)) : list (nat * A) :=
  filter (λ p, p.1 ≠ it) l.

(** Dereferencing, assigning through, erasing and moving an iterator. *)
Definition sl_get {A} (it : nat) (l : slist A) : option A := nodes_get it (sl_nodes l).

Definition sl_set {A} (it : nat) (y : A) (l : slist A) : option (slist A) :=
  (λ _, SList (nodes_set it y (sl_nodes l)) (sl_fresh l)) <$> sl_get it l.

Definition sl_erase {A} (it : nat) (l : slist A) : option (slist A) :=
  (λ _, SList (nodes_erase it (sl_nodes l)) (sl_fresh l)) <$> sl_get it l.

(** [l.splice(l.begin(), l, it)]: the node moves to the front, iterators stay valid. *)
Definition sl_splice_front {A} (it : nat) (l : slist A) : option (slist A) :=
  (λ x, SList ((it, x) :: nodes_erase it (sl_nodes l)) (sl_fresh l)) <$> sl_get it l.

Definition sl_back {A} (l : slist A) : option A := snd <$> last (sl_nodes l).

Definition sl_pop_back {A} (l : slist A) : option (slist A) :=
  (λ _, SList (removelast (sl_nodes l)) (sl_fresh l)) <$> last (sl_nodes l).

Record sl_wf {A} (l : slist A) : Prop := {
  sl_wf_nodup : NoDup (sl_nodes l).*1;
  sl_wf_fresh : Forall (λ p, (p.1 < sl_fresh l)%nat) (sl_nodes l);
}.

(** ** Nodes *)
Section nodes.
Context {A : Type}.
Implicit Types (l : list (nat * A)) (x y : A).

Lemma nodes_get_Some it l x : nodes_get it l = Some x → (it, x) ∈ l.
Proof.
  induction l as [|[i z] l IH]; simpl; [done|].
  case_decide; intros; simplify_eq; set_solver.
Qed.

Lemma nodes_get_elem it l x : NoDup l.*1 → (it, x) ∈ l → nodes_get it l = Some x.
Proof.
  induction l as [|[i z] l IH]; simpl; [set_solver|].
  intros [Hi Hl]%NoDup_cons [Heq|Hin]%elem_of_cons; case_decide; simplify_eq; auto.
  destruct Hi. apply list_elem_of_fmap. by exists (it, x).
Qed.

Lemma nodes_unique it l x y : NoDup l.*1 → (it, x) ∈ l → (it, y) ∈ l → x = y.
Proof. intros Hl Hx%nodes_get_elem Hy%nodes_get_elem; congruence || auto. Qed.

Lemma nodes_erase_elem it l i x : (i, x) ∈ nodes_erase it l ↔ i ≠ it ∧ (i, x) ∈ l.
Proof. unfold nodes_erase. by rewrite list_elem_of_filter. Qed.

Lemma nodes_erase_nodup it l : NoDup l.*1 → NoDup (nodes_erase it l).*1.
Proof.
  unfold nodes_erase. induction l as [|[i x] l IH]; simpl; [done|].
  intros [Hi Hl]%NoDup_cons. rewrite filter_cons; simpl. case_decide; simpl; [|auto].
  apply NoDup_cons. split; [|auto]. intros Hin. apply Hi.
  apply list_elem_of_fmap in Hin as ([j y] & ? & Hj%list_elem_of_filter).
  apply list_elem_of_fmap. exists (j, y). naive_solver.
Qed.

Lemma nodes_set_keys it y l : (nodes_set it y l).*1 = l.*1.
Proof. induction l as [|[i x] l IH]; simpl; [done|]. case_decide; by f_equal/=. Qed.

Lemma nodes_set_elem it y l i x :
  NoDup l.*1 → it ∈ l.*1 →
  (i, x) ∈ nodes_set it y l ↔ (i = it ∧ x = y) ∨ (i ≠ it ∧ (i, x) ∈ l).
Proof.
  induction l as [|[j z] l IH]; simpl; [set_solver|].
  intros [Hj Hl]%NoDup_cons Hit.
  assert (∀ x, (j, x) ∉ l) as Hjl.
  { intros x' Hin. apply Hj, list_elem_of_fmap. by exists (j, x'). }
  case_decide as Hji; subst.
  - rewrite !elem_of_cons. split; [|naive_solver].
    intros [?|?]; simplify_eq; [by left|]. destruct (decide (i = it)); naive_solver.
  - apply elem_of_cons in Hit as [?|Hit]; [done|].
    rewrite !elem_of_cons, IH by done. naive_solver.
Qed.
End nodes.

(** ** The list-plus-index invariant *)
Section lru.
Context {V A : Type} (it : V → nat) (key : A → string).
Implicit Types (m : gmap string V) (l : slist A) (v : V) (x : A).

Record lru_wf m l : Prop := {
  lru_sl : sl_wf l;
  lru_valid : ∀ k v, m !! k = Some v → ∃ x, (it v, x) ∈ sl_nodes l ∧ key x = k;
  lru_index : ∀ i x, (i, x) ∈ sl_nodes l → ∃ v, m !! key x = Some v ∧ it v = i;
}.

Lemma lru_wf_empty : lru_wf ∅ sl_empty.
Proof.
  split; simpl; [split; constructor| |set_solver].
  intros k v. by rewrite lookup_empty.
Qed.

(** No iterator held by the index dangles. *)
Lemma lru_get m l k v :
  lru_wf m l → m !! k = Some v → ∃ x, sl_get (it v) l = Some x ∧ key x = k.
Proof.
  intros [[Hnd _] Hv _] Hk. destruct (Hv k v Hk) as (x & Hx & ?).
  exists x. split; [|done]. by apply nodes_get_elem.
Qed.

Lemma lru_nodup_keys m l : lru_wf m l → NoDup ((key ∘ snd) <$> sl_nodes l).
Proof.
  intros [[Hnd _] _ Hi]. revert Hi Hnd. generalize (sl_nodes l) as ns.
  induction ns as [|[i x] ns IH]; intros Hi Hnd; simpl; [constructor|].
  apply NoDup_cons in Hnd as [Hx Hnd]. apply NoDup_cons. split; [|apply IH; set_solver].
  intros ([j y] & Hxy & Hin)%list_elem_of_fmap. simpl in Hxy.
  destruct (Hi i x) as (v & Hv & <-); [left|].
  destruct (Hi j y) as (v' & Hv' & <-); [by right|].
  apply Hx, list_elem_of_fmap. exists (it v', y). split; [|done]. simpl. congruence.
Qed.

Lemma lru_size m l : lru_wf m l → length (sl_nodes l) = size m.
Proof.
  intros Hwf. pose proof (lru_nodup_keys _ _ Hwf) as Hnd. destruct Hwf as [_ Hv Hi].
  rewrite <-(length_fmap (key ∘ snd)), <-(size_list_to_set (C:=gset string)) by done.
  rewrite <-size_dom. f_equal. apply leibniz_equiv. intros k.
  rewrite elem_of_list_to_set, list_elem_of_fmap, elem_of_dom. split.
  - intros ([i x] & -> & Hin). destruct (Hi i x Hin) as (v & ? & _). by exists v.
  - intros [v Hk]. destruct (Hv k v Hk) as (x & ? & <-). by exists (it v, x).
Qed.

(** The value of a key changes but not its iterator. *)
Lemma lru_update m l k v v' :
  lru_wf m l → m !! k = Some v → it v' = it v → lru_wf (<[k:=v']> m) l.
Proof.
  intros [Hsl Hv Hi] Hk Hit. split; [done| |].
  - intros k' w. destruct (decide (k = k')) as [<-|]; simplify_map_eq; [|auto].
    intros [= <-]. rewrite Hit. auto.
  - intros i x Hin. destruct (Hi i x Hin) as (w & Hw & <-).
    destruct (decide (k = key x)) as [->|]; simplify_map_eq; eauto.
Qed.

(** Every value changes but none of the iterators. *)
Lemma lru_fmap m l (f : V → V) :
  lru_wf m l → (∀ v, it (f v) = it v) → lru_wf (f <$> m) l.
Proof.
  intros [Hsl Hv Hi] Hf. split; [done| |].
  - intros k w. rewrite lookup_fmap, fmap_Some. intros (v & Hk & ->). rewrite Hf. auto.
  - intros i x Hin. destruct (Hi i x Hin) as (w & Hw & <-).
    exists (f w). by rewrite lookup_fmap, Hw, Hf.
Qed.

(** Erase a key and the node its iterator names. *)
Lemma lru_delete m l k v :
  lru_wf m l → m !! k = Some v →
  ∃ l', sl_erase (it v) l = Some l' ∧ lru_wf (delete k m) l' ∧ sl_fresh l' = sl_fresh l
        ∧ sl_nodes l' = nodes_erase (it v) (sl_nodes l).
Proof.
  intros Hwf Hk. destruct (lru_get _ _ _ _ Hwf Hk) as (x & Hx & <-).
  unfold sl_erase. rewrite Hx. simpl. eexists; split_and!; [done| |done|done].
  destruct Hwf as [[Hnd Hfr] Hv Hi]. split; simpl.
  - split; simpl; [by apply nodes_erase_nodup|].
    apply Forall_forall. intros [i y] [_ Hin]%nodes_erase_elem.
    by eapply Forall_forall in Hfr.
  - intros k' w [Hne Hw]%lookup_delete_Some. destruct (Hv k' w Hw) as (y & Hy & <-).
    exists y. split; [|done]. apply nodes_erase_elem. split; [|done].
    intros Heq. rewrite Heq in Hy. apply nodes_get_Some in Hx.
    by rewrite (nodes_unique _ _ _ _ Hnd Hy Hx) in Hne.
  - intros i y [Hne Hin]%nodes_erase_elem. destruct (Hi i y Hin) as (w & Hw & <-).
    exists w. split; [|done]. rewrite lookup_delete_ne; [done|].
    intros Heq. rewrite Heq in Hk. naive_solver.
Qed.

(** Insert a new key whose node is pushed to the front. *)
Lemma lru_insert m l k v x :
  lru_wf m l → m !! k = None → key x = k → it v = sl_fresh l →
  lru_wf (<[k:=v]> m) (sl_push_front x l).
Proof.
  intros [[Hnd Hfr] Hv Hi] Hk Hx Hit. rewrite Forall_forall in Hfr. split; simpl.
  - split; simpl.
    + apply NoDup_cons. split; [|done].
      intros ([i y] & Heq & Hin)%list_elem_of_fmap. specialize (Hfr _ Hin). simpl in *. lia.
    + apply Forall_cons. split; [simpl; lia|].
      apply Forall_forall. intros [i y] Hin. specialize (Hfr _ Hin). simpl in *. lia.
  - intros k' w. destruct (decide (k = k')) as [<-|]; simplify_map_eq.
    + intros [= <-]. exists x. rewrite Hit. split; [left|done].
    + intros Hw. destruct (Hv k' w Hw) as (y & ? & ?). exists y. split; [by right|done].
  - intros i y [Heq|Hin]%elem_of_cons.
    + simplify_eq. exists v. by simplify_map_eq.
    + destruct (Hi i y Hin) as (w & Hw & <-). exists w. split; [|done].
      rewrite lookup_insert_ne; [done|congruence].
Qed.

(** Move a key's node to the front by erasing it and pushing a new one. *)
Lemma lru_touch m l k v v' x :
  lru_wf m l → m !! k = Some v → key x = k → it v' = sl_fresh l →
  ∃ l', sl_erase (it v) l = Some l' ∧ sl_fresh l' = sl_fresh l
        ∧ lru_wf (<[k:=v']> m) (sl_push_front x l').
Proof.
  intros Hwf Hk Hx Hit. destruct (lru_delete _ _ _ _ Hwf Hk) as (l' & He & Hd & Hf & _).
  exists l'. split_and!; [done|done|].
  rewrite <-insert_delete_eq. apply lru_insert; [done| |done|congruence].
  apply lookup_delete_eq.
Qed.

(** Move a key's node to the front by splicing. *)
Lemma lru_splice m l k v :
  lru_wf m l → m !! k = Some v →
  ∃ l', sl_splice_front (it v) l = Some l' ∧ lru_wf m l'
        ∧ length (sl_nodes l') = length (sl_nodes l).
Proof.
  intros Hwf Hk. destruct (lru_get _ _ _ _ Hwf Hk) as (x & Hx & Hkx).
  unfold sl_splice_front. rewrite Hx. simpl. eexists; split; [done|].
  assert (lru_wf m (SList ((it v, x) :: nodes_erase (it v) (sl_nodes l)) (sl_fresh l))) as Hwf'.
  { destruct Hwf as [[Hnd Hfr] Hv Hi]. apply nodes_get_Some in Hx.
    rewrite Forall_forall in Hfr. split; simpl.
    - split; simpl.
      + apply NoDup_cons. split; [|by apply nodes_erase_nodup].
        intros ([i y] & Heq & [? _]%nodes_erase_elem)%list_elem_of_fmap. simpl in *. congruence.
      + apply Forall_cons. split; [by apply (Hfr _ Hx)|].
        apply Forall_forall. intros [i y] [_ Hin]%nodes_erase_elem. by apply (Hfr _ Hin).
    - intros k' w Hw. destruct (Hv k' w Hw) as (y & Hy & <-). exists y. split; [|done].
      apply elem_of_cons. destruct (decide (it w = it v)) as [Heq|Hne].
      + left. rewrite Heq in *. by rewrite (nodes_unique _ _ _ _ Hnd Hy Hx).
      + right. by apply nodes_erase_elem.
    - intros i y [Heq|[_ Hin]%nodes_erase_elem]%elem_of_cons; [|auto].
      simplify_eq. eauto. }
  split; [done|]. rewrite (lru_size _ _ Hwf), <-(lru_size _ _ Hwf'). done.
Qed.

(** Assign a new element through a key's iterator. *)
Lemma lru_set m l k v y :
  lru_wf m l → m !! k = Some v → key y = k →
  ∃ l', sl_set (it v) y l = Some l' ∧ lru_wf m l' ∧ sl_get (it v) l' = Some y
        ∧ (∀ i, i ≠ it v → sl_get i l' = sl_get i l)
        ∧ length (sl_nodes l') = length (sl_nodes l).
Proof.
  intros Hwf Hk Hy. destruct (lru_get _ _ _ _ Hwf Hk) as (x & Hx & Hkx).
  unfold sl_set. rewrite Hx. simpl. eexists; split; [done|].
  destruct Hwf as [[Hnd Hfr] Hv Hi]. apply nodes_get_Some in Hx.
  assert (it v ∈ (sl_nodes l).*1) as Hin. { apply list_elem_of_fmap. by exists (it v, x). }
  assert (∀ i z, (i, z) ∈ nodes_set (it v) y (sl_nodes l) ↔
            (i = it v ∧ z = y) ∨ (i ≠ it v ∧ (i, z) ∈ sl_nodes l)) as Hel.
  { intros. by apply nodes_set_elem. }
  assert (NoDup (nodes_set (it v) y (sl_nodes l)).*1) as Hnd' by by rewrite nodes_set_keys.
  split_and!.
  - split; simpl.
    + split; simpl; [done|].
      rewrite Forall_forall in Hfr. apply Forall_forall. intros [i z] [[-> ->]|[_ ?]]%Hel.
      * by apply (Hfr _ Hx).
      * by apply (Hfr (i, z)).
    + intros k' w Hw. destruct (Hv k' w Hw) as (z & Hz & <-).
      destruct (decide (it w = it v)) as [Heq|Hne].
      * exists y. rewrite Heq in *. rewrite (nodes_unique _ _ _ _ Hnd Hz Hx).
        split; [apply Hel; by left|congruence].
      * exists z. split; [apply Hel; by right|done].
    + intros i z [[-> ->]|[_ ?]]%Hel; [|auto]. exists v. by rewrite Hy.
  - apply nodes_get_elem; [done|]. apply Hel. by left.
  - intros i Hne. unfold sl_get. simpl. clear -Hne.
    induction (sl_nodes l) as [|[j z] ns IH]; simpl; [done|].
    repeat case_decide; simplify_eq/=; try done;
      repeat case_decide; simplify_eq/=; done.
  - pose proof (f_equal length (nodes_set_keys (it v) y (sl_nodes l))) as Hlen.
    by rewrite !length_fmap in Hlen.
Qed.

(** Drop the node at the back and the key it names. *)
Lemma lru_pop_back m l :
  lru_wf m l → (0 < size m)%nat →
  ∃ x l', sl_back l = Some x ∧ sl_pop_back l = Some l' ∧ is_Some (m !! key x) ∧
          lru_wf (delete (key x) m) l'.
Proof.
  intros Hwf Hsz. pose proof (lru_size _ _ Hwf) as Hlen.
  destruct (last (sl_nodes l)) as [[i x]|] eqn:Hlast.
  2: { apply last_None in Hlast. rewrite Hlast in Hlen. simpl in Hlen. lia. }
  apply last_Some in Hlast as [ns Hns].
  assert ((i, x) ∈ sl_nodes l) as Hin by (rewrite Hns; set_solver).
  destruct (lru_index _ _ Hwf i x Hin) as (v & Hv & Hi).
  destruct (lru_delete _ _ _ _ Hwf Hv) as (l' & He & Hd & Hf & Hn).
  exists x, l'. unfold sl_back, sl_pop_back. rewrite Hns, last_snoc. simpl.
  split_and!; [done| |by exists v|done].
  f_equal. destruct l' as [ns' f']. simpl in *. subst ns' f'. f_equal.
  rewrite Hns, removelast_last. unfold nodes_erase. rewrite filter_app, filter_cons. simpl.
  rewrite decide_False by (rewrite Hi; tauto). rewrite filter_nil, app_nil_r.
  symmetry. apply filter_all. rewrite Forall_forall. intros [j y] Hj. simpl.
  destruct Hwf as [[Hnd _] _ _]. rewrite Hns, fmap_app in Hnd.
  apply NoDup_app in Hnd as (_ & Hdis & _). intros ->.
  apply (Hdis (it v)); [apply list_elem_of_fmap; by exists (it v, y)|].
  simpl. rewrite Hi. set_solver.
Qed.
End lru.

Arguments lru_wf {V A} it key m l.
