(* ===== verification/CppString.v ===== *)
(** * std::string

    Byte strings and the operations of [std::string] and [<cctype>] (C locale)
    the program uses: sizes, prefixes, searches, substrings, case folding,
    trimming, splitting on spaces, decimal output. *)
From S2P Require Import Prelude.
From Stdlib Require Export Ascii.

Definition chars (s : string) : list ascii := String.list_ascii_of_string s.
Definition of_chars (l : list ascii) : string := String.string_of_list_ascii l.

(** [static_cast<unsigned char>(c)] and back. *)
Definition uc (c : ascii) : Z := Z.of_N (N_of_ascii c).
Definition to_char (z : Z) : ascii := ascii_of_N (Z.to_N (z `mod` 256)).

Definition sempty (s : string) : bool := match s with EmptyString => true | _ => false end.
Definition ssize (s : string) : Z := Z.of_nat (String.length s).
Definition seqb (a b : string) : bool := bool_decide (a = b).

Definition in_range (lo hi : ascii) (c : ascii) : bool := (uc lo <=? uc c) && (uc c <=? uc hi).
Definition is_upper (c : ascii) : bool := in_range "A" "Z" c.
Definition is_lower (c : ascii) : bool := in_range "a" "z" c.
Definition is_digit (c : ascii) : bool := in_range "0" "9" c.
Definition tolower (c : ascii) : ascii := if is_upper c then to_char (uc c + 32) else c.

(** [std::isspace] in the C locale. *)
Definition is_space (c : ascii) : bool :=
  bool_decide (c = " "%char) || ((9 <=? uc c) && (uc c <=? 13)).

Definition smap (f : ascii → ascii) (s : string) : string := of_chars (f <$> chars s).
Definition lower_ascii (s : string) : string := smap tolower s.

(** [s.rfind(p, 0) == 0] / the static [StartsWith] helpers. *)
Definition starts_with (p s : string) : bool := String.prefix p s.

(** Index of the first / last character satisfying a predicate. *)
Fixpoint find_if (f : ascii → bool) (l : list ascii) : option nat :=
  match l with
  | [] => None
  | c :: l => if f c then Some 0%nat else S <$> find_if f l
  end.
Fixpoint rfind_if (f : ascii → bool) (l : list ascii) : option nat :=
  match l with
  | [] => None
  | c :: l => match rfind_if f l with
              | Some n => Some (S n)
              | None => if f c then Some 0%nat else None
              end
  end.
Definition is_char (c : ascii) : ascii → bool := λ d, bool_decide (d = c).
Definition find_char (c : ascii) (s : string) : option nat := find_if (is_char c) (chars s).
Definition rfind_char (c : ascii) (s : string) : option nat := rfind_if (is_char c) (chars s).
Definition contains_char (c : ascii) (s : string) : bool := existsb (is_char c) (chars s).

Definition stake (n : nat) (s : string) : string := of_chars (take n (chars s)).
Definition sdrop (n : nat) (s : string) : string := of_chars (drop n (chars s)).
(** [s.substr(pos, len)] *)
Definition substr (pos len : nat) (s : string) : string := stake len (sdrop pos s).

Fixpoint drop_while (f : ascii → bool) (l : list ascii) : list ascii :=
  match l with
  | [] => []
  | c :: l' => if f c then drop_while f l' else l
  end.
(** Strip a class of characters at both ends. *)
Definition trim_front (f : ascii → bool) (s : string) : string := of_chars (drop_while f (chars s)).
Definition trim_back (f : ascii → bool) (s : string) : string :=
  of_chars (reverse (drop_while f (reverse (chars s)))).

(** The scope splitter: maximal runs of non-space characters, by position as
    the code's [start]/[end] loop finds them. *)
Fixpoint split_char_go (sep : ascii) (cur : list ascii) (l : list ascii) : list string :=
  match l with
  | [] => if decide (cur = []) then [] else [of_chars (reverse cur)]
  | c :: l =>
      if decide (c = sep) then
        (if decide (cur = []) then [] else [of_chars (reverse cur)]) ++ split_char_go sep [] l
      else split_char_go sep (c :: cur) l
  end.

Definition show_Z (z : Z) : string := pretty z.

Definition hex_lower (n : Z) : ascii := nth (Z.to_nat n) (chars "0123456789abcdef") "0"%char.
Definition hex_upper (n : Z) : ascii := nth (Z.to_nat n) (chars "0123456789ABCDEF") "0"%char.

Section string_lemmas.
Implicit Types (s t : string) (l : list ascii) (c : ascii).

Lemma chars_of_chars l : chars (of_chars l) = l.
Proof. apply String.list_ascii_of_string_of_list_ascii. Qed.
Lemma of_chars_chars s : of_chars (chars s) = s.
Proof. apply String.string_of_list_ascii_of_string. Qed.
Lemma chars_inj s t : chars s = chars t → s = t.
Proof. intros H. by rewrite <-(of_chars_chars s), H, of_chars_chars. Qed.
Lemma of_chars_inj l l' : of_chars l = of_chars l' → l = l'.
Proof. intros H. by rewrite <-(chars_of_chars l), H, chars_of_chars. Qed.
Lemma chars_app s t : chars (s +:+ t) = chars s ++ chars t.
Proof. induction s as [|c s IH]; [done|]. unfold chars in *. simpl. by f_equal. Qed.
Lemma of_chars_app l l' : of_chars (l ++ l') = of_chars l +:+ of_chars l'.
Proof. apply chars_inj. by rewrite chars_app, !chars_of_chars. Qed.
Lemma length_chars s : length (chars s) = String.length s.
Proof. induction s as [|c s IH]; [done|]. unfold chars in *. simpl. by f_equal. Qed.
Lemma sempty_true s : sempty s = true ↔ s = "".
Proof. by destruct s. Qed.
Lemma sempty_false s : sempty s = false ↔ s ≠ "".
Proof. by destruct s. Qed.
Lemma seqb_true s t : seqb s t = true ↔ s = t.
Proof. apply bool_decide_eq_true. Qed.
Lemma seqb_false s t : seqb s t = false ↔ s ≠ t.
Proof. apply bool_decide_eq_false. Qed.
Lemma seqb_refl s : seqb s s = true.
Proof. by apply seqb_true. Qed.
Lemma seqb_sym s t : seqb s t = seqb t s.
Proof. apply bool_decide_ext. naive_solver. Qed.

Lemma starts_with_spec p s : starts_with p s = true ↔ ∃ t, s = p +:+ t.
Proof.
  revert s. induction p as [|a p IH]; intros s; simpl.
  - split; [eauto|]. by destruct s.
  - destruct s as [|b s]; simpl.
    + split; [done|]. by intros [t ?].
    + destruct (ascii_dec a b) as [->|Hne].
      * rewrite IH. split; intros [t Ht]; exists t; [by rewrite Ht|].
        unfold String.append in Ht. by simplify_eq.
      * split; [done|]. intros [t Ht]. unfold String.append in Ht. congruence.
Qed.

Lemma sapp_empty_r s : s +:+ "" = s.
Proof. apply chars_inj. by rewrite chars_app, app_nil_r. Qed.
Lemma sapp_assoc s t u : s +:+ (t +:+ u) = (s +:+ t) +:+ u.
Proof. apply chars_inj. by rewrite !chars_app, app_assoc. Qed.

Lemma app_inj_prefix s t t' : s +:+ t = s +:+ t' → t = t'.
Proof.
  intros H. apply (f_equal chars) in H. rewrite !chars_app in H.
  apply chars_inj. by simplify_list_eq.
Qed.

Lemma uc_bounds c : 0 ≤ uc c < 256.
Proof. unfold uc. pose proof (N_ascii_bounded c). lia. Qed.
Lemma to_char_uc c : to_char (uc c) = c.
Proof.
  unfold to_char. rewrite Z.mod_small by apply uc_bounds. unfold uc.
  by rewrite N2Z.id, ascii_N_embedding.
Qed.
Lemma uc_to_char z : 0 ≤ z < 256 → uc (to_char z) = z.
Proof.
  intros Hz. unfold to_char, uc. rewrite Z.mod_small by done.
  rewrite N_ascii_embedding by lia. lia.
Qed.
Lemma uc_inj c c' : uc c = uc c' → c = c'.
Proof. intros H. by rewrite <-(to_char_uc c), H, to_char_uc. Qed.

Lemma is_char_true c d : is_char c d = true ↔ d = c.
Proof. apply bool_decide_eq_true. Qed.

Lemma find_if_Some f l n :
  find_if f l = Some n ↔
  ∃ l1 c l2, l = l1 ++ c :: l2 ∧ length l1 = n ∧ f c = true ∧ forallb (negb ∘ f) l1 = true.
Proof.
  revert n. induction l as [|d l IH]; intros n; simpl.
  - split; [done|]. by intros ([|??] & ? & ? & ? & _).
  - destruct (f d) eqn:Hd.
    + split.
      * intros [= <-]. by exists [], d, l.
      * intros ([|d' l1] & c & l2 & ? & <- & Hc & Hl); simplify_eq/=; [done|].
        by rewrite Hd in Hl.
    + rewrite fmap_Some. split.
      * intros (m & (l1 & c & l2 & -> & <- & Hc & Hl)%IH & ->).
        exists (d :: l1), c, l2. simpl. by rewrite Hd, Hl.
      * intros ([|d' l1] & c & l2 & ? & <- & Hc & Hl); simplify_eq/=.
        { congruence. }
        exists (length l1). split; [|done]. apply IH. exists l1, c, l2.
        rewrite Hd in Hl. done.
Qed.

Lemma find_if_None f l : find_if f l = None ↔ forallb (negb ∘ f) l = true.
Proof.
  induction l as [|d l IH]; simpl; [done|]. destruct (f d); simpl; [done|].
  rewrite <-IH. by destruct (find_if f l).
Qed.

Lemma rfind_if_Some f l n :
  rfind_if f l = Some n →
  ∃ l1 c l2, l = l1 ++ c :: l2 ∧ length l1 = n ∧ f c = true ∧ forallb (negb ∘ f) l2 = true.
Proof.
  assert (∀ l, rfind_if f l = None → forallb (negb ∘ f) l = true) as Hnone.
  { intros l0. induction l0 as [|d l0 IH]; simpl; [done|].
    destruct (rfind_if f l0); [done|]. unfold compose in *.
    destruct (f d); simpl; [done|]. intros _. by apply IH. }
  revert n. induction l as [|d l IH]; intros n; simpl; [done|].
  destruct (rfind_if f l) as [m|] eqn:Hm.
  - intros [= <-]. destruct (IH m eq_refl) as (l1 & c & l2 & -> & <- & ? & ?).
    by exists (d :: l1), c, l2.
  - destruct (f d) eqn:Hd; [|done]. intros [= <-].
    exists [], d, l. auto.
Qed.

Lemma contains_char_spec c s : contains_char c s = true ↔ c ∈ chars s.
Proof.
  unfold contains_char. rewrite existsb_elem. split.
  - by intros (d & ? & ->%is_char_true).
  - intros H. exists c. by rewrite is_char_true.
Qed.

Lemma drop_while_length f l : (length (drop_while f l) ≤ length l)%nat.
Proof. induction l as [|c l IH]; simpl; [done|]. destruct (f c); simpl; lia. Qed.

Lemma drop_while_suffix f l : ∃ l1, l = l1 ++ drop_while f l ∧ forallb f l1 = true.
Proof.
  induction l as [|c l (l1 & Hl & Hf)]; simpl; [by exists []|].
  destruct (f c) eqn:Hc; [|by exists []].
  exists (c :: l1). simpl. rewrite Hc. split; [by f_equal|done].
Qed.

Lemma drop_while_head f l c l' : drop_while f l = c :: l' → f c = false.
Proof.
  induction l as [|d l IH]; simpl; [done|]. destruct (f d) eqn:Hd; [done|].
  intros. by simplify_eq.
Qed.

Lemma drop_while_id f c l : f c = false → drop_while f (c :: l) = c :: l.
Proof. simpl. by intros ->. Qed.

Lemma forallb_reverse (f : ascii → bool) l : forallb f (reverse l) = forallb f l.
Proof.
  apply eq_true_iff_eq. rewrite !forallb_elem. by setoid_rewrite elem_of_reverse.
Qed.
End string_lemmas.

(** Case analysis over the 256 bytes, by evaluation. *)
Lemma ascii_forall (P : ascii → bool) :
  forallb (λ n, P (ascii_of_nat n)) (seq 0 256) = true → ∀ c, P c = true.
Proof.
  intros H c. rewrite forallb_elem in H.
  rewrite <-(ascii_nat_embedding c). apply H. apply elem_of_seq.
  pose proof (nat_ascii_bounded c). lia.
Qed.

(** Decimal output has no characters but digits and a sign. *)
Lemma pretty_N_go_chars n s c :
  c ∈ chars (pretty_N_go n s) → c ∈ chars s ∨ is_digit c = true.
Proof.
  revert s. induction (N.lt_wf_0 n) as [n _ IH]; intros s.
  assert (n = 0 ∨ 0 < n)%N as [->|Hn] by lia; [rewrite pretty_N_go_0; by left|].
  rewrite pretty_N_go_step by done. intros [H|H]%IH; [|by right|by apply N.div_lt].
  unfold chars in H. simpl in H. apply elem_of_cons in H as [->|H]; [right|by left].
  unfold pretty_N_char. by repeat case_match.
Qed.

Lemma show_Z_chars z c : c ∈ chars (show_Z z) → is_digit c = true ∨ c = "-"%char.
Proof.
  assert (∀ n, c ∈ chars (pretty (N.pos n)) → is_digit c = true) as HN.
  { intros n. unfold pretty, pretty_N. rewrite decide_False by done.
    intros [H|?]%pretty_N_go_chars; [|done]. unfold chars in H. simpl in H. set_solver. }
  unfold show_Z, pretty, pretty_Z. destruct z as [|n|n].
  - unfold chars. simpl. intros ->%list_elem_of_singleton. by left.
  - intros H. left. by apply (HN n).
  - rewrite chars_app. intros [H|H]%elem_of_app; [|left; by apply (HN n)].
    right. unfold chars in H. simpl in H. by apply list_elem_of_singleton in H.
Qed.

Lemma show_Z_nonempty z : show_Z z ≠ "".
Proof.
  assert (∀ n s, s ≠ "" → pretty_N_go n s ≠ "") as Hgo.
  { intros n. induction (N.lt_wf_0 n) as [n _ IH]; intros s Hs.
    assert (n = 0 ∨ 0 < n)%N as [->|Hn] by lia; [by rewrite pretty_N_go_0|].
    rewrite pretty_N_go_step by done. apply IH; [by apply N.div_lt|done]. }
  assert (∀ n, pretty (N.pos n) ≠ "") as HN.
  { intros n. unfold pretty, pretty_N. rewrite decide_False by done.
    rewrite pretty_N_go_step by lia. by apply Hgo. }
  destruct z as [|n|n]; [done|apply (HN n)|done].
Qed.
