(* ===== verification/Executor.v ===== *)
(** * DuckDB's executors

    [UnaryExecutor::Execute] and [BinaryExecutor::Execute] run a C++ function over
    the rows of a chunk.  How often they call it is theirs to choose: once per row,
    or once for a vector they know to be constant.  They are parameters; what the
    code relies on is that a NULL argument gives NULL without a call, that any
    other row holds an answer of a call for that row's arguments, and that an
    exception passes through. *)
From S2P Require Import Prelude.

(** A column of strings: the list of its rows, [None] for NULL. *)
Definition Column : Type := list (option string).

(** The row of two arguments: NULL when one of them is. *)
Definition both (x y : option string) : option (string * string) := s ← x; t ← y; Some (s, t).

Class Executor : Type := {
  ux_Execute : ∀ {W A}, (string → M W A) → Column → M W (list (option A));
  bx_Execute : ∀ {W A}, (string → string → M W A) → Column → Column → M W (list (option A));
}.

(** [y] is an answer to the row [x]. *)
Definition row_answer {X A} (Q : X → A → Prop) (x : option X) (y : option A) : Prop :=
  match x with Some s => ∃ a, y = Some a ∧ Q s a | None => y = None end.

Class ExecutorLaws `{!Executor} : Prop := {
  ux_triple W A (f : string → M W A) col (I : W → Prop) (Q : string → A → Prop) X :
    (∀ s, Some s ∈ col → triple I (f s) (λ a w, Q s a ∧ I w) X) →
    triple I (ux_Execute f col) (λ out w, Forall2 (row_answer Q) col out ∧ I w) X;
  bx_triple W A (f : string → string → M W A) xs ys (I : W → Prop) (Q : string * string → A → Prop) X :
    (∀ s t, (Some s, Some t) ∈ zip xs ys → triple I (f s t) (λ a w, Q (s, t) a ∧ I w) X) →
    triple I (bx_Execute f xs ys) (λ out w, Forall2 (row_answer Q) (zip_with both xs ys) out ∧ I w) X;
}.

Lemma row_answer_length {X A} (Q : X → A → Prop) col out : Forall2 (row_answer Q) col out → length out = length col.
Proof. intros H. symmetry. by eapply Forall2_length. Qed.

Section lengths.
Context `{!Executor, !ExecutorLaws} {W A : Type}.

Lemma ux_length (f : string → M W A) col w out w' : ux_Execute f col w = (Ret out, w') → length out = length col.
Proof.
  intros Hrun. assert (triple (λ _ : W, True) (ux_Execute f col)
    (λ out w, Forall2 (row_answer (λ _ _, True)) col out ∧ True) (λ _ _, True)) as Ht.
  { apply ux_triple. intros s _ w1 _. unfold wp. by destruct (f s w1).1. }
  destruct (triple_run _ _ _ _ _ _ _ Ht I Hrun) as [Hout _]. by eapply row_answer_length.
Qed.

Lemma bx_length (f : string → string → M W A) xs ys w out w' :
  length xs = length ys → bx_Execute f xs ys w = (Ret out, w') → length out = length xs.
Proof.
  intros Hlen Hrun. assert (triple (λ _ : W, True) (bx_Execute f xs ys)
    (λ out w, Forall2 (row_answer (λ _ _, True)) (zip_with both xs ys) out ∧ True) (λ _ _, True)) as Ht.
  { apply bx_triple. intros s t _ w1 _. unfold wp. by destruct (f s t w1).1. }
  destruct (triple_run _ _ _ _ _ _ _ Ht I Hrun) as [Hout _].
  rewrite (row_answer_length _ _ _ Hout), length_zip_with. lia.
Qed.
End lengths.

(** An executor knows nothing of the world: it does to it only what the function it
    calls does. *)
Class ExecutorUniform `{!Executor} : Prop := {
  ux_uniform V V' (R : ∀ A, M V A → M V' A → Prop) `{!Congruent R} A (f : string → M V A) (f' : string → M V' A) col :
    (∀ s, R A (f s) (f' s)) → R (list (option A)) (ux_Execute f col) (ux_Execute f' col);
  bx_uniform V V' (R : ∀ A, M V A → M V' A → Prop) `{!Congruent R} A (f : string → string → M V A)
      (f' : string → string → M V' A) xs ys :
    (∀ s t, R A (f s t) (f' s t)) → R (list (option A)) (bx_Execute f xs ys) (bx_Execute f' xs ys);
}.

(** ** Two executors that obey the laws, for the evaluations

    Row by row, and one that calls once for a column of equal rows. *)
Section instances.
Context {W A : Type}.

Definition flat_step {X} (f : X → M W A) (out : list (option A)) (x : option X) : M W (list (option A)) :=
  match x with
  | Some s => a ← f s; mret (out ++ [Some a])
  | None => mret (out ++ [None])
  end.
Definition flat_run {X} (f : X → M W A) (rows : list (option X)) : M W (list (option A)) :=
  M_fold (flat_step f) [] rows.

Definition constant_run {X} `{!EqDecision X} (f : X → M W A) (rows : list (option X)) : M W (list (option A)) :=
  match rows with
  | Some s :: rest =>
      if bool_decide (Forall (λ x, x = Some s) rest) then a ← f s; mret ((λ _, Some a) <$> rows)
      else flat_run f rows
  | _ => flat_run f rows
  end.

Lemma flat_run_triple {X} (f : X → M W A) rows (I : W → Prop) (Q : X → A → Prop) Z :
  (∀ s, Some s ∈ rows → triple I (f s) (λ a w, Q s a ∧ I w) Z) →
  triple I (flat_run f rows) (λ out w, Forall2 (row_answer Q) rows out ∧ I w) Z.
Proof.
  intros Hf. unfold flat_run.
  assert (∀ seen out, Forall2 (row_answer Q) seen out →
    triple I (M_fold (flat_step f) out rows) (λ out w, Forall2 (row_answer Q) (seen ++ rows) out ∧ I w) Z) as Hgen;
    [|by apply (Hgen [] [])].
  induction rows as [|x rows IH]; intros seen out Hseen; cbn [M_fold].
  { apply triple_ret. intros w Hw. by rewrite app_nil_r. }
  apply (triple_bind _ _ _ (λ out' w, Forall2 (row_answer Q) (seen ++ [x]) out' ∧ I w)).
  - unfold flat_step. destruct x as [s|].
    + eapply triple_bind; [apply Hf; left|]. intros a. apply triple_pure. intros Ha. apply triple_ret.
      intros w Hw. split; [|done]. apply Forall2_app; [done|]. constructor; [by exists a|constructor].
    + apply triple_ret. intros w Hw. split; [|done]. apply Forall2_app; [done|]. by repeat constructor.
  - intros out'. apply triple_pure. intros Hout'. rewrite cons_middle, app_assoc. apply IH; [|done].
    intros s Hs. apply Hf. by right.
Qed.

Lemma constant_run_triple {X} `{!EqDecision X} (f : X → M W A) rows (I : W → Prop) (Q : X → A → Prop) Z :
  (∀ s, Some s ∈ rows → triple I (f s) (λ a w, Q s a ∧ I w) Z) →
  triple I (constant_run f rows) (λ out w, Forall2 (row_answer Q) rows out ∧ I w) Z.
Proof.
  intros Hf. unfold constant_run. destruct rows as [|[s|] rest]; try by apply flat_run_triple.
  destruct (bool_decide_reflect (Forall (λ x, x = Some s) rest)) as [Hall|]; [|by apply flat_run_triple].
  eapply triple_bind; [apply Hf; left|]. intros a. apply triple_pure. intros Ha. apply triple_ret.
  intros w Hw. split; [|done]. constructor; [by exists a|].
  clear Hf. induction Hall as [|x rest -> Hall IH]; constructor; [by exists a|done].
Qed.
End instances.

Definition flat_executor : Executor := {|
  ux_Execute W A f col := flat_run f col;
  bx_Execute W A f xs ys := flat_run (uncurry f) (zip_with both xs ys);
|}.
Definition constant_executor : Executor := {|
  ux_Execute W A f col := constant_run f col;
  bx_Execute W A f xs ys := constant_run (uncurry f) (zip_with both xs ys);
|}.

Lemma elem_of_both (xs ys : Column) s t : Some (s, t) ∈ zip_with both xs ys → (Some s, Some t) ∈ zip xs ys.
Proof.
  intros Hin. apply elem_of_lookup_zip_with in Hin as (i & x & y & Hb & Hx & Hy).
  destruct x as [x|], y as [y|]; try done. injection Hb as -> ->.
  apply elem_of_lookup_zip_with. by exists i, (Some x), (Some y).
Qed.

Lemma flat_executor_laws : @ExecutorLaws flat_executor.
Proof.
  split.
  - intros W A f col I Q X. apply flat_run_triple.
  - intros W A f xs ys I Q X Hf. apply flat_run_triple. intros [s t] Hin. by apply Hf, elem_of_both.
Qed.
Lemma constant_executor_laws : @ExecutorLaws constant_executor.
Proof.
  split.
  - intros W A f col I Q X. apply constant_run_triple.
  - intros W A f xs ys I Q X Hf. apply constant_run_triple. intros [s t] Hin. by apply Hf, elem_of_both.
Qed.

Section uniform.
Context {V V' : Type} (R : ∀ A, M V A → M V' A → Prop) `{!Congruent R} {X A : Type} (f : X → M V A) (f' : X → M V' A).
Hypothesis Hf : ∀ s, R A (f s) (f' s).

Lemma flat_run_uniform rows : R (list (option A)) (flat_run f rows) (flat_run f' rows).
Proof.
  apply (cg_fold R). intros out [s|]; [|apply (cg_ret R)]. apply cg_bind; [done|]. intros a. apply (cg_ret R).
Qed.
Lemma constant_run_uniform `{!EqDecision X} rows : R (list (option A)) (constant_run f rows) (constant_run f' rows).
Proof.
  destruct rows as [|[s|] rest]; [apply flat_run_uniform| |apply flat_run_uniform]. unfold constant_run.
  case_bool_decide; [|apply flat_run_uniform]. apply cg_bind; [done|]. intros a. apply (cg_ret R).
Qed.
End uniform.

Lemma flat_executor_uniform : @ExecutorUniform flat_executor.
Proof.
  split.
  - intros V V' R HR A f f' col Hf. by apply (flat_run_uniform R f f').
  - intros V V' R HR A f f' xs ys Hf. apply (flat_run_uniform R (uncurry f) (uncurry f')). intros [s t]. apply Hf.
Qed.
Lemma constant_executor_uniform : @ExecutorUniform constant_executor.
Proof.
  split.
  - intros V V' R HR A f f' col Hf. by apply (constant_run_uniform R f f').
  - intros V V' R HR A f f' xs ys Hf. apply (constant_run_uniform R (uncurry f) (uncurry f')). intros [s t]. apply Hf.
Qed.
