(* ===== verification/JwksCache.v ===== *)
(** * JWKS cache ([src/include/jwks_cache.hpp], [src/jwks_cache.cpp])

    The process-wide cache of public keys per (jwks_uri, kid): bounded LRU maps
    of hits and negative entries, per-kid refresh reservations, the global fetch
    budget, corroborated eviction.  Every operation of the class is a function
    on [JwksCache]; the ones that manipulate list iterators return [exc]. *)
From S2P Require Import Prelude CppString StdList.

(** ** Data *)
Record Jwk : Type := mkJwk {
  jwk_kid : string;
  jwk_kty : string;
  jwk_alg : string;
  jwk_use : string;
  jwk_n : string;
  jwk_e : string;
  jwk_crv : string;
  jwk_x : string;
  jwk_y : string;
}.

#[export] Instance Jwk_eq_dec : EqDecision Jwk.
Proof. solve_decision. Defined.

Definition SameKeyMaterial (a b : Jwk) : bool :=
  if negb (seqb (jwk_kty a) (jwk_kty b)) || negb (seqb (jwk_alg a) (jwk_alg b)) || negb (seqb (jwk_use a) (jwk_use b)) then false
  else if seqb (jwk_kty a) "RSA" then seqb (jwk_n a) (jwk_n b) && seqb (jwk_e a) (jwk_e b)
  else if seqb (jwk_kty a) "EC" || seqb (jwk_kty a) "OKP" then
    seqb (jwk_crv a) (jwk_crv b) && seqb (jwk_x a) (jwk_x b) && seqb (jwk_y a) (jwk_y b)
  else false.

(** [find_if] followed by [erase]: drop the first element satisfying [f]. *)
Fixpoint erase_first {A} (f : A → bool) (l : list A) : option (list A) :=
  match l with
  | [] => None
  | a :: l => if f a then Some l else (a ::.) <$> erase_first f l
  end.

Fixpoint SameKeyMaterials_go (a rem : list Jwk) : bool :=
  match a with
  | [] => true
  | ka :: a =>
      match erase_first (SameKeyMaterial ka) rem with
      | None => false
      | Some rem => SameKeyMaterials_go a rem
      end
  end.
Definition SameKeyMaterials (a b : list Jwk) : bool :=
  if negb (length a =? length b)%nat then false else SameKeyMaterials_go a b.

Inductive JwksLookupStatus : Type := Hit | Miss | RateLimited.
#[export] Instance JwksLookupStatus_eq_dec : EqDecision JwksLookupStatus.
Proof. solve_decision. Defined.

Definition kGlobalFetchBudgetWindowSeconds : Z := 2.
Definition kClockResetThresholdSeconds : Z := 60.
Definition kMaxKeysPerKid : nat := 4.

Inductive ClockRel : Type := Forward | MinorRewind | Reset.

Definition RelateClock (now_s stamp_s : Z) : ClockRel :=
  if stamp_s <=? now_s then Forward
  else if stamp_s - now_s <=? kClockResetThresholdSeconds then MinorRewind
  else Reset.

Record JwksLookup : Type := mkJwksLookup {
  jl_status : JwksLookupStatus;
  jl_keys : list Jwk;
  jl_retry_after_s : Z;
}.

Record Entry : Type := mkEntry {
  keys : list Jwk;
  fetched_at_s : Z;
  last_refresh_attempt_s : Z;
  current_reservation_id : Z;
  consecutive_absent_count : Z;
  lru_it : nat;
}.

Record MissEntry : Type := mkMissEntry {
  recorded_at_s : Z;
  miss_lru_it : nat;
}.

Record JwksCache : Type := mkJwksCache {
  min_refresh_s_ : Z;
  max_entries_ : Z;
  last_global_fetch_s_ : Z;
  last_successful_fetch_s_ : Z;
  last_successful_fetch_by_uri_ : gmap string Z;
  throttled_refreshes_ : Z;
  throttled_budget_refreshes_ : Z;
  throttled_per_kid_refreshes_ : Z;
  last_throttled_at_s_ : Z;
  last_refresh_reason_ : string;
  next_reservation_id_ : Z;
  hit_lru_ : slist string;
  miss_lru_ : slist string;
  hits_ : gmap string Entry;
  misses_ : gmap string MissEntry;
}.

(** Field assignment. *)
Definition entry_keys ks (h : Entry) : Entry :=
  mkEntry ks (fetched_at_s h) (last_refresh_attempt_s h) (current_reservation_id h)
    (consecutive_absent_count h) (lru_it h).
Definition entry_fetched t (h : Entry) : Entry :=
  mkEntry (keys h) t (last_refresh_attempt_s h) (current_reservation_id h)
    (consecutive_absent_count h) (lru_it h).
Definition entry_attempt t (h : Entry) : Entry :=
  mkEntry (keys h) (fetched_at_s h) t (current_reservation_id h)
    (consecutive_absent_count h) (lru_it h).
Definition entry_reservation r (h : Entry) : Entry :=
  mkEntry (keys h) (fetched_at_s h) (last_refresh_attempt_s h) r
    (consecutive_absent_count h) (lru_it h).
Definition entry_absent a (h : Entry) : Entry :=
  mkEntry (keys h) (fetched_at_s h) (last_refresh_attempt_s h) (current_reservation_id h)
    a (lru_it h).
Definition entry_it i (h : Entry) : Entry :=
  mkEntry (keys h) (fetched_at_s h) (last_refresh_attempt_s h) (current_reservation_id h)
    (consecutive_absent_count h) i.

Definition set_min_refresh v (c : JwksCache) : JwksCache :=
  let 'mkJwksCache _ b d e f g h i j k l m n o p := c in
  mkJwksCache v b d e f g h i j k l m n o p.
Definition set_last_global_fetch v (c : JwksCache) : JwksCache :=
  let 'mkJwksCache a b _ e f g h i j k l m n o p := c in
  mkJwksCache a b v e f g h i j k l m n o p.
Definition set_last_successful_fetch v (c : JwksCache) : JwksCache :=
  let 'mkJwksCache a b d _ f g h i j k l m n o p := c in
  mkJwksCache a b d v f g h i j k l m n o p.
Definition set_last_successful_by_uri v (c : JwksCache) : JwksCache :=
  let 'mkJwksCache a b d e _ g h i j k l m n o p := c in
  mkJwksCache a b d e v g h i j k l m n o p.
Definition set_throttled total budget per_kid at_s (c : JwksCache) : JwksCache :=
  let 'mkJwksCache a b d e f _ _ _ _ k l m n o p := c in
  mkJwksCache a b d e f total budget per_kid at_s k l m n o p.
Definition set_last_reason v (c : JwksCache) : JwksCache :=
  let 'mkJwksCache a b d e f g h i j _ l m n o p := c in
  mkJwksCache a b d e f g h i j v l m n o p.
Definition set_next_reservation v (c : JwksCache) : JwksCache :=
  let 'mkJwksCache a b d e f g h i j k _ m n o p := c in
  mkJwksCache a b d e f g h i j k v m n o p.
Definition set_hits m' l' (c : JwksCache) : JwksCache :=
  let 'mkJwksCache a b d e f g h i j k l _ n _ p := c in
  mkJwksCache a b d e f g h i j k l l' n m' p.
Definition set_misses m' l' (c : JwksCache) : JwksCache :=
  let 'mkJwksCache a b d e f g h i j k l m _ o _ := c in
  mkJwksCache a b d e f g h i j k l m l' o m'.

(** ** Operations *)
Definition JwksCache_new (min_refresh_s max_entries : Z) : JwksCache :=
  mkJwksCache (clamp min_refresh_s 1 3600) (if max_entries =? 0 then 1 else max_entries)
    0 0 ∅ 0 0 0 0 "" 1 sl_empty sl_empty ∅ ∅.

Definition SetMinRefreshSeconds (c : JwksCache) (min_refresh_s : Z) : JwksCache :=
  set_min_refresh (clamp min_refresh_s 1 3600) c.

Definition newline : ascii := "010"%char.

Definition CacheKey (jwks_uri kid : string) : string :=
  if sempty jwks_uri then kid else jwks_uri +:+ String newline kid.

Definition TrimToCap (h : Entry) : Entry :=
  if (kMaxKeysPerKid <? length (keys h))%nat then entry_keys (take kMaxKeysPerKid (keys h)) h else h.

Definition FindHit (c : JwksCache) (jwks_uri kid : string) : option Entry :=
  hits_ c !! CacheKey jwks_uri kid.
Definition FindMiss (c : JwksCache) (jwks_uri kid : string) : option MissEntry :=
  misses_ c !! CacheKey jwks_uri kid.

Definition Lookup (c : JwksCache) (kid : string) (now_s : Z) (jwks_uri : string) : JwksLookup :=
  match FindHit c jwks_uri kid with
  | Some hit => mkJwksLookup Hit (keys hit) 0
  | None =>
      match FindMiss c jwks_uri kid with
      | Some miss =>
          match RelateClock now_s (recorded_at_s miss) with
          | Forward =>
              let elapsed := now_s - recorded_at_s miss in
              if elapsed <? min_refresh_s_ c then
                mkJwksLookup RateLimited [] (min_refresh_s_ c - elapsed)
              else mkJwksLookup Miss [] 0
          | MinorRewind => mkJwksLookup RateLimited [] (min_refresh_s_ c)
          | Reset => mkJwksLookup Miss [] 0
          end
      | None => mkJwksLookup Miss [] 0
      end
  end.

Definition RecordJwksFetchSuccess (c : JwksCache) (now_s : Z) (jwks_uri : string) : JwksCache :=
  if negb (sempty jwks_uri) then
    set_last_successful_by_uri (<[jwks_uri := now_s]> (last_successful_fetch_by_uri_ c)) c
  else set_last_successful_fetch now_s c.

(** [if (miss != end) { miss_lru_.erase(miss->lru_it); misses_.erase(miss); }] *)
Definition erase_miss (c : JwksCache) (cache_key : string) : exc JwksCache :=
  match misses_ c !! cache_key with
  | Some miss =>
      l ← defined (sl_erase (miss_lru_it miss) (miss_lru_ c));
      Ret (set_misses (delete cache_key (misses_ c)) l c)
  | None => Ret c
  end.

(** [hit_lru_.erase(hit.lru_it); hit_lru_.push_front(key); hit.lru_it = begin();] *)
Definition touch_hit (c : JwksCache) (cache_key : string) (hit : Entry) : exc JwksCache :=
  l ← defined (sl_erase (lru_it hit) (hit_lru_ c));
  let l := sl_push_front cache_key l in
  it ← defined (sl_begin l);
  Ret (set_hits (<[cache_key := entry_it it hit]> (hits_ c)) l c).

(** [while (m.size() > max) { victim = lru.back(); lru.pop_back(); m.erase(victim); }] *)
Fixpoint evict {V} (fuel : nat) (max : Z) (m : gmap string V) (l : slist string)
    : exc (gmap string V * slist string) :=
  if Z.of_nat (size m) <=? max then Ret (m, l)
  else match fuel with
       | O => Stuck
       | S fuel =>
           victim ← defined (sl_back l);
           l ← defined (sl_pop_back l);
           evict fuel max (delete victim m) l
       end.

Definition OnFetchSuccess (c : JwksCache) (kid : string) (ks : list Jwk) (now_s : Z)
    (jwks_uri : string) : exc JwksCache :=
  match ks with
  | [] => Ret c
  | _ =>
      let c := RecordJwksFetchSuccess c now_s jwks_uri in
      let cache_key := CacheKey jwks_uri kid in
      c ← erase_miss c cache_key;
      match FindHit c jwks_uri kid with
      | Some hit =>
          let hit := if negb (SameKeyMaterials (keys hit) ks) then entry_reservation 0 hit else hit in
          let hit := TrimToCap (entry_keys ks hit) in
          let hit := entry_fetched (Z.max (fetched_at_s hit) now_s) hit in
          let hit := entry_absent 0 hit in
          touch_hit c cache_key hit
      | None =>
          let l := sl_push_front cache_key (hit_lru_ c) in
          it ← defined (sl_begin l);
          let entry := entry_it it (TrimToCap (mkEntry ks now_s now_s 0 0 0)) in
          let m := <[cache_key := entry]> (hits_ c) in
          '(m, l) ← evict (size m) (max_entries_ c) m l;
          Ret (set_hits m l c)
      end
  end.

(** The union of [OnPassiveFetchSuccess]: append the keys not already present. *)
Definition union_keys (existing ks : list Jwk) : list Jwk :=
  foldl (λ acc k, if existsb (λ ex, SameKeyMaterial ex k) acc then acc else acc ++ [k]) existing ks.

(** [while (size > cap) erase(begin())] *)
Definition drop_oldest (ks : list Jwk) : list Jwk := drop (length ks - kMaxKeysPerKid) ks.

Definition OnPassiveFetchSuccess (c : JwksCache) (kid : string) (ks : list Jwk) (now_s : Z)
    (jwks_uri : string) : exc JwksCache :=
  match ks with
  | [] => Ret c
  | _ =>
      match FindHit c jwks_uri kid with
      | Some hit =>
          let hit := entry_keys (drop_oldest (union_keys (keys hit) ks)) hit in
          let hit := entry_absent 0 hit in
          Ret (set_hits (<[CacheKey jwks_uri kid := hit]> (hits_ c)) (hit_lru_ c) c)
      | None => OnFetchSuccess c kid ks now_s jwks_uri
      end
  end.

(** The kid a cache key belongs to when it is one of [jwks_uri]'s. *)
Definition kid_of_key (jwks_uri cache_key : string) : option string :=
  if sempty jwks_uri then
    if contains_char newline cache_key then None else Some cache_key
  else
    let prefix := jwks_uri +:+ String newline "" in
    if negb (starts_with prefix cache_key) then None
    else Some (sdrop (String.length prefix) cache_key).

Definition reconcile_step (present_kids : gset string) (jwks_uri exclude_kid : string)
    (acc : gmap string Entry * list string) (kv : string * Entry) : gmap string Entry * list string :=
  let '(m, to_evict) := acc in
  let '(cache_key, entry) := kv in
  match kid_of_key jwks_uri cache_key with
  | None => (m, to_evict)
  | Some kid =>
      if negb (sempty exclude_kid) && seqb kid exclude_kid then (m, to_evict)
      else if bool_decide (kid ∈ present_kids) then
        (<[cache_key := entry_absent 0 entry]> m, to_evict)
      else
        let entry := entry_absent (consecutive_absent_count entry + 1) entry in
        (<[cache_key := entry]> m,
         if 2 <=? consecutive_absent_count entry then to_evict ++ [cache_key] else to_evict)
  end.

Definition evict_key (ml : gmap string Entry * slist string) (k : string)
    : exc (gmap string Entry * slist string) :=
  let '(m, l) := ml in
  match m !! k with
  | Some hit => l ← defined (sl_erase (lru_it hit) l); Ret (delete k m, l)
  | None => Ret (m, l)
  end.

Definition ReconcileAbsentKids `{!UMapOrder} (c : JwksCache) (present_kids : gset string) (now_s : Z)
    (jwks_uri exclude_kid : string) : exc JwksCache :=
  let '(m, to_evict) :=
    foldl (reconcile_step present_kids jwks_uri exclude_kid) (hits_ c, []) (um_iter (hits_ c)) in
  '(m, l) ← exc_fold evict_key (m, hit_lru_ c) to_evict;
  Ret (set_hits m l c).

Definition RecordKidAbsent (c : JwksCache) (kid : string) (reservation_id now_s : Z)
    (jwks_uri : string) : exc (bool * JwksCache) :=
  match FindHit c jwks_uri kid with
  | None => Ret (false, c)
  | Some hit =>
      if negb (reservation_id =? 0) && negb (current_reservation_id hit =? reservation_id) then
        Ret (false, c)
      else
        let hit := entry_absent (consecutive_absent_count hit + 1)
                     (entry_attempt now_s (entry_reservation 0 hit)) in
        let cache_key := CacheKey jwks_uri kid in
        if 2 <=? consecutive_absent_count hit then
          l ← defined (sl_erase (lru_it hit) (hit_lru_ c));
          Ret (true, set_hits (delete cache_key (hits_ c)) l c)
        else Ret (false, set_hits (<[cache_key := hit]> (hits_ c)) (hit_lru_ c) c)
  end.

Definition CanFetchJwks (c : JwksCache) (now_s : Z) : bool :=
  if last_global_fetch_s_ c <=? 0 then true
  else match RelateClock now_s (last_global_fetch_s_ c) with
       | Reset => true
       | MinorRewind => false
       | Forward => negb (now_s - last_global_fetch_s_ c <? kGlobalFetchBudgetWindowSeconds)
       end.

Definition HasFreshJwksDocument (c : JwksCache) (now_s window_s : Z) (jwks_uri : string) : bool :=
  let last_s := if negb (sempty jwks_uri) then
                  default 0 (last_successful_fetch_by_uri_ c !! jwks_uri)
                else last_successful_fetch_s_ c in
  if last_s <=? 0 then false
  else match RelateClock now_s last_s with
       | Forward => now_s - last_s <? window_s
       | _ => false
       end.

Definition RecordJwksFetch (c : JwksCache) (now_s : Z) : JwksCache :=
  if (0 <? last_global_fetch_s_ c)
     && (match RelateClock now_s (last_global_fetch_s_ c) with Reset => true | _ => false end)
  then set_last_global_fetch now_s c
  else set_last_global_fetch (Z.max (last_global_fetch_s_ c) now_s) c.

Definition TryReserveRefresh (c : JwksCache) (kid : string) (now_s : Z) (jwks_uri : string)
    : Z * JwksCache :=
  match FindHit c jwks_uri kid with
  | None => (0, c)
  | Some hit =>
      let grant :=
        let res_id := next_reservation_id_ c in
        let hit := entry_reservation res_id (entry_attempt now_s hit) in
        (res_id, set_hits (<[CacheKey jwks_uri kid := hit]> (hits_ c)) (hit_lru_ c)
                   (set_next_reservation (u64_succ res_id) c)) in
      match RelateClock now_s (last_refresh_attempt_s hit) with
      | Reset => grant
      | MinorRewind => (0, c)
      | Forward =>
          if now_s - last_refresh_attempt_s hit <? min_refresh_s_ c then (0, c) else grant
      end
  end.

Definition CommitRefresh (c : JwksCache) (kid : string) (reservation_id : Z) (ks : list Jwk)
    (now_s : Z) (jwks_uri : string) : exc (bool * JwksCache) :=
  if (reservation_id =? 0) || bool_decide (ks = []) then Ret (false, c)
  else match FindHit c jwks_uri kid with
       | None => Ret (false, c)
       | Some hit =>
           if negb (current_reservation_id hit =? reservation_id) then Ret (false, c)
           else match RelateClock now_s (fetched_at_s hit) with
                | MinorRewind => Ret (false, c)
                | _ =>
                    let hit := entry_absent 0 (entry_reservation 0 hit) in
                    let hit := TrimToCap (entry_keys ks hit) in
                    let hit := entry_fetched now_s hit in
                    c ← touch_hit c (CacheKey jwks_uri kid) hit;
                    Ret (true, c)
                end
       end.

Definition OnFetchMiss (c : JwksCache) (kid : string) (now_s : Z) (jwks_uri : string) : exc JwksCache :=
  let cache_key := CacheKey jwks_uri kid in
  c ← erase_miss c cache_key;
  let l := sl_push_front cache_key (miss_lru_ c) in
  it ← defined (sl_begin l);
  let m := <[cache_key := mkMissEntry now_s it]> (misses_ c) in
  '(m, l) ← evict (size m) (max_entries_ c) m l;
  Ret (set_misses m l c).

Definition IncrementThrottledRefreshes (c : JwksCache) (is_budget : bool) (now_s : Z) : JwksCache :=
  set_throttled (u64_succ (throttled_refreshes_ c))
    (if is_budget then u64_succ (throttled_budget_refreshes_ c) else throttled_budget_refreshes_ c)
    (if is_budget then throttled_per_kid_refreshes_ c else u64_succ (throttled_per_kid_refreshes_ c))
    (if 0 <? now_s then now_s else last_throttled_at_s_ c) c.

Definition SetLastRefreshReason (c : JwksCache) (r : string) : JwksCache := set_last_reason r c.

Definition Size (c : JwksCache) : Z := Z.of_nat (size (hits_ c)).
Definition MissSize (c : JwksCache) : Z := Z.of_nat (size (misses_ c)).

(** ** Invariant *)
Record jc_wf (c : JwksCache) : Prop := {
  jc_hits : lru_wf lru_it id (hits_ c) (hit_lru_ c);
  jc_misses : lru_wf miss_lru_it id (misses_ c) (miss_lru_ c);
  jc_hits_size : Z.of_nat (size (hits_ c)) ≤ max_entries_ c;
  jc_misses_size : Z.of_nat (size (misses_ c)) ≤ max_entries_ c;
  jc_max : 1 ≤ max_entries_ c;
  jc_keys : ∀ ck h, hits_ c !! ck = Some h → keys h ≠ [] ∧ (length (keys h) ≤ kMaxKeysPerKid)%nat;
  jc_refresh : 1 ≤ min_refresh_s_ c ≤ 3600;
}.

(** Every cached key satisfies [T cache_key key]. *)
Definition jc_trusted (T : string → Jwk → Prop) (c : JwksCache) : Prop :=
  ∀ ck h, hits_ c !! ck = Some h → Forall (T ck) (keys h).

(** ** Bounded eviction *)
Lemma evict_spec {V} (it : V → nat) fuel max (m : gmap string V) l :
  lru_wf it id m l → 0 ≤ max → (size m ≤ fuel)%nat →
  ∃ m' l', evict fuel max m l = Ret (m', l') ∧ lru_wf it id m' l' ∧
    Z.of_nat (size m') ≤ max ∧ m' ⊆ m ∧
    sl_nodes l' = take (Z.to_nat max) (sl_nodes l).
Proof.
  revert m l. induction fuel as [|fuel IH]; intros m l Hwf Hmax Hfuel; simpl;
    pose proof (lru_size _ _ _ _ Hwf) as Hlen; destruct (Z.leb_spec (Z.of_nat (size m)) max).
  - exists m, l. split_and!; try done. by rewrite take_ge by lia.
  - lia.
  - exists m, l. split_and!; try done. by rewrite take_ge by lia.
  - destruct (lru_pop_back _ _ _ _ Hwf) as (x & l1 & -> & Hpop & [v Hv] & Hwf1); [lia|].
    rewrite Hpop. simpl.
    assert (size (delete (id x) m) = pred (size m)) as Hsz by (apply map_size_delete_Some; by exists v).
    destruct (IH _ _ Hwf1 Hmax) as (m' & l' & He & Hwf' & Hsz' & Hsub & Hnodes); [lia|].
    exists m', l'. split_and!; try done.
    + etrans; [done|]. apply delete_subseteq.
    + rewrite Hnodes. unfold sl_pop_back in Hpop.
      apply fmap_Some in Hpop as (z & Hz & ->). simpl.
      apply last_Some in Hz as [ns Hns]. rewrite Hns, removelast_last.
      rewrite Hns, length_app in Hlen. simpl in Hlen. by rewrite take_app_le by lia.
Qed.

(** The freshest binding survives an eviction. *)
Lemma evict_front {V} (it : V → nat) fuel max (m m' : gmap string V) l l' k v :
  lru_wf it id m l → 1 ≤ max → (size m ≤ fuel)%nat →
  evict fuel max m l = Ret (m', l') → head (sl_nodes l) = Some (it v, k) → m !! k = Some v →
  m' !! k = Some v.
Proof.
  intros Hwf Hmax Hfuel He Hhd Hk.
  destruct (evict_spec it fuel max m l) as (m1 & l1 & He1 & Hwf1 & _ & Hsub & Hn); [done|lia|done|].
  rewrite He in He1. simplify_eq.
  destruct (sl_nodes l) as [|p ns] eqn:Hl; simplify_eq/=.
  destruct (Z.to_nat max) as [|z] eqn:Hz; [lia|]. simpl in Hn.
  destruct (lru_index _ _ _ _ Hwf1 (it v) k) as (v' & Hv' & _); [rewrite Hn; left|].
  simpl in Hv'. pose proof (lookup_weaken _ _ _ _ Hv' Hsub). congruence.
Qed.

(** ** Elementary facts *)
Lemma RelateClock_spec now stamp :
  match RelateClock now stamp with
  | Forward => stamp ≤ now
  | MinorRewind => now < stamp ≤ now + kClockResetThresholdSeconds
  | Reset => now + kClockResetThresholdSeconds < stamp
  end.
Proof.
  unfold RelateClock, kClockResetThresholdSeconds.
  destruct (Z.leb_spec stamp now); [lia|]. destruct (Z.leb_spec (stamp - now) 60); lia.
Qed.

Ltac relate_clock now stamp :=
  let H := fresh "Hclock" in
  pose proof (RelateClock_spec now stamp) as H; destruct (RelateClock now stamp);
  unfold kClockResetThresholdSeconds in H.

Lemma TrimToCap_keys h : keys (TrimToCap h) = take kMaxKeysPerKid (keys h).
Proof.
  unfold TrimToCap. destruct (Nat.ltb_spec kMaxKeysPerKid (length (keys h))); [done|].
  by rewrite take_ge.
Qed.

Lemma TrimToCap_it h : lru_it (TrimToCap h) = lru_it h.
Proof. unfold TrimToCap. by destruct (_ <? _)%nat. Qed.

Lemma keys_take_ok (ks : list Jwk) : ks ≠ [] → take kMaxKeysPerKid ks ≠ [] ∧
  (length (take kMaxKeysPerKid ks) ≤ kMaxKeysPerKid)%nat.
Proof. intros H. split; [by destruct ks|]. rewrite length_take. lia. Qed.

Lemma jc_lookup_insert T c ck h m :
  jc_trusted T c → Forall (T ck) (keys h) → m = <[ck:=h]> (hits_ c) →
  ∀ ck' h', m !! ck' = Some h' → Forall (T ck') (keys h').
Proof.
  intros HT Hh -> ck' h'. destruct (decide (ck = ck')) as [<-|]; simplify_map_eq; [|eauto].
  by intros [= <-].
Qed.

(** Fields that only the clock and counter updates touch. *)
Lemma wf_same_maps c c' :
  jc_wf c → hits_ c' = hits_ c → hit_lru_ c' = hit_lru_ c → misses_ c' = misses_ c →
  miss_lru_ c' = miss_lru_ c → max_entries_ c' = max_entries_ c →
  min_refresh_s_ c' = min_refresh_s_ c → jc_wf c'.
Proof.
  intros [] Hh Hhl Hm Hml Hmax Hmin. split; rewrite ?Hh, ?Hhl, ?Hm, ?Hml, ?Hmax, ?Hmin; auto.
Qed.

Lemma wf_set_hits c m l :
  jc_wf c → lru_wf lru_it id m l → Z.of_nat (size m) ≤ max_entries_ c →
  (∀ ck h, m !! ck = Some h → keys h ≠ [] ∧ (length (keys h) ≤ kMaxKeysPerKid)%nat) →
  jc_wf (set_hits m l c).
Proof. intros [] ???. destruct c; by split. Qed.

Lemma wf_set_misses c m l :
  jc_wf c → lru_wf miss_lru_it id m l → Z.of_nat (size m) ≤ max_entries_ c →
  jc_wf (set_misses m l c).
Proof. intros [] ??. destruct c; by split. Qed.

(** The value of a cached kid changes, its place in the recency list does not. *)
Lemma wf_update_hit c ck h h' :
  jc_wf c → hits_ c !! ck = Some h → lru_it h' = lru_it h →
  keys h' ≠ [] → (length (keys h') ≤ kMaxKeysPerKid)%nat →
  jc_wf (set_hits (<[ck := h']> (hits_ c)) (hit_lru_ c) c).
Proof.
  intros Hwf Hck Hit Hne Hlen. apply wf_set_hits; [done| | |].
  - by apply (lru_update _ _ _ _ _ h); [apply jc_hits| |].
  - pose proof (jc_hits_size c Hwf). by rewrite map_size_insert_Some by (by exists h).
  - intros ck' h1. destruct (decide (ck = ck')) as [<-|]; simplify_map_eq.
    + by intros [= <-].
    + by apply jc_keys.
Qed.

(** A cached kid is dropped with its node. *)
Lemma wf_delete_hit c ck h :
  jc_wf c → hits_ c !! ck = Some h →
  ∃ l, sl_erase (lru_it h) (hit_lru_ c) = Some l ∧ jc_wf (set_hits (delete ck (hits_ c)) l c).
Proof.
  intros Hwf Hck. destruct (lru_delete _ _ _ _ _ _ (jc_hits c Hwf) Hck) as (l & He & Hl & _ & _).
  exists l. split; [done|]. apply wf_set_hits; [done|done| |].
  - pose proof (jc_hits_size c Hwf). rewrite map_size_delete_Some by (by exists h). lia.
  - intros ck' h' [_ ?]%lookup_delete_Some. by eapply jc_keys.
Qed.

Lemma wf_record_success c now uri : jc_wf c → jc_wf (RecordJwksFetchSuccess c now uri).
Proof.
  intros Hwf. unfold RecordJwksFetchSuccess. destruct (negb _), c; by eapply wf_same_maps.
Qed.

Lemma record_success_same c now uri :
  hits_ (RecordJwksFetchSuccess c now uri) = hits_ c ∧
  hit_lru_ (RecordJwksFetchSuccess c now uri) = hit_lru_ c ∧
  misses_ (RecordJwksFetchSuccess c now uri) = misses_ c ∧
  max_entries_ (RecordJwksFetchSuccess c now uri) = max_entries_ c ∧
  last_global_fetch_s_ (RecordJwksFetchSuccess c now uri) = last_global_fetch_s_ c.
Proof. unfold RecordJwksFetchSuccess. by destruct (negb _), c. Qed.

(** What [erase_miss] leaves alone. *)
Definition same_but_misses (c c' : JwksCache) : Prop :=
  hits_ c' = hits_ c ∧ hit_lru_ c' = hit_lru_ c ∧ max_entries_ c' = max_entries_ c ∧
  min_refresh_s_ c' = min_refresh_s_ c ∧ last_global_fetch_s_ c' = last_global_fetch_s_ c ∧
  next_reservation_id_ c' = next_reservation_id_ c.

Lemma erase_miss_spec c ck :
  jc_wf c → ∃ c', erase_miss c ck = Ret c' ∧ jc_wf c' ∧ misses_ c' = delete ck (misses_ c) ∧
    same_but_misses c c'.
Proof.
  intros Hwf. unfold erase_miss. destruct (misses_ c !! ck) as [m|] eqn:Hm.
  - destruct (lru_delete _ _ _ _ _ _ (jc_misses c Hwf) Hm) as (l & -> & Hl & _ & _). simpl.
    eexists; split_and!; [done| |by destruct c|by destruct c].
    apply wf_set_misses; [done|done|].
    pose proof (jc_misses_size c Hwf). rewrite map_size_delete_Some by (by exists m). lia.
  - exists c. split_and!; try done. by rewrite delete_id.
Qed.

Lemma touch_hit_spec c ck h0 h :
  jc_wf c → hits_ c !! ck = Some h0 → lru_it h = lru_it h0 →
  keys h ≠ [] → (length (keys h) ≤ kMaxKeysPerKid)%nat →
  ∃ c' it, touch_hit c ck h = Ret c' ∧ jc_wf c' ∧
    hits_ c' = <[ck := entry_it it h]> (hits_ c) ∧ misses_ c' = misses_ c ∧
    max_entries_ c' = max_entries_ c ∧ last_global_fetch_s_ c' = last_global_fetch_s_ c.
Proof.
  intros Hwf Hck Hit Hne Hlen. unfold touch_hit. rewrite Hit.
  destruct (lru_touch lru_it id (hits_ c) (hit_lru_ c) ck h0
              (entry_it (sl_fresh (hit_lru_ c)) h) ck (jc_hits c Hwf) Hck) as (l & -> & Hf & Hl); [done..|].
  simpl. eexists _, (sl_fresh l). split_and!; [done| |by destruct c..].
  apply wf_set_hits; [done|by rewrite Hf| |].
  - pose proof (jc_hits_size c Hwf). rewrite map_size_insert_Some by (by exists h0). lia.
  - intros ck' h'. destruct (decide (ck = ck')) as [<-|]; simplify_map_eq.
    + by intros [= <-].
    + by apply jc_keys.
Qed.

(** A fetch success never fails, keeps the invariant, and makes the new keys the
    (bounded) keys of the kid. *)
Lemma OnFetchSuccess_spec c kid ks now uri :
  jc_wf c →
  ∃ c', OnFetchSuccess c kid ks now uri = Ret c' ∧ jc_wf c' ∧
    max_entries_ c' = max_entries_ c ∧ last_global_fetch_s_ c' = last_global_fetch_s_ c ∧
    (ks = [] → c' = c) ∧
    (ks ≠ [] → ∃ h, FindHit c' uri kid = Some h ∧ keys h = take kMaxKeysPerKid ks ∧
                    consecutive_absent_count h = 0 ∧ FindMiss c' uri kid = None) ∧
    (∀ ck h, ck ≠ CacheKey uri kid → hits_ c' !! ck = Some h → hits_ c !! ck = Some h).
Proof.
  intros Hwf. unfold OnFetchSuccess. destruct ks as [|k0 ks0]; [by exists c|].
  set (ks := k0 :: ks0). assert (ks ≠ []) as Hks by done. clearbody ks. clear k0 ks0.
  destruct (record_success_same c now uri) as (Eh & Ehl & Em & Emax & Eg).
  destruct (erase_miss_spec _ (CacheKey uri kid) (wf_record_success c now uri Hwf))
    as (c1 & -> & Hwf1 & Hm1 & (Eh1 & Ehl1 & Emax1 & _ & Eg1 & _)). simpl.
  destruct (keys_take_ok ks Hks) as [Hne Hlen].
  unfold FindHit. rewrite Eh1, Eh. destruct (hits_ c !! CacheKey uri kid) as [h|] eqn:Hh.
  - set (h1 := entry_absent _ _). assert (keys h1 = take kMaxKeysPerKid ks ∧ lru_it h1 = lru_it h)
      as [Hk1 Hi1].
    { subst h1. simpl. rewrite TrimToCap_keys, TrimToCap_it. by destruct (negb _). }
    destruct (touch_hit_spec c1 (CacheKey uri kid) h h1) as (c2 & it & -> & Hwf2 & Hh2 & Hm2 & Emax2 & Eg2);
      [done|by rewrite Eh1, Eh|done|by rewrite Hk1|by rewrite Hk1|].
    exists c2. split_and!; try done; [congruence|congruence| |].
    + intros _. eexists; split_and!; [by rewrite Hh2, lookup_insert_eq|done|done|].
      unfold FindMiss. by rewrite Hm2, Hm1, lookup_delete_eq.
    + intros ck h' Hck. rewrite Hh2, lookup_insert_ne, Eh1, Eh by done. done.
  - set (l := sl_push_front (CacheKey uri kid) (hit_lru_ c1)). simpl.
    set (h1 := entry_it _ _).
    assert (keys h1 = take kMaxKeysPerKid ks) as Hk1 by (subst h1; simpl; by rewrite TrimToCap_keys).
    assert (lru_wf lru_it id (<[CacheKey uri kid:=h1]> (hits_ c)) l) as Hlru.
    { apply lru_insert; [rewrite Ehl1, Ehl; apply (jc_hits c Hwf)|done|done|done]. }
    pose proof (jc_max c1 Hwf1) as Hmax.
    destruct (evict_spec _ _ (max_entries_ c1) _ _ Hlru ltac:(lia) (le_n _))
      as (m' & l' & He & Hwf' & Hsz & Hsub & _).
    pose proof (evict_front _ _ (max_entries_ c1) _ m' _ l' (CacheKey uri kid) h1 Hlru ltac:(lia)
                  (le_n _) He eq_refl ltac:(by rewrite lookup_insert_eq)) as Hfront.
    rewrite He. simpl. eexists. split_and!; [done| |by destruct c1; simpl in *; congruence..| | |].
    + apply wf_set_hits; [done|done|done|]. intros ck h' Hck.
      pose proof (lookup_weaken _ _ _ _ Hck Hsub) as Hck'.
      destruct (decide (ck = CacheKey uri kid)) as [->|]; simplify_map_eq; [by rewrite Hk1|].
      by eapply (jc_keys c).
    + done.
    + intros _. exists h1. split_and!; [by destruct c1|done|subst h1; unfold TrimToCap; by destruct (_ <? _)%nat|].
      unfold FindMiss. destruct c1; simpl in *. rewrite Hm1. apply lookup_delete_eq.
    + intros ck h' Hck Hl. assert (m' !! ck = Some h') as Hl' by (by destruct c1).
      pose proof (lookup_weaken _ _ _ _ Hl' Hsub) as Hck'. by rewrite lookup_insert_ne in Hck'.
Qed.

Lemma OnFetchSuccess_trusted T c c' kid ks now uri :
  jc_wf c → jc_trusted T c → Forall (T (CacheKey uri kid)) ks →
  OnFetchSuccess c kid ks now uri = Ret c' → jc_trusted T c'.
Proof.
  intros Hwf HT Hks Hc.
  destruct (OnFetchSuccess_spec c kid ks now uri Hwf) as (c1 & Hc1 & _ & _ & _ & Hnil & Hk & Ho).
  rewrite Hc in Hc1. simplify_eq. destruct (decide (ks = [])) as [->|Hne].
  { by rewrite (Hnil eq_refl). }
  destruct (Hk Hne) as (h & Hh & Hkeys & _). intros ck h' Hck.
  destruct (decide (ck = CacheKey uri kid)) as [->|]; [|eauto].
  unfold FindHit in Hh. rewrite Hh in Hck. simplify_eq. rewrite Hkeys. by apply Forall_take.
Qed.

(** *** Passive ingestion *)
Lemma union_keys_app existing ks : ∃ added, union_keys existing ks = existing ++ added ∧
  (∀ k, k ∈ added → k ∈ ks).
Proof.
  unfold union_keys. revert existing. induction ks as [|k ks IH]; intros existing; simpl.
  - exists []. rewrite app_nil_r. set_solver.
  - destruct (existsb _ existing).
    + destruct (IH existing) as (added & -> & ?). exists added. set_solver.
    + destruct (IH (existing ++ [k])) as (added & -> & ?). exists (k :: added).
      rewrite <-app_assoc. split; [done|set_solver].
Qed.

Lemma union_keys_covers existing ks k :
  k ∈ ks → SameKeyMaterial k k = true →
  ∃ k', k' ∈ union_keys existing ks ∧ SameKeyMaterial k' k = true.
Proof.
  unfold union_keys. revert existing. induction ks as [|k0 ks IH]; intros existing; [set_solver|].
  intros [->|Hk]%elem_of_cons Hrefl; simpl; [|by apply IH].
  assert (∀ acc k', k' ∈ acc → k' ∈ foldl (λ acc k, if existsb (λ ex, SameKeyMaterial ex k) acc
                                         then acc else acc ++ [k]) acc ks) as Hmono.
  { intros acc k' Hin. destruct (union_keys_app acc ks) as (added & Ha & _).
    unfold union_keys in Ha. rewrite Ha. set_solver. }
  destruct (existsb _ existing) eqn:Hex.
  - apply existsb_elem in Hex as (k' & ? & ?). exists k'. auto.
  - exists k0. split; [|done]. apply Hmono. set_solver.
Qed.

Lemma drop_oldest_ok (ks : list Jwk) :
  ks ≠ [] → drop_oldest ks ≠ [] ∧ (length (drop_oldest ks) ≤ kMaxKeysPerKid)%nat.
Proof.
  intros Hks. unfold drop_oldest. rewrite length_drop. unfold kMaxKeysPerKid. split; [|lia].
  intros H%(f_equal length). rewrite length_drop in H. simpl in H.
  destruct ks; simpl in *; [done|lia].
Qed.

Lemma OnPassiveFetchSuccess_spec c kid ks now uri :
  jc_wf c →
  ∃ c', OnPassiveFetchSuccess c kid ks now uri = Ret c' ∧ jc_wf c' ∧
    max_entries_ c' = max_entries_ c ∧ last_global_fetch_s_ c' = last_global_fetch_s_ c ∧
    (ks ≠ [] → ∃ h, FindHit c' uri kid = Some h ∧ consecutive_absent_count h = 0 ∧
       match FindHit c uri kid with
       | Some h0 => keys h = drop_oldest (union_keys (keys h0) ks)
       | None => keys h = take kMaxKeysPerKid ks
       end) ∧
    (∀ ck h, ck ≠ CacheKey uri kid → hits_ c' !! ck = Some h → hits_ c !! ck = Some h).
Proof.
  intros Hwf. unfold OnPassiveFetchSuccess. destruct ks as [|k0 ks0]; [by exists c|].
  set (ks := k0 :: ks0). assert (ks ≠ []) as Hks by done. clearbody ks. clear k0 ks0.
  destruct (FindHit c uri kid) as [h|] eqn:Hh.
  - unfold FindHit in *. destruct (jc_keys c Hwf _ _ Hh) as [Hne _].
    assert (union_keys (keys h) ks ≠ []) as Hu.
    { destruct (union_keys_app (keys h) ks) as (added & -> & _). by destruct (keys h). }
    destruct (drop_oldest_ok _ Hu) as [Hd1 Hd2].
    eexists; split_and!; [done| |by destruct c..| |].
    + by eapply wf_update_hit.
    + intros _. eexists. split; [destruct c; simpl; apply lookup_insert_eq|done].
    + intros ck h' Hck. destruct c; simpl in *. by rewrite lookup_insert_ne.
  - destruct (OnFetchSuccess_spec c kid ks now uri Hwf) as (c' & Hc' & Hwf' & Hmax & Hg & _ & Hk & Ho).
    exists c'. split_and!; try done. intros Hne. destruct (Hk Hne) as (h & ? & ? & ? & _). eauto.
Qed.

Lemma OnPassiveFetchSuccess_trusted T c c' kid ks now uri :
  jc_wf c → jc_trusted T c → Forall (T (CacheKey uri kid)) ks →
  OnPassiveFetchSuccess c kid ks now uri = Ret c' → jc_trusted T c'.
Proof.
  intros Hwf HT Hks Hc.
  destruct (OnPassiveFetchSuccess_spec c kid ks now uri Hwf) as (c1 & Hc1 & _ & _ & _ & Hk & Ho).
  rewrite Hc in Hc1. simplify_eq. destruct (decide (ks = [])) as [->|Hne].
  { simpl in Hc. by simplify_eq. }
  destruct (Hk Hne) as (h & Hh & _ & Hkeys). intros ck h' Hck.
  destruct (decide (ck = CacheKey uri kid)) as [->|]; [|eauto].
  unfold FindHit in *. rewrite Hh in Hck. simplify_eq.
  destruct (hits_ c !! CacheKey uri kid) as [h0|] eqn:H0; rewrite Hkeys; [|by apply Forall_take].
  apply Forall_drop. destruct (union_keys_app (keys h0) ks) as (added & -> & Hadd).
  apply Forall_app. split; [by eapply HT|].
  rewrite Forall_forall in *. auto.
Qed.

(** *** Negative entries *)
Lemma OnFetchMiss_spec c kid now uri :
  jc_wf c →
  ∃ c', OnFetchMiss c kid now uri = Ret c' ∧ jc_wf c' ∧ same_but_misses c c' ∧
    (∃ m, FindMiss c' uri kid = Some m ∧ recorded_at_s m = now) ∧
    (∀ ck m, ck ≠ CacheKey uri kid → misses_ c' !! ck = Some m → misses_ c !! ck = Some m).
Proof.
  intros Hwf. unfold OnFetchMiss.
  destruct (erase_miss_spec c (CacheKey uri kid) Hwf)
    as (c1 & -> & Hwf1 & Hm1 & (Eh1 & Ehl1 & Emax1 & Emin1 & Eg1 & En1)). simpl.
  set (m1 := mkMissEntry now _).
  assert (lru_wf miss_lru_it id (<[CacheKey uri kid:=m1]> (misses_ c1))
            (sl_push_front (CacheKey uri kid) (miss_lru_ c1))) as Hlru.
  { apply lru_insert; [apply (jc_misses c1 Hwf1)| |done|done]. by rewrite Hm1, lookup_delete_eq. }
  pose proof (jc_max c1 Hwf1) as Hmax.
  destruct (evict_spec _ _ (max_entries_ c1) _ _ Hlru ltac:(lia) (le_n _))
    as (m' & l' & He & Hwf' & Hsz & Hsub & _).
  pose proof (evict_front _ _ (max_entries_ c1) _ m' _ l' (CacheKey uri kid) m1 Hlru ltac:(lia)
                (le_n _) He eq_refl ltac:(by rewrite lookup_insert_eq)) as Hfront.
  rewrite He. simpl. eexists. split_and!; [done| | | |].
  - by apply wf_set_misses.
  - destruct c1; unfold same_but_misses in *; simpl in *; naive_solver.
  - exists m1. split; [by destruct c1|done].
  - intros ck m Hck Hl. assert (m' !! ck = Some m) as Hl' by (by destruct c1).
    pose proof (lookup_weaken _ _ _ _ Hl' Hsub) as Hck'.
    rewrite lookup_insert_ne, Hm1 in Hck' by done. by apply lookup_delete_Some in Hck' as [_ ?].
Qed.

(** *** Refresh reservations *)
Lemma TryReserveRefresh_spec c kid now uri id' c' :
  TryReserveRefresh c kid now uri = (id', c') →
  (id' = 0 ∧ c' = c) ∨
  ∃ h, FindHit c uri kid = Some h ∧ id' = next_reservation_id_ c ∧
       (last_refresh_attempt_s h + min_refresh_s_ c ≤ now ∨
        now + kClockResetThresholdSeconds < last_refresh_attempt_s h) ∧
       c' = set_hits (<[CacheKey uri kid := entry_reservation id' (entry_attempt now h)]> (hits_ c))
              (hit_lru_ c) (set_next_reservation (u64_succ id') c).
Proof.
  unfold TryReserveRefresh. destruct (FindHit c uri kid) as [h|]; [|naive_solver].
  relate_clock now (last_refresh_attempt_s h).
  - destruct (Z.ltb_spec (now - last_refresh_attempt_s h) (min_refresh_s_ c)); [naive_solver|].
    intros [= <- <-]. right. exists h. split_and!; try done. left. lia.
  - naive_solver.
  - intros [= <- <-]. right. exists h. split_and!; try done. right. unfold kClockResetThresholdSeconds. lia.
Qed.

Lemma TryReserveRefresh_wf c kid now uri id' c' :
  jc_wf c → TryReserveRefresh c kid now uri = (id', c') → jc_wf c' ∧
  max_entries_ c' = max_entries_ c ∧ last_global_fetch_s_ c' = last_global_fetch_s_ c.
Proof.
  intros Hwf [[_ ->]|(h & Hh & _ & _ & ->)]%TryReserveRefresh_spec; [done|].
  split_and!; [|by destruct c..]. destruct (jc_keys c Hwf _ _ Hh).
  pose proof (wf_update_hit c _ h (entry_reservation id' (entry_attempt now h)) Hwf Hh eq_refl) as H1.
  eapply (wf_same_maps _ _ (H1 ltac:(done) ltac:(done))); by destruct c.
Qed.

Lemma set_hits_trusted T c ck h m l :
  jc_trusted T c → Forall (T ck) (keys h) → m = <[ck:=h]> (hits_ c) → jc_trusted T (set_hits m l c).
Proof.
  intros HT Hh -> ck' h'. destruct c; simpl in *.
  destruct (decide (ck = ck')) as [<-|]; simplify_map_eq; [|apply HT].
  by intros [= <-].
Qed.

Lemma delete_hit_trusted T c ck l :
  jc_trusted T c → jc_trusted T (set_hits (delete ck (hits_ c)) l c).
Proof. intros HT ck' h'. destruct c; simpl in *. intros [_ ?]%lookup_delete_Some. eauto. Qed.

Lemma same_hits_trusted T c c' : hits_ c' = hits_ c → jc_trusted T c → jc_trusted T c'.
Proof. unfold jc_trusted. by intros ->. Qed.

Lemma TryReserveRefresh_trusted T c kid now uri id' c' :
  jc_trusted T c → TryReserveRefresh c kid now uri = (id', c') → jc_trusted T c'.
Proof.
  intros HT [[_ ->]|(h & Hh & _ & _ & ->)]%TryReserveRefresh_spec; [done|].
  eapply (set_hits_trusted T (set_next_reservation _ c) (CacheKey uri kid) (entry_reservation id' (entry_attempt now h))).
  - by eapply same_hits_trusted; [|exact HT]; destruct c.
  - exact (HT _ _ Hh).
  - by destruct c.
Qed.

Lemma CommitRefresh_spec c kid rid ks now uri :
  jc_wf c →
  ∃ b c', CommitRefresh c kid rid ks now uri = Ret (b, c') ∧ jc_wf c' ∧
    max_entries_ c' = max_entries_ c ∧ last_global_fetch_s_ c' = last_global_fetch_s_ c ∧
    misses_ c' = misses_ c ∧
    (b = false → c' = c) ∧
    (b = true → rid ≠ 0 ∧ ks ≠ [] ∧ ∃ h it, FindHit c uri kid = Some h ∧
       current_reservation_id h = rid ∧
       hits_ c' = <[CacheKey uri kid := mkEntry (take kMaxKeysPerKid ks) now
                      (last_refresh_attempt_s h) 0 0 it]> (hits_ c)).
Proof.
  intros Hwf. unfold CommitRefresh.
  destruct (Z.eqb_spec rid 0) as [?|Hrid]; simpl; [by eexists false, c|].
  case_bool_decide as Hks; [by eexists false, c|].
  destruct (FindHit c uri kid) as [h|] eqn:Hh; [|by eexists false, c].
  destruct (Z.eqb_spec (current_reservation_id h) rid) as [Hcur|]; simpl; [|by eexists false, c].
  set (h1 := entry_fetched now _).
  destruct (keys_take_ok ks Hks) as [Hne Hlen].
  assert (∀ it, entry_it it h1 = mkEntry (take kMaxKeysPerKid ks) now (last_refresh_attempt_s h) 0 0 it) as Hh1.
  { intros it. subst h1. unfold TrimToCap, entry_it, entry_fetched. simpl.
    destruct (Nat.ltb_spec kMaxKeysPerKid (length ks)); simpl; [done|].
    by rewrite take_ge by lia. }
  assert (keys h1 = take kMaxKeysPerKid ks) as Hk1 by exact (f_equal keys (Hh1 0%nat)).
  destruct (touch_hit_spec c (CacheKey uri kid) h h1 Hwf Hh) as (c2 & it & Ht & Hwf2 & Hh2 & Hm2 & Emax2 & Eg2).
  { subst h1. simpl. by rewrite TrimToCap_it. }
  { by rewrite Hk1. }
  { by rewrite Hk1. }
  rewrite Hh1 in Hh2. rewrite Ht. simpl.
  destruct (RelateClock _ _); [exists true, c2|by exists false, c|exists true, c2];
    (split_and!; try done; intros _; split_and!; [done|done|]; by exists h, it).
Qed.

Lemma CommitRefresh_trusted T c kid rid ks now uri b c' :
  jc_wf c → jc_trusted T c → Forall (T (CacheKey uri kid)) ks →
  CommitRefresh c kid rid ks now uri = Ret (b, c') → jc_trusted T c'.
Proof.
  intros Hwf HT Hks Hc. destruct (CommitRefresh_spec c kid rid ks now uri Hwf)
    as (b1 & c1 & Hc1 & _ & _ & _ & _ & Hf & Ht). rewrite Hc in Hc1. simplify_eq.
  destruct b1; [|by rewrite Hf].
  destruct (Ht eq_refl) as (_ & _ & h & it & _ & _ & Hm). intros ck h'. rewrite Hm.
  destruct (decide (CacheKey uri kid = ck)) as [<-|]; simplify_map_eq; [|apply HT].
  intros [= <-]. by apply Forall_take.
Qed.

(** *** Corroborated eviction *)
Lemma RecordKidAbsent_spec c kid rid now uri :
  jc_wf c →
  ∃ b c', RecordKidAbsent c kid rid now uri = Ret (b, c') ∧ jc_wf c' ∧
    max_entries_ c' = max_entries_ c ∧ last_global_fetch_s_ c' = last_global_fetch_s_ c ∧
    (∀ ck, ck ≠ CacheKey uri kid → hits_ c' !! ck = hits_ c !! ck) ∧
    match FindHit c uri kid with
    | None => b = false ∧ c' = c
    | Some h =>
        if negb (rid =? 0) && negb (current_reservation_id h =? rid) then b = false ∧ c' = c
        else let absent := consecutive_absent_count h + 1 in
             b = (2 <=? absent) ∧
             FindHit c' uri kid = if b then None else
               Some (entry_absent absent (entry_attempt now (entry_reservation 0 h)))
    end.
Proof.
  intros Hwf. unfold RecordKidAbsent. destruct (FindHit c uri kid) as [h|] eqn:Hh;
    [|by exists false, c]. unfold FindHit in *. simpl.
  destruct (negb (rid =? 0) && _); [by exists false, c|]. simpl.
  destruct (2 <=? consecutive_absent_count h + 1).
  - destruct (wf_delete_hit c _ h Hwf Hh) as (l & -> & Hwf1). simpl.
    eexists true, _. split_and!; [done|done|by destruct c..| | |].
    + intros ck Hck. destruct c; simpl. by rewrite lookup_delete_ne.
    + done.
    + destruct c; simpl. by rewrite lookup_delete_eq.
  - destruct (jc_keys c Hwf _ _ Hh).
    eexists false, _. split_and!; [done| |by destruct c..| | |].
    + by eapply wf_update_hit.
    + intros ck Hck. destruct c; simpl. by rewrite lookup_insert_ne.
    + done.
    + destruct c; simpl. by rewrite lookup_insert_eq.
Qed.

Lemma RecordKidAbsent_trusted T c kid rid now uri b c' :
  jc_wf c → jc_trusted T c → RecordKidAbsent c kid rid now uri = Ret (b, c') → jc_trusted T c'.
Proof.
  intros Hwf HT Hc.
  destruct (RecordKidAbsent_spec c kid rid now uri Hwf) as (b1 & c1 & Hc1 & _ & _ & _ & Ho & Hk).
  rewrite Hc in Hc1. simplify_eq. intros ck h' Hck.
  destruct (decide (ck = CacheKey uri kid)) as [->|]; [|rewrite Ho in Hck by done; eauto].
  unfold FindHit in *. destruct (hits_ c !! CacheKey uri kid) as [h|] eqn:Hh;
    [|destruct Hk as [_ ->]; eauto].
  destruct (negb _ && _); [destruct Hk as [_ ->]; eauto|]. destruct Hk as [_ Hk].
  rewrite Hck in Hk. destruct b1; simplify_eq. exact (HT _ _ Hh).
Qed.

(** *** Reconciliation with a fetched document *)

(** What a reconciliation does to one entry, and whether it evicts it. *)
Definition reconcile_entry (present_kids : gset string) (jwks_uri exclude_kid : string)
    (cache_key : string) (h : Entry) : Entry * bool :=
  match kid_of_key jwks_uri cache_key with
  | None => (h, false)
  | Some kid =>
      if negb (sempty exclude_kid) && seqb kid exclude_kid then (h, false)
      else if bool_decide (kid ∈ present_kids) then (entry_absent 0 h, false)
      else (entry_absent (consecutive_absent_count h + 1) h, 2 <=? consecutive_absent_count h + 1)
  end.

Definition reconciled (present_kids : gset string) (jwks_uri exclude_kid : string)
    (cache_key : string) (h : Entry) : option Entry :=
  let '(h', gone) := reconcile_entry present_kids jwks_uri exclude_kid cache_key h in
  if gone then None else Some h'.

Section reconcile.
Context (present : gset string) (uri excl : string).
Abbreviation rentry := (reconcile_entry present uri excl).

Lemma reconcile_step_eq m ev k h :
  m !! k = Some h →
  reconcile_step present uri excl (m, ev) (k, h) =
    (<[k := (rentry k h).1]> m, if (rentry k h).2 then ev ++ [k] else ev).
Proof.
  intros Hk. unfold reconcile_step, reconcile_entry.
  destruct (kid_of_key uri k) as [kid|]; [|simpl; by rewrite insert_id].
  destruct (_ && _); [simpl; by rewrite insert_id|].
  case_bool_decide; [done|]. simpl. by destruct (2 <=? _).
Qed.

Lemma reconcile_entry_it k h : lru_it (rentry k h).1 = lru_it h ∧ keys (rentry k h).1 = keys h.
Proof. unfold reconcile_entry. by repeat case_match. Qed.

(** The marking pass, whatever the order the entries are visited in. *)
Lemma reconcile_fold m ev kvs :
  NoDup kvs.*1 → (∀ k h, (k, h) ∈ kvs → m !! k = Some h) →
  ∃ m' ev', foldl (reconcile_step present uri excl) (m, ev) kvs = (m', ev') ∧
    (∀ k h, (k, h) ∈ kvs → m' !! k = Some (rentry k h).1) ∧
    (∀ k, k ∉ kvs.*1 → m' !! k = m !! k) ∧
    (∀ k, k ∈ ev' ↔ k ∈ ev ∨ ∃ h, (k, h) ∈ kvs ∧ (rentry k h).2 = true).
Proof.
  revert m ev. induction kvs as [|[k h] kvs IH]; intros m ev Hnd Hm; cbn [foldl].
  - exists m, ev. split_and!; [done|set_solver..].
  - simpl in Hnd. apply NoDup_cons in Hnd as [Hk Hnd].
    assert (∀ h', (k, h') ∉ kvs) as Hk'.
    { intros h' Hin. apply Hk, list_elem_of_fmap. by exists (k, h'). }
    rewrite reconcile_step_eq by (apply Hm; left).
    destruct (IH (<[k:=(rentry k h).1]> m) (if (rentry k h).2 then ev ++ [k] else ev) Hnd)
      as (m' & ev' & -> & H1 & H2 & H3).
    { intros k1 h1 Hin. rewrite lookup_insert_ne by naive_solver. apply Hm. by right. }
    exists m', ev'. split_and!; [done| | |].
    + intros k1 h1 [?|?]%elem_of_cons; simplify_eq; [|auto].
      by rewrite H2, lookup_insert_eq.
    + simpl. intros k1 [? ?]%not_elem_of_cons. rewrite H2, lookup_insert_ne by done. done.
    + intros k1. rewrite H3. transitivity ((k1 ∈ ev ∨ k1 = k ∧ (rentry k h).2 = true) ∨
        ∃ h0, (k1, h0) ∈ kvs ∧ (rentry k1 h0).2 = true).
      { f_equiv. destruct ((rentry k h).2); rewrite ?elem_of_app, ?list_elem_of_singleton; intuition congruence. }
      split.
      * intros [[?|[-> ?]]|(h0 & ? & ?)]; [by left|right; exists h|right; exists h0];
          (split; [|done]); by (left || right).
      * intros [?|(h0 & [?|?]%elem_of_cons & ?)]; simplify_eq; eauto.
Qed.

(** The eviction pass. *)
Lemma evict_keys_spec m l ks :
  lru_wf lru_it id m l →
  ∃ m' l', exc_fold evict_key (m, l) ks = Ret (m', l') ∧ lru_wf lru_it id m' l' ∧
    ∀ k, m' !! k = if bool_decide (k ∈ ks) then None else m !! k.
Proof.
  revert m l. induction ks as [|k ks IH]; intros m l Hwf.
  - exists m, l. split_and!; try done.
  - cbn [exc_fold]. unfold evict_key at 2.
    assert (∃ m1 l1, (match m !! k with
                      | Some hit => l ← defined (sl_erase (lru_it hit) l); Ret (delete k m, l)
                      | None => Ret (m, l) end) = Ret (m1, l1) ∧
                     lru_wf lru_it id m1 l1 ∧ m1 = delete k m) as (m1 & l1 & -> & Hwf1 & Hm1).
    { destruct (m !! k) as [h|] eqn:Hk.
      - destruct (lru_delete _ _ _ _ _ _ Hwf Hk) as (l1 & -> & ? & _). by exists (delete k m), l1.
      - exists m, l. by rewrite delete_id. }
    simpl. destruct (IH _ _ Hwf1) as (m' & l' & -> & Hwf' & Hm'). exists m', l'. split_and!; try done.
    intros k'. rewrite Hm', Hm1. destruct (decide (k = k')) as [->|Hne].
    + rewrite lookup_delete_eq, (bool_decide_eq_true_2 (k' ∈ k' :: ks)) by left.
      by case_bool_decide.
    + rewrite lookup_delete_ne by done. do 2 case_bool_decide; set_solver.
Qed.
End reconcile.

(** The marking pass of a reconciliation. *)
Lemma reconcile_mark `{!UMapOrder} c present uri excl :
  jc_wf c →
  ∃ m ev, foldl (reconcile_step present uri excl) (hits_ c, []) (um_iter (hits_ c)) = (m, ev) ∧
    lru_wf lru_it id m (hit_lru_ c) ∧
    (∀ k, m !! k = (λ h, (reconcile_entry present uri excl k h).1) <$> hits_ c !! k) ∧
    (∀ k, k ∈ ev ↔ ∃ h, hits_ c !! k = Some h ∧ (reconcile_entry present uri excl k h).2 = true).
Proof.
  intros Hwf. destruct (reconcile_fold present uri excl (hits_ c) [] (um_iter (hits_ c)))
    as (m1 & ev & -> & H1 & H2 & H3); [apply um_iter_nodup|intros; by apply um_iter_elem|].
  assert (∀ k, m1 !! k = (λ h, (reconcile_entry present uri excl k h).1) <$> hits_ c !! k) as Hm1.
  { intros k. destruct (hits_ c !! k) as [h|] eqn:Hk; simpl.
    - by apply H1, um_iter_elem.
    - rewrite H2; [done|]. intros ([k1 h] & -> & Hin)%list_elem_of_fmap.
      apply um_iter_elem in Hin. simpl in Hk. congruence. }
  exists m1, ev. split_and!; [done| |done|].
  - destruct (jc_hits c Hwf) as [Hsl Hv Hi]. split; [done| |].
    + intros k h'. rewrite Hm1, fmap_Some. intros (h & Hk & ->).
      destruct (reconcile_entry_it present uri excl k h) as [-> _]. auto.
    + intros i x Hin. destruct (Hi i x Hin) as (h & Hk & <-). rewrite Hm1, Hk. simpl.
      eexists. split; [done|]. by destruct (reconcile_entry_it present uri excl x h).
  - intros k. rewrite H3. setoid_rewrite um_iter_elem. set_solver.
Qed.

Lemma ReconcileAbsentKids_spec `{!UMapOrder} c present now uri excl :
  jc_wf c →
  ∃ c', ReconcileAbsentKids c present now uri excl = Ret c' ∧ jc_wf c' ∧
    max_entries_ c' = max_entries_ c ∧ last_global_fetch_s_ c' = last_global_fetch_s_ c ∧
    misses_ c' = misses_ c ∧
    ∀ ck, hits_ c' !! ck = hits_ c !! ck ≫= reconciled present uri excl ck.
Proof.
  intros Hwf. unfold ReconcileAbsentKids.
  destruct (reconcile_mark c present uri excl Hwf) as (m1 & ev & -> & Hlru & Hm1 & Hev).
  destruct (evict_keys_spec m1 (hit_lru_ c) ev Hlru) as (m2 & l2 & -> & Hwf2 & Hm2). simpl.
  assert (∀ ck, m2 !! ck = hits_ c !! ck ≫= reconciled present uri excl ck) as Hfinal.
  { intros k. rewrite Hm2, Hm1. unfold reconciled.
    destruct (hits_ c !! k) as [h|] eqn:Hk; simpl; [|by case_bool_decide].
    assert (k ∈ ev ↔ (reconcile_entry present uri excl k h).2 = true) as Hk_ev.
    { rewrite Hev, Hk. naive_solver. }
    clear Hev. destruct (reconcile_entry present uri excl k h) as [h' []]; simpl in *;
      case_bool_decide; naive_solver. }
  eexists. split_and!; [done| |by destruct c..]. apply wf_set_hits; [done|done| |].
  - etrans; [|apply (jc_hits_size c Hwf)]. rewrite <-!size_dom. apply inj_le, subseteq_size.
    intros k. rewrite !elem_of_dom, Hfinal. intros [h Hk]. by destruct (hits_ c !! k).
  - intros ck h'. rewrite Hfinal, bind_Some. unfold reconciled. intros (h & Hk & Hr).
    destruct (reconcile_entry present uri excl ck h) as [h1 []] eqn:Hre; simplify_eq.
    pose proof (reconcile_entry_it present uri excl ck h) as [_ Hkeys]. rewrite Hre in Hkeys.
    simpl in Hkeys. rewrite Hkeys. by eapply jc_keys.
Qed.

Lemma ReconcileAbsentKids_trusted `{!UMapOrder} T c present now uri excl c' :
  jc_wf c → jc_trusted T c → ReconcileAbsentKids c present now uri excl = Ret c' → jc_trusted T c'.
Proof.
  intros Hwf HT Hc. destruct (ReconcileAbsentKids_spec c present now uri excl Hwf)
    as (c1 & Hc1 & _ & _ & _ & _ & Hh). rewrite Hc in Hc1. simplify_eq.
  intros ck h'. rewrite Hh, bind_Some. unfold reconciled. intros (h & Hk & Hr).
  destruct (reconcile_entry present uri excl ck h) as [h1 []] eqn:Hre; simplify_eq.
  pose proof (reconcile_entry_it present uri excl ck h) as [_ Hkeys]. rewrite Hre in Hkeys.
  simpl in Hkeys. rewrite Hkeys. by eapply HT.
Qed.

(** *** What the other threads and the fetch budget see *)
Lemma CanFetchJwks_same c c' now :
  last_global_fetch_s_ c' = last_global_fetch_s_ c → CanFetchJwks c' now = CanFetchJwks c now.
Proof. unfold CanFetchJwks. by intros ->. Qed.

Lemma Lookup_trusted T c kid now uri :
  jc_trusted T c → Forall (T (CacheKey uri kid)) (jl_keys (Lookup c kid now uri)).
Proof.
  intros HT. unfold Lookup, FindHit. destruct (hits_ c !! _) as [h|] eqn:Hh; simpl; [by eapply HT|].
  by repeat case_match.
Qed.

(** ** The cache as a state machine

    The public mutating operations as the steps of a client, in any order and
    with any arguments (the mutex makes each of them atomic). *)
Inductive jc_op : Type :=
  | OpSetMinRefreshSeconds (s : Z)
  | OpOnFetchSuccess (kid : string) (ks : list Jwk) (now_s : Z) (uri : string)
  | OpOnPassiveFetchSuccess (kid : string) (ks : list Jwk) (now_s : Z) (uri : string)
  | OpReconcileAbsentKids (present : gset string) (now_s : Z) (uri exclude_kid : string)
  | OpRecordKidAbsent (kid : string) (rid now_s : Z) (uri : string)
  | OpRecordJwksFetch (now_s : Z)
  | OpRecordJwksFetchSuccess (now_s : Z) (uri : string)
  | OpTryReserveRefresh (kid : string) (now_s : Z) (uri : string)
  | OpCommitRefresh (kid : string) (rid : Z) (ks : list Jwk) (now_s : Z) (uri : string)
  | OpOnFetchMiss (kid : string) (now_s : Z) (uri : string)
  | OpIncrementThrottledRefreshes (is_budget : bool) (now_s : Z)
  | OpSetLastRefreshReason (r : string).

Definition jc_apply `{!UMapOrder} (c : JwksCache) (op : jc_op) : exc JwksCache :=
  match op with
  | OpSetMinRefreshSeconds s => Ret (SetMinRefreshSeconds c s)
  | OpOnFetchSuccess kid ks now uri => OnFetchSuccess c kid ks now uri
  | OpOnPassiveFetchSuccess kid ks now uri => OnPassiveFetchSuccess c kid ks now uri
  | OpReconcileAbsentKids present now uri excl => ReconcileAbsentKids c present now uri excl
  | OpRecordKidAbsent kid rid now uri => snd <$> RecordKidAbsent c kid rid now uri
  | OpRecordJwksFetch now => Ret (RecordJwksFetch c now)
  | OpRecordJwksFetchSuccess now uri => Ret (RecordJwksFetchSuccess c now uri)
  | OpTryReserveRefresh kid now uri => Ret (TryReserveRefresh c kid now uri).2
  | OpCommitRefresh kid rid ks now uri => snd <$> CommitRefresh c kid rid ks now uri
  | OpOnFetchMiss kid now uri => OnFetchMiss c kid now uri
  | OpIncrementThrottledRefreshes b now => Ret (IncrementThrottledRefreshes c b now)
  | OpSetLastRefreshReason r => Ret (SetLastRefreshReason c r)
  end.

Lemma jc_wf_new s n : 0 ≤ n → jc_wf (JwksCache_new s n).
Proof.
  intros Hn. split; simpl; rewrite ?map_size_empty;
    try (destruct (Z.eqb_spec n 0); lia); [apply lru_wf_empty..|done|].
  apply clamp_bounds. lia.
Qed.

Lemma wf_set_min c s : jc_wf c → jc_wf (SetMinRefreshSeconds c s).
Proof.
  intros []. unfold SetMinRefreshSeconds. destruct c; split; try done.
  simpl. apply clamp_bounds. lia.
Qed.

Lemma wf_record_fetch c now : jc_wf c → jc_wf (RecordJwksFetch c now) ∧
  hits_ (RecordJwksFetch c now) = hits_ c ∧ max_entries_ (RecordJwksFetch c now) = max_entries_ c.
Proof.
  intros Hwf. unfold RecordJwksFetch.
  destruct (_ && _); (split_and!; [eapply (wf_same_maps c)| |]); try done; by destruct c.
Qed.

Lemma wf_throttled c b now : jc_wf c → jc_wf (IncrementThrottledRefreshes c b now).
Proof. intros Hwf. eapply (wf_same_maps c); try done; by destruct c. Qed.

Lemma wf_last_reason c r : jc_wf c → jc_wf (SetLastRefreshReason c r).
Proof. intros Hwf. eapply (wf_same_maps c); try done; by destruct c. Qed.

Create HintDb jwks.
#[export] Hint Resolve wf_set_min wf_record_success wf_throttled wf_last_reason jc_wf_new : jwks.

Lemma jc_apply_wf `{!UMapOrder} c op :
  jc_wf c → ∃ c', jc_apply c op = Ret c' ∧ jc_wf c' ∧ max_entries_ c' = max_entries_ c.
Proof.
  intros Hwf. destruct op; simpl.
  - eexists. split_and!; [done|auto with jwks|by destruct c].
  - destruct (OnFetchSuccess_spec c kid ks now_s uri Hwf) as (c' & -> & ? & ? & _). eauto.
  - destruct (OnPassiveFetchSuccess_spec c kid ks now_s uri Hwf) as (c' & -> & ? & ? & _). eauto.
  - destruct (ReconcileAbsentKids_spec c present now_s uri exclude_kid Hwf) as (c' & -> & ? & ? & _).
    eauto.
  - destruct (RecordKidAbsent_spec c kid rid now_s uri Hwf) as (b & c' & -> & ? & ? & _).
    exists c'. eauto.
  - destruct (wf_record_fetch c now_s Hwf) as (? & _ & ?). eauto.
  - eexists. split_and!; [done|auto with jwks|].
    by destruct (record_success_same c now_s uri) as (_ & _ & _ & ? & _).
  - destruct (TryReserveRefresh c kid now_s uri) as [id' c'] eqn:Hr.
    destruct (TryReserveRefresh_wf _ _ _ _ _ _ Hwf Hr) as (? & ? & _). eauto.
  - destruct (CommitRefresh_spec c kid rid ks now_s uri Hwf) as (b & c' & -> & ? & ? & _).
    exists c'. eauto.
  - destruct (OnFetchMiss_spec c kid now_s uri Hwf) as (c' & -> & ? & (_ & _ & ? & _) & _). eauto.
  - eexists. split_and!; [done|auto with jwks|by destruct c].
  - eexists. split_and!; [done|auto with jwks|by destruct c].
Qed.

(** ** Properties *)

(** Claim C34.  Whatever sequence of operations a client runs on a new cache, and
    in whatever order hash maps are iterated, no operation uses a dangling list
    iterator or the back of an empty list: every run completes, the two maps
    stay in step with their recency lists, each holds at most [max_entries]
    entries (one if zero was asked for), every cached kid has between one and
    four keys, and the refresh interval stays within one second to an hour. *)
Theorem jwks_cache_safe `{!UMapOrder} (s n : Z) (ops : list jc_op) :
  0 ≤ n →
  ∃ c, exc_fold jc_apply (JwksCache_new s n) ops = Ret c ∧ jc_wf c ∧
       Size c ≤ Z.max 1 n ∧ MissSize c ≤ Z.max 1 n.
Proof.
  intros Hn.
  destruct (exc_fold_total (λ c, jc_wf c ∧ max_entries_ c = max_entries_ (JwksCache_new s n))
              (λ _, True) jc_apply ops (JwksCache_new s n)) as (c & -> & Hwf & Hmax).
  - intros c op _ [Hwf Hmax]. destruct (jc_apply_wf c op Hwf) as (c' & -> & ? & ?).
    exists c'. split_and!; [done|done|congruence].
  - by apply Forall_true.
  - split; [auto with jwks|done].
  - exists c. pose proof (jc_hits_size c Hwf) as H1. pose proof (jc_misses_size c Hwf) as H2.
    rewrite Hmax in H1, H2. simpl in H1, H2. unfold Size, MissSize.
    split_and!; [done|done| |]; destruct (Z.eqb_spec n 0); lia.
Qed.

Lemma jwks_cache_safe_witness :
  0 ≤ 2 ∧ ∃ c, exc_fold (jc_apply (H:=um_canonical)) (JwksCache_new 30 2)
    [OpOnFetchMiss "a" 5 "u"; OpOnFetchSuccess "a" [mkJwk "a" "RSA" "" "" "n" "e" "" "" ""] 5 "u"] = Ret c ∧
    jc_wf c ∧ Size c ≤ Z.max 1 2 ∧ MissSize c ≤ Z.max 1 2.
Proof. split; [lia|]. apply (jwks_cache_safe (H:=um_canonical)). lia. Defined.

(** Claim C35.  Reconciling with a fetched document gives the same entries for
    every iteration order of the hash map, and changes each entry by its own
    rule only: another issuer's kid and the excluded kid are untouched, a kid
    the document lists has its absence count reset, any other kid of the issuer
    is counted absent and dropped at the second absence in a row. *)
Theorem reconcile_exact (o1 o2 : UMapOrder) c present now uri excl :
  jc_wf c →
  ∃ c1 c2, ReconcileAbsentKids (H:=o1) c present now uri excl = Ret c1 ∧
    ReconcileAbsentKids (H:=o2) c present now uri excl = Ret c2 ∧ hits_ c1 = hits_ c2 ∧
    ∀ ck, hits_ c1 !! ck =
      match hits_ c !! ck, kid_of_key uri ck with
      | Some h, Some kid =>
          if bool_decide (excl ≠ "" ∧ kid = excl) then Some h
          else if bool_decide (kid ∈ present) then Some (entry_absent 0 h)
          else if 1 <=? consecutive_absent_count h then None
          else Some (entry_absent (consecutive_absent_count h + 1) h)
      | r, _ => r
      end.
Proof.
  intros Hwf.
  destruct (ReconcileAbsentKids_spec (H:=o1) c present now uri excl Hwf) as (c1 & -> & _ & _ & _ & _ & H1).
  destruct (ReconcileAbsentKids_spec (H:=o2) c present now uri excl Hwf) as (c2 & -> & _ & _ & _ & _ & H2).
  exists c1, c2. split_and!; [done|done|apply map_eq; intros; by rewrite H1, H2|].
  intros ck. rewrite H1. destruct (hits_ c !! ck) as [h|]; [|done]. simpl.
  unfold reconciled, reconcile_entry. destruct (kid_of_key uri ck) as [kid|]; [|done].
  replace (negb (sempty excl) && seqb kid excl) with (bool_decide (excl ≠ "" ∧ kid = excl)).
  - do 2 (case_bool_decide; [done|]).
    replace (1 <=? consecutive_absent_count h) with (2 <=? consecutive_absent_count h + 1); [done|].
    destruct (Z.leb_spec 1 (consecutive_absent_count h)), (Z.leb_spec 2 (consecutive_absent_count h + 1)); lia.
  - apply eq_true_iff_eq. rewrite bool_decide_eq_true, andb_true_iff, negb_true_iff, sempty_false, seqb_true.
    done.
Qed.

(** A cache with one kid and one key, for the evaluations. *)
Definition key_a : Jwk := mkJwk "a" "RSA" "RS256" "sig" "n1" "e" "" "" "".
Definition key_b : Jwk := mkJwk "a" "RSA" "RS256" "sig" "n2" "e" "" "" "".
Definition cache_1 : JwksCache :=
  match OnFetchSuccess (JwksCache_new 30 8) "a" [key_a] 1000 "u" with Ret c => c | _ => JwksCache_new 1 1 end.

Lemma cache_1_wf : jc_wf cache_1.
Proof.
  destruct (OnFetchSuccess_spec (JwksCache_new 30 8) "a" [key_a] 1000 "u") as (c & Hc & Hwf & _).
  { by apply jc_wf_new. }
  unfold cache_1. by rewrite Hc.
Qed.

Lemma reconcile_exact_witness :
  jc_wf cache_1 ∧
  ∃ c1 c2, ReconcileAbsentKids (H:=um_canonical) cache_1 {["b"]} 1005 "u" "" = Ret c1 ∧
    ReconcileAbsentKids (H:=um_canonical) cache_1 {["b"]} 1005 "u" "" = Ret c2 ∧ hits_ c1 = hits_ c2 ∧
    ∀ ck, hits_ c1 !! ck =
      match hits_ cache_1 !! ck, kid_of_key "u" ck with
      | Some h, Some kid =>
          if bool_decide ("" ≠ "" ∧ kid = "") then Some h
          else if bool_decide (kid ∈ ({["b"]} : gset string)) then Some (entry_absent 0 h)
          else if 1 <=? consecutive_absent_count h then None
          else Some (entry_absent (consecutive_absent_count h + 1) h)
      | r, _ => r
      end.
Proof. split; [apply cache_1_wf|]. apply (reconcile_exact um_canonical um_canonical). apply cache_1_wf. Defined.

(** Per-kid refresh rate limit: after a reservation granted at [t0],
    no second one is granted for the same kid at any clock reading from one
    minute before [t0] to the refresh interval after it, and a refused request
    changes nothing. *)
Theorem reserve_rate_limited c kid uri t0 id0 c0 now :
  TryReserveRefresh c kid t0 uri = (id0, c0) → id0 ≠ 0 →
  t0 - 60 ≤ now < t0 + min_refresh_s_ c →
  TryReserveRefresh c0 kid now uri = (0, c0).
Proof.
  intros Hr Hid Hnow. destruct (TryReserveRefresh_spec _ _ _ _ _ _ Hr) as [[??]|(h & Hh & -> & _ & ->)]; [done|].
  unfold TryReserveRefresh, FindHit. destruct c; simpl in *.
  rewrite lookup_insert_eq. simpl.
  relate_clock now t0; [|done|lia].
  destruct (Z.ltb_spec (now - t0) min_refresh_s_0); [done|lia].
Qed.

Lemma reserve_rate_limited_witness :
  TryReserveRefresh cache_1 "a" 1030 "u" = (1, (TryReserveRefresh cache_1 "a" 1030 "u").2) ∧ 1 ≠ 0 ∧
  1030 - 60 ≤ 1040 < 1030 + min_refresh_s_ cache_1 ∧
  TryReserveRefresh (TryReserveRefresh cache_1 "a" 1030 "u").2 "a" 1040 "u" =
    (0, (TryReserveRefresh cache_1 "a" 1030 "u").2).
Proof.
  assert (TryReserveRefresh cache_1 "a" 1030 "u" = (1, (TryReserveRefresh cache_1 "a" 1030 "u").2)) as Hr
    by (vm_compute; reflexivity).
  assert (1030 - 60 ≤ 1040 < 1030 + min_refresh_s_ cache_1) as Hn by (vm_compute; split; congruence).
  split_and!; [exact Hr|done|apply Hn|apply Hn|].
  apply (reserve_rate_limited _ _ _ _ _ _ _ Hr); [done|exact Hn].
Defined.

(** A refresh that lost its reservation cannot write: once a second
    reservation for the kid is granted, committing under the first one is
    refused and changes nothing, whatever keys it brings, while the holder of
    the current reservation commits (unless the clock has stepped back less than
    a minute before the last commit), making its keys the kid's keys and closing
    the reservation, so that it cannot commit twice. *)
Theorem stale_commit_refused c kid uri t1 t2 id1 id2 c1 c2 ks now :
  jc_wf c → TryReserveRefresh c kid t1 uri = (id1, c1) → id1 ≠ 0 →
  TryReserveRefresh c1 kid t2 uri = (id2, c2) → id2 ≠ 0 →
  CommitRefresh c2 kid id1 ks now uri = Ret (false, c2) ∧
  (ks ≠ [] → (∀ h, FindHit c uri kid = Some h → fetched_at_s h ≤ now) →
   ∃ c3 h, CommitRefresh c2 kid id2 ks now uri = Ret (true, c3) ∧
     FindHit c3 uri kid = Some h ∧ keys h = take kMaxKeysPerKid ks ∧
     CommitRefresh c3 kid id2 ks now uri = Ret (false, c3)).
Proof.
  intros Hwf Hr1 Hid1 Hr2 Hid2.
  destruct (TryReserveRefresh_wf _ _ _ _ _ _ Hwf Hr1) as [Hwf1 _].
  destruct (TryReserveRefresh_wf _ _ _ _ _ _ Hwf1 Hr2) as [Hwf2 _].
  destruct (TryReserveRefresh_spec _ _ _ _ _ _ Hr1) as [[??]|(h1 & Hh1 & Hn1 & _ & Hc1)]; [done|].
  destruct (TryReserveRefresh_spec _ _ _ _ _ _ Hr2) as [[??]|(h2 & Hh2 & Hn2 & _ & Hc2)]; [done|].
  assert (FindHit c2 uri kid = Some (entry_reservation id2 (entry_attempt t2 h2))) as Hh.
  { subst c2. unfold FindHit. destruct c1; simpl. by rewrite lookup_insert_eq. }
  assert (h2 = entry_reservation id1 (entry_attempt t1 h1)) as ->.
  { subst c1. unfold FindHit in Hh2. destruct c; simpl in *. rewrite lookup_insert_eq in Hh2. congruence. }
  assert (id2 ≠ id1) as Hne.
  { subst id2 c1. destruct c; simpl in *. unfold u64_succ. intros Heq.
    assert ((id1 + 1) `mod` 2 ^ 64 = id1 `mod` 2 ^ 64) as Hm by (rewrite Heq, <-Heq, Zmod_mod; done).
    pose proof (Z.mod_pos_bound (id1 + 1) (2 ^ 64) ltac:(lia)).
    rewrite (Z.mod_small id1) in Hm by lia.
    pose proof (Z.div_mod (id1 + 1) (2 ^ 64) ltac:(lia)). nia. }
  split.
  { unfold CommitRefresh. rewrite Hh. destruct (_ || _); [done|]. simpl.
    by destruct (Z.eqb_spec id2 id1). }
  intros Hks Hf. destruct (CommitRefresh_spec c2 kid id2 ks now uri Hwf2)
    as (b & c3 & Hc3 & _ & _ & _ & _ & Hfalse & Htrue).
  assert (b = true) as ->.
  { unfold CommitRefresh in Hc3. rewrite Hh in Hc3. simpl in Hc3. rewrite Z.eqb_refl in Hc3.
    destruct (Z.eqb_spec id2 0); [done|]. case_bool_decide; [done|]. simpl in Hc3.
    specialize (Hf h1 Hh1). relate_clock now (fetched_at_s h1); [|lia|lia].
    apply exc_bind_Ret in Hc3 as (? & _ & [= <- _]). done. }
  destruct (Htrue eq_refl) as (_ & _ & h & it & Hh' & _ & Hm).
  assert (FindHit c3 uri kid = Some (mkEntry (take kMaxKeysPerKid ks) now
            (last_refresh_attempt_s h) 0 0 it)) as Hfin.
  { unfold FindHit. by rewrite Hm, lookup_insert_eq. }
  exists c3. eexists. split_and!; [done|exact Hfin|done|].
  unfold CommitRefresh. rewrite Hfin. destruct (_ || _); [done|]. cbn [current_reservation_id].
  destruct (Z.eqb_spec 0 id2); [congruence|done].
Qed.

Lemma stale_commit_refused_witness :
  let c1 := (TryReserveRefresh cache_1 "a" 1030 "u").2 in
  let c2 := (TryReserveRefresh c1 "a" 1060 "u").2 in
  jc_wf cache_1 ∧
  CommitRefresh c2 "a" 1 [key_b] 1061 "u" = Ret (false, c2) ∧
  ∃ c3 h, CommitRefresh c2 "a" 2 [key_b] 1061 "u" = Ret (true, c3) ∧
    FindHit c3 "u" "a" = Some h ∧ keys h = [key_b] ∧
    CommitRefresh c3 "a" 2 [key_b] 1061 "u" = Ret (false, c3).
Proof.
  intros c1 c2. split; [apply cache_1_wf|].
  assert (TryReserveRefresh cache_1 "a" 1030 "u" = (1, c1)) as H1 by (vm_compute; reflexivity).
  assert (TryReserveRefresh c1 "a" 1060 "u" = (2, c2)) as H2 by (vm_compute; reflexivity).
  destruct (stale_commit_refused cache_1 "a" "u" 1030 1060 1 2 c1 c2 [key_b] 1061 cache_1_wf H1
              ltac:(done) H2 ltac:(done)) as [Hs Hc].
  split; [exact Hs|]. apply Hc; [done|].
  intros h. vm_compute. intros [= <-]. discriminate.
Defined.

(** A kid the issuer does not know costs one fetch per refresh
    interval: after a recorded miss, and as long as no key arrives for the kid,
    a lookup is answered from the cache ([RateLimited], with the seconds left to
    wait) exactly during the refresh interval after the miss and during a minor
    clock rewind; outside it the lookup is a miss again. *)
Theorem negative_window c kid uri t now :
  jc_wf c → FindHit c uri kid = None →
  ∃ c', OnFetchMiss c kid t uri = Ret c' ∧
    Lookup c' kid now uri =
      if bool_decide (t ≤ now < t + min_refresh_s_ c) then
        mkJwksLookup RateLimited [] (t + min_refresh_s_ c - now)
      else if bool_decide (now < t ≤ now + 60) then mkJwksLookup RateLimited [] (min_refresh_s_ c)
      else mkJwksLookup Miss [] 0.
Proof.
  intros Hwf Hh. destruct (OnFetchMiss_spec c kid t uri Hwf)
    as (c' & Hc' & _ & (Eh & _ & _ & Emin & _) & (m & Hm & <-) & _).
  exists c'. split; [done|]. unfold Lookup, FindHit in *. rewrite Eh, Hh, Hm, Emin.
  relate_clock now (recorded_at_s m).
  - destruct (Z.ltb_spec (now - recorded_at_s m) (min_refresh_s_ c)).
    + rewrite bool_decide_eq_true_2 by lia. f_equal. lia.
    + rewrite !bool_decide_eq_false_2 by lia. done.
  - rewrite bool_decide_eq_false_2, bool_decide_eq_true_2 by lia. done.
  - rewrite !bool_decide_eq_false_2 by lia. done.
Qed.

Lemma negative_window_witness :
  jc_wf cache_1 ∧ FindHit cache_1 "u" "zz" = None ∧
  ∃ c', OnFetchMiss cache_1 "zz" 1000 "u" = Ret c' ∧
    Lookup c' "zz" 1010 "u" =
      if bool_decide (1000 ≤ 1010 < 1000 + min_refresh_s_ cache_1) then
        mkJwksLookup RateLimited [] (1000 + min_refresh_s_ cache_1 - 1010)
      else if bool_decide (1010 < 1000 ≤ 1010 + 60) then mkJwksLookup RateLimited [] (min_refresh_s_ cache_1)
      else mkJwksLookup Miss [] 0.
Proof.
  assert (FindHit cache_1 "u" "zz" = None) as Hn by (vm_compute; reflexivity).
  split_and!; [apply cache_1_wf|exact Hn|]. apply (negative_window _ _ _ _ _ cache_1_wf Hn).
Defined.

(** Keys of different issuers never share a cache entry: as long as
    no URI contains a newline (and no kid does when the URI is empty), two
    (uri, kid) pairs have the same cache key only if they are the same pair. *)
Theorem CacheKey_inj u k u' k' :
  newline ∉ chars u → newline ∉ chars u' →
  (u = "" → newline ∉ chars k) → (u' = "" → newline ∉ chars k') →
  CacheKey u k = CacheKey u' k' → u = u' ∧ k = k'.
Proof.
  intros Hu Hu' Hk Hk'. unfold CacheKey.
  assert (∀ x y, newline ∈ chars (x +:+ String newline y)) as Hin.
  { intros x y. rewrite chars_app. apply elem_of_app. right. left. }
  destruct (sempty u) eqn:E, (sempty u') eqn:E';
    rewrite ?sempty_true, ?sempty_false in *; subst.
  - auto.
  - intros ->. destruct Hk; auto.
  - intros <-. destruct Hk'; auto.
  - intros H%(f_equal chars). rewrite !chars_app in H.
    apply app_cons_first_inj in H as [->%chars_inj ->%chars_inj]; done.
Qed.

Lemma CacheKey_inj_witness :
  (newline ∉ chars "u") ∧ CacheKey "u" "k" = CacheKey "u" "k" ∧ (("u" : string) = "u" ∧ ("k" : string) = "k").
Proof.
  assert (newline ∉ chars "u") as Hn by (apply (bool_decide_unpack _); vm_compute; exact I).
  split_and!; [exact Hn|done|apply (CacheKey_inj "u" "k" "u" "k"); done..].
Defined.

(** An entry is evicted only on corroborated absence: a kid is
    dropped by [RecordKidAbsent] only at its second consecutive absence, and any
    successful fetch, commit or passive sighting in between resets the count, so
    two absences with a sighting in between never drop it. *)
Theorem absence_needs_corroboration c kid uri t1 t2 ks c1 c2 b :
  jc_wf c → (∀ h, FindHit c uri kid = Some h → consecutive_absent_count h = 0) → ks ≠ [] →
  RecordKidAbsent c kid 0 t1 uri = Ret (b, c1) →
  OnPassiveFetchSuccess c1 kid ks t2 uri = Ret c2 →
  b = false ∧ ∃ c3, RecordKidAbsent c2 kid 0 t2 uri = Ret (false, c3) ∧ is_Some (FindHit c3 uri kid).
Proof.
  intros Hwf Hz Hks Hr Hp.
  destruct (RecordKidAbsent_spec c kid 0 t1 uri Hwf) as (b' & c1' & Hr' & Hwf1 & _ & _ & _ & Hb).
  rewrite Hr in Hr'. simplify_eq. simpl in Hb.
  assert (b' = false) as ->.
  { destruct (FindHit c uri kid) as [h|]; [|by destruct Hb].
    destruct Hb as [-> _]. by rewrite (Hz h eq_refl). }
  split; [done|].
  destruct (OnPassiveFetchSuccess_spec c1' kid ks t2 uri Hwf1) as (c2' & Hp' & Hwf2 & _ & _ & Hk & _).
  rewrite Hp in Hp'. simplify_eq. destruct (Hk Hks) as (h & Hh & Hh0 & _).
  destruct (RecordKidAbsent_spec c2' kid 0 t2 uri Hwf2) as (b2 & c3 & Hr2 & _ & _ & _ & _ & Hb2).
  rewrite Hh in Hb2. simpl in Hb2. rewrite Hh0 in Hb2. destruct Hb2 as [-> Hf].
  exists c3. split; [done|]. simpl in Hf. rewrite Hf. by eexists.
Qed.

Lemma absence_needs_corroboration_witness :
  let r := RecordKidAbsent cache_1 "a" 0 1010 "u" in
  ∃ c1 c2, r = Ret (false, c1) ∧ OnPassiveFetchSuccess c1 "a" [key_b] 1015 "u" = Ret c2 ∧
    ∃ c3, RecordKidAbsent c2 "a" 0 1015 "u" = Ret (false, c3) ∧ is_Some (FindHit c3 "u" "a").
Proof.
  intros r.
  destruct (RecordKidAbsent_spec cache_1 "a" 0 1010 "u" cache_1_wf) as (b & c1 & H1 & Hwf1 & _).
  destruct (OnPassiveFetchSuccess_spec c1 "a" [key_b] 1015 "u" Hwf1) as (c2 & H2 & _).
  destruct (absence_needs_corroboration cache_1 "a" "u" 1010 1015 [key_b] c1 c2 b cache_1_wf)
    as [-> Hc3]; [intros h; vm_compute; by intros [= <-]|done|exact H1|exact H2|].
  exists c1, c2. split_and!; [exact H1|exact H2|exact Hc3].
Defined.
