(* ===== verification/Http.v ===== *)
(** * HTTP clients ([src/include/http_client.hpp], [src/retry_http_client.cpp],
    [src/idp_probe.cpp])

    [IHttpClient] is a record of effectful operations over a world; the retrying
    client is a decorator on it, as in the code. *)
From S2P Require Import Prelude CppString.

Record Response : Type := mkResponse { status_code : Z; body : string }.
Record PostRequest : Type := mkPostRequest {
  pr_url : string;
  pr_body : string;
  pr_content_type : string;
  pr_basic_user : string;
  pr_basic_pass : string;
}.

#[export] Instance Response_eq_dec : EqDecision Response.
Proof. solve_decision. Defined.

(** The virtual methods.  [None] is a transport failure. *)
Record IHttpClient (W : Type) : Type := mkHttp {
  Get : string → M W (option Response);
  Post : PostRequest → M W (option Response);
}.
Arguments mkHttp {W} _ _.
Arguments Get {W} _ _.
Arguments Post {W} _ _.

(** ** Retries *)
Definition ShouldRetry (r : option Response) : bool :=
  match r with
  | None => true
  | Some r => (500 <=? status_code r) && (status_code r <=? 599)
  end.

Section retry.
Context {W : Type}.

(** [SleepFn]: an empty std::function is [None].  The delay is a count of
    milliseconds of 64 bits. *)
Fixpoint retry_loop (n : nat) (sleep_fn : option (Z → M W unit)) (delay : Z)
    (call : M W (option Response)) (result : option Response) : M W (option Response) :=
  match n with
  | O => mret result
  | S n =>
      if negb (ShouldRetry result) then mret result
      else
        _ ← match sleep_fn with Some f => f delay | None => mret tt end;
        delay ← lift (i64_ok (delay * 2));
        result ← call;
        retry_loop n sleep_fn delay call result
  end.

Definition RunWithRetries (max_retries initial_delay : Z) (sleep_fn : option (Z → M W unit))
    (call : M W (option Response)) : M W (option Response) :=
  result ← call;
  retry_loop (Z.to_nat max_retries) sleep_fn initial_delay call result.

Definition RetryingHttpClient (inner : IHttpClient W) (max_retries initial_delay : Z)
    (sleep_fn : option (Z → M W unit)) : IHttpClient W :=
  mkHttp (λ url, RunWithRetries max_retries initial_delay sleep_fn (Get inner url))
         (λ req, RunWithRetries max_retries initial_delay sleep_fn (Post inner req)).

(** The delay can be doubled [n] times. *)
Definition can_double (n : nat) (delay : Z) : Prop := 0 ≤ delay ∧ delay * 2 ^ Z.of_nat n < 2 ^ 63.

Lemma can_double_S n delay : can_double (S n) delay → i64_ok (delay * 2) = Ret (delay * 2) ∧ can_double n (delay * 2).
Proof.
  unfold can_double. rewrite Nat2Z.inj_succ, Z.pow_succ_r by lia. intros [Hd Hlt].
  assert (1 ≤ 2 ^ Z.of_nat n) as Hpow by (pose proof (Z.pow_pos_nonneg 2 (Z.of_nat n)); lia).
  split; [|split; [lia|]].
  - apply i64_ok_Ret. unfold in_i64. nia.
  - by replace (delay * 2 * 2 ^ Z.of_nat n) with (delay * (2 * 2 ^ Z.of_nat n)) by ring.
Qed.

(** What every attempt and every pause keep, the retried call keeps. *)
Lemma RunWithRetries_inv (I : W → Prop) (Q : option Response → Prop) max_retries initial_delay sleep_fn call :
  can_double (Z.to_nat max_retries) initial_delay →
  hoare I call (λ r w, Q r ∧ I w) →
  (∀ f, sleep_fn = Some f → ∀ delay, hoare I (f delay) (λ _, I)) →
  hoare I (RunWithRetries max_retries initial_delay sleep_fn call) (λ r w, Q r ∧ I w).
Proof.
  intros Hdouble Hcall Hsleep. unfold RunWithRetries. eapply hoare_bind; [exact Hcall|]. intros r.
  apply hoare_pure. intros Hr. revert Hdouble. generalize (Z.to_nat max_retries) as n. intros n.
  revert initial_delay r Hr. induction n as [|n IH]; intros delay r Hr Hdouble; cbn [retry_loop]; [by apply hoare_ret|].
  destruct (negb _); [by apply hoare_ret|]. apply (hoare_bind _ _ _ (λ _, I)).
  - destruct sleep_fn as [f|]; [by apply Hsleep|by apply hoare_ret].
  - intros []. apply can_double_S in Hdouble as [Hok Hdouble].
    eapply hoare_bind; [eapply (hoare_lift _ _ _ (λ d w, d = delay * 2 ∧ I w)); [exact Hok|by auto]|].
    intros d. apply hoare_pure. intros ->.
    eapply hoare_bind; [exact Hcall|]. intros r'. apply hoare_pure. auto.
Qed.

Lemma RunWithRetries_unchanged {X} (f : W → X) max_retries initial_delay sleep_fn call :
  unchanged f call → (∀ g, sleep_fn = Some g → ∀ delay, unchanged f (g delay)) →
  unchanged f (RunWithRetries max_retries initial_delay sleep_fn call).
Proof.
  intros Hcall Hsleep. unfold RunWithRetries. apply un_bind; [done|]. intros r.
  revert initial_delay r. induction (Z.to_nat max_retries) as [|n IH]; intros delay r; cbn [retry_loop]; [apply un_ret|].
  destruct (negb _); [apply un_ret|]. apply un_bind.
  - destruct sleep_fn as [g|]; [by apply Hsleep|apply un_ret].
  - intros _. apply un_bind; [apply un_lift|]. intros d. by apply un_bind.
Qed.
End retry.

(** ** Reachability probe *)
Inductive IdpStatus : Type := Unconfigured | Reachable | Unreachable.
Record IdpProbeResult : Type := mkIdpProbeResult {
  ip_status : IdpStatus;
  ip_http_status : Z;
  ip_probed_uri : string;
}.

Definition StatusName (s : IdpStatus) : string :=
  match s with
  | Unconfigured => "unconfigured"
  | Reachable => "reachable"
  | Unreachable => "unreachable"
  end.

Definition ProbeIdpReachability {W} (http : IHttpClient W) (jwks_uri : string) : M W IdpProbeResult :=
  if sempty jwks_uri then mret (mkIdpProbeResult Unconfigured 0 jwks_uri)
  else
    resp ← Get http jwks_uri;
    match resp with
    | None => mret (mkIdpProbeResult Unreachable 0 jwks_uri)
    | Some r =>
        mret (mkIdpProbeResult
          (if (200 <=? status_code r) && (status_code r <? 300) then Reachable else Unreachable)
          (status_code r) jwks_uri)
    end.

(** ** A scripted network

    A network whose answers are fixed in advance and which logs what is done to
    it: the world in which the behaviour of the clients is stated. *)
Inductive net_event : Type :=
  | EvGet (url : string)
  | EvPost (req : PostRequest)
  | EvSleep (ms : Z).

Record net : Type := mkNet { net_script : list (option Response); net_log : list net_event }.

Definition net_answer (ev : net_event) : M net (option Response) := λ w,
  match net_script w with
  | [] => (Ret None, mkNet [] (net_log w ++ [ev]))
  | r :: rs => (Ret r, mkNet rs (net_log w ++ [ev]))
  end.
Definition net_http : IHttpClient net :=
  mkHttp (λ url, net_answer (EvGet url)) (λ req, net_answer (EvPost req)).
Definition net_sleep (ms : Z) : M net unit := λ w, (Ret tt, mkNet (net_script w) (net_log w ++ [EvSleep ms])).

(** The outcomes that may go away by themselves: no answer at all, or an error of
    the server. *)
Inductive transient : option Response → Prop :=
  | no_answer : transient None
  | server_error r : 500 ≤ status_code r → status_code r ≤ 599 → transient (Some r).

Lemma ShouldRetry_transient r : ShouldRetry r = true ↔ transient r.
Proof.
  split.
  - destruct r as [r|]; [|by constructor]. simpl. intros [?%Z.leb_le ?%Z.leb_le]%andb_true_iff. by constructor.
  - intros []; simpl; [done|]. by apply andb_true_iff; split; apply Z.leb_le.
Qed.

(** The outcomes of the attempts, in order, when the network has nothing to say
    after its script. *)
Definition attempt (first : option Response) (script : list (option Response)) (j : nat) : option Response :=
  match j with O => first | S j => default None (script !! j) end.

(** The log of [k] retries: before the [i]-th one a sleep of [2^i * delay]. *)
Definition retries (delay : Z) (ev : net_event) (k : nat) : list net_event :=
  mjoin ((λ i, [EvSleep (2 ^ Z.of_nat i * delay); ev]) <$> seq 0 k).

(** A call of a retrying client against any sequence of network outcomes: the
    attempts that were retried were transient ones, and the last one is final
    unless the retries are used up. *)
Definition follows_schedule (max_retries delay : Z) (ev : net_event) (m : M net (option Response)) : Prop :=
  ∀ first script log, ∃ k : nat,
    m (mkNet (first :: script) log) =
      (Ret (attempt first script k), mkNet (drop k script) (log ++ ev :: retries delay ev k)) ∧
    Z.of_nat k ≤ Z.max 0 max_retries ∧
    (∀ j, (j < k)%nat → transient (attempt first script j)) ∧
    (Z.of_nat k < max_retries → ¬ transient (attempt first script k)).

Lemma retries_S delay ev k : retries delay ev (S k) = EvSleep delay :: ev :: retries (delay * 2) ev k.
Proof.
  unfold retries. cbn [seq fmap list_fmap mjoin list_join app]. f_equal; [f_equal; lia|]. f_equal.
  rewrite <-fmap_S_seq, <-list_fmap_compose. f_equal. apply list_fmap_ext.
  intros i x _. simpl. do 2 f_equal. rewrite Nat2Z.inj_succ, Z.pow_succ_r by lia. ring.
Qed.

Lemma retry_loop_schedule n delay ev call r script log :
  (∀ w, call w = net_answer ev w) → can_double n delay →
  ∃ k, (k ≤ n)%nat ∧
    retry_loop n (Some net_sleep) delay call r (mkNet script log) =
      (Ret (attempt r script k), mkNet (drop k script) (log ++ retries delay ev k)) ∧
    (∀ j, (j < k)%nat → transient (attempt r script j)) ∧
    ((k < n)%nat → ¬ transient (attempt r script k)).
Proof.
  intros Hcall. revert delay r script log. induction n as [|n IH]; intros delay r script log Hdouble; cbn [retry_loop].
  { exists 0%nat. split_and!; [done| |lia..]. by rewrite drop_0, app_nil_r. }
  destruct (ShouldRetry r) eqn:Hr; cbn [negb].
  2: { exists 0%nat. split_and!; [lia| |lia|intros _ Ht%ShouldRetry_transient; cbn in Ht; congruence].
       by rewrite drop_0, app_nil_r. }
  apply ShouldRetry_transient in Hr. apply can_double_S in Hdouble as [Hok Hdouble].
  rewrite M_bind_eq. cbn [net_sleep net_script net_log]. rewrite M_bind_eq. unfold lift. rewrite Hok.
  rewrite M_bind_eq, Hcall. unfold net_answer. cbn [net_script net_log].
  assert (∃ x xs, x = default None (script !! 0%nat) ∧ xs = drop 1 script ∧
    match script with [] => (Ret None, mkNet [] ((log ++ [EvSleep delay]) ++ [ev]))
    | r :: rs => (Ret r, mkNet rs ((log ++ [EvSleep delay]) ++ [ev])) end =
    (Ret x, mkNet xs ((log ++ [EvSleep delay]) ++ [ev]))) as (x & xs & Hx & Hxs & ->) by (destruct script; by eexists _, _).
  destruct (IH (delay * 2) x xs ((log ++ [EvSleep delay]) ++ [ev]) Hdouble) as (k & Hk & -> & Hbefore & Hlast).
  assert (∀ j, attempt x xs j = attempt r script (S j)) as Hshift.
  { intros [|j]; cbn; [done|]. by rewrite Hxs, lookup_drop. }
  exists (S k). split_and!; [lia| | |].
  - by rewrite Hshift, Hxs, drop_drop, retries_S, <-!app_assoc.
  - intros [|j] Hj; [done|]. rewrite <-Hshift. apply Hbefore. lia.
  - rewrite <-Hshift. intros ?. apply Hlast. lia.
Qed.

Lemma RunWithRetries_schedule max_retries delay ev call :
  (∀ w, call w = net_answer ev w) → can_double (Z.to_nat max_retries) delay →
  follows_schedule max_retries delay ev (RunWithRetries max_retries delay (Some net_sleep) call).
Proof.
  intros Hcall Hdouble first script log. unfold RunWithRetries. rewrite M_bind_eq, Hcall. cbn.
  destruct (retry_loop_schedule (Z.to_nat max_retries) delay ev call first script (log ++ [ev]) Hcall Hdouble)
    as (k & Hk & -> & Hbefore & Hlast).
  exists k. split_and!; [by rewrite <-app_assoc|lia|done|]. intros ?. apply Hlast. lia.
Qed.

(** ** Properties *)

(** Claim C40.  The retrying client follows the documented schedule, for GET and for
    POST requests, against any sequence of network outcomes: it always returns,
    after [k] extra attempts with [k] at most [max_retries], sleeping
    [initial_delay * 2^i] before the [i]-th of them, with the outcome of the last
    attempt.  An attempt is repeated only if it failed to get an answer or got a
    5xx one, never otherwise; and the client gives up on such an attempt only when
    its retries are used.  The delay must not overflow when it is doubled
    [max_retries] times; the code's clients have one retry after a second. *)
Theorem retry_schedule_correct url req max_retries delay :
  0 ≤ delay → delay * 2 ^ Z.max 0 max_retries < 2 ^ 63 →
  let client := RetryingHttpClient net_http max_retries delay (Some net_sleep) in
  follows_schedule max_retries delay (EvGet url) (Get client url) ∧
  follows_schedule max_retries delay (EvPost req) (Post client req).
Proof.
  intros Hd Hlt client.
  assert (can_double (Z.to_nat max_retries) delay) as Hdouble.
  { split; [done|]. by rewrite ZifyInst.of_nat_to_nat_eq. }
  by split; apply RunWithRetries_schedule.
Qed.

Lemma retry_schedule_correct_witness :
  0 ≤ 1000 ∧ 1000 * 2 ^ Z.max 0 1 < 2 ^ 63 ∧
  follows_schedule 1 1000 (EvGet "https://idp") (Get (RetryingHttpClient net_http 1 1000 (Some net_sleep)) "https://idp").
Proof.
  split; [lia|]. split; [reflexivity|].
  exact (proj1 (retry_schedule_correct "https://idp" (mkPostRequest "" "" "" "" "") 1 1000 ltac:(lia) eq_refl)).
Defined.

(** A retried POST, and the doubling that does not fit. *)
Example retry_post :
  Post (RetryingHttpClient net_http 2 1000 (Some net_sleep)) (mkPostRequest "u" "" "" "" "")
    (mkNet [Some (mkResponse 503 ""); None; Some (mkResponse 404 "")] []) =
  (Ret (Some (mkResponse 404 "")), mkNet []
    [EvPost (mkPostRequest "u" "" "" "" ""); EvSleep 1000; EvPost (mkPostRequest "u" "" "" "" "");
     EvSleep 2000; EvPost (mkPostRequest "u" "" "" "" "")]).
Proof. vm_compute. reflexivity. Qed.
Example retry_delay_overflow :
  fst (Get (RetryingHttpClient net_http 63 1000 (Some net_sleep)) "u" (mkNet [] [])) = Stuck.
Proof. vm_compute. reflexivity. Qed.
