(* ===== verification/DecisionCache.v ===== *)
(** * Decision cache ([src/include/decision_cache.hpp], [src/decision_cache.cpp])

    The cache of positive decisions for opaque tokens, keyed by the SHA-256 of
    the token, with a TTL bounded by the token's expiry and LRU eviction.  The
    list of entries and the index of iterators are modelled as the code has them;
    the refinement theorem says that the pair behaves as a plain list. *)
From S2P Require Import Prelude CppString StdList.

Record Principal : Type := mkPrincipal {
  pr_subject : string;
  pr_issuer : string;
  pr_scopes : list string;
  pr_exp : Z;
}.

#[export] Instance Principal_eq_dec : EqDecision Principal.
Proof. solve_decision. Defined.

(** OpenSSL's SHA-256: the digest, or [None] when a call of the EVP interface
    fails. *)
Class Sha256 : Type := evp_sha256 : string → option string.

Definition HexEncode (bytes : string) : string :=
  of_chars (mjoin ((λ c, [hex_lower (Z.land (Z.shiftr (uc c) 4) 15); hex_lower (Z.land (uc c) 15)])
                     <$> chars bytes)).

Definition KeyOf `{!Sha256} (token : string) : string :=
  match evp_sha256 token with
  | Some digest => if ssize digest =? 32 then HexEncode digest else ""
  | None => ""
  end.

Record DEntry : Type := mkDEntry {
  de_key : string;
  de_principal : Principal;
  de_expires_at_s : Z;
}.

Record DecisionCache : Type := mkDecisionCache {
  dc_max_entries_ : Z;
  dc_default_ttl_s_ : Z;
  dc_entries_ : slist DEntry;
  dc_index_ : gmap string nat;
}.

Definition DecisionCache_new (max_entries default_ttl_s : Z) : DecisionCache :=
  mkDecisionCache (if max_entries =? 0 then 1 else max_entries) default_ttl_s sl_empty ∅.

Definition dc_set (c : DecisionCache) entries index : DecisionCache :=
  mkDecisionCache (dc_max_entries_ c) (dc_default_ttl_s_ c) entries index.

Definition Lookup (c : DecisionCache) (key : string) (now_s : Z) : exc (option Principal * DecisionCache) :=
  match dc_index_ c !! key with
  | None => Ret (None, c)
  | Some it =>
      e ← defined (sl_get it (dc_entries_ c));
      if de_expires_at_s e <=? now_s then
        l ← defined (sl_erase it (dc_entries_ c));
        Ret (None, dc_set c l (delete key (dc_index_ c)))
      else
        l ← defined (sl_splice_front it (dc_entries_ c));
        e ← defined (sl_get it l);
        Ret (Some (de_principal e), dc_set c l (dc_index_ c))
  end.

(** [while (entries_.size() > max) { index_.erase(entries_.back().key); entries_.pop_back(); }] *)
Fixpoint dc_evict (fuel : nat) (max : Z) (l : slist DEntry) (index : gmap string nat)
    : exc (slist DEntry * gmap string nat) :=
  if sl_size l <=? max then Ret (l, index)
  else match fuel with
       | O => Stuck
       | S fuel =>
           victim ← defined (sl_back l);
           l ← defined (sl_pop_back l);
           dc_evict fuel max l (delete (de_key victim) index)
       end.

Definition ttl_of (default_ttl_s : Z) (principal : Principal) (now_s : Z) : Z :=
  if 0 <? pr_exp principal then Z.min default_ttl_s (pr_exp principal - now_s) else default_ttl_s.

Definition Store (c : DecisionCache) (key : string) (principal : Principal) (now_s : Z) : exc DecisionCache :=
  let ttl := ttl_of (dc_default_ttl_s_ c) principal now_s in
  if ttl <=? 0 then Ret c
  else
    match dc_index_ c !! key with
    | Some it =>
        e ← defined (sl_get it (dc_entries_ c));
        l ← defined (sl_set it (mkDEntry (de_key e) principal (now_s + ttl)) (dc_entries_ c));
        l ← defined (sl_splice_front it l);
        Ret (dc_set c l (dc_index_ c))
    | None =>
        let l := sl_push_front (mkDEntry key principal (now_s + ttl)) (dc_entries_ c) in
        it ← defined (sl_begin l);
        '(l, index) ← dc_evict (length (sl_nodes l)) (dc_max_entries_ c) l (<[key := it]> (dc_index_ c));
        Ret (dc_set c l index)
    end.

Definition Size (c : DecisionCache) : Z := sl_size (dc_entries_ c).

(** ** Abstract specification

    A list of entries, most recently used first, without iterators or index. *)
Definition other_keys (key : string) (es : list DEntry) : list DEntry :=
  filter (λ e, de_key e ≠ key) es.
Definition find_key (key : string) (es : list DEntry) : option DEntry :=
  find (λ e, seqb (de_key e) key) es.

Definition spec_Lookup (key : string) (now_s : Z) (es : list DEntry) : option Principal * list DEntry :=
  match find_key key es with
  | None => (None, es)
  | Some e =>
      if de_expires_at_s e <=? now_s then (None, other_keys key es)
      else (Some (de_principal e), e :: other_keys key es)
  end.

Definition spec_Store (max ttl0 : Z) (key : string) (p : Principal) (now_s : Z) (es : list DEntry)
    : list DEntry :=
  let ttl := ttl_of ttl0 p now_s in
  if ttl <=? 0 then es
  else take (Z.to_nat max) (mkDEntry key p (now_s + ttl) :: other_keys key es).

(** The invariant and the abstraction function. *)
Record dc_wf (c : DecisionCache) : Prop := {
  dc_lru : lru_wf id de_key (dc_index_ c) (dc_entries_ c);
  dc_size : sl_size (dc_entries_ c) ≤ dc_max_entries_ c;
  dc_max : 1 ≤ dc_max_entries_ c;
}.
Definition dc_abs (c : DecisionCache) : list DEntry := (sl_nodes (dc_entries_ c)).*2.

Lemma dc_wf_new n ttl : 0 ≤ n → dc_wf (DecisionCache_new n ttl).
Proof.
  intros Hn. split; simpl; [apply lru_wf_empty| |]; unfold sl_size; simpl;
    destruct (Z.eqb_spec n 0); lia.
Qed.

Section abstraction.
Context (index : gmap string nat) (l : slist DEntry).
Hypothesis Hwf : lru_wf id de_key index l.

Lemma find_key_index key :
  find_key key (sl_nodes l).*2 =
    match index !! key with Some it => sl_get it l | None => None end.
Proof.
  destruct (index !! key) as [it|] eqn:Hk.
  - destruct (lru_get _ _ _ _ _ _ Hwf Hk) as (e & He & Hek). simpl in *. rewrite He.
    pose proof (lru_nodup_keys _ _ _ _ Hwf) as Hnd.
    unfold sl_get in He. apply nodes_get_Some in He.
    revert He Hnd. generalize (sl_nodes l) as ns. induction ns as [|[i e'] ns IH]; [set_solver|].
    intros Hin Hnd. simpl in *. apply NoDup_cons in Hnd as [Hx Hnd].
    unfold find_key. simpl. destruct (seqb (de_key e') key) eqn:Heq.
    + apply seqb_true in Heq. apply elem_of_cons in Hin as [?|Hin]; simplify_eq; [done|].
      destruct Hx. apply list_elem_of_fmap. exists (it, e). simpl. split; [congruence|done].
    + apply elem_of_cons in Hin as [?|Hin]; simplify_eq; [by rewrite seqb_refl in Heq|].
      by apply IH.
  - assert (∀ i e, (i, e) ∈ sl_nodes l → de_key e ≠ key) as Hno.
    { intros i e Hin Heq. destruct (lru_index _ _ _ _ Hwf i e Hin) as (v & Hv & _). congruence. }
    revert Hno. generalize (sl_nodes l) as ns. induction ns as [|[i e'] ns IH]; [done|].
    intros Hno. unfold find_key. simpl. destruct (seqb (de_key e') key) eqn:Heq.
    + apply seqb_true in Heq. destruct (Hno i e'); [left|done].
    + apply IH. intros j e Hin. apply (Hno j). by right.
Qed.

Lemma other_keys_erase key it :
  index !! key = Some it → (nodes_erase it (sl_nodes l)).*2 = other_keys key (sl_nodes l).*2.
Proof.
  intros Hk. unfold nodes_erase, other_keys.
  assert (∀ i e, (i, e) ∈ sl_nodes l → i ≠ it ↔ de_key e ≠ key) as Hiff.
  { intros i e Hin. destruct (lru_index _ _ _ _ Hwf i e Hin) as (v & Hv & Hvi). simpl in Hvi. subst v.
    destruct (lru_get _ _ _ _ _ _ Hwf Hk) as (e' & He' & Hek). simpl in *.
    unfold sl_get in He'. apply nodes_get_Some in He'. split; intros Hne Heq; apply Hne.
    - rewrite Heq in Hv. congruence.
    - subst i. by rewrite (nodes_unique _ _ _ _ (sl_wf_nodup _ (lru_sl _ _ _ _ Hwf)) Hin He'). }
  revert Hiff. generalize (sl_nodes l) as ns. induction ns as [|[i e] ns IH]; intros Hiff; [done|].
  rewrite filter_cons, fmap_cons, filter_cons. simpl.
  assert (i ≠ it ↔ de_key e ≠ key) as Hie by (apply Hiff; left).
  assert (((filter (λ p : nat * DEntry, p.1 ≠ it) ns).*2) = filter (λ e, de_key e ≠ key) ns.*2) as Hns.
  { apply IH. intros j e' Hin. apply Hiff. by right. }
  repeat case_decide; try tauto; rewrite ?fmap_cons, Hns; done.
Qed.

Lemma other_keys_absent key :
  index !! key = None → other_keys key (sl_nodes l).*2 = (sl_nodes l).*2.
Proof.
  intros Hk. apply filter_all, Forall_forall. intros e ([i e'] & -> & Hin)%list_elem_of_fmap.
  intros <-. destruct (lru_index _ _ _ _ Hwf i e' Hin) as (v & Hv & _). simpl in *. congruence.
Qed.
End abstraction.

(** ** Refinement *)
Lemma Lookup_refines c key now :
  dc_wf c → ∃ c', Lookup c key now = Ret ((spec_Lookup key now (dc_abs c)).1, c') ∧ dc_wf c' ∧
    dc_abs c' = (spec_Lookup key now (dc_abs c)).2 ∧
    dc_max_entries_ c' = dc_max_entries_ c ∧ dc_default_ttl_s_ c' = dc_default_ttl_s_ c.
Proof.
  intros [Hlru Hsz Hmax]. unfold Lookup, spec_Lookup, dc_abs.
  rewrite (find_key_index _ _ Hlru). destruct (dc_index_ c !! key) as [it|] eqn:Hk; [|by exists c].
  destruct (lru_get _ _ _ _ _ _ Hlru Hk) as (e & He & Hek). simpl in He. rewrite He. simpl.
  destruct (de_expires_at_s e <=? now).
  - destruct (lru_delete _ _ _ _ _ _ Hlru Hk) as (l' & Hl' & Hwf' & _ & Hn). simpl in *.
    rewrite Hl'. simpl. eexists. split_and!; [done| | |done|done].
    + split; simpl; [done| |done]. unfold sl_size in *. rewrite Hn. unfold nodes_erase.
      pose proof (length_filter (λ p : nat * DEntry, p.1 ≠ it) (sl_nodes (dc_entries_ c))). lia.
    + simpl. rewrite Hn. by apply (other_keys_erase _ _ Hlru).
  - destruct (lru_splice _ _ _ _ _ _ Hlru Hk) as (l' & Hl' & Hwf' & Hlen). simpl in *.
    unfold sl_splice_front in *. rewrite He in *. simpl in *. simplify_eq.
    unfold sl_get at 1. simpl. rewrite decide_True by done. simpl.
    eexists. split_and!; [done| | |done|done].
    + split; simpl; [done| |done]. unfold sl_size in *. simpl in *. lia.
    + simpl. f_equal. by apply (other_keys_erase _ _ Hlru).
Qed.

Lemma dc_evict_spec fuel max l index :
  lru_wf id de_key index l → 0 ≤ max → (length (sl_nodes l) ≤ fuel)%nat →
  ∃ l' index', dc_evict fuel max l index = Ret (l', index') ∧ lru_wf id de_key index' l' ∧
    sl_nodes l' = take (Z.to_nat max) (sl_nodes l) ∧ sl_size l' ≤ max.
Proof.
  revert l index. induction fuel as [|fuel IH]; intros l index Hwf Hmax Hfuel; cbn [dc_evict];
    destruct (Z.leb_spec (sl_size l) max) as [Hle|Hgt]; unfold sl_size in *.
  - exists l, index. split_and!; try done. by rewrite take_ge by lia.
  - lia.
  - exists l, index. split_and!; try done. by rewrite take_ge by lia.
  - pose proof (lru_size _ _ _ _ Hwf) as Hlen.
    destruct (lru_pop_back _ _ _ _ Hwf) as (x & l1 & -> & Hpop & _ & Hwf1); [lia|].
    rewrite Hpop. simpl. unfold sl_pop_back in Hpop.
    apply fmap_Some in Hpop as (z & Hz & ->). apply last_Some in Hz as [ns Hns]. simpl in *.
    rewrite Hns, length_app in *. simpl in *. rewrite removelast_last in Hwf1 |- *.
    destruct (IH _ _ Hwf1 Hmax) as (l' & index' & He & Hwf' & Hn & Hsz); [simpl; lia|].
    exists l', index'. split_and!; try done. rewrite Hn. simpl. by rewrite take_app_le by lia.
Qed.

#[local] Arguments dc_evict : simpl never.

Lemma Store_refines c key p now :
  dc_wf c → ∃ c', Store c key p now = Ret c' ∧ dc_wf c' ∧
    dc_abs c' = spec_Store (dc_max_entries_ c) (dc_default_ttl_s_ c) key p now (dc_abs c) ∧
    dc_max_entries_ c' = dc_max_entries_ c ∧ dc_default_ttl_s_ c' = dc_default_ttl_s_ c.
Proof.
  intros [Hlru Hsz Hmax]. unfold Store, spec_Store.
  destruct (_ <=? 0); [by exists c|]. set (t := now + _).
  destruct (dc_index_ c !! key) as [it|] eqn:Hk.
  - destruct (lru_get _ _ _ _ _ _ Hlru Hk) as (e & He & Hek). simpl in He. rewrite He. simpl.
    destruct (lru_set _ _ _ _ _ _ (mkDEntry (de_key e) p t) Hlru Hk Hek)
      as (l1 & Hl1 & Hwf1 & Hg1 & Ho1 & Hlen1). simpl in *. rewrite Hl1. simpl.
    destruct (lru_splice _ _ _ _ _ _ Hwf1 Hk) as (l2 & Hl2 & Hwf2 & Hlen2). simpl in *.
    rewrite Hl2. simpl. eexists. split_and!; [done| | |done|done].
    + split; simpl; [done| |done]. unfold sl_size in *. lia.
    + unfold dc_abs. simpl. unfold sl_splice_front in Hl2. rewrite Hg1 in Hl2. simpl in Hl2.
      injection Hl2 as <-. simpl. etrans; [apply (f_equal (_ ::.)), (other_keys_erase _ _ Hwf1 _ _ Hk)|].
      assert (other_keys key (sl_nodes l1).*2 = other_keys key (sl_nodes (dc_entries_ c)).*2) as ->.
      { rewrite <-(other_keys_erase _ _ Hwf1 _ _ Hk), <-(other_keys_erase _ _ Hlru _ _ Hk).
        unfold sl_set in Hl1. rewrite He in Hl1. simpl in Hl1. injection Hl1 as <-. simpl.
        f_equal. unfold nodes_erase. clear.
        induction (sl_nodes (dc_entries_ c)) as [|[i x] ns IH]; [done|]. simpl.
        case_decide; subst; rewrite !filter_cons; simpl.
        - by rewrite !decide_False by tauto.
        - rewrite !decide_True by done. by f_equal. }
      rewrite Hek. symmetry. apply take_ge. simpl.
      rewrite <-(other_keys_erase _ _ Hlru _ _ Hk), length_fmap.
      assert (S (length (nodes_erase it (sl_nodes (dc_entries_ c)))) = length (sl_nodes (dc_entries_ c))) as Hl.
      { destruct (lru_splice _ _ _ _ _ _ Hlru Hk) as (l3 & Hl3 & _ & Hlen3). simpl in Hl3.
        unfold sl_splice_front in Hl3. rewrite He in Hl3. simpl in Hl3. injection Hl3 as <-. done. }
      rewrite Hl. unfold sl_size in Hsz. lia.
  - simpl. set (e := mkDEntry key p t).
    assert (lru_wf id de_key (<[key:=sl_fresh (dc_entries_ c)]> (dc_index_ c)) (sl_push_front e (dc_entries_ c)))
      as Hins by by apply lru_insert.
    destruct (dc_evict_spec (S (length (sl_nodes (dc_entries_ c)))) (dc_max_entries_ c) _ _ Hins)
      as (l' & index' & He & Hwf' & Hn & Hsz'); [lia|done|].
    rewrite He. simpl. eexists. split_and!; [done|by split| |done|done].
    unfold dc_abs. simpl. rewrite Hn, fmap_take. simpl.
    by rewrite (other_keys_absent _ _ Hlru).
Qed.

(** ** Justified decisions

    [D key p]: the principal may be answered for the key.  A cache all of whose
    entries are justified answers justified principals only, and stays so when
    justified principals are stored. *)
Definition dc_justified (D : string → Principal → Prop) (c : DecisionCache) : Prop :=
  dc_wf c ∧ ∀ e, e ∈ dc_abs c → D (de_key e) (de_principal e).

Lemma dc_justified_new D n ttl : 0 ≤ n → dc_justified D (DecisionCache_new n ttl).
Proof. intros Hn. split; [by apply dc_wf_new|]. intros e He. by apply not_elem_of_nil in He. Qed.

Lemma find_key_Some key es e : find_key key es = Some e → de_key e = key ∧ e ∈ es.
Proof.
  unfold find_key. intros Hf. apply find_some in Hf as [Hin Heq%seqb_true].
  split; [done|]. by apply list_elem_of_In.
Qed.

Lemma other_keys_elem key es e : e ∈ other_keys key es ↔ de_key e ≠ key ∧ e ∈ es.
Proof. unfold other_keys. by rewrite list_elem_of_filter. Qed.

Lemma Lookup_justified D c key now :
  dc_justified D c →
  ∃ o c', Lookup c key now = Ret (o, c') ∧ dc_justified D c' ∧ ∀ p, o = Some p → D key p.
Proof.
  intros [Hwf HD]. destruct (Lookup_refines c key now Hwf) as (c' & -> & Hwf' & Ha & _).
  unfold spec_Lookup in *. destruct (find_key key (dc_abs c)) as [e|] eqn:Hf.
  - apply find_key_Some in Hf as [<- Hin]. destruct (_ <=? _); eexists _, c';
      (split; [done|]); simpl in *; (split; [split; [done|]|]); rewrite ?Ha.
    + by intros e' [_ ?]%other_keys_elem; apply HD.
    + done.
    + intros e' [->|[_ ?]%other_keys_elem]%elem_of_cons; by apply HD.
    + intros p [= <-]. by apply HD.
  - eexists _, c'. split; [done|]. simpl in *. split; [split; [done|]|done]. by rewrite Ha.
Qed.

Lemma Store_justified D c key p now :
  dc_justified D c → D key p → ∃ c', Store c key p now = Ret c' ∧ dc_justified D c'.
Proof.
  intros [Hwf HD] Hp. destruct (Store_refines c key p now Hwf) as (c' & -> & Hwf' & Ha & _).
  exists c'. split; [done|]. split; [done|]. rewrite Ha. unfold spec_Store.
  destruct (_ <=? 0); [done|]. intros e (i & Hi & _)%elem_of_take. apply list_elem_of_lookup_2 in Hi.
  apply elem_of_cons in Hi as [->|[_ ?]%other_keys_elem]; [done|by apply HD].
Qed.

(** What was just stored is found until its TTL ends. *)
Lemma Store_Lookup c key p now c' now' :
  dc_wf c → 0 < ttl_of (dc_default_ttl_s_ c) p now → Store c key p now = Ret c' →
  now' < now + ttl_of (dc_default_ttl_s_ c) p now →
  ∃ c'', Lookup c' key now' = Ret (Some p, c'').
Proof.
  intros Hwf Httl Hs Hnow. destruct (Store_refines c key p now Hwf) as (c1 & Hs1 & Hwf1 & Ha & _).
  rewrite Hs in Hs1. simplify_eq.
  destruct (Lookup_refines c1 key now' Hwf1) as (c2 & -> & _). exists c2.
  rewrite Ha. unfold spec_Store, spec_Lookup. destruct (Z.leb_spec (ttl_of (dc_default_ttl_s_ c) p now) 0); [lia|].
  pose proof (dc_max c Hwf). destruct (Z.to_nat (dc_max_entries_ c)) as [|m] eqn:Hm; [lia|].
  cbn [take]. unfold find_key. cbn [find de_key]. rewrite seqb_refl. cbn [de_expires_at_s de_principal].
  destruct (Z.leb_spec (now + ttl_of (dc_default_ttl_s_ c) p now) now'); [lia|]. done.
Qed.

(** ** Runs of a client *)
Inductive dc_op : Type :=
  | DLookup (key : string) (now_s : Z)
  | DStore (key : string) (p : Principal) (now_s : Z).

(** The cache and the answers given so far, oldest first; a store answers nothing. *)
Definition dc_step (st : list (option Principal) * DecisionCache) (op : dc_op)
    : exc (list (option Principal) * DecisionCache) :=
  let '(answers, c) := st in
  match op with
  | DLookup key now => '(a, c) ← Lookup c key now; Ret (answers ++ [a], c)
  | DStore key p now => c ← Store c key p now; Ret (answers, c)
  end.

Definition spec_step (max ttl0 : Z) (st : list (option Principal) * list DEntry) (op : dc_op)
    : list (option Principal) * list DEntry :=
  let '(answers, es) := st in
  match op with
  | DLookup key now => (answers ++ [(spec_Lookup key now es).1], (spec_Lookup key now es).2)
  | DStore key p now => (answers, spec_Store max ttl0 key p now es)
  end.

Lemma dc_run_refines ops answers c :
  dc_wf c →
  ∃ answers' c', exc_fold dc_step (answers, c) ops = Ret (answers', c') ∧ dc_wf c' ∧
    dc_max_entries_ c' = dc_max_entries_ c ∧
    (answers', dc_abs c') =
      foldl (spec_step (dc_max_entries_ c) (dc_default_ttl_s_ c)) (answers, dc_abs c) ops.
Proof.
  revert answers c. induction ops as [|op ops IH]; intros answers c Hwf; [by exists answers, c|].
  assert (∃ answers1 c1, dc_step (answers, c) op = Ret (answers1, c1) ∧ dc_wf c1 ∧
      (answers1, dc_abs c1) = spec_step (dc_max_entries_ c) (dc_default_ttl_s_ c) (answers, dc_abs c) op ∧
      dc_max_entries_ c1 = dc_max_entries_ c ∧ dc_default_ttl_s_ c1 = dc_default_ttl_s_ c)
    as (answers1 & c1 & Hs & Hwf1 & Habs & Hmax & Httl).
  { destruct op as [key now|key p now]; simpl.
    - destruct (Lookup_refines c key now Hwf) as (c1 & -> & ? & Ha & ? & ?). simpl.
      eexists _, c1. by rewrite Ha.
    - destruct (Store_refines c key p now Hwf) as (c1 & -> & ? & Ha & ? & ?). simpl.
      eexists _, c1. by rewrite Ha. }
  cbn [exc_fold foldl]. rewrite Hs. simpl.
  destruct (IH answers1 c1 Hwf1) as (answers' & c' & -> & Hwf' & Hmax' & Ha).
  exists answers', c'. split_and!; [done|done|congruence|].
  by rewrite Ha, Hmax, Httl, Habs.
Qed.

(** The expiry a store gives its entry, when it is effective. *)
Definition effective_store (ttl0 : Z) (key : string) (op : dc_op) : bool :=
  match op with
  | DStore k p now => seqb k key && negb (ttl_of ttl0 p now <=? 0)
  | _ => false
  end.

Definition last_store (ttl0 : Z) (ops : list dc_op) (e : DEntry) : Prop :=
  ∃ ops1 ops2 t, ops = ops1 ++ DStore (de_key e) (de_principal e) t :: ops2 ∧
    existsb (effective_store ttl0 (de_key e)) ops2 = false ∧
    de_expires_at_s e = t + ttl_of ttl0 (de_principal e) t.

Lemma spec_run_last_store max ttl0 ops answers es :
  (answers, es) = foldl (spec_step max ttl0) ([], []) ops →
  ∀ e, e ∈ es → last_store ttl0 ops e.
Proof.
  revert answers es. induction ops as [|op ops IH] using rev_ind; intros answers es; simpl.
  { intros [= -> ->]. set_solver. }
  rewrite foldl_app. simpl. destruct (foldl _ _ ops) as [answers0 es0] eqn:H0.
  specialize (IH _ _ eq_refl).
  assert (∀ e, e ∈ es0 → effective_store ttl0 (de_key e) op = false → last_store ttl0 (ops ++ [op]) e) as Hkeep.
  { intros e He Hop. destruct (IH e He) as (ops1 & ops2 & t & -> & Hno & Hex).
    exists ops1, (ops2 ++ [op]), t. split_and!; [by rewrite <-app_assoc| |done].
    rewrite existsb_app, Hno. simpl. by rewrite Hop. }
  destruct op as [key now|key p now]; simpl; intros [= -> ->] e.
  - intros He. apply Hkeep; [|done]. unfold spec_Lookup in He.
    destruct (find_key key es0) as [e0|] eqn:Hf; [|done]. apply find_key_Some in Hf as [_ Hin].
    destruct (_ <=? _); [by apply other_keys_elem in He as [_ ?]|].
    simpl in He. apply elem_of_cons in He as [->|[_ ?]%other_keys_elem]; done.
  - unfold spec_Store. destruct (ttl_of ttl0 p now <=? 0) eqn:Httl.
    + intros He. apply Hkeep; [done|]. simpl. by rewrite Httl, andb_false_r.
    + intros He%elem_of_take. destruct He as (i & He & _). apply list_elem_of_lookup_2 in He.
      apply elem_of_cons in He as [->|[Hne Hin]%other_keys_elem].
      * exists ops, [], now. by split_and!.
      * apply Hkeep; [done|]. simpl. by rewrite (proj2 (seqb_false _ _)).
Qed.

(** ** Properties *)

(** Claim C36.  The cache of list iterators and hash index is, for every sequence
    of lookups and stores, the plain list of the specification: it never uses a
    dangling iterator or loops, gives the same answers, keeps the entries in the
    same most-recently-used order, and never holds more than [max_entries]
    entries (one if zero was asked for). *)
Theorem decision_cache_refines (n ttl : Z) (ops : list dc_op) :
  0 ≤ n →
  ∃ answers c, exc_fold dc_step ([], DecisionCache_new n ttl) ops = Ret (answers, c) ∧ dc_wf c ∧
    (answers, dc_abs c) = foldl (spec_step (if n =? 0 then 1 else n) ttl) ([], []) ops ∧
    Size c ≤ Z.max 1 n.
Proof.
  intros Hn. destruct (dc_run_refines ops [] (DecisionCache_new n ttl) (dc_wf_new n ttl Hn))
    as (answers & c & He & Hwf & Hmax & Ha).
  exists answers, c. split_and!; [done|done|done|].
  pose proof (dc_size c Hwf) as Hsz. rewrite Hmax in Hsz. simpl in Hsz.
  unfold Size. destruct (Z.eqb_spec n 0); lia.
Qed.

Definition alice : Principal := mkPrincipal "alice" "idp" ["read"] 1100.

Lemma decision_cache_refines_witness :
  0 ≤ 2 ∧ ∃ answers c,
    exc_fold dc_step ([], DecisionCache_new 2 30) [DStore "k" alice 1000; DLookup "k" 1010] = Ret (answers, c) ∧
    dc_wf c ∧
    (answers, dc_abs c) = foldl (spec_step (if 2 =? 0 then 1 else 2) 30) ([], [])
                            [DStore "k" alice 1000; DLookup "k" 1010] ∧
    Size c ≤ Z.max 1 2.
Proof. split; [lia|]. apply (decision_cache_refines 2 30). lia. Defined.

(** A cached decision is never served stale: whatever lookups and
    stores came before, a principal answered for a key at [now] is the one given
    by the last effective store for that very key, and [now] is before the end
    of its TTL and, when the principal has an expiry, before that expiry. *)
Theorem decision_cache_sound (n ttl : Z) (ops : list dc_op) answers c key now p c' :
  0 ≤ n → exc_fold dc_step ([], DecisionCache_new n ttl) ops = Ret (answers, c) →
  Lookup c key now = Ret (Some p, c') →
  ∃ ops1 ops2 t, ops = ops1 ++ DStore key p t :: ops2 ∧
    existsb (effective_store ttl key) ops2 = false ∧
    now < t + ttl ∧ (0 < pr_exp p → now < pr_exp p).
Proof.
  intros Hn Hrun Hl. destruct (dc_run_refines ops [] (DecisionCache_new n ttl) (dc_wf_new n ttl Hn))
    as (answers1 & c1 & He & Hwf & _ & Ha). rewrite Hrun in He. simplify_eq.
  destruct (Lookup_refines c1 key now Hwf) as (c2 & Hl2 & _). rewrite Hl in Hl2.
  injection Hl2 as Hp _. unfold spec_Lookup in Hp.
  destruct (find_key key (dc_abs c1)) as [e|] eqn:Hf; [|done]. apply find_key_Some in Hf as [<- Hin].
  destruct (Z.leb_spec (de_expires_at_s e) now); [done|]. simpl in Hp. simplify_eq.
  destruct (spec_run_last_store _ _ _ _ _ Ha e Hin) as (ops1 & ops2 & t & -> & Hno & Hex).
  exists ops1, ops2, t. split_and!; [done|done| |]; unfold ttl_of in Hex; simpl in Hex;
    destruct (Z.ltb_spec 0 (pr_exp (de_principal e))); lia.
Qed.

Lemma decision_cache_sound_witness :
  let r := exc_fold dc_step ([], DecisionCache_new 2 30) [DStore "k" alice 1000] in
  ∃ answers c c', r = Ret (answers, c) ∧ Lookup c "k" 1010 = Ret (Some alice, c') ∧
  ∃ ops1 ops2 t, [DStore "k" alice 1000] = ops1 ++ DStore "k" alice t :: ops2 ∧
    existsb (effective_store 30 "k") ops2 = false ∧
    1010 < t + 30 ∧ (0 < pr_exp alice → 1010 < pr_exp alice).
Proof.
  intros r. eexists _, _, _. split_and!; [vm_compute; reflexivity|vm_compute; reflexivity|].
  eapply (decision_cache_sound 2 30 [DStore "k" alice 1000]); [lia|vm_compute; reflexivity|vm_compute; reflexivity].
Defined.
