(* ===== verification/AuditLog.v ===== *)
(** * Audit events ([src/include/audit.hpp], [src/audit.cpp])

    The bounded ring of recent events and the one-line log format with its
    quoting.  The ring is a vector with a write index and a count, as in the
    code; its specification is "the last [capacity] events, oldest first". *)
From S2P Require Import Prelude CppString.

Inductive AuditEventType : Type :=
  | TokenAccepted | TokenRejected | AuthzAllow | AuthzDeny | JwksRefresh.
#[export] Instance AuditEventType_eq_dec : EqDecision AuditEventType.
Proof. solve_decision. Defined.

Definition AuditEventTypeName (t : AuditEventType) : string :=
  match t with
  | TokenAccepted => "token_accepted"
  | TokenRejected => "token_rejected"
  | AuthzAllow => "authz_allow"
  | AuthzDeny => "authz_deny"
  | JwksRefresh => "jwks_refresh"
  end.

Record AuditEvent : Type := mkAuditEvent {
  ae_timestamp_unix_s : Z;
  ae_event_type : AuditEventType;
  ae_subject : string;
  ae_issuer : string;
  ae_kid : string;
  ae_token_hash : string;
  ae_action : string;
  ae_reason : string;
}.

Definition AuditEvent_default : AuditEvent := mkAuditEvent 0 TokenRejected "" "" "" "" "" "".

(** ** The ring *)
Record AuditRing : Type := mkAuditRing {
  ring_ : list AuditEvent;
  head_ : nat;
  count_ : nat;
}.

Definition AuditRing_new (capacity : nat) : AuditRing :=
  mkAuditRing (replicate (if (0 <? capacity)%nat then capacity else 1%nat) AuditEvent_default) 0 0.

(** [ring_[i] = event]: out of range is undefined behaviour. *)
Definition Push (r : AuditRing) (event : AuditEvent) : exc AuditRing :=
  _ ← defined (ring_ r !! head_ r);
  let ring := <[head_ r := event]> (ring_ r) in
  Ret (mkAuditRing ring ((head_ r + 1) `mod` length ring)%nat
         (if (count_ r <? length ring)%nat then S (count_ r) else count_ r)).

Definition Snapshot (r : AuditRing) : exc (list AuditEvent) :=
  let cap := length (ring_ r) in
  let start := ((head_ r + cap - count_ r) `mod` cap)%nat in
  exc_fold (λ out i, e ← defined (ring_ r !! ((start + i) `mod` cap)%nat); Ret (out ++ [e]))
    [] (seq 0 (count_ r)).

(** ** The log line *)
Definition ctl (c : ascii) : bool := (uc c <? 32) || (uc c =? 127).

Definition quote_char : ascii := "034"%char.
Definition backslash : ascii := "092"%char.

Definition needs_quoting (v : string) : bool :=
  sempty v || existsb (λ c, is_char " " c || is_char "=" c || is_char quote_char c
                            || is_char backslash c || ctl c) (chars v).

Definition escape_char (c : ascii) : list ascii :=
  if is_char quote_char c || is_char backslash c then [backslash; c]
  else if is_char "013" c then [backslash; "r"%char]
  else if is_char "010" c then [backslash; "n"%char]
  else if is_char "009" c then [backslash; "t"%char]
  else if ctl c then
    [backslash; "x"%char; hex_lower (Z.land (Z.shiftr (uc c) 4) 15); hex_lower (Z.land (uc c) 15)]
  else [c].

Definition MaybeQuote (v : string) : string :=
  if negb (needs_quoting v) then v
  else of_chars (quote_char :: mjoin (escape_char <$> chars v) ++ [quote_char]).

Definition Field (key value : string) : string :=
  if sempty value then "" else " " +:+ key +:+ "=" +:+ MaybeQuote value.

Definition FormatAuditLine (e : AuditEvent) : string :=
  "ts=" +:+ show_Z (ae_timestamp_unix_s e) +:+ " event=" +:+ AuditEventTypeName (ae_event_type e)
  +:+ Field "sub" (ae_subject e) +:+ Field "iss" (ae_issuer e) +:+ Field "kid" (ae_kid e)
  +:+ Field "action" (ae_action e) +:+ Field "reason" (ae_reason e) +:+ Field "token" (ae_token_hash e).

(** ** Ring lemmas *)

(** The last [n] elements of a list. *)
Definition last_n {A} (n : nat) (l : list A) : list A := drop (length l - n) l.

(** What the ring holds after the events [evs]: slot [i] of the last [count]
    events, counted from the oldest, is at [(head - count + i) mod cap]. *)
Record ring_wf (cap : nat) (evs : list AuditEvent) (r : AuditRing) : Prop := {
  ring_cap : length (ring_ r) = cap;
  ring_pos : (0 < cap)%nat;
  ring_head : head_ r = (length evs `mod` cap)%nat;
  ring_count : count_ r = min (length evs) cap;
  ring_slots : ∀ i e, evs !! i = Some e → (length evs - cap ≤ i)%nat →
    ring_ r !! (i `mod` cap)%nat = Some e;
}.

Lemma ring_wf_new n : ring_wf (max 1 n) [] (AuditRing_new n).
Proof.
  assert ((if (0 <? n)%nat then n else 1%nat) = max 1 n) as Hn
    by (destruct (Nat.ltb_spec 0 n); lia).
  split; simpl; [by rewrite length_replicate, Hn|lia| |lia|].
  - by rewrite Nat.Div0.mod_0_l.
  - done.
Qed.

Lemma ring_push cap evs r e :
  ring_wf cap evs r → ∃ r', Push r e = Ret r' ∧ ring_wf cap (evs ++ [e]) r'.
Proof.
  intros [Hcap Hpos Hhead Hcount Hslots]. unfold Push.
  assert (head_ r < length (ring_ r))%nat as Hlt by (rewrite Hhead, Hcap; apply Nat.mod_upper_bound; lia).
  destruct (lookup_lt_is_Some_2 _ _ Hlt) as [e0 ->]. simpl. eexists. split; [done|].
  split; simpl; rewrite ?length_insert, ?length_app; [done|done| | |].
  - rewrite Hhead, Hcap. simpl. rewrite Nat.Div0.add_mod_idemp_l. done.
  - rewrite Hcount, Hcap. simpl. destruct (Nat.ltb_spec (min (length evs) cap) cap); lia.
  - simpl. intros i e' Hi Hle. destruct (decide (i = length evs)) as [->|Hne].
    + rewrite lookup_app_r, Nat.sub_diag in Hi by lia. simplify_eq/=.
      rewrite <-Hhead. by apply list_lookup_insert_eq.
    + assert (i < length evs)%nat as Hi'.
      { apply lookup_lt_Some in Hi. rewrite length_app in Hi. simpl in Hi. lia. }
      rewrite lookup_app_l in Hi by done.
      rewrite list_lookup_insert_ne; [apply Hslots; [done|lia]|].
      rewrite Hhead. intros Heq.
      (* the two indices are less than [cap] apart *)
      assert ((length evs - i) `mod` cap = 0)%nat as Hz.
      { replace (length evs) with ((length evs - i) + i)%nat in Heq at 1 by lia.
        pose proof (Nat.div_mod_eq (length evs) cap). pose proof (Nat.div_mod_eq i cap).
        pose proof (Nat.div_mod_eq (length evs - i + i) cap).
        apply Nat.Div0.mod_divides. exists (length evs / cap - i / cap)%nat.
        replace (length evs - i + i)%nat with (length evs) in * by lia. nia. }
      rewrite Nat.mod_small in Hz by lia. lia.
Qed.

Lemma ring_run cap evs evs' r :
  ring_wf cap evs r → ∃ r', exc_fold Push r evs' = Ret r' ∧ ring_wf cap (evs ++ evs') r'.
Proof.
  revert evs r. induction evs' as [|e evs' IH]; intros evs r Hwf.
  - exists r. by rewrite app_nil_r.
  - destruct (ring_push cap evs r e Hwf) as (r1 & Hr1 & Hwf1). cbn [exc_fold]. rewrite Hr1. simpl.
    destruct (IH _ _ Hwf1) as (r' & -> & Hwf'). exists r'. by rewrite <-app_assoc in Hwf'.
Qed.

Lemma exc_fold_snoc {A B} (f : A → exc B) l out :
  exc_fold (λ out i, e ← f i; Ret (out ++ [e])) out l =
    (out ++.) <$> exc_fold (λ out i, e ← f i; Ret (out ++ [e])) [] l.
Proof.
  revert out. induction l as [|x l IH]; intros out; simpl; [by rewrite app_nil_r|].
  destruct (f x) as [e|e|]; simpl; [|done|done].
  rewrite IH, (IH [e]). destruct (exc_fold _ [] l); simpl; [by rewrite <-app_assoc|done|done].
Qed.

Lemma exc_fold_collect {A B} (f : A → exc B) l ys :
  length l = length ys → (∀ i x y, l !! i = Some x → ys !! i = Some y → f x = Ret y) →
  exc_fold (λ out i, e ← f i; Ret (out ++ [e])) [] l = Ret ys.
Proof.
  revert ys. induction l as [|x l IH]; intros [|y ys] Hlen Hf; simplify_eq/=; [done|].
  rewrite (Hf 0%nat x y) by done. simpl. rewrite exc_fold_snoc, (IH ys); [done|done|].
  intros i. apply (Hf (S i)).
Qed.

Lemma ring_snapshot cap evs r : ring_wf cap evs r → Snapshot r = Ret (last_n cap evs).
Proof.
  intros [Hcap Hpos Hhead Hcount Hslots]. unfold Snapshot, last_n. rewrite Hcap, Hhead, Hcount.
  set (n := length evs) in *.
  apply exc_fold_collect.
  { rewrite length_seq, length_drop. fold n. lia. }
  intros i x y Hx Hy. apply lookup_seq in Hx as [-> Hi]. rewrite lookup_drop in Hy.
  simpl. assert ((((n `mod` cap + cap - min n cap) `mod` cap + i) `mod` cap) = ((n - cap + i) `mod` cap))%nat as ->.
  { rewrite Nat.Div0.add_mod_idemp_l. destruct (decide (n ≤ cap)%nat) as [Hle|Hgt].
    - rewrite Nat.min_l by lia. replace (n - cap)%nat with 0%nat by lia. simpl.
      destruct (decide (n = cap)) as [->|].
      + rewrite Nat.Div0.mod_same. simpl. by rewrite Nat.sub_diag.
      + rewrite (Nat.mod_small n) by lia.
        replace (n + cap - n + i)%nat with (i + 1 * cap)%nat by lia. by rewrite Nat.Div0.mod_add.
    - rewrite Nat.min_r by lia. replace (n `mod` cap + cap - cap + i)%nat with (n `mod` cap + i)%nat by lia.
      rewrite Nat.Div0.add_mod_idemp_l. replace (n + i)%nat with (n - cap + i + 1 * cap)%nat by lia.
      by rewrite Nat.Div0.mod_add. }
  fold n in Hy. rewrite (Hslots _ y Hy) by lia. done.
Qed.

(** ** Reading a line back *)
Definition unhex (c : ascii) : Z := if is_digit c then uc c - 48 else uc c - 87.

(** The rest of a quoted value, up to its closing quote. *)
Fixpoint unescape (l : list ascii) : option (list ascii * list ascii) :=
  match l with
  | [] => None
  | c :: l =>
      if is_char quote_char c then Some ([], l)
      else if is_char backslash c then
        match l with
        | "x"%char :: h1 :: h2 :: l => prod_map (to_char (16 * unhex h1 + unhex h2) ::.) id <$> unescape l
        | "r"%char :: l => prod_map ("013"%char ::.) id <$> unescape l
        | "n"%char :: l => prod_map ("010"%char ::.) id <$> unescape l
        | "t"%char :: l => prod_map ("009"%char ::.) id <$> unescape l
        | d :: l => prod_map (d ::.) id <$> unescape l
        | [] => None
        end
      else prod_map (c ::.) id <$> unescape l
  end.

(** The characters before the first one satisfying [f], and the rest. *)
Fixpoint span_until (f : ascii → bool) (l : list ascii) : list ascii * list ascii :=
  match l with
  | [] => ([], [])
  | c :: l' => if f c then ([], l) else prod_map (c ::.) id (span_until f l')
  end.

Definition read_value (l : list ascii) : option (list ascii * list ascii) :=
  match l with
  | c :: l' => if is_char quote_char c then unescape l' else Some (span_until (is_char " ") l)
  | [] => Some ([], [])
  end.

(** A log line as key/value pairs; each step consumes a character, so the length
    of the line is enough fuel. *)
Fixpoint read_fields (fuel : nat) (l : list ascii) : option (list (string * string)) :=
  match fuel with
  | O => None
  | S fuel =>
      let '(k, rest) := span_until (is_char "=") l in
      match rest with
      | [] => None
      | _ :: rest =>
          '(v, rest) ← read_value rest;
          match rest with
          | [] => Some [(of_chars k, of_chars v)]
          | " "%char :: rest => ((of_chars k, of_chars v) ::.) <$> read_fields fuel rest
          | _ => None
          end
      end
  end.
Definition read_line (s : string) : option (list (string * string)) :=
  read_fields (S (String.length s)) (chars s).

Lemma unescape_escape c rest :
  unescape (escape_char c ++ rest) = prod_map (c ::.) id <$> unescape rest.
Proof. destruct c as [[] [] [] [] [] [] [] []]; reflexivity. Qed.

Lemma unescape_quoted v rest :
  unescape (mjoin (escape_char <$> v) ++ quote_char :: rest) = Some (v, rest).
Proof.
  induction v as [|c v IH]; [done|].
  change (mjoin (escape_char <$> c :: v)) with (escape_char c ++ mjoin (escape_char <$> v)).
  by rewrite <-app_assoc, unescape_escape, IH.
Qed.

Lemma span_until_app f a c b :
  forallb (negb ∘ f) a = true → f c = true → span_until f (a ++ c :: b) = (a, c :: b).
Proof.
  intros Ha Hc. induction a as [|d a IH]; simpl in *; [by rewrite Hc|].
  destruct (f d); [done|]. by rewrite IH.
Qed.

Lemma span_until_all f a : forallb (negb ∘ f) a = true → span_until f a = (a, []).
Proof.
  intros Ha. induction a as [|d a IH]; simpl in *; [done|]. destruct (f d); [done|]. by rewrite IH.
Qed.

(** A value is read back whole, whatever comes after its separator. *)
Lemma read_value_MaybeQuote v rest :
  rest = [] ∨ (∃ r, rest = " "%char :: r) →
  read_value (chars (MaybeQuote v) ++ rest) = Some (chars v, rest).
Proof.
  intros Hrest. unfold MaybeQuote. destruct (needs_quoting v) eqn:Hq; simpl.
  - rewrite chars_of_chars. simpl. rewrite <-app_assoc. apply unescape_quoted.
  - unfold needs_quoting in Hq. apply orb_false_iff in Hq as [Hne Hq].
    assert (forallb (negb ∘ is_char " ") (chars v) = true ∧ head (chars v) ≠ Some quote_char) as [Hs Hh].
    { split.
      - apply forallb_elem. intros c Hc. simpl. apply negb_true_iff. apply not_true_iff_false.
        intros Hsp. apply not_true_iff_false in Hq. apply Hq, existsb_elem. exists c. by rewrite Hsp.
      - intros Hh. apply not_true_iff_false in Hq. apply Hq, existsb_elem. exists quote_char.
        split; [|done]. apply head_Some_elem_of, Hh. }
    unfold read_value. destruct (chars v) as [|c l] eqn:Hv; [by destruct v|].
    simpl app. destruct (is_char quote_char c) eqn:Hc.
    { apply is_char_true in Hc. simplify_eq/=. }
    rewrite ?Hc. f_equal. destruct Hrest as [->|[r ->]].
    + rewrite app_nil_r. by apply span_until_all.
    + by apply (span_until_app _ (c :: l)).
Qed.

(** The fields of a line, as printed. *)
Definition print_fields (fs : list (string * string)) : string :=
  foldr (λ f acc, " " +:+ f.1 +:+ "=" +:+ MaybeQuote f.2 +:+ acc) "" fs.

Definition key_ok (k : string) : bool := forallb (negb ∘ is_char "=") (chars k).

Lemma read_fields_print k v fs fuel :
  key_ok k = true → forallb (λ f, key_ok f.1) fs = true → (length fs < fuel)%nat →
  read_fields fuel (chars (k +:+ "=" +:+ MaybeQuote v +:+ print_fields fs)) = Some ((k, v) :: fs).
Proof.
  revert k v fuel. induction fs as [|[k' v'] fs IH]; intros k v [|fuel] Hk Hfs Hfuel; try (simpl in Hfuel; lia).
  - cbn [read_fields print_fields foldr]. rewrite !chars_app.
    change (chars "=") with ["="%char]. cbn [app]. rewrite span_until_app by done.
    rewrite read_value_MaybeQuote by (by left). simpl. by rewrite !of_chars_chars.
  - simpl in Hfs. apply andb_true_iff in Hfs as [Hk' Hfs].
    cbn [read_fields print_fields foldr fst snd]. rewrite !chars_app.
    change (chars "=") with ["="%char]. change (chars " ") with [" "%char]. cbn [app].
    rewrite span_until_app by done. rewrite read_value_MaybeQuote by (right; by eexists). simpl.
    rewrite !of_chars_chars.
    specialize (IH k' v' fuel Hk' Hfs). rewrite !chars_app in IH.
    change (chars "=") with ["="%char] in IH. cbn [app] in IH.
    unfold print_fields in IH. rewrite IH by (simpl in Hfuel; lia). done.
Qed.

Definition event_fields (e : AuditEvent) : list (string * string) :=
  filter (λ f, f.2 ≠ "") [("sub", ae_subject e); ("iss", ae_issuer e); ("kid", ae_kid e);
    ("action", ae_action e); ("reason", ae_reason e); ("token", ae_token_hash e)].

Lemma MaybeQuote_plain v : v ≠ "" →
  (∀ c, c ∈ chars v → is_digit c = true ∨ c = "-"%char ∨ is_lower c = true ∨ c = "_"%char) →
  MaybeQuote v = v.
Proof.
  intros Hne Hv. unfold MaybeQuote. replace (needs_quoting v) with false; [done|].
  symmetry. unfold needs_quoting. apply orb_false_iff. split; [by apply sempty_false|].
  apply not_true_iff_false. rewrite existsb_elem. intros (c & Hc & Hq).
  specialize (Hv c Hc). clear -Hv Hq.
  assert (negb (is_digit c || is_char "-" c || is_lower c || is_char "_" c) ||
          negb (is_char " " c || is_char "=" c || is_char quote_char c || is_char backslash c || ctl c) = true)
    as Hall by (revert c Hv Hq; intros c _ _; revert c; apply ascii_forall; vm_compute; reflexivity).
  rewrite Hq in Hall. simpl in Hall. rewrite orb_false_r, negb_true_iff in Hall.
  rewrite !orb_false_iff in Hall. destruct Hall as [[[H1 H2] H3] H4].
  destruct Hv as [?|[->|[?| ->]]]; congruence || done.
Qed.

Lemma Field_print k v fs :
  Field k v +:+ print_fields (filter (λ f, f.2 ≠ "") fs) = print_fields (filter (λ f, f.2 ≠ "") ((k, v) :: fs)).
Proof.
  unfold Field. rewrite filter_cons. cbn [snd]. destruct (sempty v) eqn:E.
  - apply sempty_true in E as ->. by rewrite decide_False by tauto.
  - apply sempty_false in E. rewrite decide_True by done. cbn [print_fields foldr fst snd].
    by rewrite <-!sapp_assoc.
Qed.

Lemma FormatAuditLine_fields e :
  FormatAuditLine e =
    "ts" +:+ "=" +:+ MaybeQuote (show_Z (ae_timestamp_unix_s e)) +:+
    print_fields (("event", AuditEventTypeName (ae_event_type e)) :: event_fields e).
Proof.
  rewrite MaybeQuote_plain.
  2: { apply show_Z_nonempty. }
  2: { intros c [?|?]%show_Z_chars; auto. }
  assert (MaybeQuote (AuditEventTypeName (ae_event_type e)) = AuditEventTypeName (ae_event_type e)) as Hn
    by (by destruct (ae_event_type e)).
  unfold FormatAuditLine, event_fields. cbn [print_fields foldr fst snd]. rewrite Hn.
  rewrite <-(sapp_empty_r (Field "token" _)).
  change (Field "token" (ae_token_hash e) +:+ "") with
    (Field "token" (ae_token_hash e) +:+ print_fields (filter (λ f, f.2 ≠ "") [])).
  rewrite !Field_print. reflexivity.
Qed.

(** *** No control characters *)
Lemma MaybeQuote_no_ctl v : existsb ctl (chars (MaybeQuote v)) = false.
Proof.
  unfold MaybeQuote. destruct (needs_quoting v) eqn:Hn; simpl.
  - rewrite chars_of_chars. cbn [existsb]. rewrite existsb_app. simpl. rewrite orb_false_r.
    induction (chars v) as [|c l IH]; [done|].
    change (mjoin (escape_char <$> c :: l)) with (escape_char c ++ mjoin (escape_char <$> l)).
    rewrite existsb_app, IH, orb_false_r. apply negb_true_iff.
    revert c. apply ascii_forall. vm_compute. reflexivity.
  - unfold needs_quoting in Hn. apply orb_false_iff in Hn as [_ Hn].
    apply not_true_iff_false. apply not_true_iff_false in Hn. intros (c & Hc & Hctl)%existsb_elem.
    apply Hn, existsb_elem. exists c. by rewrite Hctl, !orb_true_r.
Qed.

Lemma print_fields_no_ctl fs :
  Forall (λ f, existsb ctl (chars f.1) = false) fs → existsb ctl (chars (print_fields fs)) = false.
Proof.
  induction 1 as [|f fs Hf _ IH]; [done|]. cbn [print_fields foldr].
  rewrite !chars_app, !existsb_app, MaybeQuote_no_ctl, Hf. unfold print_fields in IH. by rewrite IH.
Qed.

Lemma print_fields_length fs : (length fs ≤ String.length (print_fields fs))%nat.
Proof.
  induction fs as [|f fs IH]; [done|]. cbn [print_fields foldr].
  rewrite <-length_chars, !chars_app, !length_app in *. simpl.
  unfold print_fields in IH. rewrite !length_chars in *. lia.
Qed.

(** The keys of the fields are fixed, plain names. *)
Lemma event_fields_keys e (P : string → Prop) :
  P "sub" → P "iss" → P "kid" → P "action" → P "reason" → P "token" →
  Forall (λ f, P f.1) (event_fields e).
Proof.
  intros ??????. apply Forall_forall. intros f Hf. unfold event_fields in Hf.
  apply list_elem_of_filter in Hf as [_ Hin]. revert f Hin. apply Forall_forall. by repeat constructor.
Qed.

(** ** Properties *)

(** The audit ring holds the most recent events: after any sequence of
    pushes on a ring of any capacity no access is out of range and a snapshot is
    exactly the last [capacity] events (the last one if capacity zero was asked
    for), oldest first. *)
Theorem audit_ring_last_n (capacity : nat) (events : list AuditEvent) :
  ∃ r, exc_fold Push (AuditRing_new capacity) events = Ret r ∧
    Snapshot r = Ret (last_n (max 1 capacity) events) ∧ count_ r = min (length events) (max 1 capacity).
Proof.
  destruct (ring_run _ [] events _ (ring_wf_new capacity)) as (r & Hr & Hwf).
  exists r. split_and!; [done|by apply ring_snapshot|apply (ring_count _ _ _ Hwf)].
Qed.

(** Claim C39.  An audit line cannot be forged or split: reading a formatted line
    back gives exactly the timestamp, the event name and the non-empty fields of
    the event, in order, whatever bytes the fields hold, and the line contains no
    control character, so an attacker-chosen subject or kid cannot start a new
    line or add a field. *)
Theorem audit_line_roundtrip (e : AuditEvent) :
  read_line (FormatAuditLine e) =
    Some (("ts", show_Z (ae_timestamp_unix_s e)) :: ("event", AuditEventTypeName (ae_event_type e))
          :: event_fields e) ∧
  existsb ctl (chars (FormatAuditLine e)) = false.
Proof.
  rewrite FormatAuditLine_fields. split.
  - unfold read_line. apply read_fields_print; [done| |].
    + apply forallb_elem. apply Forall_forall. constructor; [done|].
      by apply (event_fields_keys e (λ k, key_ok k = true)).
    + rewrite <-length_chars, !chars_app, !length_app, !length_chars.
      pose proof (print_fields_length (("event", AuditEventTypeName (ae_event_type e)) :: event_fields e)). lia.
  - rewrite !chars_app, !existsb_app, MaybeQuote_no_ctl, print_fields_no_ctl; [done|].
    constructor; [done|]. by apply (event_fields_keys e (λ k, existsb ctl (chars k) = false)).
Qed.
