(* ===== verification/External.v ===== *)
(** * Third-party libraries

    picojson, jwt-cpp and OpenSSL are not part of the repository: they are type
    classes, arguments of every definition that calls them.  What the code relies
    on is stated in the [..Laws] classes, from the libraries' documentation. *)
From S2P Require Import Prelude CppString.

(** ** picojson

    [jview v] is what the [is<T>] / [get<T>] accessors report of a value.  A
    double is seen through [static_cast<int64_t>].  Built with
    [PICOJSON_USE_INT64], an integer literal is an [int64_t]. *)
Inductive jview (V : Type) : Type :=
  | JNull
  | JBool (b : bool)
  | JInt64 (z : Z)
  | JDouble (as_int64 : Z)
  | JString (s : string)
  | JArray (l : list V)
  | JObject (o : gmap string V).
Arguments JNull {V}.
Arguments JBool {V} b.
Arguments JInt64 {V} z.
Arguments JDouble {V} as_int64.
Arguments JString {V} s.
Arguments JArray {V} l.
Arguments JObject {V} o.

Class PicoJson : Type := {
  json : Type;
  pj_view : json → jview json;
  pj_parse : string → option json;    (* [None]: [parse_err] is not empty *)
}.

(** [std::stoll] and [std::stoi] as the library documents them: leading white space, an optional
    sign, at least one digit, the rest ignored; out of range throws. *)
Fixpoint digits_value (acc : Z) (l : list ascii) : Z :=
  match l with
  | c :: l => if is_digit c then digits_value (10 * acc + (uc c - 48)) l else acc
  | [] => acc
  end.
Definition sto (bits : Z) (s : string) : option Z :=
  let l := drop_while is_space (chars s) in
  let '(neg, l) := match l with
                   | "-"%char :: l => (true, l)
                   | "+"%char :: l => (false, l)
                   | _ => (false, l) end in
  match l with
  | c :: _ =>
      if is_digit c then
        let v := if (neg : bool) then - digits_value 0 l else digits_value 0 l in
        if (- 2 ^ (bits - 1) <=? v) && (v <? 2 ^ (bits - 1)) then Some v else None
      else None
  | [] => None
  end.
Definition stoll : string → option Z := sto 64.
Definition stoi : string → option Z := sto 32.

(** ** jwt-cpp *)

(** A claim of a decoded token: absent, present with a type for which the
    accessor throws, or present with its value. *)
Inductive claim (A : Type) : Type := Absent | BadType | Value (a : A).
Arguments Absent {A}.
Arguments BadType {A}.
Arguments Value {A} a.

Definition has_claim {A} (c : claim A) : bool := match c with Absent => false | _ => true end.
(** The accessor: throws when the claim is absent or of another type. *)
Definition get_claim {A} (c : claim A) : exc A :=
  match c with Value a => Ret a | _ => Throw StdException end.

(** [jwt::error::token_verification_error] *)
Inductive token_verification_error : Type :=
  | token_expired
  | audience_missmatch
  | wrong_algorithm
  | claim_value_missmatch
  | claim_type_missmatch
  | missing_claim
  | other_token_error.

(** The [std::error_code] of a failed verification: whether its category is the
    signature category, and its value read as a [token_verification_error]. *)
Record error_code : Type := mkErrorCode {
  ec_signature_category : bool;
  ec_value : token_verification_error;
}.

(** What a verifier was configured with. *)
Record verifier_config : Type := mkVerifierConfig {
  vc_now_s : Z;
  vc_issuer : option string;
  vc_audience : option string;
  vc_leeway_s : Z;
}.

Inductive jwt_alg_ctor : Type := rs256 | rs384 | rs512 | es256 | es384 | ed25519.

Class JwtCpp `{!PicoJson} : Type := {
  decoded_jwt : Type;
  jwt_decode : string → option decoded_jwt;              (* [None]: it throws *)
  jwt_algorithm : decoded_jwt → claim string;
  jwt_key_id : decoded_jwt → claim string;
  jwt_type : decoded_jwt → claim string;
  jwt_subject : decoded_jwt → claim string;
  jwt_issuer : decoded_jwt → claim string;
  jwt_audience : decoded_jwt → claim (list string);
  jwt_expires_at : decoded_jwt → claim Z;                (* unix nanoseconds *)
  jwt_not_before : decoded_jwt → claim Z;
  jwt_issued_at : decoded_jwt → claim Z;
  jwt_payload_claim : decoded_jwt → string → claim json;
  algorithm : Type;
  jwt_algorithm_ctor : jwt_alg_ctor → string → option algorithm;   (* [None]: it throws *)
  jwt_verify : algorithm → verifier_config → decoded_jwt → option error_code;
  (* the signature check of an algorithm object, used to state the laws *)
  jwt_signature_ok : algorithm → decoded_jwt → bool;
}.

(** Documented behaviour of [verifier::verify]: a token is accepted, or rejected
    because of a claim, only after its signature was verified by the algorithm;
    an accepted token satisfies the configured issuer, audience and time checks. *)
Class JwtCppLaws `{!PicoJson} (J : JwtCpp) : Prop := {
  jwt_verify_signature a cfg d :
    match jwt_verify a cfg d with
    | None => jwt_signature_ok a d = true
    | Some ec =>
        ec_signature_category ec = false →
        ec_value ec ∈ [token_expired; audience_missmatch; claim_value_missmatch;
                       claim_type_missmatch; missing_claim] →
        jwt_signature_ok a d = true
    end;
  jwt_verify_issuer a cfg d i :
    jwt_verify a cfg d = None → vc_issuer cfg = Some i → jwt_issuer d = Value i;
  jwt_verify_audience a cfg d s :
    jwt_verify a cfg d = None → vc_audience cfg = Some s →
    ∃ l, jwt_audience d = Value l ∧ s ∈ l;
  jwt_verify_exp a cfg d t :
    jwt_verify a cfg d = None → jwt_expires_at d = Value t →
    (vc_now_s cfg - vc_leeway_s cfg) * 1000000000 ≤ t;
  jwt_verify_nbf a cfg d t :
    jwt_verify a cfg d = None → jwt_not_before d = Value t →
    t ≤ (vc_now_s cfg + vc_leeway_s cfg) * 1000000000;
}.

(** The dates of a token are [std::chrono::system_clock] time points: a count of
    nanoseconds of 64 bits. *)
Class JwtCppTimes `{!PicoJson} (J : JwtCpp) : Prop := {
  jwt_expires_at_i64 d t : jwt_expires_at d = Value t → in_i64 t;
}.

(** ** OpenSSL: building a public key and writing it as PEM.  [None] is a failure
    of any call of the sequence (allocation included). *)
Class OpenSsl : Type := {
  BIGNUM : Type;
  EVP_PKEY : Type;
  BN_bin2bn : string → option BIGNUM;
  rsa_fromdata : BIGNUM → BIGNUM → option EVP_PKEY;
  ec_fromdata : string → string → option EVP_PKEY;       (* group name, encoded point *)
  raw_public_key : string → string → option EVP_PKEY;    (* algorithm name, key bytes *)
  EVP_PKEY_get_bits : EVP_PKEY → Z;
  PEM_write_bio_PUBKEY : EVP_PKEY → option string;
}.
