(* ===== verification/Toy.v ===== *)
(** * Concrete libraries for the evaluations

    Small executable instances of the library classes of [External], used by the
    witnesses and examples only: a token is the text
    ["alg/kid/signer/iss/aud/exp"] (and a scope), a key is its own PEM, and JSON documents are
    looked up in a table.  They satisfy the laws the theorems assume. *)
From S2P Require Import Prelude CppString External.

(** ** JSON *)
#[warnings="-register-all"]
Inductive tjson : Type :=
  | TBool (b : bool)
  | TInt (z : Z)
  | TStr (s : string)
  | TArr (l : list tjson)
  | TObj (o : list (string * tjson)).

Definition toy_docs : list (string * tjson) :=
  [("jwks-n1", TObj [("keys", TArr [TObj [("kid", TStr "a"); ("kty", TStr "RSA"); ("n", TStr "bjE"); ("e", TStr "AQAB")]])]);
   ("jwks-n2", TObj [("keys", TArr [TObj [("kid", TStr "a"); ("kty", TStr "RSA"); ("n", TStr "bjI"); ("e", TStr "AQAB")]])]);
   ("jwks-other", TObj [("keys", TArr [TObj [("kid", TStr "b"); ("kty", TStr "RSA"); ("n", TStr "bjM"); ("e", TStr "AQAB")]])]);
   ("active", TObj [("active", TBool true); ("sub", TStr "alice"); ("scope", TStr "read write"); ("exp", TInt 2000)]);
   ("inactive", TObj [("active", TBool false)]);
   ("tokeninfo", TObj [("aud", TStr "app"); ("azp", TStr "app"); ("sub", TStr "bob"); ("exp", TStr "2000")]);
   ("tokeninfo-forever", TObj [("aud", TStr "app"); ("sub", TStr "bob"); ("exp", TStr "9223372036854775807")]);
   ("token", TObj [("access_token", TStr "tok"); ("expires_in", TInt 3600); ("token_type", TStr "Bearer")]);
   ("pending", TObj [("error", TStr "authorization_pending")]);
   ("slow", TObj [("error", TStr "slow_down")]);
   ("denied", TObj [("error", TStr "access_denied")]);
   ("device", TObj [("device_code", TStr "dc"); ("user_code", TStr "UC-1"); ("verification_uri", TStr "https://idp/dev");
                    ("expires_in", TInt 60); ("interval", TInt 5)])].

Fixpoint assoc {A} (k : string) (l : list (string * A)) : option A :=
  match l with
  | [] => None
  | (k', v) :: l => if decide (k = k') then Some v else assoc k l
  end.

Definition toy_view (v : tjson) : jview tjson :=
  match v with
  | TBool b => JBool b
  | TInt z => JInt64 z
  | TStr s => JString s
  | TArr l => JArray l
  | TObj o => JObject (list_to_map o)
  end.

Definition toy_json : PicoJson := {|
  json := tjson;
  pj_view := toy_view;
  pj_parse text := assoc text toy_docs;
|}.

(** ** Tokens *)
#[export] Instance claim_eq_dec `{EqDecision A} : EqDecision (claim A).
Proof. solve_decision. Defined.

Definition toy_field (n : nat) (d : list string) : string := default "" (d !! n).
Definition toy_claim (n : nat) (d : list string) : claim string :=
  match d !! n with
  | Some "!" => BadType
  | Some s => if sempty s then Absent else Value s
  | None => Absent
  end.
Definition toy_exp (d : list string) : claim Z :=
  match toy_claim 5 d with
  | Value s => Value (clamp (digits_value 0 (chars s)) 0 9000000000 * 1000000000)
  | BadType => BadType
  | Absent => Absent
  end.

Definition toy_verify (a : string) (cfg : verifier_config) (d : list string) : option error_code :=
  if negb (seqb a (toy_field 2 d)) then Some (mkErrorCode true other_token_error)
  else if match vc_issuer cfg with Some i => negb (bool_decide (toy_claim 3 d = Value i)) | None => false end
  then Some (mkErrorCode false claim_value_missmatch)
  else if match vc_audience cfg with Some s => negb (bool_decide (toy_claim 4 d = Value s)) | None => false end
  then Some (mkErrorCode false audience_missmatch)
  else match toy_exp d with
       | Value t => if t <? (vc_now_s cfg - vc_leeway_s cfg) * 1000000000
                    then Some (mkErrorCode false token_expired) else None
       | _ => None
       end.

Definition toy_jwt : @JwtCpp toy_json := {|
  decoded_jwt := list string;
  jwt_decode token := if contains_char "/" token then Some (split_char_go "/" [] (chars token)) else None;
  jwt_algorithm := toy_claim 0;
  jwt_key_id := toy_claim 1;
  jwt_type _ := Absent;
  jwt_subject _ := Value "alice";
  jwt_issuer := toy_claim 3;
  jwt_audience d := match toy_claim 4 d with Value s => Value [s] | BadType => BadType | Absent => Absent end;
  jwt_expires_at := toy_exp;
  jwt_not_before _ := Absent;
  jwt_issued_at _ := Absent;
  jwt_payload_claim d name :=
    if seqb name "scope" then
      match toy_claim 6 d with Value s => Value (TStr s : @json toy_json) | BadType => BadType | Absent => Absent end
    else Absent;
  algorithm := string;
  jwt_algorithm_ctor _ pem := Some pem;
  jwt_verify := toy_verify;
  jwt_signature_ok a d := seqb a (toy_field 2 d);
|}.

Lemma toy_jwt_laws : @JwtCppLaws toy_json toy_jwt.
Proof.
  split; simpl; unfold toy_verify; intros a cfg d.
  - destruct (seqb a _) eqn:E; simpl; [|done]. repeat case_match; simplify_eq; done.
  - intros i Hv Hi. rewrite Hi in Hv. destruct (negb (seqb _ _)); [done|].
    case_bool_decide; [done|]. done.
  - intros s Hv Hs. rewrite Hs in Hv. destruct (negb (seqb _ _)); [done|].
    destruct (match vc_issuer cfg with Some _ => _ | None => _ end); [done|].
    case_bool_decide as Hc; [|done]. exists [s]. rewrite Hc. split; [done|left].
  - intros t Hv Ht. rewrite Ht in Hv. repeat (case_match; [done|]).
    destruct (Z.ltb_spec t ((vc_now_s cfg - vc_leeway_s cfg) * 1000000000)); [done|lia].
  - done.
Qed.

Lemma toy_jwt_times : @JwtCppTimes toy_json toy_jwt.
Proof.
  split. simpl. unfold toy_exp. intros d t. destruct (toy_claim 5 d) as [| |s]; [done..|]. intros [= <-].
  pose proof (clamp_bounds (digits_value 0 (chars s)) 0 9000000000). unfold in_i64. lia.
Qed.

(** ** OpenSSL: a key is its bytes, of 2048 bits. *)
Definition toy_ssl : OpenSsl := {|
  BIGNUM := string;
  EVP_PKEY := string;
  BN_bin2bn := Some;
  rsa_fromdata n e := Some n;
  ec_fromdata g p := Some p;
  raw_public_key a x := Some x;
  EVP_PKEY_get_bits _ := 2048;
  PEM_write_bio_PUBKEY := Some;
|}.
