(* ===== verification/Clock.v ===== *)
(** * Timestamps of secrets ([src/platform_time.cpp], and
    [ParseIso8601ToUnixSeconds] of [src/acquire_function.cpp])

    The expiry of a token is written on the secret as a UTC time in ISO 8601 and
    read back by the acquisition ladder.  [gmtime] and [put_time] are the C++
    library's; the calendar they follow is spelled out here. *)
From S2P Require Import Prelude CppString External.

(** ** The proleptic Gregorian calendar, in days since 1970-01-01 *)
Definition is_leap (y : Z) : bool :=
  ((y `mod` 4 =? 0) && negb (y `mod` 100 =? 0)) || (y `mod` 400 =? 0).

Definition jan1 (y : Z) : Z :=
  365 * (y - 1970) + (y - 1969) `div` 4 - (y - 1901) `div` 100 + (y - 1601) `div` 400.

(** The year of a day: a guess from the mean length of a year, corrected by one. *)
Definition year_of_day (d : Z) : Z :=
  let y := 1970 + ((400 * d) `div` 146097) in
  if d <? jan1 y then y - 1 else if jan1 (y + 1) <=? d then y + 1 else y.

Definition kDaysBeforeMonth : list Z := [0; 31; 59; 90; 120; 151; 181; 212; 243; 273; 304; 334].
Definition month_start (leap : bool) (m : Z) : Z :=
  nth (Z.to_nat m) kDaysBeforeMonth 0 + (if ((1 <? m) && leap)%bool then 1 else 0).
Definition month_of_yday (leap : bool) (yday : Z) : Z :=
  Z.of_nat (length (filter (λ m, (month_start leap m ≤ yday)%Z) (seqZ 0 12))) - 1.

(** [struct tm], the fields that are used. *)
Record tm : Type := mkTm {
  tm_year : Z; tm_mon : Z; tm_mday : Z; tm_hour : Z; tm_min : Z; tm_sec : Z;
}.

Definition gmtime (t : Z) : tm :=
  let d := t `div` 86400 in
  let s := t `mod` 86400 in
  let y := year_of_day d in
  let yday := d - jan1 y in
  let m := month_of_yday (is_leap y) yday in
  mkTm (y - 1900) m (yday - month_start (is_leap y) m + 1) (s `div` 3600) ((s `mod` 3600) `div` 60) (s `mod` 60).

(** ** [FormatUtcIso8601]

    The call fails when the year does not fit an [int], and then leaves the
    buffer in a state the standard does not specify. *)
Definition digit (n : Z) : ascii := to_char (48 + n).
Definition pad2 (n : Z) : string := of_chars [digit (n `div` 10); digit (n `mod` 10)].
Definition put_time (b : tm) : string :=
  show_Z (tm_year b + 1900) +:+ "-" +:+ pad2 (tm_mon b + 1) +:+ "-" +:+ pad2 (tm_mday b) +:+ "T" +:+
  pad2 (tm_hour b) +:+ ":" +:+ pad2 (tm_min b) +:+ ":" +:+ pad2 (tm_sec b) +:+ "Z".

Definition FormatUtcIso8601 (unix_seconds : Z) : exc string :=
  let b := gmtime unix_seconds in
  if (- 2 ^ 31 <=? tm_year b) && (tm_year b <? 2 ^ 31) then Ret (put_time b) else Stuck.

(** ** [ParseIso8601ToUnixSeconds]

    The divisions are C++'s, which truncate.  [None] in [fields] is an exception
    of [stoi], caught by the code. *)
Definition iso_fields (iso : string) : option tm :=
  y ← stoi (substr 0 4 iso); mo ← stoi (substr 5 2 iso); d ← stoi (substr 8 2 iso);
  h ← stoi (substr 11 2 iso); mi ← stoi (substr 14 2 iso); s ← stoi (substr 17 2 iso);
  Some (mkTm (y - 1900) (mo - 1) d h mi s).

Definition tm_in_range (b : tm) : bool :=
  (0 <=? tm_mon b) && (tm_mon b <=? 11) && (1 <=? tm_mday b) && (tm_mday b <=? 31) &&
  (0 <=? tm_hour b) && (tm_hour b <=? 23) && (0 <=? tm_min b) && (tm_min b <=? 59) &&
  (0 <=? tm_sec b) && (tm_sec b <=? 60).

Definition unix_of_tm (b : tm) : Z :=
  let year := tm_year b + 1900 in
  let leap := ((Z.rem year 4 =? 0) && negb (Z.rem year 100 =? 0)) || (Z.rem year 400 =? 0) in
  let yday := nth (Z.to_nat (tm_mon b)) kDaysBeforeMonth 0 + (tm_mday b - 1) in
  let yday := if (1 <? tm_mon b) && leap then yday + 1 else yday in
  let days_before_year :=
    365 * (year - 1970) + Z.quot (year - 1969) 4 - Z.quot (year - 1901) 100 + Z.quot (year - 1601) 400 in
  (days_before_year + yday) * 86400 + tm_hour b * 3600 + tm_min b * 60 + tm_sec b.

Definition ParseIso8601ToUnixSeconds (iso : string) : Z :=
  if (ssize iso <? 20) || negb (bool_decide (chars iso !! 10%nat = Some "T"%char))
     || negb (bool_decide (chars iso !! 19%nat = Some "Z"%char)) then 0
  else match iso_fields iso with
       | None => 0
       | Some b => if tm_in_range b then unix_of_tm b else 0
       end.

Example format_examples :
  (FormatUtcIso8601 0, FormatUtcIso8601 951782400, FormatUtcIso8601 1735689599, FormatUtcIso8601 (-1)) =
  (Ret "1970-01-01T00:00:00Z", Ret "2000-02-29T00:00:00Z", Ret "2024-12-31T23:59:59Z", Ret "1969-12-31T23:59:59Z").
Proof. vm_compute. reflexivity. Qed.

(** Before 1969 the truncating divisions shift the result by a day. *)
Example parse_examples :
  (ParseIso8601ToUnixSeconds "2000-02-29T00:00:00Z", ParseIso8601ToUnixSeconds "never",
   ParseIso8601ToUnixSeconds "2000-13-29T00:00:00Z", jan1 1968 * 86400,
   ParseIso8601ToUnixSeconds "1968-01-01T00:00:00Z") = (951782400, 0, 0, -63158400, -63072000).
Proof. vm_compute. reflexivity. Qed.

(** ** The calendar *)
Lemma jan1_succ y : jan1 (y + 1) = jan1 y + if is_leap y then 366 else 365.
Proof.
  unfold jan1, is_leap.
  destruct (Z.eqb_spec (y `mod` 4) 0), (Z.eqb_spec (y `mod` 100) 0), (Z.eqb_spec (y `mod` 400) 0);
    cbn [andb orb negb]; div_lia.
Qed.

Lemma year_of_day_spec d : jan1 (year_of_day d) ≤ d < jan1 (year_of_day d + 1).
Proof.
  unfold year_of_day. set (y := 1970 + ((400 * d) `div` 146097)).
  assert (jan1 (y - 1) ≤ d < jan1 (y + 2)) as [Hlo Hhi].
  { unfold jan1. subst y. split; div_lia. }
  destruct (Z.ltb_spec d (jan1 y)); [replace (y - 1 + 1) with y by lia; lia|].
  destruct (Z.leb_spec (jan1 (y + 1)) d); [replace (y + 1 + 1) with (y + 2) by lia; lia|lia].
Qed.

Lemma jan1_mono y y' : y ≤ y' → jan1 y ≤ jan1 y'.
Proof. intros H. unfold jan1. div_lia. Qed.

Lemma year_of_day_bounds d lo hi : jan1 lo ≤ d < jan1 hi → lo ≤ year_of_day d < hi.
Proof.
  intros [Hlo Hhi]. destruct (year_of_day_spec d) as [H1 H2]. split.
  - destruct (Z.le_gt_cases lo (year_of_day d)); [done|]. pose proof (jan1_mono (year_of_day d + 1) lo). lia.
  - destruct (Z.lt_ge_cases (year_of_day d) hi); [done|]. pose proof (jan1_mono hi (year_of_day d)). lia.
Qed.

(** A finite check over an interval of integers. *)
Lemma forall_seqZ (P : Z → Prop) `{!∀ z, Decision (P z)} lo n :
  forallb (λ z, bool_decide (P z)) (seqZ lo n) = true → ∀ z, lo ≤ z < lo + n → P z.
Proof.
  rewrite forallb_elem. intros HP z Hz. eapply bool_decide_eq_true_1, HP, elem_of_seqZ; lia.
Qed.

Lemma month_of_yday_spec (leap : bool) (yday : Z) :
  0 ≤ yday < (if leap then 366 else 365) →
  let m := month_of_yday leap yday in
  0 ≤ m ≤ 11 ∧ 1 ≤ yday - month_start leap m + 1 ≤ 31.
Proof.
  intros H.
  destruct leap;
    [apply (forall_seqZ (λ y, let m := month_of_yday true y in 0 ≤ m ≤ 11 ∧ 1 ≤ y - month_start true m + 1 ≤ 31) 0 366)
    |apply (forall_seqZ (λ y, let m := month_of_yday false y in 0 ≤ m ≤ 11 ∧ 1 ≤ y - month_start false m + 1 ≤ 31) 0 365)];
    try lia; vm_compute; reflexivity.
Qed.

(** ** Texts of fixed width *)
Lemma pretty_N_char_digit n : (n < 10)%N →
  is_digit (pretty_N_char n) = true ∧ uc (pretty_N_char n) - 48 = Z.of_N n ∧ pretty_N_char n ≠ "-"%char ∧
  pretty_N_char n ≠ "+"%char ∧ is_space (pretty_N_char n) = false.
Proof.
  intros H. assert (n ∈ [0; 1; 2; 3; 4; 5; 6; 7; 8; 9])%N as Hn by (rewrite !elem_of_cons; lia).
  clear H. revert n Hn. apply Forall_forall. repeat constructor; done.
Qed.

Lemma sto_unsigned bits c l :
  c ≠ "-"%char → c ≠ "+"%char → is_space c = false → is_digit c = true →
  sto bits (of_chars (c :: l)) =
  (let v := digits_value 0 (c :: l) in if (- 2 ^ (bits - 1) <=? v) && (v <? 2 ^ (bits - 1)) then Some v else None).
Proof.
  intros Hm Hp Hs Hd. unfold sto. rewrite chars_of_chars. cbn [drop_while]. rewrite Hs.
  destruct c as [[] [] [] [] [] [] [] []]; cbv iota beta; try rewrite Hd; done.
Qed.

(** A text of one to nine digits is read as its value. *)
Lemma sto_digits l : l ≠ [] → (length l ≤ 9)%nat → Forall (λ n, n < 10)%N l →
  sto 32 (of_chars (pretty_N_char <$> l)) = Some (Z.of_N (foldl (λ a n, 10 * a + n)%N 0%N l)).
Proof.
  intros Hne Hlen Hl.
  assert (∀ (a : N), digits_value (Z.of_N a) (pretty_N_char <$> l) = Z.of_N (foldl (λ a n, 10 * a + n)%N a l)) as Hval.
  { clear Hlen Hne. induction Hl as [|n l Hn Hl IH]; intros a; [done|]. cbn [fmap list_fmap digits_value foldl].
    destruct (pretty_N_char_digit n Hn) as (-> & Hu & _). rewrite Hu, <-IH. f_equal. lia. }
  assert (∀ a, foldl (λ a n, 10 * a + n)%N a l < (a + 1) * 10 ^ N.of_nat (length l))%N as Hbound.
  { clear Hlen Hne Hval. induction Hl as [|n l Hn Hl IH]; intros a; cbn [foldl length]; [lia|].
    rewrite Nat2N.inj_succ, N.pow_succ_r'. eapply N.lt_le_trans; [apply IH|]. rewrite N.mul_assoc.
    apply N.mul_le_mono_r. lia. }
  specialize (Hval 0%N). change (Z.of_N 0) with 0 in Hval. specialize (Hbound 0%N).
  assert (10 ^ N.of_nat (length l) ≤ 10 ^ 9)%N by (apply N.pow_le_mono_r; lia).
  destruct Hl as [|n l Hn Hl]; [done|]. cbn [fmap list_fmap] in *.
  destruct (pretty_N_char_digit n Hn) as (Hd & _ & Hm & Hp & Hs).
  rewrite sto_unsigned by done. cbv zeta. rewrite Hval. set (v := foldl _ _ _) in *. cbn [length] in *.
  destruct (Z.leb_spec (- 2 ^ (32 - 1)) (Z.of_N v)), (Z.ltb_spec (Z.of_N v) (2 ^ (32 - 1))); (done || lia).
Qed.

Lemma show_year y : 1000 ≤ y < 10000 →
  ∃ a b c d, show_Z y = of_chars [a; b; c; d] ∧ sto 32 (of_chars [a; b; c; d]) = Some y.
Proof.
  intros H. assert (∃ n, y = Z.of_N n) as [n ->] by (exists (Z.to_N y); lia).
  set (l := [(n / 10 / 10 / 10) mod 10; (n / 10 / 10) mod 10; (n / 10) mod 10; n mod 10]%N).
  pose proof (sto_digits l) as Hsto.
  assert (show_Z (Z.of_N n) = of_chars (pretty_N_char <$> l)) as Hshow.
  { destruct n as [|p]; [lia|]. change (show_Z _) with (pretty_N (N.pos p)). unfold pretty_N.
    rewrite decide_False by done. set (n := N.pos p) in *.
    rewrite !pretty_N_go_step by (div_lia).
    replace (n / 10 / 10 / 10 / 10)%N with 0%N; [by rewrite pretty_N_go_0|].
    div_lia. }
  rewrite Hshow. eexists _, _, _, _. split; [reflexivity|]. etrans.
  - apply Hsto; [done|cbn; lia|]. repeat constructor; by apply N.mod_lt.
  - unfold l. cbn [foldl]. f_equal. div_lia.
Qed.

(** A year of five digits or more is written with that many characters. *)
Lemma show_Z_long y : 10000 ≤ y → (5 ≤ length (chars (show_Z y)))%nat.
Proof.
  intros H. destruct y as [|p|p]; [lia| |lia]. change (show_Z _) with (pretty_N (N.pos p)). unfold pretty_N.
  rewrite decide_False by done. set (n := N.pos p) in *.
  rewrite 5!pretty_N_go_step by (div_lia).
  assert (∀ x s, String.length s ≤ String.length (pretty_N_go x s))%nat as Hlen.
  { intros x. induction (N.lt_wf_0 x) as [x _ IH]; intros s.
    assert (x = 0 ∨ 0 < x)%N as [->|?] by lia; [by rewrite pretty_N_go_0|].
    rewrite pretty_N_go_step by done. etrans; [|apply IH, N.div_lt; lia]. simpl. lia. }
  rewrite length_chars. etrans; [|apply Hlen]. simpl. lia.
Qed.

Lemma sto_pad2 n : 0 ≤ n < 100 → sto 32 (pad2 n) = Some n.
Proof. apply (forall_seqZ (λ n, sto 32 (pad2 n) = Some n) 0 100). vm_compute. reflexivity. Qed.

Lemma parse_put_time b :
  1000 ≤ tm_year b + 1900 < 10000 → tm_in_range b = true →
  ParseIso8601ToUnixSeconds (put_time b) = unix_of_tm b.
Proof.
  intros Hy Hr. unfold ParseIso8601ToUnixSeconds, put_time, iso_fields, stoi.
  destruct (show_year _ Hy) as (a & c & d & e & -> & Hsto).
  pose proof Hr as Hr'. unfold tm_in_range in Hr'.
  pose proof (sto_pad2 (tm_mon b + 1) ltac:(lia)) as H1. pose proof (sto_pad2 (tm_mday b) ltac:(lia)) as H2.
  pose proof (sto_pad2 (tm_hour b) ltac:(lia)) as H3. pose proof (sto_pad2 (tm_min b) ltac:(lia)) as H4.
  pose proof (sto_pad2 (tm_sec b) ltac:(lia)) as H5.
  unfold pad2 in *. rewrite <-(of_chars_chars (_ +:+ _)), !chars_app, !chars_of_chars.
  unfold ssize, substr, stake, sdrop. rewrite <-!length_chars, !chars_of_chars. cbn -[sto digit Z.add unix_of_tm tm_in_range of_chars].
  rewrite !bool_decide_eq_true_2 by done. cbn -[sto digit Z.add unix_of_tm tm_in_range of_chars].
  rewrite Hsto; cbn [mbind option_bind]. rewrite H1; cbn [mbind option_bind]. rewrite H2; cbn [mbind option_bind].
  rewrite H3; cbn [mbind option_bind]. rewrite H4; cbn [mbind option_bind]. rewrite H5; cbn [mbind option_bind].
  replace (mkTm _ _ _ _ _ _) with b; [by rewrite Hr|]. destruct b; cbn; f_equal; lia.
Qed.

Lemma gmtime_in_range t : tm_in_range (gmtime t) = true.
Proof.
  unfold tm_in_range, gmtime. cbn [tm_mon tm_mday tm_hour tm_min tm_sec].
  set (d := t `div` 86400). set (s := t `mod` 86400). pose proof (year_of_day_spec d) as Hy.
  rewrite jan1_succ in Hy.
  destruct (month_of_yday_spec (is_leap (year_of_day d)) (d - jan1 (year_of_day d))) as [Hm Hd]; [lia|].
  assert (0 ≤ s < 86400) as Hs by (apply Z.mod_pos_bound; lia).
  repeat (apply andb_true_intro; split); apply Z.leb_le; try lia; div_lia.
Qed.

(** From 1969 on the code's formula is the calendar. *)
Lemma unix_of_gmtime t : 1969 ≤ year_of_day (t `div` 86400) → unix_of_tm (gmtime t) = t.
Proof.
  intros Hy. unfold unix_of_tm, gmtime. cbn [tm_year tm_mon tm_mday tm_hour tm_min tm_sec].
  set (d := t `div` 86400) in *. set (y := year_of_day d) in *. set (m := month_of_yday _ _).
  replace (y - 1900 + 1900) with y by lia. rewrite !Z.rem_mod_nonneg, !Z.quot_div_nonneg by lia.
  fold (is_leap y). fold (jan1 y).
  replace (if (1 <? m) && is_leap y then _ else _) with (d - jan1 y).
  - subst d. div_lia.
  - unfold month_start. destruct ((1 <? m) && is_leap y); lia.
Qed.


(** The first instant that does not fit the format: the year 10000. *)
Definition year_10000 : Z := 253402300800.

Lemma digit_not_T n : 0 ≤ n < 10 → digit n ≠ "T"%char.
Proof. intros Hn HT. apply (f_equal uc) in HT. unfold digit in HT. rewrite uc_to_char in HT by lia. change (uc "T") with 84 in HT. lia. Qed.

Lemma put_time_long b :
  10000 ≤ tm_year b + 1900 → tm_in_range b = true → ParseIso8601ToUnixSeconds (put_time b) = 0.
Proof.
  intros Hy Hr. unfold ParseIso8601ToUnixSeconds. destruct (ssize _ <? 20); [done|].
  rewrite (bool_decide_eq_false_2 (chars (put_time b) !! 10%nat = _)); [done|].
  pose proof (show_Z_long _ Hy) as Hlen. unfold tm_in_range in Hr.
  unfold put_time, pad2. rewrite !chars_app, !chars_of_chars.
  set (date := chars (show_Z (tm_year b + 1900)) ++ chars "-" ++ [digit ((tm_mon b + 1) `div` 10); digit ((tm_mon b + 1) `mod` 10)] ++
       chars "-" ++ [digit (tm_mday b `div` 10); digit (tm_mday b `mod` 10)]).
  match goal with |- context [chars "T" ++ ?rest] => set (tail := chars "T" ++ rest) end.
  match goal with |- ?l !! _ ≠ _ => replace l with (date ++ tail) by (unfold date; by rewrite <-!app_assoc) end.
  assert (10 < length date)%nat as Hdate by (unfold date; rewrite !length_app; change (chars "-") with ["-"%char]; cbn [length]; lia).
  rewrite lookup_app_l by done. intros HT%list_elem_of_lookup_2. revert HT. unfold date. rewrite !elem_of_app.
  change (chars "-") with ["-"%char]. rewrite !elem_of_cons. intros HT.
  assert (∀ n, 0 ≤ n < 10 → "T"%char ≠ digit n) as HdT by (intros n Hn E; by apply (digit_not_T n Hn)).
  decompose [or] HT; try done; try (by eapply elem_of_nil);
    first [by eapply HdT; [|eassumption]; div_lia | by destruct (show_Z_chars _ _ ltac:(eassumption))].
Qed.

Lemma iso8601_spec t :
  0 ≤ t < 86400 * jan1 (2 ^ 31) →
  ∃ text, FormatUtcIso8601 t = Ret text ∧
    ParseIso8601ToUnixSeconds text = if t <? year_10000 then t else 0.
Proof.
  intros Ht. set (d := t `div` 86400). pose proof (gmtime_in_range t) as Hr.
  assert (tm_year (gmtime t) + 1900 = year_of_day d) as Hyear by (unfold gmtime; cbn [tm_year]; fold d; lia).
  assert (1970 ≤ year_of_day d < 2 ^ 31) as Hy.
  { apply year_of_day_bounds. change (jan1 1970) with 0. clear Hr Hyear. set (J := jan1 (2 ^ 31)) in *.
    clearbody J. subst d. div_lia. }
  exists (put_time (gmtime t)). split.
  { unfold FormatUtcIso8601. destruct (Z.leb_spec (- 2 ^ 31) (tm_year (gmtime t))); [|lia].
    destruct (Z.ltb_spec (tm_year (gmtime t)) (2 ^ 31)); [done|lia]. }
  destruct (Z.ltb_spec t year_10000).
  - assert (1970 ≤ year_of_day d < 10000).
    { apply year_of_day_bounds. change (jan1 1970) with 0. change (jan1 10000) with 2932897.
      unfold year_10000 in *. subst d. div_lia. }
    rewrite parse_put_time by (done || lia). apply unix_of_gmtime. fold d. lia.
  - apply put_time_long; [|done]. rewrite Hyear.
    assert (10000 ≤ year_of_day d < 2 ^ 31); [|lia]. apply year_of_day_bounds. change (jan1 10000) with 2932897.
    unfold year_10000 in *. subst d. div_lia.
Qed.

(** The same of whatever was printed, however far in the future. *)
Lemma iso8601_read_back t text :
  0 ≤ t → FormatUtcIso8601 t = Ret text → ParseIso8601ToUnixSeconds text = if t <? year_10000 then t else 0.
Proof.
  intros Ht Hf. destruct (Z.ltb_spec t year_10000) as [Hlt|Hge].
  - destruct (iso8601_spec t) as (text' & Hf' & Hp).
    { assert (year_10000 < 86400 * jan1 (2 ^ 31)) by (vm_compute; reflexivity). lia. }
    rewrite Hf in Hf'. injection Hf' as <-. rewrite Hp. destruct (Z.ltb_spec t year_10000); [done|lia].
  - revert Hf. unfold FormatUtcIso8601. destruct (_ && _); [|done]. intros [= <-].
    apply put_time_long; [|apply gmtime_in_range]. set (d := t `div` 86400).
    assert (tm_year (gmtime t) + 1900 = year_of_day d) as -> by (unfold gmtime; cbn [tm_year]; fold d; lia).
    destruct (year_of_day_bounds d 10000 (year_of_day d + 1)) as [? _]; [|done].
    split; [|apply year_of_day_spec]. change (jan1 10000) with 2932897. unfold year_10000 in *. subst d. div_lia.
Qed.

(** Claim C31.  An expiry written on a secret is read back as the same instant,
    for every second from 1970 up to the year 10000; a later one, whose year has
    five digits, still prints but reads back as 0, which the ladder takes as
    expired. *)
Theorem iso8601_roundtrip t :
  0 ≤ t < 86400 * jan1 (2 ^ 31) →
  ∃ text, FormatUtcIso8601 t = Ret text ∧
    ParseIso8601ToUnixSeconds text = if t <? year_10000 then t else 0.
Proof. exact (iso8601_spec t). Qed.

Lemma iso8601_roundtrip_witness :
  ∃ text, FormatUtcIso8601 1700000000 = Ret text ∧ ParseIso8601ToUnixSeconds text = 1700000000.
Proof. apply (iso8601_roundtrip 1700000000). split; [lia|vm_compute; reflexivity]. Defined.
