(* ===== verification/Json.v ===== *)
(** * JSON field helpers and URL encoding ([src/picojson_helpers.cpp]) and the
    JWKS document parser ([src/jwks_parse.cpp]) *)
From S2P Require Import Prelude CppString StdList JwksCache External.

(** ** URL encoding *)
Definition unreserved (c : ascii) : bool :=
  is_upper c || is_lower c || is_digit c || is_char "-" c || is_char "_" c || is_char "." c || is_char "~" c.

Definition url_encode_char (c : ascii) : list ascii :=
  if unreserved c then [c]
  else ["%"%char; hex_upper (Z.land (Z.shiftr (uc c) 4) 15); hex_upper (Z.land (uc c) 15)].

Definition UrlEncode (s : string) : string := of_chars (mjoin (url_encode_char <$> chars s)).

(** ** Typed fields *)
Section fields.
Context `{!PicoJson}.

Definition AsString (obj : gmap string json) (key : string) : option string :=
  match obj !! key with
  | Some v => match pj_view v with JString s => Some s | _ => None end
  | None => None
  end.

Definition AsIntFlexible (obj : gmap string json) (key : string) : Z :=
  match obj !! key with
  | None => 0
  | Some v =>
      match pj_view v with
      | JInt64 z => z
      | JDouble z => z
      | JString s => if sempty s then 0 else default 0 (stoll s)
      | _ => 0
      end
  end.

Definition AsBoolFlexible (obj : gmap string json) (key : string) : bool :=
  match obj !! key with
  | None => false
  | Some v =>
      match pj_view v with
      | JBool b => b
      | JString s => seqb s "true" || seqb s "True" || seqb s "TRUE"
      | _ => false
      end
  end.

(** ** JWKS documents *)
Definition GetString (obj : gmap string json) (field : string) : option string :=
  match obj !! field with
  | Some v => match pj_view v with JString s => Some s | _ => None end
  | None => None
  end.

Definition GetStringOrEmpty (obj : gmap string json) (field : string) : string :=
  default "" (GetString obj field).

Definition bad_kid_char (c : ascii) : bool := (uc c <? 32) || (uc c =? 127).

Definition ParseSingleJwk (v : json) : option Jwk :=
  match pj_view v with
  | JObject obj =>
      match GetString obj "kid", GetString obj "kty" with
      | Some kid, Some kty =>
          if negb (seqb kty "RSA") && negb (seqb kty "EC") && negb (seqb kty "OKP") then None
          else if sempty kid || (256 <? ssize kid) then None
          else if existsb bad_kid_char (chars kid) then None
          else Some (mkJwk kid kty (GetStringOrEmpty obj "alg") (GetStringOrEmpty obj "use")
                       (GetStringOrEmpty obj "n") (GetStringOrEmpty obj "e")
                       (GetStringOrEmpty obj "crv") (GetStringOrEmpty obj "x")
                       (GetStringOrEmpty obj "y"))
      | _, _ => None
      end
  | _ => None
  end.

Definition ParseJwksJson (text : string) : list Jwk :=
  if sempty text then []
  else
    match pj_parse text with
    | None => []
    | Some root =>
        match pj_view root with
        | JObject obj =>
            match obj !! "keys" with
            | Some ks => match pj_view ks with JArray l => omap ParseSingleJwk l | _ => [] end
            | None => []
            end
        | _ => []
        end
    end.

(** Every kid of a parsed document is a safe cache key: non-empty, at most 256
    bytes, no control character; its key type is one the verifier knows. *)
Definition kid_ok (kid : string) : Prop :=
  kid ≠ "" ∧ ssize kid ≤ 256 ∧ existsb bad_kid_char (chars kid) = false.

Lemma ParseSingleJwk_ok v k :
  ParseSingleJwk v = Some k → kid_ok (jwk_kid k) ∧ jwk_kty k ∈ ["RSA"; "EC"; "OKP"].
Proof.
  unfold ParseSingleJwk. destruct (pj_view v) as [| | | | | |obj]; try done.
  destruct (GetString obj "kid") as [kid|]; [|done].
  destruct (GetString obj "kty") as [kty|]; [|done].
  destruct (negb _ && _ && _) eqn:Hkty; [done|].
  destruct (sempty kid || _) eqn:Hkid; [done|].
  destruct (existsb _ _) eqn:Hctl; [done|]. intros [= <-]. simpl.
  apply orb_false_iff in Hkid as [?%sempty_false ?%Z.ltb_ge]. split; [done|].
  rewrite !andb_false_iff, !negb_false_iff, !seqb_true in Hkty. set_solver.
Qed.

Lemma ParseJwksJson_ok text :
  Forall (λ k, kid_ok (jwk_kid k) ∧ jwk_kty k ∈ ["RSA"; "EC"; "OKP"]) (ParseJwksJson text).
Proof.
  unfold ParseJwksJson. destruct (sempty text); [done|]. destruct (pj_parse text) as [root|]; [|done].
  destruct (pj_view root) as [| | | | | |obj]; try done. destruct (obj !! "keys") as [ks|]; [|done].
  destruct (pj_view ks); try done. apply Forall_forall. intros k (v & _ & Hv)%list_elem_of_omap.
  by eapply ParseSingleJwk_ok.
Qed.
End fields.

(** ** URL decoding, to state the round trip *)
Definition unhex_upper (c : ascii) : Z := if is_digit c then uc c - 48 else uc c - 55.
Fixpoint url_decode (l : list ascii) : list ascii :=
  match l with
  | "%"%char :: h1 :: h2 :: l => to_char (16 * unhex_upper h1 + unhex_upper h2) :: url_decode l
  | c :: l => c :: url_decode l
  | [] => []
  end.

Lemma url_decode_encode_char c rest : url_decode (url_encode_char c ++ rest) = c :: url_decode rest.
Proof. destruct c as [[] [] [] [] [] [] [] []]; reflexivity. Qed.

(** URL encoding is faithful and safe for a query string or a form
    body: decoding gives back the bytes for every string, and the output has only
    unreserved characters and percent signs, so a value can never add a parameter
    or end the URL. *)
Theorem UrlEncode_roundtrip (s : string) :
  of_chars (url_decode (chars (UrlEncode s))) = s ∧
  forallb (λ c, unreserved c || is_char "%" c) (chars (UrlEncode s)) = true.
Proof.
  unfold UrlEncode. rewrite chars_of_chars. split.
  - rewrite <-(of_chars_chars s) at 2. f_equal. induction (chars s) as [|c l IH]; [done|].
    change (mjoin (url_encode_char <$> c :: l)) with (url_encode_char c ++ mjoin (url_encode_char <$> l)).
    by rewrite url_decode_encode_char, IH.
  - induction (chars s) as [|c l IH]; [done|].
    change (mjoin (url_encode_char <$> c :: l)) with (url_encode_char c ++ mjoin (url_encode_char <$> l)).
    rewrite forallb_app, IH, andb_true_r. revert c. apply ascii_forall. vm_compute. reflexivity.
Qed.
