(* ===== verification/JwtParse.v ===== *)
(** * Token parsing ([src/include/jwt_parse.hpp], [src/jwt_parse.cpp])

    Decoding without verification.  The accessors of jwt-cpp throw on claims of
    the wrong type; the code maps every exception to "not a token". *)
From S2P Require Import Prelude CppString External.

Record JwtParsed : Type := mkJwtParsed {
  jp_alg : string;
  jp_kid : string;
  jp_typ : string;
  jp_subject : string;
  jp_issuer : string;
  jp_audience : list string;
  jp_exp : Z;
  jp_nbf : Z;
  jp_iat : Z;
  jp_scope : string;
  jp_scp : list string;
  jp_roles : list string;
}.

(** [duration_cast<seconds>] truncates toward zero. *)
Definition ToUnixSeconds (tp_ns : Z) : Z := Z.quot tp_ns 1000000000.

(** [if (decoded.has_X()) out.X = decoded.get_X();] *)
Definition claim_or {A} (dflt : A) (c : claim A) : exc A :=
  if has_claim c then get_claim c else Ret dflt.

(** The same for a date, converted to seconds. *)
Definition claim_seconds (c : claim Z) : exc Z :=
  if has_claim c then ToUnixSeconds <$> get_claim c else Ret 0.

(** The scope splitter: [start] and [end] walk the string from space to space.
    Each round moves [start] forward, so the length of the string is enough fuel
    ([SplitScopes_words]). *)
Fixpoint split_from (fuel : nat) (l : list ascii) (start : nat) : list string :=
  match fuel with
  | O => []
  | S fuel =>
      if (length l <=? start)%nat then []
      else
        let e := match find_if (is_char " ") (drop start l) with
                 | Some i => (start + i)%nat
                 | None => length l
                 end in
        (if (start <? e)%nat then [of_chars (take (e - start) (drop start l))] else [])
        ++ split_from fuel l (S e)
  end.
Definition SplitScopes (s : string) : list string := split_from (S (String.length s)) (chars s) 0.

(** Reference: the maximal runs of other characters between separators. *)
Definition words (s : string) : list string := split_char_go " " [] (chars s).

Lemma split_char_go_find cur l :
  split_char_go " " cur l =
    match find_if (is_char " ") l with
    | None => if decide (reverse cur ++ l = []) then [] else [of_chars (reverse cur ++ l)]
    | Some i =>
        (if decide (reverse cur ++ take i l = []) then [] else [of_chars (reverse cur ++ take i l)])
        ++ split_char_go " " [] (drop (S i) l)
    end.
Proof.
  assert (∀ A (x y : A) (c : list ascii), (if decide (c = []) then x else y) =
                                      (if decide (reverse c = []) then x else y)) as Hrev.
  { intros A x y c. destruct (decide (c = [])) as [->|Hc]; [done|].
    rewrite decide_False; [done|]. intros H. apply Hc. by rewrite <-(reverse_involutive c), H. }
  revert cur. induction l as [|c l IH]; intros cur; simpl.
  - rewrite app_nil_r. apply Hrev.
  - unfold is_char at 1. case_bool_decide as Hc.
    + rewrite decide_True by done. rewrite app_nil_r. rewrite drop_0. f_equal. apply Hrev.
    + rewrite decide_False by done. rewrite IH. rewrite reverse_cons.
      destruct (find_if (is_char " ") l) as [i|]; simpl; by rewrite <-app_assoc.
Qed.

Lemma split_from_words fuel l start :
  (length l - start < fuel)%nat → split_from fuel l start = split_char_go " " [] (drop start l).
Proof.
  revert start. induction fuel as [|fuel IH]; intros start Hfuel; [lia|]. simpl.
  destruct (Nat.leb_spec (length l) start) as [Hle|Hlt]; [by rewrite drop_ge|].
  rewrite (split_char_go_find [] (drop start l)). simpl.
  destruct (find_if (is_char " ") (drop start l)) as [i|] eqn:Hi.
  - assert (i < length (drop start l))%nat as Hil.
    { apply find_if_Some in Hi as (l1 & c & l2 & -> & <- & _). rewrite length_app. simpl. lia. }
    rewrite length_drop in Hil. rewrite IH by lia. rewrite drop_drop.
    replace (start + S i)%nat with (S (start + i)) by lia. f_equal.
    replace (start + i - start)%nat with i by lia.
    destruct (Nat.ltb_spec start (start + i)); destruct i as [|i]; try lia.
    + rewrite decide_False; [done|]. intros Hl%(f_equal length).
      rewrite length_take, length_drop in Hl. cbn [length] in Hl. lia.
    + by rewrite take_0.
  - rewrite IH by lia. rewrite (drop_ge l (S (length l))) by lia. simpl. rewrite app_nil_r.
    destruct (Nat.ltb_spec start (length l)); [|lia].
    rewrite decide_False.
    + rewrite take_ge by (rewrite length_drop; lia). done.
    + intros Hl%(f_equal length). rewrite length_drop in Hl. simpl in Hl. lia.
Qed.

Lemma SplitScopes_words s : SplitScopes s = words s.
Proof. unfold SplitScopes, words. rewrite split_from_words; [done|]. rewrite length_chars. lia. Qed.

Section parse.
Context `{!PicoJson, !JwtCpp}.

Definition kid_char_bad (c : ascii) : bool := (uc c <? 32) || (uc c =? 127).

(** [None]: the header is rejected ([return false]). *)
Definition ExtractHeader (decoded : decoded_jwt) : exc (option (string * string * string)) :=
  alg ← claim_or "" (jwt_algorithm decoded);
  kid ← claim_or "" (jwt_key_id decoded);
  if has_claim (jwt_key_id decoded) && ((256 <? ssize kid) || existsb kid_char_bad (chars kid)) then Ret None
  else
    typ ← claim_or "" (jwt_type decoded);
    Ret (Some (alg, kid, typ)).

Definition ExtractStandardPayload (decoded : decoded_jwt)
    : exc (string * string * list string * Z * Z * Z) :=
  subject ← claim_or "" (jwt_subject decoded);
  issuer ← claim_or "" (jwt_issuer decoded);
  audience ← claim_or [] (jwt_audience decoded);
  exp ← claim_seconds (jwt_expires_at decoded);
  nbf ← claim_seconds (jwt_not_before decoded);
  iat ← claim_seconds (jwt_issued_at decoded);
  Ret (subject, issuer, audience, exp, nbf, iat).

Definition json_strings (l : list json) : list string :=
  omap (λ v, match pj_view v with JString s => Some s | _ => None end) l.

Definition string_claim (decoded : decoded_jwt) (name : string) : exc string :=
  if has_claim (jwt_payload_claim decoded name) then
    v ← get_claim (jwt_payload_claim decoded name);
    Ret (match pj_view v with JString s => s | _ => "" end)
  else Ret "".

Definition array_claim (decoded : decoded_jwt) (name : string) : exc (list string) :=
  if has_claim (jwt_payload_claim decoded name) then
    v ← get_claim (jwt_payload_claim decoded name);
    Ret (match pj_view v with JArray l => json_strings l | _ => [] end)
  else Ret [].

Definition ExtractScopes (decoded : decoded_jwt) : exc (string * list string * list string) :=
  scope ← string_claim decoded "scope";
  scp ← array_claim decoded "scp";
  roles ← array_claim decoded "roles";
  Ret (scope, scp, roles).

(** The body of the [try] block. *)
Definition ParseJwt_body (token : string) : exc (option JwtParsed) :=
  decoded ← match jwt_decode token with Some d => Ret d | None => Throw StdException end;
  header ← ExtractHeader decoded;
  match header with
  | None => Ret None
  | Some (alg, kid, typ) =>
      '(subject, issuer, audience, exp, nbf, iat) ← ExtractStandardPayload decoded;
      '(scope, scp, roles) ← ExtractScopes decoded;
      Ret (Some (mkJwtParsed alg kid typ subject issuer audience exp nbf iat scope scp roles))
  end.

Definition ParseJwt (token : string) : option JwtParsed :=
  if sempty token then None
  else match ParseJwt_body token with Ret r => r | _ => None end.

Lemma claim_or_Ret {A} (d a : A) c :
  claim_or d c = Ret a ↔ c = Value a ∨ (c = Absent ∧ a = d).
Proof. destruct c; unfold claim_or; simpl; naive_solver. Qed.

Lemma claim_seconds_Ret c z :
  claim_seconds c = Ret z → c = Absent ∨ ∃ t, c = Value t.
Proof. destruct c; unfold claim_seconds; simpl; naive_solver. Qed.

(** What a parsed token says about the decoded one: later accesses to its
    algorithm and its dates do not throw. *)
Lemma ParseJwt_Some token p :
  ParseJwt token = Some p →
  ∃ d, token ≠ "" ∧ jwt_decode token = Some d ∧
    claim_or "" (jwt_algorithm d) = Ret (jp_alg p) ∧
    claim_or "" (jwt_key_id d) = Ret (jp_kid p) ∧
    (ssize (jp_kid p) ≤ 256 ∧ existsb kid_char_bad (chars (jp_kid p)) = false) ∧
    claim_or "" (jwt_subject d) = Ret (jp_subject p) ∧
    claim_or "" (jwt_issuer d) = Ret (jp_issuer p) ∧
    claim_seconds (jwt_expires_at d) = Ret (jp_exp p) ∧
    claim_seconds (jwt_not_before d) = Ret (jp_nbf p).
Proof.
  unfold ParseJwt. destruct (sempty token) eqn:Hne; [done|]. apply sempty_false in Hne.
  destruct (ParseJwt_body token) as [r|e|] eqn:Hb; [|done|done]. intros ->.
  unfold ParseJwt_body in Hb. destruct (jwt_decode token) as [d|]; [|done]. simpl in Hb.
  apply exc_bind_Ret in Hb as (h & Hh & Hb). destruct h as [[[alg kid] typ]|]; [|done].
  apply exc_bind_Ret in Hb as ([[[[[sub iss] aud] exp] nbf] iat] & Hp & Hb).
  apply exc_bind_Ret in Hb as ([[scope scp] roles] & _ & [= <-]). simpl.
  unfold ExtractHeader in Hh. apply exc_bind_Ret in Hh as (alg' & Ha & Hh).
  apply exc_bind_Ret in Hh as (kid' & Hk & Hh).
  destruct (has_claim _ && _) eqn:Hc; [done|].
  apply exc_bind_Ret in Hh as (typ' & _ & [= -> -> ->]).
  unfold ExtractStandardPayload in Hp. apply exc_bind_Ret in Hp as (sub' & Hs & Hp).
  apply exc_bind_Ret in Hp as (iss' & Hi & Hp). apply exc_bind_Ret in Hp as (aud' & _ & Hp).
  apply exc_bind_Ret in Hp as (exp' & He & Hp). apply exc_bind_Ret in Hp as (nbf' & Hn & Hp).
  apply exc_bind_Ret in Hp as (iat' & _ & [= -> -> -> -> -> ->]).
  exists d. split_and!; try done.
  - apply claim_or_Ret in Hk as [Hk|[Hk ->]]; rewrite Hk in Hc; simpl in Hc; [|done].
    apply orb_false_iff in Hc as [?%Z.ltb_ge _]. done.
  - apply claim_or_Ret in Hk as [Hk|[Hk ->]]; rewrite Hk in Hc; simpl in Hc; [|done].
    apply orb_false_iff in Hc as [_ ?]. done.
Qed.

(** The date of expiry of a token is within three centuries of 1970. *)
Lemma ParseJwt_exp `{!JwtCppTimes _} token p : ParseJwt token = Some p → jp_exp p < 2 ^ 34.
Proof.
  intros (d & _ & _ & _ & _ & _ & _ & _ & Hexp & _)%ParseJwt_Some. unfold claim_seconds in Hexp.
  destruct (jwt_expires_at d) as [| |t] eqn:Ht; simpl in Hexp; [by injection Hexp as <-|done|].
  injection Hexp as <-. pose proof (jwt_expires_at_i64 d t Ht) as [_ Hlt]. unfold ToUnixSeconds.
  destruct (Z.le_gt_cases 0 t).
  - rewrite Z.quot_div_nonneg by lia. apply Z.div_lt_upper_bound; lia.
  - pose proof (Z.quot_pos (- t) 1000000000). rewrite Z.quot_opp_l in * by lia. lia.
Qed.
End parse.

(** ** Bearer prefixes *)
Definition IsAsciiSpace (c : ascii) : bool :=
  is_char " " c || is_char "009" c || is_char "013" c || is_char "010" c || is_char "011" c || is_char "012" c.

Definition StripBearerPrefix (auth : string) : string :=
  let l := drop_while IsAsciiSpace (chars auth) in
  let l :=
    if (6 <=? length l)%nat then
      if bool_decide (of_chars (tolower <$> take 6 l) = "bearer")
         && ((length l =? 6)%nat || match l !! 6%nat with Some c => IsAsciiSpace c | None => false end)
      then drop_while IsAsciiSpace (drop 6 l)
      else l
    else l in
  of_chars (reverse (drop_while IsAsciiSpace (reverse l))).
