(* ===== verification/JwtVerify.v ===== *)
(** * Token verification against one key ([src/include/jwt_verify.hpp],
    [src/jwt_verify.cpp])

    Base64url decoding, JWK to PEM, the algorithm gate, and [VerifyJwt].  jwt-cpp
    and OpenSSL are parameters; accessors that can throw outside a [try] block
    make [VerifyJwt] an [exc]. *)
From S2P Require Import Prelude CppString StdList JwksCache External Toy JwtParse.

Inductive VerifyResult : Type :=
  | Ok | Malformed | DisallowedAlgorithm | InvalidSignature | Expired | NotYetValid
  | WrongIssuer | WrongAudience | UnsupportedKeyType | UnusableKey | NoMatchingKey
  | UnknownKid | JwksFetchFailed | JwksThrottled.
#[export] Instance VerifyResult_eq_dec : EqDecision VerifyResult.
Proof. solve_decision. Defined.

Record VerifyOptions : Type := mkVerifyOptions {
  vo_expected_issuer : string;
  vo_expected_audience : string;
  vo_clock_skew_s : Z;
  vo_now_s : Z;
  vo_allowed_algorithms : list string;
}.

(** ** Base64url *)
Definition value_of (c : ascii) : Z :=
  if is_upper c then uc c - 65
  else if is_lower c then uc c - 97 + 26
  else if is_digit c then uc c - 48 + 52
  else if is_char "-" c then 62
  else if is_char "_" c then 63
  else -1.

(** The loop; [buffer] is an [unsigned int]. *)
Fixpoint b64_loop (l : list ascii) (buffer bits : Z) (out : list ascii) : option (list ascii) :=
  match l with
  | [] => Some out
  | c :: l =>
      if is_char "=" c then Some out
      else
        let v := value_of c in
        if v <? 0 then None
        else
          let buffer := Z.lor (Z.shiftl buffer 6 `mod` 2 ^ 32) v in
          let bits := bits + 6 in
          if 8 <=? bits then
            let bits := bits - 8 in
            b64_loop l buffer bits (out ++ [to_char (Z.land (Z.shiftr buffer bits) 255)])
          else b64_loop l buffer bits out
  end.

Definition Base64UrlDecode (s : string) : option string :=
  if sempty s then None else of_chars <$> b64_loop (chars s) 0 0 [].

(** ** JWK to PEM *)
Section pem.
Context `{!OpenSsl}.

(** The result and [out_sub_2048]. *)
Definition RsaPublicKeyToPem (n_bin e_bin : string) : option string * bool :=
  match BN_bin2bn n_bin, BN_bin2bn e_bin with
  | Some n_bn, Some e_bn =>
      match rsa_fromdata n_bn e_bn with
      | None => (None, false)
      | Some pkey =>
          let bits := EVP_PKEY_get_bits pkey in
          if (512 <=? bits) && (bits <? 2048) then (None, true)
          else if bits <? 512 then (None, false)
          else (PEM_write_bio_PUBKEY pkey, false)
      end
  | _, _ => (None, false)
  end.

Definition EcPublicKeyToPem (group_name x_bin y_bin : string) : option string :=
  match BN_bin2bn x_bin, BN_bin2bn y_bin with
  | Some _, Some _ =>
      if negb (ssize y_bin =? ssize x_bin) then None
      else
        pkey ← ec_fromdata group_name (String "004" (x_bin +:+ y_bin));
        PEM_write_bio_PUBKEY pkey
  | _, _ => None
  end.

Definition OkpPublicKeyToPem (alg_name x_bin : string) : option string :=
  pkey ← raw_public_key alg_name x_bin;
  PEM_write_bio_PUBKEY pkey.

Definition JwkRsaToPem (jwk : Jwk) : option string * bool :=
  if sempty (jwk_n jwk) || sempty (jwk_e jwk) then (None, false)
  else match Base64UrlDecode (jwk_n jwk), Base64UrlDecode (jwk_e jwk) with
       | Some n_bin, Some e_bin => RsaPublicKeyToPem n_bin e_bin
       | _, _ => (None, false)
       end.

Definition JwkEcToPem (jwk : Jwk) : option string :=
  if sempty (jwk_x jwk) || sempty (jwk_y jwk) || sempty (jwk_crv jwk) then None
  else if seqb (jwk_crv jwk) "P-256" || seqb (jwk_crv jwk) "P-384" then
    match Base64UrlDecode (jwk_x jwk), Base64UrlDecode (jwk_y jwk) with
    | Some x_bin, Some y_bin => EcPublicKeyToPem (jwk_crv jwk) x_bin y_bin
    | _, _ => None
    end
  else None.

Definition JwkOkpToPem (jwk : Jwk) : option string :=
  if sempty (jwk_x jwk) || sempty (jwk_crv jwk) then None
  else if negb (seqb (jwk_crv jwk) "Ed25519") then None
  else x_bin ← Base64UrlDecode (jwk_x jwk); OkpPublicKeyToPem "ED25519" x_bin.

Definition IsUsableSigningKey (jwk : Jwk) : bool :=
  if seqb (jwk_kty jwk) "RSA" then
    let '(pem, sub_2048) := JwkRsaToPem jwk in
    match pem with Some _ => negb sub_2048 | None => false end
  else if seqb (jwk_kty jwk) "EC" then bool_decide (is_Some (JwkEcToPem jwk))
  else if seqb (jwk_kty jwk) "OKP" then bool_decide (is_Some (JwkOkpToPem jwk))
  else false.
End pem.

(** ** The algorithm gate *)
Definition IsForbiddenAlgorithm (alg : string) : bool :=
  sempty alg || seqb alg "none" || starts_with "HS" alg.

Definition DefaultAllowedAlgorithms : list string :=
  ["RS256"; "RS384"; "RS512"; "ES256"; "ES384"; "EdDSA"].

Definition IsAlgorithmAllowed (alg : string) (whitelist : list string) : bool :=
  let use := match whitelist with [] => DefaultAllowedAlgorithms | _ => whitelist end in
  existsb (seqb alg) use.

(** ** Verification *)
Section verify.
Context `{!PicoJson, !JwtCpp, !OpenSsl}.

Definition MapVerificationError (ec : error_code) : VerifyResult :=
  match ec_value ec with
  | token_expired => Expired
  | audience_missmatch => WrongAudience
  | wrong_algorithm => DisallowedAlgorithm
  | claim_value_missmatch | claim_type_missmatch | missing_claim => WrongIssuer
  | other_token_error => InvalidSignature
  end.

Definition alg_ctor (alg : string) : option jwt_alg_ctor :=
  if seqb alg "RS256" then Some rs256
  else if seqb alg "RS384" then Some rs384
  else if seqb alg "RS512" then Some rs512
  else if seqb alg "ES256" then Some es256
  else if seqb alg "ES384" then Some es384
  else if seqb alg "EdDSA" then Some ed25519
  else None.

Definition clamped_skew (opts : VerifyOptions) : Z := clamp (vo_clock_skew_s opts) 0 3600.

Definition config_of (opts : VerifyOptions) : verifier_config :=
  mkVerifierConfig (vo_now_s opts)
    (if negb (sempty (vo_expected_issuer opts)) then Some (vo_expected_issuer opts) else None)
    (if negb (sempty (vo_expected_audience opts)) then Some (vo_expected_audience opts) else None)
    (clamped_skew opts).

Definition VerifyWithVerifier (decoded : decoded_jwt) (pem alg : string) (opts : VerifyOptions)
    : exc VerifyResult :=
  match alg_ctor alg with
  | None => Ret DisallowedAlgorithm
  | Some ctor =>
      match jwt_algorithm_ctor ctor pem with
      | None => Ret InvalidSignature
      | Some a =>
          match jwt_verify a (config_of opts) decoded with
          | None => Ret Ok
          | Some ec =>
              if ec_signature_category ec then Ret InvalidSignature
              else match ec_value ec with
                   | token_expired =>
                       if has_claim (jwt_not_before decoded) then
                         nbf ← ToUnixSeconds <$> get_claim (jwt_not_before decoded);
                         Ret (if vo_now_s opts + clamped_skew opts <? nbf then NotYetValid else Expired)
                       else Ret Expired
                   | _ => Ret (MapVerificationError ec)
                   end
          end
      end
  end.

(** The PEM of a key, [inl] when the key is refused for its type or size. *)
Definition jwk_pem (jwk : Jwk) : VerifyResult + option string :=
  if seqb (jwk_kty jwk) "RSA" then
    let '(pem, sub_2048) := JwkRsaToPem jwk in
    if sub_2048 then inl UnsupportedKeyType else inr pem
  else if seqb (jwk_kty jwk) "EC" then inr (JwkEcToPem jwk)
  else if seqb (jwk_kty jwk) "OKP" then inr (JwkOkpToPem jwk)
  else inl UnsupportedKeyType.

Definition VerifyJwt (token : string) (jwk : Jwk) (opts : VerifyOptions) : exc VerifyResult :=
  if sempty token then Ret Malformed
  else match jwt_decode token with
       | None => Ret Malformed
       | Some decoded =>
           alg ← claim_or "" (jwt_algorithm decoded);
           if IsForbiddenAlgorithm alg || negb (IsAlgorithmAllowed alg (vo_allowed_algorithms opts)) then
             Ret DisallowedAlgorithm
           else match jwk_pem jwk with
                | inl r => Ret r
                | inr None => Ret UnusableKey
                | inr (Some pem) => VerifyWithVerifier decoded pem alg opts
                end
       end.

(** ** Lemmas *)

(** The results that mean "this key made the signature". *)
Definition SignatureMatchesCandidate (res : VerifyResult) : bool :=
  match res with
  | Ok | Expired | NotYetValid | WrongIssuer | WrongAudience => true
  | _ => false
  end.

(** A key signed a token: the algorithm object built from the key's PEM for the
    token's algorithm verifies the token's signature, and that algorithm is
    asymmetric and allowed. *)
Definition key_signed (token : string) (jwk : Jwk) (opts : VerifyOptions) : Prop :=
  ∃ d alg ctor pem a,
    jwt_decode token = Some d ∧ claim_or "" (jwt_algorithm d) = Ret alg ∧
    IsForbiddenAlgorithm alg = false ∧ IsAlgorithmAllowed alg (vo_allowed_algorithms opts) = true ∧
    alg_ctor alg = Some ctor ∧ jwk_pem jwk = inr (Some pem) ∧
    jwt_algorithm_ctor ctor pem = Some a ∧ jwt_signature_ok a d = true.

Lemma VerifyJwt_signed `{!JwtCppLaws _} token jwk opts r :
  VerifyJwt token jwk opts = Ret r → SignatureMatchesCandidate r = true → key_signed token jwk opts.
Proof.
  unfold VerifyJwt. destruct (sempty token); [by intros [= <-]|].
  destruct (jwt_decode token) as [d|] eqn:Hd; [|by intros [= <-]].
  intros (alg & Halg & Hv)%exc_bind_Ret Hr.
  destruct (IsForbiddenAlgorithm alg || _) eqn:Hgate; [by simplify_eq|].
  apply orb_false_iff in Hgate as [Hf Ha%negb_false_iff].
  destruct (jwk_pem jwk) as [r'|[pem|]] eqn:Hpem; [|  |by simplify_eq].
  { simplify_eq. unfold jwk_pem in Hpem. repeat case_match; simplify_eq; done. }
  unfold VerifyWithVerifier in Hv. destruct (alg_ctor alg) as [ctor|] eqn:Hc; [|by simplify_eq].
  destruct (jwt_algorithm_ctor ctor pem) as [a|] eqn:Hctor; [|by simplify_eq].
  exists d, alg, ctor, pem, a. split_and!; try done.
  pose proof (jwt_verify_signature a (config_of opts) d) as Hlaw.
  destruct (jwt_verify a (config_of opts) d) as [ec|]; [|done].
  destruct (ec_signature_category ec); [by simplify_eq|]. apply Hlaw; [done|].
  unfold MapVerificationError in Hv. destruct (ec_value ec); simplify_eq; try done; set_solver.
Qed.
End verify.

(** ** Base64url round trip *)
Definition alphabet : list ascii :=
  chars "ABCDEFGHIJKLMNOPQRSTUVWXYZabcdefghijklmnopqrstuvwxyz0123456789-_".
Definition b64_digit (v : Z) : ascii := nth (Z.to_nat v) alphabet "A"%char.

(** RFC 4648 base64url without padding. *)
Fixpoint b64_encode (l : list ascii) : list ascii :=
  match l with
  | b0 :: b1 :: b2 :: l =>
      b64_digit (uc b0 / 4) :: b64_digit (uc b0 mod 4 * 16 + uc b1 / 16)
      :: b64_digit (uc b1 mod 16 * 4 + uc b2 / 64) :: b64_digit (uc b2 mod 64) :: b64_encode l
  | [b0; b1] =>
      [b64_digit (uc b0 / 4); b64_digit (uc b0 mod 4 * 16 + uc b1 / 16); b64_digit (uc b1 mod 16 * 4)]
  | [b0] => [b64_digit (uc b0 / 4); b64_digit (uc b0 mod 4 * 16)]
  | [] => []
  end.

Lemma b64_digit_value v : 0 ≤ v < 64 → value_of (b64_digit v) = v ∧ is_char "=" (b64_digit v) = false.
Proof.
  intros Hv.
  assert (∀ n, n ∈ seq 0 64 → value_of (b64_digit (Z.of_nat n)) = Z.of_nat n
            ∧ is_char "=" (b64_digit (Z.of_nat n)) = false) as Hall.
  { apply Forall_forall. repeat (constructor; [vm_compute; done|]). constructor. }
  rewrite <-(Z2Nat.id v) by lia. apply Hall, elem_of_seq. lia.
Qed.

Lemma lor_shift a v : 0 ≤ a → 0 ≤ v < 64 → Z.lor (64 * a) v = 64 * a + v.
Proof.
  intros Ha Hv. assert (Z.land (64 * a) v = 0) as Hl.
  { apply Z.bits_inj'. intros n Hn. rewrite Z.land_spec, Z.bits_0.
    change 64 with (2 ^ 6). destruct (Z.lt_ge_cases n 6).
    - rewrite Z.mul_comm, Z.mul_pow2_bits_low by lia. done.
    - rewrite <-(Z.mod_small v (2 ^ 6)) by lia. rewrite Z.mod_pow2_bits_high by lia. apply andb_false_r. }
  by rewrite <-Z.lxor_lor, <-Z.add_nocarry_lxor.
Qed.

Lemma mod_pow2_mod z k n : 0 ≤ k ≤ n → (z mod 2 ^ n) mod 2 ^ k = z mod 2 ^ k.
Proof.
  intros Hk. apply Z.mod_mod_divide.
  exists (2 ^ (n - k)). rewrite <-Z.pow_add_r by lia. f_equal. lia.
Qed.

(** The buffer after a digit, in its low bits. *)
Lemma b64_buffer buffer v bits r :
  0 ≤ buffer → 0 ≤ v < 64 → 0 ≤ bits ≤ 6 → buffer mod 2 ^ bits = r →
  let buffer' := Z.lor (Z.shiftl buffer 6 `mod` 2 ^ 32) v in
  0 ≤ buffer' ∧ buffer' mod 2 ^ (bits + 6) = 64 * r + v.
Proof.
  intros Hbuf Hv Hbits Hr buffer'.
  assert (buffer' = 64 * (buffer mod 2 ^ 26) + v) as Hb.
  { subst buffer'. rewrite Z.shiftl_mul_pow2 by lia. change (2 ^ 32) with (2 ^ 6 * 2 ^ 26).
    rewrite (Z.mul_comm buffer), Zmult_mod_distr_l. apply lor_shift; [|done].
    apply Z.mod_pos_bound. lia. }
  pose proof (Z.mod_pos_bound buffer (2 ^ 26) ltac:(lia)). split; [lia|].
  rewrite Hb, Z.add_comm, (Z.pow_add_r 2) by lia. change (2 ^ 6) with 64.
  rewrite (Z.mul_comm _ 64), Z.add_comm.
  assert (0 < 2 ^ bits) by (apply Z.pow_pos_nonneg; lia).
  rewrite <-(mod_pow2_mod buffer bits 26) in Hr by lia.
  rewrite (Z.div_mod (buffer mod 2 ^ 26) (2 ^ bits)) by lia. rewrite Hr.
  replace (64 * (2 ^ bits * (buffer mod 2 ^ 26 / 2 ^ bits) + r) + v)
    with (64 * r + v + (buffer mod 2 ^ 26 / 2 ^ bits) * (64 * 2 ^ bits)) by ring.
  rewrite Z.mod_add by lia. apply Z.mod_small.
  pose proof (Z.mod_pos_bound (buffer mod 2 ^ 26) (2 ^ bits) ltac:(lia)). nia.
Qed.

Lemma to_char_field z m : 0 ≤ m → to_char (Z.land (Z.shiftr z m) 255) = to_char (z mod 2 ^ (m + 8) / 2 ^ m).
Proof.
  intros Hm. f_equal. rewrite Z.shiftr_div_pow2 by lia. change 255 with (Z.ones 8).
  rewrite Z.land_ones by lia. rewrite Z.pow_add_r by lia.
  assert (0 < 2 ^ m) by (apply Z.pow_pos_nonneg; lia).
  rewrite Z.rem_mul_r by lia. rewrite (Z.mul_comm (2 ^ m)), Z.div_add by lia.
  by rewrite (Z.div_small (z mod 2 ^ m)) by (apply Z.mod_pos_bound; lia).
Qed.

(** One digit, with [bits] pending low bits of value [r] in the buffer. *)
Lemma b64_step v l buffer bits r out :
  0 ≤ v < 64 → 0 ≤ bits ≤ 6 → 0 ≤ buffer → buffer mod 2 ^ bits = r →
  ∃ buffer', 0 ≤ buffer' ∧ buffer' mod 2 ^ (bits + 6) = 64 * r + v ∧
    b64_loop (b64_digit v :: l) buffer bits out =
      if 8 <=? bits + 6 then
        b64_loop l buffer' (bits - 2) (out ++ [to_char ((64 * r + v) / 2 ^ (bits - 2))])
      else b64_loop l buffer' (bits + 6) out.
Proof.
  intros Hv Hbits Hbuf Hr. destruct (b64_digit_value v Hv) as [Hval Heq].
  destruct (b64_buffer buffer v bits r Hbuf Hv Hbits Hr) as [Hpos Hmod].
  eexists. split_and!; [exact Hpos|exact Hmod|].
  cbn [b64_loop]. rewrite Heq, Hval. destruct (Z.ltb_spec v 0); [lia|].
  destruct (Z.leb_spec 8 (bits + 6)); [|done]. replace (bits + 6 - 8) with (bits - 2) by lia.
  rewrite to_char_field by lia. replace (bits - 2 + 8) with (bits + 6) by lia. by rewrite Hmod.
Qed.

Ltac dlia := Z.to_euclidean_division_equations; lia.

(** The four digits of a group of three bytes. *)
Section digits.
Context (v : Z) (l : list ascii) (buffer : Z) (out : list ascii).
Hypothesis (Hv : 0 ≤ v < 64) (Hbuf : 0 ≤ buffer).

Lemma b64_digit_0 :
  ∃ b, 0 ≤ b ∧ b mod 64 = v ∧ b64_loop (b64_digit v :: l) buffer 0 out = b64_loop l b 6 out.
Proof.
  destruct (b64_step v l buffer 0 0 out Hv) as (b & Hb & Hm & He); [lia|done|apply Z.mod_1_r|].
  exists b. simpl in Hm. by split_and!.
Qed.

Lemma b64_digit_6 r :
  buffer mod 64 = r →
  ∃ b, 0 ≤ b ∧ b mod 16 = v mod 16 ∧
    b64_loop (b64_digit v :: l) buffer 6 out = b64_loop l b 4 (out ++ [to_char (4 * r + v / 16)]).
Proof.
  intros Hr. destruct (b64_step v l buffer 6 r out Hv) as (b & Hb & Hm & He); [lia|done|done|].
  exists b. split_and!; [done| |].
  - change (b mod 16) with (b mod 2 ^ 4). rewrite <-(mod_pow2_mod b 4 12) by lia.
    change (2 ^ (6 + 6)) with (2 ^ 12) in Hm. rewrite Hm. change (2 ^ 4) with 16. dlia.
  - rewrite He. simpl. do 4 f_equal. dlia.
Qed.

Lemma b64_digit_4 r :
  buffer mod 16 = r →
  ∃ b, 0 ≤ b ∧ b mod 4 = v mod 4 ∧
    b64_loop (b64_digit v :: l) buffer 4 out = b64_loop l b 2 (out ++ [to_char (16 * r + v / 4)]).
Proof.
  intros Hr. destruct (b64_step v l buffer 4 r out Hv) as (b & Hb & Hm & He); [lia|done|done|].
  exists b. split_and!; [done| |].
  - change (b mod 4) with (b mod 2 ^ 2). rewrite <-(mod_pow2_mod b 2 10) by lia.
    change (2 ^ (4 + 6)) with (2 ^ 10) in Hm. rewrite Hm. change (2 ^ 2) with 4. dlia.
  - rewrite He. simpl. do 4 f_equal. dlia.
Qed.

Lemma b64_digit_2 r :
  buffer mod 4 = r →
  ∃ b, 0 ≤ b ∧ b64_loop (b64_digit v :: l) buffer 2 out = b64_loop l b 0 (out ++ [to_char (64 * r + v)]).
Proof.
  intros Hr. destruct (b64_step v l buffer 2 r out Hv) as (b & Hb & Hm & He); [lia|done|done|].
  exists b. split; [done|]. rewrite He. simpl. do 4 f_equal. dlia.
Qed.
End digits.

Lemma b64_loop_encode n l buffer out :
  (length l ≤ n)%nat → 0 ≤ buffer → b64_loop (b64_encode l) buffer 0 out = Some (out ++ l).
Proof.
  revert l buffer out. induction n as [|n IH]; intros l buffer out Hn Hb.
  { destruct l; simpl in *; [by rewrite app_nil_r|lia]. }
  destruct l as [|c0 l]; [by rewrite app_nil_r|].
  pose proof (uc_bounds c0).
  assert (∀ v l, 0 ≤ v < 16 → ∃ b, 0 ≤ b ∧ b mod 16 = v ∧
    b64_loop (b64_digit (uc c0 / 4) :: b64_digit (uc c0 mod 4 * 16 + v) :: l) buffer 0 out =
    b64_loop l b 4 (out ++ [c0])) as Hfirst.
  { intros v l' Hv.
    destruct (b64_digit_0 (uc c0 / 4) (b64_digit (uc c0 mod 4 * 16 + v) :: l') buffer out)
      as (b1 & Hb1 & Hm1 & ->); [dlia|done|].
    destruct (b64_digit_6 (uc c0 mod 4 * 16 + v) l' b1 out ltac:(dlia) Hb1 _ Hm1) as (b2 & Hb2 & Hm2 & ->).
    exists b2. split_and!; [done|rewrite Hm2; dlia|]. do 3 f_equal.
    etrans; [|apply to_char_uc]. f_equal. dlia. }
  assert (∀ c1 v l out b, 0 ≤ v < 4 → 0 ≤ b → b mod 16 = uc c1 / 16 → ∃ b', 0 ≤ b' ∧ b' mod 4 = v ∧
    b64_loop (b64_digit (uc c1 mod 16 * 4 + v) :: l) b 4 out = b64_loop l b' 2 (out ++ [c1])) as Hsecond.
  { intros c1 v l' out' b Hv Hb' Hm. pose proof (uc_bounds c1).
    destruct (b64_digit_4 (uc c1 mod 16 * 4 + v) l' b out' ltac:(dlia) Hb' _ Hm) as (b3 & Hb3 & Hm3 & ->).
    exists b3. split_and!; [done|rewrite Hm3; dlia|]. do 3 f_equal.
    etrans; [|apply to_char_uc]. f_equal. dlia. }
  destruct l as [|c1 [|c2 l]]; cbn [b64_encode].
  - destruct (Hfirst 0 []) as (b & _ & _ & He); [lia|]. rewrite Z.add_0_r in He. by rewrite He.
  - pose proof (uc_bounds c1). destruct (Hfirst (uc c1 / 16) [b64_digit (uc c1 mod 16 * 4)]) as (b & Hb' & Hm & ->); [dlia|].
    destruct (Hsecond c1 0 [] (out ++ [c0]) b) as (b2 & _ & _ & He); [lia|done|done|].
    rewrite Z.add_0_r in He. rewrite He. simpl. by rewrite <-app_assoc.
  - pose proof (uc_bounds c1). pose proof (uc_bounds c2).
    edestruct (Hfirst (uc c1 / 16)) as (b & Hb' & Hm & ->); [dlia|].
    edestruct (Hsecond c1 (uc c2 / 64)) as (b2 & Hb2 & Hm2 & ->); [dlia|done|done|].
    destruct (b64_digit_2 (uc c2 mod 64) (b64_encode l) b2 ((out ++ [c0]) ++ [c1]) ltac:(dlia) Hb2 _ Hm2)
      as (b3 & Hb3 & ->).
    rewrite IH by (simpl in *; lia).
    assert (to_char (64 * (uc c2 / 64) + uc c2 mod 64) = c2) as ->
      by (etrans; [|apply to_char_uc]; f_equal; dlia).
    by rewrite <-!app_assoc.
Qed.

(** ** Properties *)

(** Base64url decoding inverts unpadded base64url encoding on every
    non-empty byte string, with the code's 32-bit buffer wrapping as it does. *)
Theorem Base64UrlDecode_encode (s : string) :
  s ≠ "" → Base64UrlDecode (of_chars (b64_encode (chars s))) = Some s.
Proof.
  intros Hs. unfold Base64UrlDecode.
  assert (sempty (of_chars (b64_encode (chars s))) = false) as ->.
  { destruct (chars s) as [|c0 [|c1 [|c2 l]]] eqn:He; [by destruct s|done..]. }
  rewrite chars_of_chars, (b64_loop_encode (length (chars s))) by lia. simpl. by rewrite of_chars_chars.
Qed.

Lemma Base64UrlDecode_encode_witness :
  "key" ≠ "" ∧ Base64UrlDecode (of_chars (b64_encode (chars "key"))) = Some "key".
Proof. split; [done|]. by apply (Base64UrlDecode_encode "key"). Defined.

Section properties.
Context `{!PicoJson, !JwtCpp, !OpenSsl}.

(** Unsigned and symmetric tokens are never verified: whatever key
    they are checked against and whatever the operator's allow-list says, a
    token whose algorithm is missing, [none] or starts with [HS], or is not in
    the allow-list, gets [DisallowedAlgorithm] before any key is built. *)
Theorem forbidden_algorithm_rejected token d alg jwk opts :
  token ≠ "" → jwt_decode token = Some d → claim_or "" (jwt_algorithm d) = Ret alg →
  alg = "" ∨ alg = "none" ∨ starts_with "HS" alg = true ∨
    alg ∉ (if bool_decide (vo_allowed_algorithms opts = []) then DefaultAllowedAlgorithms
           else vo_allowed_algorithms opts) →
  VerifyJwt token jwk opts = Ret DisallowedAlgorithm.
Proof.
  intros Hne Hd Halg Hbad. unfold VerifyJwt.
  rewrite (proj2 (sempty_false token) Hne), Hd, Halg. simpl.
  assert (IsForbiddenAlgorithm alg || negb (IsAlgorithmAllowed alg (vo_allowed_algorithms opts)) = true) as ->;
    [|done].
  unfold IsForbiddenAlgorithm, IsAlgorithmAllowed. destruct Hbad as [->|[->|[->|Hin]]]; [done|done| |].
  - by rewrite !orb_true_r.
  - rewrite orb_true_iff, negb_true_iff. right. apply not_true_iff_false.
    intros (x & Hx & <-%seqb_true)%existsb_elem. apply Hin.
    by destruct (vo_allowed_algorithms opts).
Qed.

(** Claim C10.  An accepted token is authentic and current: [Ok] means that the
    key is an RSA, EC or Ed25519 key the code could load (an RSA key of at
    least 2048 bits), that the token's signature verifies under it with the
    token's own asymmetric and allowed algorithm, that the issuer and audience
    the options name are the token's, and that now is within the token's
    validity up to a skew of at most an hour. *)
Theorem VerifyJwt_accepts_soundly `{!JwtCppLaws _} token jwk opts :
  VerifyJwt token jwk opts = Ret Ok →
  key_signed token jwk opts ∧
  (jwk_kty jwk = "RSA" → ∃ n e n_bn e_bn pkey,
     Base64UrlDecode (jwk_n jwk) = Some n ∧ Base64UrlDecode (jwk_e jwk) = Some e ∧
     BN_bin2bn n = Some n_bn ∧ BN_bin2bn e = Some e_bn ∧ rsa_fromdata n_bn e_bn = Some pkey ∧
     2048 ≤ EVP_PKEY_get_bits pkey) ∧
  ∃ d, jwt_decode token = Some d ∧
    (vo_expected_issuer opts ≠ "" → jwt_issuer d = Value (vo_expected_issuer opts)) ∧
    (vo_expected_audience opts ≠ "" → ∃ l, jwt_audience d = Value l ∧ vo_expected_audience opts ∈ l) ∧
    ∃ skew, 0 ≤ skew ≤ 3600 ∧
      (∀ t, jwt_expires_at d = Value t → (vo_now_s opts - skew) * 1000000000 ≤ t) ∧
      (∀ t, jwt_not_before d = Value t → t ≤ (vo_now_s opts + skew) * 1000000000).
Proof.
  intros Hok. pose proof (VerifyJwt_signed _ _ _ _ Hok eq_refl) as Hsig. split; [done|].
  destruct Hsig as (d & alg & ctor & pem & a & Hd & Halg & Hf & Ha & Hc & Hpem & Hctor & _). split.
  - intros Hkty. unfold jwk_pem in Hpem. rewrite Hkty in Hpem. simpl in Hpem.
    destruct (JwkRsaToPem jwk) as [p sub] eqn:Hp. destruct sub; [done|]. simplify_eq.
    unfold JwkRsaToPem in Hp. destruct (_ || _); [done|].
    destruct (Base64UrlDecode (jwk_n jwk)) as [n|]; [|done].
    destruct (Base64UrlDecode (jwk_e jwk)) as [e|]; [|done].
    unfold RsaPublicKeyToPem in Hp. destruct (BN_bin2bn n) as [n_bn|] eqn:Hn; [|done].
    destruct (BN_bin2bn e) as [e_bn|] eqn:He; [|done].
    destruct (rsa_fromdata n_bn e_bn) as [pkey|] eqn:Hk; [|done].
    exists n, e, n_bn, e_bn, pkey. split_and!; try done.
    destruct (Z.leb_spec 512 (EVP_PKEY_get_bits pkey)), (Z.ltb_spec (EVP_PKEY_get_bits pkey) 2048),
      (Z.ltb_spec (EVP_PKEY_get_bits pkey) 512); simpl in Hp; simplify_eq; lia.
  - exists d. split; [done|]. assert (jwt_verify a (config_of opts) d = None) as Hv.
    { unfold VerifyJwt in Hok. destruct (sempty token); [done|]. rewrite Hd, Halg in Hok. simpl in Hok.
      rewrite Hf, Ha, Hpem in Hok. simpl in Hok. unfold VerifyWithVerifier in Hok.
      rewrite Hc, Hctor in Hok. destruct (jwt_verify _ _ _) as [ec|]; [|done].
      destruct (ec_signature_category ec); [done|]. unfold MapVerificationError in Hok.
      destruct (ec_value ec); try done. destruct (has_claim _); [|done].
      apply exc_bind_Ret in Hok as (? & _ & Hok). by destruct (_ <? _). }
    split_and!.
    + intros Hi%sempty_false. apply (jwt_verify_issuer a (config_of opts)); [done|]. simpl. by rewrite Hi.
    + intros Hi%sempty_false. apply (jwt_verify_audience a (config_of opts)); [done|]. simpl. by rewrite Hi.
    + exists (clamped_skew opts). split; [apply clamp_bounds; lia|]. split; intros t Ht.
      * by apply (jwt_verify_exp _ _ _ _ Hv).
      * by apply (jwt_verify_nbf _ _ _ _ Hv).
Qed.
End properties.

(** ** Evaluations *)
Definition toy_key (n : string) : Jwk := mkJwk "a" "RSA" "" "" n "AQAB" "" "" "".
Definition toy_opts (now_s : Z) : VerifyOptions := mkVerifyOptions "idp" "app" 60 now_s [].

Section evaluations.
#[local] Existing Instance toy_json.
#[local] Existing Instance toy_jwt.
#[local] Existing Instance toy_ssl.
#[local] Existing Instance toy_jwt_laws.

Example verify_ok : VerifyJwt "RS256/a/n1/idp/app/2000" (toy_key "bjE") (toy_opts 1000) = Ret Ok.
Proof. vm_compute. reflexivity. Qed.
Example verify_wrong_key : VerifyJwt "RS256/a/n1/idp/app/2000" (toy_key "bjI") (toy_opts 1000) = Ret InvalidSignature.
Proof. vm_compute. reflexivity. Qed.
Example verify_expired : VerifyJwt "RS256/a/n1/idp/app/2000" (toy_key "bjE") (toy_opts 2061) = Ret Expired.
Proof. vm_compute. reflexivity. Qed.
Example verify_wrong_issuer : VerifyJwt "RS256/a/n1/evil/app/2000" (toy_key "bjE") (toy_opts 1000) = Ret WrongIssuer.
Proof. vm_compute. reflexivity. Qed.

Lemma forbidden_algorithm_rejected_witness :
  "HS256/a/n1" ≠ "" ∧
  VerifyJwt "HS256/a/n1" (toy_key "bjE") (mkVerifyOptions "" "" 60 1000 ["HS256"]) = Ret DisallowedAlgorithm.
Proof.
  split; [done|]. eapply (forbidden_algorithm_rejected "HS256/a/n1" _ "HS256");
    [done|vm_compute; reflexivity|vm_compute; reflexivity|]. do 2 right. left. reflexivity.
Defined.

Lemma VerifyJwt_accepts_soundly_witness :
  VerifyJwt "RS256/a/n1/idp/app/2000" (toy_key "bjE") (toy_opts 1000) = Ret Ok ∧
  key_signed "RS256/a/n1/idp/app/2000" (toy_key "bjE") (toy_opts 1000).
Proof.
  assert (VerifyJwt "RS256/a/n1/idp/app/2000" (toy_key "bjE") (toy_opts 1000) = Ret Ok) as Hok
    by (vm_compute; reflexivity).
  split; [exact Hok|]. exact (proj1 (VerifyJwt_accepts_soundly _ _ _ Hok)).
Defined.
End evaluations.
