(* ===== verification/Validator.v ===== *)
(** * Token validation ([src/include/validator.hpp], [src/validator.cpp])

    The orchestration of parsing, cache, fetch and verification.  The HTTP client
    and the cache are references into a world [W] shared with other threads: the
    mutex is dropped around [Get], so the world may change arbitrarily there.
    A nullable [RefreshEvent *] is an [option RefreshEvent] passed in and out. *)
From S2P Require Import Prelude CppString StdList JwksCache Http External Toy Json JwtParse JwtVerify.

Inductive RefreshReason : Type :=
  | RNone | Rotated | NoRotation | Throttled | BudgetThrottled | FetchFailed | ParseFailed
  | KidAbsent | KidEvicted | Revoked | Superseded.
#[export] Instance RefreshReason_eq_dec : EqDecision RefreshReason.
Proof. solve_decision. Defined.

Definition ToString (r : RefreshReason) : string :=
  match r with
  | Rotated => "refresh_rotated"
  | NoRotation => "refresh_no_rotation"
  | Throttled => "refresh_throttled"
  | BudgetThrottled => "refresh_budget_throttled"
  | FetchFailed => "refresh_fetch_failed"
  | ParseFailed => "refresh_parse_failed"
  | KidAbsent => "refresh_kid_absent"
  | KidEvicted => "refresh_kid_evicted"
  | Revoked => "refresh_revoked"
  | Superseded => "refresh_superseded"
  | RNone => ""
  end.

Definition ShouldAudit (r : RefreshReason) : bool :=
  match r with
  | Throttled | BudgetThrottled | RNone => false
  | _ => true
  end.

Record RefreshEvent : Type := mkRefreshEvent {
  re_kid : string;
  re_reason : string;
  re_reason_enum : RefreshReason;
}.
Definition RefreshEvent_default : RefreshEvent := mkRefreshEvent "" "" RNone.
(** [out->kid = kid; out->SetReason(r);] *)
Definition set_event (kid : string) (r : RefreshReason) (out : option RefreshEvent) : option RefreshEvent :=
  (λ _, mkRefreshEvent kid (ToString r) r) <$> out.

Record ValidateContext (W : Type) : Type := mkValidateContext {
  vx_http : IHttpClient W;
  vx_jwks_cache : Ref W JwksCache;
  vx_jwks_uri : string;
}.
Arguments mkValidateContext {W} _ _ _.
Arguments vx_http {W} _.
Arguments vx_jwks_cache {W} _.
Arguments vx_jwks_uri {W} _.

(** ** Helpers on keys *)
Definition JwkMatchesTokenHeader (k : Jwk) (token_alg : string) : bool :=
  if negb (sempty (jwk_use k)) && negb (seqb (jwk_use k) "sig") then false
  else if negb (sempty (jwk_alg k)) && negb (seqb (jwk_alg k) token_alg) then false
  else true.

Definition IsCachedKeyUnusable (res : VerifyResult) : bool :=
  match res with InvalidSignature | UnusableKey => true | _ => false end.

Definition MatchingKeys (keys : list Jwk) (alg : string) : list Jwk :=
  List.filter (λ k, JwkMatchesTokenHeader k alg) keys.

(** [keys_by_kid[k.kid].push_back(k)] for the signing keys. *)
Definition GroupSigningKeysByKid (keys : list Jwk) : gmap string (list Jwk) :=
  foldl (λ m k, if sempty (jwk_use k) || seqb (jwk_use k) "sig"
                then <[jwk_kid k := default [] (m !! jwk_kid k) ++ [k]]> m else m) ∅ keys.

(** [out_verified] after the search, with the position it was found at moved first. *)
Definition swap_first (i : nat) (l : list Jwk) : list Jwk :=
  match l !! 0%nat, l !! i with
  | Some a, Some b => <[0%nat := b]> (<[i := a]> l)
  | _, _ => l
  end.

Definition existsKey (f : Jwk → bool) (l : list Jwk) : bool := existsb f l.

Definition PrioritizeNewKeys (candidates existing_keys : list Jwk) : list Jwk :=
  if (length candidates <=? kMaxKeysPerKid)%nat || bool_decide (existing_keys = []) then candidates
  else
    let is_old k := existsKey (λ old_k, SameKeyMaterial k old_k) existing_keys in
    List.filter (λ k, negb (is_old k)) candidates ++ List.filter is_old candidates.

Section validator.
Context `{!PicoJson, !JwtCpp, !OpenSsl, !UMapOrder}.

Definition ScreenUsableKeys (raw_keys : list Jwk) : list Jwk :=
  foldl (λ valid cand,
    if IsUsableSigningKey cand then
      if existsKey (λ existing, SameKeyMaterial existing cand) valid then valid else valid ++ [cand]
    else valid) [] raw_keys.

Fixpoint VerifyWithCachedKeys_loop (token : string) (opts : VerifyOptions) (keys : list Jwk)
    (all_unsupported saw_invalid_sig : bool) (fallback_failure : VerifyResult) : exc VerifyResult :=
  match keys with
  | [] =>
      Ret (if saw_invalid_sig then InvalidSignature
           else if all_unsupported then UnsupportedKeyType
           else fallback_failure)
  | k :: keys =>
      res ← VerifyJwt token k opts;
      if SignatureMatchesCandidate res then Ret res
      else if decide (res = InvalidSignature) then
        VerifyWithCachedKeys_loop token opts keys all_unsupported true fallback_failure
      else if decide (res ≠ UnsupportedKeyType) then
        VerifyWithCachedKeys_loop token opts keys false saw_invalid_sig res
      else VerifyWithCachedKeys_loop token opts keys all_unsupported saw_invalid_sig fallback_failure
  end.

Definition VerifyWithCachedKeys (token : string) (keys : list Jwk) (opts : VerifyOptions) : exc VerifyResult :=
  match keys with
  | [] => Ret UnknownKid
  | _ => VerifyWithCachedKeys_loop token opts keys true false InvalidSignature
  end.

Definition VerifyAgainstCachedKid (token alg : string) (cached_keys : list Jwk) (opts : VerifyOptions)
    : exc VerifyResult :=
  match MatchingKeys cached_keys alg with
  | [] => Ret NoMatchingKey
  | matching => VerifyWithCachedKeys token matching opts
  end.

Fixpoint SelectAndVerify (token token_alg : string) (candidates : list Jwk) (opts : VerifyOptions)
    : exc (option VerifyResult) :=
  match candidates with
  | [] => Ret None
  | cand :: candidates =>
      if JwkMatchesTokenHeader cand token_alg then
        res ← VerifyJwt token cand opts;
        if SignatureMatchesCandidate res then Ret (Some res)
        else SelectAndVerify token token_alg candidates opts
      else SelectAndVerify token token_alg candidates opts
  end.

(** The search loop from index [i]; [all] is the whole vector. *)
Fixpoint PrioritizeMatchingKey_loop (rest : list Jwk) (i : nat) (all : list Jwk) (token token_alg : string)
    (opts : VerifyOptions) (out_verified : option VerifyResult) : exc (list Jwk * option VerifyResult) :=
  match rest with
  | [] => Ret (all, out_verified)
  | cand :: rest =>
      res ← SelectAndVerify token token_alg [cand] opts;
      match res with
      | Some r =>
          if SignatureMatchesCandidate r then
            Ret (if (0 <? i)%nat then swap_first i all else all, res)
          else PrioritizeMatchingKey_loop rest (S i) all token token_alg opts out_verified
      | None => PrioritizeMatchingKey_loop rest (S i) all token token_alg opts out_verified
      end
  end.

Definition PrioritizeMatchingKey (candidates : list Jwk) (token token_alg : string) (opts : VerifyOptions)
    (out_verified : option VerifyResult) : exc (list Jwk * option VerifyResult) :=
  if (length candidates <=? 1)%nat then Ret (candidates, out_verified)
  else PrioritizeMatchingKey_loop candidates 0 candidates token token_alg opts out_verified.

(** ** Operations on the shared state *)
Section effects.
Context {W : Type}.
Implicit Types (ctx : ValidateContext W) (out_refresh : option RefreshEvent).

Definition CommitAndAudit (kid : string) (reservation_id : Z) (candidates cached_keys : list Jwk) (now_s : Z)
    ctx out_refresh : M W (bool * option RefreshEvent) :=
  let has_new_material :=
    existsKey (λ cand, negb (existsKey (λ cached, SameKeyMaterial cand cached) cached_keys)) candidates in
  let has_removed_material :=
    existsKey (λ cached, negb (existsKey (λ cand, SameKeyMaterial cand cached) candidates)) cached_keys in
  committed ← ref_run (vx_jwks_cache ctx)
    (λ c, CommitRefresh c kid reservation_id candidates now_s (vx_jwks_uri ctx));
  mret (committed, set_event kid
    (if (committed : bool) then
       if has_new_material then Rotated else if has_removed_material then Revoked else NoRotation
     else Superseded) out_refresh).

Definition present_kids_of (keys_by_kid : gmap string (list Jwk)) : gset string :=
  list_to_set (List.filter (λ k, negb (sempty k)) (um_iter keys_by_kid).*1).

Definition IngestSiblingKeys (keys_by_kid : gmap string (list Jwk)) (target_kid : string) (now_s : Z) ctx : M W unit :=
  _ ← ref_call (vx_jwks_cache ctx)
        (λ c, ReconcileAbsentKids c (present_kids_of keys_by_kid) now_s (vx_jwks_uri ctx) target_kid);
  M_fold (λ _ '(s_kid, s_keys),
    if negb (seqb s_kid target_kid) then
      let usable := ScreenUsableKeys s_keys in
      if bool_decide (usable = []) then mret tt
      else ref_call (vx_jwks_cache ctx) (λ c, OnPassiveFetchSuccess c s_kid usable now_s (vx_jwks_uri ctx))
    else mret tt) tt (um_iter keys_by_kid).

Definition FetchAndParseJwks (kid : string) (opts : VerifyOptions) ctx out_refresh
    : M W (option (list Jwk) * option RefreshEvent) :=
  _ ← ref_upd (vx_jwks_cache ctx) (λ c, RecordJwksFetch c (vo_now_s opts));
  refresh ← Get (vx_http ctx) (vx_jwks_uri ctx);
  match refresh with
  | Some r =>
      if negb (status_code r =? 200) then mret (None, set_event kid FetchFailed out_refresh)
      else
        match ParseJwksJson (body r) with
        | [] => mret (None, set_event kid ParseFailed out_refresh)
        | keys =>
            _ ← ref_upd (vx_jwks_cache ctx) (λ c, RecordJwksFetchSuccess c (vo_now_s opts) (vx_jwks_uri ctx));
            mret (Some keys, out_refresh)
        end
  | None => mret (None, set_event kid FetchFailed out_refresh)
  end.

Definition CommitTargetKid (kid : string) (reservation_id : Z) (token token_alg : string)
    (keys_by_kid : gmap string (list Jwk)) (opts : VerifyOptions) ctx out_refresh
    (out_verified : option VerifyResult) : M W (option VerifyResult * option RefreshEvent) :=
  match keys_by_kid !! kid with
  | None =>
      match out_refresh with
      | Some _ =>
          evicted ← ref_run (vx_jwks_cache ctx)
            (λ c, RecordKidAbsent c kid reservation_id (vo_now_s opts) (vx_jwks_uri ctx));
          mret (out_verified, set_event kid (if (evicted : bool) then KidEvicted else KidAbsent) out_refresh)
      | None => mret (out_verified, out_refresh)
      end
  | Some raw =>
      match ScreenUsableKeys raw with
      | [] => mret (out_verified, set_event kid ParseFailed out_refresh)
      | candidates =>
          '(candidates, out_verified) ←
            lift (PrioritizeMatchingKey candidates token token_alg opts out_verified);
          live_lookup ← ref_read (vx_jwks_cache ctx)
            (λ c, Lookup c kid (vo_now_s opts) (vx_jwks_uri ctx));
          let candidates :=
            match out_verified with
            | None => PrioritizeNewKeys candidates (jl_keys live_lookup)
            | Some _ => candidates
            end in
          '(committed, out_refresh) ←
            CommitAndAudit kid reservation_id candidates (jl_keys live_lookup) (vo_now_s opts) ctx out_refresh;
          mret (if (committed : bool) then out_verified else None, out_refresh)
      end
  end.

Definition ReverifyAfterCommit (token kid token_alg : string) (opts : VerifyOptions) ctx
    (cached_verified : option VerifyResult) : M W VerifyResult :=
  match cached_verified with
  | Some r => mret r
  | None =>
      recheck ← ref_read (vx_jwks_cache ctx) (λ c, Lookup c kid (vo_now_s opts) (vx_jwks_uri ctx));
      if bool_decide (jl_status recheck = Hit) && negb (bool_decide (jl_keys recheck = [])) then
        match MatchingKeys (jl_keys recheck) token_alg with
        | [] => mret NoMatchingKey
        | matching =>
            verified_result ← lift (SelectAndVerify token token_alg matching opts);
            mret (default InvalidSignature verified_result)
        end
      else mret InvalidSignature
  end.

(** [local_refresh] stands in for a null [out_refresh]; the caller's pointer is
    written only when it is not null. *)
Definition write_back (out_refresh : option RefreshEvent) (effective : option RefreshEvent) : option RefreshEvent :=
  match out_refresh with Some _ => effective | None => None end.

Definition event_reason (effective : option RefreshEvent) : RefreshReason :=
  match effective with Some e => re_reason_enum e | None => RNone end.

Definition TryRefreshRotatedKid (token kid token_alg : string) (opts : VerifyOptions) ctx out_refresh
    : M W (option VerifyResult * option RefreshEvent) :=
  let cache := vx_jwks_cache ctx in
  let now_s := vo_now_s opts in
  let effective := Some (default RefreshEvent_default out_refresh) in
  can ← ref_read cache (λ c, CanFetchJwks c now_s);
  if negb can then
    _ ← ref_upd cache (λ c, IncrementThrottledRefreshes c true now_s);
    _ ← ref_upd cache (λ c, SetLastRefreshReason c (ToString BudgetThrottled));
    mret (None, write_back out_refresh (set_event kid BudgetThrottled effective))
  else
    reservation_id ← ref_run cache (λ c, Ret (TryReserveRefresh c kid now_s (vx_jwks_uri ctx)));
    if reservation_id =? 0 then
      _ ← ref_upd cache (λ c, IncrementThrottledRefreshes c false now_s);
      _ ← ref_upd cache (λ c, SetLastRefreshReason c (ToString Throttled));
      mret (None, write_back out_refresh (set_event kid Throttled effective))
    else
      '(keys, effective) ← FetchAndParseJwks kid opts ctx effective;
      match keys with
      | None =>
          _ ← ref_upd cache (λ c, SetLastRefreshReason c (ToString (event_reason effective)));
          mret (None, write_back out_refresh effective)
      | Some keys =>
          let keys_by_kid := GroupSigningKeysByKid keys in
          '(verified_candidate, effective) ←
            CommitTargetKid kid reservation_id token token_alg keys_by_kid opts ctx effective None;
          _ ← IngestSiblingKeys keys_by_kid kid now_s ctx;
          _ ← ref_upd cache (λ c, SetLastRefreshReason c (ToString (event_reason effective)));
          r ← ReverifyAfterCommit token kid token_alg opts ctx verified_candidate;
          mret (Some r, write_back out_refresh effective)
      end.

(** The ingestion loop of the cold path, with [cold_verified]. *)
Definition IngestAllKeys (token : string) (parsed : JwtParsed) (opts : VerifyOptions) ctx
    (keys_by_kid : gmap string (list Jwk)) : M W (option VerifyResult) :=
  M_fold (λ cold_verified '(k_kid, k_keys),
    let usable := ScreenUsableKeys k_keys in
    if bool_decide (usable = []) then mret cold_verified
    else
      '(usable, cold_verified) ←
        (if seqb k_kid (jp_kid parsed) then
           lift (PrioritizeMatchingKey usable token (jp_alg parsed) opts cold_verified)
         else mret (usable, cold_verified));
      _ ← ref_call (vx_jwks_cache ctx)
            (λ c, OnPassiveFetchSuccess c k_kid usable (vo_now_s opts) (vx_jwks_uri ctx));
      mret cold_verified) None (um_iter keys_by_kid).

(** The result when the fetched document gave no usable key for the kid. *)
Definition AbsentKidResult (keys : list Jwk) (keys_by_kid : gmap string (list Jwk)) (kid : string) : VerifyResult :=
  match keys_by_kid !! kid with
  | Some ks =>
      if existsKey (λ k, seqb (jwk_kty k) "RSA" && (JwkRsaToPem k).2) ks then UnsupportedKeyType else UnusableKey
  | None => if existsKey (λ k, seqb (jwk_kid k) kid) keys then NoMatchingKey else UnknownKid
  end.

(** A cache miss with the fetch allowed. *)
Definition ColdFetch (token : string) (parsed : JwtParsed) (opts : VerifyOptions) ctx : M W VerifyResult :=
  let cache := vx_jwks_cache ctx in
  let uri := vx_jwks_uri ctx in
  let now_s := vo_now_s opts in
  _ ← ref_upd cache (λ c, RecordJwksFetch c now_s);
  resp ← Get (vx_http ctx) uri;
  match resp with
  | None => mret JwksFetchFailed
  | Some r =>
      if negb (status_code r =? 200) then mret JwksFetchFailed
      else
        match ParseJwksJson (body r) with
        | [] =>
            _ ← ref_call cache (λ c, OnFetchMiss c (jp_kid parsed) now_s uri);
            mret UnknownKid
        | keys =>
            _ ← ref_upd cache (λ c, RecordJwksFetchSuccess c now_s uri);
            let keys_by_kid := GroupSigningKeysByKid keys in
            cold_verified ← IngestAllKeys token parsed opts ctx keys_by_kid;
            second_lookup ← ref_read cache (λ c, Lookup c (jp_kid parsed) now_s uri);
            if negb (bool_decide (jl_status second_lookup = Hit)) || bool_decide (jl_keys second_lookup = []) then
              _ ← ref_call cache (λ c, OnFetchMiss c (jp_kid parsed) now_s uri);
              mret (AbsentKidResult keys keys_by_kid (jp_kid parsed))
            else
              match cold_verified with
              | Some r =>
                  if SignatureMatchesCandidate r then mret r
                  else lift (VerifyAgainstCachedKid token (jp_alg parsed) (jl_keys second_lookup) opts)
              | None => lift (VerifyAgainstCachedKid token (jp_alg parsed) (jl_keys second_lookup) opts)
              end
        end
  end.

(** A cache hit. *)
Definition CachedKid (token : string) (parsed : JwtParsed) (opts : VerifyOptions) ctx out_refresh
    (cached_keys : list Jwk) : M W (VerifyResult * option RefreshEvent) :=
  match MatchingKeys cached_keys (jp_alg parsed) with
  | [] =>
      '(refreshed, out_refresh) ← TryRefreshRotatedKid token (jp_kid parsed) (jp_alg parsed) opts ctx out_refresh;
      mret (default NoMatchingKey refreshed, out_refresh)
  | matching =>
      cached_result ← lift (VerifyWithCachedKeys token matching opts);
      if negb (IsCachedKeyUnusable cached_result) then mret (cached_result, out_refresh)
      else
        '(refreshed, out_refresh) ← TryRefreshRotatedKid token (jp_kid parsed) (jp_alg parsed) opts ctx out_refresh;
        mret (default cached_result refreshed, out_refresh)
  end.

Definition ValidateToken (token : string) (opts : VerifyOptions) ctx out_refresh
    : M W (VerifyResult * option RefreshEvent) :=
  let cache := vx_jwks_cache ctx in
  let uri := vx_jwks_uri ctx in
  let now_s := vo_now_s opts in
  match ParseJwt token with
  | None => mret (Malformed, out_refresh)
  | Some parsed =>
      if IsForbiddenAlgorithm (jp_alg parsed)
         || negb (IsAlgorithmAllowed (jp_alg parsed) (vo_allowed_algorithms opts)) then
        mret (DisallowedAlgorithm, out_refresh)
      else if sempty (jp_kid parsed) then mret (UnknownKid, out_refresh)
      else
        first_lookup ← ref_read cache (λ c, Lookup c (jp_kid parsed) now_s uri);
        match jl_status first_lookup with
        | Hit => CachedKid token parsed opts ctx out_refresh (jl_keys first_lookup)
        | RateLimited =>
            _ ← ref_upd cache (λ c, IncrementThrottledRefreshes c false now_s);
            mret (JwksThrottled, set_event (jp_kid parsed) Throttled out_refresh)
        | Miss =>
            fresh ← ref_read cache (λ c, HasFreshJwksDocument c now_s kGlobalFetchBudgetWindowSeconds uri);
            if (fresh : bool) then mret (UnknownKid, out_refresh)
            else
              can ← ref_read cache (λ c, CanFetchJwks c now_s);
              if negb can then
                _ ← ref_upd cache (λ c, IncrementThrottledRefreshes c true now_s);
                mret (JwksThrottled, set_event (jp_kid parsed) BudgetThrottled out_refresh)
              else
                r ← ColdFetch token parsed opts ctx;
                mret (r, out_refresh)
        end
  end.
End effects.

(** ** Lemmas on keys *)
Lemma MatchingKeys_elem keys alg k :
  k ∈ MatchingKeys keys alg → k ∈ keys ∧ JwkMatchesTokenHeader k alg = true.
Proof. unfold MatchingKeys. rewrite !list_elem_of_In. by intros [??]%filter_In. Qed.

Lemma ScreenUsableKeys_elem raw k :
  k ∈ ScreenUsableKeys raw → k ∈ raw ∧ IsUsableSigningKey k = true.
Proof.
  unfold ScreenUsableKeys.
  assert (∀ acc, (∀ k, k ∈ acc → k ∈ raw ∧ IsUsableSigningKey k = true) → ∀ l, (∀ k, k ∈ l → k ∈ raw) →
    ∀ k, k ∈ foldl (λ valid cand,
      if IsUsableSigningKey cand then
        if existsKey (λ existing, SameKeyMaterial existing cand) valid then valid else valid ++ [cand]
      else valid) acc l → k ∈ raw ∧ IsUsableSigningKey k = true) as Hgen.
  { intros acc Hacc l. revert acc Hacc. induction l as [|c l IH]; intros acc Hacc Hl k'; [apply Hacc|].
    simpl. apply IH; [|set_solver]. destruct (IsUsableSigningKey c) eqn:Hc; [|done].
    destruct (existsKey _ _); [done|]. intros k0 [?| ->%list_elem_of_singleton]%elem_of_app; [auto|].
    split; [apply Hl; left|done]. }
  apply Hgen; set_solver.
Qed.

Lemma GroupSigningKeysByKid_elem keys kid ks k :
  GroupSigningKeysByKid keys !! kid = Some ks → k ∈ ks → k ∈ keys ∧ jwk_kid k = kid.
Proof.
  unfold GroupSigningKeysByKid.
  assert (∀ l (m : gmap string (list Jwk)), (∀ kid ks k, m !! kid = Some ks → k ∈ ks → k ∈ keys ∧ jwk_kid k = kid) →
    (∀ k, k ∈ l → k ∈ keys) →
    ∀ kid ks k, foldl (λ m k, if sempty (jwk_use k) || seqb (jwk_use k) "sig"
                   then <[jwk_kid k := default [] (m !! jwk_kid k) ++ [k]]> m else m) m l !! kid = Some ks →
    k ∈ ks → k ∈ keys ∧ jwk_kid k = kid) as Hgen.
  { induction l as [|c l IH]; intros m Hm Hl kid' ks' k'; [apply Hm|]. simpl. apply IH; [|set_solver].
    destruct (_ || _); [|done]. intros kid0 ks0 k0. destruct (decide (jwk_kid c = kid0)) as [<-|].
    - rewrite lookup_insert_eq. intros [= <-] [Hin| ->%list_elem_of_singleton]%elem_of_app.
      + destruct (m !! jwk_kid c) as [ks1|] eqn:Hks1; [eauto|]. by apply not_elem_of_nil in Hin.
      + split; [apply Hl; left|done].
    - rewrite lookup_insert_ne by done. apply Hm. }
  apply Hgen; [|done]. intros ???. by rewrite lookup_empty.
Qed.

(** ** Verification loops: total on a parsed token, and sound *)

(** A result that some key of a list, fit for the token's header, gives. *)
Definition given_by_one_of (token alg : string) (opts : VerifyOptions) (r : VerifyResult) (ks : list Jwk) : Prop :=
  ∃ k, k ∈ ks ∧ JwkMatchesTokenHeader k alg = true ∧ VerifyJwt token k opts = Ret r.

Lemma signed_by_mono token alg opts r ks ks' :
  (∀ k, k ∈ ks → k ∈ ks') → given_by_one_of token alg opts r ks → given_by_one_of token alg opts r ks'.
Proof. intros Hsub (k & ? & ? & ?). exists k. auto. Qed.

Lemma VerifyJwt_total token p k opts :
  ParseJwt token = Some p → ∃ r, VerifyJwt token k opts = Ret r.
Proof.
  intros (d & Hne & Hd & Halg & _ & _ & _ & _ & _ & Hnbf)%ParseJwt_Some.
  unfold VerifyJwt. rewrite (proj2 (sempty_false token) Hne), Hd, Halg. simpl.
  destruct (_ || _); [by eexists|]. destruct (jwk_pem k) as [r|[pem|]]; [by eexists| |by eexists].
  unfold VerifyWithVerifier. destruct (alg_ctor _) as [ctor|]; [|by eexists].
  destruct (jwt_algorithm_ctor _ _) as [a|]; [|by eexists].
  destruct (jwt_verify _ _ _) as [ec|]; [|by eexists]. destruct (ec_signature_category ec); [by eexists|].
  destruct (ec_value ec); try by eexists. destruct (has_claim _) eqn:Hc; [|by eexists].
  unfold claim_seconds in Hnbf. rewrite Hc in Hnbf. rewrite Hnbf. simpl. by eexists.
Qed.

Section loops.
Context (token : string) (parsed : JwtParsed) (opts : VerifyOptions).
Hypothesis Hparsed : ParseJwt token = Some parsed.
Local Abbreviation signed := (given_by_one_of token (jp_alg parsed) opts).

Lemma VerifyWithCachedKeys_loop_spec ks au si ff :
  (∀ k, k ∈ ks → JwkMatchesTokenHeader k (jp_alg parsed) = true) →
  SignatureMatchesCandidate ff = false →
  ∃ r, VerifyWithCachedKeys_loop token opts ks au si ff = Ret r ∧
    (SignatureMatchesCandidate r = true → signed r ks).
Proof.
  revert au si ff. induction ks as [|k ks IH]; intros au si ff Hhd Hff; simpl.
  - eexists. split; [done|]. destruct si, au; simpl; congruence.
  - destruct (VerifyJwt_total token parsed k opts Hparsed) as [r Hr]. rewrite Hr. simpl.
    destruct (SignatureMatchesCandidate r) eqn:Hs.
    { exists r. split; [done|]. intros _. exists k. split_and!; [left|apply Hhd; left|done]. }
    assert (∀ au si ff, SignatureMatchesCandidate ff = false → ∃ r,
      VerifyWithCachedKeys_loop token opts ks au si ff = Ret r ∧
      (SignatureMatchesCandidate r = true → signed r (k :: ks))) as IH'.
    { intros au' si' ff' Hff'. destruct (IH au' si' ff') as (r' & ? & Hr'); [|done|].
      - intros k' Hk'. apply Hhd. by right.
      - exists r'. split; [done|]. intros ?. eapply signed_by_mono; [|by apply Hr']. intros; by right. }
    repeat case_decide; by apply IH'.
Qed.

Lemma VerifyWithCachedKeys_spec ks :
  (∀ k, k ∈ ks → JwkMatchesTokenHeader k (jp_alg parsed) = true) →
  ∃ r, VerifyWithCachedKeys token ks opts = Ret r ∧ (SignatureMatchesCandidate r = true → signed r ks).
Proof.
  intros Hhd. unfold VerifyWithCachedKeys. destruct ks; [by eexists|].
  by apply VerifyWithCachedKeys_loop_spec.
Qed.

Lemma VerifyAgainstCachedKid_spec ks :
  ∃ r, VerifyAgainstCachedKid token (jp_alg parsed) ks opts = Ret r ∧
    (SignatureMatchesCandidate r = true → signed r ks).
Proof.
  unfold VerifyAgainstCachedKid. destruct (MatchingKeys ks (jp_alg parsed)) as [|k l] eqn:Hm; [by eexists|].
  destruct (VerifyWithCachedKeys_spec (k :: l)) as (r & Hr & Hs).
  - intros k'. rewrite <-Hm. by intros [_ ?]%MatchingKeys_elem.
  - exists r. split; [done|]. intros ?. eapply signed_by_mono; [|by apply Hs].
    intros k'. rewrite <-Hm. by intros [? _]%MatchingKeys_elem.
Qed.

Lemma SelectAndVerify_spec ks :
  ∃ o, SelectAndVerify token (jp_alg parsed) ks opts = Ret o ∧
    ∀ r, o = Some r → SignatureMatchesCandidate r = true ∧ signed r ks.
Proof.
  induction ks as [|k ks (o & Ho & IH)]; simpl; [by eexists|].
  assert (∃ o, SelectAndVerify token (jp_alg parsed) ks opts = Ret o ∧
    ∀ r, o = Some r → SignatureMatchesCandidate r = true ∧ signed r (k :: ks)) as IH'.
  { exists o. split; [done|]. intros r [? ?]%IH. split; [done|].
    eapply signed_by_mono; [|done]. intros; by right. }
  destruct (JwkMatchesTokenHeader k (jp_alg parsed)) eqn:Hk; [|done].
  destruct (VerifyJwt_total token parsed k opts Hparsed) as [r Hr]. rewrite Hr. simpl.
  destruct (SignatureMatchesCandidate r) eqn:Hs; [|done]. exists (Some r). split; [done|].
  intros r' [= <-]. split; [done|]. exists k. split_and!; [left|done|done].
Qed.

Lemma swap_first_perm i l : swap_first i l ≡ₚ l.
Proof.
  unfold swap_first. destruct (l !! 0%nat) as [a|] eqn:H0a; [|done].
  destruct (l !! i) as [b|] eqn:Hb; [|done]. destruct l as [|a' l]; [done|]. simpl in H0a. simplify_eq.
  destruct i as [|i]; simpl in *; [by simplify_eq|].
  rewrite (insert_take_drop l i) by (by eapply lookup_lt_Some).
  rewrite <-(take_drop_middle l i b) at 3 by done. solve_Permutation.
Qed.

Lemma PrioritizeMatchingKey_spec ks out :
  ∃ ks' out', PrioritizeMatchingKey ks token (jp_alg parsed) opts out = Ret (ks', out') ∧ ks' ≡ₚ ks ∧
    (out' = out ∨ ∃ r, out' = Some r ∧ SignatureMatchesCandidate r = true ∧ signed r ks).
Proof.
  unfold PrioritizeMatchingKey. destruct (_ <=? _)%nat; [by eexists _, _; eauto|].
  assert (∀ rest i, (∀ k, k ∈ rest → k ∈ ks) →
    ∃ ks' out', PrioritizeMatchingKey_loop rest i ks token (jp_alg parsed) opts out = Ret (ks', out') ∧
      ks' ≡ₚ ks ∧ (out' = out ∨ ∃ r, out' = Some r ∧ SignatureMatchesCandidate r = true ∧ signed r ks)) as Hloop.
  { induction rest as [|k rest IH]; intros i Hsub; [by eexists _, _; eauto|].
    assert (∀ k, k ∈ rest → k ∈ ks) as Hsub' by (intros; apply Hsub; by right).
    cbn [PrioritizeMatchingKey_loop]. destruct (SelectAndVerify_spec [k]) as (o & -> & Ho). cbn [mbind exc_bind].
    destruct o as [r|]; [|by apply IH]. destruct (Ho r eq_refl) as [Hs Hk]. rewrite Hs.
    eexists _, _. split_and!; [done|by destruct (0 <? i)%nat; [apply swap_first_perm|]|].
    right. exists r. split_and!; [done|done|]. eapply signed_by_mono; [|done].
    intros k' ->%list_elem_of_singleton. apply Hsub. left. }
  by apply Hloop.
Qed.
End loops.

(** ** One validation, against an invariant of the shared world

    [I false] holds until this call has sent its request and [I true] after it;
    the cache is well formed and every key in it satisfies [T].  The hypotheses
    are what the proofs need of the rest of the world: the invariant survives a
    cache update that keeps these facts and the fetch stamp, and it survives a
    fetch that the budget allows, during which other threads may run. *)
Section invariant.
Context {W : Type} (ctx : ValidateContext W) `{!RefLaws (vx_jwks_cache ctx)}.
Context (T : string → Jwk → Prop) (I : bool → W → Prop).
Context (token : string) (parsed : JwtParsed) (opts : VerifyOptions).
Local Abbreviation C w := (ref_get (vx_jwks_cache ctx) w).
Local Abbreviation uri := (vx_jwks_uri ctx).
Local Abbreviation now_s := (vo_now_s opts).

Definition good (c : JwksCache) : Prop := jc_wf c ∧ jc_trusted T c.
Definition good_update (c c' : JwksCache) : Prop :=
  good c' ∧ last_global_fetch_s_ c' = last_global_fetch_s_ c.
Definition published (r : option Response) : Prop :=
  ∀ resp, r = Some resp → status_code resp = 200 →
    Forall (λ k, T (CacheKey uri (jwk_kid k)) k) (ParseJwksJson (body resp)).

Hypothesis Hparsed : ParseJwt token = Some parsed.
Hypothesis I_good : ∀ b w, I b w → good (C w).
Hypothesis I_update : ∀ b w c, I b w → good_update (C w) c → I b (ref_set (vx_jwks_cache ctx) c w).
Hypothesis I_fetch : ∀ w, I false w → CanFetchJwks (C w) now_s = true →
  ∃ r w', Get (vx_http ctx) uri (ref_set (vx_jwks_cache ctx) (RecordJwksFetch (C w) now_s) w) = (Ret r, w') ∧
    I true w' ∧ published r.

(** What an accepting result promises. *)
Definition accepted (r : VerifyResult) : Prop :=
  SignatureMatchesCandidate r = true →
  ∃ k, T (CacheKey uri (jp_kid parsed)) k ∧ JwkMatchesTokenHeader k (jp_alg parsed) = true ∧
       VerifyJwt token k opts = Ret r.

Lemma accepted_not r : SignatureMatchesCandidate r = false → accepted r.
Proof. intros Hr Hs. congruence. Qed.

Lemma accepted_signed r ks :
  Forall (T (CacheKey uri (jp_kid parsed))) ks →
  (SignatureMatchesCandidate r = true → given_by_one_of token (jp_alg parsed) opts r ks) → accepted r.
Proof.
  intros HT Hs Hr. destruct (Hs Hr) as (k & Hk & ? & ?). exists k. split_and!; [|done..].
  by eapply Forall_forall in HT.
Qed.

Lemma inv_upd b (P : W → Prop) f (Q : unit → W → Prop) :
  (∀ w, P w → I b w) → (∀ w, P w → good_update (C w) (f (C w))) → (∀ w, I b w → Q tt w) →
  hoare P (ref_upd (vx_jwks_cache ctx) f) Q.
Proof. intros HP Hf HQ. apply hoare_upd. intros w Hw. apply HQ, I_update; auto. Qed.

Lemma inv_call b (P : W → Prop) f (Q : unit → W → Prop) :
  (∀ w, P w → I b w) →
  (∀ w, P w → ∃ c, f (C w) = Ret c ∧ good_update (C w) c) → (∀ w, I b w → Q tt w) →
  hoare P (ref_call (vx_jwks_cache ctx) f) Q.
Proof.
  intros HP Hf HQ. apply hoare_call. intros w Hw. destruct (Hf w Hw) as (c & Hc & Hg).
  exists c. split; [done|]. apply HQ, I_update; auto.
Qed.

(** *** The updates the validator makes are good. *)
Lemma good_throttle b c now : good c → good_update c (IncrementThrottledRefreshes c b now).
Proof.
  intros [Hwf HT]. split; [split|by destruct c]; [auto with jwks|].
  by eapply same_hits_trusted; [|exact HT]; destruct c.
Qed.

Lemma good_reason c r : good c → good_update c (SetLastRefreshReason c r).
Proof.
  intros [Hwf HT]. split; [split|by destruct c]; [auto with jwks|].
  by eapply same_hits_trusted; [|exact HT]; destruct c.
Qed.

Lemma good_success c now : good c → good_update c (RecordJwksFetchSuccess c now uri).
Proof.
  intros [Hwf HT]. destruct (record_success_same c now uri) as (Hh & _ & _ & _ & Hg).
  split; [split|done]; [auto with jwks|by eapply (same_hits_trusted T c)].
Qed.

Lemma good_passive c kid ks now :
  good c → Forall (T (CacheKey uri kid)) ks →
  ∃ c', OnPassiveFetchSuccess c kid ks now uri = Ret c' ∧ good_update c c'.
Proof.
  intros [Hwf HT] Hks. destruct (OnPassiveFetchSuccess_spec c kid ks now uri Hwf) as (c' & Hc & ? & _ & ? & _).
  exists c'. split; [done|]. split; [split; [done|by eapply (OnPassiveFetchSuccess_trusted T c)]|done].
Qed.

Lemma good_reconcile c present now excl :
  good c → ∃ c', ReconcileAbsentKids c present now uri excl = Ret c' ∧ good_update c c'.
Proof.
  intros [Hwf HT]. destruct (ReconcileAbsentKids_spec c present now uri excl Hwf) as (c' & Hc & ? & _ & ? & _).
  exists c'. split; [done|]. split; [split; [done|by eapply (ReconcileAbsentKids_trusted T c)]|done].
Qed.

Lemma good_miss c kid now : good c → ∃ c', OnFetchMiss c kid now uri = Ret c' ∧ good_update c c'.
Proof.
  intros [Hwf HT]. destruct (OnFetchMiss_spec c kid now uri Hwf) as (c' & Hc & ? & (Hh & _ & _ & _ & Hg & _) & _).
  exists c'. split; [done|]. split; [split; [done|by eapply (same_hits_trusted T c)]|done].
Qed.

Lemma good_reserve c kid now id' c' :
  good c → TryReserveRefresh c kid now uri = (id', c') → good_update c c'.
Proof.
  intros [Hwf HT] Hr. destruct (TryReserveRefresh_wf _ _ _ _ _ _ Hwf Hr) as (? & _ & ?).
  split; [split|]; [done|by eapply TryReserveRefresh_trusted|done].
Qed.

Lemma good_absent c kid rid now :
  good c → ∃ b c', RecordKidAbsent c kid rid now uri = Ret (b, c') ∧ good_update c c'.
Proof.
  intros [Hwf HT]. destruct (RecordKidAbsent_spec c kid rid now uri Hwf) as (b & c' & Hc & ? & _ & ? & _).
  exists b, c'. split; [done|]. split; [split; [done|by eapply (RecordKidAbsent_trusted T c)]|done].
Qed.

Lemma good_commit c kid rid ks now :
  good c → Forall (T (CacheKey uri kid)) ks →
  ∃ b c', CommitRefresh c kid rid ks now uri = Ret (b, c') ∧ good_update c c'.
Proof.
  intros [Hwf HT] Hks. destruct (CommitRefresh_spec c kid rid ks now uri Hwf) as (b & c' & Hc & ? & _ & ? & _).
  exists b, c'. split; [done|]. split; [split; [done|by eapply (CommitRefresh_trusted T c)]|done].
Qed.

(** *** The keys of a fetched document *)
Definition doc_ok (m : gmap string (list Jwk)) : Prop :=
  ∀ kid ks, m !! kid = Some ks → Forall (T (CacheKey uri kid)) ks.

Lemma doc_ok_group keys :
  Forall (λ k, T (CacheKey uri (jwk_kid k)) k) keys → doc_ok (GroupSigningKeysByKid keys).
Proof.
  intros HT kid ks Hks. apply Forall_forall. intros k Hk.
  destruct (GroupSigningKeysByKid_elem _ _ _ _ Hks Hk) as [Hin <-]. by eapply Forall_forall in HT.
Qed.

Lemma screen_trusted kid ks : Forall (T (CacheKey uri kid)) ks → Forall (T (CacheKey uri kid)) (ScreenUsableKeys ks).
Proof.
  rewrite !Forall_forall. intros HT k [? _]%ScreenUsableKeys_elem. auto.
Qed.

Lemma prioritize_new_elem ks existing k : k ∈ PrioritizeNewKeys ks existing → k ∈ ks.
Proof.
  unfold PrioritizeNewKeys. destruct (_ || _); [done|].
  rewrite elem_of_app, !list_elem_of_In, !filter_In. tauto.
Qed.

(** *** The helpers *)
Lemma IngestSiblingKeys_inv m target b :
  doc_ok m → hoare (I b) (IngestSiblingKeys m target now_s ctx) (λ _, I b).
Proof.
  intros Hm. unfold IngestSiblingKeys. eapply hoare_bind.
  { apply (inv_call b _ _ (λ _, I b)); [done| |done]. intros w Hw. by apply good_reconcile, (I_good b). }
  intros []. apply (hoare_fold (λ _ : unit, I b)). intros [] [kid ks] Hin. apply um_iter_elem in Hin.
  destruct (negb _); [|by apply hoare_ret]. case_bool_decide; [by apply hoare_ret|].
  apply (inv_call b); [done| |done]. intros w Hw.
  apply good_passive; [by apply (I_good b)|]. apply screen_trusted. by apply Hm.
Qed.

Lemma IngestAllKeys_inv m b :
  doc_ok m →
  hoare (I b) (IngestAllKeys token parsed opts ctx m) (λ o w, I b w ∧ ∀ r, o = Some r → accepted r).
Proof.
  intros Hm. unfold IngestAllKeys.
  eapply hoare_pre; [|apply (hoare_fold (λ (o : option VerifyResult) w, I b w ∧ ∀ r, o = Some r → accepted r))].
  { intros w Hw. split; done. }
  intros o [kid ks] Hin. apply um_iter_elem in Hin. pose proof (screen_trusted _ _ (Hm _ _ Hin)) as HT.
  case_bool_decide; [by apply hoare_ret|].
  apply (hoare_bind _ _ _
    (λ p w, I b w ∧ (∀ r, p.2 = Some r → accepted r) ∧ Forall (T (CacheKey uri kid)) p.1)).
  { destruct (seqb kid (jp_kid parsed)) eqn:Hkid.
    - apply seqb_true in Hkid as ->.
      destruct (PrioritizeMatchingKey_spec token parsed opts Hparsed (ScreenUsableKeys ks) o)
        as (ks' & o' & Hp & Hperm & Ho). eapply hoare_lift; [done|]. intros w [Hw Hacc]. simpl.
      split_and!; [done| |by rewrite Hperm]. destruct Ho as [->|(r & -> & Hr & Hs)]; [done|].
      intros r' [= <-]. by eapply accepted_signed.
    - apply hoare_ret. simpl. naive_solver. }
  intros [ks' o']. simpl. eapply hoare_bind.
  - apply (hoare_call _ _ _ (λ _ w, I b w ∧ ∀ r, o' = Some r → accepted r)). intros w (Hw & Hacc & Hks).
    destruct (good_passive (C w) kid ks' now_s) as (c & Hc & Hg); [by apply (I_good b)|done|].
    exists c. split_and!; [done|by apply I_update|done].
  - intros []. by apply hoare_ret.
Qed.

(** The world after the fetch was recorded and before the request is sent. *)
Definition pending (w' : W) : Prop :=
  ∃ w, I false w ∧ CanFetchJwks (C w) now_s = true ∧
       w' = ref_set (vx_jwks_cache ctx) (RecordJwksFetch (C w) now_s) w.

Lemma record_fetch_inv :
  hoare (λ w, I false w ∧ CanFetchJwks (C w) now_s = true)
    (ref_upd (vx_jwks_cache ctx) (λ c, RecordJwksFetch c now_s)) (λ _, pending).
Proof. apply hoare_upd. intros w [Hw Hc]. by exists w. Qed.

Lemma get_inv : hoare pending (Get (vx_http ctx) uri) (λ r w, I true w ∧ published r).
Proof.
  intros w' (w & Hw & Hc & ->). destruct (I_fetch w Hw Hc) as (r & w' & Hg & ? & ?).
  unfold wp. rewrite Hg. simpl. eauto.
Qed.

Lemma FetchAndParseJwks_inv kid out :
  hoare (λ w, I false w ∧ CanFetchJwks (C w) now_s = true) (FetchAndParseJwks kid opts ctx out)
    (λ p w, I true w ∧ ∀ keys, p.1 = Some keys → Forall (λ k, T (CacheKey uri (jwk_kid k)) k) keys).
Proof.
  unfold FetchAndParseJwks. eapply hoare_bind; [apply record_fetch_inv|]. intros [].
  eapply hoare_bind; [apply get_inv|]. intros [r|]; [|apply hoare_ret; naive_solver].
  destruct (Z.eqb_spec (status_code r) 200) as [Hst|]; [|apply hoare_ret; naive_solver]. simpl.
  destruct (ParseJwksJson (body r)) as [|k ks] eqn:Hp; [apply hoare_ret; naive_solver|].
  eapply hoare_bind.
  - apply (hoare_upd _ _ _ (λ _ w, I true w ∧ published (Some r))). intros w [Hw ?].
    split; [|done]. apply I_update; [done|]. by apply good_success, (I_good true).
  - intros []. apply hoare_ret. intros w [Hw Hpub]. split; [done|]. intros ? [= <-].
    rewrite <-Hp. by apply Hpub.
Qed.

Lemma CommitTargetKid_inv rid m out :
  doc_ok m →
  hoare (I true) (CommitTargetKid (jp_kid parsed) rid token (jp_alg parsed) m opts ctx out None)
    (λ p w, I true w ∧ ∀ r, p.1 = Some r → accepted r).
Proof.
  intros Hm. unfold CommitTargetKid. destruct (m !! jp_kid parsed) as [raw|] eqn:Hraw.
  2: { destruct out; [|by apply hoare_ret].
       apply (hoare_bind _ _ _ (λ _, I true)); [|intros b; by apply hoare_ret].
       apply hoare_ref_run. intros w Hw.
       destruct (good_absent (C w) (jp_kid parsed) rid now_s) as (b & c & Hc & Hg); [by apply (I_good true)|].
       exists b, c. split; [done|]. by apply I_update. }
  pose proof (screen_trusted _ _ (Hm _ _ Hraw)) as HT.
  destruct (ScreenUsableKeys raw) as [|k ks] eqn:Hs; [by apply hoare_ret|]. rewrite <-Hs in *. clear Hs k ks.
  destruct (PrioritizeMatchingKey_spec token parsed opts Hparsed (ScreenUsableKeys raw) None)
    as (ks' & o' & Hp & Hperm & Ho).
  apply (hoare_bind _ _ _ (λ p w, p = (ks', o') ∧ I true w)); [by eapply hoare_lift|].
  intros p. apply hoare_pure. intros ->.
  apply (hoare_bind _ _ _ (λ _, I true)); [by apply hoare_read|]. intros live.
  apply (hoare_bind _ _ _ (λ _, I true)).
  - unfold CommitAndAudit. apply (hoare_bind _ _ _ (λ _, I true)); [|intros b; by apply hoare_ret].
    apply hoare_ref_run. intros w Hw.
    edestruct (good_commit (C w) (jp_kid parsed) rid) as (b & c & Hc & Hg);
      [by apply (I_good true)| |exists b, c; split; [exact Hc|by apply I_update]].
    destruct o'; [by rewrite Hperm|]. apply Forall_forall. intros k Hk%prioritize_new_elem.
    rewrite Hperm in Hk. by eapply Forall_forall in HT.
  - intros [b out']. apply hoare_ret. intros w Hw. split; [done|]. simpl. intros r.
    destruct b; [|done]. destruct Ho as [->|(r' & -> & _ & Hsig)]; [done|]. intros [= <-].
    by eapply accepted_signed.
Qed.

Lemma ReverifyAfterCommit_inv b o :
  (∀ r, o = Some r → accepted r) →
  hoare (I b) (ReverifyAfterCommit token (jp_kid parsed) (jp_alg parsed) opts ctx o) (λ r w, I b w ∧ accepted r).
Proof.
  intros Ho. unfold ReverifyAfterCommit. destruct o as [r|]; [apply hoare_ret; auto|].
  apply (hoare_bind _ _ _ (λ l w, Forall (T (CacheKey uri (jp_kid parsed))) (jl_keys l) ∧ I b w)).
  { apply hoare_read. intros w Hw. split; [|done]. apply Lookup_trusted, (I_good b w Hw). }
  intros l. apply hoare_pure. intros HT.
  destruct (_ && _); [|by apply hoare_ret; intros; split; [|apply accepted_not]].
  destruct (MatchingKeys (jl_keys l) (jp_alg parsed)) as [|k ks] eqn:Hmk.
  { apply hoare_ret. intros w Hw. split; [done|by apply accepted_not]. }
  destruct (SelectAndVerify_spec token parsed opts Hparsed (k :: ks)) as (o & Hsel & Hacc).
  apply (hoare_bind _ _ _ (λ p w, p = o ∧ I b w)); [by eapply hoare_lift|].
  intros p. apply hoare_pure. intros ->. apply hoare_ret. intros w Hw. split; [done|].
  destruct o as [r|]; simpl; [|by apply accepted_not].
  eapply accepted_signed; [|intros _; by apply (Hacc r eq_refl)]. apply Forall_forall.
  intros k'. rewrite <-Hmk. intros [Hin _]%MatchingKeys_elem. by eapply Forall_forall in HT.
Qed.

(** The flag after a call that may or may not have sent its request. *)
Definition settled (P : VerifyResult → Prop) {A} (f : A → option VerifyResult) (a : A) (w : W) : Prop :=
  (∃ b, I b w) ∧ ∀ r, f a = Some r → P r.

Lemma TryRefreshRotatedKid_inv out :
  hoare (I false) (TryRefreshRotatedKid token (jp_kid parsed) (jp_alg parsed) opts ctx out)
    (settled accepted fst).
Proof.
  unfold TryRefreshRotatedKid.
  apply (hoare_bind _ _ _ (λ can w, I false w ∧ (can = true → CanFetchJwks (C w) now_s = true)));
    [by apply hoare_read|]. intros can.
  destruct can; simpl.
  2: { eapply hoare_pre; [by intros w [Hw _]|].
       apply (hoare_bind _ _ _ (λ _, I false)).
       { apply (inv_upd false); [done| |done]. intros w Hw. by apply good_throttle, (I_good false). }
       intros []. apply (hoare_bind _ _ _ (λ _, I false)).
       { apply (inv_upd false); [done| |done]. intros w Hw. by apply good_reason, (I_good false). }
       intros []. apply hoare_ret. intros w Hw. split; [by exists false|done]. }
  apply (hoare_bind _ _ _ (λ _ w, I false w ∧ CanFetchJwks (C w) now_s = true)).
  { apply hoare_ref_run. intros w [Hw Hc].
    destruct (TryReserveRefresh (C w) (jp_kid parsed) now_s uri) as [id' c'] eqn:Hr.
    assert (good_update (C w) c') as Hg by (eapply good_reserve; [by apply (I_good false)|done]).
    exists id', c'. split; [done|]. split; [by apply I_update|].
    rewrite ref_get_set, (CanFetchJwks_same (C w)); [by apply Hc|apply Hg]. }
  intros rid. destruct (rid =? 0).
  { eapply hoare_pre; [by intros w [Hw _]|].
    apply (hoare_bind _ _ _ (λ _, I false)).
    { apply (inv_upd false); [done| |done]. intros w Hw. by apply good_throttle, (I_good false). }
    intros []. apply (hoare_bind _ _ _ (λ _, I false)).
    { apply (inv_upd false); [done| |done]. intros w Hw. by apply good_reason, (I_good false). }
    intros []. apply hoare_ret. intros w Hw. split; [by exists false|done]. }
  eapply hoare_bind; [apply FetchAndParseJwks_inv|]. intros [[keys|] eff].
  2: { eapply hoare_pre; [by intros w [Hw _]|].
       apply (hoare_bind _ _ _ (λ _, I true)).
       { apply (inv_upd true); [done| |done]. intros w Hw. by apply good_reason, (I_good true). }
       intros []. apply hoare_ret. intros w Hw. split; [by exists true|done]. }
  apply (hoare_pre (λ w, Forall (λ k, T (CacheKey uri (jwk_kid k)) k) keys ∧ I true w)); [by intros w [? Hk]; auto|].
  apply hoare_pure. intros Hkeys. pose proof (doc_ok_group keys Hkeys) as Hdoc.
  eapply hoare_bind; [by apply CommitTargetKid_inv|]. intros [o eff']. simpl.
  apply (hoare_pre (λ w, (∀ r, o = Some r → accepted r) ∧ I true w)); [by intros w [? Hk]; auto|].
  apply hoare_pure. intros Ho.
  apply (hoare_bind _ _ _ (λ _, I true)); [by apply IngestSiblingKeys_inv|]. intros [].
  apply (hoare_bind _ _ _ (λ _, I true)).
  { apply (inv_upd true); [done| |done]. intros w Hw. by apply good_reason, (I_good true). }
  intros []. eapply hoare_bind; [by apply ReverifyAfterCommit_inv|]. intros r.
  apply hoare_ret. intros w [Hw Hr]. split; [by exists true|]. by intros r' [= <-].
Qed.

Lemma ColdFetch_inv :
  hoare (λ w, I false w ∧ CanFetchJwks (C w) now_s = true) (ColdFetch token parsed opts ctx)
    (λ r w, I true w ∧ accepted r).
Proof.
  unfold ColdFetch. eapply hoare_bind; [apply record_fetch_inv|]. intros [].
  eapply hoare_bind; [apply get_inv|].
  assert (∀ P r, (∀ w, P w → I true w) → SignatureMatchesCandidate r = false →
    hoare P (mret r) (λ r w, I true w ∧ accepted r)) as Hfail.
  { intros P r HP Hr. apply hoare_ret. intros w Hw. split; [auto|by apply accepted_not]. }
  intros [r|]; [|apply Hfail; [by intros w [? _]|done]].
  destruct (Z.eqb_spec (status_code r) 200) as [Hst|]; simpl; [|apply Hfail; [by intros w [? _]|done]].
  assert (∀ P, (∀ w, P w → I true w) →
    hoare P (ref_call (vx_jwks_cache ctx) (λ c, OnFetchMiss c (jp_kid parsed) now_s uri)) (λ _, I true)) as Hmiss.
  { intros P HP. apply (inv_call true); [done| |done]. intros w Hw. by apply good_miss, (I_good true), HP. }
  destruct (ParseJwksJson (body r)) as [|k0 ks0] eqn:Hp.
  { eapply hoare_bind; [apply Hmiss; by intros w [? _]|]. intros []. by apply Hfail. }
  rewrite <-Hp. clear Hp k0 ks0. set (keys := ParseJwksJson (body r)).
  apply (hoare_pre (λ w, Forall (λ k, T (CacheKey uri (jwk_kid k)) k) keys ∧ I true w)).
  { intros w [? Hpub]. split; [by apply Hpub|done]. }
  apply hoare_pure. intros Hkeys. pose proof (doc_ok_group keys Hkeys) as Hdoc.
  apply (hoare_bind _ _ _ (λ _, I true)).
  { apply (inv_upd true); [done| |done]. intros w Hw. by apply good_success, (I_good true). }
  intros []. eapply hoare_bind; [by apply IngestAllKeys_inv|]. intros cold. simpl.
  apply (hoare_pre (λ w, (∀ r, cold = Some r → accepted r) ∧ I true w)); [by intros w [? ?]; auto|].
  apply hoare_pure. intros Hcold.
  apply (hoare_bind _ _ _ (λ l w, Forall (T (CacheKey uri (jp_kid parsed))) (jl_keys l) ∧ I true w)).
  { apply hoare_read. intros w Hw. split; [|done]. apply Lookup_trusted, (I_good true w Hw). }
  intros l. apply hoare_pure. intros HT. destruct (_ || _).
  { eapply hoare_bind; [by apply Hmiss|]. intros []. apply Hfail; [done|].
    unfold AbsentKidResult. by repeat case_match. }
  destruct (VerifyAgainstCachedKid_spec token parsed opts Hparsed (jl_keys l)) as (v & Hv & Hacc).
  assert (hoare (I true) (lift (VerifyAgainstCachedKid token (jp_alg parsed) (jl_keys l) opts))
    (λ r w, I true w ∧ accepted r)) as Hverify.
  { eapply hoare_lift; [done|]. intros w Hw. split; [done|]. by eapply accepted_signed. }
  destruct cold as [r'|]; [|done]. destruct (SignatureMatchesCandidate r'); [|done].
  apply hoare_ret. intros w Hw. split; [done|]. by apply Hcold.
Qed.

Lemma refresh_settled (dflt : VerifyResult) out :
  accepted dflt →
  hoare (I false)
    ('(refreshed, out_refresh) ← TryRefreshRotatedKid token (jp_kid parsed) (jp_alg parsed) opts ctx out;
     mret (default dflt refreshed, out_refresh))
    (settled accepted (λ p : VerifyResult * option RefreshEvent, Some p.1)).
Proof.
  intros Hd. eapply hoare_bind; [apply TryRefreshRotatedKid_inv|]. intros [o out'].
  apply hoare_ret. intros w [Hb Ho]. split; [done|]. intros r [= <-].
  destruct o as [r|]; simpl; [by apply Ho|done].
Qed.

Lemma CachedKid_inv ks out :
  Forall (T (CacheKey uri (jp_kid parsed))) ks →
  hoare (I false) (CachedKid token parsed opts ctx out ks)
    (settled accepted (λ p : VerifyResult * option RefreshEvent, Some p.1)).
Proof.
  intros HT. unfold CachedKid. destruct (MatchingKeys ks (jp_alg parsed)) as [|k l] eqn:Hmk.
  { by apply refresh_settled, accepted_not. }
  destruct (VerifyWithCachedKeys_spec token parsed opts Hparsed (k :: l)) as (v & Hv & Hacc).
  { intros k'. rewrite <-Hmk. by intros [_ ?]%MatchingKeys_elem. }
  assert (accepted v) as Hav.
  { eapply accepted_signed; [|exact Hacc]. apply Forall_forall. intros k'. rewrite <-Hmk.
    intros [Hin _]%MatchingKeys_elem. by eapply Forall_forall in HT. }
  apply (hoare_bind _ _ _ (λ r w, r = v ∧ I false w)); [by eapply hoare_lift|].
  intros r. apply hoare_pure. intros ->. destruct (negb _); [|by apply refresh_settled].
  apply hoare_ret. intros w Hw. split; [by exists false|]. by intros r [= <-].
Qed.

(** The whole call: it returns, keeps the invariant, and accepts only for a
    trusted key of the token's kid. *)
Lemma ValidateToken_inv out :
  hoare (I false) (ValidateToken token opts ctx out)
    (settled accepted (λ p : VerifyResult * option RefreshEvent, Some p.1)).
Proof.
  unfold ValidateToken. rewrite Hparsed.
  assert (∀ r out, SignatureMatchesCandidate r = false →
    hoare (I false) (mret (r, out)) (settled accepted (λ p : VerifyResult * option RefreshEvent, Some p.1))) as Hfail.
  { intros r out' Hr. apply hoare_ret. intros w Hw. split; [by exists false|].
    intros r' [= <-]. by apply accepted_not. }
  assert (∀ b, hoare (I false) (ref_upd (vx_jwks_cache ctx) (λ c, IncrementThrottledRefreshes c b now_s))
    (λ _, I false)) as Hthr.
  { intros b. apply (inv_upd false); [done| |done]. intros w Hw. by apply good_throttle, (I_good false). }
  destruct (_ || _); [by apply Hfail|]. destruct (sempty _); [by apply Hfail|].
  apply (hoare_bind _ _ _ (λ l w, Forall (T (CacheKey uri (jp_kid parsed))) (jl_keys l) ∧ I false w)).
  { apply hoare_read. intros w Hw. split; [|done]. apply Lookup_trusted, (I_good false w Hw). }
  intros l. apply hoare_pure. intros HT. destruct (jl_status l).
  - by apply CachedKid_inv.
  - apply (hoare_bind _ _ _ (λ _, I false)); [by apply hoare_read|]. intros [|]; [by apply Hfail|].
    apply (hoare_bind _ _ _ (λ can w, I false w ∧ (can = true → CanFetchJwks (C w) now_s = true)));
      [by apply hoare_read|]. intros [|]; simpl.
    + eapply hoare_bind.
      { eapply hoare_pre; [|apply ColdFetch_inv]. intros w [? Hc]. split; [done|by apply Hc]. }
      intros r. apply hoare_ret. intros w [Hw Hr]. split; [by exists true|]. by intros r' [= <-].
    + eapply hoare_bind; [eapply hoare_pre; [|apply (Hthr true)]; by intros w [? _]|].
      intros []. by apply Hfail.
  - eapply hoare_bind; [apply (Hthr false)|]. intros []. by apply Hfail.
Qed.
End invariant.

(** ** A single-threaded run

    One process calling [ValidateToken] over a scripted network, to state what
    the issuer's endpoint sees. *)
Record vworld : Type := mkVworld { vw_cache : JwksCache; vw_net : net }.

Definition vw_cache_ref : Ref vworld JwksCache :=
  mkRef vw_cache (λ c w, mkVworld c (vw_net w)).
#[export] Instance vw_cache_ref_laws : RefLaws vw_cache_ref.
Proof. split; by intros; try destruct w. Qed.

Definition vw_http : IHttpClient vworld :=
  mkHttp (λ url w, let '(r, n) := Get net_http url (vw_net w) in (r, mkVworld (vw_cache w) n))
         (λ req w, let '(r, n) := Post net_http req (vw_net w) in (r, mkVworld (vw_cache w) n)).
Definition vw_ctx (uri : string) : ValidateContext vworld := mkValidateContext vw_http vw_cache_ref uri.

(** The requests sent so far. *)
Definition requests (w : vworld) : list net_event := net_log (vw_net w).

(** One call; the times of the requests are recorded in order. *)
Definition vstep (uri : string) (st : list Z * vworld) (call : string * VerifyOptions) : exc (list Z * vworld) :=
  let '(times, w) := st in
  let '(token, opts) := call in
  match ValidateToken token opts (vw_ctx uri) None w with
  | (Ret _, w') => Ret (times ++ replicate (length (requests w') - length (requests w)) (vo_now_s opts), w')
  | (Throw e, _) => Throw e
  | (Stuck, _) => Stuck
  end.

Lemma CanFetch_stamp c now :
  last_global_fetch_s_ c ≤ now → 1 ≤ now → CanFetchJwks c now = true →
  last_global_fetch_s_ (RecordJwksFetch c now) = now ∧
  (0 < last_global_fetch_s_ c → last_global_fetch_s_ c + 2 ≤ now).
Proof.
  intros Hle Hnow Hc. unfold RecordJwksFetch, CanFetchJwks in *.
  destruct (Z.leb_spec (last_global_fetch_s_ c) 0).
  - destruct (Z.ltb_spec 0 (last_global_fetch_s_ c)); [lia|]. simpl. destruct c; simpl in *. lia.
  - relate_clock now (last_global_fetch_s_ c); [|lia|lia]. rewrite andb_false_r.
    destruct (Z.ltb_spec (now - last_global_fetch_s_ c) kGlobalFetchBudgetWindowSeconds) as [|Hgap]; [done|].
    unfold kGlobalFetchBudgetWindowSeconds in Hgap. destruct c; simpl in *. lia.
Qed.

(** The state of one call started in [w]: nothing sent yet, or one request sent
    with the budget's permission and the stamp updated. *)
Definition vw_inv (w : vworld) (uri : string) (now_s : Z) (b : bool) (v : vworld) : Prop :=
  jc_wf (vw_cache v) ∧
  if b then requests v = requests w ++ [EvGet uri] ∧ CanFetchJwks (vw_cache w) now_s = true ∧
            last_global_fetch_s_ (vw_cache v) = last_global_fetch_s_ (RecordJwksFetch (vw_cache w) now_s)
  else requests v = requests w ∧ last_global_fetch_s_ (vw_cache v) = last_global_fetch_s_ (vw_cache w).

Lemma RecordJwksFetch_stamp c c' now :
  last_global_fetch_s_ c' = last_global_fetch_s_ c →
  last_global_fetch_s_ (RecordJwksFetch c' now) = last_global_fetch_s_ (RecordJwksFetch c now).
Proof. unfold RecordJwksFetch. intros ->. destruct (_ && _); by destruct c, c'. Qed.

Lemma vw_call_inv uri token parsed opts w out :
  ParseJwt token = Some parsed →
  hoare (vw_inv w uri (vo_now_s opts) false) (ValidateToken token opts (vw_ctx uri) out)
    (λ _ v, ∃ b, vw_inv w uri (vo_now_s opts) b v).
Proof.
  intros Hp. eapply hoare_post; [|apply (ValidateToken_inv (vw_ctx uri) (λ _ _, True)
    (vw_inv w uri (vo_now_s opts)) token parsed opts Hp)].
  - intros a v [Hb _]. exact Hb.
  - intros b v [Hgood _]. split; [done|]. intros ck h _. by apply Forall_true.
  - intros b v c [Hgood Hs] [[? _] Hlast]. split; [done|]. destruct b; simpl in *; rewrite Hlast; naive_solver.
  - intros v [Hgood [Hreq Hlast]] Hc. simpl in *.
    destruct (wf_record_fetch (vw_cache v) (vo_now_s opts) Hgood) as (Hwf & _ & _).
    pose proof (RecordJwksFetch_stamp _ _ (vo_now_s opts) Hlast) as Hrec.
    rewrite (CanFetchJwks_same (vw_cache w)) in Hc by done.
    unfold net_answer. destruct (net_script (vw_net v)) as [|x xs]; eexists _, _;
      (split; [reflexivity|split; [|by intros ???; apply Forall_true]]);
      (split; [done|]); unfold requests in *; simpl; by rewrite Hreq.
Qed.

Lemma vstep_spec uri times w token opts :
  jc_wf (vw_cache w) → last_global_fetch_s_ (vw_cache w) ≤ vo_now_s opts → 1 ≤ vo_now_s opts →
  ∃ w', jc_wf (vw_cache w') ∧
    ((vstep uri (times, w) (token, opts) = Ret (times, w') ∧
      last_global_fetch_s_ (vw_cache w') = last_global_fetch_s_ (vw_cache w)) ∨
     (vstep uri (times, w) (token, opts) = Ret (times ++ [vo_now_s opts], w') ∧
      last_global_fetch_s_ (vw_cache w') = vo_now_s opts ∧
      (0 < last_global_fetch_s_ (vw_cache w) → last_global_fetch_s_ (vw_cache w) + 2 ≤ vo_now_s opts))).
Proof.
  intros Hwf Hle Hnow. unfold vstep. destruct (ParseJwt token) as [parsed|] eqn:Hp.
  2: { unfold ValidateToken. rewrite Hp. exists w. split; [done|]. left. simpl.
       rewrite Nat.sub_diag. simpl. by rewrite app_nil_r. }
  destruct (ValidateToken token opts (vw_ctx uri) None w) as [r w'] eqn:Hv.
  destruct (hoare_run _ _ _ w r w' (vw_call_inv uri token parsed opts w None Hp)) as (v & -> & b & Hwf' & Hb);
    [split; [done|by split]|exact Hv|].
  exists w'. split; [done|]. destruct b.
  - destruct Hb as (Hreq & Hc & Hlast). destruct (CanFetch_stamp _ _ Hle Hnow Hc) as [Hst Hgap].
    right. rewrite Hreq, length_app, Nat.add_sub_swap, Nat.sub_diag by lia. simpl.
    split_and!; [done|congruence|done].
  - destruct Hb as [Hreq Hlast]. left. rewrite Hreq, Nat.sub_diag. simpl. by rewrite app_nil_r.
Qed.

(** Consecutive times at least two seconds apart. *)
Fixpoint spaced (l : list Z) : Prop :=
  match l with
  | a :: ((b :: _) as l') => a + 2 ≤ b ∧ spaced l'
  | _ => True
  end.

Lemma spaced_snoc l b : spaced l → (∀ a, last l = Some a → a + 2 ≤ b) → spaced (l ++ [b]).
Proof.
  induction l as [|a [|a' l] IH]; simpl; intros Hs Hb; [done|by split; [apply Hb|]|].
  destruct Hs as [? Hs]. split; [done|]. by apply IH.
Qed.

(** ** Properties *)

(** Claim C8.  Only keys the issuer published are ever trusted, whatever other
    threads do while the lock is dropped.  Let [T] hold of every key found in a
    200 answer of the issuer's endpoint and of every cached key, and let the
    other threads keep the cache well formed and its keys in [T].  Then a
    validation always returns (it neither throws nor uses a dangling iterator),
    keeps the cache well formed and its keys in [T], and answers [Ok] (or any
    result that means "the signature is right") only if some key of the token's
    own kid and issuer, in [T] and fit for the token's header, verifies the
    token. *)
Theorem validate_token_sound {W} (ctx : ValidateContext W) `{!RefLaws (vx_jwks_cache ctx)}
    (T : string → Jwk → Prop) token opts out w :
  (∀ w, good T (ref_get (vx_jwks_cache ctx) w) →
     ∃ r w', Get (vx_http ctx) (vx_jwks_uri ctx) w = (Ret r, w') ∧
       good T (ref_get (vx_jwks_cache ctx) w') ∧ published ctx T r) →
  good T (ref_get (vx_jwks_cache ctx) w) →
  ∃ v out' w', ValidateToken token opts ctx out w = (Ret (v, out'), w') ∧
    good T (ref_get (vx_jwks_cache ctx) w') ∧
    (SignatureMatchesCandidate v = true →
     ∃ parsed k, ParseJwt token = Some parsed ∧ IsForbiddenAlgorithm (jp_alg parsed) = false ∧
       T (CacheKey (vx_jwks_uri ctx) (jp_kid parsed)) k ∧
       JwkMatchesTokenHeader k (jp_alg parsed) = true ∧ VerifyJwt token k opts = Ret v).
Proof.
  intros Hget Hw. destruct (ParseJwt token) as [parsed|] eqn:Hp.
  2: { exists Malformed, out, w. unfold ValidateToken. by rewrite Hp. }
  destruct (ValidateToken token opts ctx out w) as [r w'] eqn:Hv.
  assert (hoare (λ w, good T (ref_get (vx_jwks_cache ctx) w)) (ValidateToken token opts ctx out)
    (settled (λ _ w, good T (ref_get (vx_jwks_cache ctx) w)) (accepted ctx T token parsed opts)
      (λ p, Some p.1))) as Hinv.
  { apply (ValidateToken_inv ctx T (λ _ w, good T (ref_get (vx_jwks_cache ctx) w))); [done|done| |].
    - intros b v c _ [Hc _]. by rewrite ref_get_set.
    - intros v [Hwf HT] _. apply Hget. rewrite ref_get_set.
      destruct (wf_record_fetch (ref_get (vx_jwks_cache ctx) v) (vo_now_s opts) Hwf) as (? & Hh & _).
      split; [done|by eapply same_hits_trusted]. }
  destruct (hoare_run _ _ _ w r w' Hinv Hw Hv) as ([v out'] & -> & [_ Hgood] & Hacc).
  exists v, out', w'. split; [done|]. split; [exact Hgood|]. intros Hs.
  destruct (Hacc v eq_refl Hs) as (k & ? & ? & Hk). exists parsed, k. split_and!; try done.
  unfold ValidateToken in Hv. rewrite Hp in Hv. destruct (IsForbiddenAlgorithm (jp_alg parsed)); [|done].
  cbv [mret M_ret orb] in Hv. by simplify_eq.
Qed.

(** Tokens that are not tokens, that use a forbidden algorithm or that
    name no kid cost nothing: they are refused without reading or changing the
    cache, without any request and without a refresh event. *)
Theorem early_rejection_no_effect {W} (ctx : ValidateContext W) token opts out w :
  match ParseJwt token with
  | None => ValidateToken token opts ctx out w = (Ret (Malformed, out), w)
  | Some p =>
      if IsForbiddenAlgorithm (jp_alg p) || negb (IsAlgorithmAllowed (jp_alg p) (vo_allowed_algorithms opts))
      then ValidateToken token opts ctx out w = (Ret (DisallowedAlgorithm, out), w)
      else jp_kid p = "" → ValidateToken token opts ctx out w = (Ret (UnknownKid, out), w)
  end.
Proof.
  unfold ValidateToken. destruct (ParseJwt token) as [p|]; [|done].
  destruct (_ || _); [done|]. intros ->. done.
Qed.

(** Claim C14.  The issuer's endpoint is never hammered: over any sequence of
    validations in one process, with any tokens, any network answers and a clock
    that does not run backwards, every call completes, sends at most one request,
    and any two requests of the run are at least two seconds apart. *)
Theorem fetch_budget (uri : string) (calls : list (string * VerifyOptions)) (c : JwksCache) script :
  jc_wf c → Forall (λ call, last_global_fetch_s_ c ≤ vo_now_s call.2 ∧ 1 ≤ vo_now_s call.2) calls →
  StronglySorted (λ a b, vo_now_s a.2 ≤ vo_now_s b.2) calls →
  ∃ times w, exc_fold (vstep uri) ([], mkVworld c (mkNet script [])) calls = Ret (times, w) ∧
    spaced times ∧ jc_wf (vw_cache w).
Proof.
  assert (∀ calls times w,
    jc_wf (vw_cache w) → spaced times →
    (∀ a, last times = Some a → a = last_global_fetch_s_ (vw_cache w) ∧ 0 < a) →
    Forall (λ call, last_global_fetch_s_ (vw_cache w) ≤ vo_now_s call.2 ∧ 1 ≤ vo_now_s call.2) calls →
    StronglySorted (λ a b : string * VerifyOptions, vo_now_s a.2 ≤ vo_now_s b.2) calls →
    ∃ times' w', exc_fold (vstep uri) (times, w) calls = Ret (times', w') ∧ spaced times' ∧ jc_wf (vw_cache w'))
    as Hrun.
  { clear. induction calls as [|[token opts] calls IH]; intros times w Hwf Hsp Hlast Hall Hsort; [by eauto|].
    apply Forall_cons in Hall as [[Hle Hpos] Hall]. apply StronglySorted_inv in Hsort as [Hsort Hhd].
    simpl in Hle, Hpos. cbn [exc_fold].
    destruct (vstep_spec uri times w token opts Hwf Hle Hpos)
      as (w' & Hwf' & [[-> Hst]|(-> & Hst & Hgap)]); cbn [mbind exc_bind]; apply IH; try done.
    - by rewrite Hst.
    - by rewrite Hst.
    - apply spaced_snoc; [done|]. intros a Ha. destruct (Hlast a Ha) as [-> ?]. by apply Hgap.
    - intros a. rewrite last_snoc. intros [= <-]. split; [done|lia].
    - rewrite Hst. eapply Forall_impl; [exact Hhd|]. simpl. intros call. lia. }
  intros Hwf Hall Hsort. by apply Hrun.
Qed.
End validator.

(** ** Evaluations *)
Section evaluations.
#[local] Existing Instance toy_json.
#[local] Existing Instance toy_jwt.
#[local] Existing Instance toy_ssl.
#[local] Existing Instance um_canonical.

(** A cache used by one thread and an endpoint that always answers [doc]. *)
Definition toy_ctx (doc : string) : ValidateContext JwksCache :=
  mkValidateContext (mkHttp (λ _, mret (Some (mkResponse 200 doc))) (λ _, mret None)) ref_id "https://idp".

(** A first token costs a fetch and is accepted; after the issuer rotates the
    key, a token signed with the new key triggers a refresh and is accepted. *)
Example cold_then_rotated :
  (let '(r1, c1) := ValidateToken "RS256/a/n1/idp/app/2000" (toy_opts 1000) (toy_ctx "jwks-n1")
                      (Some RefreshEvent_default) (JwksCache_new 30 8) in
   let '(r2, c2) := ValidateToken "RS256/a/n2/idp/app/2000" (toy_opts 1031) (toy_ctx "jwks-n2")
                      (Some RefreshEvent_default) c1 in
   let '(r3, _) := ValidateToken "RS256/a/n1/idp/app/2000" (toy_opts 1032) (toy_ctx "jwks-n2") None c2 in
   (fst <$> r1, r2, fst <$> r3)) =
  (Ret Ok, Ret (Ok, Some (mkRefreshEvent "a" "refresh_rotated" Rotated)), Ret InvalidSignature).
Proof. vm_compute. reflexivity. Qed.

(** An unknown kid is fetched for once, then answered from the negative entry. *)
Example unknown_kid_throttled :
  (let '(r1, c1) := ValidateToken "RS256/zz/n1/idp/app/2000" (toy_opts 1000) (toy_ctx "jwks-n1") None (JwksCache_new 30 8) in
   let '(r2, c2) := ValidateToken "RS256/zz/n1/idp/app/2000" (toy_opts 1010) (toy_ctx "jwks-n1") None c1 in
   (r1, r2)) = (Ret (UnknownKid, None), Ret (JwksThrottled, None)).
Proof. vm_compute. reflexivity. Qed.

Definition toy_trusted (ck : string) (k : Jwk) : Prop := jwk_n k = "bjE" ∧ jwk_kid k = "a".

Lemma toy_published : published (toy_ctx "jwks-n1") toy_trusted (Some (mkResponse 200 "jwks-n1")).
Proof. intros r [= <-] _. vm_compute. constructor; [by split|constructor]. Qed.

Lemma validate_token_sound_witness :
  good toy_trusted (JwksCache_new 30 8) ∧
  ∃ v out' w', ValidateToken "RS256/a/n1/idp/app/2000" (toy_opts 1000) (toy_ctx "jwks-n1") None
                 (JwksCache_new 30 8) = (Ret (v, out'), w') ∧
    good toy_trusted w' ∧
    (SignatureMatchesCandidate v = true →
     ∃ parsed k, ParseJwt "RS256/a/n1/idp/app/2000" = Some parsed ∧
       IsForbiddenAlgorithm (jp_alg parsed) = false ∧
       toy_trusted (CacheKey "https://idp" (jp_kid parsed)) k ∧
       JwkMatchesTokenHeader k (jp_alg parsed) = true ∧
       VerifyJwt "RS256/a/n1/idp/app/2000" k (toy_opts 1000) = Ret v).
Proof.
  assert (good toy_trusted (JwksCache_new 30 8)) as Hg by (split; [by apply jc_wf_new|done]).
  split; [exact Hg|].
  apply (validate_token_sound (toy_ctx "jwks-n1") toy_trusted); [|exact Hg].
  intros c Hc. eexists _, c. split_and!; [reflexivity|exact Hc|apply toy_published].
Defined.

Definition toy_calls : list (string * VerifyOptions) :=
  [("RS256/zz/n1/idp/app/2000", toy_opts 1000); ("RS256/yy/n1/idp/app/2000", toy_opts 1001);
   ("RS256/xx/n1/idp/app/2000", toy_opts 1002)].

Example toy_calls_times :
  fst <$> exc_fold (vstep "https://idp") ([], mkVworld (JwksCache_new 30 8) (mkNet [] [])) toy_calls
  = Ret [1000; 1002].
Proof. vm_compute. reflexivity. Qed.

Lemma fetch_budget_witness :
  jc_wf (JwksCache_new 30 8) ∧
  ∃ times w, exc_fold (vstep "https://idp") ([], mkVworld (JwksCache_new 30 8) (mkNet [] [])) toy_calls = Ret (times, w) ∧
    spaced times ∧ jc_wf (vw_cache w).
Proof.
  assert (jc_wf (JwksCache_new 30 8)) as Hwf by by apply jc_wf_new.
  split; [exact Hwf|]. apply (fetch_budget "https://idp" toy_calls (JwksCache_new 30 8) [] Hwf).
  - repeat constructor; simpl; lia.
  - repeat constructor; simpl; lia.
Defined.
End evaluations.
