(* ===== verification/Availability.v ===== *)
(** * What a token is owed ([src/src/validator.cpp], [src/src/jwks_cache.cpp])

    The other half of validation: a token that a published key signed gets the
    verdict on its claims, from the cache, after a fetch, or after the issuer
    rotated the key.  The keys that were just fetched must survive the eviction of
    the entries they displace, so the recency list is followed node by node. *)
From S2P Require Import Prelude CppString StdList JwksCache Http External Toy Json JwtParse JwtVerify Validator.

(** ** Recency

    At most [n] entries of the list are more recent than the one of [ck]. *)
Definition recent (ck : string) (n : nat) (l : slist string) : Prop :=
  ∃ pre i post, sl_nodes l = pre ++ (i, ck) :: post ∧ (length pre ≤ n)%nat.

Lemma recent_push ck n x l : recent ck n l → recent ck (S n) (sl_push_front x l).
Proof.
  intros (pre & i & post & Hl & Hn). exists ((sl_fresh l, x) :: pre), i, post.
  simpl. rewrite Hl. split; [done|lia].
Qed.

Lemma recent_front ck l : recent ck 0 (sl_push_front ck l).
Proof. by exists [], (sl_fresh l), (sl_nodes l). Qed.

Lemma recent_mono ck n n' l : (n ≤ n')%nat → recent ck n l → recent ck n' l.
Proof. intros ? (pre & i & post & ? & ?). exists pre, i, post. split; [done|lia]. Qed.

(** Erasing the node of another key. *)
Lemma recent_erase {V} (it : V → nat) ck n (m : gmap string V) l l' k v :
  lru_wf it id m l → m !! k = Some v → k ≠ ck → sl_erase (it v) l = Some l' → recent ck n l → recent ck n l'.
Proof.
  intros Hwf Hk Hne He (pre & i & post & Hl & Hn).
  destruct (lru_delete it id m l k v Hwf Hk) as (l1 & He1 & _ & _ & Hn1). simplify_eq.
  assert (i ≠ it v) as Hi.
  { intros ->. destruct (lru_valid _ _ _ _ Hwf k v Hk) as (x & Hx & Hxk).
    apply Hne. rewrite <-Hxk. apply (nodes_unique (it v) (sl_nodes l)); [apply Hwf|done|].
    rewrite Hl. set_solver. }
  exists (nodes_erase (it v) pre), i, (nodes_erase (it v) post).
  rewrite Hn1, Hl. unfold nodes_erase. rewrite filter_app, filter_cons_True by done. split; [done|].
  etrans; [apply length_filter|done].
Qed.

(** An eviction spares the entries it has room for. *)
Lemma evict_recent {V} (it : V → nat) fuel max (m m' : gmap string V) l l' ck n :
  lru_wf it id m l → Z.of_nat n < max → (size m ≤ fuel)%nat → recent ck n l →
  evict fuel max m l = Ret (m', l') → recent ck n l' ∧ m' !! ck = m !! ck.
Proof.
  intros Hwf Hn Hfuel (pre & i & post & Hl & Hpre) He.
  destruct (evict_spec it fuel max m l) as (m1 & l1 & He1 & Hwf1 & _ & Hsub & Hnodes); [done|lia|done|].
  rewrite He in He1. simplify_eq.
  assert (sl_nodes l1 = pre ++ (i, ck) :: take (Z.to_nat max - length pre - 1) post) as Hl1.
  { rewrite Hnodes, Hl, take_app_ge by lia. f_equal.
    destruct (Z.to_nat max - length pre)%nat as [|z] eqn:Hz; [lia|]. simpl. do 2 f_equal. lia. }
  split; [by exists pre, i, (take (Z.to_nat max - length pre - 1) post)|].
  destruct (lru_index _ _ _ _ Hwf1 i ck) as (v & Hv & _); [rewrite Hl1; set_solver|].
  simpl in Hv. rewrite Hv. symmetry. by eapply lookup_weaken.
Qed.

(** ** The operations of a fetch and the entry of one kid

    [kept ck n ks c]: the keys of [ck] are [ks], and at most [n] entries are more
    recent. *)
Definition kept (ck : string) (n : nat) (ks : list Jwk) (c : JwksCache) : Prop :=
  jc_wf c ∧ recent ck n (hit_lru_ c) ∧ keys <$> hits_ c !! ck = Some ks.

Lemma kept_mono ck n n' ks c : (n ≤ n')%nat → kept ck n ks c → kept ck n' ks c.
Proof. intros ? (? & ? & ?). split_and!; [done|by eapply recent_mono|done]. Qed.

Lemma kept_same ck n ks c c' :
  jc_wf c' → hits_ c' = hits_ c → hit_lru_ c' = hit_lru_ c → kept ck n ks c → kept ck n ks c'.
Proof. intros ? Hh Hl (_ & ? & ?). unfold kept. by rewrite Hh, Hl. Qed.

Lemma kept_Lookup uri kid n ks c now : kept (CacheKey uri kid) n ks c → Lookup c kid now uri = mkJwksLookup Hit ks 0.
Proof. unfold kept, Lookup, FindHit. intros (_ & _ & (h & -> & ->)%fmap_Some). done. Qed.

Lemma erase_miss_same c ck c' : jc_wf c → erase_miss c ck = Ret c' →
  jc_wf c' ∧ hits_ c' = hits_ c ∧ hit_lru_ c' = hit_lru_ c ∧ max_entries_ c' = max_entries_ c.
Proof.
  intros Hwf He. destruct (erase_miss_spec c ck Hwf) as (c1 & He1 & Hwf1 & _ & ? & ? & ? & _).
  by rewrite He in He1; simplify_eq.
Qed.

(** A new kid goes to the front, the others move back by one place. *)
Lemma passive_new c kid ks now uri c' :
  jc_wf c → FindHit c uri kid = None → ks ≠ [] → OnPassiveFetchSuccess c kid ks now uri = Ret c' →
  recent (CacheKey uri kid) 0 (hit_lru_ c') ∧
  ∀ ck n, ck ≠ CacheKey uri kid → recent ck n (hit_lru_ c) → Z.of_nat (S n) < max_entries_ c →
    recent ck (S n) (hit_lru_ c') ∧ hits_ c' !! ck = hits_ c !! ck.
Proof.
  intros Hwf Hnone Hks Hp. unfold OnPassiveFetchSuccess, OnFetchSuccess in Hp. destruct ks as [|k0 ks0]; [done|].
  set (ks := k0 :: ks0) in *. clearbody ks. rewrite Hnone in Hp.
  apply exc_bind_Ret in Hp as (c2 & He & Hp).
  destruct (erase_miss_same _ _ _ (wf_record_success c now uri Hwf) He) as (Hwf2 & Eh & El & Emax).
  destruct (record_success_same c now uri) as (Eh' & El' & _ & Emax' & _).
  assert (FindHit c2 uri kid = None) as Hnone2 by (unfold FindHit in *; congruence).
  rewrite Hnone2 in Hp. simpl in Hp. apply exc_bind_Ret in Hp as ([m l] & He2 & [= <-]).
  pose proof (jc_max c2 Hwf2). set (e := entry_it _ _) in *.
  assert (lru_wf lru_it id (<[CacheKey uri kid:=e]> (hits_ c2)) (sl_push_front (CacheKey uri kid) (hit_lru_ c2)))
    as Hlru by by apply lru_insert; [apply jc_hits| | |].
  assert (∀ l m, hit_lru_ (set_hits m l c2) = l ∧ hits_ (set_hits m l c2) = m) as Hset by by destruct c2.
  destruct (Hset l m) as [-> ->]. split.
  - eapply (evict_recent lru_it); [exact Hlru| |reflexivity|apply recent_front|exact He2]. lia.
  - intros ck n Hne Hrec Hn. rewrite <-Eh', <-Eh, <-(lookup_insert_ne (hits_ c2) (CacheKey uri kid) ck e) by done.
    eapply (evict_recent lru_it); [exact Hlru| |reflexivity| |exact He2]; [by rewrite Emax, Emax'|].
    apply recent_push. by rewrite El, El'.
Qed.

(** A fetched kid that was not cached keeps its keys. *)
Lemma passive_front c kid ks now uri c' :
  jc_wf c → FindHit c uri kid = None → ks ≠ [] →
  OnPassiveFetchSuccess c kid ks now uri = Ret c' →
  kept (CacheKey uri kid) 0 (take kMaxKeysPerKid ks) c' ∧ max_entries_ c' = max_entries_ c.
Proof.
  intros Hwf Hnone Hks Hp. destruct (OnPassiveFetchSuccess_spec c kid ks now uri Hwf)
    as (c1 & Hp1 & Hwf1 & Hmax & _ & Hk & _). rewrite Hp in Hp1. simplify_eq.
  destruct (Hk Hks) as (h & Hh & _ & Hkeys). rewrite Hnone in Hkeys. split; [|done].
  split_and!; [done|by apply (passive_new c kid ks now uri c1)|unfold FindHit in Hh; rewrite Hh; simpl; by rewrite Hkeys].
Qed.

(** Another kid's keys push it back by one place at most. *)
Lemma passive_other c kid ks now uri c' ck n ks0 :
  kept ck n ks0 c → ck ≠ CacheKey uri kid → Z.of_nat (S n) < max_entries_ c →
  OnPassiveFetchSuccess c kid ks now uri = Ret c' →
  kept ck (S n) ks0 c' ∧ max_entries_ c' = max_entries_ c.
Proof.
  intros (Hwf & Hrec & Hck) Hne Hn Hp. destruct (OnPassiveFetchSuccess_spec c kid ks now uri Hwf)
    as (c1 & Hp1 & Hwf1 & Hmax & _). rewrite Hp in Hp1. simplify_eq. split; [|done].
  unfold kept. split; [done|]. assert (recent ck (S n) (hit_lru_ c)) by (eapply recent_mono; [|done]; lia).
  destruct (decide (ks = [])) as [->|Hks]; [by simplify_eq/=|].
  destruct (FindHit c uri kid) as [h|] eqn:Hh.
  - unfold OnPassiveFetchSuccess in Hp. rewrite Hh in Hp. destruct ks as [|k0 ks]; simplify_eq.
    destruct c. simpl in *. by rewrite lookup_insert_ne.
  - destruct (passive_new c kid ks now uri c1 Hwf Hh Hks Hp) as [_ Hother].
    destruct (Hother ck n Hne Hrec Hn) as [? ->]. done.
Qed.

(** A committed refresh moves its kid to the front. *)
Lemma commit_front c kid rid ks now uri c' :
  jc_wf c → CommitRefresh c kid rid ks now uri = Ret (true, c') →
  kept (CacheKey uri kid) 0 (take kMaxKeysPerKid ks) c' ∧ max_entries_ c' = max_entries_ c.
Proof.
  intros Hwf Hc. destruct (CommitRefresh_spec c kid rid ks now uri Hwf)
    as (b & c1 & Hc1 & Hwf1 & Hmax & _ & _ & _ & Ht). rewrite Hc in Hc1. simplify_eq.
  destruct (Ht eq_refl) as (_ & _ & h & it & Hh & _ & Hm). split; [|done].
  split_and!; [done| |by rewrite Hm, lookup_insert_eq].
  unfold CommitRefresh in Hc. rewrite Hh in Hc. destruct (_ || _); [by simplify_eq|].
  destruct (negb _); [by simplify_eq|].
  assert (∀ h', touch_hit c (CacheKey uri kid) h' ≫= (λ c, Ret (true, c)) = Ret (true, c1) →
    recent (CacheKey uri kid) 0 (hit_lru_ c1)) as Hfront.
  { intros h' (c2 & Htouch & [= ->])%exc_bind_Ret. unfold touch_hit in Htouch.
    apply exc_bind_Ret in Htouch as (l & _ & [= <-]). destruct c. apply recent_front. }
  destruct (RelateClock _ _); [by eapply Hfront|by simplify_eq|by eapply Hfront].
Qed.

(** A refresh holds its reservation and the clock did not step back over the last
    fetch: the commit goes through. *)
Lemma commit_granted c kid rid ks now uri h :
  jc_wf c → rid ≠ 0 → ks ≠ [] → FindHit c uri kid = Some h → current_reservation_id h = rid →
  fetched_at_s h ≤ now →
  ∃ c', CommitRefresh c kid rid ks now uri = Ret (true, c').
Proof.
  intros Hwf Hrid Hks Hh Hcur Hnow. destruct (CommitRefresh_spec c kid rid ks now uri Hwf)
    as (b & c1 & Hc & _). exists c1. rewrite Hc. do 2 f_equal. unfold CommitRefresh in Hc.
  rewrite Hh, Hcur, Z.eqb_refl, (proj2 (Z.eqb_neq _ _) Hrid), bool_decide_eq_false_2 in Hc by done. simpl in Hc.
  relate_clock now (fetched_at_s h); [|lia|];
    by apply exc_bind_Ret in Hc as (? & _ & [= <- _]).
Qed.

(** Reconciliation evicts other kids only. *)
Lemma evict_keys_recent m l evicted ck n m' l' :
  lru_wf lru_it id m l → ck ∉ evicted → recent ck n l →
  exc_fold evict_key (m, l) evicted = Ret (m', l') → recent ck n l'.
Proof.
  revert m l. induction evicted as [|k ev IH]; intros m l Hwf Hck Hrec; cbn [exc_fold]; [by intros [= <- <-]|].
  apply not_elem_of_cons in Hck as [Hne Hck]. unfold evict_key at 2. destruct (m !! k) as [h|] eqn:Hk; simpl.
  - destruct (lru_delete _ _ _ _ _ _ Hwf Hk) as (l1 & He & Hwf1 & _). rewrite He. simpl.
    apply IH; [done|done|]. eapply (recent_erase lru_it); [exact Hwf|exact Hk|congruence|exact He|done].
  - by apply IH.
Qed.

Lemma kid_of_CacheKey uri kid kid' : kid_of_key uri (CacheKey uri kid) = Some kid' → kid' = kid.
Proof.
  unfold kid_of_key, CacheKey. destruct (sempty uri) eqn:Hu; [by destruct (contains_char _ _); intros [= <-]|].
  destruct (negb _); [done|]. intros [= <-].
  replace (uri +:+ String newline kid) with ((uri +:+ String newline "") +:+ kid) by by rewrite <-sapp_assoc.
  unfold sdrop. by rewrite chars_app, drop_app_length', of_chars_chars by by rewrite length_chars.
Qed.

Lemma reconcile_kept `{!UMapOrder} c present now uri kid c' n ks :
  kid ≠ "" → kept (CacheKey uri kid) n ks c → ReconcileAbsentKids c present now uri kid = Ret c' →
  kept (CacheKey uri kid) n ks c' ∧ max_entries_ c' = max_entries_ c.
Proof.
  intros Hkid (Hwf & Hrec & Hck) Hr. destruct (ReconcileAbsentKids_spec c present now uri kid Hwf)
    as (c1 & Hr1 & Hwf1 & Hmax & _ & _ & Hh). rewrite Hr in Hr1. simplify_eq. split; [|done].
  assert (∀ h, reconcile_entry present uri kid (CacheKey uri kid) h = (h, false)) as Hself.
  { intros h. unfold reconcile_entry. destruct (kid_of_key uri _) as [kid'|] eqn:Hk; [|done].
    apply kid_of_CacheKey in Hk as ->. by rewrite (proj2 (sempty_false kid) Hkid), seqb_refl. }
  split_and!; [done| |].
  - unfold ReconcileAbsentKids in Hr.
    destruct (reconcile_mark c present uri kid Hwf) as (m1 & ev & Hmark & Hlru & _ & Hev). rewrite Hmark in Hr.
    apply exc_bind_Ret in Hr as ([m l] & He & [= <-]).
    replace (hit_lru_ (set_hits m l c)) with l by by destruct c.
    eapply evict_keys_recent; [exact Hlru| |exact Hrec|exact He].
    rewrite Hev. intros (h & _ & Hgone). by rewrite Hself in Hgone.
  - rewrite Hh, <-Hck. unfold reconciled. destruct (hits_ c !! _) as [h|]; [|done]. simpl. by rewrite Hself.
Qed.

(** ** The keys that decide a token *)
Section availability.
Context `{!PicoJson, !JwtCpp, !OpenSsl, !UMapOrder}.
Context (token : string) (parsed : JwtParsed) (opts : VerifyOptions).
Hypothesis Hparsed : ParseJwt token = Some parsed.
Local Abbreviation alg := (jp_alg parsed).
Local Abbreviation kid := (jp_kid parsed).
Local Abbreviation now_s := (vo_now_s opts).

(** [v] is the verdict of the keys [ks]: one of them, fit for the token's header,
    made the signature and gives [v], and no other that made it says otherwise. *)
Record decides (ks : list Jwk) (v : VerifyResult) : Prop := {
  dec_signed : SignatureMatchesCandidate v = true;
  dec_given : given_by_one_of token alg opts v ks;
  dec_only : ∀ k r, k ∈ ks → JwkMatchesTokenHeader k alg = true → VerifyJwt token k opts = Ret r →
    SignatureMatchesCandidate r = true → r = v;
}.

(** A verdict depends on which keys there are, up to their material. *)
Lemma decides_mono ks ks' v k :
  decides ks v → (∀ k, k ∈ ks' → k ∈ ks) → k ∈ ks' → JwkMatchesTokenHeader k alg = true →
  VerifyJwt token k opts = Ret v → decides ks' v.
Proof. intros [Hs _ Ho] Hsub Hk Hfit Hv. split; [done|by exists k|]. eauto. Qed.

Lemma decides_nonempty ks v : decides ks v → ks ≠ [].
Proof. intros Hd ->. destruct (dec_given _ _ Hd) as (k & Hk & _). set_solver. Qed.

Lemma decides_gate ks v :
  decides ks v → IsForbiddenAlgorithm alg || negb (IsAlgorithmAllowed alg (vo_allowed_algorithms opts)) = false.
Proof.
  intros Hd. destruct (dec_given _ _ Hd) as (k & _ & _ & Hv). pose proof (dec_signed _ _ Hd) as Hs.
  apply ParseJwt_Some in Hparsed as (d & Hne & Hdec & Halg & _). unfold VerifyJwt in Hv.
  rewrite (proj2 (sempty_false token) Hne), Hdec, Halg in Hv. cbn [mbind exc_bind] in Hv.
  destruct (_ || _); [by simplify_eq|done].
Qed.

Lemma decides_matching ks v : decides ks v → decides (MatchingKeys ks alg) v.
Proof.
  intros Hd. destruct (dec_given _ _ Hd) as (k & Hk & Hfit & Hv).
  apply (decides_mono ks _ v k); [done|by intros ? [? _]%MatchingKeys_elem| |done|done].
  unfold MatchingKeys. rewrite list_elem_of_In, filter_In, <-list_elem_of_In. done.
Qed.

Lemma VerifyWithCachedKeys_loop_decides ks v au si ff :
  (∀ k, k ∈ ks → JwkMatchesTokenHeader k alg = true) → decides ks v →
  VerifyWithCachedKeys_loop token opts ks au si ff = Ret v.
Proof.
  revert au si ff. induction ks as [|k ks IH]; intros au si ff Hfit [Hs (k1 & Hk1 & Hfit1 & Hv) Ho]; [set_solver|].
  simpl. destruct (VerifyJwt_total token parsed k opts Hparsed) as [r Hr]. rewrite Hr. simpl.
  destruct (SignatureMatchesCandidate r) eqn:Hsr.
  { f_equal. apply (Ho k); [left|apply Hfit; left|done|done]. }
  assert (k1 ∈ ks) as Hin. { apply elem_of_cons in Hk1 as [->|]; [|done]. congruence. }
  assert (decides ks v) as Hd' by (split; [done|by exists k1|intros; eapply Ho; [by right|done..]]).
  repeat case_decide; (apply IH; [intros; apply Hfit; by right|done]).
Qed.

Lemma VerifyWithCachedKeys_decides ks v :
  (∀ k, k ∈ ks → JwkMatchesTokenHeader k alg = true) → decides ks v → VerifyWithCachedKeys token ks opts = Ret v.
Proof.
  intros Hfit Hd. unfold VerifyWithCachedKeys.
  destruct ks; [|by apply VerifyWithCachedKeys_loop_decides].
  destruct (dec_given _ _ Hd) as (k & Hk & _). set_solver.
Qed.

Lemma SelectAndVerify_decides ks v : decides ks v → SelectAndVerify token alg ks opts = Ret (Some v).
Proof.
  induction ks as [|k ks IH]; intros [Hs (k1 & Hk1 & Hfit1 & Hv) Ho]; [set_solver|]. simpl.
  assert (k1 ∈ ks → decides ks v) as Hrest.
  { intros Hin. split; [done|by exists k1|]. intros; eapply Ho; [by right|done..]. }
  destruct (JwkMatchesTokenHeader k alg) eqn:Hfit.
  - destruct (VerifyJwt_total token parsed k opts Hparsed) as [r Hr]. rewrite Hr. simpl.
    destruct (SignatureMatchesCandidate r) eqn:Hsr.
    { do 2 f_equal. apply (Ho k); [left|done..]. }
    apply elem_of_cons in Hk1 as [->|]; [congruence|auto].
  - apply elem_of_cons in Hk1 as [->|]; [congruence|auto].
Qed.

Lemma VerifyAgainstCachedKid_decides ks v : decides ks v → VerifyAgainstCachedKid token alg ks opts = Ret v.
Proof.
  intros Hd%decides_matching. unfold VerifyAgainstCachedKid.
  pose proof (VerifyWithCachedKeys_decides (MatchingKeys ks alg) v) as Hv.
  destruct (MatchingKeys ks alg) as [|k l] eqn:Hm.
  { destruct (dec_given _ _ Hd) as (k & Hk & _). set_solver. }
  apply Hv; [|done]. intros k'. rewrite <-Hm. by intros [_ ?]%MatchingKeys_elem.
Qed.

(** The keys of a kid in a document, grouped and screened, keep the verdict. *)
Definition signing (k : Jwk) : bool := sempty (jwk_use k) || seqb (jwk_use k) "sig".

Lemma fit_signing k a : JwkMatchesTokenHeader k a = true → signing k = true.
Proof. unfold JwkMatchesTokenHeader, signing. by destruct (sempty _), (seqb (jwk_use k) "sig"). Qed.

Lemma GroupSigningKeysByKid_lookup ks x :
  default [] (GroupSigningKeysByKid ks !! x) = List.filter (λ k, signing k && seqb (jwk_kid k) x) ks.
Proof.
  unfold GroupSigningKeysByKid.
  assert (∀ l (m : gmap string (list Jwk)),
    default [] (foldl (λ m k, if signing k then <[jwk_kid k := default [] (m !! jwk_kid k) ++ [k]]> m else m) m l !! x)
    = default [] (m !! x) ++ List.filter (λ k, signing k && seqb (jwk_kid k) x) l) as Hgen.
  { induction l as [|k l IH]; intros m; simpl; [by rewrite app_nil_r|]. rewrite IH.
    destruct (signing k); simpl; [|done]. destruct (seqb (jwk_kid k) x) eqn:Hx.
    - apply seqb_true in Hx as <-. rewrite lookup_insert_eq. simpl. by rewrite <-app_assoc.
    - apply seqb_false in Hx. by rewrite lookup_insert_ne. }
  rewrite (Hgen ks ∅). by rewrite lookup_empty.
Qed.

Lemma group_decides ks v :
  decides (List.filter (λ k, seqb (jwk_kid k) kid) ks) v →
  ∃ raw, GroupSigningKeysByKid ks !! kid = Some raw ∧ decides raw v.
Proof.
  intros Hd. destruct (dec_given _ _ Hd) as (k & [Hk Hkid]%list_elem_of_In%filter_In & Hfit & Hv).
  pose proof (GroupSigningKeysByKid_lookup ks kid) as Hg.
  assert (k ∈ default [] (GroupSigningKeysByKid ks !! kid)) as Hin.
  { rewrite Hg, list_elem_of_In, filter_In. split; [done|]. by rewrite (fit_signing _ _ Hfit), Hkid. }
  destruct (GroupSigningKeysByKid ks !! kid) as [raw|]; [|set_solver]. exists raw. split; [done|].
  apply (decides_mono _ _ v k Hd); [|done..]. intros k'. simpl in Hg. rewrite Hg, !list_elem_of_In, !filter_In.
  intros [? [_ ?]%andb_true_iff]. done.
Qed.

(** Keys of the same material are the same key to the verifier. *)
Lemma SameKeyMaterial_verify a b :
  SameKeyMaterial a b = true →
  VerifyJwt token a opts = VerifyJwt token b opts ∧ JwkMatchesTokenHeader a alg = JwkMatchesTokenHeader b alg.
Proof.
  unfold SameKeyMaterial. destruct (_ || _) eqn:Hhd; [done|].
  apply orb_false_iff in Hhd as [[Hkty Halg]%orb_false_iff Huse].
  apply negb_false_iff, seqb_true in Hkty, Halg, Huse. intros Hmat. split.
  - unfold VerifyJwt. destruct (sempty token), (jwt_decode token); [done..| |done].
    assert (jwk_pem a = jwk_pem b) as ->; [|done].
    unfold jwk_pem, JwkRsaToPem, JwkEcToPem, JwkOkpToPem. rewrite <-Hkty.
    destruct (seqb (jwk_kty a) "RSA"); [by apply andb_true_iff in Hmat as [->%seqb_true ->%seqb_true]|].
    destruct (seqb (jwk_kty a) "EC"), (seqb (jwk_kty a) "OKP"); simpl in Hmat; try done;
      apply andb_true_iff in Hmat as [[->%seqb_true ->%seqb_true]%andb_true_iff Hy%seqb_true]; by rewrite ?Hy.
  - unfold JwkMatchesTokenHeader. by rewrite Halg, Huse.
Qed.

Lemma signed_usable k r :
  VerifyJwt token k opts = Ret r → SignatureMatchesCandidate r = true → IsUsableSigningKey k = true.
Proof.
  unfold VerifyJwt. destruct (sempty token); [by intros [= <-]|].
  destruct (jwt_decode token) as [d|]; [|by intros [= <-]].
  intros (a & _ & Hv)%exc_bind_Ret Hr. destruct (_ || _); [by simplify_eq|].
  destruct (jwk_pem k) as [r'|[pem|]] eqn:Hpem; [|clear Hv|by simplify_eq].
  { simplify_eq. unfold jwk_pem in Hpem. repeat case_match; simplify_eq; done. }
  unfold jwk_pem, IsUsableSigningKey in *. destruct (seqb (jwk_kty k) "RSA").
  { by destruct (JwkRsaToPem k) as [? []]; simplify_eq. }
  destruct (seqb (jwk_kty k) "EC"); [injection Hpem as ->; by apply bool_decide_eq_true_2|].
  destruct (seqb (jwk_kty k) "OKP"); [injection Hpem as ->; by apply bool_decide_eq_true_2|done].
Qed.

Lemma ScreenUsableKeys_covers raw k :
  k ∈ raw → IsUsableSigningKey k = true →
  ∃ k', k' ∈ ScreenUsableKeys raw ∧ (k' = k ∨ SameKeyMaterial k' k = true).
Proof.
  unfold ScreenUsableKeys. match goal with |- context [foldl ?f [] _] => set (step := f) end.
  assert (∀ raw acc k', k' ∈ acc → k' ∈ foldl step acc raw) as Hmono.
  { clear. induction raw as [|c raw IH]; intros acc k' Hk'; simpl; [done|]. apply IH. unfold step.
    destruct (IsUsableSigningKey c); [|done]. destruct (existsKey _ _); [done|]. set_solver. }
  generalize (@nil Jwk) as acc. induction raw as [|c raw IH]; intros acc Hin Hu; [set_solver|].
  simpl. apply elem_of_cons in Hin as [<-|Hin]; [|by apply IH].
  assert (∃ k', k' ∈ step acc k ∧ (k' = k ∨ SameKeyMaterial k' k = true)) as (k' & Hk' & Hsame); [|by eauto].
  unfold step. rewrite Hu. destruct (existsKey _ acc) eqn:Hex.
  - apply existsb_elem in Hex as (k' & Hk' & Hsame). eauto.
  - exists k. split; [set_solver|by left].
Qed.

Lemma screen_decides raw v : decides raw v → decides (ScreenUsableKeys raw) v.
Proof.
  intros Hd. destruct (dec_given _ _ Hd) as (k & Hk & Hfit & Hv).
  destruct (ScreenUsableKeys_covers raw k Hk (signed_usable _ _ Hv (dec_signed _ _ Hd))) as (k' & Hk' & Hsame).
  assert (VerifyJwt token k' opts = Ret v ∧ JwkMatchesTokenHeader k' alg = true) as [Hv' Hfit'].
  { destruct Hsame as [->|[-> ->]%SameKeyMaterial_verify]; done. }
  apply (decides_mono raw _ v k'); [done|by intros ? [? _]%ScreenUsableKeys_elem|done..].
Qed.

(** The search for the key that made the signature puts it first. *)
Lemma swap_first_head i l b : l !! i = Some b → head (swap_first i l) = Some b.
Proof.
  unfold swap_first. intros Hb. rewrite Hb. destruct l as [|a l]; [done|]. simpl. destruct i as [|i]; done.
Qed.

Lemma PrioritizeMatchingKey_loop_decides ks v rest i :
  decides ks v → rest = drop i ks → given_by_one_of token alg opts v rest →
  ∃ ks' k, PrioritizeMatchingKey_loop rest i ks token alg opts None = Ret (ks', Some v) ∧
    ks' ≡ₚ ks ∧ head ks' = Some k ∧ JwkMatchesTokenHeader k alg = true ∧ VerifyJwt token k opts = Ret v.
Proof.
  intros Hd. revert i. induction rest as [|c rest IH]; intros i Hrest (k1 & Hk1 & Hfit1 & Hv1); [set_solver|].
  assert (ks !! i = Some c) as Hi by (rewrite <-(Nat.add_0_r i), <-lookup_drop, <-Hrest; done).
  assert (rest = drop (S i) ks) as Hrest'.
  { rewrite <-Nat.add_1_r, <-drop_drop, <-Hrest. done. }
  cbn [PrioritizeMatchingKey_loop SelectAndVerify].
  assert (k1 ∈ rest → ∃ ks' k, PrioritizeMatchingKey_loop rest (S i) ks token alg opts None = Ret (ks', Some v) ∧
    ks' ≡ₚ ks ∧ head ks' = Some k ∧ JwkMatchesTokenHeader k alg = true ∧ VerifyJwt token k opts = Ret v) as Hrec.
  { intros Hin. apply (IH (S i)); [done|]. by exists k1. }
  destruct (JwkMatchesTokenHeader c alg) eqn:Hfit.
  2: { apply elem_of_cons in Hk1 as [->|Hin]; [congruence|]. by apply Hrec. }
  destruct (VerifyJwt_total token parsed c opts Hparsed) as [r Hr]. rewrite Hr. cbn [mbind exc_bind].
  destruct (SignatureMatchesCandidate r) eqn:Hs.
  - cbn [mbind exc_bind]. rewrite Hs.
    assert (r = v) as -> by (eapply (dec_only _ _ Hd); [by eapply list_elem_of_lookup_2|done..]).
    eexists _, c. split_and!; [done| | |done|done].
    + by destruct (0 <? i)%nat; [apply swap_first_perm|].
    + destruct (Nat.ltb_spec 0 i); [by apply swap_first_head|].
      replace i with 0%nat in Hi by lia. by destruct ks.
  - cbn [mbind exc_bind]. apply elem_of_cons in Hk1 as [->|Hin]; [|by apply Hrec].
    pose proof (dec_signed _ _ Hd). congruence.
Qed.

Lemma PrioritizeMatchingKey_decides ks v :
  decides ks v →
  ∃ ks' out, PrioritizeMatchingKey ks token alg opts None = Ret (ks', out) ∧ ks' ≠ [] ∧
    decides (take kMaxKeysPerKid ks') v ∧
    (out = Some v ∨ out = None ∧ (length ks' ≤ 1)%nat).
Proof.
  intros Hd. unfold PrioritizeMatchingKey. destruct (Nat.leb_spec (length ks) 1).
  - exists ks, None. split_and!; [done| | |by right].
    + intros ->. destruct (dec_given _ _ Hd) as (k & Hk & _). set_solver.
    + rewrite take_ge; [done|]. unfold kMaxKeysPerKid. lia.
  - destruct (PrioritizeMatchingKey_loop_decides ks v ks 0 Hd eq_refl (dec_given _ _ Hd))
      as (ks' & k & -> & Hperm & Hhd & Hfit & Hv).
    exists ks', (Some v). split_and!; [done|by destruct ks'| |by left].
    apply (decides_mono ks _ v k); [done| | |done|done].
    + intros k' (i & Hi & _)%elem_of_take. rewrite <-Hperm. by eapply list_elem_of_lookup_2.
    + destruct ks' as [|k0 ks']; simplify_eq/=. left.
Qed.

(** ** The loops over a fetched document *)
Section effects.
Context {W : Type} (ctx : ValidateContext W) `{!RefLaws (vx_jwks_cache ctx)}.
Local Abbreviation C w := (ref_get (vx_jwks_cache ctx) w).
Local Abbreviation uri := (vx_jwks_uri ctx).
Local Abbreviation ck := (CacheKey uri kid).

Lemma CacheKey_other x : x ≠ kid → ck ≠ CacheKey uri x.
Proof.
  intros Hne Heq. apply Hne. unfold CacheKey in Heq. destruct (sempty uri); [done|].
  by apply app_inj_prefix in Heq as [= ->].
Qed.

(** Ingesting another kid, while some documents are left. *)
Lemma ingest_other x ks n ks0 w :
  kept ck n ks0 (C w) → x ≠ kid → Z.of_nat (S n) < max_entries_ (C w) →
  ∃ c', OnPassiveFetchSuccess (C w) x ks now_s uri = Ret c' ∧ kept ck (S n) ks0 c' ∧
    max_entries_ c' = max_entries_ (C w).
Proof.
  intros Hk Hne Hn. destruct (OnPassiveFetchSuccess_spec (C w) x ks now_s uri) as (c' & Hc & _); [apply Hk|].
  exists c'. split; [done|]. by eapply passive_other; [..|done]; [|apply CacheKey_other|].
Qed.

Lemma um_iter_length {A} (m : gmap string A) : length (um_iter m) = size m.
Proof. by rewrite um_iter_perm, length_map_to_list. Qed.

Lemma um_iter_split {A} (m : gmap string A) pre x (a : A) rest :
  um_iter m = pre ++ (x, a) :: rest → m !! x = Some a ∧ x ∉ rest.*1.
Proof.
  intros Hm. split; [apply um_iter_elem; rewrite Hm; set_solver|].
  pose proof (um_iter_nodup m) as Hnd. rewrite Hm, fmap_app in Hnd.
  apply NoDup_app in Hnd as (_ & _ & Hnd). simpl in Hnd. by apply NoDup_cons in Hnd as [? _].
Qed.

Lemma um_iter_in {A} (m : gmap string A) x (a : A) : m !! x = Some a → x ∈ (um_iter m).*1.
Proof. intros Hx. apply list_elem_of_fmap. exists (x, a). split; [done|]. by apply um_iter_elem. Qed.

(** The target's entry survives the siblings, as long as the document fits. *)
Lemma IngestSiblingKeys_keeps (m : gmap string (list Jwk)) ks raw :
  kid ≠ "" → m !! kid = Some raw →
  hoare (λ w, kept ck 0 ks (C w) ∧ Z.of_nat (size m) ≤ max_entries_ (C w))
    (IngestSiblingKeys m kid now_s ctx) (λ _ w, ∃ n, kept ck n ks (C w)).
Proof.
  intros Hkid Hraw. unfold IngestSiblingKeys.
  set (I := λ (rest : list (string * list Jwk)) (_ : unit) w, ∃ n, kept ck n ks (C w) ∧
    (kid ∈ rest.*1 ∧ Z.of_nat (n + length rest) ≤ max_entries_ (C w) ∨
     kid ∉ rest.*1 ∧ Z.of_nat (n + length rest) < max_entries_ (C w))).
  eapply (hoare_bind _ _ _ (I (um_iter m))).
  - apply hoare_call. intros w [Hk Hsz].
    destruct (ReconcileAbsentKids_spec (C w) (present_kids_of m) now_s uri kid) as (c & Hc & _); [apply Hk|].
    destruct (reconcile_kept _ _ _ _ _ _ _ _ Hkid Hk Hc) as [Hk' Hmax].
    exists c. split; [done|]. exists 0%nat. rewrite ref_get_set, um_iter_length, Hmax.
    split; [done|]. left. split; [by eapply um_iter_in|lia].
  - intros []. eapply hoare_post; [|apply (hoare_fold_rest I)]; [intros _ w (n & ? & _); by exists n|].
    intros pre [x ks0] rest [] Hm. destruct (um_iter_split _ _ _ _ _ Hm) as [_ Hx].
    destruct (decide (x = kid)) as [->|Hne].
    + rewrite seqb_refl. apply hoare_ret. intros w (n & Hk & Hn). exists n. split; [done|].
      right. split; [done|]. destruct Hn as [[_ Hn]|[Hn _]]; [simpl in Hn; lia|set_solver].
    + rewrite (proj2 (seqb_false x kid) Hne). simpl.
      assert (∀ w, I ((x, ks0) :: rest) tt w → ∃ n, kept ck n ks (C w) ∧ Z.of_nat (S n) < max_entries_ (C w) ∧
        (kid ∈ rest.*1 ∧ Z.of_nat (S n + length rest) ≤ max_entries_ (C w) ∨
         kid ∉ rest.*1 ∧ Z.of_nat (S n + length rest) < max_entries_ (C w))) as Hstep.
      { intros w (n & Hk & Hn). exists n. split; [done|]. simpl in Hn.
        destruct Hn as [[[?|Hin]%elem_of_cons Hn]|[[_ Hin]%not_elem_of_cons Hn]]; [done| |].
        - assert (0 < length rest)%nat by (destruct rest; [set_solver|simpl; lia]).
          split; [lia|]. left. split; [done|lia].
        - split; [lia|]. right. split; [done|lia]. }
      case_bool_decide.
      * apply hoare_ret. intros w (n & Hk & _ & Hn)%Hstep. exists (S n). split; [|done].
        by eapply kept_mono; [|done]; lia.
      * apply hoare_call. intros w (n & Hk & Hlt & Hn)%Hstep.
        destruct (ingest_other x (ScreenUsableKeys ks0) n ks w) as (c & Hc & Hk' & Hmax); [done..|].
        exists c. split; [done|]. exists (S n). by rewrite ref_get_set, Hmax.
Qed.

(** The cold path stores the target with keys that decide the token, whatever the
    order of the kids, and it may already have the verdict. *)
Definition served (v : VerifyResult) (w : W) : Prop := ∃ n ks, kept ck n ks (C w) ∧ decides ks v.

Lemma IngestAllKeys_target (m : gmap string (list Jwk)) raw v (P : W → Prop) (Q : option VerifyResult → W → Prop) :
  decides raw v →
  (∀ w, P w → jc_wf (C w) ∧ FindHit (C w) uri kid = None) →
  (∀ w c ks o, P w → kept ck 0 ks c → decides ks v → max_entries_ c = max_entries_ (C w) →
     o = Some v ∨ o = None → Q o (ref_set (vx_jwks_cache ctx) c w)) →
  hoare P
    ('(usable, cold_verified) ← lift (PrioritizeMatchingKey (ScreenUsableKeys raw) token alg opts None);
     _ ← ref_call (vx_jwks_cache ctx) (λ c, OnPassiveFetchSuccess c kid usable now_s uri);
     mret cold_verified) Q.
Proof.
  intros Hd HP HQ.
  destruct (PrioritizeMatchingKey_decides _ v (screen_decides _ _ Hd)) as (ks' & o & Hp & Hne & Hd' & Ho).
  rewrite Hp. apply (hoare_bind _ _ _ (λ p w, p = (ks', o) ∧ P w)); [by apply hoare_lift with (ks', o)|].
  intros p. apply hoare_pure. intros ->. apply (hoare_bind _ _ _ (λ _, Q o)); [|intros []; by apply hoare_ret].
  apply hoare_call. intros w Hw. destruct (HP w Hw) as [Hwf Hnone].
  destruct (OnPassiveFetchSuccess_spec (C w) kid ks' now_s uri Hwf) as (c & Hc & _).
  destruct (passive_front _ _ _ _ _ _ Hwf Hnone Hne Hc) as [Hk Hmax].
  exists c. split; [done|]. apply (HQ w c (take kMaxKeysPerKid ks')); [done..|]. destruct Ho as [|[? _]]; auto.
Qed.

Lemma IngestAllKeys_serves (m : gmap string (list Jwk)) raw v :
  m !! kid = Some raw → decides raw v →
  hoare (λ w, jc_wf (C w) ∧ FindHit (C w) uri kid = None ∧ Z.of_nat (size m) ≤ max_entries_ (C w))
    (IngestAllKeys token parsed opts ctx m) (λ o w, served v w ∧ (o = Some v ∨ o = None)).
Proof.
  intros Hraw Hd.
  set (I := λ (rest : list (string * list Jwk)) (o : option VerifyResult) w,
    (kid ∈ rest.*1 ∧ o = None ∧ jc_wf (C w) ∧ FindHit (C w) uri kid = None ∧
     Z.of_nat (length rest) ≤ max_entries_ (C w)) ∨
    (kid ∉ rest.*1 ∧ (o = Some v ∨ o = None) ∧ ∃ n ks, kept ck n ks (C w) ∧ decides ks v ∧
     Z.of_nat (n + length rest) < max_entries_ (C w))).
  eapply hoare_pre; [|eapply hoare_post; [|apply (hoare_fold_rest I)]].
  - intros w (? & ? & Hsz). left. rewrite um_iter_length. split_and!; [by eapply um_iter_in|done..].
  - intros o w [[Hin _]|(_ & Ho & n & ks & ? & ? & _)]; [set_solver|]. split; [by exists n, ks|done].
  - intros pre [x ks0] rest o Hm. destruct (um_iter_split _ _ _ _ _ Hm) as [Hx Hrest].
    cbv beta iota zeta. destruct (decide (x = kid)) as [->|Hne].
    + assert (ks0 = raw) as -> by congruence. rewrite seqb_refl, bool_decide_eq_false_2.
      2: { intros Hnil. pose proof (screen_decides _ _ Hd) as Hd'. rewrite Hnil in Hd'.
           destruct (dec_given _ _ Hd') as (k & Hk & _). set_solver. }
      eapply (hoare_pre (λ w, o = None ∧ (jc_wf (C w) ∧ FindHit (C w) uri kid = None ∧
        Z.of_nat (S (length rest)) ≤ max_entries_ (C w)))).
      { intros w [(_ & ? & ? & ? & ?)|[Hin _]]; [done|set_solver]. }
      apply hoare_pure. intros ->. apply (IngestAllKeys_target m raw v); [done|naive_solver|].
      intros w c ks o (_ & _ & Hsz) Hk Hdk Hmax Ho. right. split_and!; [done|done|].
      exists 0%nat, ks. rewrite ref_get_set, Hmax. split_and!; [done|done|lia].
    + rewrite (proj2 (seqb_false x kid) Hne).
      assert (∀ w, I ((x, ks0) :: rest) o w →
        (kid ∈ rest.*1 ∧ o = None ∧ jc_wf (C w) ∧ FindHit (C w) uri kid = None ∧
         Z.of_nat (S (length rest)) ≤ max_entries_ (C w)) ∨
        (kid ∉ rest.*1 ∧ (o = Some v ∨ o = None) ∧ ∃ n ks, kept ck n ks (C w) ∧ decides ks v ∧
         Z.of_nat (S n + length rest) < max_entries_ (C w))) as Hstep.
      { intros w [([?|?]%elem_of_cons & ? & ? & ? & ?)|([_ ?]%not_elem_of_cons & ? & n & ks & ? & ? & Hn)].
        - done.
        - by left.
        - right. split_and!; [done|done|]. exists n, ks. split_and!; [done|done|]. simpl in Hn. lia. }
      case_bool_decide.
      * apply hoare_ret. intros w [(? & ? & ? & ? & ?)|(? & ? & n & ks & ? & ? & ?)]%Hstep;
          [left; split_and!; [done..|lia]|right; split_and!; [done..|]].
        exists n, ks. split_and!; [done|done|lia].
      * eapply (hoare_bind _ _ _ (λ p w, p = (ScreenUsableKeys ks0, o) ∧ I ((x, ks0) :: rest) o w)).
        { by apply hoare_ret. }
        intros p. apply hoare_pure. intros ->. apply (hoare_bind _ _ _ (λ _, I rest o)); [|intros []; by apply hoare_ret].
        apply hoare_call. intros w [(Hin & -> & Hwf & Hnone & Hsz)|(Hin & Ho & n & ks & Hk & Hdk & Hn)]%Hstep.
        -- destruct (OnPassiveFetchSuccess_spec (C w) x (ScreenUsableKeys ks0) now_s uri Hwf)
             as (c & Hc & Hwf' & Hmax & _ & _ & Hother).
           exists c. split; [done|]. left. rewrite !ref_get_set, Hmax. split_and!; [done|done|done| |lia].
           unfold FindHit in *. destruct (hits_ c !! ck) as [h|] eqn:Hh; [|done].
           apply Hother in Hh; [congruence|by apply CacheKey_other].
        -- destruct (ingest_other x (ScreenUsableKeys ks0) n ks w) as (c & Hc & Hk' & Hmax); [done|done|lia|].
           exists c. split; [done|]. right. split_and!; [done|done|]. exists (S n), ks.
           rewrite !ref_get_set, Hmax. done.
Qed.

(** ** The three ways a key reaches a token

    A fetched document serves a token: it is a 200 answer whose keys of the token's
    kid decide it, with no more kids than the cache has entries. *)
Record serves (resp : Response) (c : JwksCache) (v : VerifyResult) : Prop := {
  sv_status : status_code resp = 200;
  sv_size : Z.of_nat (size (GroupSigningKeysByKid (ParseJwksJson (body resp)))) ≤ max_entries_ c;
  sv_decides : decides (List.filter (λ k, seqb (jwk_kid k) kid) (ParseJwksJson (body resp))) v;
}.

Inductive owed (v : VerifyResult) (w : W) : Prop :=
  | owed_cached h :
      FindHit (C w) uri kid = Some h → decides (keys h) v → owed v w
  | owed_fetched resp w' :
      jl_status (Lookup (C w) kid now_s uri) = Miss →
      HasFreshJwksDocument (C w) now_s kGlobalFetchBudgetWindowSeconds uri = false →
      CanFetchJwks (C w) now_s = true →
      Get (vx_http ctx) uri (ref_set (vx_jwks_cache ctx) (RecordJwksFetch (C w) now_s) w) = (Ret (Some resp), w') →
      jc_wf (C w') → FindHit (C w') uri kid = None → serves resp (C w') v → owed v w
  | owed_rotated h rid c resp w' h' :
      FindHit (C w) uri kid = Some h →
      (∀ k, k ∈ keys h → JwkMatchesTokenHeader k alg = true → VerifyJwt token k opts = Ret InvalidSignature) →
      CanFetchJwks (C w) now_s = true →
      TryReserveRefresh (C w) kid now_s uri = (rid, c) → rid ≠ 0 →
      Get (vx_http ctx) uri (ref_set (vx_jwks_cache ctx) (RecordJwksFetch c now_s) w) = (Ret (Some resp), w') →
      jc_wf (C w') → FindHit (C w') uri kid = Some h' → current_reservation_id h' = rid →
      fetched_at_s h' ≤ now_s → serves resp (C w') v → owed v w.

Lemma serves_document resp c v : serves resp c v → ∃ k0 ks0, ParseJwksJson (body resp) = k0 :: ks0.
Proof.
  intros [_ _ Hd%decides_nonempty]. destruct (ParseJwksJson (body resp)) as [|k0 ks0]; [done|by eauto].
Qed.

Lemma served_Lookup v w :
  served v w → ∃ ks, Lookup (C w) kid now_s uri = mkJwksLookup Hit ks 0 ∧ decides ks v.
Proof. intros (n & ks & Hk%(kept_Lookup _ _ _ _ _ now_s) & Hd). by exists ks. Qed.

Lemma ColdFetch_serves w resp w' v :
  Get (vx_http ctx) uri (ref_set (vx_jwks_cache ctx) (RecordJwksFetch (C w) now_s) w) = (Ret (Some resp), w') →
  jc_wf (C w') → FindHit (C w') uri kid = None → serves resp (C w') v →
  ∃ w'', ColdFetch token parsed opts ctx w = (Ret v, w'') ∧ served v w''.
Proof.
  intros Hget Hwf Hnone Hsv. unfold ColdFetch. rewrite ref_upd_bind, (M_bind_run _ _ _ _ _ Hget).
  rewrite (sv_status _ _ _ Hsv). change (negb (200 =? 200)) with false. cbv iota.
  destruct (serves_document _ _ _ Hsv) as (k0 & ks0 & Hdoc). rewrite Hdoc. cbv iota.
  rewrite <-Hdoc, ref_upd_bind.
  destruct (group_decides _ v (sv_decides _ _ _ Hsv)) as (raw & Hraw & Hd).
  set (m := GroupSigningKeysByKid _) in *. set (w1 := ref_set _ _ w').
  destruct (record_success_same (C w') now_s uri) as (Hh & _ & _ & Hmax & _).
  destruct (IngestAllKeys token parsed opts ctx m w1) as [r w2] eqn:Hrun.
  assert (jc_wf (C w1) ∧ FindHit (C w1) uri kid = None ∧ Z.of_nat (size m) ≤ max_entries_ (C w1)) as Hpre.
  { unfold w1. rewrite ref_get_set, Hmax. split_and!; [by apply wf_record_success| |apply Hsv].
    unfold FindHit in *. by rewrite Hh. }
  destruct (hoare_run _ _ _ _ _ _ (IngestAllKeys_serves m raw v Hraw Hd) Hpre Hrun) as (o & -> & Hserved & Ho).
  exists w2. split; [|done]. rewrite (M_bind_run _ _ _ _ _ Hrun), ref_read_bind.
  destruct (served_Lookup v w2 Hserved) as (ks & -> & Hdk). simpl.
  rewrite (bool_decide_eq_false_2 (ks = [])) by by eapply decides_nonempty. simpl.
  assert (VerifyAgainstCachedKid token alg ks opts = Ret v) as Hv by by apply VerifyAgainstCachedKid_decides.
  destruct Ho as [-> | ->]; [by rewrite (dec_signed _ _ Hdk)|]. unfold lift. by rewrite Hv.
Qed.

Lemma CommitTargetKid_serves rid (m : gmap string (list Jwk)) raw v out w h :
  m !! kid = Some raw → decides raw v → jc_wf (C w) → rid ≠ 0 →
  FindHit (C w) uri kid = Some h → current_reservation_id h = rid → fetched_at_s h ≤ now_s →
  ∃ o out' w1 ks, CommitTargetKid kid rid token alg m opts ctx out None w = (Ret (o, out'), w1) ∧
    kept ck 0 ks (C w1) ∧ decides ks v ∧ max_entries_ (C w1) = max_entries_ (C w) ∧ (o = Some v ∨ o = None).
Proof.
  intros Hraw Hd Hwf Hrid Hh Hcur Hnow. unfold CommitTargetKid. rewrite Hraw.
  pose proof (screen_decides _ _ Hd) as Hds.
  destruct (PrioritizeMatchingKey_decides _ v Hds) as (ks & o & Hp & Hne & Hdk & Ho).
  destruct (ScreenUsableKeys raw) as [|c0 cs] eqn:Hscreen; [by apply decides_nonempty in Hds|].
  rewrite (M_bind_run _ _ w (ks, o) w) by by rewrite Hp. cbv beta iota. rewrite ref_read_bind.
  set (live := jl_keys _).
  assert (match o with None => PrioritizeNewKeys ks live | Some _ => ks end = ks) as Hks.
  { destruct Ho as [->|[-> Hlen]]; [done|]. unfold PrioritizeNewKeys.
    by rewrite (proj2 (Nat.leb_le (length ks) kMaxKeysPerKid)) by (unfold kMaxKeysPerKid; lia). }
  cbv zeta. rewrite Hks. destruct (commit_granted (C w) kid rid ks now_s uri h) as (c & Hc); [done..|].
  destruct (commit_front _ _ _ _ _ _ _ Hwf Hc) as [Hk Hmax].
  unfold CommitAndAudit. rewrite (M_bind_eq (_ ≫= _)). cbv zeta. rewrite (ref_run_bind _ _ _ _ _ _ Hc).
  eexists _, _, _, (take kMaxKeysPerKid ks). split; [reflexivity|]. rewrite ref_get_set.
  split_and!; [done|done|done|]. destruct Ho as [|[? _]]; auto.
Qed.

Lemma ReverifyAfterCommit_serves o v w :
  served v w → o = Some v ∨ o = None → ReverifyAfterCommit token kid alg opts ctx o w = (Ret v, w).
Proof.
  intros Hserved [-> | ->]; [done|]. unfold ReverifyAfterCommit. rewrite ref_read_bind.
  destruct (served_Lookup v w Hserved) as (ks & -> & Hdk). simpl.
  rewrite (bool_decide_eq_false_2 (ks = [])) by by eapply decides_nonempty. simpl.
  pose proof (decides_matching _ _ Hdk) as Hdm. pose proof (SelectAndVerify_decides _ _ Hdm) as Hv.
  destruct (MatchingKeys ks alg) eqn:Hm; [by apply decides_nonempty in Hdm|].
  rewrite (M_bind_run _ _ w (Some v) w); [done|]. exact (f_equal (λ r, (r, w)) Hv).
Qed.

Lemma served_reason v w r :
  served v w → served v (ref_set (vx_jwks_cache ctx) (SetLastRefreshReason (C w) r) w).
Proof.
  intros (n & ks & Hk & Hd). exists n, ks. rewrite ref_get_set. split; [|done].
  eapply kept_same; [|..|exact Hk]; [|by destruct (C w)..]. pose proof (proj1 Hk) as Hwf.
  auto with jwks.
Qed.

Lemma TryRefresh_serves out w rid c resp w' h' v :
  kid ≠ "" → CanFetchJwks (C w) now_s = true → TryReserveRefresh (C w) kid now_s uri = (rid, c) → rid ≠ 0 →
  Get (vx_http ctx) uri (ref_set (vx_jwks_cache ctx) (RecordJwksFetch c now_s) w) = (Ret (Some resp), w') →
  jc_wf (C w') → FindHit (C w') uri kid = Some h' → current_reservation_id h' = rid →
  fetched_at_s h' ≤ now_s → serves resp (C w') v →
  ∃ out' w'', TryRefreshRotatedKid token kid alg opts ctx out w = (Ret (Some v, out'), w'') ∧ served v w''.
Proof.
  intros Hkid Hcan Hres Hrid Hget Hwf Hh Hcur Hnow Hsv. unfold TryRefreshRotatedKid. cbv zeta.
  rewrite ref_read_bind, Hcan. cbn [negb]. cbv iota.
  rewrite (ref_run_bind _ _ _ w rid c) by by rewrite Hres.
  rewrite (proj2 (Z.eqb_neq rid 0) Hrid). cbv iota.
  set (e := default RefreshEvent_default out). set (w1 := ref_set (vx_jwks_cache ctx) (RecordJwksFetchSuccess (C w') now_s uri) w').
  destruct (serves_document _ _ _ Hsv) as (k0 & ks0 & Hdoc).
  rewrite (M_bind_run _ _ _ (Some (ParseJwksJson (body resp)), Some e) w1).
  2: { unfold FetchAndParseJwks. rewrite ref_upd_bind, ref_get_set, ref_set_set, (M_bind_run _ _ _ _ _ Hget).
       rewrite (sv_status _ _ _ Hsv). change (negb (200 =? 200)) with false. cbv iota. by rewrite Hdoc. }
  cbv beta iota. destruct (group_decides _ v (sv_decides _ _ _ Hsv)) as (raw & Hraw & Hd).
  set (m := GroupSigningKeysByKid _) in *.
  destruct (record_success_same (C w') now_s uri) as (Hhits & _ & _ & Hmax & _).
  assert (jc_wf (C w1) ∧ FindHit (C w1) uri kid = Some h' ∧ max_entries_ (C w1) = max_entries_ (C w'))
    as (Hwf1 & Hh1 & Hmax1).
  { unfold w1. rewrite ref_get_set. split_and!; [by apply wf_record_success| |done].
    unfold FindHit in *. by rewrite Hhits. }
  destruct (CommitTargetKid_serves rid m raw v (Some e) w1 h') as (o & out' & w2 & ks & Hcommit & Hk & Hdk & Hmax2 & Ho);
    [done..|]. rewrite (M_bind_run _ _ _ _ _ Hcommit). cbv beta iota.
  destruct (IngestSiblingKeys m kid now_s ctx w2) as [r w3] eqn:Hsib.
  assert (kept ck 0 ks (C w2) ∧ Z.of_nat (size m) ≤ max_entries_ (C w2)) as Hpre.
  { rewrite Hmax2, Hmax1. split; [done|apply Hsv]. }
  destruct (hoare_run _ _ _ _ _ _ (IngestSiblingKeys_keeps m ks raw Hkid Hraw) Hpre Hsib) as ([] & -> & n & Hk3).
  rewrite (M_bind_run _ _ _ _ _ Hsib), ref_upd_bind.
  assert (served v w3) as Hserved by by exists n, ks.
  eexists _, _. split; [|apply served_reason; exact Hserved].
  rewrite (M_bind_run _ _ _ _ _ (ReverifyAfterCommit_serves o v _ (served_reason v w3 _ Hserved) Ho)). done.
Qed.

Lemma CachedKid_rotated out h v w :
  FindHit (C w) uri kid = Some h →
  (∀ k, k ∈ keys h → JwkMatchesTokenHeader k alg = true → VerifyJwt token k opts = Ret InvalidSignature) →
  (∃ out' w'', TryRefreshRotatedKid token kid alg opts ctx out w = (Ret (Some v, out'), w'') ∧ served v w'') →
  ∃ out' w'', CachedKid token parsed opts ctx out (keys h) w = (Ret (v, out'), w'') ∧ served v w''.
Proof.
  intros Hh Hold (out' & w'' & Hrefresh & Hserved). exists out', w''. split; [|done]. unfold CachedKid.
  assert (∀ k, k ∈ MatchingKeys (keys h) alg → VerifyJwt token k opts = Ret InvalidSignature) as Hinv.
  { intros k [Hk Hfit]%MatchingKeys_elem. auto. }
  destruct (MatchingKeys (keys h) alg) as [|k l] eqn:Hm; [by rewrite (M_bind_run _ _ _ _ _ Hrefresh)|].
  assert (∀ ks au ff, (∀ k, k ∈ ks → VerifyJwt token k opts = Ret InvalidSignature) →
    VerifyWithCachedKeys_loop token opts ks au true ff = Ret InvalidSignature) as Hloop.
  { clear. induction ks as [|k0 ks IH]; intros au ff Hks; [done|]. simpl. rewrite Hks by left. simpl.
    apply IH. intros; apply Hks; by right. }
  rewrite (M_bind_run _ _ w InvalidSignature w).
  - simpl. by rewrite (M_bind_run _ _ _ _ _ Hrefresh).
  - unfold lift. f_equal. simpl. rewrite Hinv by left. simpl. apply Hloop. intros; apply Hinv; by right.
Qed.

End effects.
End availability.

Lemma owed_verdict `{!PicoJson, !JwtCpp, !OpenSsl, !UMapOrder} {W} (ctx : ValidateContext W)
    `{!RefLaws (vx_jwks_cache ctx)} token parsed opts out v w :
  ParseJwt token = Some parsed → jp_kid parsed ≠ "" → owed token parsed opts ctx v w →
  ∃ out' w', ValidateToken token opts ctx out w = (Ret (v, out'), w') ∧
    ∃ h, FindHit (ref_get (vx_jwks_cache ctx) w') (vx_jwks_uri ctx) (jp_kid parsed) = Some h ∧
      decides token parsed opts (keys h) v.
Proof.
  intros Hp Hkid Howed.
  assert (∃ ks, decides token parsed opts ks v) as [ks Hks].
  { destruct Howed as [? _ ?|? ? _ _ _ _ _ _ [_ _ ?]|? ? ? ? ? ? _ _ _ _ _ _ _ _ _ _ [_ _ ?]]; eauto. }
  unfold ValidateToken. rewrite Hp, (decides_gate token parsed opts Hp ks v Hks), (proj2 (sempty_false _) Hkid). cbv zeta. rewrite ref_read_bind.
  assert (∀ h, FindHit (ref_get (vx_jwks_cache ctx) w) (vx_jwks_uri ctx) (jp_kid parsed) = Some h →
    Lookup (ref_get (vx_jwks_cache ctx) w) (jp_kid parsed) (vo_now_s opts) (vx_jwks_uri ctx)
    = mkJwksLookup Hit (keys h) 0) as Hhit by (unfold Lookup; by intros h ->).
  assert (∀ w', served token parsed opts ctx v w' →
    ∃ h, FindHit (ref_get (vx_jwks_cache ctx) w') (vx_jwks_uri ctx) (jp_kid parsed) = Some h ∧
      decides token parsed opts (keys h) v) as Hfinal.
  { intros w' (n & ks' & (_ & _ & (h & Hh & ->)%fmap_Some) & Hd). by exists h. }
  destruct Howed as [h Hh Hd|resp w1 Hmiss Hfresh Hcan Hget Hwf Hnone Hsv
                    |h rid c resp w1 h1 Hh Hold Hcan Hres Hrid Hget Hwf Hh1 Hcur Hnow Hsv].
  - rewrite (Hhit h Hh). cbn [jl_status jl_keys]. unfold CachedKid.
    exists out, w. split; [|by exists h].
    pose proof (decides_matching _ _ _ _ _ Hd) as Hdm. pose proof (VerifyWithCachedKeys_decides token parsed opts Hp
      (MatchingKeys (keys h) (jp_alg parsed)) v) as Hv.
    destruct (MatchingKeys (keys h) (jp_alg parsed)) as [|k l] eqn:Hm; [by apply decides_nonempty in Hdm|].
    rewrite (M_bind_run _ _ w v w).
    + pose proof (dec_signed _ _ _ _ _ Hdm). by destruct v.
    + unfold lift. f_equal. apply Hv; [|done]. intros k'. rewrite <-Hm. by intros [_ ?]%MatchingKeys_elem.
  - rewrite Hmiss, ref_read_bind, Hfresh, ref_read_bind, Hcan. cbn [negb]. cbv iota.
    destruct (ColdFetch_serves token parsed opts Hp ctx w resp w1 v) as (w2 & Hcold & Hserved); [done..|].
    exists out, w2. rewrite (M_bind_run _ _ _ _ _ Hcold). auto.
  - rewrite (Hhit h Hh). cbn [jl_status jl_keys].
    destruct (CachedKid_rotated token parsed opts ctx out h v w Hh Hold) as (out' & w2 & Hrun & Hserved).
    + by eapply TryRefresh_serves.
    + exists out', w2. auto.
Qed.

(** Claim C9.  A token gets what the issuer's keys say of it.  When a key that the
    cache holds for the token's kid made its signature, or the cache has nothing
    for the kid and a fetch is allowed and brings such a key, or every cached key of
    the kid rejects the signature, a refresh is granted and still held after the
    fetch, and the fetched document has the key (the issuer rotated it), then the
    validation answers with the verdict on the token's claims, [Ok] for a token in
    order; and afterwards the cache holds keys that decide the token, so that the
    next validation needs no request.  It is enough that the document has no more
    kids than the cache has entries: the eviction that storing them causes spares
    the token's own, in whatever order the kids come. *)
Theorem owed_verdict_given `{!PicoJson, !JwtCpp, !OpenSsl, !UMapOrder} {W} (ctx : ValidateContext W)
    `{!RefLaws (vx_jwks_cache ctx)} token parsed opts out v w :
  ParseJwt token = Some parsed → jp_kid parsed ≠ "" → owed token parsed opts ctx v w →
  ∃ out' w', ValidateToken token opts ctx out w = (Ret (v, out'), w') ∧
    ∃ h, FindHit (ref_get (vx_jwks_cache ctx) w') (vx_jwks_uri ctx) (jp_kid parsed) = Some h ∧
      decides token parsed opts (keys h) v.
Proof. intros. by apply owed_verdict. Qed.

(** ** Evaluations *)

(** A single key that accepts a token decides it. *)
Lemma decides_single `{!PicoJson, !JwtCpp, !OpenSsl} token parsed opts k v :
  JwkMatchesTokenHeader k (jp_alg parsed) = true → VerifyJwt token k opts = Ret v →
  SignatureMatchesCandidate v = true → decides token parsed opts [k] v.
Proof.
  intros Hfit Hv Hs. split; [done|exists k; split_and!; [left|done..]|].
  intros k' r ->%list_elem_of_singleton _ Hr _. congruence.
Qed.

(** The single key of a document, computed. *)
Ltac by_single_key :=
  match goal with |- decides _ _ _ ?l _ =>
    let l' := eval vm_compute in l in change l with l' end;
  apply decides_single; vm_compute; reflexivity.

Section evaluations.
#[local] Existing Instance toy_json.
#[local] Existing Instance toy_jwt.
#[local] Existing Instance toy_ssl.
#[local] Existing Instance um_canonical.

(** A cache with one key of the issuer, which then rotates: a token of the new key
    is owed a refresh. *)
Definition warm_cache : JwksCache :=
  match OnFetchSuccess (JwksCache_new 30 8) "a" [toy_key "bjE"] 1000 "https://idp" with
  | Ret c => c
  | _ => JwksCache_new 30 8
  end.

Lemma warm_cache_wf : jc_wf warm_cache.
Proof.
  destruct (OnFetchSuccess_spec (JwksCache_new 30 8) "a" [toy_key "bjE"] 1000 "https://idp") as (c & Hc & Hwf & _).
  { by apply jc_wf_new. }
  unfold warm_cache. by rewrite Hc.
Qed.

Example rotated_token_owed parsed :
  ParseJwt "RS256/a/n2/idp/app/2000" = Some parsed →
  owed "RS256/a/n2/idp/app/2000" parsed (toy_opts 1031) (toy_ctx "jwks-n2") Ok warm_cache.
Proof.
  intros Hp. vm_compute in Hp. injection Hp as <-.
  eapply owed_rotated.
  1, 3, 4, 6, 8: vm_compute; reflexivity.
  - intros k [->|[]%not_elem_of_nil]%elem_of_cons _. vm_compute. reflexivity.
  - discriminate.
  - change (jc_wf (RecordJwksFetch (TryReserveRefresh warm_cache "a" 1031 "https://idp").2 1031)).
    apply wf_record_fetch. eapply TryReserveRefresh_wf; [exact warm_cache_wf|apply surjective_pairing].
  - reflexivity.
  - vm_compute. discriminate.
  - split; [reflexivity|vm_compute; discriminate|by_single_key].
Qed.

Lemma owed_verdict_given_witness :
  ∃ parsed, ParseJwt "RS256/a/n1/idp/app/2000" = Some parsed ∧ jp_kid parsed ≠ "" ∧
    owed "RS256/a/n1/idp/app/2000" parsed (toy_opts 1000) (toy_ctx "jwks-n1") Ok (JwksCache_new 30 8) ∧
    ∃ out' w', ValidateToken "RS256/a/n1/idp/app/2000" (toy_opts 1000) (toy_ctx "jwks-n1") None (JwksCache_new 30 8)
      = (Ret (Ok, out'), w') ∧
      ∃ h, FindHit w' "https://idp" (jp_kid parsed) = Some h ∧
        decides "RS256/a/n1/idp/app/2000" parsed (toy_opts 1000) (keys h) Ok.
Proof.
  destruct (ParseJwt "RS256/a/n1/idp/app/2000") as [parsed|] eqn:Hp; [|vm_compute in Hp; discriminate Hp].
  assert (Some parsed = ParseJwt "RS256/a/n1/idp/app/2000") as Hv by exact (eq_sym Hp).
  vm_compute in Hv. injection Hv as ->.
  eexists. split; [reflexivity|]. split; [done|].
  match goal with |- ?P ∧ _ => assert P as Howed end.
  { eapply owed_fetched.
    1, 2, 3, 4, 6: vm_compute; reflexivity.
    - change (jc_wf (RecordJwksFetch (JwksCache_new 30 8) 1000)). apply wf_record_fetch. by apply jc_wf_new.
    - split; [reflexivity|vm_compute; discriminate|by_single_key]. }
  split; [exact Howed|].
  exact (owed_verdict_given (toy_ctx "jwks-n1") _ _ _ None Ok _ Hp (ltac:(done)) Howed).
Defined.
End evaluations.
