(* ===== verification/Introspect.v ===== *)
(** * Opaque tokens ([src/introspect.cpp], [src/tokeninfo.cpp],
    [src/github_check.cpp], and the second half of [src/validator.cpp])

    Three ways of asking the issuer about a token that is not a JWT: RFC 7662
    introspection, Google's tokeninfo and GitHub's token check, each behind the
    decision cache.  A nullable [Principal *out_principal] is an
    [option Principal] passed in and out. *)
From S2P Require Import Prelude CppString StdList Http DecisionCache External Toy Json JwtParse JwtVerify.

(** ** Responses *)
Record IntrospectionResponse : Type := mkIntrospectionResponse {
  ir_active : bool;
  ir_subject : string;
  ir_issuer : string;
  ir_audience : list string;
  ir_scope : string;
  ir_scp : list string;
  ir_exp : Z;
  ir_iat : Z;
  ir_nbf : Z;
  ir_client_id : string;
  ir_username : string;
}.

Record TokeninfoResponse : Type := mkTokeninfoResponse {
  ti_active : bool;
  ti_azp : string;
  ti_aud : string;
  ti_subject : string;
  ti_scope : string;
  ti_exp : Z;
  ti_expires_in : Z;
  ti_email : string;
  ti_email_verified : bool;
}.

Definition form_urlencoded : string := "application/x-www-form-urlencoded".

Section parsers.
Context `{!PicoJson}.

(** The root of a document, when it parses to an object. *)
Definition json_object (text : string) : option (gmap string json) :=
  if sempty text then None
  else root ← pj_parse text;
       match pj_view root with JObject obj => Some obj | _ => None end.

Definition ExtractAudience (obj : gmap string json) : list string :=
  match obj !! "aud" with
  | None => []
  | Some v => match pj_view v with
              | JString s => [s]
              | JArray l => json_strings l
              | _ => [] end
  end.

Definition ExtractScp (obj : gmap string json) : list string :=
  match obj !! "scp" with
  | None => []
  | Some v => match pj_view v with JArray l => json_strings l | _ => [] end
  end.

Definition field (obj : gmap string json) (key : string) : string := default "" (AsString obj key).

Definition ParseIntrospectionResponse (text : string) : option IntrospectionResponse :=
  obj ← json_object text;
  active ← (v ← obj !! "active"; match pj_view v with JBool b => Some b | _ => None end);
  Some (mkIntrospectionResponse active (field obj "sub") (field obj "iss") (ExtractAudience obj)
          (field obj "scope") (ExtractScp obj) (AsIntFlexible obj "exp") (AsIntFlexible obj "iat")
          (AsIntFlexible obj "nbf") (field obj "client_id") (field obj "username")).

Definition ParseTokeninfoResponse (text : string) (active : bool) : option TokeninfoResponse :=
  obj ← json_object text;
  Some (mkTokeninfoResponse active (field obj "azp") (field obj "aud") (field obj "sub")
          (field obj "scope") (AsIntFlexible obj "exp") (AsIntFlexible obj "expires_in")
          (field obj "email") (AsBoolFlexible obj "email_verified")).

(** [user.id], as [gh:<id>]. *)
Definition github_subject (id : json) : option string :=
  match pj_view id with
  | JInt64 z => Some ("gh:" +:+ show_Z z)
  | JDouble z => Some ("gh:" +:+ show_Z z)
  | JString s => Some ("gh:" +:+ s)
  | _ => None
  end.

(** An object-valued field. *)
Definition sub_object (obj : gmap string json) (key : string) : option (gmap string json) :=
  match obj !! key with
  | Some v => match pj_view v with JObject o => Some o | _ => None end
  | None => None
  end.

Definition ParseGithubCheckResponse (text : string) : option Principal :=
  obj ← json_object text;
  user ← sub_object obj "user";
  subject ← match user !! "id" with Some id => github_subject id | None => None end;
  let scopes := match obj !! "scopes" with
                | Some v => match pj_view v with JArray l => json_strings l | _ => [] end
                | None => [] end in
  Some (mkPrincipal subject "https://api.github.com" scopes 0).
End parsers.

(** ** JSON string escaping *)
Definition json_escape_char (c : ascii) : list ascii :=
  if is_char "034" c then ["\"%char; "034"%char]
  else if is_char "092" c then ["\"%char; "\"%char]
  else if is_char "008" c then ["\"%char; "b"%char]
  else if is_char "012" c then ["\"%char; "f"%char]
  else if is_char "010" c then ["\"%char; "n"%char]
  else if is_char "013" c then ["\"%char; "r"%char]
  else if is_char "009" c then ["\"%char; "t"%char]
  else if uc c <? 32 then
    ["\"%char; "u"%char; "0"%char; "0"%char; hex_lower (uc c / 16); hex_lower (uc c mod 16)]
  else [c].

Definition JsonEscape (s : string) : string := of_chars (mjoin (json_escape_char <$> chars s)).

(** ** The three validators *)
Section validators.
Context `{!PicoJson, !Sha256} {W : Type}.
Implicit Types (http : IHttpClient W) (cache : Ref W DecisionCache) (out_principal : option Principal).

Definition IntrospectToken http (endpoint client_id client_secret token : string)
    : M W (option IntrospectionResponse) :=
  if sempty endpoint || sempty token then mret None
  else
    resp ← Post http (mkPostRequest endpoint
             ("token=" +:+ UrlEncode token +:+ "&token_type_hint=access_token")
             form_urlencoded client_id client_secret);
    mret (match resp with
          | Some r => if negb (status_code r =? 200) then None else ParseIntrospectionResponse (body r)
          | None => None
          end).

Definition QueryTokeninfo http (endpoint token : string) : M W (option TokeninfoResponse) :=
  if sempty endpoint || sempty token then mret None
  else
    resp ← Post http (mkPostRequest endpoint ("access_token=" +:+ UrlEncode token) form_urlencoded "" "");
    mret (match resp with
          | None => None
          | Some r =>
              if status_code r =? 200 then ParseTokeninfoResponse (body r) true
              else if status_code r =? 400 then Some (mkTokeninfoResponse false "" "" "" "" 0 0 "" false)
              else None
          end).

Record IntrospectContext : Type := mkIntrospectContext {
  ic_http : IHttpClient W;
  ic_decision_cache : Ref W DecisionCache;
  ic_endpoint : string;
  ic_client_id : string;
  ic_client_secret : string;
  ic_expected_issuer : string;
  ic_expected_audience : string;
}.

Record TokeninfoContext : Type := mkTokeninfoContext {
  tc_http : IHttpClient W;
  tc_decision_cache : Ref W DecisionCache;
  tc_endpoint : string;
  tc_expected_audience : string;
}.

Record GithubContext : Type := mkGithubContext {
  gc_http : IHttpClient W;
  gc_decision_cache : Ref W DecisionCache;
  gc_check_url : string;
  gc_client_id : string;
  gc_client_secret : string;
}.

(** [if (out_principal != nullptr) *out_principal = p;] *)
Definition assign_principal (p : Principal) out_principal : option Principal := (λ _, p) <$> out_principal.

Definition AudienceMatches (actual : list string) (expected : string) : bool :=
  if sempty expected then true else existsb (seqb expected) actual.

Definition tokeninfo_principal (resp : TokeninfoResponse) : Principal :=
  mkPrincipal (if sempty (ti_subject resp) then ti_azp resp else ti_subject resp) ""
    (if negb (sempty (ti_scope resp)) then SplitScopes (ti_scope resp) else []) (ti_exp resp).

(** [resp->exp > 0 && opts.now_s > resp->exp + opts.clock_skew_s]: the sum is
    made for a positive [exp] only, and must fit 64 bits. *)
Definition tokeninfo_expired (resp : TokeninfoResponse) (opts : VerifyOptions) : exc bool :=
  if 0 <? ti_exp resp then
    latest ← i64_ok (ti_exp resp + vo_clock_skew_s opts); Ret (latest <? vo_now_s opts)
  else Ret false.

Definition ValidateTokenViaTokeninfo (token : string) (opts : VerifyOptions) (ctx : TokeninfoContext) out_principal
    : M W (VerifyResult * option Principal) :=
  if sempty token then mret (Malformed, out_principal)
  else
    let key := KeyOf token in
    cached ← ref_run (tc_decision_cache ctx) (λ c, Lookup c key (vo_now_s opts));
    match cached with
    | Some p => mret (Ok, assign_principal p out_principal)
    | None =>
        resp ← QueryTokeninfo (tc_http ctx) (tc_endpoint ctx) token;
        match resp with
        | None => mret (JwksFetchFailed, out_principal)
        | Some resp =>
            if negb (ti_active resp) then mret (InvalidSignature, out_principal)
            else if negb (sempty (tc_expected_audience ctx))
                    && negb (seqb (ti_aud resp) (tc_expected_audience ctx))
                    && negb (seqb (ti_azp resp) (tc_expected_audience ctx)) then
              mret (WrongAudience, out_principal)
            else
              expired ← lift (tokeninfo_expired resp opts);
              if (expired : bool) then mret (Expired, out_principal)
              else
                let p := tokeninfo_principal resp in
                _ ← ref_call (tc_decision_cache ctx) (λ c, Store c key p (vo_now_s opts));
                mret (Ok, assign_principal p out_principal)
        end
    end.

Definition introspect_principal (resp : IntrospectionResponse) : Principal :=
  mkPrincipal (ir_subject resp) (ir_issuer resp)
    ((if negb (sempty (ir_scope resp)) then SplitScopes (ir_scope resp) else []) ++ ir_scp resp) (ir_exp resp).

Definition ValidateTokenViaIntrospection (token : string) (opts : VerifyOptions) (ctx : IntrospectContext)
    out_principal : M W (VerifyResult * option Principal) :=
  if sempty token then mret (Malformed, out_principal)
  else
    let key := KeyOf token in
    cached ← ref_run (ic_decision_cache ctx) (λ c, Lookup c key (vo_now_s opts));
    match cached with
    | Some p => mret (Ok, assign_principal p out_principal)
    | None =>
        resp ← IntrospectToken (ic_http ctx) (ic_endpoint ctx) (ic_client_id ctx) (ic_client_secret ctx) token;
        match resp with
        | None => mret (JwksFetchFailed, out_principal)
        | Some resp =>
            if negb (ir_active resp) then mret (InvalidSignature, out_principal)
            else if negb (sempty (ic_expected_issuer ctx)) && negb (sempty (ir_issuer resp))
                    && negb (seqb (ir_issuer resp) (ic_expected_issuer ctx)) then
              mret (WrongIssuer, out_principal)
            else if negb (sempty (ic_expected_audience ctx)) && negb (bool_decide (ir_audience resp = []))
                    && negb (AudienceMatches (ir_audience resp) (ic_expected_audience ctx)) then
              mret (WrongAudience, out_principal)
            else
              let p := introspect_principal resp in
              _ ← ref_call (ic_decision_cache ctx) (λ c, Store c key p (vo_now_s opts));
              mret (Ok, assign_principal p out_principal)
        end
    end.

Definition github_request (ctx : GithubContext) (token : string) : PostRequest :=
  mkPostRequest (gc_check_url ctx)
    ("{" +:+ String "034" "access_token" +:+ String "034" ":" +:+ String "034" (JsonEscape token)
       +:+ String "034" "}")
    "application/json" (gc_client_id ctx) (gc_client_secret ctx).

Definition ValidateTokenViaGithubCheck (token : string) (opts : VerifyOptions) (ctx : GithubContext) out_principal
    : M W (VerifyResult * option Principal) :=
  if sempty token then mret (Malformed, out_principal)
  else
    let key := KeyOf token in
    cached ← ref_run (gc_decision_cache ctx) (λ c, Lookup c key (vo_now_s opts));
    match cached with
    | Some p => mret (Ok, assign_principal p out_principal)
    | None =>
        resp ← Post (gc_http ctx) (github_request ctx token);
        match resp with
        | None => mret (JwksFetchFailed, out_principal)
        | Some r =>
            if 500 <=? status_code r then mret (JwksFetchFailed, out_principal)
            else if status_code r =? 404 then mret (InvalidSignature, out_principal)
            else if negb (status_code r =? 200) then mret (JwksFetchFailed, out_principal)
            else
              match ParseGithubCheckResponse (body r) with
              | None => mret (Malformed, out_principal)
              | Some p =>
                  _ ← ref_call (gc_decision_cache ctx) (λ c, Store c key p (vo_now_s opts));
                  mret (Ok, assign_principal p out_principal)
              end
        end
    end.
End validators.
Arguments IntrospectContext W : clear implicits.
Arguments TokeninfoContext W : clear implicits.
Arguments GithubContext W : clear implicits.

(** ** JSON escaping is faithful *)

(** A JSON string literal's content up to its closing quote. *)
Definition unhex_json (c : ascii) : Z := if is_digit c then uc c - 48 else uc c - 87.
Fixpoint json_unescape (l : list ascii) : option (list ascii * list ascii) :=
  match l with
  | [] => None
  | c :: l =>
      if is_char "034" c then Some ([], l)
      else if is_char "\" c then
        match l with
        | "b"%char :: l => prod_map ("008"%char ::.) id <$> json_unescape l
        | "f"%char :: l => prod_map ("012"%char ::.) id <$> json_unescape l
        | "n"%char :: l => prod_map ("010"%char ::.) id <$> json_unescape l
        | "r"%char :: l => prod_map ("013"%char ::.) id <$> json_unescape l
        | "t"%char :: l => prod_map ("009"%char ::.) id <$> json_unescape l
        | "u"%char :: h1 :: h2 :: h3 :: h4 :: l =>
            prod_map (to_char (4096 * unhex_json h1 + 256 * unhex_json h2 + 16 * unhex_json h3 + unhex_json h4) ::.) id
              <$> json_unescape l
        | d :: l => prod_map (d ::.) id <$> json_unescape l
        | [] => None
        end
      else if uc c <? 32 then None
      else prod_map (c ::.) id <$> json_unescape l
  end.

Lemma json_unescape_escape c rest :
  json_unescape (json_escape_char c ++ rest) = prod_map (c ::.) id <$> json_unescape rest.
Proof. destruct c as [[] [] [] [] [] [] [] []]; reflexivity. Qed.

(** ** Expiry

    The sum of an expiry and the skew, where the code makes it. *)
Definition fits_with (skew exp : Z) : Prop := 0 < exp → in_i64 (exp + skew).

(** The skew is an hour at most. *)
Definition leaves_room (exp : Z) : Prop := exp + 3600 < 2 ^ 63.
Lemma leaves_room_fits skew exp : 0 ≤ skew ≤ 3600 → leaves_room exp → fits_with skew exp.
Proof. unfold leaves_room, fits_with, in_i64. lia. Qed.

Lemma tokeninfo_expired_spec resp opts :
  fits_with (vo_clock_skew_s opts) (ti_exp resp) →
  ∃ b, tokeninfo_expired resp opts = Ret b ∧
    (b = false ↔ (0 < ti_exp resp → vo_now_s opts ≤ ti_exp resp + vo_clock_skew_s opts)).
Proof.
  unfold fits_with, tokeninfo_expired. destruct (Z.ltb_spec 0 (ti_exp resp)) as [Hpos|]; intros Hfit.
  - rewrite i64_ok_Ret by auto. eexists. split; [done|]. rewrite Z.ltb_ge. tauto.
  - exists false. split; [done|]. split; [lia|done].
Qed.

(** ** Invariant of the decision path *)
Section invariant.
Context `{!PicoJson, !Sha256} {W : Type} (cache : Ref W DecisionCache) `{!RefLaws cache}.
Context (D : string → Principal → Prop).

(** An invariant of the process whose part on the cache is that its decisions are
    justified. *)
Context (J : W → Prop).
Hypothesis J_justified : ∀ w, J w → dc_justified D (ref_get cache w).
Hypothesis J_set : ∀ w c, J w → dc_justified D c → J (ref_set cache c w).

Lemma cached_inv key now :
  hoare J (ref_run cache (λ c, Lookup c key now)) (λ o w, (∀ p, o = Some p → D key p) ∧ J w).
Proof.
  apply hoare_ref_run. intros w Hw.
  destruct (Lookup_justified D _ key now (J_justified w Hw)) as (o & c' & Hl & Hc & Ho).
  exists o, c'. split; [done|]. split; [done|]. by apply J_set.
Qed.

Lemma store_inv key p now :
  D key p → hoare J (ref_call cache (λ c, Store c key p now)) (λ _, J).
Proof.
  intros Hp. apply hoare_call. intros w Hw.
  destruct (Store_justified D _ key p now (J_justified w Hw) Hp) as (c' & Hs & Hc).
  exists c'. split; [done|]. by apply J_set.
Qed.

(** The outcome of a decision: acceptance comes with a justified principal, which
    is what the caller's pointer receives; a refusal leaves the pointer alone. *)
Definition decided (key : string) (out : option Principal) (r : VerifyResult * option Principal) : Prop :=
  (r.1 = Ok ∧ ∃ p, D key p ∧ r.2 = assign_principal p out) ∨ (r.1 ≠ Ok ∧ r.2 = out).

Lemma decided_ok key out p : D key p → decided key out (Ok, assign_principal p out).
Proof. left. eauto. Qed.
Lemma decided_no key out r : r ≠ Ok → decided key out (r, out).
Proof. by right. Qed.

Lemma decide_inv key out p now :
  D key p →
  hoare J (_ ← ref_call cache (λ c, Store c key p now); mret (Ok, assign_principal p out))
    (λ r w, decided key out r ∧ J w).
Proof.
  intros Hp. eapply hoare_bind; [by apply store_inv|]. intros []. apply hoare_ret. intros w Hw.
  split; [by apply decided_ok|done].
Qed.

Lemma refuse_inv key out r : r ≠ Ok → hoare J (mret (r, out) : M W _) (λ r w, decided key out r ∧ J w).
Proof. intros Hr. apply hoare_ret. intros w Hw. split; [by apply decided_no|done]. Qed.

(** An endpoint that keeps the invariant (other threads included) and whose
    positive answers about a token justify the principal built from them. *)
Definition answers_justified {R} (ask : M W (option R)) (good : R → Prop) : Prop :=
  hoare J ask (λ o w, (∀ r, o = Some r → good r) ∧ J w).

Lemma introspection_inv (ctx : IntrospectContext W) token opts out :
  ic_decision_cache ctx = cache →
  answers_justified
    (IntrospectToken (ic_http ctx) (ic_endpoint ctx) (ic_client_id ctx) (ic_client_secret ctx) token)
    (λ r, ir_active r = true →
          (ic_expected_issuer ctx = "" ∨ ir_issuer r = "" ∨ ir_issuer r = ic_expected_issuer ctx) →
          (ic_expected_audience ctx = "" ∨ ir_audience r = [] ∨ ic_expected_audience ctx ∈ ir_audience r) →
          D (KeyOf token) (introspect_principal r)) →
  hoare J (ValidateTokenViaIntrospection token opts ctx out) (λ r w, decided (KeyOf token) out r ∧ J w).
Proof.
  intros Hcache Hask. unfold ValidateTokenViaIntrospection. rewrite Hcache.
  destruct (sempty token); [by apply refuse_inv|].
  eapply hoare_bind; [apply cached_inv|]. intros [p|].
  { apply hoare_ret. intros w [Hp Hw]. split; [apply decided_ok; auto|done]. }
  eapply hoare_bind; [apply (hoare_pre J); [by intros w [_ ?]|apply Hask]|]. intros [r|].
  2: { apply (hoare_pre J); [by intros w [_ ?]|by apply refuse_inv]. }
  apply hoare_pure. intros Hr. specialize (Hr r eq_refl).
  destruct (ir_active r); [|by apply refuse_inv]. cbn [negb].
  destruct (_ && _ && _) eqn:Hiss; [by apply refuse_inv|].
  destruct (_ && _ && negb (AudienceMatches _ _)) eqn:Haud; [by apply refuse_inv|].
  apply decide_inv, Hr; [done| |].
  - rewrite !andb_false_iff, !negb_false_iff, !sempty_true, seqb_true in Hiss. tauto.
  - rewrite !andb_false_iff, !negb_false_iff, sempty_true, bool_decide_eq_true in Haud.
    unfold AudienceMatches in Haud. destruct (sempty (ic_expected_audience ctx)) eqn:He.
    { left. by apply sempty_true. }
    rewrite existsb_elem in Haud. setoid_rewrite seqb_true in Haud. naive_solver.
Qed.

Lemma tokeninfo_inv (ctx : TokeninfoContext W) token opts out :
  tc_decision_cache ctx = cache →
  answers_justified (QueryTokeninfo (tc_http ctx) (tc_endpoint ctx) token)
    (λ r, fits_with (vo_clock_skew_s opts) (ti_exp r) ∧
          (ti_active r = true →
           (tc_expected_audience ctx = "" ∨ ti_aud r = tc_expected_audience ctx ∨ ti_azp r = tc_expected_audience ctx) →
           (0 < ti_exp r → vo_now_s opts ≤ ti_exp r + vo_clock_skew_s opts) →
           D (KeyOf token) (tokeninfo_principal r))) →
  hoare J (ValidateTokenViaTokeninfo token opts ctx out) (λ r w, decided (KeyOf token) out r ∧ J w).
Proof.
  intros Hcache Hask. unfold ValidateTokenViaTokeninfo. rewrite Hcache.
  destruct (sempty token); [by apply refuse_inv|].
  eapply hoare_bind; [apply cached_inv|]. intros [p|].
  { apply hoare_ret. intros w [Hp Hw]. split; [apply decided_ok; auto|done]. }
  eapply hoare_bind; [apply (hoare_pre J); [by intros w [_ ?]|apply Hask]|]. intros [r|].
  2: { apply (hoare_pre J); [by intros w [_ ?]|by apply refuse_inv]. }
  apply hoare_pure. intros Hr. destruct (Hr r eq_refl) as [Hfit HD].
  destruct (ti_active r); [|by apply refuse_inv]. cbn [negb].
  destruct (_ && _ && _) eqn:Haud; [by apply refuse_inv|].
  destruct (tokeninfo_expired_spec r opts Hfit) as (b & Hexp & Hb).
  eapply hoare_bind; [eapply (hoare_lift _ _ _ (λ e w, e = b ∧ J w)); [exact Hexp|by auto]|].
  intros e. apply hoare_pure. intros ->. destruct b; [by apply refuse_inv|].
  apply decide_inv, HD; [done| |by apply Hb].
  rewrite !andb_false_iff, !negb_false_iff, sempty_true, !seqb_true in Haud. tauto.
Qed.

Lemma github_inv (ctx : GithubContext W) token opts out :
  gc_decision_cache ctx = cache →
  answers_justified (Post (gc_http ctx) (github_request ctx token))
    (λ r, status_code r = 200 → ∀ p, ParseGithubCheckResponse (body r) = Some p → D (KeyOf token) p) →
  hoare J (ValidateTokenViaGithubCheck token opts ctx out) (λ r w, decided (KeyOf token) out r ∧ J w).
Proof.
  intros Hcache Hask. unfold ValidateTokenViaGithubCheck. rewrite Hcache.
  destruct (sempty token); [by apply refuse_inv|].
  eapply hoare_bind; [apply cached_inv|]. intros [p|].
  { apply hoare_ret. intros w [Hp Hw]. split; [apply decided_ok; auto|done]. }
  eapply hoare_bind; [apply (hoare_pre J); [by intros w [_ ?]|apply Hask]|]. intros [r|].
  2: { apply (hoare_pre J); [by intros w [_ ?]|by apply refuse_inv]. }
  apply hoare_pure. intros Hr. specialize (Hr r eq_refl).
  destruct (500 <=? _); [by apply refuse_inv|]. destruct (_ =? 404); [by apply refuse_inv|].
  destruct (Z.eqb_spec (status_code r) 200) as [Hst|]; [|by apply refuse_inv]. cbn [negb].
  destruct (ParseGithubCheckResponse (body r)) as [p|] eqn:Hp; [|by apply refuse_inv].
  by apply decide_inv, Hr.
Qed.
End invariant.

(** The invariant that says nothing else. *)
Definition cache_ok {W} (cache : Ref W DecisionCache) (D : string → Principal → Prop) (w : W) : Prop :=
  dc_justified D (ref_get cache w).

Lemma cache_ok_set {W} (cache : Ref W DecisionCache) `{!RefLaws cache} D w c :
  cache_ok cache D w → dc_justified D c → cache_ok cache D (ref_set cache c w).
Proof. unfold cache_ok. by rewrite ref_get_set. Qed.

(** ** Properties *)

(** What the issuer has vouched for about a token, for each way of asking. *)
Section properties.
Context `{!PicoJson, !Sha256}.

(** Claim C15.  An opaque token is accepted only on the issuer's word about a token
    with the same cache key, and only for the configured issuer and audience.
    Let [D key p] hold of every principal built from an active, matching answer
    about this token and of every cached decision, whatever other threads do
    during the request.  Then validation by introspection always returns, the
    cache stays sound and within bounds, and [Ok] comes with a principal in [D]
    for the key of this token (written to the caller's pointer when there is
    one), while every refusal leaves the pointer untouched. *)
Theorem introspection_sound {W} (ctx : IntrospectContext W) `{!RefLaws (ic_decision_cache ctx)}
    (D : string → Principal → Prop) token opts out w :
  (∀ w, dc_justified D (ref_get (ic_decision_cache ctx) w) →
     ∃ o w', IntrospectToken (ic_http ctx) (ic_endpoint ctx) (ic_client_id ctx) (ic_client_secret ctx) token w
             = (Ret o, w') ∧ dc_justified D (ref_get (ic_decision_cache ctx) w') ∧
       ∀ r, o = Some r → ir_active r = true →
         (ic_expected_issuer ctx = "" ∨ ir_issuer r = "" ∨ ir_issuer r = ic_expected_issuer ctx) →
         (ic_expected_audience ctx = "" ∨ ir_audience r = [] ∨ ic_expected_audience ctx ∈ ir_audience r) →
         D (KeyOf token) (introspect_principal r)) →
  dc_justified D (ref_get (ic_decision_cache ctx) w) →
  ∃ r w', ValidateTokenViaIntrospection token opts ctx out w = (Ret r, w') ∧
    decided D (KeyOf token) out r ∧ dc_justified D (ref_get (ic_decision_cache ctx) w').
Proof.
  intros Hask Hw.
  destruct (ValidateTokenViaIntrospection token opts ctx out w) as [r w'] eqn:Hv.
  assert (answers_justified (cache_ok (ic_decision_cache ctx) D)
    (IntrospectToken (ic_http ctx) (ic_endpoint ctx) (ic_client_id ctx) (ic_client_secret ctx) token)
    (λ r, ir_active r = true →
       (ic_expected_issuer ctx = "" ∨ ir_issuer r = "" ∨ ir_issuer r = ic_expected_issuer ctx) →
       (ic_expected_audience ctx = "" ∨ ir_audience r = [] ∨ ic_expected_audience ctx ∈ ir_audience r) →
       D (KeyOf token) (introspect_principal r))) as Hj.
  { intros w0 Hw0. destruct (Hask w0 Hw0) as (o & w1 & Hr & ? & ?). unfold wp. rewrite Hr. simpl.
    exists o. by split_and!. }
  destruct (hoare_run _ _ _ _ _ _ (introspection_inv (ic_decision_cache ctx) D _ (λ _ H, H) (cache_ok_set _ D) ctx token opts out eq_refl Hj) Hw Hv)
    as (a & -> & ? & ?). by exists a, w'.
Qed.

(** Claim C16.  The same for Google's tokeninfo endpoint, where acceptance also
    needs an unexpired token, up to the configured skew, and for GitHub's check
    endpoint, where only a 200 answer with a user accepts.  That the tokeninfo
    call returns needs an expiry to which the skew can be added in 64 bits: the
    code adds them unchecked ([tokeninfo_overflow]). *)
Theorem tokeninfo_and_github_sound {W} (cache : Ref W DecisionCache) `{!RefLaws cache}
    (D : string → Principal → Prop) (tc : TokeninfoContext W) (gc : GithubContext W) token opts out w :
  tc_decision_cache tc = cache → gc_decision_cache gc = cache →
  answers_justified (cache_ok cache D) (QueryTokeninfo (tc_http tc) (tc_endpoint tc) token)
    (λ r, fits_with (vo_clock_skew_s opts) (ti_exp r) ∧
          (ti_active r = true →
           (tc_expected_audience tc = "" ∨ ti_aud r = tc_expected_audience tc ∨ ti_azp r = tc_expected_audience tc) →
           (0 < ti_exp r → vo_now_s opts ≤ ti_exp r + vo_clock_skew_s opts) →
           D (KeyOf token) (tokeninfo_principal r))) →
  answers_justified (cache_ok cache D) (Post (gc_http gc) (github_request gc token))
    (λ r, status_code r = 200 → ∀ p, ParseGithubCheckResponse (body r) = Some p → D (KeyOf token) p) →
  dc_justified D (ref_get cache w) →
  (∃ r w', ValidateTokenViaTokeninfo token opts tc out w = (Ret r, w') ∧
     decided D (KeyOf token) out r ∧ dc_justified D (ref_get cache w')) ∧
  (∃ r w', ValidateTokenViaGithubCheck token opts gc out w = (Ret r, w') ∧
     decided D (KeyOf token) out r ∧ dc_justified D (ref_get cache w')).
Proof.
  intros Htc Hgc Hti Hgh Hw. split.
  - destruct (ValidateTokenViaTokeninfo token opts tc out w) as [r w'] eqn:Hv.
    destruct (hoare_run _ _ _ _ _ _ (tokeninfo_inv cache D _ (λ _ H, H) (cache_ok_set _ D) tc token opts out Htc Hti) Hw Hv)
      as (a & -> & ? & ?). by exists a, w'.
  - destruct (ValidateTokenViaGithubCheck token opts gc out w) as [r w'] eqn:Hv.
    destruct (hoare_run _ _ _ _ _ _ (github_inv cache D _ (λ _ H, H) (cache_ok_set _ D) gc token opts out Hgc Hgh) Hw Hv)
      as (a & -> & ? & ?). by exists a, w'.
Qed.

(** A decision is asked for once per TTL: when an introspection in an
    undisturbed cache has just accepted a token, any later call with the same
    token before the end of the TTL is answered from the cache, with the same
    principal, whatever the network would have said, and without changing
    anything but the cache. *)
Theorem introspection_cached {W} (ctx : IntrospectContext W) `{!RefLaws (ic_decision_cache ctx)}
    token opts resp w1 w2 now' out :
  token ≠ "" → dc_wf (ref_get (ic_decision_cache ctx) w1) →
  IntrospectToken (ic_http ctx) (ic_endpoint ctx) (ic_client_id ctx) (ic_client_secret ctx) token w1
    = (Ret (Some resp), w2) →
  ref_get (ic_decision_cache ctx) w2 = ref_get (ic_decision_cache ctx) w1 →
  DecisionCache.Lookup (ref_get (ic_decision_cache ctx) w1) (KeyOf token) (vo_now_s opts)
    = Ret (None, ref_get (ic_decision_cache ctx) w1) →
  let ttl := ttl_of (dc_default_ttl_s_ (ref_get (ic_decision_cache ctx) w1)) (introspect_principal resp) (vo_now_s opts) in
  0 < ttl → now' < vo_now_s opts + ttl →
  ∀ p1 w3, ValidateTokenViaIntrospection token opts ctx (Some p1) w1 = (Ret (Ok, Some (introspect_principal resp)), w3) →
  ∃ c', ValidateTokenViaIntrospection token (mkVerifyOptions "" "" 0 now' []) ctx out w3 =
    (Ret (Ok, assign_principal (introspect_principal resp) out), ref_set (ic_decision_cache ctx) c' w3).
Proof.
  intros Hne Hwf Hask Hsame Hmiss ttl Httl Hnow p1 w3 Hv.
  assert (∃ c', Store (ref_get (ic_decision_cache ctx) w1) (KeyOf token) (introspect_principal resp) (vo_now_s opts)
      = Ret c' ∧ ref_get (ic_decision_cache ctx) w3 = c') as (c' & Hs & Hc').
  { unfold ValidateTokenViaIntrospection in Hv. rewrite (proj2 (sempty_false token) Hne) in Hv.
    unfold mbind at 1, M_bind at 1, ref_run at 1 in Hv. rewrite Hmiss in Hv. rewrite ref_set_get in Hv.
    unfold mbind at 1, M_bind at 1 in Hv. rewrite Hask in Hv.
    destruct (negb (ir_active resp)); [by simplify_eq|]. destruct (_ && _ && _); [by simplify_eq|].
    destruct (_ && _ && negb (AudienceMatches _ _)); [by simplify_eq|].
    unfold mbind, M_bind, ref_call in Hv. rewrite Hsame in Hv.
    destruct (Store_refines (ref_get (ic_decision_cache ctx) w1) (KeyOf token) (introspect_principal resp)
      (vo_now_s opts) Hwf) as (c' & Hs & _). rewrite Hs in Hv. exists c'. split; [done|].
    cbv [mret M_ret] in Hv. simplify_eq. by rewrite ref_get_set. }
  destruct (Store_Lookup _ _ _ _ _ now' Hwf Httl Hs Hnow) as [c'' Hl]. exists c''.
  unfold ValidateTokenViaIntrospection. rewrite (proj2 (sempty_false token) Hne).
  unfold mbind at 1, M_bind at 1, ref_run. rewrite Hc'. cbn [vo_now_s]. by rewrite Hl.
Qed.

(** The decision cache confuses tokens when hashing fails: if SHA-256
    cannot be computed for two tokens, [KeyOf] gives both the empty key, and once
    the first is cached, the second is accepted as the first one's principal
    without asking the issuer. *)
Theorem hash_failure_confuses_tokens {W} (ctx : IntrospectContext W) `{!RefLaws (ic_decision_cache ctx)}
    t1 t2 opts p c' w :
  evp_sha256 t1 = None → evp_sha256 t2 = None → t2 ≠ "" →
  DecisionCache.Lookup (ref_get (ic_decision_cache ctx) w) (KeyOf t1) (vo_now_s opts) = Ret (Some p, c') →
  ValidateTokenViaIntrospection t2 opts ctx None w =
    (Ret (Ok, None), ref_set (ic_decision_cache ctx) c' w).
Proof.
  intros H1 H2 Hne Hl. unfold ValidateTokenViaIntrospection. rewrite (proj2 (sempty_false t2) Hne).
  assert (KeyOf t2 = KeyOf t1) as -> by (unfold KeyOf; by rewrite H1, H2).
  unfold mbind, M_bind, ref_run. by rewrite Hl.
Qed.
End properties.

(** A token cannot break out of the JSON body GitHub is sent: reading
    the escaped token back up to its closing quote gives the token's bytes, for
    every byte string and whatever follows. *)
Theorem JsonEscape_roundtrip (s : string) (rest : list ascii) :
  json_unescape (chars (JsonEscape s) ++ "034"%char :: rest) = Some (chars s, rest).
Proof.
  unfold JsonEscape. rewrite chars_of_chars. induction (chars s) as [|c l IH]; [done|].
  change (mjoin (json_escape_char <$> c :: l)) with (json_escape_char c ++ mjoin (json_escape_char <$> l)).
  by rewrite <-app_assoc, json_unescape_escape, IH.
Qed.

(** ** Evaluations *)
Definition toy_sha (works : bool) : Sha256 := λ t,
  if works then Some (of_chars (take 32 (chars t ++ replicate 32 "0"%char))) else None.

Section evaluations.
#[local] Existing Instance toy_json.

Definition toy_answer (status : Z) (doc : string) : IHttpClient DecisionCache :=
  mkHttp (λ _, mret (Some (mkResponse status doc))) (λ _, mret (Some (mkResponse status doc))).
Definition toy_introspect (doc : string) : IntrospectContext DecisionCache :=
  mkIntrospectContext (toy_answer 200 doc) ref_id "https://idp/introspect" "client" "secret" "idp" "app".
Definition toy_tokeninfo : TokeninfoContext DecisionCache :=
  mkTokeninfoContext (toy_answer 200 "tokeninfo") ref_id "https://idp/tokeninfo" "app".
Definition toy_github (status : Z) : GithubContext DecisionCache :=
  mkGithubContext (toy_answer status "{}") ref_id "https://idp/check" "client" "secret".
Definition principal_alice : Principal := mkPrincipal "alice" "" ["read"; "write"] 2000.
Definition principal_bob : Principal := mkPrincipal "bob" "" [] 0.

Section with_hash.
#[local] Instance toy_sha_works : Sha256 := toy_sha true.

Example introspect_active :
  fst (ValidateTokenViaIntrospection "tok" (toy_opts 1000) (toy_introspect "active") (Some principal_bob)
         (DecisionCache_new 8 30)) = Ret (Ok, Some principal_alice).
Proof. vm_compute. reflexivity. Qed.
Example introspect_inactive :
  fst (ValidateTokenViaIntrospection "tok" (toy_opts 1000) (toy_introspect "inactive") (Some principal_bob)
         (DecisionCache_new 8 30)) = Ret (InvalidSignature, Some principal_bob).
Proof. vm_compute. reflexivity. Qed.

(** An endpoint whose expiry is [INT64_MAX]: adding the skew overflows. *)
Example tokeninfo_overflow :
  fst (ValidateTokenViaTokeninfo "tok" (mkVerifyOptions "" "" 60 1000 [])
         (mkTokeninfoContext (toy_answer 200 "tokeninfo-forever") ref_id "https://idp/tokeninfo" "app") None
         (DecisionCache_new 8 30)) = Stuck.
Proof. vm_compute. reflexivity. Qed.

Definition toy_vouched (key : string) (p : Principal) : Prop := pr_subject p = "alice" ∨ pr_subject p = "bob".

Lemma introspection_sound_witness :
  dc_justified toy_vouched (DecisionCache_new 8 30) ∧
  ∃ r w', ValidateTokenViaIntrospection "tok" (toy_opts 1000) (toy_introspect "active") None
            (DecisionCache_new 8 30) = (Ret r, w') ∧
    decided toy_vouched (KeyOf "tok") None r ∧ dc_justified toy_vouched w'.
Proof.
  assert (dc_justified toy_vouched (DecisionCache_new 8 30)) as Hj by by apply dc_justified_new.
  split; [exact Hj|].
  apply (introspection_sound (toy_introspect "active") toy_vouched); [|exact Hj].
  intros c Hc. eexists _, c. split; [vm_compute; reflexivity|]. split; [exact Hc|].
  intros r [= <-] _ _ _. by left.
Defined.

Lemma tokeninfo_and_github_sound_witness :
  dc_justified toy_vouched (DecisionCache_new 8 30) ∧
  (∃ r w', ValidateTokenViaTokeninfo "tok" (toy_opts 1000) toy_tokeninfo None (DecisionCache_new 8 30) = (Ret r, w') ∧
     decided toy_vouched (KeyOf "tok") None r ∧ dc_justified toy_vouched w') ∧
  (∃ r w', ValidateTokenViaGithubCheck "tok" (toy_opts 1000) (toy_github 404) None (DecisionCache_new 8 30) = (Ret r, w') ∧
     decided toy_vouched (KeyOf "tok") None r ∧ dc_justified toy_vouched w').
Proof.
  assert (dc_justified toy_vouched (DecisionCache_new 8 30)) as Hj by by apply dc_justified_new.
  split; [exact Hj|].
  apply (tokeninfo_and_github_sound (ref_id (W:=DecisionCache)) toy_vouched toy_tokeninfo (toy_github 404));
    [done|done| | |exact Hj].
  - intros c Hc. eexists. split; [vm_compute; reflexivity|]. split; [|exact Hc]. intros r [= <-].
    split; [intros _; vm_compute; by split|]. intros _ _ _. by right.
  - intros c Hc. eexists. split; [reflexivity|]. split; [|exact Hc]. intros r [= <-]. done.
Defined.

Lemma introspection_cached_witness :
  ∃ c' w3, ValidateTokenViaIntrospection "tok" (mkVerifyOptions "" "" 0 1029 []) (toy_introspect "inactive") None w3 =
    (Ret (Ok, None), c') ∧
  ∃ c'', ValidateTokenViaIntrospection "tok" (mkVerifyOptions "" "" 0 1029 []) (toy_introspect "active") None w3 =
    (Ret (Ok, assign_principal principal_alice None), ref_set ref_id c'' w3).
Proof.
  set (w1 := DecisionCache_new 8 30).
  set (r := ValidateTokenViaIntrospection "tok" (toy_opts 1000) (toy_introspect "active") (Some principal_bob) w1).
  eexists _, r.2. split; [vm_compute; reflexivity|].
  apply (introspection_cached (toy_introspect "active") "tok" (toy_opts 1000)
    (mkIntrospectionResponse true "alice" "" [] "read write" [] 2000 0 0 "" "") w1 w1 1029 None) with (p1 := principal_bob);
    [done|by apply dc_wf_new|vm_compute; reflexivity|done|vm_compute; reflexivity|vm_compute; reflexivity
    |vm_compute; reflexivity|vm_compute; reflexivity].
Defined.
End with_hash.

Section without_hash.
#[local] Instance toy_sha_broken : Sha256 := toy_sha false.

Lemma hash_failure_confuses_tokens_witness :
  let w := (ValidateTokenViaIntrospection "t1" (toy_opts 1000) (toy_introspect "active") None (DecisionCache_new 8 30)).2 in
  fst (ValidateTokenViaIntrospection "t2" (toy_opts 1001) (toy_introspect "inactive") None w) = Ret (Ok, None).
Proof.
  intros w.
  assert (∃ c', DecisionCache.Lookup w (KeyOf "t1") 1001 = Ret (Some principal_alice, c')) as [c' Hl]
    by (eexists; vm_compute; reflexivity).
  pose proof (hash_failure_confuses_tokens (toy_introspect "inactive") "t1" "t2" (toy_opts 1001) principal_alice c' w
    eq_refl eq_refl ltac:(done) Hl) as Hv.
  exact (f_equal fst Hv).
Defined.
End without_hash.
End evaluations.
