(* ===== verification/UrlGuard.v ===== *)
(** * URL checks ([src/plaintext_guard.cpp], [src/secrets.cpp], [src/http_client_duckdb.cpp])

    Which hosts count as loopback, which URLs an operator may configure, and how
    the HTTP client splits a URL.  [std::string::find] and friends are positions
    in the character list; [npos] is [None]. *)
From S2P Require Import Prelude CppString StdList External.

(** ** [plaintext_guard.cpp] *)
Definition AsciiToLower (s : string) : string := lower_ascii s.
Definition StartsWith (s prefix : string) : bool := starts_with prefix s.

Definition IsLoopbackHost (host : string) : bool :=
  if sempty host then false
  else
    let lower := AsciiToLower host in
    if seqb lower "localhost" then true
    else if seqb lower "::1" || seqb lower "[::1]" then true
    else if StartsWith lower "127." then forallb (λ c, is_char "." c || is_digit c) (chars (sdrop 4 lower))
    else false.

(** The second half, from [if (body.empty())]. *)
Definition host_of_body (body : string) : string :=
  match chars body with
  | [] => ""
  | c :: _ =>
      if is_char "[" c then
        match find_char "]" body with
        | None => ""
        | Some close => stake (close + 1) body
        end
      else
        match rfind_char ":" body with
        | None => body
        | Some colon => stake colon body
        end
  end.

Definition HostFromQuackUri (uri : string) : string :=
  if sempty uri then ""
  else if StartsWith uri "quack://" then host_of_body (sdrop 8 uri)
  else if StartsWith uri "quack:" then host_of_body (sdrop 6 uri)
  else "".

(** ** [secrets.cpp] *)

(** [find_first_of("/?#", start)] *)
Definition is_auth_end (c : ascii) : bool := is_char "/" c || is_char "?" c || is_char "#" c.
Definition authority_of (scheme_len : nat) (url : string) : string :=
  let rest := sdrop scheme_len url in
  match find_if is_auth_end (chars rest) with
  | None => rest
  | Some auth_end => stake auth_end rest
  end.

(** The host and the port string of an authority; [None] is a [return false]. *)
Definition split_authority (authority : string) : option (string * string) :=
  match chars authority with
  | [] => None
  | c :: _ =>
      if is_char "[" c then
        match find_char "]" authority with
        | None => None
        | Some bracket_end =>
            let host := substr 1 (bracket_end - 1) authority in
            let remainder := sdrop (bracket_end + 1) authority in
            match chars remainder with
            | [] => Some (host, "")
            | d :: _ => if negb (is_char ":" d) then None else Some (host, sdrop 1 remainder)
            end
        end
      else
        match find_char ":" authority with
        | Some colon => Some (stake colon authority, sdrop (colon + 1) authority)
        | None => Some (authority, "")
        end
  end.

Fixpoint port_loop (l : list ascii) (port : Z) : option Z :=
  match l with
  | [] => Some port
  | c :: l => if negb (is_digit c) then None else port_loop l (port * 10 + (uc c - 48))
  end.

Definition port_ok (port_str : string) : bool :=
  if sempty port_str then true
  else if 5 <? ssize port_str then false
  else match port_loop (chars port_str) 0 with
       | None => false
       | Some port => negb ((port <=? 0) || (65535 <? port))
       end.

Definition IsLocalhostUrl (url : string) : bool :=
  if negb (starts_with "http://" url) then false
  else
    let authority := authority_of 7 url in
    if sempty authority then false
    else if contains_char "@" authority then false
    else
      match split_authority authority with
      | None => false
      | Some (host, port_str) =>
          if negb (port_ok port_str) then false
          else if sempty host then false
          else IsLoopbackHost host
      end.

(** The characters the URL checks refuse. *)
Definition is_bad_url_char (c : ascii) : bool :=
  (uc c <? 32) || (uc c =? 127) || is_char "034" c || is_char "'" c || is_char "\" c || is_char " " c.

Definition ValidateHttpUrl (field_name url : string) : exc unit :=
  if sempty url then Ret tt
  else if 2048 <? ssize url then
    Throw (InvalidInputException ("quack_oauth: " +:+ field_name +:+
             " exceeds maximum allowed length of 2048 characters"))
  else if existsb is_bad_url_char (chars url) then
    Throw (InvalidInputException ("quack_oauth: " +:+ field_name +:+ " contains invalid or control characters"))
  else
    let is_https := starts_with "https://" url in
    let is_http := starts_with "http://" url in
    if negb is_https && negb is_http then
      Throw (InvalidInputException ("quack_oauth: " +:+ field_name +:+
               " must begin with 'https://' (or 'http://localhost' for local development)"))
    else
      let authority := authority_of (if is_https then 8 else 7) url in
      if contains_char "@" authority then
        Throw (InvalidInputException ("quack_oauth: " +:+ field_name +:+ " must not contain userinfo ('@')"))
      else if is_http && negb (IsLocalhostUrl url) then
        Throw (InvalidInputException ("quack_oauth: " +:+ field_name +:+
                 " must use 'https://' (plain 'http://' is only allowed for localhost development)"))
      else Ret tt.

Definition ValidateTenantOrRealm (val : string) : exc unit :=
  if sempty val then Ret tt
  else if 2048 <? ssize val then
    Throw (InvalidInputException "quack_oauth: tenant_or_realm exceeds maximum allowed length of 2048 characters")
  else if existsb is_bad_url_char (chars val) then
    Throw (InvalidInputException ("quack_oauth: tenant_or_realm contains invalid or control characters (must not "
      +:+ "contain spaces, quotes, backslashes, or control characters)"))
  else if starts_with "http://" val || starts_with "https://" val then ValidateHttpUrl "tenant_or_realm" val
  else if contains_char "@" val then
    Throw (InvalidInputException "quack_oauth: tenant_or_realm must not contain userinfo ('@')")
  else Ret tt.

(** ** [http_client_duckdb.cpp] *)
Record UrlParts : Type := mkUrlParts {
  up_scheme : string;
  up_host : string;
  up_port : Z;
  up_path : string;
}.

(** [s.find(p)] for a pattern. *)
Fixpoint find_prefix (p : string) (l : list ascii) : option nat :=
  if starts_with p (of_chars l) then Some 0%nat
  else match l with [] => None | _ :: l => S <$> find_prefix p l end.

Definition ParseUrl (url : string) : option UrlParts :=
  scheme_end ← find_prefix "://" (chars url);
  let scheme := stake scheme_end url in
  let rest := sdrop (scheme_end + 3) url in
  let '(host_part, path) := match find_char "/" rest with
                            | None => (rest, "/")
                            | Some path_off => (stake path_off rest, sdrop path_off rest)
                            end in
  '(host, port) ← match rfind_char ":" host_part with
                  | None => Some (host_part, if seqb scheme "https" then 443 else 80)
                  | Some colon =>
                      port ← stoi (sdrop (colon + 1) host_part);
                      Some (stake colon host_part, port)
                  end;
  if sempty host then None else Some (mkUrlParts scheme host port path).

(** What the client connects to: TLS with certificate verification, plain, or nothing. *)
Inductive Endpoint : Type :=
  | SSLClient (host : string) (port : Z) (path : string)
  | PlainClient (host : string) (port : Z) (path : string).

Definition client_for (url : string) : option Endpoint :=
  u ← ParseUrl url;
  if seqb (up_scheme u) "https" then Some (SSLClient (up_host u) (up_port u) (up_path u))
  else if seqb (up_scheme u) "http" then Some (PlainClient (up_host u) (up_port u) (up_path u))
  else None.

(** ** Lemmas *)
Lemma chars_sdrop n s : chars (sdrop n s) = drop n (chars s).
Proof. apply chars_of_chars. Qed.
Lemma chars_stake n s : chars (stake n s) = take n (chars s).
Proof. apply chars_of_chars. Qed.
Lemma sdrop_app s t n : n = String.length s → sdrop n (s +:+ t) = t.
Proof. intros ->. apply chars_inj. by rewrite chars_sdrop, chars_app, <-length_chars, drop_app_length. Qed.
Lemma stake_app s t n : n = String.length s → stake n (s +:+ t) = s.
Proof. intros ->. apply chars_inj. by rewrite chars_stake, chars_app, <-length_chars, take_app_length. Qed.
Lemma stake_sdrop n s : stake n s +:+ sdrop n s = s.
Proof. apply chars_inj. by rewrite chars_app, chars_stake, chars_sdrop, take_drop. Qed.

(** Splitting at the first or last character of a kind. *)
Lemma find_if_split f s n :
  find_if f (chars s) = Some n ↔
  ∃ a c b, s = a +:+ String c b ∧ String.length a = n ∧ f c = true ∧ forallb (negb ∘ f) (chars a) = true.
Proof.
  rewrite find_if_Some. split.
  - intros (l1 & c & l2 & Hs & <- & Hc & Hl). exists (of_chars l1), c, (of_chars l2).
    rewrite <-length_chars, chars_of_chars. split_and!; try done. apply chars_inj.
    rewrite chars_app, chars_of_chars, Hs. unfold chars at 1. simpl. by rewrite <-(chars_of_chars l2) at 1.
  - intros (a & c & b & -> & <- & Hc & Hl). exists (chars a), c, (chars b).
    by rewrite chars_app, length_chars.
Qed.
Lemma rfind_if_split f s n :
  rfind_if f (chars s) = Some n →
  ∃ a c b, s = a +:+ String c b ∧ String.length a = n ∧ f c = true ∧ forallb (negb ∘ f) (chars b) = true.
Proof.
  intros (l1 & c & l2 & Hs & <- & Hc & Hl)%rfind_if_Some. exists (of_chars l1), c, (of_chars l2).
  rewrite <-length_chars, !chars_of_chars. split_and!; try done. apply chars_inj.
  rewrite chars_app, chars_of_chars, Hs. unfold chars at 1. simpl. by rewrite <-(chars_of_chars l2) at 1.
Qed.

(** [free f s]: no character of [s] is in [f]. *)
Definition free (f : ascii → bool) (s : string) : Prop := forallb (negb ∘ f) (chars s) = true.
Lemma free_find f s : free f s ↔ find_if f (chars s) = None.
Proof. symmetry. apply find_if_None. Qed.
Lemma free_spec f s : free f s ↔ ∀ c, c ∈ chars s → f c = false.
Proof.
  unfold free. rewrite forallb_elem. unfold compose. by setoid_rewrite negb_true_iff.
Qed.
Lemma free_contains c s : contains_char c s = false ↔ free (is_char c) s.
Proof.
  rewrite free_spec, <-not_true_iff_false, contains_char_spec. split.
  - intros H d Hd. apply not_true_is_false. by intros ->%is_char_true.
  - intros H Hc. specialize (H c Hc). by rewrite (proj2 (is_char_true c c) eq_refl) in H.
Qed.
Lemma free_app f s t : free f (s +:+ t) ↔ free f s ∧ free f t.
Proof. unfold free. by rewrite chars_app, forallb_app, andb_true_iff. Qed.
Lemma free_mono f g s : (∀ c, f c = true → g c = true) → free g s → free f s.
Proof.
  rewrite !free_spec. intros Hfg H c Hc. specialize (H c Hc). specialize (Hfg c).
  destruct (f c); [|done]. by rewrite Hfg in H.
Qed.

Lemma find_first_app f a c b :
  free f a → f c = true → find_if f (chars (a +:+ String c b)) = Some (String.length a).
Proof. intros. apply find_if_split. by exists a, c, b. Qed.

Lemma chars_cons c s : chars (String c s) = c :: chars s.
Proof. done. Qed.
Lemma snoc_char a c b : a +:+ String c b = (a +:+ String c "") +:+ b.
Proof. by rewrite <-sapp_assoc. Qed.

Lemma rfind_if_None f l : rfind_if f l = None ↔ forallb (negb ∘ f) l = true.
Proof.
  induction l as [|d l IH]; simpl; [done|]. unfold compose in *.
  destruct (rfind_if f l).
  - split; [done|]. intros [_ H]%andb_true_iff. by apply IH in H.
  - destruct (f d); simpl; [done|]. rewrite <-IH. done.
Qed.
Lemma rfind_app f a c b :
  f c = true → free f b → rfind_if f (chars (a +:+ String c b)) = Some (String.length a).
Proof.
  intros Hc Hb%rfind_if_None. rewrite chars_app, chars_cons, <-length_chars.
  induction (chars a) as [|d l IH]; simpl; [by rewrite Hb, Hc|]. by rewrite IH.
Qed.

(** ** Specifications *)

(** [tail] starts where an authority ends. *)
Definition at_boundary (tail : string) : Prop :=
  match tail with "" => True | String c _ => is_auth_end c = true end.

Lemma authority_of_eq p a tail :
  free is_auth_end a → at_boundary tail → authority_of (String.length p) (p +:+ a +:+ tail) = a.
Proof.
  intros Ha Ht. unfold authority_of. rewrite sdrop_app by done. destruct tail as [|c t].
  - rewrite sapp_empty_r. by rewrite (proj1 (free_find _ _) Ha).
  - rewrite find_first_app by done. by apply stake_app.
Qed.

Lemma authority_of_split p url :
  starts_with p url = true →
  ∃ a tail, url = p +:+ a +:+ tail ∧ free is_auth_end a ∧ at_boundary tail ∧
    authority_of (String.length p) url = a.
Proof.
  intros [t ->]%starts_with_spec. destruct (find_if is_auth_end (chars t)) as [n|] eqn:Hn.
  - apply find_if_split in Hn as (a & c & b & -> & ? & Hc & Ha). exists a, (String c b).
    split_and!; try done. by apply authority_of_eq.
  - apply free_find in Hn. exists t, "". rewrite sapp_empty_r. split_and!; try done.
    pose proof (authority_of_eq p t "" Hn I) as H. by rewrite sapp_empty_r in H.
Qed.

(** The four shapes of an authority with a host. *)
Definition not_bracketed (h : string) : Prop := match h with String c _ => is_char "[" c = false | "" => True end.
Inductive authority_parts : string → string → string → Prop :=
  | bare_host h : not_bracketed h → free (is_char ":") h → authority_parts h h ""
  | host_port h p : not_bracketed h → free (is_char ":") h → authority_parts (h +:+ String ":" p) h p
  | bracket_host h : free (is_char "]") h → authority_parts (String "[" (h +:+ "]")) h ""
  | bracket_port h p :
      free (is_char "]") h → authority_parts (String "[" (h +:+ String "]" (String ":" p))) h p.

Lemma split_authority_parts a h p :
  authority_parts a h p → h ≠ "" → split_authority a = Some (h, p).
Proof.
  assert (∀ h rest, free (is_char "]") h →
    find_char "]" (String "[" (h +:+ String "]" rest)) = Some (S (String.length h))) as Hfind.
  { intros h0 rest Hh. unfold find_char. rewrite chars_cons. cbn [find_if]. simpl (is_char "]" "[").
    by rewrite find_first_app. }
  assert (∀ h rest, substr 1 (S (String.length h) - 1) (String "[" (h +:+ String "]" rest)) = h ∧
    sdrop (S (String.length h) + 1) (String "[" (h +:+ String "]" rest)) = rest) as Hcut.
  { intros h0 rest. split.
    - unfold substr. change (String "[" (h0 +:+ String "]" rest)) with ("[" +:+ (h0 +:+ String "]" rest)).
      rewrite sdrop_app by done. apply stake_app. lia.
    - rewrite snoc_char. change (String "[" ((h0 +:+ "]") +:+ rest)) with ((String "[" (h0 +:+ "]")) +:+ rest).
      apply sdrop_app. simpl. rewrite <-(length_chars (h0 +:+ "]")), chars_app, length_app, length_chars. simpl. lia. }
  intros Hp Hne. unfold split_authority. destruct Hp as [h Hb Hf|h p Hb Hf|h Hf|h p Hf].
  - destruct h as [|c h]; [done|]. rewrite chars_cons. simpl in Hb. rewrite Hb.
    unfold find_char. by rewrite (proj1 (free_find _ _) Hf).
  - destruct h as [|c h]; [done|]. change ((String c h) +:+ String ":" p) with (String c (h +:+ String ":" p)) at 1.
    rewrite chars_cons. simpl in Hb. rewrite Hb. unfold find_char. rewrite find_first_app by done.
    rewrite stake_app by done. rewrite snoc_char, sdrop_app; [done|].
    rewrite <-!length_chars, chars_app, length_app. simpl. lia.
  - rewrite chars_cons. simpl (is_char "[" "["). cbv iota. rewrite Hfind by done.
    by destruct (Hcut h "") as [-> ->].
  - rewrite chars_cons. simpl (is_char "[" "["). cbv iota. rewrite Hfind by done.
    destruct (Hcut h (String ":" p)) as [-> ->]. rewrite chars_cons. simpl (negb _). cbv iota.
    change (sdrop 1 (String ":" p)) with (sdrop 1 (":" +:+ p)). by rewrite sdrop_app.
Qed.

Lemma split_authority_inv a h p : split_authority a = Some (h, p) → authority_parts a h p.
Proof.
  unfold split_authority. destruct a as [|c a]; [done|]. rewrite chars_cons.
  destruct (is_char "[" c) eqn:Hc.
  - apply is_char_true in Hc as ->. unfold find_char. rewrite chars_cons. cbn [find_if]. simpl (is_char "]" "[").
    destruct (find_if _ (chars a)) as [n|] eqn:Hn; [|done]. cbn [fmap option_fmap option_map].
    change (is_char "]" "[") with false. cbv iota.
    apply find_if_split in Hn as (h' & d & b & -> & <- & ->%is_char_true & Hf).
    assert (substr 1 (S (String.length h') - 1) (String "[" (h' +:+ String "]" b)) = h') as ->.
    { unfold substr. change (String "[" (h' +:+ String "]" b)) with ("[" +:+ (h' +:+ String "]" b)).
      rewrite sdrop_app by done. apply stake_app. lia. }
    assert (sdrop (S (String.length h') + 1) (String "[" (h' +:+ String "]" b)) = b) as ->.
    { rewrite snoc_char. change (String "[" ((h' +:+ "]") +:+ b)) with ((String "[" (h' +:+ "]")) +:+ b).
      apply sdrop_app. simpl. rewrite <-(length_chars (h' +:+ "]")), chars_app, length_app, length_chars. simpl. lia. }
    destruct b as [|d b]; [intros [= <- <-]; by constructor|]. rewrite chars_cons.
    destruct (is_char ":" d) eqn:Hd; [|done]. apply is_char_true in Hd as ->. intros [= <- <-].
    change (sdrop 1 (String ":" b)) with (sdrop 1 (":" +:+ b)). rewrite sdrop_app by done. by constructor.
  - unfold find_char. destruct (find_if _ _) as [n|] eqn:Hn.
    + apply find_if_split in Hn as (h' & d & b & Ha & <- & ->%is_char_true & Hf). rewrite Ha.
      rewrite stake_app by done. rewrite snoc_char, sdrop_app, <-snoc_char.
      2: { rewrite <-!length_chars, chars_app, length_app. simpl. lia. }
      intros [= <- <-]. constructor; [|done]. destruct h' as [|d h']; [done|].
      unfold String.append in Ha. by simplify_eq/=.
    + apply free_find in Hn. intros [= <- <-]. by constructor.
Qed.

(** A port: absent, or one to five digits of a value from 1 to 65535. *)
Definition valid_port (p : string) : Prop :=
  p = "" ∨ (ssize p ≤ 5 ∧ forallb is_digit (chars p) = true ∧ 1 ≤ digits_value 0 (chars p) ≤ 65535).

Lemma port_loop_eq l n :
  port_loop l n = if forallb is_digit l then Some (digits_value n l) else None.
Proof.
  revert n. induction l as [|c l IH]; intros n; simpl; [done|].
  destruct (is_digit c); simpl; [|done]. rewrite IH. by rewrite Z.mul_comm.
Qed.

Lemma port_ok_spec p : port_ok p = true ↔ valid_port p.
Proof.
  unfold port_ok, valid_port. destruct (sempty p) eqn:Hp.
  - apply sempty_true in Hp. naive_solver.
  - apply sempty_false in Hp. rewrite port_loop_eq. destruct (Z.ltb_spec 5 (ssize p)).
    + split; [done|]. intros [?|(? & _)]; [done|lia].
    + destruct (forallb is_digit (chars p)).
      * rewrite negb_true_iff, orb_false_iff, Z.leb_gt, Z.ltb_ge. split; [right; split_and!; lia|].
        intros [?|(_ & _ & ?)]; [done|lia].
      * split; [done|]. intros [?|(_ & ? & _)]; done.
Qed.

(** [http://]: only an authority naming the loopback interface. *)
Definition dev_authority (a : string) : Prop :=
  ∃ h p, authority_parts a h p ∧ h ≠ "" ∧ valid_port p ∧ IsLoopbackHost h = true.

Definition acceptable_url (url : string) : Prop :=
  url = "" ∨
  (ssize url ≤ 2048 ∧ free is_bad_url_char url ∧
   ∃ a tail, free is_auth_end a ∧ at_boundary tail ∧ free (is_char "@") a ∧
     (url = "https://" +:+ a +:+ tail ∨ (url = "http://" +:+ a +:+ tail ∧ dev_authority a))).

Lemma dev_authority_nonempty a : dev_authority a → a ≠ "".
Proof. intros (h & p & Hp & Hne & _). destruct Hp; [done|destruct h; discriminate|discriminate|discriminate]. Qed.

Lemma IsLocalhostUrl_spec a tail :
  free is_auth_end a → at_boundary tail →
  IsLocalhostUrl ("http://" +:+ a +:+ tail) = true ↔ free (is_char "@") a ∧ dev_authority a.
Proof.
  intros Ha Ht. unfold IsLocalhostUrl.
  assert (starts_with "http://" ("http://" +:+ a +:+ tail) = true) as ->
    by (apply starts_with_spec; eauto).
  simpl (negb true). cbv iota. change 7%nat with (String.length "http://").
  rewrite authority_of_eq by done. destruct (sempty a) eqn:He.
  - apply sempty_true in He as ->. split; [done|]. by intros [_ []%dev_authority_nonempty].
  - rewrite <-free_contains. destruct (contains_char "@" a); [naive_solver|].
    destruct (split_authority a) as [[h p]|] eqn:Hs.
    + split.
      * destruct (port_ok p) eqn:Hp; [|done]. destruct (sempty h) eqn:Hh; [done|]. intros Hl.
        apply split_authority_inv in Hs. apply port_ok_spec in Hp. apply sempty_false in Hh. split; [done|].
        by exists h, p.
      * intros [_ (h' & p' & Hparts & Hne & Hp & Hl)].
        rewrite (split_authority_parts _ _ _ Hparts Hne) in Hs. simplify_eq.
        rewrite (proj2 (port_ok_spec _) Hp), (proj2 (sempty_false _) Hne). done.
    + split; [done|]. intros [_ (h' & p' & Hparts & Hne & _)].
      by rewrite (split_authority_parts _ _ _ Hparts Hne) in Hs.
Qed.

Lemma scheme_exclusive url : starts_with "https://" url = true → starts_with "http://" url = false.
Proof.
  intros [t ->]%starts_with_spec. apply not_true_is_false. intros [t' Ht]%starts_with_spec.
  unfold String.append in Ht. by simplify_eq/=.
Qed.

Lemma authority_unique p a tail a' tail' :
  free is_auth_end a → at_boundary tail → free is_auth_end a' → at_boundary tail' →
  p +:+ a +:+ tail = p +:+ a' +:+ tail' → a = a'.
Proof.
  intros ???? He. rewrite <-(authority_of_eq p a tail), <-(authority_of_eq p a' tail') by done. by rewrite He.
Qed.

Lemma ValidateHttpUrl_cases field_name url :
  (ValidateHttpUrl field_name url = Ret tt ∧ acceptable_url url) ∨
  ((∃ msg, ValidateHttpUrl field_name url = Throw (InvalidInputException msg)) ∧ ¬ acceptable_url url).
Proof.
  unfold ValidateHttpUrl. destruct (sempty url) eqn:He.
  { apply sempty_true in He as ->. left. split; [done|by left]. }
  apply sempty_false in He. destruct (Z.ltb_spec 2048 (ssize url)).
  { right. split; [eauto|]. intros [?|(? & _)]; [done|lia]. }
  destruct (existsb is_bad_url_char (chars url)) eqn:Hbad.
  { right. split; [eauto|]. apply existsb_elem in Hbad as (c & Hc & Hbad).
    intros [?|(_ & Hf & _)]; [done|]. rewrite free_spec in Hf. by rewrite Hf in Hbad. }
  assert (free is_bad_url_char url) as Hfree.
  { apply free_spec. intros c Hc. apply not_true_is_false. intros Hb.
    apply not_true_iff_false in Hbad. apply Hbad, existsb_elem. eauto. }
  destruct (starts_with "https://" url) eqn:Hs.
  - rewrite (scheme_exclusive _ Hs). simpl (_ && _). cbv iota. change 8%nat with (String.length "https://").
    destruct (authority_of_split _ _ Hs) as (a & tail & -> & Ha & Ht & Hauth). rewrite Hauth.
    destruct (contains_char "@" a) eqn:Hat.
    + right. split; [eauto|]. intros [?|(_ & _ & a' & t' & Ha' & Ht' & Hat' & [Heq|[Heq _]])]; [done| |].
      * apply authority_unique in Heq; [|done..]. subst a'. apply free_contains in Hat'. congruence.
      * pose proof (scheme_exclusive _ Hs) as Hx. apply not_true_iff_false in Hx. apply Hx.
        rewrite Heq. apply starts_with_spec. eauto.
    + left. split; [done|]. right. split_and!; [done|done|]. exists a, tail. rewrite <-free_contains. split_and!; [done..|]. by left.
  - destruct (starts_with "http://" url) eqn:Hh; simpl (_ && _); cbv iota.
    2: { right. split; [eauto|]. intros [?|(_ & _ & a' & t' & _ & _ & _ & [->|[-> _]])]; [done| |].
      - apply not_true_iff_false in Hs. apply Hs, starts_with_spec. eauto.
      - apply not_true_iff_false in Hh. apply Hh, starts_with_spec. eauto. }
    change 7%nat with (String.length "http://").
    destruct (authority_of_split _ _ Hh) as (a & tail & -> & Ha & Ht & Hauth). rewrite Hauth.
    assert (acceptable_url ("http://" +:+ a +:+ tail) → free (is_char "@") a ∧ dev_authority a) as Hinv.
    { intros [?|(_ & _ & a' & t' & Ha' & Ht' & Hat' & [Heq|[Heq Hd]])]; [done| |].
      - exfalso. apply not_true_iff_false in Hs. apply Hs. rewrite Heq. apply starts_with_spec. eauto.
      - apply authority_unique in Heq; [|done..]. by subst a'. }
    destruct (contains_char "@" a) eqn:Hat.
    + right. split; [eauto|]. intros [Hx _]%Hinv. apply free_contains in Hx. congruence.
    + destruct (IsLocalhostUrl _) eqn:Hl; simpl.
      * apply IsLocalhostUrl_spec in Hl as [??]; [|done..]. left. split; [done|]. right. split_and!; [done|done|].
        exists a, tail. split_and!; [done..|]. right. by split.
      * right. split; [eauto|]. intros Hacc%Hinv. apply not_true_iff_false in Hl. by apply Hl, IsLocalhostUrl_spec.
Qed.

Lemma ValidateHttpUrl_accepts field_name url : ValidateHttpUrl field_name url = Ret tt → acceptable_url url.
Proof. intros H. destruct (ValidateHttpUrl_cases field_name url) as [[_ ?]|[[msg Hm] _]]; [done|congruence]. Qed.

(** Claim C17.  Which URLs an operator may configure, exactly: the empty one, or at
    most 2048 harmless characters that read [https://authority...] or
    [http://authority...], with no [@] in the authority and, for plain [http], an
    authority that is a loopback host with an optional port from 1 to 65535.
    Every other string throws; none is undefined behaviour. *)
Theorem ValidateHttpUrl_spec field_name url :
  (ValidateHttpUrl field_name url = Ret tt ↔ acceptable_url url) ∧
  (¬ acceptable_url url → ∃ msg, ValidateHttpUrl field_name url = Throw (InvalidInputException msg)).
Proof.
  destruct (ValidateHttpUrl_cases field_name url) as [[-> ?]|[[msg ->] ?]]; naive_solver.
Qed.

(** ** Listeners

    The URI of a listener, and the host that it is bound to: [quack:] or [quack://],
    then a name or an address, or an address in brackets, and perhaps a port. *)
Inductive listener_body : string → string → Prop :=
  | body_slashes body : listener_body ("quack://" +:+ body) body
  | body_plain body : starts_with "//" body = false → listener_body ("quack:" +:+ body) body.
Inductive listens_on (uri : string) : string → Prop :=
  | on_address a rest :
      listener_body uri (String "[" (a +:+ String "]" rest)) → free (is_char "]") a →
      listens_on uri (String "[" (a +:+ "]"))
  | on_host h : listener_body uri h → not_bracketed h → free (is_char ":") h → listens_on uri h
  | on_host_port h port :
      listener_body uri (h +:+ String ":" port) → not_bracketed h → free (is_char ":") port → listens_on uri h.

Lemma listener_body_unique uri b1 b2 : listener_body uri b1 → listener_body uri b2 → b1 = b2.
Proof.
  assert (∀ b, listener_body uri b → uri = "quack:" +:+ "//" +:+ b ∨ (starts_with "//" b = false ∧ uri = "quack:" +:+ b))
    as Hinv by (intros b []; auto).
  intros [->|[Hb ->]]%Hinv [Heq|[Hb' Heq]]%Hinv; apply app_inj_prefix in Heq.
  - by apply app_inj_prefix in Heq.
  - rewrite <-Heq in Hb'. apply not_true_iff_false in Hb'. destruct Hb'. apply starts_with_spec. eauto.
  - rewrite Heq in Hb. apply not_true_iff_false in Hb. destruct Hb. apply starts_with_spec. eauto.
  - done.
Qed.

(** A listener has one host. *)
Lemma listens_on_unique uri h1 h2 : listens_on uri h1 → listens_on uri h2 → h1 = h2.
Proof.
  assert (∀ a c b a' b', free (is_char c) a → free (is_char c) a' →
    a +:+ String c b = a' +:+ String c b' → a = a') as Hcut.
  { intros a c b a' b' Ha Ha' Heq. pose proof (find_first_app (is_char c) a c b Ha (proj2 (is_char_true c c) eq_refl)) as H1.
    rewrite Heq, find_first_app in H1 by (done || by apply is_char_true). injection H1 as Hlen.
    by rewrite <-(stake_app a (String c b) _ eq_refl), Heq, <-Hlen, stake_app. }
  assert (∀ h p h' p', free (is_char ":") p → free (is_char ":") p' →
    h +:+ String ":" p = h' +:+ String ":" p' → h = h') as Hport.
  { intros h p h' p' Hp Hp' Heq. pose proof (rfind_app (is_char ":") h ":"%char p eq_refl Hp) as H1.
    rewrite Heq, rfind_app in H1 by done. injection H1 as Hlen.
    by rewrite <-(stake_app h (String ":" p) _ eq_refl), Heq, <-Hlen, stake_app. }
  assert (∀ h p, ¬ free (is_char ":") (h +:+ String ":" p)) as Hnot.
  { intros h p [_ Hf]%free_app. done. }
  intros [a r Hb Ha|h Hb Hn Hf|h p Hb Hn Hf] [a' r' Hb' Ha'|h' Hb' Hn' Hf'|h' p' Hb' Hn' Hf'];
    pose proof (listener_body_unique _ _ _ Hb Hb') as Heq; try done.
  - injection Heq as Heq. by rewrite (Hcut _ _ _ _ _ Ha Ha' Heq).
  - by rewrite <-Heq in Hn'.
  - destruct h' as [|c h']; [done|]. injection Heq as <- _. done.
  - by rewrite Heq in Hn.
  - rewrite Heq in Hf. by apply Hnot in Hf.
  - destruct h as [|c h]; [done|]. injection Heq as -> _. done.
  - rewrite <-Heq in Hf'. by apply Hnot in Hf'.
  - by apply (Hport _ _ _ _ Hf Hf').
Qed.

(** The names of the machine itself: in any case, and the addresses 127.*. *)
Definition loopback_name (h : string) : Prop :=
  lower_ascii h ∈ ["localhost"; "::1"; "[::1]"] ∨
  ∃ rest, lower_ascii h = "127." +:+ rest ∧ ∀ c, c ∈ chars rest → c = "."%char ∨ is_digit c = true.

Lemma IsLoopbackHost_spec h : IsLoopbackHost h = true ↔ loopback_name h.
Proof.
  unfold IsLoopbackHost, loopback_name, AsciiToLower, StartsWith. destruct h as [|c h].
  { simpl. split; [done|]. intros [Hin|(rest & Hr & _)]; [|done]. by rewrite !elem_of_cons, elem_of_nil in Hin; naive_solver. }
  change (sempty (String c h)) with false. cbv iota. set (l := lower_ascii (String c h)). clearbody l. clear c h.
  destruct (seqb l "localhost") eqn:H1; [apply seqb_true in H1 as ->; split; [left; left|done]|].
  destruct (seqb l "::1" || seqb l "[::1]") eqn:H2.
  { split; [intros _; left|done]. apply orb_true_iff in H2 as [->%seqb_true| ->%seqb_true]; set_solver. }
  apply orb_false_iff in H2 as [H2 H3]. apply not_true_iff_false in H1, H2, H3. rewrite seqb_true in H1, H2, H3.
  destruct (starts_with "127." l) eqn:Hs.
  - apply starts_with_spec in Hs as [rest ->]. rewrite sdrop_app by done. rewrite forallb_elem.
    setoid_rewrite orb_true_iff. setoid_rewrite is_char_true. split.
    + intros Hall. right. exists rest. split; [done|]. intros c Hc. by destruct (Hall c Hc) as [<-|]; auto.
    + intros [Hin|(rest' & Heq & Hall)] c Hc; [|assert (rest' = rest) as -> by (by injection Heq)].
      * rewrite !elem_of_cons, elem_of_nil in Hin. naive_solver.
      * by destruct (Hall c Hc) as [->|]; auto.
  - split; [done|]. intros [Hin|(rest & -> & _)].
    + rewrite !elem_of_cons, elem_of_nil in Hin. naive_solver.
    + apply not_true_iff_false in Hs. destruct Hs. apply starts_with_spec. eauto.
Qed.

(** The host of a body, as the guard cuts it out. *)
Lemma HostFromQuackUri_spec uri host : HostFromQuackUri uri = host → host ≠ "" → listens_on uri host.
Proof.
  unfold HostFromQuackUri, StartsWith. destruct (sempty uri); [by intros <-|].
  assert (∀ body, listener_body uri body → host_of_body body = host → host ≠ "" → listens_on uri host) as Hbody.
  { intros body Hbody. unfold host_of_body. destruct body as [|c body]; [by intros <-|]. rewrite chars_cons.
    destruct (is_char "[" c) eqn:Hc.
    - apply is_char_true in Hc as ->. unfold find_char. rewrite chars_cons. cbn [find_if]. simpl (is_char "]" "[").
      destruct (find_if _ (chars body)) as [n|] eqn:Hn; [|by intros <-]. cbn [fmap option_fmap option_map].
      apply find_if_split in Hn as (a & c & b & -> & <- & Hc & Ha). apply is_char_true in Hc as ->. intros <- _.
      change (is_char "]" "[") with false. cbv iota.
      assert (String "[" (a +:+ String "]" b) = String "[" (a +:+ "]") +:+ b) as Hcut by (by rewrite snoc_char).
      rewrite Hcut, stake_app; [by apply on_address with b|].
      simpl. rewrite <-(length_chars (a +:+ _)), chars_app, length_app, length_chars. simpl. lia.
    - unfold rfind_char. destruct (rfind_if _ _) as [n|] eqn:Hn.
      + apply rfind_if_split in Hn as (a & d & b & Heq & <- & Hd & Hb). apply is_char_true in Hd as ->.
        rewrite Heq. rewrite stake_app by done. intros <- Hne. rewrite Heq in Hbody.
        apply on_host_port with b; [done| |done]. destruct a as [|d a]; [done|]. by injection Heq as <- _.
      + intros <- _. apply on_host; [done|done|]. by apply rfind_if_None. }
  destruct (starts_with "quack://" uri) eqn:Hslashes.
  { apply starts_with_spec in Hslashes as [t ->]. rewrite sdrop_app by done. apply Hbody. constructor. }
  destruct (starts_with "quack:" uri) eqn:Hplain; [|by intros <-].
  apply starts_with_spec in Hplain as [t ->]. rewrite sdrop_app by done. apply Hbody. constructor.
  apply not_true_iff_false. intros [t' ->]%starts_with_spec. apply not_true_iff_false in Hslashes.
  destruct Hslashes. apply starts_with_spec. by exists t'.
Qed.

(** ** The client's view of a configured URL *)
Lemma digits_free_colon p : forallb is_digit (chars p) = true → free (is_char ":") p.
Proof.
  rewrite forallb_elem, free_spec. intros H c Hc. specialize (H c Hc).
  apply not_true_is_false. by intros ->%is_char_true.
Qed.

Lemma stoi_port p : valid_port p → p ≠ "" → stoi p = Some (digits_value 0 (chars p)).
Proof.
  intros [?|(_ & Hd & Hv)] Hne; [done|]. destruct p as [|c p]; [done|]. rewrite chars_cons in *.
  simpl in Hd. apply andb_true_iff in Hd as [Hc Hd].
  assert (is_space c = false) as Hsp.
  { pose proof (ascii_forall (λ c, negb (is_digit c) || negb (is_space c)) eq_refl c) as H.
    simpl in H. rewrite Hc in H. by apply negb_true_iff in H. }
  assert (c ≠ "-"%char ∧ c ≠ "+"%char) as [Hm Hp] by (split; intros ->; done).
  unfold stoi, sto. rewrite chars_cons. cbn [drop_while]. rewrite Hsp.
  assert (∀ A (x y z : A), match c with "-"%char => x | "+"%char => y | _ => z end = z) as Hmatch.
  { intros A x y z. clear -Hm Hp. destruct c as [[] [] [] [] [] [] [] []]; done. }
  assert (match c :: chars p with "-"%char :: l => (true, l) | "+"%char :: l => (false, l) | _ => (false, c :: chars p) end
    = (false, c :: chars p)) as ->.
  { clear -Hm Hp. destruct c as [[] [] [] [] [] [] [] []]; done. }
  rewrite Hc. destruct (Z.leb_spec (- 2 ^ (32 - 1)) (digits_value 0 (c :: chars p))); [|lia].
  destruct (Z.ltb_spec (digits_value 0 (c :: chars p)) (2 ^ (32 - 1))); [done|lia].
Qed.

(** The client's parse of [scheme://a] followed by a path or nothing. *)
Lemma ParseUrl_scheme scheme a path :
  scheme = "http" ∨ scheme = "https" →
  free (is_char "/") a → match path with "" => True | String c _ => c = "/"%char end →
  ParseUrl (scheme +:+ "://" +:+ a +:+ path) =
    ('(host, port) ← match rfind_char ":" a with
                     | None => Some (a, if seqb scheme "https" then 443 else 80)
                     | Some colon => port ← stoi (sdrop (colon + 1) a); Some (stake colon a, port)
                     end;
     if sempty host then None else Some (mkUrlParts scheme host port (if sempty path then "/" else path))).
Proof.
  intros Hscheme Ha Hp. unfold ParseUrl.
  assert (find_prefix "://" (chars (scheme +:+ "://" +:+ a +:+ path)) = Some (String.length scheme)) as ->.
  { rewrite !(chars_app scheme), (chars_app "://"). generalize (chars (a +:+ path)). intros l.
    destruct Hscheme as [-> | ->]; cbn; by destruct (String.string_of_list_ascii l). }
  unfold mbind at 1, option_bind at 1. rewrite stake_app by done.
  assert (sdrop (String.length scheme + 3) (scheme +:+ "://" +:+ a +:+ path) = a +:+ path) as ->.
  { rewrite sapp_assoc. apply sdrop_app. rewrite <-!length_chars, chars_app, length_app. done. }
  destruct path as [|c path].
  - rewrite sapp_empty_r. unfold find_char. rewrite (proj1 (free_find _ _) Ha). done.
  - subst c. unfold find_char at 1. rewrite find_first_app by done. rewrite stake_app, sdrop_app by done. done.
Qed.

(** A plain [http] URL that passed validation stays on the machine:
    when its authority has no [?], [#] or [\[] and is followed by a path or by
    nothing, the HTTP client either refuses the URL or connects to a loopback host,
    on a port from 1 to 65535. *)
Theorem plain_http_local field_name a path :
  ValidateHttpUrl field_name ("http://" +:+ a +:+ path) = Ret tt →
  free (λ c, is_auth_end c || is_char "[" c) a → match path with "" => True | String c _ => c = "/"%char end →
  client_for ("http://" +:+ a +:+ path) = None ∨
  ∃ host port path', client_for ("http://" +:+ a +:+ path) = Some (PlainClient host port path') ∧
    IsLoopbackHost host = true ∧ 1 ≤ port ≤ 65535.
Proof.
  intros Hv Hf Hp. apply ValidateHttpUrl_accepts in Hv.
  assert (free is_auth_end a) as Ha.
  { eapply free_mono; [|exact Hf]. simpl. by intros c ->. }
  assert (at_boundary path) as Hb by (destruct path; [done|by subst]).
  destruct Hv as [?|(_ & _ & a' & t' & Ha' & Ht' & _ & [Heq|[Heq Hd]])]; [done|done|].
  apply authority_unique in Heq; [|done..]. subst a'.
  destruct Hd as (h & p & Hparts & Hne & Hport & Hl).
  assert (free (is_char "[") a) as Hbr.
  { eapply free_mono; [|exact Hf]. simpl. intros c ->. apply orb_true_r. }
  unfold client_for. change ("http://" +:+ a +:+ path) with ("http" +:+ "://" +:+ a +:+ path).
  rewrite ParseUrl_scheme; [|by left|by eapply free_mono; [|exact Ha]; unfold is_auth_end; intros c ->|done].
  destruct Hparts as [h Hnb Hfc|h p Hnb Hfc|h Hfc|h p Hfc].
  - right. unfold rfind_char. rewrite (proj2 (rfind_if_None _ _) Hfc). simpl.
    rewrite (proj2 (sempty_false _) Hne). simpl. by eexists _, _, _.
  - unfold rfind_char. destruct (decide (p = "")) as [->|Hpne].
    + left. rewrite rfind_app by done.
      assert (sdrop (String.length h + 1) (h +:+ ":") = "") as ->; [|done].
      rewrite <-(sapp_empty_r (h +:+ ":")). apply sdrop_app.
      rewrite <-!length_chars, chars_app, length_app. simpl. lia.
    + right. pose proof Hport as [?|(_ & Hdig & Hrange)]; [done|]. rewrite rfind_app by (done || by apply digits_free_colon).
      rewrite stake_app by done.
      assert (sdrop (String.length h + 1) (h +:+ String ":" p) = p) as ->.
      { rewrite snoc_char. apply sdrop_app. rewrite <-!length_chars, chars_app, length_app. simpl. lia. }
      rewrite stoi_port by done. simpl. rewrite (proj2 (sempty_false _) Hne). simpl. by eexists _, _, _.
  - rewrite free_spec in Hbr. by specialize (Hbr "["%char ltac:(left)).
  - rewrite free_spec in Hbr. by specialize (Hbr "["%char ltac:(left)).
Qed.

Example plain_http_local_run :
  ValidateHttpUrl "jwks_uri" "http://127.0.0.1:8080/certs" = Ret tt ∧
  client_for "http://127.0.0.1:8080/certs" = Some (PlainClient "127.0.0.1" 8080 "/certs").
Proof.
  split; [by vm_compute|].
  destruct (plain_http_local "jwks_uri" "127.0.0.1:8080" "/certs") as [H|(h & p & q & H & _)];
    [by vm_compute|by vm_compute|done|by vm_compute in H|]. by vm_compute in *.
Qed.

(** Outside that shape the two parsers disagree: the validator ends the
    authority at [?] or [#] and strips brackets, the client looks only for the
    next slash and the last colon.  A URL accepted as naming localhost is fetched
    in clear text from another host name, and a bracketed IPv6 address without a
    port is never reached. *)
Theorem url_parsers_disagree :
  (ValidateHttpUrl "jwks_uri" "http://localhost?.idp.example/jwks" = Ret tt ∧
   client_for "http://localhost?.idp.example/jwks" = Some (PlainClient "localhost?.idp.example" 80 "/jwks") ∧
   IsLoopbackHost "localhost?.idp.example" = false) ∧
  (ValidateHttpUrl "jwks_uri" "http://[::1]/jwks" = Ret tt ∧
   client_for "http://[::1]/jwks" = Some (PlainClient "[:" 1 "/jwks")).
Proof. by vm_compute. Qed.

Lemma ValidateHttpUrl_spec_witness :
  acceptable_url "https://idp.example/jwks" ∧
  ∃ msg, ValidateHttpUrl "jwks_uri" "ftp://idp.example" = Throw (InvalidInputException msg).
Proof.
  split.
  - apply (proj1 (ValidateHttpUrl_spec "jwks_uri" "https://idp.example/jwks")). vm_compute. reflexivity.
  - apply (proj2 (ValidateHttpUrl_spec "jwks_uri" "ftp://idp.example")).
    intros H%(proj1 (ValidateHttpUrl_spec "jwks_uri" "ftp://idp.example")). vm_compute in H. discriminate.
Defined.
