(* ===== verification/HttpClientDuckdb.v ===== *)
(** * The HTTP client over DuckDB's httplib ([src/http_client_duckdb.cpp])

    The client parses the URL (see [UrlGuard]), builds a TLS or a plain httplib
    client for its host and port, configures it and sends one request.  httplib is
    not part of the repository: it is a parameter, a function from what a client
    was configured with and asked for to its answer ([None] is a transport
    failure). *)
From S2P Require Import Prelude CppString StdList Http UrlGuard.

(** A configured client and the call made on it. *)
Record HttplibRequest : Type := mkHttplibRequest {
  hr_tls : bool;                        (* SSLClient rather than Client *)
  hr_verify_certificate : bool;
  hr_host : string;
  hr_port : Z;
  hr_connection_timeout_s : Z;
  hr_read_timeout_s : Z;
  hr_basic_auth : option (string * string);
  hr_path : string;
  hr_post : option (string * string);   (* body and content type; [None] is a GET *)
}.
Definition Httplib (W : Type) : Type := HttplibRequest → M W (option Response).

(** [s.c_str()]: the library reads up to the first NUL byte. *)
Definition c_str (s : string) : string :=
  match find_char "000" s with Some n => stake n s | None => s end.

(** A client as constructed, before [DoGet] or [DoPost]. *)
Record HttplibClient : Type := mkHttplibClient { hc_tls : bool; hc_verify : bool; hc_host : string; hc_port : Z }.

Section client.
Context {W : Type} (lib : Httplib W).

Definition DoGet (client : HttplibClient) (path : string) : M W (option Response) :=
  lib (mkHttplibRequest (hc_tls client) (hc_verify client) (hc_host client) (hc_port client) 5 10 None (c_str path) None).

Definition DoPost (client : HttplibClient) (path : string) (req : PostRequest) : M W (option Response) :=
  let auth := if negb (sempty (pr_basic_user req)) then Some (pr_basic_user req, pr_basic_pass req) else None in
  lib (mkHttplibRequest (hc_tls client) (hc_verify client) (hc_host client) (hc_port client) 5 10 auth (c_str path)
         (Some (pr_body req, c_str (pr_content_type req)))).

Definition DuckdbHttpClient_Get (url : string) : M W (option Response) :=
  match ParseUrl url with
  | None => mret None
  | Some u =>
      if seqb (up_scheme u) "https" then DoGet (mkHttplibClient true true (up_host u) (up_port u)) (up_path u)
      else if seqb (up_scheme u) "http" then DoGet (mkHttplibClient false false (up_host u) (up_port u)) (up_path u)
      else mret None
  end.

Definition DuckdbHttpClient_Post (req : PostRequest) : M W (option Response) :=
  match ParseUrl (pr_url req) with
  | None => mret None
  | Some u =>
      if seqb (up_scheme u) "https" then DoPost (mkHttplibClient true true (up_host u) (up_port u)) (up_path u) req
      else if seqb (up_scheme u) "http" then DoPost (mkHttplibClient false false (up_host u) (up_port u)) (up_path u) req
      else mret None
  end.

Definition DuckdbHttpClient : IHttpClient W := mkHttp DuckdbHttpClient_Get DuckdbHttpClient_Post.
End client.

(** ** What leaves the machine *)

(** A network that answers as it likes and records what it was sent. *)
Definition recording (answer : HttplibRequest → option Response) : Httplib (list HttplibRequest) :=
  λ q log, (Ret (answer q), log ++ [q]).

(** A request for a URL may carry secrets: over verified TLS for [https], else to
    this machine. *)
Definition confined (url : string) (q : HttplibRequest) : Prop :=
  (starts_with "https://" url = true ∧ hr_tls q = true ∧ hr_verify_certificate q = true) ∨
  (starts_with "http://" url = true ∧ IsLoopbackHost (hr_host q) = true ∧ 1 ≤ hr_port q ≤ 65535).

(** A plain URL whose authority the validator and the client read alike. *)
Definition plain_shape (url : string) : Prop :=
  starts_with "http://" url = true →
  ∃ a path, url = "http://" +:+ a +:+ path ∧ free (λ c, is_auth_end c || is_char "[" c) a ∧
    match path with "" => True | String c _ => c = "/"%char end.

Lemma find_scheme scheme t :
  scheme = "http" ∨ scheme = "https" → find_prefix "://" (chars (scheme +:+ "://" +:+ t)) = Some (String.length scheme).
Proof. intros [-> | ->]; rewrite !chars_app; cbn; by destruct (String.string_of_list_ascii (chars t)). Qed.

Lemma ParseUrl_has_scheme scheme t u :
  scheme = "http" ∨ scheme = "https" → ParseUrl (scheme +:+ "://" +:+ t) = Some u → up_scheme u = scheme.
Proof.
  intros Hs. unfold ParseUrl. rewrite find_scheme by done. unfold mbind at 1, option_bind at 1.
  rewrite stake_app by done. destruct (match find_char "/" _ with None => _ | Some _ => _ end) as [host_part path].
  intros ([host port] & _ & Hu)%bind_Some. destruct (sempty host); [done|]. by simplify_eq.
Qed.

(** The endpoint of an accepted URL, if there is one. *)
Lemma accepted_endpoint field_name url u :
  ValidateHttpUrl field_name url = Ret tt → plain_shape url → ParseUrl url = Some u →
  (starts_with "https://" url = true ∧ up_scheme u = "https") ∨
  (starts_with "http://" url = true ∧ up_scheme u = "http" ∧ IsLoopbackHost (up_host u) = true ∧ 1 ≤ up_port u ≤ 65535).
Proof.
  intros Hv Hshape Hu. pose proof (ValidateHttpUrl_accepts _ _ Hv) as [->|(_ & _ & a & t & _ & _ & _ & [Heq|[Heq _]])].
  - done.
  - left. subst url. split; [apply starts_with_spec; by eexists|]. eapply ParseUrl_has_scheme; [by right|exact Hu].
  - right. assert (starts_with "http://" url = true) as Hs by (apply starts_with_spec; by eexists).
    split; [done|]. destruct (Hshape Hs) as (a' & path & -> & Hf & Hp).
    assert (up_scheme u = "http") as Hsch by (eapply ParseUrl_has_scheme; [by left|exact Hu]). split; [done|].
    destruct (plain_http_local field_name a' path Hv Hf Hp) as [Hnone|(h & p & q & Hep & Hl & Hport)];
      unfold client_for in *; rewrite Hu in *; simpl in *; rewrite Hsch in *; simpl in *; [done|].
    by simplify_eq.
Qed.

(** Claim C18.  Secrets stay on verified channels.  For a URL that passed validation
    (a plain one in the shape both parsers read alike) the client sends at most
    one request per call; it is that URL's method, body and content type, with the
    basic credentials exactly when there is a user name, bounded timeouts, and it
    goes over TLS with certificate verification, or to a loopback host; its answer
    is what the caller gets, and without a request the caller gets nothing. *)
Theorem requests_confined answer field_name req :
  ValidateHttpUrl field_name (pr_url req) = Ret tt → plain_shape (pr_url req) →
  let lib := recording answer in
  let ok q post auth :=
    confined (pr_url req) q ∧ hr_post q = post ∧ hr_basic_auth q = auth ∧
    hr_connection_timeout_s q = 5 ∧ hr_read_timeout_s q = 10 in
  (Get (DuckdbHttpClient lib) (pr_url req) [] = (Ret None, []) ∨
   ∃ q, Get (DuckdbHttpClient lib) (pr_url req) [] = (Ret (answer q), [q]) ∧ ok q None None) ∧
  (Post (DuckdbHttpClient lib) req [] = (Ret None, []) ∨
   ∃ q, Post (DuckdbHttpClient lib) req [] = (Ret (answer q), [q]) ∧
     ok q (Some (pr_body req, c_str (pr_content_type req)))
       (if sempty (pr_basic_user req) then None else Some (pr_basic_user req, pr_basic_pass req))).
Proof.
  intros Hv Hshape. cbn [Get Post DuckdbHttpClient]. unfold DuckdbHttpClient_Get, DuckdbHttpClient_Post.
  destruct (ParseUrl (pr_url req)) as [u|] eqn:Hu; [|split; by left].
  destruct (accepted_endpoint _ _ _ Hv Hshape Hu) as [(Hs & ->)|(Hs & -> & Hl & Hp)];
    (split; right; eexists; (split; [reflexivity|])); unfold confined; cbn;
    (split_and!; [by auto|done|by destruct (sempty (pr_basic_user req))|done|done]).
Qed.

Lemma requests_confined_witness :
  let req := mkPostRequest "http://127.0.0.1:8080/introspect" "token=t" "application/x-www-form-urlencoded" "id" "pw" in
  let answer := λ q, Some (mkResponse 200 (hr_path q)) in
  ∃ q, Post (DuckdbHttpClient (recording answer)) req [] = (Ret (Some (mkResponse 200 "/introspect")), [q]) ∧
    IsLoopbackHost (hr_host q) = true ∧ hr_basic_auth q = Some ("id", "pw").
Proof.
  intros req answer. destruct (requests_confined answer "introspection_endpoint" req) as [_ [Hnone|(q & Hpost & Hok)]].
  - vm_compute. reflexivity.
  - intros _. exists "127.0.0.1:8080", "/introspect". repeat split; vm_compute; reflexivity.
  - vm_compute in Hnone. discriminate Hnone.
  - exists q. destruct Hok as ([(Hs & _)|(_ & Hl & _)] & _ & Hauth & _); [vm_compute in Hs; discriminate Hs|].
    split; [|split; [exact Hl|exact Hauth]].
    assert (fst (Post (DuckdbHttpClient (recording answer)) req []) = Ret (Some (mkResponse 200 "/introspect"))) as Hf
      by (vm_compute; reflexivity).
    rewrite Hpost in Hf |- *. exact (f_equal (λ r, (r, [q])) Hf).
Defined.
