(* ===== verification/Providers.v ===== *)
(** * Provider presets ([src/include/providers.hpp], [src/providers.cpp])

    The preset table and the substitution of the tenant into its templates. *)
From S2P Require Import Prelude CppString StdList UrlGuard.

Inductive ProviderId : Type := Generic | Entra | Google | Keycloak | Okta | Github.
Inductive ProviderValidation : Type := VJwks | VTokeninfo | VIntrospect | VGithubCheck.
#[export] Instance ProviderId_eq_dec : EqDecision ProviderId.
Proof. solve_decision. Defined.

Record ProviderConfig : Type := mkProviderConfig {
  pc_id : ProviderId;
  pc_name : string;
  pc_validation : ProviderValidation;
  pc_issuer_template : string;
  pc_jwks_uri_template : string;
  pc_introspection_template : string;
}.

Record ProviderResolved : Type := mkProviderResolved {
  prv_id : ProviderId;
  prv_validation : ProviderValidation;
  prv_issuer : string;
  prv_jwks_uri : string;
  prv_introspection_endpoint : string;
}.

Definition placeholder : string := "{tenant}".

(** The [while] loop of [Substitute]: [out.find(placeholder, pos)] then
    [replace].  Every round moves [pos] past what it wrote, so the text still to
    be searched loses the eight characters of a placeholder. *)
Fixpoint Substitute_loop (fuel : nat) (tenant out : string) (pos : nat) : exc string :=
  match fuel with
  | O => Stuck
  | S fuel =>
      match find_prefix placeholder (chars (sdrop pos out)) with
      | None => Ret out
      | Some n =>
          let pos := (pos + n)%nat in
          Substitute_loop fuel tenant
            (stake pos out +:+ tenant +:+ sdrop (pos + String.length placeholder) out)
            (pos + String.length tenant)%nat
      end
  end.
Definition Substitute (tmpl tenant : string) : exc string :=
  Substitute_loop (S (String.length tmpl)) tenant tmpl 0.

Definition LowerAscii (s : string) : string := lower_ascii s.

Definition ProviderFromString (s : string) : ProviderId :=
  let lower := LowerAscii s in
  if seqb lower "entra" then Entra
  else if seqb lower "google" then Google
  else if seqb lower "keycloak" then Keycloak
  else if seqb lower "okta" then Okta
  else if seqb lower "github" then Github
  else Generic.

Definition GetProviderConfig (id : ProviderId) : ProviderConfig :=
  match id with
  | Entra =>
      mkProviderConfig Entra "entra" VJwks
        "https://login.microsoftonline.com/{tenant}/v2.0"
        "https://login.microsoftonline.com/{tenant}/discovery/v2.0/keys"
        ""
  | Google =>
      mkProviderConfig Google "google" VTokeninfo
        "https://accounts.google.com"
        "https://www.googleapis.com/oauth2/v3/certs"
        "https://oauth2.googleapis.com/tokeninfo"
  | Keycloak =>
      mkProviderConfig Keycloak "keycloak" VJwks
        "{tenant}"
        "{tenant}/protocol/openid-connect/certs"
        "{tenant}/protocol/openid-connect/token/introspect"
  | Github =>
      mkProviderConfig Github "github" VGithubCheck
        "https://api.github.com"
        ""
        "https://api.github.com/applications/{tenant}/token"
  | Okta | Generic => mkProviderConfig Generic "generic" VJwks "" "" ""
  end.

Definition ResolveProvider (id : ProviderId) (tenant_or_realm : string) : exc ProviderResolved :=
  let cfg := GetProviderConfig id in
  issuer ← Substitute (pc_issuer_template cfg) tenant_or_realm;
  jwks_uri ← Substitute (pc_jwks_uri_template cfg) tenant_or_realm;
  introspection_endpoint ← Substitute (pc_introspection_template cfg) tenant_or_realm;
  Ret (mkProviderResolved (pc_id cfg) (pc_validation cfg) issuer jwks_uri introspection_endpoint).

(** ** Substitution

    The reference: one pass over the template, which never looks at the text it
    has put in. *)
Fixpoint subst_go (fuel : nat) (tenant : string) (l : list ascii) : list ascii :=
  match fuel with
  | O => []
  | S fuel =>
      match l with
      | [] => []
      | c :: l' =>
          if starts_with placeholder (of_chars l)
          then chars tenant ++ subst_go fuel tenant (drop (String.length placeholder) l)
          else c :: subst_go fuel tenant l'
      end
  end.
Definition subst_ref (tmpl tenant : string) : string :=
  of_chars (subst_go (String.length tmpl) tenant (chars tmpl)).

Lemma subst_go_fuel f f' tenant l :
  (length l ≤ f)%nat → (length l ≤ f')%nat → subst_go f tenant l = subst_go f' tenant l.
Proof.
  revert f' l. induction f as [|f IH]; intros [|f'] [|c l] Hf Hf'; simpl in *; try done; try lia.
  case_match.
  - f_equal. apply IH; rewrite length_drop; simpl; lia.
  - f_equal. apply IH; lia.
Qed.

Lemma find_prefix_None p l :
  p ≠ "" → find_prefix p l = None → ∀ n, starts_with p (of_chars (drop n l)) = false.
Proof.
  intros Hp. induction l as [|c l IH]; cbn [find_prefix].
  - intros _ n. rewrite drop_nil. by destruct p.
  - destruct (starts_with p _) eqn:Hc; [done|].
    intros Hn [|n]; [done|]. apply IH. by destruct (find_prefix p l).
Qed.

Lemma find_prefix_Some p l n :
  find_prefix p l = Some n →
  starts_with p (of_chars (drop n l)) = true ∧ (n ≤ length l)%nat ∧
  ∀ m, (m < n)%nat → starts_with p (of_chars (drop m l)) = false.
Proof.
  revert n. induction l as [|c l IH]; intros n; cbn [find_prefix].
  - destruct (starts_with p _) eqn:H; [|done]. intros [= <-]. split_and!; [done|simpl; lia|lia].
  - destruct (starts_with p _) eqn:Hc.
    + intros [= <-]. split_and!; [done|simpl; lia|lia].
    + destruct (find_prefix p l) as [k|]; [|done]. intros [= <-]. destruct (IH k eq_refl) as (? & ? & Hm).
      split_and!; [done|simpl; lia|]. intros [|m] ?; [done|]. apply Hm. lia.
Qed.

(** Copying the text before the first placeholder. *)
Lemma subst_go_copy tenant l n f :
  (length l ≤ f)%nat → (n ≤ length l)%nat →
  (∀ m, (m < n)%nat → starts_with placeholder (of_chars (drop m l)) = false) →
  subst_go f tenant l = take n l ++ subst_go f tenant (drop n l).
Proof.
  revert l f. induction n as [|n IH]; intros l f Hf Hn Hm; [done|].
  destruct l as [|c l]; [simpl in Hn; lia|]. destruct f as [|f]; [simpl in Hf; lia|]. simpl in Hf, Hn.
  cbn [subst_go take drop]. pose proof (Hm 0%nat ltac:(lia)) as Hm0. cbn [drop] in Hm0. rewrite Hm0. cbn [app]. f_equal.
  rewrite (IH l f) by (lia || (intros m ?; apply (Hm (S m)); lia)). f_equal.
  apply (subst_go_fuel f (S f)); rewrite length_drop; lia.
Qed.

Lemma subst_go_hit tenant l f :
  starts_with placeholder (of_chars l) = true → (length l ≤ f)%nat →
  subst_go f tenant l = chars tenant ++ subst_go f tenant (drop (String.length placeholder) l).
Proof.
  intros Hs Hf. destruct l as [|c l]; [done|]. destruct f as [|f]; [simpl in Hf; lia|].
  cbn [subst_go]. rewrite Hs. f_equal. simpl in Hf.
  apply (subst_go_fuel f (S f)); rewrite length_drop; simpl; lia.
Qed.

Lemma starts_with_length p l : starts_with p (of_chars l) = true → (String.length p ≤ length l)%nat.
Proof.
  intros [t Ht]%starts_with_spec. apply (f_equal chars) in Ht. rewrite chars_of_chars, chars_app in Ht.
  subst l. rewrite length_app, length_chars. lia.
Qed.

Lemma Substitute_loop_spec tenant out rest fuel :
  (String.length rest < fuel)%nat →
  Substitute_loop fuel tenant (out +:+ rest) (String.length out) =
    Ret (out +:+ of_chars (subst_go (String.length rest) tenant (chars rest))).
Proof.
  revert out rest. induction fuel as [|fuel IH]; intros out rest Hf; [lia|].
  cbn [Substitute_loop]. rewrite sdrop_app by done.
  destruct (find_prefix placeholder (chars rest)) as [n|] eqn:Hn.
  - destruct (find_prefix_Some _ _ _ Hn) as (Hs & Hle & Hm).
    assert (∃ b r, rest = b +:+ placeholder +:+ r ∧ String.length b = n) as (b & r & -> & <-).
    { apply starts_with_spec in Hs as [r Hr]. exists (stake n rest), r. split.
      - apply chars_inj. rewrite !chars_app, chars_stake. rewrite <-chars_app, <-Hr, chars_of_chars.
        by rewrite take_drop.
      - rewrite <-length_chars, chars_stake, length_take. lia. }
    assert (out +:+ b +:+ placeholder +:+ r = (out +:+ b +:+ placeholder) +:+ r) as Hassoc
      by (by rewrite !sapp_assoc).
    assert (∀ s t, String.length (s +:+ t) = (String.length s + String.length t)%nat) as Hlen.
    { intros s t0. rewrite <-!length_chars, chars_app. apply length_app. }
    rewrite !Hlen in Hf. change (String.length placeholder) with 8%nat in Hf.
    rewrite Hassoc at 2. rewrite sdrop_app by (rewrite !Hlen; change (String.length placeholder) with 8%nat; lia).
    rewrite (sapp_assoc out b), stake_app by (rewrite Hlen; lia).
    rewrite (sapp_assoc (out +:+ b)). rewrite <-Nat.add_assoc, <-(Hlen b tenant), <-(Hlen out).
    rewrite (sapp_assoc out b tenant). rewrite IH by lia.
    f_equal. rewrite <-!sapp_assoc. f_equal.
    rewrite (subst_go_copy tenant (chars (b +:+ placeholder +:+ r)) (String.length b)).
    + rewrite <-chars_stake, stake_app by done. rewrite <-chars_sdrop, sdrop_app by done.
      rewrite of_chars_app, of_chars_chars. f_equal.
      rewrite (subst_go_hit tenant (chars (placeholder +:+ r))).
      * rewrite of_chars_app, of_chars_chars. f_equal. f_equal.
        rewrite <-chars_sdrop, sdrop_app by done.
        apply subst_go_fuel; rewrite ?length_chars, ?Hlen; lia.
      * apply starts_with_spec. exists r. by rewrite of_chars_chars.
      * rewrite length_chars, !Hlen. lia.
    + by rewrite length_chars.
    + rewrite length_chars, Hlen. lia.
    + intros m ?. apply Hm. lia.
  - f_equal. f_equal. symmetry. rewrite (subst_go_copy tenant _ (String.length rest)).
    + rewrite <-length_chars, take_ge, drop_ge, of_chars_app, of_chars_chars by lia.
      destruct (length (chars rest)); apply sapp_empty_r.
    + by rewrite length_chars.
    + by rewrite length_chars.
    + intros m _. by apply find_prefix_None.
Qed.

Lemma Substitute_eq tmpl tenant : Substitute tmpl tenant = Ret (subst_ref tmpl tenant).
Proof. apply (Substitute_loop_spec tenant "" tmpl). lia. Qed.

(** Substitution always ends and is the one-pass replacement of the
    placeholder: nothing of the tenant string is looked at again, so a tenant
    that itself contains the placeholder is copied as it is. *)
Theorem Substitute_one_pass tmpl tenant : Substitute tmpl tenant = Ret (subst_ref tmpl tenant).
Proof. apply Substitute_eq. Qed.

Lemma client_for_https host path :
  host ≠ "" → free (λ c, is_char "/" c || is_char ":" c) host →
  client_for ("https://" +:+ host +:+ String "/" path) = Some (SSLClient host 443 (String "/" path)).
Proof.
  intros Hne Hf. unfold client_for.
  change ("https://" +:+ host +:+ String "/" path) with ("https" +:+ "://" +:+ host +:+ String "/" path).
  assert (free (is_char "/") host ∧ free (is_char ":") host) as [Hs Hc].
  { split; (eapply free_mono; [|exact Hf]); simpl; intros c ->; [done|apply orb_true_r]. }
  rewrite ParseUrl_scheme by auto. unfold rfind_char. rewrite (proj2 (rfind_if_None _ _) Hc). simpl.
  by rewrite (proj2 (sempty_false _) Hne).
Qed.

(** A preset pins the server: whatever the tenant string, the keys of an
    Entra token and the verdict on a Google or GitHub token are fetched over
    verified TLS, on port 443, from the provider's own host; only the path depends
    on the tenant.  Okta and unknown names fill in nothing. *)
Theorem presets_pin_host tenant :
  (∃ r, ResolveProvider Entra tenant = Ret r ∧
     prv_issuer r = "https://login.microsoftonline.com/" +:+ tenant +:+ "/v2.0" ∧
     client_for (prv_jwks_uri r) =
       Some (SSLClient "login.microsoftonline.com" 443 ("/" +:+ tenant +:+ "/discovery/v2.0/keys"))) ∧
  (∃ r, ResolveProvider Google tenant = Ret r ∧
     client_for (prv_introspection_endpoint r) = Some (SSLClient "oauth2.googleapis.com" 443 "/tokeninfo")) ∧
  (∃ r, ResolveProvider Github tenant = Ret r ∧ prv_jwks_uri r = "" ∧
     client_for (prv_introspection_endpoint r) =
       Some (SSLClient "api.github.com" 443 ("/applications/" +:+ tenant +:+ "/token"))) ∧
  (∃ r, ResolveProvider Okta tenant = Ret r ∧ ResolveProvider Generic tenant = Ret r ∧
     prv_issuer r = "" ∧ prv_jwks_uri r = "" ∧ prv_introspection_endpoint r = "").
Proof.
  assert (∀ tmpl pre post, subst_go (String.length tmpl) tenant (chars tmpl) = chars pre ++ chars tenant ++ chars post →
    subst_ref tmpl tenant = pre +:+ tenant +:+ post) as Hone.
  { intros tmpl pre post H. unfold subst_ref. rewrite H. by rewrite !of_chars_app, !of_chars_chars. }
  unfold ResolveProvider. rewrite !Substitute_eq. unfold mbind, exc_bind. split_and!; eexists; split_and!; try reflexivity.
  - simpl. by apply Hone.
  - simpl prv_jwks_uri. rewrite (Hone _ "https://login.microsoftonline.com/" "/discovery/v2.0/keys") by done.
    by apply (client_for_https "login.microsoftonline.com").
  - simpl prv_introspection_endpoint.
    rewrite (Hone _ "https://api.github.com/applications/" "/token") by done.
    by apply (client_for_https "api.github.com").
Qed.
