(* ===== verification/Policy.v ===== *)
(** * Authorization policy ([src/include/authz.hpp], [src/authz.cpp],
    [src/include/policy.hpp], [src/policy.cpp])

    Actions, the default scope policy, the glob matcher and the rule engine.  The
    specification is declarative: a glob is a relation between patterns and
    values, a cell is decided by the first rule that applies. *)
From S2P Require Import Prelude CppString StdList DecisionCache.

Inductive Action : Type :=
  | Attach | Scan | CopyTo | CopyFrom | ServeAdmin | AInsert | AUpdate | ADelete | Ddl | Pragma.
#[export] Instance Action_eq_dec : EqDecision Action.
Proof. solve_decision. Defined.

Definition ActionName (a : Action) : string :=
  match a with
  | Attach => "Attach"
  | Scan => "Scan"
  | CopyTo => "CopyTo"
  | CopyFrom => "CopyFrom"
  | ServeAdmin => "ServeAdmin"
  | AInsert => "Insert"
  | AUpdate => "Update"
  | ADelete => "Delete"
  | Ddl => "Ddl"
  | Pragma => "Pragma"
  end.

Inductive PDecision : Type := Allow | Deny.
#[export] Instance PDecision_eq_dec : EqDecision PDecision.
Proof. solve_decision. Defined.
Record PolicyOutcome : Type := mkPolicyOutcome { po_decision : PDecision; po_reason : string }.

Definition HasScope (p : Principal) (needle : string) : bool := existsb (seqb needle) (pr_scopes p).

Definition EvaluateDefaultPolicy (principal : Principal) (action : Action) : PolicyOutcome :=
  let has_read := HasScope principal "quack:read" || HasScope principal "quack:write" in
  let has_write := HasScope principal "quack:write" in
  match action with
  | Attach | Scan =>
      if has_read then mkPolicyOutcome Allow "ok" else mkPolicyOutcome Deny "requires quack:read"
  | CopyTo | CopyFrom | AInsert | AUpdate | ADelete =>
      if has_write then mkPolicyOutcome Allow "ok" else mkPolicyOutcome Deny "requires quack:write"
  | Ddl | Pragma | ServeAdmin =>
      mkPolicyOutcome Deny "default policy never permits administrative actions"
  end.

(** ** [policy.hpp], and the request of [sql_inspect.hpp] *)
Record AuthzRequest : Type := mkAuthzRequest {
  rq_action : Action;
  rq_objects : list string;
  rq_columns : list string;
  rq_unsafe : bool;
  rq_error : string;
}.

Record PolicyRule : Type := mkPolicyRule {
  ru_subject : option string;
  ru_any_scope : list string;
  ru_actions : list Action;
  ru_object_pattern : option string;
  ru_column_pattern : option string;
  ru_allow : bool;
}.

Record PolicyDocument : Type := mkPolicyDocument {
  pd_rules : list PolicyRule;
  pd_default_allow : bool;
}.

Definition PrincipalHasAnyScope (p : Principal) (any_of : list string) : bool :=
  if bool_decide (any_of = []) then true
  else existsb (λ needle, existsb (seqb needle) (pr_scopes p)) any_of.

Definition ActionMatches (action : Action) (l : list Action) : bool :=
  if bool_decide (l = []) then true else existsb (λ a, bool_decide (a = action)) l.

Definition ActionFromString (s : string) : option Action :=
  if seqb s "Attach" then Some Attach
  else if seqb s "Scan" then Some Scan
  else if seqb s "CopyTo" then Some CopyTo
  else if seqb s "CopyFrom" then Some CopyFrom
  else if seqb s "ServeAdmin" then Some ServeAdmin
  else if seqb s "Insert" then Some AInsert
  else if seqb s "Update" then Some AUpdate
  else if seqb s "Delete" then Some ADelete
  else if seqb s "Ddl" then Some Ddl
  else if seqb s "Pragma" then Some Pragma
  else None.

Definition Lower (c : ascii) : ascii := tolower c.
Definition is_star : ascii → bool := is_char "*".

(** The matcher's loop over positions; [star_p] is [None] for [npos]. *)
Fixpoint glob_loop (fuel : nat) (pattern value : list ascii) (pi vi : nat)
    (star_p : option nat) (star_v : nat) : exc bool :=
  match fuel with
  | O => Stuck
  | S fuel =>
      match value !! vi with
      | None =>
          Ret (match drop_while is_star (drop pi pattern) with [] => true | _ => false end)
      | Some d =>
          let backtrack :=
            match star_p with
            | Some sp => glob_loop fuel pattern value (sp + 1) (star_v + 1) star_p (star_v + 1)
            | None => Ret false
            end in
          match pattern !! pi with
          | None => backtrack
          | Some c =>
              if is_star c then glob_loop fuel pattern value (pi + 1) vi (Some pi) vi
              else if bool_decide (Lower c = Lower d) then
                glob_loop fuel pattern value (pi + 1) (vi + 1) star_p star_v
              else backtrack
          end
      end
  end.
(** The number of rounds: every star and every backtrack opens at most one
    sweep over the value. *)
Definition glob_fuel (np nv : nat) : nat := S ((np + nv + 1) * (nv + 1) + nv).
Definition GlobMatch (pattern value : string) : exc bool :=
  glob_loop (glob_fuel (String.length pattern) (String.length value)) (chars pattern) (chars value) 0 0 None 0.

Definition cell_reason (word object column : string) : string :=
  word +:+ (if sempty object then "" else " on " +:+ object) +:+ (if sempty column then "" else "." +:+ column).

(** The tests of one rule in one cell, in the code's order. *)
Definition RuleApplies (principal : Principal) (action : Action) (object column : string) (rule : PolicyRule)
    : exc bool :=
  if match ru_subject rule with Some s => negb (seqb s (pr_subject principal)) | None => false end then Ret false
  else if negb (PrincipalHasAnyScope principal (ru_any_scope rule)) then Ret false
  else if negb (ActionMatches action (ru_actions rule)) then Ret false
  else
    object_ok ← match ru_object_pattern rule with
                | Some p => if sempty object then Ret true else GlobMatch p object
                | None => Ret true
                end;
    if negb object_ok then Ret false
    else
      column_ok ← match ru_column_pattern rule with
                  | Some p => if sempty column then Ret true else GlobMatch p column
                  | None => Ret true
                  end;
      if negb column_ok then Ret false
      else if bool_decide (is_Some (ru_object_pattern rule)) && sempty object then Ret false
      else if bool_decide (is_Some (ru_column_pattern rule)) && sempty column then Ret false
      else Ret true.

Fixpoint EvaluateCell_loop (principal : Principal) (action : Action) (object column : string)
    (default_allow : bool) (rules : list PolicyRule) : exc PolicyOutcome :=
  match rules with
  | [] =>
      Ret (mkPolicyOutcome (if default_allow then Allow else Deny)
             (cell_reason (if default_allow then "default allow" else "default deny") object column))
  | rule :: rules =>
      applies ← RuleApplies principal action object column rule;
      if (applies : bool) then
        Ret (mkPolicyOutcome (if ru_allow rule then Allow else Deny)
               (cell_reason (if ru_allow rule then "rule allow" else "rule deny") object column))
      else EvaluateCell_loop principal action object column default_allow rules
  end.
Definition EvaluateCell (doc : PolicyDocument) (principal : Principal) (action : Action) (object column : string)
    : exc PolicyOutcome :=
  EvaluateCell_loop principal action object column (pd_default_allow doc) (pd_rules doc).

(** The walk over the cells; the first deny is returned. *)
Fixpoint first_deny (eval : string * string → exc PolicyOutcome) (cells : list (string * string))
    : exc (option PolicyOutcome) :=
  match cells with
  | [] => Ret None
  | cell :: cells =>
      outcome ← eval cell;
      if bool_decide (po_decision outcome = Deny) then Ret (Some outcome) else first_deny eval cells
  end.

(** The loop over the objects. *)
Fixpoint walk_objects (eval : string * string → exc PolicyOutcome) (columns objects : list string)
    : exc PolicyOutcome :=
  match objects with
  | [] => Ret (mkPolicyOutcome Allow "ok")
  | obj :: objects =>
      denied ← match columns with
               | [] => first_deny eval [(obj, "")]
               | _ => first_deny eval ((λ col, (obj, col)) <$> columns)
               end;
      match denied with
      | Some outcome => Ret outcome
      | None => walk_objects eval columns objects
      end
  end.

Definition EvaluatePolicy (doc : PolicyDocument) (principal : Principal) (request : AuthzRequest)
    : exc PolicyOutcome :=
  let eval '(obj, col) := EvaluateCell doc principal (rq_action request) obj col in
  match rq_objects request with
  | [] => eval ("", "")
  | objects => walk_objects eval (rq_columns request) objects
  end.

(** ** What a pattern means *)
Inductive glob_matches : list ascii → list ascii → Prop :=
  | gm_nil : glob_matches [] []
  | gm_star p u v : glob_matches p v → glob_matches ("*"%char :: p) (u ++ v)
  | gm_char c d p v :
      is_star c = false → Lower c = Lower d → glob_matches p v → glob_matches (c :: p) (d :: v).

Lemma is_star_true c : is_star c = true ↔ c = "*"%char.
Proof. apply is_char_true. Qed.

Lemma gm_star_extend p u v : glob_matches ("*"%char :: p) v → glob_matches ("*"%char :: p) (u ++ v).
Proof.
  inversion 1 as [|p' u' v' Hm|]; simplify_eq. rewrite app_assoc. by constructor.
Qed.

Lemma gm_star_unfold p v :
  glob_matches ("*"%char :: p) v ↔
  glob_matches p v ∨ (match v with [] => False | _ :: v' => glob_matches ("*"%char :: p) v' end).
Proof.
  split.
  - inversion 1 as [|p' u v' Hm|]; simplify_eq.
    destruct u as [|d u]; [by left|right]. by constructor.
  - intros [H|H]; [by apply (gm_star _ [])|]. destruct v as [|d v]; [done|]. by apply (gm_star_extend _ [d]).
Qed.

Lemma gm_char_iff c d p v :
  is_star c = false → glob_matches (c :: p) (d :: v) ↔ Lower c = Lower d ∧ glob_matches p v.
Proof.
  intros Hc. split; [|intros [??]; by constructor].
  inversion 1; simplify_eq. auto.
Qed.

Lemma gm_nil_iff v : glob_matches [] v ↔ v = [].
Proof. split; [by inversion 1|intros ->; constructor]. Qed.

Lemma gm_stars p : glob_matches p [] ↔ drop_while is_star p = [].
Proof.
  induction p as [|c p IH]; [split; [done|constructor]|]. cbn [drop_while].
  destruct (is_star c) eqn:Hc.
  - apply is_star_true in Hc as ->. rewrite gm_star_unfold, IH. tauto.
  - split; [|done]. inversion 1; simplify_eq; done.
Qed.

(** A literal segment matches exactly its own length. *)
Lemma gm_segment seg rest v :
  forallb (negb ∘ is_star) seg = true → glob_matches (seg ++ rest) v →
  (length seg ≤ length v)%nat ∧ glob_matches rest (drop (length seg) v).
Proof.
  revert v. induction seg as [|c seg IH]; intros v; simpl; [split; [lia|by rewrite drop_0]|].
  unfold compose. intros [Hc%negb_true_iff Hs]%andb_true_iff.
  inversion 1 as [| |c' d p' v' _ _ Hm]; simplify_eq. destruct (IH v' Hs Hm). simpl. split; [lia|done].
Qed.

Lemma gm_star_segment seg rest v :
  forallb (negb ∘ is_star) seg = true → glob_matches ("*"%char :: seg ++ rest) v →
  ∃ k, (k + length seg ≤ length v)%nat ∧ glob_matches rest (drop (k + length seg) v).
Proof.
  intros Hs. inversion 1 as [|p' u v' Hm|]; simplify_eq.
  destruct (gm_segment _ _ _ Hs Hm) as [Hle Hr]. exists (length u). rewrite length_app. split; [lia|].
  rewrite drop_app_ge by lia. by replace (length u + length seg - length u)%nat with (length seg) by lia.
Qed.

(** The loop invariant: the answer is the match at the current positions, or a
    later start for the text after the last star; the text since that star is
    literal and matched so far, which is what makes backtracking to the last star
    enough. *)
Definition star_alternative (pattern value : list ascii) (star_p : option nat) (star_v : nat) : Prop :=
  match star_p with
  | None => False
  | Some sp => (star_v < length value)%nat ∧ glob_matches ("*"%char :: drop (sp + 1) pattern) (drop (S star_v) value)
  end.
Definition glob_inv (pattern value : list ascii) (pi vi : nat) (star_p : option nat) (star_v : nat) : Prop :=
  (vi ≤ length value)%nat ∧
  (glob_matches pattern value ↔
     glob_matches (drop pi pattern) (drop vi value) ∨ star_alternative pattern value star_p star_v) ∧
  match star_p with
  | None => True
  | Some sp =>
      (sp < length pattern)%nat ∧ (star_v ≤ vi)%nat ∧
      ∃ seg, forallb (negb ∘ is_star) seg = true ∧ drop (sp + 1) pattern = seg ++ drop pi pattern ∧
             length seg = (vi - star_v)%nat
  end.

Lemma alternative_subsumed pattern value pi vi star_p star_v :
  glob_inv pattern value pi vi star_p star_v → pattern !! pi = Some "*"%char →
  star_alternative pattern value star_p star_v → glob_matches (drop pi pattern) (drop vi value).
Proof.
  intros (Hvi & _ & Hseg) Hpi. destruct star_p as [sp|]; [|done]. intros [Hlt Hm].
  destruct Hseg as (_ & Hle & seg & Hs & Hd & Hlen). rewrite Hd in Hm.
  apply gm_star_segment in Hm as (k & Hk & Hm); [|done]. rewrite length_drop in Hk.
  rewrite drop_drop in Hm. rewrite (drop_S _ _ _ Hpi) in Hm |- *.
  replace (drop vi value) with (take (S star_v + (k + length seg) - vi) (drop vi value)
    ++ drop (S star_v + (k + length seg) - vi) (drop vi value)) by apply take_drop.
  apply gm_star_extend. rewrite drop_drop. replace (vi + (S star_v + (k + length seg) - vi))%nat
    with (S star_v + (k + length seg))%nat by lia. done.
Qed.

Lemma alternative_done pattern value pi vi star_p star_v :
  glob_inv pattern value pi vi star_p star_v → vi = length value →
  star_alternative pattern value star_p star_v → False.
Proof.
  intros (_ & _ & Hseg) ->. destruct star_p as [sp|]; [|done]. intros [Hlt Hm].
  destruct Hseg as (_ & Hle & seg & Hs & Hd & Hlen). rewrite Hd in Hm.
  apply gm_star_segment in Hm as (k & Hk & _); [|done]. rewrite length_drop in Hk. lia.
Qed.

Lemma glob_inv_star pattern value pi vi star_p star_v :
  glob_inv pattern value pi vi star_p star_v → (vi < length value)%nat → pattern !! pi = Some "*"%char →
  glob_inv pattern value (pi + 1) vi (Some pi) vi.
Proof.
  intros Hinv Hvi Hpi. pose proof (alternative_subsumed _ _ _ _ _ _ Hinv Hpi) as Hsub.
  destruct Hinv as (Hle & Hiff & _). split; [done|]. split.
  - rewrite Hiff. transitivity (glob_matches (drop pi pattern) (drop vi value)); [tauto|].
    rewrite (drop_S _ _ _ Hpi). destruct (lookup_lt_is_Some_2 value vi Hvi) as [d Hd].
    rewrite gm_star_unfold. rewrite (drop_S _ _ _ Hd) at 2. unfold star_alternative.
    replace (pi + 1)%nat with (S pi) by lia. tauto.
  - split_and!; [by eapply lookup_lt_Some|done|]. exists []. split_and!; [done|done|simpl; lia].
Qed.

Lemma glob_inv_char pattern value pi vi star_p star_v c d :
  glob_inv pattern value pi vi star_p star_v → pattern !! pi = Some c → value !! vi = Some d →
  is_star c = false → Lower c = Lower d → glob_inv pattern value (pi + 1) (vi + 1) star_p star_v.
Proof.
  intros (Hle & Hiff & Hseg) Hpi Hvi Hc Heq. pose proof (lookup_lt_Some _ _ _ Hvi). split; [lia|]. split.
  - rewrite Hiff, (drop_S _ _ _ Hpi), (drop_S _ _ _ Hvi), gm_char_iff by done.
    replace (pi + 1)%nat with (S pi) by lia. replace (vi + 1)%nat with (S vi) by lia. tauto.
  - destruct star_p as [sp|]; [|done]. destruct Hseg as (? & ? & seg & Hs & Hd & Hlen).
    split_and!; [done|lia|]. exists (seg ++ [c]). rewrite forallb_app, Hs, length_app. simpl. unfold compose.
    rewrite Hc. split_and!; [done| |lia]. rewrite Hd, (drop_S _ _ _ Hpi), <-app_assoc.
    replace (pi + 1)%nat with (S pi) by lia. done.
Qed.

Lemma glob_inv_backtrack pattern value pi vi sp star_v :
  glob_inv pattern value pi vi (Some sp) star_v → (vi < length value)%nat →
  ¬ glob_matches (drop pi pattern) (drop vi value) →
  glob_inv pattern value (sp + 1) (star_v + 1) (Some sp) (star_v + 1).
Proof.
  intros (Hle & Hiff & (Hsp & Hsv & _)) Hvi Hno. split; [lia|]. split.
  - rewrite Hiff. transitivity (star_alternative pattern value (Some sp) star_v); [tauto|]. simpl.
    replace (star_v + 1)%nat with (S star_v) by lia. rewrite gm_star_unfold.
    destruct (decide (S star_v < length value)%nat) as [Hlt|Hge].
    + destruct (lookup_lt_is_Some_2 value (S star_v) Hlt) as [d Hd]. rewrite (drop_S _ _ _ Hd) at 2.
      assert (star_v < length value)%nat by lia. tauto.
    + rewrite (drop_ge value (S star_v)) at 2 by lia. assert (star_v < length value)%nat by lia. tauto.
  - split_and!; [done|lia|]. exists []. split_and!; [done|done|simpl; lia].
Qed.

Definition glob_outer (np nv : nat) (star_p : option nat) (star_v : nat) : nat :=
  match star_p with None => nv + np | Some sp => (nv - star_v) + (np - S sp) end.
Definition glob_measure (np nv vi : nat) (star_p : option nat) (star_v : nat) : nat :=
  glob_outer np nv star_p star_v * (nv + 1) + (nv - vi).

Lemma glob_measure_outer np nv vi vi' star_p star_v star_p' star_v' :
  (glob_outer np nv star_p' star_v' < glob_outer np nv star_p star_v)%nat →
  (glob_measure np nv vi' star_p' star_v' < glob_measure np nv vi star_p star_v)%nat.
Proof.
  unfold glob_measure. generalize (glob_outer np nv star_p' star_v'), (glob_outer np nv star_p star_v).
  intros a b Hab. assert ((a + 1) * (nv + 1) ≤ b * (nv + 1))%nat by (apply Nat.mul_le_mono_r; lia). lia.
Qed.

Lemma glob_pos pattern value pi vi sp star_v :
  glob_inv pattern value pi vi (Some sp) star_v → (pi < length pattern)%nat → (sp < pi)%nat.
Proof.
  intros (_ & _ & (Hsp & _ & seg & _ & Hd & _)) Hpi. apply (f_equal length) in Hd.
  rewrite length_app, !length_drop in Hd. lia.
Qed.

Lemma glob_loop_spec fuel pattern value pi vi star_p star_v :
  glob_inv pattern value pi vi star_p star_v →
  (glob_measure (length pattern) (length value) vi star_p star_v < fuel)%nat →
  ∃ b, glob_loop fuel pattern value pi vi star_p star_v = Ret b ∧ (b = true ↔ glob_matches pattern value).
Proof.
  revert pi vi star_p star_v. induction fuel as [|fuel IH]; intros pi vi star_p star_v Hinv Hf; [lia|].
  cbn [glob_loop]. destruct (value !! vi) as [d|] eqn:Hd.
  - pose proof (lookup_lt_Some _ _ _ Hd) as Hvi.
    assert (¬ glob_matches (drop pi pattern) (drop vi value) →
      ∃ b, match star_p with
           | Some sp => glob_loop fuel pattern value (sp + 1) (star_v + 1) star_p (star_v + 1)
           | None => Ret false end = Ret b ∧ (b = true ↔ glob_matches pattern value)) as Hback.
    { intros Hno. destruct star_p as [sp|].
      - apply IH; [by eapply glob_inv_backtrack|].
        eapply Nat.lt_le_trans; [apply glob_measure_outer|apply Nat.lt_succ_r; exact Hf].
        destruct Hinv as (_ & _ & _ & Hsv & _). unfold glob_outer. lia.
      - exists false. split; [done|]. destruct Hinv as (_ & Hiff & _). simpl in Hiff. rewrite Hiff. naive_solver. }
    destruct (pattern !! pi) as [c|] eqn:Hc.
    + pose proof (lookup_lt_Some _ _ _ Hc) as Hpi. destruct (is_star c) eqn:Hs.
      * apply is_star_true in Hs as ->. apply IH; [by eapply glob_inv_star|].
        eapply Nat.lt_le_trans; [apply glob_measure_outer|apply Nat.lt_succ_r; exact Hf].
        unfold glob_outer. destruct star_p as [sp|]; [|lia].
        pose proof (glob_pos _ _ _ _ _ _ Hinv Hpi). destruct Hinv as (_ & _ & _ & Hsv & _). lia.
      * destruct (bool_decide_reflect (Lower c = Lower d)) as [Heq|Hne].
        -- apply IH; [by eapply glob_inv_char|]. unfold glob_measure in *. lia.
        -- apply Hback. rewrite (drop_S _ _ _ Hc), (drop_S _ _ _ Hd), gm_char_iff by done. naive_solver.
    + apply Hback. apply lookup_ge_None in Hc. rewrite (drop_ge pattern) by lia. rewrite gm_nil_iff.
      by rewrite (drop_S _ _ _ Hd).
  - apply lookup_ge_None in Hd. assert (vi = length value) as Hvi by (destruct Hinv as (? & _); lia).
    pose proof (alternative_done _ _ _ _ _ _ Hinv Hvi) as Hno. destruct Hinv as (_ & Hiff & _).
    rewrite (drop_ge value vi) in Hiff by lia. rewrite gm_stars in Hiff.
    exists (match drop_while is_star (drop pi pattern) with [] => true | _ => false end). split; [done|].
    rewrite Hiff. destruct (drop_while is_star (drop pi pattern)); naive_solver.
Qed.

Lemma GlobMatch_decides pattern value :
  ∃ b, GlobMatch pattern value = Ret b ∧ (b = true ↔ glob_matches (chars pattern) (chars value)).
Proof.
  apply glob_loop_spec.
  - split; [lia|]. split; [|done]. simpl. tauto.
  - unfold glob_measure, glob_outer, glob_fuel. rewrite !length_chars. nia.
Qed.

Lemma gm_star_value p : glob_matches p ["*"%char] → forallb is_star p = true.
Proof.
  assert (∀ p, glob_matches p [] → forallb is_star p = true) as Hnil.
  { clear. intros p. rewrite gm_stars. induction p as [|c p IH]; simpl; [done|]. by destruct (is_star c). }
  induction p as [|c p IH]; [done|]. destruct (is_star c) eqn:Hc; cbn [forallb]; rewrite Hc.
  - apply is_star_true in Hc as ->. rewrite gm_star_unfold. intros [H|H]; [by apply IH|]. by apply Hnil in H.
  - rewrite gm_char_iff by done. intros [Hl _]. exfalso.
    pose proof (ascii_forall (λ c, is_star c || negb (bool_decide (Lower c = Lower "*"))) eq_refl c) as H.
    simpl in H. rewrite Hc in H. apply negb_true_iff, bool_decide_eq_false in H. done.
Qed.

(** Claim C12.  The matcher terminates on every input and decides the glob
    relation: a star stands for any run of characters, every other character for
    itself up to ASCII case.  In particular the name ["*"], which stands for
    SELECT *, is matched only by patterns that are nothing but stars. *)
Theorem GlobMatch_spec pattern value :
  ∃ b, GlobMatch pattern value = Ret b ∧ (b = true ↔ glob_matches (chars pattern) (chars value)) ∧
    (value = "*" → b = true → forallb is_star (chars pattern) = true).
Proof.
  destruct (GlobMatch_decides pattern value) as (b & Hb & Hiff). exists b. split_and!; [done|done|].
  intros -> H%Hiff. by apply gm_star_value.
Qed.

(** ** What a rule means *)
Definition pattern_applies (pattern : option string) (name : string) : Prop :=
  ∀ p, pattern = Some p → name ≠ "" ∧ glob_matches (chars p) (chars name).

Record rule_applies (principal : Principal) (action : Action) (object column : string) (rule : PolicyRule) : Prop := {
  ra_subject : ∀ s, ru_subject rule = Some s → s = pr_subject principal;
  ra_scope : ru_any_scope rule = [] ∨ ∃ sc, sc ∈ ru_any_scope rule ∧ sc ∈ pr_scopes principal;
  ra_action : ru_actions rule = [] ∨ action ∈ ru_actions rule;
  ra_object : pattern_applies (ru_object_pattern rule) object;
  ra_column : pattern_applies (ru_column_pattern rule) column;
}.

(** The first rule that applies decides; otherwise the default. *)
Definition cell_allowed (doc : PolicyDocument) (principal : Principal) (action : Action) (cell : string * string) : Prop :=
  (∃ pre rule post, pd_rules doc = pre ++ rule :: post ∧
     rule_applies principal action cell.1 cell.2 rule ∧ ru_allow rule = true ∧
     Forall (λ r, ¬ rule_applies principal action cell.1 cell.2 r) pre) ∨
  (Forall (λ r, ¬ rule_applies principal action cell.1 cell.2 r) (pd_rules doc) ∧ pd_default_allow doc = true).

Definition cells (request : AuthzRequest) : list (string * string) :=
  match rq_objects request with
  | [] => [("", "")]
  | objects =>
      obj ← objects;
      match rq_columns request with [] => [(obj, "")] | columns => (λ col, (obj, col)) <$> columns end
  end.

Lemma existsb_seqb s l : existsb (seqb s) l = true ↔ s ∈ l.
Proof.
  rewrite existsb_elem. split; [|intros ?; exists s; by rewrite seqb_true].
  by intros (x & ? & ->%seqb_true).
Qed.

Lemma PrincipalHasAnyScope_spec p l :
  PrincipalHasAnyScope p l = true ↔ l = [] ∨ ∃ sc, sc ∈ l ∧ sc ∈ pr_scopes p.
Proof.
  unfold PrincipalHasAnyScope. destruct (bool_decide_reflect (l = [])); [naive_solver|].
  rewrite existsb_elem. setoid_rewrite existsb_seqb. naive_solver.
Qed.

Lemma ActionMatches_spec a l : ActionMatches a l = true ↔ l = [] ∨ a ∈ l.
Proof.
  unfold ActionMatches. destruct (bool_decide_reflect (l = [])); [naive_solver|].
  rewrite existsb_elem. setoid_rewrite bool_decide_eq_true. naive_solver.
Qed.

Lemma pattern_spec pattern name :
  ∃ b, match pattern with Some p => if sempty name then Ret true else GlobMatch p name | None => Ret true end = Ret b ∧
    (b && negb (bool_decide (is_Some pattern) && sempty name) = true ↔ pattern_applies pattern name).
Proof.
  unfold pattern_applies. destruct pattern as [p|].
  - rewrite bool_decide_eq_true_2 by done. destruct (sempty name) eqn:Hn; simpl.
    + exists true. apply sempty_true in Hn. split; [done|]. split; [done|]. intros H. by destruct (H p eq_refl).
    + apply sempty_false in Hn. destruct (GlobMatch_decides p name) as (b & -> & Hb). exists b.
      rewrite andb_true_r, Hb. split; [done|]. naive_solver.
  - exists true. rewrite bool_decide_eq_false_2 by (by intros []). simpl. naive_solver.
Qed.

Lemma RuleApplies_spec principal action object column rule :
  ∃ b, RuleApplies principal action object column rule = Ret b ∧
    (b = true ↔ rule_applies principal action object column rule).
Proof.
  unfold RuleApplies.
  destruct (pattern_spec (ru_object_pattern rule) object) as (bo & Ho & Hbo).
  destruct (pattern_spec (ru_column_pattern rule) column) as (bc & Hc & Hbc).
  assert ((match ru_subject rule with Some s => negb (seqb s (pr_subject principal)) | None => false end = false)
    ↔ ∀ s, ru_subject rule = Some s → s = pr_subject principal) as Hsub.
  { destruct (ru_subject rule) as [s|]; [|naive_solver]. rewrite negb_false_iff, seqb_true. naive_solver. }
  destruct (match ru_subject rule with Some s => _ | None => false end).
  { exists false. split; [done|]. split; [done|]. intros []. by apply Hsub in ra_subject0. }
  destruct (PrincipalHasAnyScope principal (ru_any_scope rule)) eqn:Hsc; simpl negb; cbv iota.
  2: { exists false. split; [done|]. split; [done|]. intros []. apply PrincipalHasAnyScope_spec in ra_scope0. congruence. }
  destruct (ActionMatches action (ru_actions rule)) eqn:Ha; simpl negb; cbv iota.
  2: { exists false. split; [done|]. split; [done|]. intros []. apply ActionMatches_spec in ra_action0. congruence. }
  rewrite Ho. simpl mbind. destruct bo; simpl negb; cbv iota.
  2: { exists false. split; [done|]. split; [done|]. intros []. by apply Hbo in ra_object0. }
  rewrite Hc. simpl mbind. destruct bc; simpl negb; cbv iota.
  2: { exists false. split; [done|]. split; [done|]. intros []. by apply Hbc in ra_column0. }
  rewrite !andb_true_l in Hbo, Hbc. rewrite negb_true_iff in Hbo, Hbc.
  destruct (bool_decide (is_Some (ru_object_pattern rule)) && sempty object).
  { exists false. split; [done|]. split; [done|]. intros []. by apply Hbo in ra_object0. }
  destruct (bool_decide (is_Some (ru_column_pattern rule)) && sempty column).
  { exists false. split; [done|]. split; [done|]. intros []. by apply Hbc in ra_column0. }
  exists true. split; [done|]. split; [|done]. intros _. split.
  - by apply Hsub.
  - by apply PrincipalHasAnyScope_spec.
  - by apply ActionMatches_spec.
  - by apply Hbo.
  - by apply Hbc.
Qed.

Lemma EvaluateCell_spec doc principal action cell :
  ∃ o, EvaluateCell doc principal action cell.1 cell.2 = Ret o ∧
    (po_decision o = Allow ↔ cell_allowed doc principal action cell).
Proof.
  destruct cell as [object column]. unfold EvaluateCell, cell_allowed. simpl.
  induction (pd_rules doc) as [|rule rules IH].
  - eexists. split; [done|]. simpl. destruct (pd_default_allow doc); simpl.
    + split; [|done]. intros _. right. by split.
    + split; [done|]. intros [(pre & r & post & ? & _)|[_ ?]]; [by destruct pre|done].
  - cbn [EvaluateCell_loop]. destruct (RuleApplies_spec principal action object column rule) as (b & -> & Hb).
    simpl mbind. destruct b.
    + eexists. split; [done|]. simpl. pose proof (proj1 Hb eq_refl) as Happ. destruct (ru_allow rule) eqn:Hallow.
      * split; [|done]. intros _. left. exists [], rule, rules. split_and!; [done|done|done|by apply Forall_nil].
      * split; [done|]. intros [(pre & r & post & Heq & _ & Hr & Hpre)|[Hall _]].
        -- destruct pre as [|r' pre]; simplify_eq/=; [congruence|]. by apply Forall_cons in Hpre as [? _].
        -- by apply Forall_cons in Hall as [? _].
    + destruct IH as (o & -> & Ho). exists o. split; [done|]. rewrite Ho.
      assert (¬ rule_applies principal action object column rule) as Hno by (intros ?%Hb; done).
      split.
      * intros [(pre & r & post & -> & ? & ? & ?)|[? ?]]; [left|right].
        -- exists (rule :: pre), r, post. split_and!; [done..|]. by constructor.
        -- split; [by constructor|done].
      * intros [(pre & r & post & Heq & ? & ? & Hpre)|[Hall ?]]; [left|right].
        -- destruct pre as [|r' pre]; simplify_eq/=; [done|]. apply Forall_cons in Hpre as [_ Hpre]. by exists pre, r, post.
        -- by apply Forall_cons in Hall as [_ ?].
Qed.

Lemma first_deny_spec (allowed : string * string → Prop) eval l :
  (∀ cell, cell ∈ l → ∃ o, eval cell = Ret o ∧ (po_decision o = Allow ↔ allowed cell)) →
  ∃ r, first_deny eval l = Ret r ∧
    match r with
    | None => ∀ cell, cell ∈ l → allowed cell
    | Some o => po_decision o = Deny ∧ ∃ cell, cell ∈ l ∧ eval cell = Ret o ∧ ¬ allowed cell
    end.
Proof.
  induction l as [|cell l IH]; intros He; simpl.
  - eexists. split; [done|]. by intros ? ?%not_elem_of_nil.
  - destruct (He cell) as (o & Ho & Hal); [left|]. rewrite Ho. simpl.
    destruct (bool_decide_reflect (po_decision o = Deny)) as [Hd|Hd].
    + eexists. split; [done|]. split; [done|]. exists cell. split_and!; [left|done|]. rewrite <-Hal. congruence.
    + destruct IH as ([o'|] & -> & Hr); [intros; apply He; by right| |].
      * eexists. split; [done|]. destruct Hr as (? & c & ? & ?). split; [done|]. exists c. split; [by right|done].
      * eexists. split; [done|]. simpl. intros c [->|?]%elem_of_cons; [|by apply Hr].
        apply Hal. by destruct (po_decision o).
Qed.

Lemma walk_objects_spec (allowed : string * string → Prop) eval columns objects :
  (∀ cell, ∃ o, eval cell = Ret o ∧ (po_decision o = Allow ↔ allowed cell)) →
  let touched := obj ← objects;
    match columns with [] => [(obj, "")] | columns => (λ col, (obj, col)) <$> columns end in
  ∃ o, walk_objects eval columns objects = Ret o ∧
    (po_decision o = Allow ↔ ∀ cell, cell ∈ touched → allowed cell) ∧
    (po_decision o = Deny → ∃ cell, cell ∈ touched ∧ eval cell = Ret o ∧ ¬ allowed cell).
Proof.
  intros He touched. subst touched. induction objects as [|obj objects IH].
  - eexists. split; [done|]. simpl. split; [|done]. split; [|done]. by intros _ ? ?%not_elem_of_nil.
  - rewrite bind_cons. set (now := match columns with [] => [(obj, "")] | _ => _ end).
    cbn [walk_objects]. assert (match columns with
            | [] => first_deny eval [(obj, "")]
            | _ :: _ => first_deny eval ((λ col, (obj, col)) <$> columns) end = first_deny eval now) as ->
      by (by destruct columns).
    destruct (first_deny_spec allowed eval now) as ([o|] & -> & Hr); [by intros; apply He| |]; simpl.
    + destruct Hr as (Hd & c & Hin & Hc & Hno). exists o. split; [done|]. split.
      * split; [congruence|]. intros H. destruct Hno. apply H, elem_of_app. by left.
      * intros _. exists c. split; [|done]. apply elem_of_app. by left.
    + destruct IH as (o & -> & Hal & Hden). exists o. split; [done|]. split.
      * rewrite Hal. setoid_rewrite elem_of_app. naive_solver.
      * intros (c & ? & ?)%Hden. exists c. split; [|done]. apply elem_of_app. by right.
Qed.

Lemma EvaluatePolicy_spec doc principal request :
  ∃ o, EvaluatePolicy doc principal request = Ret o ∧
    (po_decision o = Allow ↔ ∀ cell, cell ∈ cells request → cell_allowed doc principal (rq_action request) cell) ∧
    (po_decision o = Deny → ∃ cell, cell ∈ cells request ∧
       EvaluateCell doc principal (rq_action request) cell.1 cell.2 = Ret o ∧
       ¬ cell_allowed doc principal (rq_action request) cell).
Proof.
  pose proof (EvaluateCell_spec doc principal (rq_action request)) as Hcell.
  unfold EvaluatePolicy, cells. destruct (rq_objects request) as [|obj objects].
  - destruct (Hcell ("", "")) as (o & Ho & Hal). exists o. split; [done|]. rewrite Hal.
    setoid_rewrite list_elem_of_singleton. split; [naive_solver|].
    intros Hd. exists ("", ""). split_and!; [done|done|]. rewrite <-Hal. congruence.
  - destruct (walk_objects_spec (cell_allowed doc principal (rq_action request))
      (λ '(obj, col), EvaluateCell doc principal (rq_action request) obj col) (rq_columns request) (obj :: objects))
      as (o & Ho & Hal & Hden); [intros [x y]; exact (Hcell (x, y))|].
    exists o. split; [exact Ho|]. destruct (rq_columns request); (split; [exact Hal|]); intros ([x y] & ? & ? & ?)%Hden; by exists (x, y).
Qed.

(** Claim C11.  A request is allowed exactly when every cell it touches is: each
    pair of an object and a column (or the single empty cell of a request that
    touches nothing) is decided by the first rule that applies to it, by the
    document's default when none does.  Evaluation always terminates, and a deny
    carries the reason of a cell that is not allowed. *)
Theorem EvaluatePolicy_all_cells doc principal request :
  ∃ o, EvaluatePolicy doc principal request = Ret o ∧
    (po_decision o = Allow ↔ ∀ cell, cell ∈ cells request → cell_allowed doc principal (rq_action request) cell) ∧
    (po_decision o = Deny → ∃ cell, cell ∈ cells request ∧
       EvaluateCell doc principal (rq_action request) cell.1 cell.2 = Ret o ∧
       ¬ cell_allowed doc principal (rq_action request) cell).
Proof. apply EvaluatePolicy_spec. Qed.

(** The default policy grants by scope alone: reading needs [quack:read]
    or [quack:write], writing needs [quack:write], and no scope grants DDL,
    PRAGMA or server administration. *)
Theorem default_policy_grants principal action :
  po_decision (EvaluateDefaultPolicy principal action) = Allow ↔
  (action ∈ [Attach; Scan] ∧ ("quack:read" ∈ pr_scopes principal ∨ "quack:write" ∈ pr_scopes principal)) ∨
  (action ∈ [CopyTo; CopyFrom; AInsert; AUpdate; ADelete] ∧ "quack:write" ∈ pr_scopes principal).
Proof.
  rewrite <-(bool_decide_eq_true (action ∈ [Attach; Scan])),
    <-(bool_decide_eq_true (action ∈ [CopyTo; CopyFrom; AInsert; AUpdate; ADelete])).
  unfold EvaluateDefaultPolicy, HasScope. rewrite <-!existsb_seqb.
  destruct (existsb (seqb "quack:read") _), (existsb (seqb "quack:write") _), action; vm_compute; intuition congruence.
Qed.

(** ** SELECT * and rules about columns *)

(** Rules that can speak about the name ["*"]: those without a column pattern, and
    those whose pattern is nothing but stars. *)
Definition covers_star (rule : PolicyRule) : bool :=
  match ru_column_pattern rule with
  | Some p => negb (sempty p) && forallb is_star (chars p)
  | None => true
  end.
Definition without_column_rules (doc : PolicyDocument) : PolicyDocument :=
  mkPolicyDocument (List.filter covers_star (pd_rules doc)) (pd_default_allow doc).

Lemma column_rule_misses_star principal action object column rule :
  covers_star rule = false → column = "" ∨ column = "*" → ¬ rule_applies principal action object column rule.
Proof.
  unfold covers_star. destruct (ru_column_pattern rule) as [p|] eqn:Hp; [|done]. intros Hstar Hcol [_ _ _ _ Hm].
  destruct (Hm p Hp) as [Hne Hg]. destruct Hcol as [->| ->]; [done|]. pose proof (gm_star_value _ Hg) as Hall.
  rewrite Hall, andb_true_r, negb_false_iff, sempty_true in Hstar. subst p. inversion Hg.
Qed.

Lemma EvaluateCell_covering doc principal action object column :
  column = "" ∨ column = "*" →
  EvaluateCell (without_column_rules doc) principal action object column = EvaluateCell doc principal action object column.
Proof.
  intros Hcol. unfold EvaluateCell. simpl. induction (pd_rules doc) as [|rule rules IH]; [done|]. cbn [List.filter].
  destruct (covers_star rule) eqn:Hstar; cbn [EvaluateCell_loop]; [by rewrite IH|].
  destruct (RuleApplies_spec principal action object column rule) as ([] & -> & Hb); [|exact IH].
  by destruct (column_rule_misses_star principal action object column rule Hstar Hcol (proj1 Hb eq_refl)).
Qed.

(** Claim C13.  No rule about particular columns protects against SELECT *.  For a
    request whose columns are the sentinel ["*"] alone, the policy decides exactly
    as if every rule with a column pattern that is not all stars were deleted: a
    deny on a column is skipped, and a later rule without a column pattern, or the
    default, decides. *)
Theorem star_sees_no_column_rule doc principal action objects unsafe error :
  let request := mkAuthzRequest action objects ["*"] unsafe error in
  EvaluatePolicy doc principal request = EvaluatePolicy (without_column_rules doc) principal request.
Proof.
  unfold EvaluatePolicy. cbn [rq_action rq_objects rq_columns]. destruct objects as [|obj objects].
  - symmetry. apply EvaluateCell_covering. by left.
  - generalize (obj :: objects) as l. intros l. induction l as [|o l IH]; [done|]. cbn [walk_objects first_deny fmap list_fmap].
    rewrite EvaluateCell_covering by (by right). destruct (EvaluateCell doc principal action o "*") as [r|e|]; [|done..].
    simpl. case_bool_decide; simpl; [done|exact IH].
Qed.

(** The column protection example of the README ("Level 5"). *)
Definition readme_policy : PolicyDocument :=
  let rule scope column allow := mkPolicyRule None [scope] [Scan] (Some "main.users") column allow in
  mkPolicyDocument
    [rule "pii:read" (Some "ssn") true; rule "pii:read" (Some "email") true; rule "pii:read" (Some "dob") true;
     rule "analyst" (Some "ssn") false; rule "analyst" (Some "email") false; rule "analyst" (Some "dob") false;
     rule "analyst" None true] false.

(** The README says that the second query is denied to an analyst. *)
Example readme_policy_run :
  let analyst := mkPrincipal "ann" "idp" ["analyst"] 0 in
  let select columns := mkAuthzRequest Scan ["main.users"] columns false "" in
  po_decision <$> EvaluatePolicy readme_policy analyst (select ["id"; "email"]) = Ret Deny ∧
  po_decision <$> EvaluatePolicy readme_policy analyst (select ["*"]) = Ret Allow.
Proof. vm_compute. by split. Qed.
