(* ===== verification/DuckDb.v ===== *)
(** * DuckDB as the extension sees it, and secrets

    DuckDB is not part of the repository: its values are a type class, a client
    context is a record of operations over the world, arguments of every
    definition that uses them.  On top of them, [src/secret_accessor.cpp] and the
    secret constructors of [src/secrets.cpp]. *)
From S2P Require Import Prelude CppString StdList Http UrlGuard.

(** ** Values

    [GetValue<int32_t>], [GetValue<bool>], [StringValue::Get] and
    [ListValue::GetChildren] throw on a value of another type. *)
Class DuckValues : Type := {
  DValue : Type;
  dv_IsNull : DValue → bool;
  dv_ToString : DValue → string;
  dv_int32 : DValue → exc Z;
  dv_bool : DValue → exc bool;
  dv_string : DValue → exc string;
  dv_children : DValue → exc (list DValue);
  dv_of_string : string → DValue;
  dv_of_int64 : Z → DValue;
  dv_of_int32 : Z → DValue;
  dv_of_bool : bool → DValue;
  dv_of_list : list DValue → DValue;
  dv_null_varchar : DValue;
}.

(** A value built from a string prints as that string; a number reads back. *)
Class DuckValuesLaws `{!DuckValues} : Prop := {
  dv_ToString_of_string s : dv_ToString (dv_of_string s) = s;
  dv_int32_of_int32 z : dv_int32 (dv_of_int32 z) = Ret z;
  dv_IsNull_of_int32 z : dv_IsNull (dv_of_int32 z) = false;
}.

(** ** Secrets *)
Section secrets.
Context `{!DuckValues}.

(** A key-value secret and its catalog entry; [None] is a secret of another class. *)
Record KeyValueSecret : Type := mkKeyValueSecret {
  kv_scope : list string;
  kv_type : string;
  kv_provider : string;
  kv_name : string;
  secret_map : gmap string DValue;
  redact_keys : gset string;
}.
Record SecretEntry : Type := mkSecretEntry {
  se_secret : option KeyValueSecret;
  se_persist_type : string;
  se_storage_mode : string;
}.

(** What preparing and running a statement can give. *)
Inductive ExecuteOutcome : Type := PrepareError (msg : string) | ExecuteError (msg : string) | Executed.
Inductive LogLevel : Type := LogInfo | LogWarning.

(** The operations of a client context the extension calls: settings, the secret
    manager, a query on a connection of its own ([None] is [HasError]), a prepared
    statement, the log, the HTTP client, sleeping and the wall clock. *)
Record ClientContext (W : Type) : Type := mkClientContext {
  cx_setting : string → W → option DValue;
  cx_GetSecretByName : string → W → option SecretEntry;
  cx_RegisterSecret : SecretEntry → M W unit;
  cx_Query : string → M W (option (list (list DValue)));
  cx_Execute : string → list DValue → M W ExecuteOutcome;
  cx_log : LogLevel → string → M W unit;
  cx_http : IHttpClient W;
  cx_sleep : Z → M W unit;
  cx_now_s : M W Z;
}.
#[local] Arguments cx_GetSecretByName {W} _ _ _.
#[local] Arguments cx_RegisterSecret {W} _ _.

(** ** [secret_accessor.cpp] *)
Record SecretAccessor : Type := mkSecretAccessor {
  sa_entry : option SecretEntry;
  sa_kv : option KeyValueSecret;
}.
Definition SecretAccessor_default : SecretAccessor := mkSecretAccessor None None.

Definition SecretGet (self : SecretAccessor) (field : string) : string :=
  match sa_kv self with
  | None => ""
  | Some kv => match secret_map kv !! field with Some v => dv_ToString v | None => "" end
  end.

Definition SecretHas (self : SecretAccessor) (field : string) : bool :=
  match sa_kv self with Some kv => bool_decide (is_Some (secret_map kv !! field)) | None => false end.

Section effects.
Context {W : Type}.
Implicit Types context : ClientContext W.

Definition OpenSecret context (secret_name : string) (expected_type : option string) (fn_name : string)
    : M W SecretAccessor :=
  if sempty secret_name then throw (InvalidInputException (fn_name +:+ ": secret name must be non-empty"))
  else
    entry ← gets (cx_GetSecretByName context secret_name);
    match entry with
    | None => throw (InvalidInputException (fn_name +:+ ": SECRET '" +:+ secret_name +:+ "' not found"))
    | Some entry =>
        match se_secret entry with
        | None =>
            throw (InvalidInputException (fn_name +:+ ": SECRET '" +:+ secret_name +:+ "' is not a key-value secret"))
        | Some kv =>
            match expected_type with
            | Some t =>
                if negb (seqb (kv_type kv) t) then
                  throw (InvalidInputException (fn_name +:+ ": SECRET '" +:+ secret_name +:+ "' is not of TYPE "
                    +:+ t +:+ " (got '" +:+ kv_type kv +:+ "')"))
                else mret (mkSecretAccessor (Some entry) (Some kv))
            | None => mret (mkSecretAccessor (Some entry) (Some kv))
            end
        end
    end.

Definition TryOpenSecret context (secret_name : string) (expected_type : option string) : M W SecretAccessor :=
  if sempty secret_name then mret SecretAccessor_default
  else
    entry ← gets (cx_GetSecretByName context secret_name);
    mret (match entry with
          | None => SecretAccessor_default
          | Some entry =>
              match se_secret entry with
              | None => SecretAccessor_default
              | Some kv =>
                  match expected_type with
                  | Some t =>
                      if negb (seqb (kv_type kv) t) then SecretAccessor_default
                      else mkSecretAccessor (Some entry) (Some kv)
                  | None => mkSecretAccessor (Some entry) (Some kv)
                  end
              end
          end).

(** The code dereferences [kv] and [entry]: a default accessor is undefined
    behaviour here. *)
Definition PersistTokenFields context (accessor : SecretAccessor) (access_token expires_at_iso8601 refresh_token : string)
    : M W unit :=
  kv ← lift (defined (sa_kv accessor));
  entry ← lift (defined (sa_entry accessor));
  let fields := <["expires_at" := dv_of_string expires_at_iso8601]>
                  (<["access_token" := dv_of_string access_token]> (secret_map kv)) in
  let fields := if negb (sempty refresh_token) then <["refresh_token" := dv_of_string refresh_token]> fields else fields in
  let updated := mkKeyValueSecret (kv_scope kv) (kv_type kv) (kv_provider kv) (kv_name kv) fields (redact_keys kv) in
  cx_RegisterSecret context (mkSecretEntry (Some updated) (se_persist_type entry) (se_storage_mode entry)).

(** What a successful call tells. *)
Lemma OpenSecret_Ret context secret_name t fn_name w accessor w' :
  OpenSecret context secret_name (Some t) fn_name w = (Ret accessor, w') ↔
  secret_name ≠ "" ∧ w' = w ∧ ∃ entry kv, cx_GetSecretByName context secret_name w = Some entry ∧
    se_secret entry = Some kv ∧ kv_type kv = t ∧ accessor = mkSecretAccessor (Some entry) (Some kv).
Proof.
  unfold OpenSecret. destruct (sempty secret_name) eqn:Hn.
  { apply sempty_true in Hn. split; [done|]. by intros [? _]. }
  apply sempty_false in Hn. rewrite M_bind_Ret. split.
  - intros (entry & w1 & [= <- <-] & Hk). destruct (cx_GetSecretByName context secret_name w) as [entry|]; [|done].
    destruct (se_secret entry) as [kv|] eqn:Hkv; [|done].
    destruct (seqb (kv_type kv) t) eqn:Ht; [|done]. apply seqb_true in Ht. simplify_eq/=.
    injection Hk as <- <-. split_and!; [done|done|]. by exists entry, kv.
  - intros (_ & -> & entry & kv & He & Hkv & <- & ->). eexists _, w. split; [reflexivity|].
    rewrite He, Hkv, seqb_refl. reflexivity.
Qed.

(** The secret a persist writes. *)
Definition with_tokens (kv : KeyValueSecret) (access_token expires_at refresh_token : string) : KeyValueSecret :=
  let fields := <["expires_at" := dv_of_string expires_at]>
                  (<["access_token" := dv_of_string access_token]> (secret_map kv)) in
  mkKeyValueSecret (kv_scope kv) (kv_type kv) (kv_provider kv) (kv_name kv)
    (if negb (sempty refresh_token) then <["refresh_token" := dv_of_string refresh_token]> fields else fields)
    (redact_keys kv).
End effects.

(** ** [secrets.cpp]: the constructors DuckDB calls for CREATE SECRET *)
Record CreateSecretInput : Type := mkCreateSecretInput {
  ci_scope : list string;
  ci_type : string;
  ci_provider : string;
  ci_name : string;
  ci_options : gmap string DValue;
}.

Definition kClientSensitiveFields : list string := ["client_secret"; "access_token"; "refresh_token"].

Definition CopyParams (input : CreateSecretInput) (result : gmap string DValue) (field_names : list string)
    : gmap string DValue :=
  foldl (λ m field, match ci_options input !! field with Some v => <[field := v]> m | None => m end)
    result field_names.

Definition Redact (keys : gset string) (field_names : list string) : gset string :=
  foldl (λ s field, {[field]} ∪ s) keys field_names.

Definition client_fields : list string :=
  ["issuer"; "client_id"; "client_secret"; "audience"; "scope"; "device_authorization_endpoint";
   "token_endpoint"; "redirect_listener_port"; "access_token"; "refresh_token"; "expires_at"].
Definition server_fields : list string :=
  ["issuer"; "audience"; "jwks_uri"; "policy_table"; "audit_table"; "introspection_endpoint";
   "introspect_client_id"; "introspect_client_secret"; "tenant_or_realm"].

(** The fallback for the scope, joined with spaces. *)
Definition join_scope (l : list string) : string :=
  foldl (λ joined s, (if negb (sempty joined) then joined +:+ " " else joined) +:+ s) "" l.

(** [if (it != end) Validate(it->second.ToString())] *)
Definition validate_field (check : string → exc unit) (m : gmap string DValue) (field : string) : exc unit :=
  match m !! field with Some v => check (dv_ToString v) | None => Ret tt end.

Definition CreateClientSecret (input : CreateSecretInput) : exc KeyValueSecret :=
  let m := CopyParams input ∅ client_fields in
  let m := if bool_decide (m !! "scope" = None) && negb (bool_decide (ci_scope input = []))
           then <["scope" := dv_of_string (join_scope (ci_scope input))]> m else m in
  _ ← validate_field (ValidateHttpUrl "device_authorization_endpoint") m "device_authorization_endpoint";
  _ ← validate_field (ValidateHttpUrl "token_endpoint") m "token_endpoint";
  Ret (mkKeyValueSecret (ci_scope input) (ci_type input) (ci_provider input) (ci_name input) m
         (Redact ∅ kClientSensitiveFields)).

Definition CreateServerSecret (input : CreateSecretInput) : exc KeyValueSecret :=
  let m := CopyParams input ∅ server_fields in
  _ ← validate_field (ValidateHttpUrl "jwks_uri") m "jwks_uri";
  _ ← validate_field (ValidateHttpUrl "introspection_endpoint") m "introspection_endpoint";
  _ ← validate_field ValidateTenantOrRealm m "tenant_or_realm";
  Ret (mkKeyValueSecret (ci_scope input) (ci_type input) (ci_provider input) (ci_name input) m
         (Redact ∅ ["introspect_client_secret"])).

(** ** Lemmas *)
Lemma CopyParams_lookup_aux input fields (m : gmap string DValue) k :
  CopyParams input m fields !! k =
  if bool_decide (k ∈ fields ∧ is_Some (ci_options input !! k)) then ci_options input !! k else m !! k.
Proof.
  revert m. unfold CopyParams. induction fields as [|f fields IH]; intros m; cbn [foldl].
  - rewrite bool_decide_eq_false_2; [done|]. intros [?%not_elem_of_nil _]. done.
  - rewrite IH. destruct (decide (k ∈ fields ∧ is_Some (ci_options input !! k))) as [Hin|Hin].
    + rewrite (bool_decide_eq_true_2 _ Hin). rewrite bool_decide_eq_true_2; [done|].
      destruct Hin. split; [by right|done].
    + rewrite (bool_decide_eq_false_2 _ Hin). destruct (decide (k = f)) as [->|Hne].
      * destruct (ci_options input !! f) as [v|] eqn:Hv.
        -- rewrite lookup_insert_eq. rewrite bool_decide_eq_true_2; [done|]. split; [left|eauto].
        -- rewrite bool_decide_eq_false_2; [done|]. by intros [_ []].
      * rewrite bool_decide_eq_false_2.
        -- destruct (ci_options input !! f); [|done]. by rewrite lookup_insert_ne.
        -- intros [[?|?]%elem_of_cons ?]; [done|]. by apply Hin.
Qed.

Lemma CopyParams_lookup input fields k :
  CopyParams input ∅ fields !! k = if bool_decide (k ∈ fields) then ci_options input !! k else None.
Proof.
  rewrite CopyParams_lookup_aux, lookup_empty.
  destruct (bool_decide_reflect (k ∈ fields)) as [Hin|Hin].
  - destruct (ci_options input !! k) eqn:Hk; [by rewrite bool_decide_eq_true_2 by eauto|].
    rewrite bool_decide_eq_false_2; [done|]. by intros [_ []].
  - rewrite bool_decide_eq_false_2; [done|]. by intros [? _].
Qed.

Lemma validate_field_Ret check m field :
  validate_field check m field = Ret tt ↔ ∀ v, m !! field = Some v → check (dv_ToString v) = Ret tt.
Proof. unfold validate_field. destruct (m !! field); naive_solver. Qed.

(** Claim C38.  CREATE SECRET for a server lets nothing unvalidated in: the secret
    holds exactly the options that are server fields, its two endpoints and a URL
    used as tenant are acceptable URLs, and the client secret is redacted. *)
Theorem CreateServerSecret_sound input kv :
  CreateServerSecret input = Ret kv →
  (∀ k, secret_map kv !! k = if bool_decide (k ∈ server_fields) then ci_options input !! k else None) ∧
  (∀ k v, k ∈ ["jwks_uri"; "introspection_endpoint"] → secret_map kv !! k = Some v → acceptable_url (dv_ToString v)) ∧
  (∀ v, secret_map kv !! "tenant_or_realm" = Some v →
     starts_with "http://" (dv_ToString v) || starts_with "https://" (dv_ToString v) = true →
     acceptable_url (dv_ToString v)) ∧
  redact_keys kv = {["introspect_client_secret"]}.
Proof.
  unfold CreateServerSecret. generalize (CopyParams_lookup input server_fields).
  generalize (CopyParams input ∅ server_fields). intros m Hm ([] & Hj & ([] & Hi & ([] & Ht & [= <-])%exc_bind_Ret)%exc_bind_Ret)%exc_bind_Ret.
  cbn [secret_map redact_keys]. split_and!.
  - exact Hm.
  - intros k v Hk Hv. rewrite !elem_of_cons in Hk.
    destruct Hk as [-> |[-> |?%not_elem_of_nil]]; [| |done].
    + exact (ValidateHttpUrl_accepts _ _ (proj1 (validate_field_Ret _ _ _) Hj v Hv)).
    + exact (ValidateHttpUrl_accepts _ _ (proj1 (validate_field_Ret _ _ _) Hi v Hv)).
  - intros v Hv Hurl. apply validate_field_Ret with (v := v) in Ht; [|done]. revert Ht.
    unfold ValidateTenantOrRealm. destruct (sempty (dv_ToString v)) eqn:He.
    { apply sempty_true in He. intros _. by left. }
    destruct (_ <? _); [done|]. destruct (existsb _ _); [done|]. rewrite Hurl. apply ValidateHttpUrl_accepts.
  - unfold Redact. simpl. set_solver.
Qed.
End secrets.
Arguments mkClientContext {_ W} _ _ _ _ _ _ _ _ _.
Arguments cx_setting {_ W} _ _ _.
Arguments cx_GetSecretByName {_ W} _ _ _.
Arguments cx_RegisterSecret {_ W} _ _.
Arguments cx_Query {_ W} _ _.
Arguments cx_Execute {_ W} _ _ _.
Arguments cx_log {_ W} _ _ _.
Arguments cx_http {_ W} _.
Arguments cx_sleep {_ W} _ _.
Arguments cx_now_s {_ W} _.

(** ** A concrete value type, for the evaluations *)
#[warnings="-register-all"]
Inductive dval : Type := DNull | DInt (z : Z) | DBool (b : bool) | DStr (s : string) | DList (l : list dval).
Definition dval_ToString (v : dval) : string :=
  match v with
  | DNull => "NULL"
  | DInt z => show_Z z
  | DBool b => if b then "true" else "false"
  | DStr s => s
  | DList _ => "[...]"
  end.
Definition toy_duck : DuckValues := {|
  DValue := dval;
  dv_IsNull v := match v with DNull => true | _ => false end;
  dv_ToString := dval_ToString;
  dv_int32 v := match v with DInt z => Ret z | _ => Throw StdException end;
  dv_bool v := match v with DBool b => Ret b | _ => Throw StdException end;
  dv_string v := match v with DStr s => Ret s | _ => Throw StdException end;
  dv_children v := match v with DList l => Ret l | _ => Throw StdException end;
  dv_of_string := DStr;
  dv_of_int64 := DInt;
  dv_of_int32 := DInt;
  dv_of_bool := DBool;
  dv_of_list := DList;
  dv_null_varchar := DNull;
|}.

Lemma toy_duck_laws : @DuckValuesLaws toy_duck.
Proof. by split. Qed.

Definition toy_server_input : @CreateSecretInput toy_duck :=
  @mkCreateSecretInput toy_duck [] "quack_oauth_server" "config" "srv"
    {["issuer" := DStr "https://idp"; "jwks_uri" := DStr "https://idp/jwks"; "tenant_or_realm" := DStr "contoso"]}.

Definition is_ret {A} (m : exc A) : bool := match m with Ret _ => true | _ => false end.

Lemma CreateServerSecret_sound_witness :
  ∃ kv, @CreateServerSecret toy_duck toy_server_input = Ret kv ∧ acceptable_url "https://idp/jwks" ∧
    redact_keys kv = {["introspect_client_secret"]}.
Proof.
  assert (is_ret (@CreateServerSecret toy_duck toy_server_input) = true) as Hret by (vm_compute; reflexivity).
  destruct (@CreateServerSecret toy_duck toy_server_input) as [kv|e|] eqn:Hkv; [|discriminate Hret|discriminate Hret].
  destruct (@CreateServerSecret_sound toy_duck toy_server_input kv Hkv) as (Hk & Hu & _ & Hr).
  exists kv. split; [reflexivity|]. split; [|exact Hr].
  apply (Hu "jwks_uri" (DStr "https://idp/jwks")); [left|]. rewrite Hk. vm_compute. reflexivity.
Defined.
