(* ===== verification/TokenEndpoint.v ===== *)
(** * Token and device endpoints ([src/token_endpoint.cpp], [src/device_code.cpp])

    The requests of the client credentials, refresh token and device code grants,
    and the parsers of their answers.  The file's own copies of [UrlEncode] and
    [AsString] are the ones of [Json]. *)
From S2P Require Import Prelude CppString External StdList Http Json Introspect Toy.

(** ** Answers *)
Record TokenResponse : Type := mkTokenResponse {
  tr_access_token : string;
  tr_refresh_token : string;
  tr_token_type : string;
  tr_scope : string;
  tr_expires_in : Z;
}.

Record DeviceAuthorizationResponse : Type := mkDeviceAuthorizationResponse {
  da_device_code : string;
  da_user_code : string;
  da_verification_uri : string;
  da_verification_uri_complete : string;
  da_expires_in : Z;
  da_interval : Z;
}.

Inductive DevicePollOutcome : Type := Pending | SlowDown | Success | Denied | Expired | PollError.
Record DevicePollResult : Type := mkDevicePollResult {
  dp_outcome : DevicePollOutcome;
  dp_tokens : option TokenResponse;
}.
#[export] Instance DevicePollOutcome_eq_dec : EqDecision DevicePollOutcome.
Proof. solve_decision. Defined.

Section parsers.
Context `{!PicoJson}.

Definition AsInt (obj : gmap string json) (key : string) (fallback : Z) : Z :=
  match obj !! key with
  | None => fallback
  | Some v => match pj_view v with JInt64 z => z | JDouble z => z | _ => fallback end
  end.

Definition ParseTokenResponse (text : string) : option TokenResponse :=
  obj ← json_object text;
  at_ ← AsString obj "access_token";
  if sempty at_ then None
  else Some (mkTokenResponse at_ (default "" (AsString obj "refresh_token")) (default "" (AsString obj "token_type"))
               (default "" (AsString obj "scope")) (AsInt obj "expires_in" 0)).

Definition ParseDeviceAuthorizationResponse (text : string) : option DeviceAuthorizationResponse :=
  obj ← json_object text;
  device_code ← AsString obj "device_code";
  user_code ← AsString obj "user_code";
  verification_uri ← AsString obj "verification_uri";
  Some (mkDeviceAuthorizationResponse device_code user_code verification_uri
          (default "" (AsString obj "verification_uri_complete")) (AsInt obj "expires_in" 0) (AsInt obj "interval" 5)).

(** The error code of a body; here an empty body reaches the JSON parser. *)
Definition poll_error_code (text : string) : option string :=
  root ← pj_parse text;
  match pj_view root with JObject obj => AsString obj "error" | _ => None end.

Definition ParseDevicePollResponse (http_status : Z) (text : string) : DevicePollResult :=
  if http_status =? 200 then
    match ParseTokenResponse text with
    | Some t => mkDevicePollResult Success (Some t)
    | None => mkDevicePollResult PollError None
    end
  else
    mkDevicePollResult
      (match poll_error_code text with
       | None => PollError
       | Some code =>
           if seqb code "authorization_pending" then Pending
           else if seqb code "slow_down" then SlowDown
           else if seqb code "access_denied" then Denied
           else if seqb code "expired_token" then Expired
           else PollError
       end) None.
End parsers.

(** ** Requests *)
Definition form_param (name value : string) : string := if sempty value then "" else "&" +:+ name +:+ "=" +:+ UrlEncode value.

Definition client_credentials_request (token_endpoint client_id client_secret scope : string) : PostRequest :=
  mkPostRequest token_endpoint ("grant_type=client_credentials" +:+ form_param "scope" scope)
    form_urlencoded client_id client_secret.

(** Basic authentication only with a client secret. *)
Definition basic_user (client_id client_secret : string) : string := if sempty client_secret then "" else client_id.

Definition refresh_token_request (token_endpoint client_id client_secret refresh_token scope : string) : PostRequest :=
  mkPostRequest token_endpoint
    (("grant_type=refresh_token&refresh_token=" +:+ UrlEncode refresh_token) +:+ form_param "scope" scope
       +:+ form_param "client_id" client_id)
    form_urlencoded (basic_user client_id client_secret) client_secret.

Definition device_authorization_request (endpoint client_id client_secret scope : string) : PostRequest :=
  mkPostRequest endpoint (("client_id=" +:+ UrlEncode client_id) +:+ form_param "scope" scope)
    form_urlencoded (basic_user client_id client_secret) client_secret.

Definition device_poll_request (token_endpoint client_id client_secret device_code : string) : PostRequest :=
  mkPostRequest token_endpoint
    ((("grant_type=urn:ietf:params:oauth:grant-type:device_code" +:+ "&device_code=") +:+ UrlEncode device_code)
       +:+ "&client_id=" +:+ UrlEncode client_id)
    form_urlencoded (basic_user client_id client_secret) client_secret.

Section clients.
Context `{!PicoJson} {W : Type}.
Implicit Types http : IHttpClient W.

(** [!resp.has_value() || resp->status_code != 200] *)
Definition ok_body {A} (parse : string → option A) (resp : option Response) : option A :=
  match resp with
  | Some r => if negb (status_code r =? 200) then None else parse (body r)
  | None => None
  end.

Definition AcquireTokenClientCredentials http (token_endpoint client_id client_secret scope : string)
    : M W (option TokenResponse) :=
  if sempty token_endpoint || sempty client_id then mret None
  else
    resp ← Post http (client_credentials_request token_endpoint client_id client_secret scope);
    mret (ok_body ParseTokenResponse resp).

Definition AcquireTokenRefreshToken http (token_endpoint client_id client_secret refresh_token scope : string)
    : M W (option TokenResponse) :=
  if sempty token_endpoint || sempty refresh_token then mret None
  else
    resp ← Post http (refresh_token_request token_endpoint client_id client_secret refresh_token scope);
    mret (ok_body ParseTokenResponse resp).

Definition RequestDeviceAuthorization http (device_authorization_endpoint client_id client_secret scope : string)
    : M W (option DeviceAuthorizationResponse) :=
  if sempty device_authorization_endpoint || sempty client_id then mret None
  else
    resp ← Post http (device_authorization_request device_authorization_endpoint client_id client_secret scope);
    mret (ok_body ParseDeviceAuthorizationResponse resp).

Definition PollDeviceTokenEndpoint http (token_endpoint client_id client_secret device_code : string)
    : M W DevicePollResult :=
  if sempty token_endpoint || sempty client_id || sempty device_code then mret (mkDevicePollResult PollError None)
  else
    resp ← Post http (device_poll_request token_endpoint client_id client_secret device_code);
    mret (match resp with
          | None => mkDevicePollResult PollError None
          | Some r => ParseDevicePollResponse (status_code r) (body r)
          end).
End clients.

(** ** How a server reads a form body *)
Fixpoint split_on (c : ascii) (l : list ascii) : list (list ascii) :=
  match l with
  | [] => [[]]
  | d :: l =>
      if is_char c d then [] :: split_on c l
      else match split_on c l with seg :: r => (d :: seg) :: r | [] => [[d]] end
  end.
Definition form_field (seg : list ascii) : string * string :=
  match find_if (is_char "=") seg with
  | None => (of_chars (url_decode seg), "")
  | Some n => (of_chars (url_decode (take n seg)), of_chars (url_decode (drop (S n) seg)))
  end.
Definition form_fields (body : string) : list (string * string) := form_field <$> split_on "&" (chars body).

(** A field the code leaves out when its value is empty. *)
Definition optional_field (name value : string) : list (string * string) := if sempty value then [] else [(name, value)].

(** Characters that neither separate nor escape. *)
Definition plain (l : list ascii) : Prop := Forall (λ c, c ∉ ["&"; "="; "%"]%char) l.

Lemma split_on_nonempty c l : split_on c l ≠ [].
Proof. destruct l as [|d l]; simpl; [done|]. destruct (is_char c d); [done|]. by destruct (split_on c l). Qed.

Lemma split_on_app c l l' : split_on c (l ++ c :: l') = split_on c l ++ split_on c l'.
Proof.
  induction l as [|d l IH]; simpl.
  - by rewrite (proj2 (is_char_true c c)).
  - rewrite IH. destruct (is_char c d); [done|]. pose proof (split_on_nonempty c l).
    by destruct (split_on c l).
Qed.

Lemma split_on_none c l : c ∉ l → split_on c l = [l].
Proof.
  induction l as [|d l IH]; intros Hc; simpl; [done|]. apply not_elem_of_cons in Hc as [Hd Hl].
  destruct (is_char c d) eqn:E; [by apply is_char_true in E|]. by rewrite IH.
Qed.

Lemma url_decode_plain l : plain l → url_decode l = l.
Proof.
  induction 1 as [|c l Hc Hl IH]; [done|]. rewrite !not_elem_of_cons in Hc. destruct Hc as (_ & _ & Hp & _).
  assert (url_decode (c :: l) = c :: url_decode l) as ->; [|by rewrite IH].
  clear -Hp. destruct c as [[] [] [] [] [] [] [] []]; try reflexivity. done.
Qed.

Lemma UrlEncode_no_separator s c : c ∈ ["&"; "="]%char → c ∉ chars (UrlEncode s).
Proof.
  intros Hc Hin. destruct (UrlEncode_roundtrip s) as [_ Ha]. rewrite forallb_elem in Ha. specialize (Ha c Hin).
  rewrite !elem_of_cons in Hc. destruct Hc as [-> |[-> |?%elem_of_nil]]; done.
Qed.

Lemma form_field_app k v : plain k → "="%char ∉ k → form_field (k ++ "="%char :: v) = (of_chars k, of_chars (url_decode v)).
Proof.
  intros Hk Hne. unfold form_field.
  assert (find_if (is_char "=") (k ++ "="%char :: v) = Some (length k)) as ->.
  { clear Hk. induction k as [|c k IH]; [done|]. apply not_elem_of_cons in Hne as [Hc Hk]. simpl.
    destruct (is_char "=" c) eqn:E; [by apply is_char_true in E|]. by rewrite IH. }
  rewrite take_app_length, url_decode_plain by done. do 3 f_equal.
  replace (S (length k)) with (length k + 1)%nat by lia. by rewrite <-drop_drop, drop_app_length.
Qed.

(** ** Reading the requests back *)
Lemma form_fields_app s t : form_fields (s +:+ "&" +:+ t) = form_fields s ++ form_fields t.
Proof.
  unfold form_fields. rewrite !chars_app. change (chars "&") with ["&"%char]. simpl app.
  by rewrite split_on_app, fmap_app.
Qed.

Lemma form_fields_param name value :
  plain (chars name) → form_fields (name +:+ "=" +:+ UrlEncode value) = [(name, value)].
Proof.
  intros Hn. assert ("="%char ∉ chars name ∧ "&"%char ∉ chars name) as [He Ha].
  { unfold plain in Hn. rewrite Forall_forall in Hn. split; intros Hin; apply (Hn _ Hin); set_solver. }
  unfold form_fields. rewrite !chars_app. change (chars "=") with ["="%char]. simpl app.
  rewrite split_on_none.
  - simpl. rewrite form_field_app by done. rewrite of_chars_chars. by rewrite (proj1 (UrlEncode_roundtrip value)).
  - rewrite elem_of_app, elem_of_cons. intros [?|[?|?]]; [done|done|].
    eapply UrlEncode_no_separator; [|eassumption]. left.
Qed.

Lemma form_fields_literal name value :
  plain (chars name) → plain (chars value) → form_fields (name +:+ "=" +:+ value) = [(name, value)].
Proof.
  intros Hn Hv. assert ("="%char ∉ chars name ∧ "&"%char ∉ chars name ∧ "&"%char ∉ chars value) as (He & Ha & Ha').
  { unfold plain in *. rewrite !Forall_forall in *. split_and!; intros Hin;
      first [apply (Hn _ Hin) | apply (Hv _ Hin)]; set_solver. }
  unfold form_fields. rewrite !chars_app. change (chars "=") with ["="%char]. simpl app.
  rewrite split_on_none by (rewrite elem_of_app, elem_of_cons; naive_solver).
  simpl. rewrite form_field_app by done. by rewrite url_decode_plain, !of_chars_chars.
Qed.

Lemma form_fields_optional s name value :
  plain (chars name) → form_fields (s +:+ form_param name value) = form_fields s ++ optional_field name value.
Proof.
  intros Hn. unfold form_param, optional_field. destruct (sempty value).
  - by rewrite sapp_empty_r, app_nil_r.
  - by rewrite form_fields_app, form_fields_param.
Qed.

Ltac plain_literal := repeat (constructor; [by rewrite !not_elem_of_cons; split_and!; try done; apply not_elem_of_nil|]); constructor.

(** Claim C30.  What an identity provider reads from the request bodies is what was
    meant, for every byte string in every field: the grant type, then exactly the
    fields of the secret with their values, a scope or client id only when it is
      not empty; no value can add or change another field.  The client secret is
    never in the URL or the body: every request goes to the endpoint as it is
    written in the secret, and carries the client secret as the password of basic
    authentication, with the client id as its user (client credentials always, the
    others when there is a client secret). *)
Theorem token_requests_parse endpoint client_id client_secret token scope :
  form_fields (pr_body (client_credentials_request endpoint client_id client_secret scope)) =
    ("grant_type", "client_credentials") :: optional_field "scope" scope ∧
  form_fields (pr_body (refresh_token_request endpoint client_id client_secret token scope)) =
    ("grant_type", "refresh_token") :: ("refresh_token", token) :: optional_field "scope" scope
      ++ optional_field "client_id" client_id ∧
  form_fields (pr_body (device_authorization_request endpoint client_id client_secret scope)) =
    ("client_id", client_id) :: optional_field "scope" scope ∧
  form_fields (pr_body (device_poll_request endpoint client_id client_secret token)) =
    [("grant_type", "urn:ietf:params:oauth:grant-type:device_code"); ("device_code", token); ("client_id", client_id)] ∧
  (let req := client_credentials_request endpoint client_id client_secret scope in
   pr_url req = endpoint ∧ pr_content_type req = "application/x-www-form-urlencoded" ∧
   pr_basic_user req = client_id ∧ pr_basic_pass req = client_secret) ∧
  Forall (λ req, pr_url req = endpoint ∧ pr_content_type req = "application/x-www-form-urlencoded" ∧
                 pr_basic_pass req = client_secret ∧
                 pr_basic_user req = if sempty client_secret then "" else client_id)
    [refresh_token_request endpoint client_id client_secret token scope;
     device_authorization_request endpoint client_id client_secret scope;
     device_poll_request endpoint client_id client_secret token].
Proof.
  cbn [pr_body client_credentials_request refresh_token_request device_authorization_request device_poll_request].
  split_and!; [| | | |unfold basic_user; by repeat constructor..].
  - rewrite form_fields_optional by plain_literal. reflexivity.
  - rewrite sapp_assoc, !form_fields_optional by plain_literal.
    change ("grant_type=refresh_token&refresh_token=" +:+ UrlEncode token)
      with (("grant_type" +:+ "=" +:+ "refresh_token") +:+ "&" +:+ ("refresh_token" +:+ "=" +:+ UrlEncode token)).
    rewrite form_fields_app, form_fields_literal, form_fields_param by plain_literal. reflexivity.
  - rewrite form_fields_optional by plain_literal.
    change ("client_id=" +:+ UrlEncode client_id) with ("client_id" +:+ "=" +:+ UrlEncode client_id).
    rewrite form_fields_param by plain_literal. reflexivity.
  - change (_ +:+ "&client_id=" +:+ UrlEncode client_id) with
      (((("grant_type" +:+ "=" +:+ "urn:ietf:params:oauth:grant-type:device_code") +:+ "&device_code=") +:+ UrlEncode token)
         +:+ "&" +:+ ("client_id" +:+ "=" +:+ UrlEncode client_id)).
    rewrite form_fields_app, form_fields_param by plain_literal. rewrite <-sapp_assoc.
    change ("&device_code=" +:+ UrlEncode token) with ("&" +:+ ("device_code" +:+ "=" +:+ UrlEncode token)).
    rewrite form_fields_app, form_fields_literal, form_fields_param by plain_literal. reflexivity.
Qed.

(** ** Evaluations *)
Example token_answers :
  (option_map tr_access_token (@ParseTokenResponse toy_json "token"), @ParseTokenResponse toy_json "pending",
   dp_outcome (@ParseDevicePollResponse toy_json 400 "slow"), dp_outcome (@ParseDevicePollResponse toy_json 400 ""),
   dp_outcome (@ParseDevicePollResponse toy_json 200 "denied"), dp_outcome (@ParseDevicePollResponse toy_json 500 "denied")) =
  (Some "tok", None, SlowDown, PollError, PollError, Denied).
Proof. vm_compute. reflexivity. Qed.
