(* ===== verification/Acquire.v ===== *)
(** * Token acquisition: the client side
    ([src/acquire_flow.cpp], [src/acquire_function.cpp], [src/login_function.cpp],
    [src/refresh_function.cpp], [src/device_login_function.cpp],
    [src/logout_function.cpp])

    The ladder that picks a flow from the fields of a secret, the three flows,
    which talk to the identity provider and write the tokens back on the secret,
    and logout. *)
From S2P Require Import Prelude CppString StdList Http External UrlGuard DuckDb Clock TokenEndpoint Json Introspect Toy.

(** ** [acquire_flow.cpp] *)
Inductive AcquireFlow : Type := UseCached | RefreshToken | ClientCredentials | DeviceCode | UnconfiguredFlow.
#[export] Instance AcquireFlow_eq_dec : EqDecision AcquireFlow.
Proof. solve_decision. Defined.

Definition AcquireFlowName (f : AcquireFlow) : string :=
  match f with
  | UseCached => "use_cached"
  | RefreshToken => "refresh_token"
  | ClientCredentials => "client_credentials"
  | DeviceCode => "device_code"
  | UnconfiguredFlow => "unconfigured"
  end.

Record ClientSecretView : Type := mkClientSecretView {
  cv_access_token : string;
  cv_expires_at_unix_s : Z;
  cv_refresh_token : string;
  cv_client_id : string;
  cv_client_secret : string;
  cv_token_endpoint : string;
  cv_device_authorization_endpoint : string;
  cv_scope : string;
}.

Definition AccessTokenIsFresh (v : ClientSecretView) (now_s renew_skew_s : Z) : bool :=
  if sempty (cv_access_token v) then false
  else if cv_expires_at_unix_s v <=? 0 then false
  else now_s + renew_skew_s <? cv_expires_at_unix_s v.
Definition CanRefresh (v : ClientSecretView) : bool :=
  negb (sempty (cv_refresh_token v)) && negb (sempty (cv_token_endpoint v)) && negb (sempty (cv_client_id v)).
Definition CanClientCredentials (v : ClientSecretView) : bool :=
  negb (sempty (cv_client_id v)) && negb (sempty (cv_client_secret v)) && negb (sempty (cv_token_endpoint v)).
Definition CanDeviceCode (v : ClientSecretView) : bool :=
  negb (sempty (cv_client_id v)) && negb (sempty (cv_token_endpoint v))
  && negb (sempty (cv_device_authorization_endpoint v)).

Record AcquireDecision : Type := mkAcquireDecision { ad_flow : AcquireFlow; ad_reason : string }.

Definition DecideAcquireFlow (v : ClientSecretView) (now_s renew_skew_s : Z) : AcquireDecision :=
  if AccessTokenIsFresh v now_s renew_skew_s then mkAcquireDecision UseCached "fresh access_token on SECRET"
  else if CanRefresh v then mkAcquireDecision RefreshToken "refresh_token on SECRET"
  else if CanClientCredentials v then mkAcquireDecision ClientCredentials "client_id + client_secret on SECRET"
  else if CanDeviceCode v then
    mkAcquireDecision DeviceCode "client_id + device_authorization_endpoint on SECRET"
  else mkAcquireDecision UnconfiguredFlow ("SECRET has no usable credentials: need either a fresh access_token, " +:+
         "or refresh_token + token_endpoint + client_id, " +:+
         "or client_id + client_secret + token_endpoint, " +:+
         "or client_id + token_endpoint + device_authorization_endpoint").

(** The monotonic clock, in nanoseconds, and the standard error stream. *)
Record DeviceEnv (W : Type) : Type := mkDeviceEnv {
  de_steady_now : M W Z;
  de_stderr : string → M W unit;
}.
Arguments mkDeviceEnv {W} _ _.
Arguments de_steady_now {W} _.
Arguments de_stderr {W} _ _.

Section acquire.
Context `{!PicoJson, !DuckValues} {W : Type} (context : ClientContext W) (env : DeviceEnv W).

(** [RetryingHttpClient http(base_http)]: one retry after a second. *)
Definition flow_http : IHttpClient W := RetryingHttpClient (cx_http context) 1 1000 (Some (cx_sleep context)).

(** The expiry of a token received now, and its text. *)
Definition expiry_text (now expires_in : Z) : exc string := t ← i64_ok (now + expires_in); FormatUtcIso8601 t.

(** ** [login_function.cpp] *)
Definition DoLogin (secret_name : string) : M W string :=
  accessor ← OpenSecret context secret_name (Some "quack_oauth") "quack_oauth_login";
  let token_endpoint := SecretGet accessor "token_endpoint" in
  let client_id := SecretGet accessor "client_id" in
  let client_secret := SecretGet accessor "client_secret" in
  let scope := SecretGet accessor "scope" in
  if sempty token_endpoint then
    throw (InvalidInputException ("quack_oauth_login: SECRET '" +:+ secret_name +:+ "' is missing `token_endpoint`"))
  else if sempty client_id || sempty client_secret then
    throw (InvalidInputException ("quack_oauth_login: SECRET '" +:+ secret_name +:+
      "' is missing client_id or client_secret (S-12 supports client_credentials only)"))
  else
    tok ← AcquireTokenClientCredentials flow_http token_endpoint client_id client_secret scope;
    match tok with
    | None => throw (IOException ("quack_oauth_login: token endpoint '" +:+ token_endpoint +:+
                "' did not return a valid response"))
    | Some tok =>
        now ← cx_now_s context;
        expires_at_iso ← lift (expiry_text now (tr_expires_in tok));
        _ ← PersistTokenFields context accessor (tr_access_token tok) expires_at_iso "";
        mret expires_at_iso
    end.

(** ** [refresh_function.cpp] *)
Definition DoRefresh (secret_name : string) : M W string :=
  accessor ← OpenSecret context secret_name (Some "quack_oauth") "quack_oauth_refresh";
  let token_endpoint := SecretGet accessor "token_endpoint" in
  let client_id := SecretGet accessor "client_id" in
  let client_secret := SecretGet accessor "client_secret" in
  let refresh_token := SecretGet accessor "refresh_token" in
  let scope := SecretGet accessor "scope" in
  if sempty token_endpoint then
    throw (InvalidInputException ("quack_oauth_refresh: SECRET '" +:+ secret_name +:+ "' is missing `token_endpoint`"))
  else if sempty refresh_token then
    throw (InvalidInputException ("quack_oauth_refresh: SECRET '" +:+ secret_name +:+
      "' has no `refresh_token` -- run quack_oauth_login first or set one explicitly"))
  else
    tok ← AcquireTokenRefreshToken flow_http token_endpoint client_id client_secret refresh_token scope;
    match tok with
    | None => throw (IOException ("quack_oauth_refresh: token endpoint '" +:+ token_endpoint +:+
                "' did not return a valid response (refresh_token may be expired or revoked)"))
    | Some tok =>
        now ← cx_now_s context;
        expires_at_iso ← lift (expiry_text now (tr_expires_in tok));
        _ ← PersistTokenFields context accessor (tr_access_token tok) expires_at_iso (tr_refresh_token tok);
        mret expires_at_iso
    end.

(** ** [device_login_function.cpp] *)
Definition EmitUserNotice (auth : DeviceAuthorizationResponse) : M W unit :=
  de_stderr env ("[quack_oauth_device_login] visit " +:+
    (if sempty (da_verification_uri_complete auth) then da_verification_uri auth
     else da_verification_uri_complete auth) +:+ " and enter code: " +:+ da_user_code auth).

(** The polling loop.  [Ret (Some r)] is the successful poll that ends it,
    [Ret None] the deadline.  The fuel bounds the number of turns. *)
Fixpoint poll_loop (fuel : nat) (token_endpoint client_id client_secret device_code : string)
    (deadline interval : Z) : M W (option DevicePollResult) :=
  match fuel with
  | O => lift Stuck
  | S fuel =>
      now ← de_steady_now env;
      if negb (now <? deadline) then mret None
      else
        _ ← cx_sleep context (interval * 1000);
        poll ← PollDeviceTokenEndpoint flow_http token_endpoint client_id client_secret device_code;
        match dp_outcome poll with
        | Pending => poll_loop fuel token_endpoint client_id client_secret device_code deadline interval
        | SlowDown =>
            interval ← lift (i64_ok (interval + 5));
            poll_loop fuel token_endpoint client_id client_secret device_code deadline interval
        | Success => mret (Some poll)
        | Denied => throw (IOException "quack_oauth_device_login: user denied the authorization request")
        | Expired => throw (IOException ("quack_oauth_device_login: device_code expired before the user " +:+
                       "completed the authorization flow"))
        | PollError => throw (IOException ("quack_oauth_device_login: token endpoint returned an " +:+
                       "unexpected error while polling"))
        end
  end.

Definition poll_interval (auth : DeviceAuthorizationResponse) : Z :=
  if 0 <? da_interval auth then da_interval auth else 5.
Definition poll_lifetime (auth : DeviceAuthorizationResponse) : Z :=
  if 0 <? da_expires_in auth then da_expires_in auth else 600.
(** [start + std::chrono::seconds(lifetime)], in nanoseconds. *)
Definition poll_deadline (start lifetime : Z) : exc Z :=
  ns ← i64_ok (lifetime * 1000000000); i64_ok (start + ns).
(** A turn lasts a second at least. *)
Definition poll_fuel (lifetime : Z) : nat := S (Z.to_nat lifetime).

Definition DoDeviceLoginImpl (secret_name : string) : M W string :=
  accessor ← OpenSecret context secret_name (Some "quack_oauth") "quack_oauth_device_login";
  let device_endpoint := SecretGet accessor "device_authorization_endpoint" in
  let token_endpoint := SecretGet accessor "token_endpoint" in
  let client_id := SecretGet accessor "client_id" in
  let client_secret := SecretGet accessor "client_secret" in
  let scope := SecretGet accessor "scope" in
  if sempty device_endpoint then
    throw (InvalidInputException ("quack_oauth_device_login: SECRET '" +:+ secret_name +:+
      "' is missing `device_authorization_endpoint`"))
  else if sempty token_endpoint || sempty client_id then
    throw (InvalidInputException ("quack_oauth_device_login: SECRET '" +:+ secret_name +:+
      "' is missing `token_endpoint` or `client_id`"))
  else
    auth ← RequestDeviceAuthorization flow_http device_endpoint client_id client_secret scope;
    match auth with
    | None => throw (IOException ("quack_oauth_device_login: device_authorization_endpoint '" +:+ device_endpoint +:+
                "' did not return a valid response"))
    | Some auth =>
        _ ← EmitUserNotice auth;
        start ← de_steady_now env;
        deadline ← lift (poll_deadline start (poll_lifetime auth));
        poll ← poll_loop (poll_fuel (poll_lifetime auth)) token_endpoint client_id client_secret
                 (da_device_code auth) deadline (poll_interval auth);
        match poll with
        | None => throw (IOException "quack_oauth_device_login: polling timed out before user authorized")
        | Some poll =>
            match dp_tokens poll with
            | None => throw (IOException ("quack_oauth_device_login: token endpoint returned success " +:+
                        "but no access_token"))
            | Some tok =>
                now ← cx_now_s context;
                expires_at_iso ← lift (expiry_text now (tr_expires_in tok));
                _ ← PersistTokenFields context accessor (tr_access_token tok) expires_at_iso (tr_refresh_token tok);
                mret expires_at_iso
            end
        end
    end.

(** ** [logout_function.cpp] *)
Definition DoLogout (secret_name : string) : M W bool :=
  accessor ← OpenSecret context secret_name (Some "quack_oauth") "quack_oauth_logout";
  kv ← lift (defined (sa_kv accessor));
  entry ← lift (defined (sa_entry accessor));
  let fields := delete "expires_at" (delete "refresh_token" (delete "access_token" (secret_map kv))) in
  let updated := mkKeyValueSecret (kv_scope kv) (kv_type kv) (kv_provider kv) (kv_name kv) fields (redact_keys kv) in
  _ ← cx_RegisterSecret context (mkSecretEntry (Some updated) (se_persist_type entry) (se_storage_mode entry));
  mret true.

(** ** [acquire_function.cpp] *)
Definition client_secret_view (accessor : SecretAccessor) : ClientSecretView :=
  mkClientSecretView (SecretGet accessor "access_token")
    (ParseIso8601ToUnixSeconds (SecretGet accessor "expires_at"))
    (SecretGet accessor "refresh_token") (SecretGet accessor "client_id") (SecretGet accessor "client_secret")
    (SecretGet accessor "token_endpoint") (SecretGet accessor "device_authorization_endpoint")
    (SecretGet accessor "scope").

Definition LoadClientSecretView (secret_name : string) : M W ClientSecretView :=
  accessor ← OpenSecret context secret_name (Some "quack_oauth") "quack_oauth_acquire";
  mret (client_secret_view accessor).

Definition ReadRenewSkew : M W Z :=
  v ← gets (cx_setting context "quack_oauth_renew_skew_s");
  match v with
  | None => mret 60
  | Some v => if dv_IsNull v then mret 60 else lift (dv_int32 v)
  end.

Definition RunFlowAndReadToken (flow : string → M W string) (flow_name secret_name : string) : M W string :=
  _ ← flow secret_name;
  v ← LoadClientSecretView secret_name;
  if sempty (cv_access_token v) then
    throw (IOException ("quack_oauth_acquire: " +:+ flow_name +:+
      " completed but no access_token was persisted on SECRET '" +:+ secret_name +:+ "'"))
  else mret (cv_access_token v).

Definition DoAcquire (secret_name : string) : M W string :=
  if sempty secret_name then throw (InvalidInputException "quack_oauth_acquire: secret name must be non-empty")
  else
    view ← LoadClientSecretView secret_name;
    now ← cx_now_s context;
    skew ← ReadRenewSkew;
    let decision := DecideAcquireFlow view now skew in
    match ad_flow decision with
    | UseCached => mret (cv_access_token view)
    | RefreshToken => RunFlowAndReadToken DoRefresh "quack_oauth_refresh" secret_name
    | ClientCredentials => RunFlowAndReadToken DoLogin "quack_oauth_login" secret_name
    | DeviceCode => RunFlowAndReadToken DoDeviceLoginImpl "quack_oauth_device_login" secret_name
    | UnconfiguredFlow =>
        throw (InvalidInputException ("quack_oauth_acquire: SECRET '" +:+ secret_name +:+ "' is " +:+
          AcquireFlowName (ad_flow decision) +:+ ". " +:+ ad_reason decision))
    end.
End acquire.

(** ** Liveness of the polling loop

    What is asked of the machine: the monotonic clock [clk] (nanoseconds) never
    goes back and advances by the time slept, requests return; [hits] counts the
    requests that reach the network. *)
Section liveness.
Context `{!PicoJson, !DuckValues} {W : Type} (context : ClientContext W) (env : DeviceEnv W).
Context (clk hits : W → Z).

Record poll_env_ok : Prop := {
  pe_steady w : ∃ v w', de_steady_now env w = (Ret v, w') ∧ clk w ≤ v ≤ clk w' ∧ hits w' = hits w;
  pe_sleep ms w : 0 ≤ ms → ∃ w', cx_sleep context ms w = (Ret tt, w') ∧
    clk w + ms * 1000000 ≤ clk w' ∧ hits w' = hits w;
  pe_post req w : ∃ r w', Post (cx_http context) req w = (Ret r, w') ∧ clk w ≤ clk w' ∧ hits w' ≤ hits w + 1;
}.

Context (Hok : poll_env_ok).

(** One turn: one request, and at most one more when it was transient. *)
Lemma flow_post req w :
  ∃ r w', Post (flow_http context) req w = (Ret r, w') ∧ clk w ≤ clk w' ∧ hits w' ≤ hits w + 2.
Proof.
  destruct Hok as [_ Hsleep Hpost]. cbn [flow_http Post RetryingHttpClient]. unfold RunWithRetries.
  destruct (Hpost req w) as (r & w1 & H1 & Hc1 & Hh1). unfold mbind, M_bind. rewrite H1. simpl.
  destruct (ShouldRetry r); simpl; [|exists r, w1; split_and!; [done|lia|lia]].
  destruct (Hsleep 1000 w1 ltac:(lia)) as (w2 & H2 & Hc2 & Hh2). unfold mbind, M_bind. rewrite H2. simpl.
  destruct (Hpost req w2) as (r3 & w3 & H3 & Hc3 & Hh3). rewrite H3. simpl.
  exists r3, w3. split_and!; [done|lia|lia].
Qed.

Lemma poll_request token_endpoint client_id client_secret device_code w :
  ∃ p w', PollDeviceTokenEndpoint (flow_http context) token_endpoint client_id client_secret device_code w = (Ret p, w')
    ∧ clk w ≤ clk w' ∧ hits w' ≤ hits w + 2.
Proof.
  unfold PollDeviceTokenEndpoint. destruct (_ || _); [eexists _, w; split_and!; [done|lia|lia]|].
  destruct (flow_post (device_poll_request token_endpoint client_id client_secret device_code) w)
    as (r & w1 & H1 & ? & ?).
  unfold mbind, M_bind. rewrite H1. by eexists _, w1.
Qed.

(** The loop ends when the deadline is within reach of its turns. *)
Lemma poll_loop_ends token_endpoint client_id client_secret device_code deadline n fuel interval w :
  (n < fuel)%nat → 1 ≤ interval → interval + 5 * Z.of_nat n < 2 ^ 63 →
  deadline ≤ clk w + Z.of_nat n * (interval * 1000000000) →
  ∃ r w', poll_loop context env fuel token_endpoint client_id client_secret device_code deadline interval w = (r, w') ∧
    r ≠ Stuck ∧ hits w' ≤ hits w + 2 * Z.of_nat n ∧ (r = Ret None → deadline ≤ clk w').
Proof.
  revert fuel interval w. induction n as [|n IH]; intros [|fuel] interval w Hfuel Hint Hov Hdead; try lia;
    cbn [poll_loop]; destruct (pe_steady Hok w) as (v & w1 & H1 & Hv & Hh1); unfold mbind, M_bind; rewrite H1;
    (destruct (Z.ltb_spec v deadline) as [Hlt|Hge]; cbn [negb];
      [|eexists _, w1; split_and!; [reflexivity|done|lia|lia]]); [lia|].
  destruct (pe_sleep Hok (interval * 1000) w1 ltac:(lia)) as (w2 & H2 & Hc2 & Hh2). rewrite H2.
  destruct (poll_request token_endpoint client_id client_secret device_code w2) as (p & w3 & H3 & Hc3 & Hh3).
  rewrite H3.
  assert (∀ i, interval ≤ i → i + 5 * Z.of_nat n < 2 ^ 63 →
    ∃ r w', poll_loop context env fuel token_endpoint client_id client_secret device_code deadline i w3 = (r, w') ∧
      r ≠ Stuck ∧ hits w' ≤ hits w + 2 * Z.of_nat (S n) ∧ (r = Ret None → deadline ≤ clk w')) as Hrec.
  { intros i Hi Hi'. destruct (IH fuel i w3) as (r & w4 & Hr & Hs & Hh & Hd); [lia|lia|lia|nia|].
    exists r, w4. split_and!; [done|done|lia|done]. }
  destruct (dp_outcome p).
  - apply Hrec; lia.
  - unfold lift. rewrite i64_ok_Ret by (unfold in_i64; lia). apply Hrec; lia.
  - eexists _, w3. split_and!; [reflexivity|done|lia|done].
  - eexists _, w3. split_and!; [reflexivity|done|lia|done].
  - eexists _, w3. split_and!; [reflexivity|done|lia|done].
  - eexists _, w3. split_and!; [reflexivity|done|lia|done].
Qed.

(** Claim C27.  A device login does not poll for ever.  From its start the loop
    returns (with the tokens, at the deadline, or with the exception of a
    terminal answer) whatever the identity provider answers, as long as the
    monotonic clock advances by the time slept; with the lifetime and interval
    the authorization gave, it reaches the network at most twice per interval of
    the lifetime; and it gives up only when the deadline has passed. *)
Theorem device_polling_terminates token_endpoint client_id client_secret (auth : DeviceAuthorizationResponse) start deadline w :
  poll_deadline start (poll_lifetime auth) = Ret deadline → start ≤ clk w →
  poll_interval auth + 5 * poll_lifetime auth < 2 ^ 63 →
  ∃ r w',
    poll_loop context env (poll_fuel (poll_lifetime auth)) token_endpoint client_id client_secret
      (da_device_code auth) deadline (poll_interval auth) w = (r, w') ∧
    r ≠ Stuck ∧
    hits w' ≤ hits w + 2 * ((poll_lifetime auth + poll_interval auth - 1) `div` poll_interval auth) ∧
    (r = Ret None → start + poll_lifetime auth * 1000000000 ≤ clk w').
Proof.
  unfold poll_deadline. intros (ns & [-> _]%i64_ok_inv & [-> _]%i64_ok_inv)%exc_bind_Ret Hstart Hov.
  assert (1 ≤ poll_interval auth) as Hint by (unfold poll_interval; destruct (Z.ltb_spec 0 (da_interval auth)); lia).
  assert (1 ≤ poll_lifetime auth) as Hlife by (unfold poll_lifetime; destruct (Z.ltb_spec 0 (da_expires_in auth)); lia).
  set (l := poll_lifetime auth) in *. set (i := poll_interval auth) in *.
  set (k := (l + i - 1) `div` i).
  assert (l ≤ k * i ∧ 0 ≤ k ≤ l) as [Hk Hkl].
  { pose proof (Z.div_mod (l + i - 1) i ltac:(lia)). pose proof (Z.mod_pos_bound (l + i - 1) i ltac:(lia)).
    fold k in H. split; [lia|]. split; [apply Z.div_pos; lia|]. apply Z.div_le_upper_bound; nia. }
  destruct (poll_loop_ends token_endpoint client_id client_secret (da_device_code auth)
    (start + l * 1000000000) (Z.to_nat k) (poll_fuel l) i w) as (r & w' & Hr & Hs & Hh & Hd).
  - unfold poll_fuel. lia.
  - done.
  - lia.
  - rewrite Z2Nat.id by lia. nia.
  - exists r, w'. split_and!; [done|done|lia|done].
Qed.
End liveness.

(** ** What the flows leave on the secret *)
Lemma ok_body_Some {A} (parse : string → option A) resp a :
  ok_body parse resp = Some a → ∃ r, resp = Some r ∧ status_code r = 200 ∧ parse (body r) = Some a.
Proof.
  unfold ok_body. destruct resp as [r|]; [|done]. destruct (Z.eqb_spec (status_code r) 200); [|done]. by exists r.
Qed.

Create HintDb quiet.

Section flows.
Context `{!PicoJson, !DuckValues} {W : Type} (context : ClientContext W) (env : DeviceEnv W).

(** *** What the identity provider said

    A token answer is a JSON object with an access token that is a string and not
    empty.  A refresh token that is absent or no string counts as none, a lifetime
    that is absent or no number as 0. *)
Definition says_text (obj : gmap string json) (key text : string) : Prop :=
  (∃ v, obj !! key = Some v ∧ pj_view v = JString text) ∨
  (text = "" ∧ ∀ v text', obj !! key = Some v → pj_view v ≠ JString text').
Definition says_number (obj : gmap string json) (key : string) (z : Z) : Prop :=
  (∃ v, obj !! key = Some v ∧ (pj_view v = JInt64 z ∨ pj_view v = JDouble z)) ∨
  (z = 0 ∧ ∀ v z', obj !! key = Some v → pj_view v ≠ JInt64 z' ∧ pj_view v ≠ JDouble z').
Definition says_token (text access refresh : string) (lifetime : Z) : Prop :=
  ∃ root obj, pj_parse text = Some root ∧ pj_view root = JObject obj ∧ access ≠ "" ∧
    says_text obj "access_token" access ∧ says_text obj "refresh_token" refresh ∧
    says_number obj "expires_in" lifetime.

Lemma AsString_says obj key : says_text obj key (default "" (AsString obj key)).
Proof.
  unfold says_text, AsString. destruct (obj !! key) as [v|]; [|by right].
  destruct (pj_view v) eqn:Hv; try (right; split; [done|]; intros ? ? [= <-]; congruence). left. by exists v.
Qed.
Lemma AsInt_says obj key : says_number obj key (AsInt obj key 0).
Proof.
  unfold says_number, AsInt. destruct (obj !! key) as [v|]; [|by right].
  destruct (pj_view v) eqn:Hv; try (right; split; [done|]; intros ? ? [= <-]; split; congruence);
    left; exists v; rewrite Hv; auto.
Qed.
Lemma ParseTokenResponse_says text t :
  ParseTokenResponse text = Some t → says_token text (tr_access_token t) (tr_refresh_token t) (tr_expires_in t).
Proof.
  unfold ParseTokenResponse, json_object. destruct (sempty text); [done|].
  intros (obj & (root & Hr & Ho)%bind_Some & (at_ & Ha & Ht)%bind_Some)%bind_Some.
  destruct (pj_view root) as [| | | | | |o] eqn:Hv; try done. injection Ho as ->.
  destruct (sempty at_) eqn:He; [done|]. apply sempty_false in He. injection Ht as <-.
  exists root, obj. split_and!; [done|done|done| |apply AsString_says|apply AsInt_says].
  cbn [tr_access_token]. pose proof (AsString_says obj "access_token") as Hs. by rewrite Ha in Hs.
Qed.

(** *** The three grants *)
Inductive grant : Type := by_refresh | by_credentials | by_device.
#[local] Instance grant_eq_dec : EqDecision grant.
Proof. solve_decision. Defined.
Definition run_grant (g : grant) : string → M W string :=
  match g with
  | by_refresh => DoRefresh context
  | by_credentials => DoLogin context
  | by_device => DoDeviceLoginImpl context env
  end.

Definition secret_text (kv : KeyValueSecret) (key : string) : string :=
  match secret_map kv !! key with Some v => dv_ToString v | None => "" end.

(** [asked g kv w req wq]: the request that brings the token, made of the secret's
    fields, and the world it is made in.  Before the device grant's poll the
    provider has handed out the device code. *)
Inductive asked (kv : KeyValueSecret) (w : W) : grant → PostRequest → W → Prop :=
  | asked_refresh :
      asked kv w by_refresh (refresh_token_request (secret_text kv "token_endpoint") (secret_text kv "client_id")
        (secret_text kv "client_secret") (secret_text kv "refresh_token") (secret_text kv "scope")) w
  | asked_credentials :
      asked kv w by_credentials (client_credentials_request (secret_text kv "token_endpoint") (secret_text kv "client_id")
        (secret_text kv "client_secret") (secret_text kv "scope")) w
  | asked_device resp auth wa wq :
      Post (flow_http context) (device_authorization_request (secret_text kv "device_authorization_endpoint")
        (secret_text kv "client_id") (secret_text kv "client_secret") (secret_text kv "scope")) w = (Ret (Some resp), wa) →
      status_code resp = 200 → ParseDeviceAuthorizationResponse (body resp) = Some auth →
      asked kv w by_device (device_poll_request (secret_text kv "token_endpoint") (secret_text kv "client_id")
        (secret_text kv "client_secret") (da_device_code auth)) wq.

(** The answer the grant ends with: its tokens, and the instant its lifetime, counted
    from the clock as it reads when the answer is there, runs out. *)
Definition answered (g : grant) (kv : KeyValueSecret) (w : W) (access refresh : string) (expires_at : Z) (wp : W) : Prop :=
  ∃ req wq resp wr lifetime now, asked kv w g req wq ∧ Post (flow_http context) req wq = (Ret (Some resp), wr) ∧
    status_code resp = 200 ∧ says_token (body resp) access refresh lifetime ∧
    cx_now_s context wr = (Ret now, wp) ∧ expires_at = now + lifetime.

Lemma answered_nonempty g kv w access refresh expires_at wp : answered g kv w access refresh expires_at wp → access ≠ "".
Proof. by intros (? & ? & ? & ? & ? & ? & _ & _ & _ & (? & ? & _ & _ & ? & _) & _). Qed.

(** A login writes no refresh token, whatever the answer says. *)
Definition written_refresh (g : grant) (refresh : string) : string := if decide (g = by_credentials) then "" else refresh.

(** A flow that returned: it opened the secret, got a token from the identity
    provider, and wrote it with its expiry. *)
Definition flow_done (g : grant) (name : string) (w : W) (iso : string) (w' : W) : Prop :=
  ∃ entry kv access refresh expires_at wp, cx_GetSecretByName context name w = Some entry ∧ se_secret entry = Some kv ∧
    kv_type kv = "quack_oauth" ∧ name ≠ "" ∧ answered g kv w access refresh expires_at wp ∧
    FormatUtcIso8601 expires_at = Ret iso ∧
    cx_RegisterSecret context (mkSecretEntry (Some (with_tokens kv access iso (written_refresh g refresh)))
      (se_persist_type entry) (se_storage_mode entry)) wp = (Ret tt, w').

(** The tail the three flows share. *)
Lemma persist_tail g name entry kv (tok : TokenResponse) req resp wq w w1 iso w' rotated :
  cx_GetSecretByName context name w = Some entry → se_secret entry = Some kv →
  kv_type kv = "quack_oauth" → name ≠ "" → asked kv w g req wq →
  Post (flow_http context) req wq = (Ret (Some resp), w1) → status_code resp = 200 →
  ParseTokenResponse (body resp) = Some tok → rotated = written_refresh g (tr_refresh_token tok) →
  (now ← cx_now_s context;
   iso ← lift (expiry_text now (tr_expires_in tok));
   _ ← PersistTokenFields context (mkSecretAccessor (Some entry) (Some kv)) (tr_access_token tok) iso rotated;
   mret iso) w1 = (Ret iso, w') →
  flow_done g name w iso w'.
Proof.
  intros He Hkv Ht Hn Hask Hpost H200 Htok Hrot
    (now & w2 & Hnow & (iso' & w3 & [Hiso ->]%lift_Ret & (u & w4 & Hp & Hr)%M_bind_Ret)%M_bind_Ret)%M_bind_Ret.
  injection Hr as -> ->. destruct u. unfold PersistTokenFields in Hp. cbn [sa_kv sa_entry] in Hp.
  apply M_bind_Ret in Hp as (kv' & w5 & [Hkv' ->]%lift_Ret & Hp). apply defined_Ret in Hkv' as [= <-].
  apply M_bind_Ret in Hp as (en' & w5 & [Hen' ->]%lift_Ret & Hp). apply defined_Ret in Hen' as [= <-].
  unfold expiry_text in Hiso. apply exc_bind_Ret in Hiso as (ex & [-> _]%i64_ok_inv & Hiso).
  exists entry, kv, (tr_access_token tok), (tr_refresh_token tok), (now + tr_expires_in tok), w2.
  split_and!; try done; [|by rewrite <-Hrot].
  exists req, wq, resp, w1, (tr_expires_in tok), now. split_and!; try done. by apply ParseTokenResponse_says.
Qed.

Lemma ok_body_run {A} (parse : string → option A) (m : M W (option Response)) w a w1 :
  (resp ← m; mret (ok_body parse resp)) w = (Ret (Some a), w1) →
  ∃ resp, m w = (Ret (Some resp), w1) ∧ status_code resp = 200 ∧ parse (body resp) = Some a.
Proof.
  intros (resp & w2 & Hm & Hr)%M_bind_Ret. injection Hr as Hr ->.
  apply ok_body_Some in Hr as (r & -> & H200 & Hp). by exists r.
Qed.

Lemma DoLogin_done name w iso w' : DoLogin context name w = (Ret iso, w') → flow_done by_credentials name w iso w'.
Proof.
  intros (acc & w1 & (Hn & -> & entry & kv & He & Hkv & Ht & ->)%OpenSecret_Ret & Hk)%M_bind_Ret. revert Hk. cbv beta zeta.
  destruct (sempty _); [done|]. destruct (_ || _); [done|]. intros (tok & w2 & Htok & Hk)%M_bind_Ret.
  destruct tok as [tok|]; [|done]. unfold AcquireTokenClientCredentials in Htok. destruct (_ || _); [done|].
  apply ok_body_run in Htok as (resp & Hpost & H200 & Hp).
  by refine (persist_tail _ _ _ _ _ _ _ _ _ _ _ _ _ He Hkv Ht Hn (asked_credentials _ _) Hpost H200 Hp _ Hk).
Qed.

Lemma DoRefresh_done name w iso w' : DoRefresh context name w = (Ret iso, w') → flow_done by_refresh name w iso w'.
Proof.
  intros (acc & w1 & (Hn & -> & entry & kv & He & Hkv & Ht & ->)%OpenSecret_Ret & Hk)%M_bind_Ret. revert Hk. cbv beta zeta.
  destruct (sempty _); [done|]. destruct (sempty _); [done|]. intros (tok & w2 & Htok & Hk)%M_bind_Ret.
  destruct tok as [tok|]; [|done]. unfold AcquireTokenRefreshToken in Htok. destruct (_ || _); [done|].
  apply ok_body_run in Htok as (resp & Hpost & H200 & Hp).
  by refine (persist_tail _ _ _ _ _ _ _ _ _ _ _ _ _ He Hkv Ht Hn (asked_refresh _ _) Hpost H200 Hp _ Hk).
Qed.

(** The polling ends with the answer to its last request. *)
Lemma poll_loop_success fuel te ci cs dc deadline interval w p w' tok :
  poll_loop context env fuel te ci cs dc deadline interval w = (Ret (Some p), w') → dp_tokens p = Some tok →
  ∃ wq resp, Post (flow_http context) (device_poll_request te ci cs dc) wq = (Ret (Some resp), w') ∧
    status_code resp = 200 ∧ ParseTokenResponse (body resp) = Some tok.
Proof.
  revert interval w. induction fuel as [|fuel IH]; intros interval w; cbn [poll_loop]; [done|].
  intros (now & w1 & _ & Hk)%M_bind_Ret Htok. destruct (negb _); [done|].
  apply M_bind_Ret in Hk as (u & w2 & _ & (q & w3 & Hq & Hk)%M_bind_Ret).
  destruct (dp_outcome q); try done.
  - by eapply IH.
  - apply M_bind_Ret in Hk as (i & w4 & _ & Hk). by eapply IH.
  - injection Hk as -> ->. unfold PollDeviceTokenEndpoint in Hq. destruct (_ || _ || _); [by injection Hq as <- _|].
    apply M_bind_Ret in Hq as (resp & w4 & Hpost & Hr). injection Hr as <- ->. destruct resp as [r|]; [|done].
    exists w2, r. unfold ParseDevicePollResponse in Htok. destruct (Z.eqb_spec (status_code r) 200); [|done].
    destruct (ParseTokenResponse (body r)) eqn:Hp; [|done]. by simplify_eq/=.
Qed.

Lemma DoDeviceLogin_done name w iso w' :
  DoDeviceLoginImpl context env name w = (Ret iso, w') → flow_done by_device name w iso w'.
Proof.
  intros (acc & w1 & (Hn & -> & entry & kv & He & Hkv & Ht & ->)%OpenSecret_Ret & Hk)%M_bind_Ret. revert Hk. cbv beta zeta.
  destruct (sempty _); [done|]. destruct (_ || _); [done|]. intros (auth & w2 & Hauth & Hk)%M_bind_Ret.
  destruct auth as [auth|]; [|done]. apply M_bind_Ret in Hk as (u & w3 & _ & Hk).
  apply M_bind_Ret in Hk as (start & w4 & _ & (dl & w5 & _ & (p & w6 & Hp & Hk)%M_bind_Ret)%M_bind_Ret).
  destruct p as [p|]; [|done]. destruct (dp_tokens p) as [tok|] eqn:Htok; [|done].
  destruct (poll_loop_success _ _ _ _ _ _ _ _ _ _ _ Hp Htok) as (wq & resp & Hpost & H200 & Hparse).
  unfold RequestDeviceAuthorization in Hauth. destruct (_ || _); [done|].
  apply ok_body_run in Hauth as (aresp & Hapost & Ha200 & Haparse).
  by refine (persist_tail _ _ _ _ _ _ _ _ _ _ _ _ _ He Hkv Ht Hn
    (asked_device _ _ _ _ _ _ Hapost Ha200 Haparse) Hpost H200 Hparse _ Hk).
Qed.

Lemma run_grant_done g name w iso w' : run_grant g name w = (Ret iso, w') → flow_done g name w iso w'.
Proof. destruct g; eauto using DoRefresh_done, DoLogin_done, DoDeviceLogin_done. Qed.

(** What is relied on of the secret manager: a registered secret is found under
    its name, and a secret found under a name has that name. *)
Record secret_store_ok : Prop := {
  ss_register e kv w w' : cx_RegisterSecret context e w = (Ret tt, w') → se_secret e = Some kv →
    cx_GetSecretByName context (kv_name kv) w' = Some e;
  ss_name name e kv w : cx_GetSecretByName context name w = Some e → se_secret e = Some kv → kv_name kv = name;
}.
Context (Hstore : secret_store_ok) `{!DuckValuesLaws}.

Definition secret_in (name : string) (w : W) : option KeyValueSecret :=
  cx_GetSecretByName context name w ≫= se_secret.

Lemma with_tokens_lookup kv at_ iso rotated k :
  secret_map (with_tokens kv at_ iso rotated) !! k =
  if decide (k = "access_token") then Some (dv_of_string at_)
  else if decide (k = "expires_at") then Some (dv_of_string iso)
  else if decide (k = "refresh_token") then
    (if sempty rotated then secret_map kv !! k else Some (dv_of_string rotated))
  else secret_map kv !! k.
Proof.
  unfold with_tokens. cbn [secret_map].
  destruct (decide (k = "access_token")) as [->|Ha]; [destruct (sempty rotated); by simplify_map_eq|].
  destruct (decide (k = "expires_at")) as [->|He]; [destruct (sempty rotated); by simplify_map_eq|].
  destruct (decide (k = "refresh_token")) as [->|Hr]; destruct (sempty rotated); by simplify_map_eq.
Qed.

(** [rewritten kv kv']: [kv'] is [kv] but for its fields. *)
Definition rewritten (kv kv' : KeyValueSecret) : Prop :=
  kv_name kv' = kv_name kv ∧ kv_type kv' = kv_type kv ∧ kv_provider kv' = kv_provider kv ∧
  kv_scope kv' = kv_scope kv ∧ redact_keys kv' = redact_keys kv.

Lemma flow_done_secret g name w iso w' : flow_done g name w iso w' →
  ∃ entry kv access refresh expires_at wp,
    cx_GetSecretByName context name w = Some entry ∧ se_secret entry = Some kv ∧
    kv_type kv = "quack_oauth" ∧ name ≠ "" ∧ answered g kv w access refresh expires_at wp ∧
    FormatUtcIso8601 expires_at = Ret iso ∧
    cx_GetSecretByName context name w' =
      Some (mkSecretEntry (Some (with_tokens kv access iso (written_refresh g refresh)))
              (se_persist_type entry) (se_storage_mode entry)).
Proof.
  intros (entry & kv & access & refresh & ex & wp & He & Hkv & Ht & Hn & Ha & Hiso & Hreg).
  exists entry, kv, access, refresh, ex, wp. split_and!; try done.
  rewrite <-(ss_name Hstore _ _ _ _ He Hkv). exact (ss_register Hstore _ _ _ _ Hreg eq_refl).
Qed.

(** Claim C29.  The flows write the provider's answer on the secret and change
    nothing else.  When a refresh, login or device login returns, the provider has
    answered the grant's own token request with a token; the secret under the name
    is the old one (type, provider, scope, redaction, storage) with that answer's
    access token, with the text that was returned as the expiry, which is the clock
    plus the answer's lifetime, and with the answer's refresh token when the grant
    is not a login and the answer has one, the old refresh token otherwise; every
    other field is as before.  After a logout it has its old fields without the
    three. *)
Theorem token_fields_only name w :
  (∀ g iso w', run_grant g name w = (Ret iso, w') →
     ∃ entry kv access refresh expires_at wp entry' kv',
       cx_GetSecretByName context name w = Some entry ∧ se_secret entry = Some kv ∧
       answered g kv w access refresh expires_at wp ∧ FormatUtcIso8601 expires_at = Ret iso ∧
       cx_GetSecretByName context name w' = Some entry' ∧ se_secret entry' = Some kv' ∧ rewritten kv kv' ∧
       se_persist_type entry' = se_persist_type entry ∧ se_storage_mode entry' = se_storage_mode entry ∧
       ∀ k, secret_map kv' !! k =
         if decide (k = "access_token") then Some (dv_of_string access)
         else if decide (k = "expires_at") then Some (dv_of_string iso)
         else if decide (k = "refresh_token" ∧ g ≠ by_credentials ∧ refresh ≠ "") then Some (dv_of_string refresh)
         else secret_map kv !! k) ∧
  (∀ b w', DoLogout context name w = (Ret b, w') → b = true ∧
     ∃ kv kv', secret_in name w = Some kv ∧ secret_in name w' = Some kv' ∧ rewritten kv kv' ∧
       ∀ k, secret_map kv' !! k =
         if decide (k ∈ ["access_token"; "refresh_token"; "expires_at"]) then None else secret_map kv !! k).
Proof.
  split.
  - intros g iso w' (entry & kv & access & refresh & ex & wp & He & Hkv & _ & _ & Ha & Hiso & Hget)%run_grant_done%flow_done_secret.
    eexists entry, kv, access, refresh, ex, wp, _, _. split_and!; [done..|].
    intros k. rewrite with_tokens_lookup. unfold written_refresh.
    destruct (decide (k = "access_token")); [done|]. destruct (decide (k = "expires_at")); [done|].
    destruct (decide (k = "refresh_token")) as [->|Hk].
    2: { by rewrite decide_False by tauto. }
    destruct (decide (g = by_credentials)) as [Hg|Hg]; simpl; [by rewrite decide_False by tauto|].
    destruct (sempty refresh) eqn:E; [apply sempty_true in E|apply sempty_false in E].
    + by rewrite decide_False by tauto.
    + by rewrite decide_True by done.
  - intros b w' (acc & w1 & (Hn & -> & entry & kv & He & Hkv & Ht & ->)%OpenSecret_Ret & Hk)%M_bind_Ret.
    cbn [sa_kv sa_entry] in Hk.
    apply M_bind_Ret in Hk as (kv' & w2 & [[= <-]%defined_Ret ->]%lift_Ret & Hk).
    apply M_bind_Ret in Hk as (entry' & w2 & [[= <-]%defined_Ret ->]%lift_Ret & Hk).
    apply M_bind_Ret in Hk as ([] & w3 & Hreg & [= <- <-]). split; [done|].
    pose proof (ss_name Hstore _ _ _ _ He Hkv) as Hname.
    pose proof (ss_register Hstore _ _ _ _ Hreg eq_refl) as Hget. cbn [kv_name] in Hget. rewrite Hname in Hget.
    eexists kv, _. split_and!; [unfold secret_in; by rewrite He|unfold secret_in; by rewrite Hget|done|].
    intros k. cbn [secret_map]. destruct (decide (k ∈ _)) as [Hk|Hk].
    + rewrite !elem_of_cons in Hk. destruct Hk as [-> |[-> |[-> |?%elem_of_nil]]]; [..|done]; by simplify_map_eq.
    + rewrite !not_elem_of_cons in Hk. destruct Hk as (? & ? & ? & _). by simplify_map_eq.
Qed.

(** What the ladder sees of a secret a flow has written. *)
Lemma fresh_view access iso rt entry kv expires_at now skew :
  let view := client_secret_view (mkSecretAccessor entry (Some (with_tokens kv access iso rt))) in
  access ≠ "" → 0 < expires_at → FormatUtcIso8601 expires_at = Ret iso →
  cv_access_token view = access ∧
  AccessTokenIsFresh view now skew = bool_decide (now + skew < expires_at < year_10000 ∧ 0 < expires_at).
Proof.
  intros view Ha Hpos Hiso.
  assert (cv_access_token view = access) as Hat.
  { unfold view. cbn [client_secret_view cv_access_token]. unfold SecretGet. cbn [sa_kv].
    rewrite with_tokens_lookup. simpl. apply dv_ToString_of_string. }
  split; [done|]. unfold AccessTokenIsFresh. rewrite Hat, (proj2 (sempty_false _) Ha).
  assert (cv_expires_at_unix_s view = if expires_at <? year_10000 then expires_at else 0) as ->.
  { unfold view. cbn [client_secret_view cv_expires_at_unix_s]. unfold SecretGet. cbn [sa_kv].
    rewrite with_tokens_lookup. simpl. rewrite dv_ToString_of_string. apply iso8601_read_back; [lia|done]. }
  destruct (Z.ltb_spec expires_at year_10000); simpl; [|symmetry; apply bool_decide_eq_false; lia].
  destruct (Z.leb_spec expires_at 0); [lia|]. symmetry.
  destruct (Z.ltb_spec (now + skew) expires_at); [by apply bool_decide_eq_true|apply bool_decide_eq_false; lia].
Qed.

(** Claim C26.  A token is fetched once per lifetime.  After any grant that
    returned, as long as the secret is unchanged, acquiring returns the access token
    of the provider's answer and does nothing but read the clock, exactly until the
    renewal skew before the expiry the provider announced (the clock when the answer
    came plus its lifetime).  The expiry lies after 1970; one in the year 10000 or
    later is the exception: it is read back as none, so such a token is never
    reused. *)
Theorem acquired_token_reused g name w iso w' :
  run_grant g name w = (Ret iso, w') →
  ∃ kv access refresh expires_at wp, secret_in name w = Some kv ∧ answered g kv w access refresh expires_at wp ∧
    (0 < expires_at →
     ∀ w2 w3 now skew, cx_GetSecretByName context name w2 = cx_GetSecretByName context name w' →
       cx_now_s context w2 = (Ret now, w3) → ReadRenewSkew context w3 = (Ret skew, w3) →
       (now + skew < expires_at < year_10000 → DoAcquire context env name w2 = (Ret access, w3)) ∧
       (∀ view, LoadClientSecretView context name w2 = (Ret view, w2) →
          ad_flow (DecideAcquireFlow view now skew) = UseCached ↔ now + skew < expires_at < year_10000)).
Proof.
  intros (entry & kv & access & refresh & ex & wp & He & Hkv & Ht & Hn & Ha & Hiso & Hget')%run_grant_done%flow_done_secret.
  exists kv, access, refresh, ex, wp. split; [unfold secret_in; by rewrite He|]. split; [done|].
  intros Hpos w2 w3 now skew Hget Hnow Hskew. rewrite Hget' in Hget.
  set (kv' := with_tokens kv access iso (written_refresh g refresh)) in *.
  set (acc := mkSecretAccessor (cx_GetSecretByName context name w2) (Some kv')).
  assert (LoadClientSecretView context name w2 = (Ret (client_secret_view acc), w2)) as Hload.
  { apply M_bind_Ret. exists acc, w2. split; [|done]. apply OpenSecret_Ret. split_and!; [done|done|].
    unfold acc. rewrite Hget. by eexists _, kv'. }
  destruct (fresh_view access iso (written_refresh g refresh) (cx_GetSecretByName context name w2) kv ex now skew
    (answered_nonempty _ _ _ _ _ _ _ Ha) Hpos Hiso) as [Hat Hfresh]. fold kv' acc in Hat, Hfresh.
  split.
  - intros Hlt. unfold DoAcquire. rewrite (proj2 (sempty_false _) Hn). apply M_bind_Ret. eexists _, w2.
    split; [exact Hload|]. apply M_bind_Ret. exists now, w3. split; [done|]. apply M_bind_Ret.
    exists skew, w3. split; [done|]. unfold DecideAcquireFlow. rewrite Hfresh, bool_decide_eq_true_2 by done.
    cbn [ad_flow]. by rewrite Hat.
  - intros view Hv. rewrite Hload in Hv. injection Hv as <-. unfold DecideAcquireFlow. rewrite Hfresh.
    destruct (bool_decide_reflect (now + skew < ex < year_10000 ∧ 0 < ex)); [naive_solver|].
    split; [by repeat case_match|naive_solver].
Qed.

(** ** The ladder, as a relation *)
Definition fresh (v : ClientSecretView) (now skew : Z) : Prop :=
  cv_access_token v ≠ "" ∧ 0 < cv_expires_at_unix_s v ∧ now + skew < cv_expires_at_unix_s v.
Definition refreshable (v : ClientSecretView) : Prop :=
  cv_refresh_token v ≠ "" ∧ cv_token_endpoint v ≠ "" ∧ cv_client_id v ≠ "".
Definition has_credentials (v : ClientSecretView) : Prop :=
  cv_client_id v ≠ "" ∧ cv_client_secret v ≠ "" ∧ cv_token_endpoint v ≠ "".
Definition has_device (v : ClientSecretView) : Prop :=
  cv_client_id v ≠ "" ∧ cv_token_endpoint v ≠ "" ∧ cv_device_authorization_endpoint v ≠ "".

Lemma DecideAcquireFlow_ladder v now skew :
  match ad_flow (DecideAcquireFlow v now skew) with
  | UseCached => fresh v now skew
  | RefreshToken => ¬ fresh v now skew ∧ refreshable v
  | ClientCredentials => ¬ fresh v now skew ∧ ¬ refreshable v ∧ has_credentials v
  | DeviceCode => ¬ fresh v now skew ∧ ¬ refreshable v ∧ ¬ has_credentials v ∧ has_device v
  | UnconfiguredFlow => ¬ fresh v now skew ∧ ¬ refreshable v ∧ ¬ has_credentials v ∧ ¬ has_device v
  end.
Proof.
  assert (AccessTokenIsFresh v now skew = true ↔ fresh v now skew) as Hf.
  { unfold AccessTokenIsFresh, fresh. rewrite <-sempty_false. destruct (sempty (cv_access_token v)); [naive_solver|].
    destruct (Z.leb_spec (cv_expires_at_unix_s v) 0); [split; [done|lia]|]. rewrite Z.ltb_lt. split; [by intros ?; split_and!|by intros (? & ? & ?)]. }
  assert (∀ a b c, negb (sempty a) && negb (sempty b) && negb (sempty c) = true ↔ a ≠ "" ∧ b ≠ "" ∧ c ≠ "") as H3.
  { intros a b c. rewrite !andb_true_iff, !negb_true_iff, !sempty_false. tauto. }
  unfold DecideAcquireFlow. destruct (AccessTokenIsFresh v now skew) eqn:Ef; [by apply Hf|].
  assert (¬ fresh v now skew) as Hnf by (intros Hc%Hf; congruence).
  destruct (CanRefresh v) eqn:Er; [split; [done|by apply H3]|].
  destruct (CanClientCredentials v) eqn:Ec.
  { split; [done|]. split; [|by apply H3]. intros Hr%H3. unfold CanRefresh in Er. congruence. }
  assert (¬ refreshable v ∧ ¬ has_credentials v) as [Hr Hc].
  { split; intros Hx%H3; unfold CanRefresh, CanClientCredentials in *; congruence. }
  destruct (CanDeviceCode v) eqn:Ed; cbn [ad_flow].
  - split_and!; [done|done|done|by apply H3].
  - split_and!; [done|done|done|]. intros Hx%H3. unfold CanDeviceCode in *. congruence.
Qed.

(** Claim C25.  Acquiring returns a token only by the ladder, and never an empty
    one: a token the secret holds that outlives now and the skew, with the clock
    read and nothing else done; otherwise the refresh grant when there is a refresh
    token, otherwise client credentials, otherwise the device flow, each only when
    the secret has every field it needs; and then the token returned is the one
    the secret holds in the end. *)
Theorem acquire_sound name w tok w' :
  DoAcquire context env name w = (Ret tok, w') →
  tok ≠ "" ∧
  ∃ view now w1 skew, LoadClientSecretView context name w = (Ret view, w) ∧ cx_now_s context w = (Ret now, w1) ∧
    ReadRenewSkew context w1 = (Ret skew, w1) ∧
    ((fresh view now skew ∧ tok = cv_access_token view ∧ w' = w1) ∨
     (¬ fresh view now skew ∧ ∃ f iso,
        ((refreshable view ∧ f = DoRefresh context) ∨
         (¬ refreshable view ∧ has_credentials view ∧ f = DoLogin context) ∨
         (¬ refreshable view ∧ ¬ has_credentials view ∧ has_device view ∧ f = DoDeviceLoginImpl context env)) ∧
        f name w1 = (Ret iso, w') ∧
        ∃ view', LoadClientSecretView context name w' = (Ret view', w') ∧ cv_access_token view' = tok)).
Proof.
  unfold DoAcquire. destruct (sempty name); [done|].
  intros (view & w0 & Hload & (now & w1 & Hnow & (skew & w2 & Hskew & Hk)%M_bind_Ret)%M_bind_Ret)%M_bind_Ret.
  assert (w0 = w) as ->.
  { apply M_bind_Ret in Hload as (a & w3 & (_ & -> & _)%OpenSecret_Ret & [= _ <-]). done. }
  assert (w2 = w1) as ->.
  { apply M_bind_Ret in Hskew as (v & w3 & [= _ <-] & Hs). destruct v as [v|]; [|by injection Hs].
    destruct (dv_IsNull v); [by injection Hs|]. by apply lift_Ret in Hs as [_ ->]. }
  assert (∀ f fname, RunFlowAndReadToken context f fname name w1 = (Ret tok, w') →
    tok ≠ "" ∧ ∃ iso, f name w1 = (Ret iso, w') ∧
      ∃ view', LoadClientSecretView context name w' = (Ret view', w') ∧ cv_access_token view' = tok) as Hflow.
  { intros f fname (iso & w3 & Hf & (v & w4 & Hv & Hr)%M_bind_Ret)%M_bind_Ret.
    assert (w4 = w3) as ->.
    { apply M_bind_Ret in Hv as (a & w5 & (_ & -> & _)%OpenSecret_Ret & [= _ <-]). done. }
    destruct (sempty (cv_access_token v)) eqn:He; [done|]. injection Hr as <- <-.
    apply sempty_false in He. split; [done|]. exists iso. split; [done|]. by exists v. }
  pose proof (DecideAcquireFlow_ladder view now skew) as Hl.
  destruct (ad_flow (DecideAcquireFlow view now skew)).
  - injection Hk as <- <-. split; [apply Hl|]. exists view, now, w1, skew. split_and!; [done..|]. left. by split; [|split].
  - destruct (Hflow _ _ Hk) as (Hne & iso & Hf & Hv). split; [done|]. exists view, now, w1, skew.
    split_and!; [done..|]. right. split; [apply Hl|]. eexists _, iso. split; [left; by split; [apply Hl|]|done].
  - destruct (Hflow _ _ Hk) as (Hne & iso & Hf & Hv). split; [done|]. exists view, now, w1, skew.
    split_and!; [done..|]. right. split; [apply Hl|]. eexists _, iso. split; [right; left; by split; [apply Hl|split; [apply Hl|]]|done].
  - destruct (Hflow _ _ Hk) as (Hne & iso & Hf & Hv). split; [done|]. exists view, now, w1, skew.
    split_and!; [done..|]. right. split; [apply Hl|]. eexists _, iso. split; [right; right; by split; [apply Hl|split; [apply Hl|split; [apply Hl|]]]|done].
  - done.
Qed.

(** ** Which calls complain about the secret

    [quiet m]: [m] does not throw an [InvalidInputException]. *)
Definition quiet {A} (m : M W A) : Prop := ∀ w msg w', m w ≠ (Throw (InvalidInputException msg), w').

Record quiet_env : Prop := {
  qe_post req : quiet (Post (cx_http context) req);
  qe_sleep ms : quiet (cx_sleep context ms);
  qe_now : quiet (cx_now_s context);
  qe_register e : quiet (cx_RegisterSecret context e);
  qe_steady : quiet (de_steady_now env);
  qe_stderr text : quiet (de_stderr env text);
  qe_skew : quiet (ReadRenewSkew context);
  (* reading the clock leaves the secrets alone *)
  qe_frame name w now w' : cx_now_s context w = (Ret now, w') →
    cx_GetSecretByName context name w' = cx_GetSecretByName context name w;
}.

Lemma quiet_ret {A} (a : A) : quiet (mret a).
Proof. by intros w msg w'. Qed.
Lemma quiet_io {A} msg : quiet (throw (IOException msg) : M W A).
Proof. by intros w msg' w'. Qed.
Lemma quiet_lift {A} (m : exc A) : (∀ e, m ≠ Throw e) → quiet (lift m).
Proof. intros Hm w msg w' Heq. injection Heq as Hr _. by eapply Hm. Qed.
Lemma quiet_bind {A B} (m : M W A) (f : A → M W B) : quiet m → (∀ a, quiet (f a)) → quiet (m ≫= f).
Proof.
  intros Hm Hf w msg w'. unfold mbind, M_bind. destruct (m w) as [[a|e|] w1] eqn:E; [apply Hf| |done].
  intros [= -> ->]. by eapply Hm.
Qed.
Lemma i64_ok_no_throw z e : i64_ok z ≠ Throw e.
Proof. unfold i64_ok. by case_match. Qed.
Lemma expiry_text_no_throw now x e : expiry_text now x ≠ Throw e.
Proof.
  unfold expiry_text. pose proof (i64_ok_no_throw (now + x)) as H'. destruct (i64_ok (now + x)); [|naive_solver|done].
  simpl. unfold FormatUtcIso8601. by case_match.
Qed.
Lemma poll_deadline_no_throw start l e : poll_deadline start l ≠ Throw e.
Proof.
  unfold poll_deadline. pose proof (i64_ok_no_throw (l * 1000000000)) as H'.
  destruct (i64_ok _); [|naive_solver|done]. apply i64_ok_no_throw.
Qed.

Context (Hquiet : quiet_env).
Hint Resolve quiet_ret quiet_io quiet_lift i64_ok_no_throw expiry_text_no_throw poll_deadline_no_throw : quiet.
Hint Extern 1 (quiet (cx_sleep _ _)) => apply (qe_sleep Hquiet) : quiet.
Hint Extern 1 (quiet (cx_now_s _)) => apply (qe_now Hquiet) : quiet.
Hint Extern 1 (quiet (de_steady_now _)) => apply (qe_steady Hquiet) : quiet.
Hint Extern 1 (quiet (de_stderr _ _)) => apply (qe_stderr Hquiet) : quiet.
Hint Extern 1 (quiet (cx_RegisterSecret _ _)) => apply (qe_register Hquiet) : quiet.
Hint Extern 1 (∀ e, _ ≠ Throw e) => by intros ? : quiet.
Ltac quiet := repeat first [solve [eauto with quiet] | apply quiet_bind; [|intros ?]].

Lemma quiet_post req : quiet (Post (flow_http context) req).
Proof.
  cbn [flow_http Post RetryingHttpClient]. unfold RunWithRetries. apply quiet_bind; [apply (qe_post Hquiet)|].
  intros r. simpl. destruct (negb _); quiet. apply (qe_post Hquiet).
Qed.
Hint Resolve quiet_post : quiet.

Lemma quiet_persist entry kv at_ iso rt :
  quiet (PersistTokenFields context (mkSecretAccessor (Some entry) (Some kv)) at_ iso rt).
Proof. unfold PersistTokenFields. cbn [sa_kv sa_entry defined]. quiet. Qed.
Hint Resolve quiet_persist : quiet.

Lemma quiet_poll_loop fuel te ci cs dc deadline interval :
  quiet (poll_loop context env fuel te ci cs dc deadline interval).
Proof.
  revert interval. induction fuel as [|fuel IH]; intros interval; cbn [poll_loop]; [quiet|].
  apply quiet_bind; [quiet|]. intros now. destruct (negb _); [quiet|]. apply quiet_bind; [quiet|]. intros _.
  apply quiet_bind; [unfold PollDeviceTokenEndpoint; destruct (_ || _ || _); quiet|].
  intros p. destruct (dp_outcome p); quiet.
Qed.
Hint Resolve quiet_poll_loop : quiet.

(** A flow whose fields are present does not complain about the secret. *)
Section ready.
Context (name : string) (w : W) (entry : SecretEntry) (kv : KeyValueSecret).
Context (Hname : name ≠ "") (Hget : cx_GetSecretByName context name w = Some entry).
Context (Hkv : se_secret entry = Some kv) (Htype : kv_type kv = "quack_oauth").
Let accessor := mkSecretAccessor (Some entry) (Some kv).
Let view := client_secret_view accessor.

Lemma open_ready fn : OpenSecret context name (Some "quack_oauth") fn w = (Ret accessor, w).
Proof. apply OpenSecret_Ret. split_and!; [done|done|]. by exists entry, kv. Qed.

(** Reduce a flow to what follows its guards. *)
Lemma bind_ready {A B} (m : M W A) (a : A) (f : A → M W B) msg w' :
  m w = (Ret a, w) → quiet (f a) → (m ≫= f) w ≠ (Throw (InvalidInputException msg), w').
Proof. intros Hm Hf. unfold mbind, M_bind. rewrite Hm. apply Hf. Qed.

Lemma DoRefresh_ready msg w' : refreshable view → DoRefresh context name w ≠ (Throw (InvalidInputException msg), w').
Proof.
  unfold refreshable, view, client_secret_view. cbn [cv_refresh_token cv_token_endpoint cv_client_id cv_client_secret cv_device_authorization_endpoint].
  intros (Hr & Ht & _). eapply bind_ready; [apply open_ready|]. cbv beta zeta.
  rewrite (proj2 (sempty_false _) Ht), (proj2 (sempty_false _) Hr). apply quiet_bind.
  - unfold AcquireTokenRefreshToken. destruct (_ || _); quiet.
  - intros [tok|]; quiet.
Qed.

Lemma DoLogin_ready msg w' : has_credentials view → DoLogin context name w ≠ (Throw (InvalidInputException msg), w').
Proof.
  unfold has_credentials, view, client_secret_view. cbn [cv_refresh_token cv_token_endpoint cv_client_id cv_client_secret cv_device_authorization_endpoint].
  intros (Hi & Hs & Ht). eapply bind_ready; [apply open_ready|]. cbv beta zeta.
  rewrite (proj2 (sempty_false _) Ht), (proj2 (sempty_false _) Hi), (proj2 (sempty_false _) Hs). apply quiet_bind.
  - unfold AcquireTokenClientCredentials. destruct (_ || _); quiet.
  - intros [tok|]; quiet.
Qed.

Lemma DoDeviceLogin_ready msg w' :
  has_device view → DoDeviceLoginImpl context env name w ≠ (Throw (InvalidInputException msg), w').
Proof.
  unfold has_device, view, client_secret_view. cbn [cv_refresh_token cv_token_endpoint cv_client_id cv_client_secret cv_device_authorization_endpoint].
  intros (Hi & Ht & Hd). eapply bind_ready; [apply open_ready|]. cbv beta zeta.
  rewrite (proj2 (sempty_false _) Ht), (proj2 (sempty_false _) Hi), (proj2 (sempty_false _) Hd). apply quiet_bind.
  - unfold RequestDeviceAuthorization. destruct (_ || _); quiet.
  - intros [auth|]; [|quiet]. unfold EmitUserNotice. repeat (apply quiet_bind; [quiet|intros ?]).
    destruct a2 as [p|]; [|quiet]. destruct (dp_tokens p); quiet.
Qed.
End ready.

(** Claim C28.  Acquiring complains about its argument (an
    [InvalidInputException]) only when the name is empty, the secret cannot be
    opened, or it is usable for no flow at all; once the ladder has picked a flow
    every later failure is an I/O error.  In particular the ladder never starts a
    flow that then rejects the secret as incomplete. *)
Theorem acquire_invalid_input name w msg w' :
  DoAcquire context env name w = (Throw (InvalidInputException msg), w') →
  name = "" ∨
  LoadClientSecretView context name w = (Throw (InvalidInputException msg), w) ∨
  ∃ view now skew, LoadClientSecretView context name w = (Ret view, w) ∧
    ¬ fresh view now skew ∧ ¬ refreshable view ∧ ¬ has_credentials view ∧ ¬ has_device view.
Proof.
  unfold DoAcquire. destruct (sempty name) eqn:Hn; [apply sempty_true in Hn; by left|].
  apply sempty_false in Hn. intros Hacq. right. revert Hacq.
  destruct (LoadClientSecretView context name w) as [[view|e|] w0] eqn:Hload; rewrite M_bind_eq, Hload;
    [|intros [= -> ->]; left|done].
  2: { revert Hload. unfold LoadClientSecretView, OpenSecret. destruct (sempty name); [by intros [= <- <-]|].
       rewrite !M_bind_eq. unfold gets. destruct (cx_GetSecretByName context name w) as [en|]; [|by intros [= <- <-]].
       destruct (se_secret en) as [kv|]; [|by intros [= <- <-]].
       destruct (negb _); [by intros [= <- <-]|done]. }
  pose proof Hload as (acc & w1 & (_ & -> & entry & kv & He & Hkv & Ht & ->)%OpenSecret_Ret & [= <- <-])%M_bind_Ret.
  rewrite M_bind_eq. destruct (cx_now_s context w) as [[now|e|] w1] eqn:Hnow;
    [|intros [= -> ->]; by destruct (qe_now Hquiet _ _ _ Hnow)|done].
  pose proof (qe_frame Hquiet name _ _ _ Hnow) as Hget. rewrite He in Hget.
  rewrite M_bind_eq. destruct (ReadRenewSkew context w1) as [[skew|e|] w2] eqn:Hskew;
    [|intros [= -> ->]; by destruct (qe_skew Hquiet _ _ _ Hskew)|done].
  assert (w2 = w1) as ->.
  { apply M_bind_Ret in Hskew as (v & w3 & [= _ <-] & Hs). destruct v as [v|]; [|by injection Hs].
    destruct (dv_IsNull v); [by injection Hs|]. by apply lift_Ret in Hs as [_ ->]. }
  set (view := client_secret_view _) in *. pose proof (DecideAcquireFlow_ladder view now skew) as Hl.
  assert (∀ g fname, (∀ msg w', run_grant g name w1 ≠ (Throw (InvalidInputException msg), w')) →
    RunFlowAndReadToken context (run_grant g) fname name w1 ≠ (Throw (InvalidInputException msg), w')) as Hrun.
  { intros g fname Hq. unfold RunFlowAndReadToken. rewrite M_bind_eq.
    destruct (run_grant g name w1) as [[iso|e|] w3] eqn:Hf1; [|intros [= -> ->]; by eapply Hq|done].
    apply run_grant_done, flow_done_secret in Hf1 as (? & kv' & ? & ? & ? & ? & _ & _ & Ht' & _ & _ & _ & He').
    unfold LoadClientSecretView. rewrite !M_bind_eq, (open_ready name w3 _ _ Hn He' eq_refl Ht'). simpl. by destruct (sempty _). }
  destruct (ad_flow (DecideAcquireFlow view now skew)).
  - done.
  - intros Hx. exfalso. revert Hx. apply (Hrun by_refresh). intros msg' w''.
    apply (DoRefresh_ready name w1 entry kv Hn Hget Hkv Ht), Hl.
  - intros Hx. exfalso. revert Hx. apply (Hrun by_credentials). intros msg' w''.
    apply (DoLogin_ready name w1 entry kv Hn Hget Hkv Ht), Hl.
  - intros Hx. exfalso. revert Hx. apply (Hrun by_device). intros msg' w''.
    apply (DoDeviceLogin_ready name w1 entry kv Hn Hget Hkv Ht), Hl.
  - intros _. right. exists view, now, skew. split; [done|]. naive_solver.
Qed.
End flows.

(** ** Evaluations: a world with a clock, a network that answers from a list, and a
    map of secrets *)
Record tworld : Type := mkTworld {
  tw_ns : Z;
  tw_hits : Z;
  tw_answers : list Response;
  tw_secrets : gmap string (@SecretEntry toy_duck);
}.

Definition tw_get (name : string) (w : tworld) : option (@SecretEntry toy_duck) :=
  e ← tw_secrets w !! name;
  match se_secret e with
  | Some kv => if seqb (kv_name kv) name then Some e else None
  | None => Some e
  end.
Definition tw_register (e : @SecretEntry toy_duck) : M tworld unit := λ w,
  match se_secret e with
  | Some kv => (Ret tt, mkTworld (tw_ns w) (tw_hits w) (tw_answers w) (<[kv_name kv := e]> (tw_secrets w)))
  | None => (Ret tt, w)
  end.
Definition tw_post (req : PostRequest) : M tworld (option Response) := λ w,
  (Ret (head (tw_answers w)), mkTworld (tw_ns w + 1) (tw_hits w + 1) (tail (tw_answers w)) (tw_secrets w)).
Definition tw_sleep (ms : Z) : M tworld unit := λ w,
  (Ret tt, mkTworld (tw_ns w + ms * 1000000) (tw_hits w) (tw_answers w) (tw_secrets w)).

Definition toy_client : @ClientContext toy_duck tworld :=
  @mkClientContext toy_duck tworld (λ _ _, None) tw_get tw_register (λ _, mret None) (λ _ _, mret Executed)
    (λ _ _, mret tt) (mkHttp (λ _, mret None) tw_post) tw_sleep (gets (λ w, tw_ns w `div` 1000000000)).
Definition toy_env : DeviceEnv tworld := mkDeviceEnv (gets tw_ns) (λ _, mret tt).

Definition toy_cli (fields : gmap string dval) : gmap string (@SecretEntry toy_duck) :=
  {["cli" := @mkSecretEntry toy_duck (Some (@mkKeyValueSecret toy_duck [] "quack_oauth" "config" "cli" fields ∅)) "" ""]}.
Definition toy_device_fields : gmap string dval :=
  {["client_id" := DStr "id"; "token_endpoint" := DStr "https://idp/token";
    "device_authorization_endpoint" := DStr "https://idp/device"]}.
Definition toy_device_world : tworld :=
  mkTworld 1700000000000000000 0
    [mkResponse 200 "device"; mkResponse 400 "pending"; mkResponse 400 "slow"; mkResponse 200 "token"]
    (toy_cli toy_device_fields).

(** One authorization, three polls after 5, 5 and 10 seconds; the token is then reused. *)
Example toy_acquire :
  (let '(r, w) := DoAcquire (H:=toy_json) toy_client toy_env "cli" toy_device_world in
   (r, tw_ns w - tw_ns toy_device_world, tw_hits w,
    (λ k, (k, dval_ToString <$> (secret_in toy_client "cli" w ≫= λ kv, secret_map kv !! k))) <$> ["access_token"; "expires_at"],
    let '(r2, w2) := DoAcquire (H:=toy_json) toy_client toy_env "cli" w in (r2, tw_hits w2))) =
  (Ret "tok", 20000000004, 4, [("access_token", Some "tok"); ("expires_at", Some "2023-11-14T23:13:40Z")],
   (Ret "tok", 4)).
Proof. vm_compute. reflexivity. Qed.

Lemma toy_store : secret_store_ok toy_client.
Proof.
  split.
  - intros e kv w w' Hreg Hkv. cbn in Hreg. unfold tw_register in Hreg. rewrite Hkv in Hreg. injection Hreg as <-.
    cbn. unfold tw_get. cbn [tw_secrets]. rewrite lookup_insert_eq. simpl. by rewrite Hkv, seqb_refl.
  - intros name e kv w. cbn. unfold tw_get. intros (e' & _ & He)%bind_Some Hkv.
    destruct (se_secret e') as [kv'|] eqn:Hkv'; [|congruence].
    destruct (seqb (kv_name kv') name) eqn:Hn; [|done]. apply seqb_true in Hn. congruence.
Qed.

Lemma toy_poll_env : poll_env_ok toy_client toy_env tw_ns tw_hits.
Proof.
  split.
  - intros w. exists (tw_ns w), w. split_and!; [done|lia|lia|done].
  - intros ms w Hms. eexists. split; [reflexivity|]. simpl. lia.
  - intros req w. eexists _, _. split; [reflexivity|]. simpl. lia.
Qed.

Lemma toy_quiet : quiet_env toy_client toy_env.
Proof.
  split; try (intros; intros w msg w'; done).
  - intros [[kv|] ? ?] w msg w'; done.
  - intros name w now w' [= _ <-]. done.
Qed.

Lemma device_polling_terminates_witness :
  let auth := mkDeviceAuthorizationResponse "dc" "UC-1" "https://idp/dev" "" 60 7 in
  let w := mkTworld 0 0 [] ∅ in
  poll_deadline 0 (poll_lifetime auth) = Ret 60000000000 ∧
  ∃ r w', poll_loop (H:=toy_json) toy_client toy_env (poll_fuel 60) "te" "id" "" "dc" 60000000000 7 w = (r, w') ∧
    r ≠ Stuck ∧ tw_hits w' ≤ 18.
Proof.
  intros auth w. assert (poll_deadline 0 (poll_lifetime auth) = Ret 60000000000) as Hd by (vm_compute; reflexivity).
  split; [exact Hd|].
  destruct (device_polling_terminates (H:=toy_json) toy_client toy_env tw_ns tw_hits toy_poll_env "te" "id" "" auth 0 60000000000 w
    Hd ltac:(cbn; lia) ltac:(vm_compute; reflexivity)) as (r & w' & Hr & Hs & Hh & _).
  exists r, w'. split; [exact Hr|]. split; [exact Hs|exact Hh].
Defined.

Lemma token_fields_only_witness :
  (∃ iso w' kv access refresh expires_at wp kv', DoDeviceLoginImpl (H:=toy_json) toy_client toy_env "cli" toy_device_world = (Ret iso, w') ∧
     answered (H:=toy_json) toy_client by_device kv toy_device_world access refresh expires_at wp ∧
     secret_in toy_client "cli" w' = Some kv' ∧ secret_map kv' !! "access_token" = Some (DStr access) ∧
     secret_map kv' !! "client_id" = secret_map kv !! "client_id") ∧
  ∃ kv', secret_in toy_client "cli" (snd (DoLogout toy_client "cli" toy_device_world)) = Some kv' ∧
    secret_map kv' !! "access_token" = None ∧ secret_map kv' !! "client_id" = Some (DStr "id").
Proof.
  split.
  - destruct (DoDeviceLoginImpl (H:=toy_json) toy_client toy_env "cli" toy_device_world) as [r w'] eqn:Hrun.
    assert (r = Ret "2023-11-14T23:13:40Z") as -> by (vm_compute in Hrun; congruence).
    destruct (proj1 (token_fields_only (H:=toy_json) toy_client toy_env toy_store "cli" toy_device_world) by_device _ w' Hrun)
      as (entry & kv & access & refresh & ex & wp & entry' & kv' & _ & _ & Ha & _ & He' & Hkv' & _ & _ & _ & Hk).
    exists "2023-11-14T23:13:40Z", w', kv, access, refresh, ex, wp, kv'. split; [reflexivity|]. split; [exact Ha|].
    split; [unfold secret_in; by rewrite He'|]. rewrite !Hk. split; reflexivity.
  - destruct (DoLogout toy_client "cli" toy_device_world) as [r w'] eqn:Hrun.
    assert (r = Ret true) as -> by (vm_compute in Hrun; congruence).
    destruct (proj2 (token_fields_only (H:=toy_json) toy_client toy_env toy_store "cli" toy_device_world) true w' Hrun) as (_ & kv & kv' & Hkv & Hkv' & _ & Hk).
    exists kv'. split; [exact Hkv'|]. rewrite !Hk. split; [reflexivity|].
    assert (option_map secret_map (secret_in toy_client "cli" toy_device_world) = Some toy_device_fields) as Hf
      by (vm_compute; reflexivity).
    rewrite Hkv in Hf. injection Hf as Hf. simpl. rewrite Hf. reflexivity.
Defined.

Lemma acquired_token_reused_witness :
  ∃ iso w', DoDeviceLoginImpl (H:=toy_json) toy_client toy_env "cli" toy_device_world = (Ret iso, w') ∧
    ∃ kv access refresh expires_at wp,
      answered (H:=toy_json) toy_client by_device kv toy_device_world access refresh expires_at wp ∧
      (1700000020 + 60 < expires_at < year_10000 →
       DoAcquire (H:=toy_json) toy_client toy_env "cli" w' = (Ret access, w')).
Proof.
  assert (let '(r, w') := DoDeviceLoginImpl (H:=toy_json) toy_client toy_env "cli" toy_device_world in
          r = Ret "2023-11-14T23:13:40Z" ∧ tw_ns w' = 1700000020000000004) as Heval
    by (vm_compute; split; reflexivity).
  destruct (DoDeviceLoginImpl (H:=toy_json) toy_client toy_env "cli" toy_device_world) as [r w'] eqn:Hrun.
  destruct Heval as [-> Hns].
  destruct (acquired_token_reused (H:=toy_json) toy_client toy_env toy_store (H1:=toy_duck_laws) by_device "cli"
    toy_device_world "2023-11-14T23:13:40Z" w' Hrun) as (kv & access & refresh & ex & wp & _ & Ha & Huse).
  eexists _, w'. split; [reflexivity|]. exists kv, access, refresh, ex, wp. split; [exact Ha|].
  intros Hlt. destruct (Huse ltac:(lia) w' w' 1700000020 60 eq_refl) as [Hdo _].
  - cbn. unfold gets. rewrite Hns. reflexivity.
  - reflexivity.
  - exact (Hdo Hlt).
Defined.

Lemma acquire_sound_witness :
  ∃ w', DoAcquire (H:=toy_json) toy_client toy_env "cli" toy_device_world = (Ret "tok", w') ∧ "tok" ≠ "".
Proof.
  destruct (DoAcquire (H:=toy_json) toy_client toy_env "cli" toy_device_world) as [r w'] eqn:Hrun.
  assert (r = Ret "tok") as -> by (vm_compute in Hrun; congruence).
  exists w'. split; [reflexivity|]. exact (proj1 (acquire_sound (H:=toy_json) toy_client toy_env "cli" _ _ _ Hrun)).
Defined.

Lemma acquire_invalid_input_witness :
  let w := mkTworld 0 0 [] (toy_cli {["client_id" := DStr "id"]}) in
  ∃ msg w', DoAcquire (H:=toy_json) toy_client toy_env "cli" w = (Throw (InvalidInputException msg), w') ∧
    ∃ view now skew, LoadClientSecretView toy_client "cli" w = (Ret view, w) ∧ ¬ fresh view now skew ∧ ¬ refreshable view.
Proof.
  intros w. destruct (DoAcquire (H:=toy_json) toy_client toy_env "cli" w) as [r w'] eqn:Hrun.
  destruct r as [tok|[msg|msg|msg|]|]; try (vm_compute in Hrun; discriminate Hrun).
  exists msg, w'. split; [reflexivity|].
  destruct (acquire_invalid_input (H:=toy_json) toy_client toy_env toy_store toy_quiet "cli" w msg w' Hrun)
    as [Hn|[Hl|(view & now & skew & Hv & Hf & Hr & _)]]; [discriminate Hn|vm_compute in Hl; discriminate Hl|].
  exists view, now, skew. split; [exact Hv|]. split; [exact Hf|exact Hr].
Defined.
