(* ===== verification/PolicyTable.v ===== *)
(** * The policy table ([src/policy_table.cpp]) and SQL text

    Quoting of names and literals spliced into SQL, and the loader that turns the
    rows of the operator's table into a policy document. *)
From S2P Require Import Prelude CppString StdList DecisionCache Http UrlGuard Policy DuckDb.

(** ** Quoting *)
Definition dquote : ascii := "034"%char.
Definition squote : ascii := "'"%char.

(** Every [q] doubled. *)
Definition double (q : ascii) (l : list ascii) : list ascii :=
  mjoin ((λ c, if is_char q c then [q; q] else [c]) <$> l).

Definition quote_segment (segment : list ascii) : list ascii := dquote :: double dquote segment ++ [dquote].

(** The character loop with its [flush]. *)
Fixpoint qualified_loop (l segment out : list ascii) : list ascii :=
  match l with
  | [] => out ++ quote_segment segment
  | c :: l =>
      if is_char "." c then qualified_loop l [] (out ++ quote_segment segment ++ ["."%char])
      else qualified_loop l (segment ++ [c]) out
  end.
Definition QuoteQualifiedIdentifier (qualified : string) : string := of_chars (qualified_loop (chars qualified) [] []).

Definition EscapeSingleQuotes (str : string) : string := of_chars (double squote (chars str)).

(** ** Columns *)
Record ColumnLayout : Type := mkColumnLayout {
  priority_idx : Z;
  subject_idx : Z;
  any_scope_idx : Z;
  actions_idx : Z;
  object_pattern_idx : Z;
  column_pattern_idx : Z;
  allow_idx : Z;
}.
Definition ColumnLayout_default : ColumnLayout := mkColumnLayout (-1) (-1) (-1) (-1) (-1) (-1) (-1).

Definition set_column (layout : ColumnLayout) (name : string) (i : Z) : ColumnLayout :=
  let 'mkColumnLayout p s a ac o c al := layout in
  if seqb name "priority" then mkColumnLayout i s a ac o c al
  else if seqb name "subject" then mkColumnLayout p i a ac o c al
  else if seqb name "any_scope" then mkColumnLayout p s i ac o c al
  else if seqb name "actions" then mkColumnLayout p s a i o c al
  else if seqb name "object_pattern" then mkColumnLayout p s a ac i c al
  else if seqb name "column_pattern" then mkColumnLayout p s a ac o i al
  else if seqb name "allow" then mkColumnLayout p s a ac o c i
  else layout.

Section load.
Context `{!DuckValues}.

(** [row.GetValue(i)]. *)
Definition GetValue (row : list DValue) (i : nat) : exc DValue := defined (row !! i).

(** The loop over the column names, with its running index. *)
Definition layout_of (rows : list (list DValue)) : exc (ColumnLayout * Z) :=
  exc_fold (λ '(layout, i) row,
    v ← GetValue row 0;
    if dv_IsNull v then Ret (layout, i + 1)
    else name ← dv_string v; Ret (set_column layout name i, i + 1)) (ColumnLayout_default, 0) rows.

Definition NormalisePattern (v : DValue) : exc (option string) :=
  if dv_IsNull v then Ret None
  else s ← dv_string v; Ret (if sempty s then None else Some (of_chars (tolower <$> chars s))).

(** [any_scope]: NULL is the empty list and NULL elements are skipped. *)
Definition list_strings (v : DValue) : exc (list string) :=
  if dv_IsNull v then Ret []
  else
    children ← dv_children v;
    exc_fold (λ acc v, if dv_IsNull v then Ret acc else s ← dv_string v; Ret (acc ++ [s])) [] children.

(** [actions]: [None] once a name is unknown, which returns from the loader. *)
Definition parse_actions (v : DValue) : exc (option (list Action)) :=
  if dv_IsNull v then Ret (Some [])
  else
    children ← dv_children v;
    exc_fold (λ acc v, match acc with
      | None => Ret None
      | Some l => if dv_IsNull v then Ret (Some l)
          else s ← dv_string v; Ret (match ActionFromString s with Some a => Some (l ++ [a]) | None => None end)
      end) (Some []) children.

Definition parse_row (obj_pos col_pos : option nat) (row : list DValue) : exc (option PolicyRule) :=
  subject_v ← GetValue row 1;
  any_scope_v ← GetValue row 2;
  actions_v ← GetValue row 3;
  allow_v ← GetValue row 4;
  if dv_IsNull allow_v then Ret None
  else
    allow ← dv_bool allow_v;
    subject ← (if dv_IsNull subject_v then Ret None else s ← dv_string subject_v; Ret (Some s));
    any_scope ← list_strings any_scope_v;
    actions ← parse_actions actions_v;
    match actions with
    | None => Ret None
    | Some actions =>
        object_pattern ← match obj_pos with Some i => v ← GetValue row i; NormalisePattern v | None => Ret None end;
        column_pattern ← match col_pos with Some i => v ← GetValue row i; NormalisePattern v | None => Ret None end;
        Ret (Some (mkPolicyRule subject any_scope actions object_pattern column_pattern allow))
    end.

Fixpoint parse_rows (obj_pos col_pos : option nat) (rows : list (list DValue)) (rules : list PolicyRule)
    : exc (option (list PolicyRule)) :=
  match rows with
  | [] => Ret (Some rules)
  | row :: rows =>
      rule ← parse_row obj_pos col_pos row;
      match rule with
      | None => Ret None
      | Some rule => parse_rows obj_pos col_pos rows (rules ++ [rule])
      end
  end.

Section effects.
Context {W : Type}.
Implicit Types context : ClientContext W.

Definition columns_sql (qualified_table : string) : string :=
  "SELECT lower(name) AS n FROM pragma_table_info('" +:+ EscapeSingleQuotes qualified_table +:+ "') ORDER BY cid".

Definition DiscoverColumns context (qualified_table : string) : M W (option ColumnLayout) :=
  result ← cx_Query context (columns_sql qualified_table);
  match result with
  | None => mret None
  | Some rows =>
      '(layout, _) ← lift (layout_of rows);
      mret (if (priority_idx layout <? 0) || (allow_idx layout <? 0) then None else Some layout)
  end.

Definition rows_sql (layout : ColumnLayout) (qualified_table : string) : string :=
  "SELECT priority, subject, any_scope, actions, allow"
  +:+ (if 0 <=? object_pattern_idx layout then ", object_pattern" else "")
  +:+ (if 0 <=? column_pattern_idx layout then ", column_pattern" else "")
  +:+ " FROM " +:+ QuoteQualifiedIdentifier qualified_table +:+ " ORDER BY priority".

Definition obj_pos_of (layout : ColumnLayout) : option nat :=
  if 0 <=? object_pattern_idx layout then Some 5%nat else None.
Definition col_pos_of (layout : ColumnLayout) : option nat :=
  if 0 <=? column_pattern_idx layout then
    Some (match obj_pos_of layout with Some _ => 6%nat | None => 5%nat end)
  else None.

Definition LoadPolicyFromTable context (qualified_table : string) : M W (option PolicyDocument) :=
  if sempty qualified_table then mret None
  else
    layout ← DiscoverColumns context qualified_table;
    match layout with
    | None => mret None
    | Some layout =>
        result ← cx_Query context (rows_sql layout qualified_table);
        match result with
        | None => mret None
        | Some rows =>
            rules ← lift (parse_rows (obj_pos_of layout) (col_pos_of layout) rows []);
            mret ((λ rules, mkPolicyDocument rules false) <$> rules)
        end
    end.
End effects.
End load.

(** ** Reading SQL back *)

(** The SQL lexer's rule for a quoted token, after its opening quote: a doubled
    quote is a quote, a single one ends the token. *)
Fixpoint read_quoted (q : ascii) (l : list ascii) : option (list ascii * list ascii) :=
  match l with
  | [] => None
  | c :: l1 =>
      if is_char q c then
        match l1 with
        | d :: l2 => if is_char q d then prod_map (q ::.) id <$> read_quoted q l2 else Some ([], l1)
        | [] => Some ([], [])
        end
      else prod_map (c ::.) id <$> read_quoted q l1
  end.

(** A qualified name: quoted identifiers separated by dots. *)
Fixpoint read_name (fuel : nat) (l : list ascii) : option (list (list ascii) * list ascii) :=
  match fuel with
  | O => None
  | S fuel =>
      match l with
      | c :: l =>
          if is_char dquote c then
            '(segment, rest) ← read_quoted dquote l;
            match rest with
            | d :: rest' =>
                if is_char "." d then prod_map (segment ::.) id <$> read_name fuel rest' else Some ([segment], rest)
            | [] => Some ([segment], [])
            end
          else None
      | [] => None
      end
  end.

(** The parts of a name between its dots. *)
Fixpoint split_dots (l segment : list ascii) : list (list ascii) :=
  match l with
  | [] => [segment]
  | c :: l => if is_char "." c then segment :: split_dots l [] else split_dots l (segment ++ [c])
  end.

Definition not_continued (q : ascii) (rest : list ascii) : Prop :=
  match rest with [] => True | c :: _ => is_char q c = false end.

Lemma read_quoted_double q l rest :
  not_continued q rest → read_quoted q (double q l ++ q :: rest) = Some (l, rest).
Proof.
  intros Hr. assert (is_char q q = true) as Hqq by by apply is_char_true.
  induction l as [|c l IH].
  - change (double q [] ++ q :: rest) with (q :: rest). cbn [read_quoted]. rewrite Hqq.
    destruct rest as [|d rest]; [done|]. simpl in Hr. by rewrite Hr.
  - change (double q (c :: l)) with ((if is_char q c then [q; q] else [c]) ++ double q l). destruct (is_char q c) eqn:Hc.
    + apply is_char_true in Hc as ->. cbn [app read_quoted]. by rewrite Hqq, IH.
    + cbn [app read_quoted]. by rewrite Hc, IH.
Qed.

Lemma qualified_loop_out l segment out :
  qualified_loop l segment out = out ++ qualified_loop l segment [].
Proof.
  revert segment out. induction l as [|c l IH]; intros segment out; cbn [qualified_loop]; [done|].
  destruct (is_char "." c); [|apply IH].
  rewrite IH, (IH _ ([] ++ _)). by rewrite app_nil_l, !app_assoc.
Qed.

Lemma read_name_quoted l segment rest fuel :
  not_continued dquote rest → not_continued "." rest → (length l < fuel)%nat →
  read_name fuel (qualified_loop l segment [] ++ rest) = Some (split_dots l segment, rest).
Proof.
  intros Hq Hd. revert segment fuel. induction l as [|c l IH]; intros segment [|fuel] Hf; simpl in Hf; try lia.
  - cbn [qualified_loop split_dots]. rewrite app_nil_l. unfold quote_segment. cbn [app read_name].
    simpl (is_char dquote dquote). cbv iota. rewrite <-app_assoc. cbn [app].
    rewrite read_quoted_double by done. cbn. destruct rest as [|d rest]; [done|]. simpl in Hd. by rewrite Hd.
  - cbn [qualified_loop split_dots]. destruct (is_char "." c).
    + rewrite qualified_loop_out, app_nil_l. unfold quote_segment. cbn [app read_name].
      simpl (is_char dquote dquote). cbv iota. rewrite <-!app_assoc. cbn [app].
      rewrite read_quoted_double by done. cbn. by rewrite IH by lia.
    + apply IH. lia.
Qed.

(** Claim C24.  No table name can inject SQL: in the text the code splices, the
    quoted name reads back as exactly the parts of the configured name between its
    dots, and the escaped literal as the whole name, whatever follows, up to a
    character that would continue the token. *)
Theorem sql_names_roundtrip name rest :
  not_continued dquote rest → not_continued "." rest → not_continued squote rest →
  read_name (S (String.length name)) (chars (QuoteQualifiedIdentifier name) ++ rest)
    = Some (split_dots (chars name) [], rest) ∧
  read_quoted squote (chars (EscapeSingleQuotes name) ++ squote :: rest) = Some (chars name, rest).
Proof.
  intros Hq Hd Hs. unfold QuoteQualifiedIdentifier, EscapeSingleQuotes. rewrite !chars_of_chars. split.
  - apply read_name_quoted; [done|done|]. rewrite length_chars. lia.
  - by apply read_quoted_double.
Qed.

Lemma sql_names_roundtrip_witness :
  read_name 20 (chars (QuoteQualifiedIdentifier "main.t; DROP") ++ chars " ORDER BY priority")
    = Some ([chars "main"; chars "t; DROP"], chars " ORDER BY priority").
Proof.
  destruct (sql_names_roundtrip "main.t; DROP" (chars " ORDER BY priority")) as [H _];
    [reflexivity|reflexivity|reflexivity|].
  revert H. vm_compute. intros H. exact H.
Defined.

(** ** The loaded document *)
Lemma ActionFromString_name s a : ActionFromString s = Some a → ActionName a = s.
Proof.
  unfold ActionFromString. repeat (destruct (seqb s _) eqn:Hs;
    [apply seqb_true in Hs; intros; by simplify_eq/=|clear Hs]). done.
Qed.

Section loaded.
Context `{!DuckValues}.

(** What one row of the table says: the rule it stands for. *)
Record row_means (obj_pos col_pos : option nat) (row : list DValue) (rule : PolicyRule) : Prop := {
  rm_allow : ∃ v, row !! 4%nat = Some v ∧ dv_IsNull v = false ∧ dv_bool v = Ret (ru_allow rule);
  rm_subject : ∃ v, row !! 1%nat = Some v ∧
    match ru_subject rule with
    | None => dv_IsNull v = true
    | Some s => dv_IsNull v = false ∧ dv_string v = Ret s end;
  rm_scope : ∃ v, row !! 2%nat = Some v ∧ list_strings v = Ret (ru_any_scope rule);
  rm_actions : ∃ v names, row !! 3%nat = Some v ∧ list_strings v = Ret names ∧
    names = ActionName <$> ru_actions rule;
  rm_object : match obj_pos with
    | None => ru_object_pattern rule = None
    | Some i => ∃ v, row !! i = Some v ∧ NormalisePattern v = Ret (ru_object_pattern rule) end;
  rm_column : match col_pos with
    | None => ru_column_pattern rule = None
    | Some i => ∃ v, row !! i = Some v ∧ NormalisePattern v = Ret (ru_column_pattern rule) end;
}.

Lemma GetValue_Ret row i v : GetValue row i = Ret v ↔ row !! i = Some v.
Proof. apply defined_Ret. Qed.

Lemma parse_actions_Ret v l :
  parse_actions v = Ret (Some l) → list_strings v = Ret (ActionName <$> l).
Proof.
  unfold parse_actions, list_strings. destruct (dv_IsNull v); [by intros [= <-]|].
  intros (children & -> & Hf)%exc_bind_Ret. simpl.
  assert (∀ children acc l, exc_fold (λ acc v, match acc with
      | None => Ret None
      | Some l => if dv_IsNull v then Ret (Some l)
          else s ← dv_string v; Ret (match ActionFromString s with Some a => Some (l ++ [a]) | None => None end)
      end) acc children = Ret (Some l) →
    ∃ l0, acc = Some l0 ∧
      exc_fold (λ acc v, if dv_IsNull v then Ret acc else s ← dv_string v; Ret (acc ++ [s]))
        (ActionName <$> l0) children = Ret (ActionName <$> l)) as Hgen.
  { clear. induction children as [|v children IH]; intros acc l; cbn [exc_fold].
    - intros [= ->]. by exists l.
    - intros (acc' & Hacc & (l1 & -> & Hrest)%IH)%exc_bind_Ret. destruct acc as [l0|]; [|by simplify_eq/=].
      exists l0. split; [done|]. destruct (dv_IsNull v); [by simplify_eq/=|].
      apply exc_bind_Ret in Hacc as (s & -> & Hs). simpl. destruct (ActionFromString s) as [a|] eqn:Ha; [|done].
      simplify_eq. apply ActionFromString_name in Ha as <-. by rewrite fmap_app in Hrest. }
  destruct (Hgen _ _ _ Hf) as (l0 & [= <-] & Hk). exact Hk.
Qed.

Lemma parse_row_means obj_pos col_pos row rule :
  parse_row obj_pos col_pos row = Ret (Some rule) → row_means obj_pos col_pos row rule.
Proof.
  unfold parse_row. intros (sv & Hsv%GetValue_Ret & Hk)%exc_bind_Ret. revert Hk.
  intros (asv & Hasv%GetValue_Ret & Hk)%exc_bind_Ret. revert Hk.
  intros (acv & Hacv%GetValue_Ret & Hk)%exc_bind_Ret. revert Hk.
  intros (alv & Halv%GetValue_Ret & Hk)%exc_bind_Ret. revert Hk.
  destruct (dv_IsNull alv) eqn:Hnull; [done|].
  intros (allow & Hallow & (subject & Hsubject & (scope & Hscope & (actions & Hactions & Hk)%exc_bind_Ret)%exc_bind_Ret)%exc_bind_Ret)%exc_bind_Ret.
  destruct actions as [actions|]; [|done].
  apply exc_bind_Ret in Hk as (op & Hop & (cp & Hcp & [= <-])%exc_bind_Ret).
  split; simpl.
  - eauto.
  - exists sv. split; [done|]. destruct (dv_IsNull sv); [by simplify_eq/=|].
    apply exc_bind_Ret in Hsubject as (s & ? & [= <-]). done.
  - eauto.
  - exists acv, (ActionName <$> actions). split_and!; [done|by apply parse_actions_Ret|done].
  - destruct obj_pos; [|by simplify_eq/=]. apply exc_bind_Ret in Hop as (v & ?%GetValue_Ret & ?). eauto.
  - destruct col_pos; [|by simplify_eq/=]. apply exc_bind_Ret in Hcp as (v & ?%GetValue_Ret & ?). eauto.
Qed.

Lemma parse_rows_means obj_pos col_pos rows acc rules :
  parse_rows obj_pos col_pos rows acc = Ret (Some rules) →
  ∃ rules', rules = acc ++ rules' ∧ Forall2 (row_means obj_pos col_pos) rows rules'.
Proof.
  revert acc. induction rows as [|row rows IH]; intros acc; cbn [parse_rows].
  - intros [= ->]. exists []. by rewrite app_nil_r.
  - intros ([rule|] & Hrow & Hk)%exc_bind_Ret; [|done]. apply IH in Hk as (rules' & -> & Hrules).
    exists (rule :: rules'). rewrite <-app_assoc. split; [done|]. constructor; [by apply parse_row_means|done].
Qed.

(** Claim C21.  The loader fails closed: a document is returned only when both
    queries succeed and every row of the table is understood.  Then the rules are
    the rows in the order of the query, each with its own subject, scopes,
    patterns and verdict, and with exactly the action names of the row; a missing
    verdict or one unknown action name anywhere discards the whole policy. *)
Theorem policy_table_fail_closed {W} (context : ClientContext W) table doc w w' :
  LoadPolicyFromTable context table w = (Ret (Some doc), w') →
  ∃ layout w1 rows, DiscoverColumns context table w = (Ret (Some layout), w1) ∧
    cx_Query context (rows_sql layout table) w1 = (Ret (Some rows), w') ∧
    Forall2 (row_means (obj_pos_of layout) (col_pos_of layout)) rows (pd_rules doc) ∧
    pd_default_allow doc = false.
Proof.
  unfold LoadPolicyFromTable. destruct (sempty table); [done|].
  unfold mbind at 1, M_bind at 1. destruct (DiscoverColumns context table w) as [[[layout|]| |] w1] eqn:Hd; try done.
  unfold mbind at 1, M_bind at 1. destruct (cx_Query _ _ w1) as [[[rows|]| |] w2] eqn:Hq; try done.
  unfold mbind, M_bind, lift. destruct (parse_rows _ _ rows []) as [[rules|]| |] eqn:Hp; try done.
  intros [= <- <-]. exists layout, w1, rows. apply parse_rows_means in Hp as (rules' & -> & Hr).
  split_and!; [done|done|exact Hr|done].
Qed.
End loaded.

(** A context that answers the two queries of the loader. *)
Definition toy_policy_context (rows : list (list dval)) : @ClientContext toy_duck unit :=
  @mkClientContext toy_duck unit (λ _ _, None) (λ _ _, None) (λ _, mret tt)
    (λ sql, mret (Some (if starts_with "SELECT lower" sql
                        then [[DStr "priority"]; [DStr "subject"]; [DStr "any_scope"]; [DStr "actions"]; [DStr "allow"]]
                        else rows)))
    (λ _ _, mret (@Executed)) (λ _ _, mret tt) (mkHttp (λ _, mret None) (λ _, mret None)) (λ _, mret tt) (mret 0).
Definition toy_rows (action : string) : list (list dval) :=
  [[DInt 1; DNull; DList [DStr "quack:read"]; DList [DStr action]; DBool true]].

Lemma policy_table_fail_closed_witness :
  (∃ doc, @LoadPolicyFromTable toy_duck unit (toy_policy_context (toy_rows "Scan")) "main.p" tt = (Ret (Some doc), tt) ∧
     length (pd_rules doc) = 1%nat ∧ pd_default_allow doc = false) ∧
  @LoadPolicyFromTable toy_duck unit (toy_policy_context (toy_rows "scan")) "main.p" tt = (Ret None, tt).
Proof.
  split; [|vm_compute; reflexivity].
  exists (mkPolicyDocument [mkPolicyRule None ["quack:read"] [Scan] None None true] false).
  assert (@LoadPolicyFromTable toy_duck unit (toy_policy_context (toy_rows "Scan")) "main.p" tt =
    (Ret (Some (mkPolicyDocument [mkPolicyRule None ["quack:read"] [Scan] None None true] false)), tt)) as Hl
    by (vm_compute; reflexivity).
  destruct (@policy_table_fail_closed toy_duck unit _ _ _ _ _ Hl) as (_ & _ & _ & _ & _ & _ & Hd).
  split_and!; [exact Hl|reflexivity|exact Hd].
Defined.
