(* ===== verification/State.v ===== *)
(** * Process state, settings and the audit sink
    ([src/include/quack_oauth_state.hpp], [src/quack_oauth_state.cpp],
    [src/env_overrides.cpp], [src/settings.cpp], [src/audit_sink.cpp],
    [src/tracing_redact.cpp])

    The per-process singleton with its mutex, the callbacks of the settings that
    change it, and the three sinks of an audit event. *)
From S2P Require Import Prelude CppString StdList JwksCache Http DecisionCache AuditLog External.
From S2P Require Import UrlGuard Policy DuckDb PolicyTable.

(** ** The state *)
Record SessionPrincipal : Type := mkSessionPrincipal {
  sp_principal : Principal;
  sp_updated_at_s : Z;
}.

(** [st_mu]: the running thread holds the mutex; a thread that runs is one that no
    other thread's mutex keeps waiting. *)
Record QuackOauthState : Type := mkQuackOauthState {
  st_jwks_cache : JwksCache;
  st_decision_cache : DecisionCache;
  st_session_principals : gmap string SessionPrincipal;
  st_audit_ring : AuditRing;
  st_last_throttle_logged_s : gmap string Z;
  st_mu : bool;
}.

(** References to the members. *)
Definition jwks_cache_ref : Ref QuackOauthState JwksCache :=
  mkRef st_jwks_cache (λ x '(mkQuackOauthState _ d s a t m), mkQuackOauthState x d s a t m).
Definition decision_cache_ref : Ref QuackOauthState DecisionCache :=
  mkRef st_decision_cache (λ x '(mkQuackOauthState j _ s a t m), mkQuackOauthState j x s a t m).
Definition session_principals_ref : Ref QuackOauthState (gmap string SessionPrincipal) :=
  mkRef st_session_principals (λ x '(mkQuackOauthState j d _ a t m), mkQuackOauthState j d x a t m).
Definition audit_ring_ref : Ref QuackOauthState AuditRing :=
  mkRef st_audit_ring (λ x '(mkQuackOauthState j d s _ t m), mkQuackOauthState j d s x t m).
Definition last_throttle_logged_ref : Ref QuackOauthState (gmap string Z) :=
  mkRef st_last_throttle_logged_s (λ x '(mkQuackOauthState j d s a _ m), mkQuackOauthState j d s a x m).
Definition mu_ref : Ref QuackOauthState bool :=
  mkRef st_mu (λ x '(mkQuackOauthState j d s a t _), mkQuackOauthState j d s a t x).

#[export] Instance jwks_cache_ref_laws : RefLaws jwks_cache_ref.
Proof. split; intros; by repeat match goal with w : QuackOauthState |- _ => destruct w end. Qed.
#[export] Instance decision_cache_ref_laws : RefLaws decision_cache_ref.
Proof. split; intros; by repeat match goal with w : QuackOauthState |- _ => destruct w end. Qed.
#[export] Instance session_principals_ref_laws : RefLaws session_principals_ref.
Proof. split; intros; by repeat match goal with w : QuackOauthState |- _ => destruct w end. Qed.
#[export] Instance audit_ring_ref_laws : RefLaws audit_ring_ref.
Proof. split; intros; by repeat match goal with w : QuackOauthState |- _ => destruct w end. Qed.
#[export] Instance last_throttle_logged_ref_laws : RefLaws last_throttle_logged_ref.
Proof. split; intros; by repeat match goal with w : QuackOauthState |- _ => destruct w end. Qed.
#[export] Instance mu_ref_laws : RefLaws mu_ref.
Proof. split; intros; by repeat match goal with w : QuackOauthState |- _ => destruct w end. Qed.

(** ** [env_overrides.cpp] *)
Definition TrimAsciiWhitespace (s : string) : string := trim_back is_space (trim_front is_space s).

(** [std::getenv]: an unset variable is [None]. *)
Definition EnvString (getenv : string → option string) (name : string) : string :=
  match getenv name with None => "" | Some raw => TrimAsciiWhitespace raw end.

Definition EnvBoolOrDefault (getenv : string → option string) (name : string) (fallback : bool) : bool :=
  let v := lower_ascii (EnvString getenv name) in
  if sempty v then fallback
  else if seqb v "1" || seqb v "true" || seqb v "yes" || seqb v "on" then true
  else if seqb v "0" || seqb v "false" || seqb v "no" || seqb v "off" then false
  else fallback.

(** [stoll(v, &pos)] has consumed all of a string without leading white space
    when what follows the optional sign is only digits. *)
Definition all_consumed (v : string) : bool :=
  forallb is_digit (match chars v with
                    | "-"%char :: l => l
                    | "+"%char :: l => l
                    | l => l
                    end).
Definition EnvIntOrDefault (getenv : string → option string) (name : string) (fallback : Z) : Z :=
  let v := EnvString getenv name in
  if sempty v then fallback
  else match stoll v with
       | None => fallback
       | Some parsed =>
           if negb (all_consumed v) then fallback
           else if (parsed <? - 2 ^ 31) || (2 ^ 31 - 1 <? parsed) then fallback
           else parsed
       end.

(** ** [quack_oauth_state.cpp] *)
Definition kDefaultMinRefreshSeconds : Z := 30.
Definition kDecisionCacheCapacity : Z := 1000.
Definition kDecisionCacheDefaultTtlSeconds : Z := 30.
Definition kAuditRingCapacity : nat := 64.

Definition QuackOauthState_new (getenv : string → option string) : QuackOauthState :=
  mkQuackOauthState
    (JwksCache_new (EnvIntOrDefault getenv "QUACK_OAUTH_JWKS_MIN_REFRESH_S" kDefaultMinRefreshSeconds) 1000)
    (DecisionCache_new kDecisionCacheCapacity kDecisionCacheDefaultTtlSeconds)
    ∅ (AuditRing_new kAuditRingCapacity) ∅ false.

(** ** [tracing_redact.cpp] *)
Definition RedactSensitive `{!Sha256} (value : string) : string :=
  if sempty value then ""
  else match evp_sha256 value with
       | Some digest => if 4 <=? ssize digest then HexEncode (stake 4 digest) else ""
       | None => ""
       end.
Definition EqualsAsciiCi (a b : string) : bool := seqb (lower_ascii a) (lower_ascii b).
Definition kSensitive : list string :=
  ["token"; "access_token"; "refresh_token"; "id_token"; "client_secret"; "password"; "code"].
Definition IsSensitiveField (field_name : string) : bool := existsb (EqualsAsciiCi field_name) kSensitive.

(** ** Quoting in [audit_sink.cpp]: the same rule, character by character *)
Definition sink_segment (segment : list ascii) : list ascii :=
  dquote :: mjoin ((λ c, (if is_char dquote c then [dquote] else []) ++ [c]) <$> segment) ++ [dquote].
Fixpoint sink_qualified_loop (l segment out : list ascii) : list ascii :=
  match l with
  | [] => out ++ sink_segment segment
  | c :: l =>
      if is_char "." c then sink_qualified_loop l [] (out ++ sink_segment segment ++ ["."%char])
      else sink_qualified_loop l (segment ++ [c]) out
  end.
Definition SinkQuoteQualifiedIdentifier (qualified : string) : string :=
  of_chars (sink_qualified_loop (chars qualified) [] []).

Lemma sink_quotes_alike qualified : SinkQuoteQualifiedIdentifier qualified = QuoteQualifiedIdentifier qualified.
Proof.
  unfold SinkQuoteQualifiedIdentifier, QuoteQualifiedIdentifier. f_equal.
  assert (∀ seg, sink_segment seg = quote_segment seg) as Hseg.
  { intros seg. unfold sink_segment, quote_segment, double. do 2 f_equal. f_equal. apply list_fmap_ext.
    intros _ c _. destruct (is_char dquote c) eqn:Hc; [|done]. by apply is_char_true in Hc as ->. }
  assert (∀ l seg out, sink_qualified_loop l seg out = qualified_loop l seg out) as Hloop; [|apply Hloop].
  induction l as [|c l IH]; intros seg out; cbn [sink_qualified_loop qualified_loop]; rewrite Hseg; [done|].
  by destruct (is_char "." c).
Qed.

(** What other threads do while this one waits for the mutex: a parameter, as part
    of the world is theirs. *)
Class Threads (W : Type) : Type := wait_mu : M W unit.
Definition no_threads {W} : Threads W := mret tt.
Class Keeps {W} `{!Threads W} (P : W → Prop) : Prop := threads_keep : hoare P wait_mu (λ _, P).
Lemma no_threads_keep {W} (P : W → Prop) : @Keeps W no_threads P.
Proof. intros w Hw. by exists tt. Qed.

Section state.
Context `{!DuckValues, !Sha256} {W : Type} `{!Threads W} (context : ClientContext W) (state : Ref W QuackOauthState).

(** ** The mutex

    [lock] by the thread that holds it is undefined behaviour; otherwise it waits
    until no thread holds it, which is when [wait_mu] is over. *)
Definition lock_mu : M W unit :=
  held ← gets (λ w, st_mu (ref_get state w));
  if (held : bool) then lift Stuck
  else _ ← wait_mu; modify (ref_set (ref_comp state mu_ref) true).
(** [unique_lock::unlock] throws when the lock is not held. *)
Definition unlock_mu : M W unit := λ w,
  if st_mu (ref_get state w) then (Ret tt, ref_set (ref_comp state mu_ref) false w)
  else (Throw StdException, w).
(** A scope with a guard: the destructor releases the mutex on every exit. *)
Definition with_guard {A} (m : M W A) : M W A :=
  finally (_ ← lock_mu; m) (modify (ref_set (ref_comp state mu_ref) false)).

(** ** [settings.cpp] *)
Inductive SetScope : Type := SessionScope | GlobalScope.

(** The process-wide floor, fixed when the extension is loaded first. *)
Definition startup_floor (getenv : string → option string) : Z :=
  clamp (EnvIntOrDefault getenv "QUACK_OAUTH_JWKS_MIN_REFRESH_S" 30) 1 3600.
Definition default_clock_skew (getenv : string → option string) : Z :=
  clamp (EnvIntOrDefault getenv "QUACK_OAUTH_CLOCK_SKEW_S" 60) 0 3600.
Definition SetStartupFloor (getenv : string → option string) : M W unit :=
  with_guard (ref_upd (ref_comp state jwks_cache_ref) (λ c, SetMinRefreshSeconds c (startup_floor getenv))).

Definition min_refresh_name : string := "quack_oauth_jwks_min_refresh_s".
Definition OnJwksMinRefreshSeconds (floor : Z) (scope : SetScope) (parameter : DValue) : M W unit :=
  match scope with
  | SessionScope => throw (InvalidInputException (min_refresh_name +:+
      " is a global setting; use GLOBAL scope (e.g. SET GLOBAL ... / RESET GLOBAL ...)"))
  | GlobalScope =>
      if dv_IsNull parameter then throw (InvalidInputException (min_refresh_name +:+ " cannot be NULL"))
      else
        val ← lift (dv_int32 parameter);
        if val <? 1 then
          throw (InvalidInputException (min_refresh_name +:+ " must be at least 1 (got " +:+ show_Z val +:+ ")"))
        else if 3600 <? val then
          throw (InvalidInputException (min_refresh_name +:+ " must be at most 3600 (got " +:+ show_Z val +:+ ")"))
        else if val <? floor then
          throw (InvalidInputException (min_refresh_name +:+ " cannot be lowered below " +:+ show_Z floor
            +:+ " (got " +:+ show_Z val +:+ "); the floor is set at startup via QUACK_OAUTH_JWKS_MIN_REFRESH_S"
            +:+ " (restart with QUACK_OAUTH_JWKS_MIN_REFRESH_S=" +:+ show_Z val +:+ " to lower it)"))
        else with_guard (ref_upd (ref_comp state jwks_cache_ref) (λ c, SetMinRefreshSeconds c val))
  end.

Definition clock_skew_name : string := "quack_oauth_clock_skew_s".
Definition OnClockSkewSeconds (scope : SetScope) (parameter : DValue) : M W unit :=
  match scope with
  | SessionScope => throw (InvalidInputException (clock_skew_name +:+
      " is a global setting; use GLOBAL scope (e.g. SET GLOBAL ... / RESET GLOBAL ...)"))
  | GlobalScope =>
      if dv_IsNull parameter then throw (InvalidInputException (clock_skew_name +:+ " cannot be NULL"))
      else
        val ← lift (dv_int32 parameter);
        if val <? 0 then
          throw (InvalidInputException (clock_skew_name +:+ " must be non-negative (got " +:+ show_Z val +:+ ")"))
        else if 3600 <? val then
          throw (InvalidInputException (clock_skew_name +:+ " must be at most 3600 (got " +:+ show_Z val +:+ ")"))
        else mret tt
  end.

(** ** [audit_sink.cpp] *)
Definition server_secret_name : string := "quack_oauth_server_secret_name".

Definition LookupAuditTable : M W string :=
  v ← gets (cx_setting context server_secret_name);
  match v with
  | None => mret ""
  | Some v =>
      if dv_IsNull v then mret ""
      else
        accessor ← TryOpenSecret context (dv_ToString v) (Some "quack_oauth_server");
        mret (SecretGet accessor "audit_table")
  end.

(** An empty field is written as NULL. *)
Definition nullable (s : string) : DValue := if sempty s then dv_null_varchar else dv_of_string s.

Definition InsertAuditRow (table : string) (event : AuditEvent) : M W unit :=
  let sql := "INSERT INTO " +:+ SinkQuoteQualifiedIdentifier table +:+
             " (timestamp_unix_s, event_type, subject, issuer, kid, token_hash, " +:+
             "action, reason) VALUES (?, ?, ?, ?, ?, ?, ?, ?)" in
  result ← cx_Execute context sql
    [dv_of_int64 (ae_timestamp_unix_s event); dv_of_string (AuditEventTypeName (ae_event_type event));
     nullable (ae_subject event); nullable (ae_issuer event); nullable (ae_kid event);
     nullable (ae_token_hash event); nullable (ae_action event); nullable (ae_reason event)];
  match result with
  | PrepareError msg => cx_log context LogWarning ("quack_oauth audit_table insert prepare failed: " +:+ msg)
  | ExecuteError msg => cx_log context LogWarning ("quack_oauth audit_table insert failed: " +:+ msg)
  | Executed => mret tt
  end.

Definition IsDenialEvent (t : AuditEventType) : bool :=
  match t with TokenRejected | AuthzDeny => true | _ => false end.

Definition EmitAuditEvent (event : AuditEvent) : M W unit :=
  _ ← with_guard (ref_call (ref_comp state audit_ring_ref) (λ r, Push r event));
  let line := FormatAuditLine event in
  _ ← (if IsDenialEvent (ae_event_type event) then cx_log context LogWarning line else cx_log context LogInfo line);
  audit_table ← LookupAuditTable;
  if negb (sempty audit_table) then InsertAuditRow audit_table event else mret tt.

(** ** The state invariant

    [J], [D] and [S] say what the two caches and each session entry satisfy; the
    ring has a slot to write to and the session map is bounded. *)
Definition ring_ok (r : AuditRing) : Prop := (head_ r < length (ring_ r))%nat.
Record st_ok (J : JwksCache → Prop) (D : DecisionCache → Prop) (S : string → SessionPrincipal → Prop)
    (s : QuackOauthState) : Prop := mk_st_ok {
  so_jwks : J (st_jwks_cache s);
  so_decisions : D (st_decision_cache s);
  so_sessions : map_Forall S (st_session_principals s);
  so_size : (size (st_session_principals s) ≤ 1000)%nat;
  so_ring : ring_ok (st_audit_ring s);
}.

Context `{!RefLaws state}.
Context (J : JwksCache → Prop) (D : DecisionCache → Prop) (S : string → SessionPrincipal → Prop).
Context (F : W → Prop) `{!Frame state F}.

(** The invariant: the state is in order, this thread does or does not hold the
    mutex, and [F] holds of the world around the state. *)
Definition Inv (locked : bool) (w : W) : Prop :=
  st_ok J D S (ref_get state w) ∧ st_mu (ref_get state w) = locked ∧ F w.

Lemma Inv_set b b' s w : Inv b w → st_ok J D S s → st_mu s = b' → Inv b' (ref_set state s w).
Proof. intros (_ & _ & HF) Hok Hmu. unfold Inv. rewrite ref_get_set. split_and!; [done..|by apply frame_set]. Qed.

(** Writing a member that is still in order. *)
Lemma Inv_jwks b w c : Inv b w → J c → Inv b (ref_set (ref_comp state jwks_cache_ref) c w).
Proof. intros Hw Hc. apply (Inv_set b); [done|..]; destruct Hw as ([] & Hmu & _), (ref_get state w); [by split|done]. Qed.
Lemma Inv_decisions b w c : Inv b w → D c → Inv b (ref_set (ref_comp state decision_cache_ref) c w).
Proof. intros Hw Hc. apply (Inv_set b); [done|..]; destruct Hw as ([] & Hmu & _), (ref_get state w); [by split|done]. Qed.
Lemma Inv_sessions b w m :
  Inv b w → map_Forall S m → (size m ≤ 1000)%nat → Inv b (ref_set (ref_comp state session_principals_ref) m w).
Proof. intros Hw ??. apply (Inv_set b); [done|..]; destruct Hw as ([] & Hmu & _), (ref_get state w); [by split|done]. Qed.
Lemma Inv_ring b w r : Inv b w → ring_ok r → Inv b (ref_set (ref_comp state audit_ring_ref) r w).
Proof. intros Hw ?. apply (Inv_set b); [done|..]; destruct Hw as ([] & Hmu & _), (ref_get state w); [by split|done]. Qed.
(** The throttle log is not part of the invariant. *)
Lemma Inv_throttle b w m : Inv b w → Inv b (ref_set (ref_comp state last_throttle_logged_ref) m w).
Proof. intros Hw. apply (Inv_set b); [done|..]; destruct Hw as ([] & Hmu & _), (ref_get state w); [by split|done]. Qed.
Lemma Inv_mu b b' w : Inv b w → Inv b' (ref_set (ref_comp state mu_ref) b' w).
Proof. intros Hw. apply (Inv_set b); [done|..]; destruct Hw as ([] & Hmu & _), (ref_get state w); [by split|done]. Qed.

(** What is asked of the threads this one waits for. *)
Context `{!Keeps (Inv false)}.

(** What is asked of the rest of the process: logging and, with the mutex free,
    writing the audit row return and keep the invariant. *)
Record env_ok : Prop := {
  eo_log : ∀ b level line, hoare (Inv b) (cx_log context level line) (λ _, Inv b);
  eo_execute : ∀ sql params, hoare (Inv false) (cx_Execute context sql params) (λ _, Inv false);
}.

Lemma hoare_lock : hoare (Inv false) lock_mu (λ _, Inv true).
Proof.
  unfold lock_mu. apply (hoare_bind _ _ _ (λ held w, held = false ∧ Inv false w)).
  { intros w Hw. eexists. split; [done|]. split; [apply Hw|done]. }
  intros held. apply hoare_pure. intros ->. eapply hoare_bind; [apply threads_keep|]. intros [] w Hw.
  eexists. split; [done|]. by apply (Inv_mu false).
Qed.

Lemma hoare_unlock : hoare (Inv true) unlock_mu (λ _, Inv false).
Proof.
  intros w Hw. unfold wp, unlock_mu. rewrite (proj1 (proj2 Hw)). eexists. split; [done|]. by apply (Inv_mu true).
Qed.

Lemma hoare_with_guard {A} (m : M W A) (Q : A → Prop) :
  hoare (Inv true) m (λ a w, Q a ∧ Inv true w) → hoare (Inv false) (with_guard m) (λ a w, Q a ∧ Inv false w).
Proof.
  intros Hm w Hw. unfold wp, with_guard, finally.
  assert (hoare (Inv false) (_ ← lock_mu; m) (λ a w, Q a ∧ Inv true w)) as Hboth.
  { eapply hoare_bind; [apply hoare_lock|]. by intros []. }
  destruct ((_ ← lock_mu; m) w) as [r w1] eqn:Hr.
  destruct (hoare_run _ _ _ _ _ _ Hboth Hw Hr) as (a & -> & HQ & Hw1).
  simpl. exists a. split; [done|]. split; [done|]. by apply (Inv_mu true).
Qed.

Lemma Push_ok r e : ring_ok r → ∃ r', Push r e = Ret r' ∧ ring_ok r'.
Proof.
  unfold ring_ok, Push. intros Hr. destruct (lookup_lt_is_Some_2 _ _ Hr) as [x ->]. simpl.
  eexists. split; [done|]. simpl. rewrite length_insert. apply Nat.mod_upper_bound. lia.
Qed.

Lemma EmitAuditEvent_inv event : env_ok → hoare (Inv false) (EmitAuditEvent event) (λ _, Inv false).
Proof.
  intros [Hlog Hexec]. unfold EmitAuditEvent.
  apply (hoare_bind _ _ _ (λ _, Inv false)).
  { eapply hoare_post; [|apply (hoare_with_guard _ (λ _, True))]; [by intros [] w [_ ?]|].
    apply hoare_call. intros w Hw. simpl.
    destruct (Push_ok (st_audit_ring (ref_get state w)) event) as (r' & Hr & Hr'); [apply Hw|].
    exists r'. split; [done|]. split; [done|]. by apply Inv_ring. }
  intros []. apply (hoare_bind _ _ _ (λ _, Inv false)).
  { destruct (IsDenialEvent _); apply Hlog. }
  intros []. apply (hoare_bind _ _ _ (λ _, Inv false)).
  { unfold LookupAuditTable. apply (hoare_bind _ _ _ (λ _, Inv false)); [by intros w Hw; eexists|].
    intros [v|]; [|by apply hoare_ret]. destruct (dv_IsNull v); [by apply hoare_ret|].
    apply (hoare_bind _ _ _ (λ _, Inv false)); [|intros a; by apply hoare_ret].
    unfold TryOpenSecret. destruct (sempty _); [by apply hoare_ret|].
    apply (hoare_bind _ _ _ (λ _, Inv false)); [by intros w Hw; eexists|]. intros e. by apply hoare_ret. }
  intros table. destruct (negb _); [|by apply hoare_ret]. unfold InsertAuditRow.
  apply (hoare_bind _ _ _ (λ _, Inv false)); [apply Hexec|]. intros []; [apply Hlog|apply Hlog|by apply hoare_ret].
Qed.
End state.

(** Free mutex: the lock is obtained. *)
Section unlocked.
Context {W : Type} `{!Threads W} (state : Ref W QuackOauthState).

Lemma lock_mu_run w w1 :
  st_mu (ref_get state w) = false → wait_mu w = (Ret tt, w1) →
  lock_mu state w = (Ret tt, ref_set (ref_comp state mu_ref) true w1).
Proof. intros Hmu Hwait. unfold lock_mu, gets. by rewrite M_bind_eq, Hmu, M_bind_eq, Hwait. Qed.

Lemma with_guard_run {A} (m : M W A) w w1 :
  st_mu (ref_get state w) = false → wait_mu w = (Ret tt, w1) →
  with_guard state m w = match m (ref_set (ref_comp state mu_ref) true w1) with
    | (Stuck, w') => (Stuck, w')
    | (r, w') => (r, ref_set (ref_comp state mu_ref) false w')
    end.
Proof.
  intros Hmu Hwait. unfold with_guard, finally. rewrite M_bind_eq, (lock_mu_run w w1 Hmu Hwait). by destruct (m _) as [[]].
Qed.

Lemma with_guard_eq `{!Keeps (λ w, st_mu (ref_get state w) = false)} {A} (m : M W A) w :
  st_mu (ref_get state w) = false →
  ∃ w1, wait_mu w = (Ret tt, w1) ∧ st_mu (ref_get state w1) = false ∧
    with_guard state m w = match m (ref_set (ref_comp state mu_ref) true w1) with
      | (Stuck, w') => (Stuck, w')
      | (r, w') => (r, ref_set (ref_comp state mu_ref) false w')
      end.
Proof.
  intros Hmu. destruct (wait_mu w) as [r w1] eqn:Hwait.
  destruct (hoare_run _ _ _ _ _ _ threads_keep Hmu Hwait) as ([] & -> & Hmu1). exists w1. split_and!; [done..|].
  by apply with_guard_run.
Qed.

(** What the mutex does not change. *)
Context {X : Type} (f : W → X) (Hmu : ∀ b w, f (ref_set (ref_comp state mu_ref) b w) = f w).
Context (Hwait : unchanged f wait_mu).

Lemma lock_unchanged : unchanged f (lock_mu state).
Proof. unfold lock_mu. leaves_alone. intros w. apply Hmu. Qed.
Lemma unlock_unchanged : unchanged f (unlock_mu state).
Proof. intros w. unfold unlock_mu. destruct (st_mu _); [apply Hmu|done]. Qed.
Lemma guard_unchanged {A} (m : M W A) : unchanged f m → unchanged f (with_guard state m).
Proof.
  intros Hm. unfold with_guard. apply un_finally; [|intros w; apply Hmu].
  apply un_bind; [apply lock_unchanged|]. by intros [].
Qed.
End unlocked.

(** The refresh interval is never below the floor fixed at load, nor
    above an hour: the callback of the setting either stores a value between the
    two, in the state it finds when it gets the mutex, and changes nothing else, or
    throws and changes nothing at all, in particular on a session scope, NULL, and
    any value outside the range. *)
Theorem min_refresh_setting_bounds `{!DuckValues} {W} `{!Threads W} (state : Ref W QuackOauthState) `{!RefLaws state}
    `{!Keeps (λ w, st_mu (ref_get state w) = false)} getenv scope parameter w r w' :
  st_mu (ref_get state w) = false → dv_int32 parameter ≠ Stuck →
  OnJwksMinRefreshSeconds state (startup_floor getenv) scope parameter w = (r, w') →
  (∃ val w1, r = Ret tt ∧ scope = GlobalScope ∧ dv_int32 parameter = Ret val ∧
     startup_floor getenv ≤ val ≤ 3600 ∧ 1 ≤ startup_floor getenv ∧ wait_mu w = (Ret tt, w1) ∧
     ref_get state w' = ref_set jwks_cache_ref (set_min_refresh val (st_jwks_cache (ref_get state w1))) (ref_get state w1)) ∨
  ((∃ e, r = Throw e) ∧ w' = w).
Proof.
  intros Hmu Hns. unfold OnJwksMinRefreshSeconds. destruct scope; [intros [= <- <-]; right; eauto|].
  destruct (dv_IsNull parameter); [intros [= <- <-]; right; eauto|].
  unfold mbind at 1, M_bind at 1, lift. destruct (dv_int32 parameter) as [val|e|]; [|intros [= <- <-]; right; eauto|done].
  destruct (Z.ltb_spec val 1); [intros [= <- <-]; right; eauto|].
  destruct (Z.ltb_spec 3600 val); [intros [= <- <-]; right; eauto|].
  destruct (Z.ltb_spec val (startup_floor getenv)); [intros [= <- <-]; right; eauto|].
  destruct (with_guard_eq state (ref_upd (ref_comp state jwks_cache_ref) (λ c, SetMinRefreshSeconds c val)) w Hmu)
    as (w1 & Hwait & Hmu1 & ->). simpl. intros [= <- <-]. left. exists val, w1.
  split_and!; [done|done|done|lia|lia| |done|].
  { apply clamp_bounds. lia. }
  rewrite !ref_get_set. unfold SetMinRefreshSeconds. rewrite clamp_id by lia.
  destruct (ref_get state w1) as [j d s a t m]. simpl in *. by subst m.
Qed.

#[local] Existing Instance no_threads.
#[local] Existing Instance no_threads_keep.
Lemma min_refresh_setting_bounds_witness :
  let s := QuackOauthState_new (λ _, None) in
  ∃ r w', OnJwksMinRefreshSeconds (H:=toy_duck) ref_id (startup_floor (λ _, None)) GlobalScope (DInt 45) s = (r, w') ∧
    (r = Ret tt ∧ min_refresh_s_ (st_jwks_cache w') = 45).
Proof.
  intros s.
  destruct (OnJwksMinRefreshSeconds (H:=toy_duck) ref_id (startup_floor (λ _, None)) GlobalScope (DInt 45) s)
    as [r w'] eqn:Hr.
  exists r, w'. split; [reflexivity|].
  destruct (min_refresh_setting_bounds (H:=toy_duck) ref_id (λ _, None) GlobalScope (DInt 45) s r w'
    eq_refl ltac:(discriminate) Hr) as [(val & w1 & -> & _ & Hv & _ & _ & [= <-] & Hw)|[[e He] Hw]].
  - split; [reflexivity|]. simpl in Hv. simplify_eq/=. reflexivity.
  - subst. vm_compute in Hr. discriminate.
Defined.
