(* ===== verification/Settings.v ===== *)
(** * The options of the extension ([src/settings.cpp])

    Registration is DuckDB's: [AddExtensionOption] is one entry of a list.  The
    callbacks of the options are in [State]; the telemetry ones forward to a
    third-party object. *)
From S2P Require Import Prelude CppString StdList External JwksCache DuckDb State.

(** The logical types the extension declares. *)
Inductive LogicalType : Type := BOOLEAN | INTEGER | BIGINT | VARCHAR | LIST (t : LogicalType).
#[export] Instance LogicalType_eq_dec : EqDecision LogicalType.
Proof. solve_decision. Defined.
Inductive OptionCallback : Type :=
  | NoCallback
  | ClockSkewCallback
  | JwksMinRefreshCallback (floor : Z)
  | TelemetryEnabledCallback
  | TelemetryKeyCallback.

Section settings.
Context `{!DuckValues} (getenv : string → option string).

Record ExtensionOption : Type := mkExtensionOption {
  op_name : string;
  op_type : LogicalType;
  op_default : DValue;
  op_callback : OptionCallback;
  op_scope : SetScope;
}.

Definition EnvStringDefault (env_name fallback : string) : DValue :=
  let v := EnvString getenv env_name in dv_of_string (if sempty v then fallback else v).
Definition EnvBoolDefault (env_name : string) (fallback : bool) : DValue :=
  dv_of_bool (EnvBoolOrDefault getenv env_name fallback).
Definition EnvIntDefault (env_name : string) (fallback : Z) : DValue :=
  dv_of_int32 (EnvIntOrDefault getenv env_name fallback).

(** The options in registration order, given the process-wide floor. *)
Definition quack_oauth_options (startup_floor : Z) : list ExtensionOption :=
  [mkExtensionOption "quack_oauth_enabled" BOOLEAN (EnvBoolDefault "QUACK_OAUTH_ENABLED" false) NoCallback GlobalScope;
   mkExtensionOption "quack_oauth_validation_mode" VARCHAR (EnvStringDefault "QUACK_OAUTH_VALIDATION_MODE" "jwks")
     NoCallback GlobalScope;
   mkExtensionOption "quack_oauth_provider" VARCHAR (EnvStringDefault "QUACK_OAUTH_PROVIDER" "generic")
     NoCallback GlobalScope;
   mkExtensionOption "quack_oauth_clock_skew_s" INTEGER (dv_of_int32 (default_clock_skew getenv))
     ClockSkewCallback GlobalScope;
   mkExtensionOption "quack_oauth_jwks_min_refresh_s" INTEGER (dv_of_int32 startup_floor)
     (JwksMinRefreshCallback startup_floor) GlobalScope;
   mkExtensionOption "quack_oauth_introspect_cache_s" INTEGER (EnvIntDefault "QUACK_OAUTH_INTROSPECT_CACHE_S" 30)
     NoCallback GlobalScope;
   mkExtensionOption "quack_oauth_renew_skew_s" INTEGER (EnvIntDefault "QUACK_OAUTH_RENEW_SKEW_S" 60)
     NoCallback GlobalScope;
   mkExtensionOption "quack_oauth_policy_default" VARCHAR (EnvStringDefault "QUACK_OAUTH_POLICY_DEFAULT" "deny")
     NoCallback GlobalScope;
   mkExtensionOption "quack_oauth_trust_plaintext" BOOLEAN (EnvBoolDefault "QUACK_OAUTH_TRUST_PLAINTEXT" false)
     NoCallback GlobalScope;
   mkExtensionOption "quack_oauth_server_secret_name" VARCHAR (EnvStringDefault "QUACK_OAUTH_SERVER_SECRET_NAME" "")
     NoCallback GlobalScope;
   mkExtensionOption "quack_oauth_telemetry_enabled" BOOLEAN (EnvBoolDefault "QUACK_OAUTH_TELEMETRY_ENABLED" true)
     TelemetryEnabledCallback GlobalScope;
   mkExtensionOption "quack_oauth_telemetry_key" VARCHAR
     (EnvStringDefault "QUACK_OAUTH_TELEMETRY_KEY" "phc_t3wwRLtpyEmLHYaZCSszG0MqVr74J6wnCrj9D41zk2t")
     TelemetryKeyCallback GlobalScope].

(** [g_startup_min_refresh_s] and its [once_flag]: the floor is fixed by the first
    call in the process. *)
Definition RegisterQuackOauthSettings {W} `{!Threads W} (state : Ref W QuackOauthState) (once : Ref W (option Z))
    : M W (list ExtensionOption) :=
  done ← gets (ref_get once);
  _ ← match done with
      | Some _ => mret tt
      | None =>
          _ ← SetStartupFloor state getenv;
          ref_upd once (λ _, Some (startup_floor getenv))
      end;
  floor ← gets (ref_get once);
  mret (quack_oauth_options (default 30 floor)).

(** Setting an option to a value: DuckDB runs the callback, which may throw. *)
Definition run_callback {W} `{!Threads W} (state : Ref W QuackOauthState) (o : ExtensionOption) (scope : SetScope) (v : DValue)
    : M W unit :=
  match op_callback o with
  | NoCallback | TelemetryEnabledCallback | TelemetryKeyCallback => mret tt
  | ClockSkewCallback => OnClockSkewSeconds scope v
  | JwksMinRefreshCallback floor => OnJwksMinRefreshSeconds state floor scope v
  end.
End settings.

(** ** The table is well formed *)
Section table.
Context `{!DuckValues} (getenv : string → option string).

Fixpoint has_type (v : DValue) (t : LogicalType) {struct t} : Prop :=
  match t with
  | BOOLEAN => ∃ b, v = dv_of_bool b
  | INTEGER => ∃ z, v = dv_of_int32 z ∧ - 2 ^ 31 ≤ z < 2 ^ 31
  | BIGINT => ∃ z, v = dv_of_int64 z
  | VARCHAR => ∃ s, v = dv_of_string s
  | LIST t => ∃ l, v = dv_of_list l ∧ Forall (λ x, has_type x t) l
  end.

Lemma EnvIntOrDefault_int32 name fallback :
  - 2 ^ 31 ≤ fallback < 2 ^ 31 → - 2 ^ 31 ≤ EnvIntOrDefault getenv name fallback < 2 ^ 31.
Proof.
  intros Hf. unfold EnvIntOrDefault. destruct (sempty _); [done|]. destruct (stoll _) as [z|]; [|done].
  destruct (negb _); [done|]. destruct (Z.ltb_spec z (- 2 ^ 31)); [done|].
  destruct (Z.ltb_spec (2 ^ 31 - 1) z); cbn [orb]; [done|lia].
Qed.

Lemma default_clock_skew_bounds : 0 ≤ default_clock_skew getenv ≤ 3600.
Proof. apply clamp_bounds. lia. Qed.

Lemma startup_floor_bounds : 1 ≤ startup_floor getenv ≤ 3600.
Proof. apply clamp_bounds. lia. Qed.

(** The callbacks accept the defaults. *)
Lemma defaults_accepted `{!DuckValuesLaws} {W} `{!Threads W} (state : Ref W QuackOauthState)
    `{!Keeps (λ w, st_mu (ref_get state w) = false)} floor o w :
  1 ≤ floor ≤ 3600 → st_mu (ref_get state w) = false → o ∈ quack_oauth_options getenv floor →
  (run_callback state o GlobalScope (op_default o) w).1 = Ret tt.
Proof.
  intros Hfloor Hmu Ho. unfold quack_oauth_options in Ho. rewrite !elem_of_cons in Ho.
  pose proof default_clock_skew_bounds. unfold run_callback.
  decompose [or] Ho; subst; try reflexivity; try (by exfalso; eapply elem_of_nil); cbn [op_callback op_default].
  - unfold OnClockSkewSeconds. rewrite dv_IsNull_of_int32, dv_int32_of_int32. rewrite M_bind_eq. cbn.
    destruct (Z.ltb_spec (default_clock_skew getenv) 0); [lia|].
    by destruct (Z.ltb_spec 3600 (default_clock_skew getenv)); [lia|].
  - unfold OnJwksMinRefreshSeconds. rewrite dv_IsNull_of_int32, dv_int32_of_int32. rewrite M_bind_eq.
    unfold lift. destruct (Z.ltb_spec floor 1); [lia|]. destruct (Z.ltb_spec 3600 floor); [lia|].
    rewrite Z.ltb_irrefl.
    by destruct (with_guard_eq state (ref_upd (ref_comp state jwks_cache_ref) (λ c, SetMinRefreshSeconds c floor)) w Hmu)
      as (w1 & _ & _ & ->).
Qed.

Lemma quack_oauth_option_names floor : NoDup (op_name <$> quack_oauth_options getenv floor).
Proof. cbn. decide_closed. Qed.

(** An option is global and its default has its type. *)
Definition option_typed (o : ExtensionOption) : Prop :=
  has_type (op_default o) (op_type o) ∧ op_scope o = GlobalScope.

Lemma quack_oauth_options_typed floor : 1 ≤ floor ≤ 3600 → Forall option_typed (quack_oauth_options getenv floor).
Proof.
  intros Hfloor. pose proof default_clock_skew_bounds.
  unfold quack_oauth_options. repeat apply Forall_cons_2; try apply Forall_nil_2; split; try reflexivity;
    cbn [op_default op_type has_type]; unfold EnvStringDefault, EnvBoolDefault, EnvIntDefault; eauto.
  - exists (default_clock_skew getenv). split; [done|lia].
  - exists floor. split; [done|lia].
  - eexists. split; [reflexivity|]. by apply EnvIntOrDefault_int32.
  - eexists. split; [reflexivity|]. by apply EnvIntOrDefault_int32.
Qed.

(** What the flag holds: nothing, or a floor within the bounds. *)
Definition once_ok (o : option Z) : Prop := o = None ∨ ∃ f, o = Some f ∧ 1 ≤ f ≤ 3600.

Section register.
Context {W : Type} `{!Threads W} (state : Ref W QuackOauthState) (once : Ref W (option Z)) `{!RefLaws once}.
Context `{!Keeps (λ w, st_mu (ref_get state w) = false)}.

Lemma RegisterQuackOauthSettings_floor w opts w' :
  once_ok (ref_get once w) → RegisterQuackOauthSettings getenv state once w = (Ret opts, w') →
  ∃ floor, 1 ≤ floor ≤ 3600 ∧ ref_get once w' = Some floor ∧ opts = quack_oauth_options getenv floor ∧
    (∀ f, ref_get once w = Some f → f = floor ∧ w' = w).
Proof.
  intros Honce Hreg. unfold RegisterQuackOauthSettings in Hreg.
  apply M_bind_Ret in Hreg as (d & w1 & [= <- <-] & ([] & w2 & Hset & (fl & w3 & [= <- <-] & [= <- <-])%M_bind_Ret)%M_bind_Ret).
  destruct (ref_get once w) as [f|] eqn:Hf.
  - injection Hset as <-. rewrite Hf. destruct Honce as [?|(f' & [= <-] & Hb)]; [done|].
    exists f. split_and!; [lia|lia|done|done|]. by intros f' [= <-].
  - apply M_bind_Ret in Hset as ([] & w4 & _ & [= <-]). rewrite ref_get_set. exists (startup_floor getenv).
    pose proof startup_floor_bounds. split_and!; [lia|lia|done|done|done].
Qed.

(** Registration comes back when the mutex is free. *)
Lemma RegisterQuackOauthSettings_total w :
  st_mu (ref_get state w) = false → ∃ opts w', RegisterQuackOauthSettings getenv state once w = (Ret opts, w').
Proof.
  intros Hmu. unfold RegisterQuackOauthSettings, SetStartupFloor, gets.
  rewrite M_bind_eq. destruct (ref_get once w); rewrite M_bind_eq; [by eexists _, _|]. rewrite M_bind_eq.
  destruct (with_guard_eq state (ref_upd (ref_comp state jwks_cache_ref) (λ c, SetMinRefreshSeconds c (startup_floor getenv)))
    w Hmu) as (w1 & _ & _ & ->). by eexists _, _.
Qed.

Lemma RegisterQuackOauthSettings_again w floor :
  ref_get once w = Some floor → RegisterQuackOauthSettings getenv state once w = (Ret (quack_oauth_options getenv floor), w).
Proof.
  intros Hf. unfold RegisterQuackOauthSettings.
  assert (gets (ref_get once) w = (Ret (Some floor), w)) as Hget by (unfold gets; by rewrite Hf).
  apply M_bind_Ret. exists (Some floor), w. split; [done|]. apply M_bind_Ret. exists tt, w. split; [done|].
  apply M_bind_Ret. by exists (Some floor), w.
Qed.
End register.

(** The options a load registers are well formed in every environment:
    twelve distinct names, each default of the declared type and within its
    width, all of global scope; every default is a value the option's own callback
    accepts, so a RESET GLOBAL never fails; and the floor of the JWKS refresh
    interval is between a second and an hour, fixed by the first registration:
    a later one, in another environment, leaves it and the state alone. *)
Theorem options_well_typed `{!DuckValuesLaws} {W} `{!Threads W} (state : Ref W QuackOauthState) (once : Ref W (option Z))
    `{!RefLaws once, !Keeps (λ w, st_mu (ref_get state w) = false)} w opts w' :
  once_ok (ref_get once w) →
  RegisterQuackOauthSettings getenv state once w = (Ret opts, w') →
  NoDup (op_name <$> opts) ∧ length opts = 12%nat ∧
  Forall option_typed opts ∧
  (∀ o w1, o ∈ opts → st_mu (ref_get state w1) = false →
     (run_callback state o GlobalScope (op_default o) w1).1 = Ret tt) ∧
  ∃ floor, 1 ≤ floor ≤ 3600 ∧ ref_get once w' = Some floor ∧
    opts = quack_oauth_options getenv floor ∧ (∀ f, ref_get once w = Some f → f = floor ∧ w' = w).
Proof.
  intros Honce Hreg.
  destruct (RegisterQuackOauthSettings_floor _ _ _ _ _ Honce Hreg) as (floor & Hfloor & Hw' & -> & Hsame).
  split_and!; [apply quack_oauth_option_names|done|by apply quack_oauth_options_typed| |].
  - intros o w1 Ho Hmu. by apply (defaults_accepted state floor).
  - exists floor. split_and!; [lia|lia|done|done|done].
Qed.
End table.

#[local] Existing Instance toy_duck.
#[local] Existing Instance no_threads.
#[local] Existing Instance no_threads_keep.

(** The world of the evaluation: the state and the once flag. *)
Definition toy_once_state : Ref (QuackOauthState * option Z) QuackOauthState :=
  mkRef fst (λ s w, (s, snd w)).
Definition toy_once : Ref (QuackOauthState * option Z) (option Z) := mkRef snd (λ o w, (fst w, o)).
Lemma toy_once_laws : RefLaws toy_once.
Proof. by split; [..|intros []]. Qed.

Definition toy_env_var (name : string) : option string :=
  if seqb name "QUACK_OAUTH_JWKS_MIN_REFRESH_S" then Some " 90000 " else None.

Lemma options_well_typed_witness :
  ∃ opts w', RegisterQuackOauthSettings toy_env_var toy_once_state toy_once (QuackOauthState_new toy_env_var, None) =
    (Ret opts, w') ∧ length opts = 12%nat ∧ snd w' = Some 3600.
Proof.
  set (w := (QuackOauthState_new toy_env_var, None)).
  assert (let '(r, w1) := RegisterQuackOauthSettings toy_env_var toy_once_state toy_once w in
          is_ret r = true ∧ snd w1 = Some 3600) as Heval by (vm_compute; split; reflexivity).
  destruct (RegisterQuackOauthSettings toy_env_var toy_once_state toy_once w) as [r w'] eqn:Hr.
  destruct Heval as [Hret Hw']. destruct r as [opts|e|]; [|discriminate Hret|discriminate Hret].
  destruct (options_well_typed toy_env_var (H0:=toy_duck_laws) toy_once_state toy_once (RefLaws0:=toy_once_laws) w opts w'
    (or_introl eq_refl) Hr) as (_ & Hlen & _).
  exists opts, w'. split; [reflexivity|]. split; [exact Hlen|exact Hw'].
Defined.
