(* ===== verification/SqlAst.v ===== *)
(** * DuckDB's parser and syntax tree, as [src/sql_inspect.cpp] sees them

    The parser, its tree and the [duckdb_compat] accessors are not part of the
    repository.  A node is opaque; a view function gives the fields the inspection
    reads of it (or the exception the accessor throws).  A null pointer is [None].
    The trees are finite: every node has a rank above the ranks of its parts. *)
From S2P Require Import Prelude CppString.

(** The type parameters of the views are implicit in their constructors and fields. *)
#[local] Set Implicit Arguments.
#[local] Set Contextual Implicit.
#[local] Set Maximal Implicit Insertion.

(** The triple of [AstTarget], [CreateTarget] and [SchemaTarget]. *)
Record target : Type := mkTarget { tg_catalog : string; tg_schema : string; tg_table : string }.

(** ** Expressions *)
Inductive expr_class (Q : Type) : Type :=
  | COLUMN_REF (names : list string)
  | STAR
  | SUBQUERY_EXPR (subquery : option (option Q))
  | FUNCTION (name : string)
  | CONSTANT
  | EXPRESSION_OTHER.

Record expr_view (E Q : Type) : Type := mkExprView {
  ev_class : expr_class Q;
  ev_children : list E;     (* [ParsedExpressionIterator::EnumerateChildren] *)
  ev_ToString : string;
}.

(** [case_insensitive_map_t] of expressions, in its iteration order. *)
Definition named (E : Type) : Type := list (string * option E).

(** ** Data-changing nodes, shared by statements and query nodes *)
Record set_info (E : Type) : Type := mkSetInfo {
  si_expressions : list (option E);
  si_condition : option E;
}.

Record conflict_info (E : Type) : Type := mkConflictInfo {
  ci_set_info : option (set_info E);
  ci_condition : option E;
}.

Record insert_node (E Q T : Type) : Type := mkInsertNode {
  in_target : target;
  in_select_statement : option (option Q);
  in_table_ref : option T;
  in_returning_list : list (option E);
  in_on_conflict_info : option (conflict_info E);
}.

Record update_node (E T : Type) : Type := mkUpdateNode {
  up_table : option T;
  up_from_table : option T;
  up_set_info : option (set_info E);
  up_returning_list : list (option E);
}.

Record delete_node (E T : Type) : Type := mkDeleteNode {
  de_table : option T;
  de_using_clauses : list (option T);
  de_condition : option E;
  de_returning_list : list (option E);
}.

Record merge_action (E : Type) : Type := mkMergeAction {
  ma_is_update : bool;      (* [action_type == MergeActionType::MERGE_UPDATE] *)
  ma_condition : option E;
  ma_update_info : option (set_info E);
  ma_expressions : list (option E);
}.

Record merge_node (E T : Type) : Type := mkMergeNode {
  me_target : option T;
  me_source : option T;
  me_join_condition : option E;
  me_actions : list (list (option (merge_action E)));
  me_returning_list : list (option E);
}.

Record copy_info (E Q : Type) : Type := mkCopyInfo {
  co_target : target;
  co_select_statement : option Q;
  co_file_path_expression : option E;
  co_parsed_options : named E;
  co_is_from : bool;
}.

(** ** Query nodes *)
Inductive modifier (E : Type) : Type :=
  | ORDER_MODIFIER (orders : list (option E))
  | LIMIT_MODIFIER (limit offset : option E)
  | DISTINCT_MODIFIER (distinct_on_targets : list (option E))
  | LEGACY_LIMIT_PERCENT (visited : option (option E * option E))
  | MODIFIER_OTHER.

(** [CommonTableExpressionMap]: alias, definition, its query. *)
Definition cte_map (Q : Type) : Type := list (string * option (option Q)).

Inductive query_body (E Q T : Type) : Type :=
  | SELECT_NODE (from_table : option T) (select_list : list (option E)) (where_clause having qualify : option E)
      (group_expressions : list (option E))
  | SET_OPERATION_NODE (children : list Q)
  | CTE_NODE (ctename : string) (query child : option Q)
  | RECURSIVE_CTE_NODE (ctename : string) (left right : option Q)
  | BOUND_SUBQUERY_NODE
  | UPDATE_QUERY (node : update_node E T)
  | DELETE_QUERY (node : delete_node E T)
  | INSERT_QUERY (node : insert_node E Q T)
  | MERGE_QUERY (node : merge_node E T)
  | COPY_QUERY (info : option (copy_info E Q))
  | QUERY_OTHER.

Record query_view (E Q T : Type) : Type := mkQueryView {
  qv_cte_map : cte_map Q;
  qv_modifiers : list (option (modifier E));
  qv_body : query_body E Q T;
}.

(** ** Table references *)
Record pivot (E Q : Type) : Type := mkPivot {
  pv_pivot_expressions : list (option E);
  pv_subquery : option Q;
  pv_entries : list (option E);
}.

Inductive table_view (E Q T : Type) : Type :=
  | BASE_TABLE (at_clause : option (option E)) (tgt : target)
  | JOIN (left right : option T) (condition : option E)
  | SUBQUERY_REF (subquery : option (option Q))
  | TABLE_FUNCTION (function : option E) (subquery : option (option Q))
  | PIVOT (source : option T) (aggregates : list (option E)) (pivots : list (pivot E Q))
  | EXPRESSION_LIST (values : list (list (option E)))
  | SHOW_REF (query : option Q) (tgt : target)
  | EMPTY_FROM | CTE_REF | COLUMN_DATA | DELIM_GET | BOUND_TABLE_REF | INVALID_REF
  | TABLE_OTHER.

(** ** Statements *)
Inductive column_def (E : Type) : Type :=
  | GeneratedColumn (expr : E)
  | DefaultColumn (expr : E)
  | PlainColumn.

Inductive constraint_def (E : Type) : Type :=
  | CHECK_CONSTRAINT (expression : option E)
  | NOT_NULL_CONSTRAINT | UNIQUE_CONSTRAINT | FOREIGN_KEY_CONSTRAINT
  | CONSTRAINT_OTHER.

(** What [VisitCreateTableExtras] passes to its callback. *)
Record table_extras (E : Type) : Type := mkTableExtras {
  te_partition_keys : list (option E);
  te_sort_keys : list (option E);
  te_options : named E;
}.

Inductive create_info (E Q S : Type) : Type :=
  | TABLE_ENTRY (tgt : target) (query : option (option Q)) (columns : list (column_def E))
      (constraints : list (option (constraint_def E))) (extras : option (table_extras E))
  | VIEW_ENTRY (tgt : target) (query : option (option Q))
  | TYPE_ENTRY (tgt : target) (query : option S)
  | MACRO_ENTRY (tgt : target)
  | SCHEMA_ENTRY (tgt : target) (options : option (named E))
  | CREATE_OTHER.

Record drop_info : Type := mkDropInfo {
  dr_table_or_view : bool;   (* [TABLE_ENTRY] or [VIEW_ENTRY] *)
  dr_target : target;
}.

Inductive alter_kind (E : Type) : Type :=
  | RENAME_COLUMN | RENAME_TABLE | REMOVE_COLUMN | SET_NOT_NULL | DROP_NOT_NULL
  | ALTER_COLUMN_TYPE (expression : option E)
  | SET_DEFAULT (expression : option E)
  | ADD_COLUMN (new_column : column_def E)
  | ALTER_TABLE_OTHER
  | NOT_ALTER_TABLE.
Record alter_info (E : Type) : Type := mkAlterInfo { al_target : target; al_kind : alter_kind E }.

Record pragma_info (E : Type) : Type := mkPragmaInfo {
  pr_name : string;
  pr_parameters : list (option E);
  pr_named_parameters : named E;
}.

Inductive stmt_view (E Q T S : Type) : Type :=
  | SELECT_STATEMENT (node : option Q)
  | EXPLAIN_STATEMENT (stmt : option S) (analyze : bool)
  | RELATION_STATEMENT
  | INSERT_STATEMENT (ctes : cte_map Q) (node : insert_node E Q T)
  | UPDATE_STATEMENT (ctes : cte_map Q) (node : update_node E T)
  | DELETE_STATEMENT (ctes : cte_map Q) (node : delete_node E T)
  | MERGE_INTO_STATEMENT (ctes : cte_map Q) (node : merge_node E T)
  | CREATE_STATEMENT (info : option (create_info E Q S))
  | DROP_STATEMENT (info : option drop_info)
  | ALTER_STATEMENT (info : option (alter_info E))
  | TRANSACTION_STATEMENT
  | DETACH_STATEMENT (info : option string)
  | CREATE_FUNC_STATEMENT
  | COPY_STATEMENT (info : option (copy_info E Q))
  | ATTACH_STATEMENT (info : option (named E))
  | PRAGMA_STATEMENT (info : option (pragma_info E))
  | SET_STATEMENT (name : string) (global : bool) (value : option E)
  | RESET_STATEMENT (name : string) (global : bool)
  | LOAD_STATEMENT
  | STATEMENT_OTHER.

(** ** The parser *)
#[local] Unset Implicit Arguments.
#[local] Unset Contextual Implicit.
#[local] Unset Maximal Implicit Insertion.

Class DuckParser : Type := {
  Expr : Type;
  QueryNode : Type;
  TableRef : Type;
  Statement : Type;
  expr_of : Expr → cpp_exn + expr_view Expr QueryNode;
  query_of : QueryNode → cpp_exn + query_view Expr QueryNode TableRef;
  table_of : TableRef → cpp_exn + table_view Expr QueryNode TableRef;
  stmt_of : Statement → cpp_exn + stmt_view Expr QueryNode TableRef Statement;
  ParseBuiltin : string → cpp_exn + list (option Statement);
  (* [e.what()], [None] for an object that is not a [std::exception] *)
  exn_what : cpp_exn → option string;
  expr_rank : Expr → nat;
  query_rank : QueryNode → nat;
  table_rank : TableRef → nat;
  stmt_rank : Statement → nat;
}.
