(* ===== verification/SqlInspect.v ===== *)
(** * SQL inspection ([src/sql_inspect.cpp])

    The walk over a parsed statement that collects the objects, columns and the
    action of a request.  [WalkCtx] holds the request being built and the stack of
    common-table-expression names in scope; the handlers are written over the
    recursive call [rec], as the code writes them over forward declarations, and
    [walk] ties the knot with fuel.  The promise: a request that is not [unsafe]
    lists every object of the statements' trees. *)
From S2P Require Import Prelude CppString StdList DecisionCache Policy SqlAst.

(** ** Objects, functions, columns *)
Definition IsAllowedSystemView (schema table : string) : bool :=
  seqb schema "information_schema" && seqb table "tables".

Definition system_view_names : list string :=
  ["pragma_database_list"; "sqlite_master"; "sqlite_schema"; "sqlite_temp_master"; "sqlite_temp_schema";
   "duckdb_constraints"; "duckdb_columns"; "duckdb_databases"; "duckdb_indexes"; "duckdb_schemas";
   "duckdb_tables"; "duckdb_types"; "duckdb_views"; "duckdb_logs";
   "pg_am"; "pg_prepared_statements"; "pg_attribute"; "pg_attrdef"; "pg_class"; "pg_constraint";
   "pg_collation"; "pg_database"; "pg_depend"; "pg_description"; "pg_enum"; "pg_index";
   "pg_indexes"; "pg_namespace"; "pg_proc"; "pg_sequence"; "pg_sequences"; "pg_settings";
   "pg_tables"; "pg_tablespace"; "pg_type"; "pg_views";
   "columns"; "schemata"; "tables"; "character_sets"; "referential_constraints";
   "key_column_usage"; "table_constraints"; "constraint_column_usage"; "constraint_table_usage";
   "check_constraints"; "views"].
Definition LooksLikeUnqualifiedSystemView (table : string) : bool := existsb (seqb table) system_view_names.

Definition set_objects (l : list string) (r : AuthzRequest) : AuthzRequest :=
  mkAuthzRequest (rq_action r) l (rq_columns r) (rq_unsafe r) (rq_error r).
Definition set_columns (l : list string) (r : AuthzRequest) : AuthzRequest :=
  mkAuthzRequest (rq_action r) (rq_objects r) l (rq_unsafe r) (rq_error r).
Definition set_action (a : Action) (r : AuthzRequest) : AuthzRequest :=
  mkAuthzRequest a (rq_objects r) (rq_columns r) (rq_unsafe r) (rq_error r).
(** [req.unsafe = true; req.error = e;] *)
Definition fail_with (e : string) (r : AuthzRequest) : AuthzRequest :=
  mkAuthzRequest (rq_action r) (rq_objects r) (rq_columns r) true e.
(** [req.unsafe = true; if (req.error.empty()) req.error = e;] *)
Definition mark_unsafe (e : string) (r : AuthzRequest) : AuthzRequest :=
  fail_with (if sempty (rq_error r) then e else rq_error r) r.

Definition push_unique (x : string) (l : list string) : list string :=
  if existsb (seqb x) l then l else l ++ [x].

Definition AddNamedObject (req : AuthzRequest) (object : string) : AuthzRequest :=
  set_objects (push_unique object (rq_objects req)) req.

Definition AddObject (req : AuthzRequest) (t : target) : AuthzRequest :=
  if sempty (tg_table t) then req
  else
    let sch := if sempty (tg_schema t) then "main" else lower_ascii (tg_schema t) in
    let tbl := lower_ascii (tg_table t) in
    let req := if negb (sempty (tg_catalog t)) then mark_unsafe "catalog-qualified object" req else req in
    if seqb sch "information_schema" || seqb sch "pg_catalog" then
      if negb (IsAllowedSystemView sch tbl) then mark_unsafe "system view is not allowlisted" req else req
    else if seqb sch "main" && LooksLikeUnqualifiedSystemView tbl then
      mark_unsafe "unqualified system view is not allowlisted" req
    else AddNamedObject req (sch +:+ "." +:+ tbl).

Definition IsExemptFunction (name : string) : bool := existsb (seqb name) ["duckdb_tables"; "duckdb_columns"].
Definition AllowedPragma (name : string) : bool := existsb (seqb name) ["version"].
Definition AllowedSetting (name : string) : bool := existsb (seqb name) ["threads"].

Definition AddFunctionObject (req : AuthzRequest) (name : string) : AuthzRequest :=
  let lowered := lower_ascii (if sempty name then "?" else name) in
  if IsExemptFunction lowered then req
  else set_objects (push_unique ("fn:" +:+ lowered) (rq_objects req)) req.

Definition AddColumn (req : AuthzRequest) (col : string) : AuthzRequest :=
  if sempty col then req
  else set_columns (push_unique (lower_ascii col) (rq_columns req)) req.

(** A name that DuckDB would bind as a file read. *)
Definition file_suffixes : list string :=
  ["csv"; "tsv"; "txt"; "parquet"; "json"; "jsonl"; "ndjson"; "geojson"; "geojsonl"; "shp"; "gpkg"; "fgb";
   "xlsx"; "avro"; "arrow"; "db"; "ddb"; "duckdb"; "sqlite"; "gz"; "zst"].
Definition is_path_char (c : ascii) : bool := is_char "/" c || is_char "\" c || is_char ":" c.
Definition IsReplacementScanName (t : target) : bool :=
  if existsb (λ part, existsb is_path_char (chars part)) [tg_catalog t; tg_schema t; tg_table t] then true
  else if existsb (is_char ".") (chars (tg_table t)) then true
  else if sempty (tg_schema t) && sempty (tg_catalog t) then false
  else existsb (seqb (lower_ascii (tg_table t))) file_suffixes.

(** ** The walk *)
Record WalkCtx : Type := mkWalkCtx { wc_req : AuthzRequest; cte_names : list string }.
Definition Walk : Type := M WalkCtx unit.

(** A view: the accessor's exception is the walk's. *)
Definition see {A} (v : cpp_exn + A) : M WalkCtx A :=
  lift (match v with inl e => Throw e | inr a => Ret a end).
Definition on_req (f : AuthzRequest → AuthzRequest) : Walk :=
  modify (λ c, mkWalkCtx (f (wc_req c)) (cte_names c)).
Definition Unsafe (message : string) : Walk := on_req (mark_unsafe message).
Definition skip : Walk := mret tt.
Definition push_cte (alias : string) : Walk :=
  modify (λ c, mkWalkCtx (wc_req c) (cte_names c ++ [alias])).
Definition IsCte (name : string) (c : WalkCtx) : bool := existsb (seqb name) (cte_names c).

(** A range-for loop. *)
Definition for_each {A} (f : A → Walk) (l : list A) : Walk := M_fold (λ _ x, f x) tt l.
(** [if (p) f( *p);] and [if (p) f( *p); else Unsafe(message);] *)
Definition if_some {A} (f : A → Walk) (p : option A) : Walk := match p with Some x => f x | None => skip end.
Definition some_or_unsafe {A} (f : A → Walk) (message : string) (p : option A) : Walk :=
  match p with Some x => f x | None => Unsafe message end.
(** A [SelectStatement] pointer and its [node]. *)
Definition node_or_unsafe {A} (f : A → Walk) (message : string) (p : option (option A)) : Walk :=
  match p with Some (Some x) => f x | _ => Unsafe message end.

Section walk.
Context `{!DuckParser}.

Inductive work : Type :=
  | WExpr (expr : Expr)
  | WQuery (qn : QueryNode)
  | WTable (ref : TableRef)
  | WStmt (s : Statement).

Section handlers.
Variable rec : work → Walk.

Definition WalkExpressions (l : list (option Expr)) : Walk := for_each (if_some (λ e, rec (WExpr e))) l.
Definition WalkNamedExpressions (l : named Expr) : Walk :=
  for_each (λ entry, some_or_unsafe (λ e, rec (WExpr e)) "null named expression" entry.2) l.

(** The constructor of [CteScope] over a map; its destructor is [end_scope]. *)
Definition open_ctes (map : cte_map QueryNode) : Walk :=
  for_each (λ '(key, def),
    _ ← match def with
        | None => Unsafe "null CTE definition"
        | Some query => some_or_unsafe (λ q, rec (WQuery q)) "null CTE query" query
        end;
    push_cte (lower_ascii key)) map.
Definition with_scope (enter body : Walk) : Walk :=
  size ← gets (λ c, length (cte_names c));
  _ ← enter;
  _ ← body;
  modify (λ c, mkWalkCtx (wc_req c) (take size (cte_names c))).
Definition CteScope (map : cte_map QueryNode) (body : Walk) : Walk := with_scope (open_ctes map) body.
Definition AliasScope (alias : string) (body : Walk) : Walk :=
  with_scope (if negb (sempty alias) then push_cte alias else skip) body.

Definition WalkExpression (expr : Expr) : Walk :=
  v ← see (expr_of expr);
  _ ← match ev_class v with
      | COLUMN_REF names => if_some (λ name, on_req (λ req, AddColumn req name)) (last names)
      | STAR => on_req (λ req, AddColumn req "*")
      | SUBQUERY_EXPR subquery => node_or_unsafe (λ q, rec (WQuery q)) "null expression subquery" subquery
      | FUNCTION name =>
          let name := lower_ascii name in
          if seqb name "current_setting" || seqb name "getvariable" || seqb name "nextval" || seqb name "currval" then
            Unsafe "state-reading or mutating scalar function"
          else skip
      | CONSTANT | EXPRESSION_OTHER => skip
      end;
  for_each (λ child, rec (WExpr child)) (ev_children v).

Definition WalkCopyInfo (info : copy_info Expr QueryNode) : Walk :=
  _ ← on_req (λ req, AddObject req (co_target info));
  _ ← if_some (λ q, rec (WQuery q)) (co_select_statement info);
  _ ← if_some (λ e, rec (WExpr e)) (co_file_path_expression info);
  WalkNamedExpressions (co_parsed_options info).

Definition WalkModifier (m : modifier Expr) : Walk :=
  match m with
  | ORDER_MODIFIER orders =>
      for_each (some_or_unsafe (λ e, rec (WExpr e)) "null ORDER BY expression") orders
  | LIMIT_MODIFIER limit offset =>
      _ ← if_some (λ e, rec (WExpr e)) limit; if_some (λ e, rec (WExpr e)) offset
  | DISTINCT_MODIFIER distinct_on_targets => WalkExpressions distinct_on_targets
  | LEGACY_LIMIT_PERCENT visited =>
      if_some (λ '(limit, offset), _ ← if_some (λ e, rec (WExpr e)) limit; if_some (λ e, rec (WExpr e)) offset) visited
  | MODIFIER_OTHER => Unsafe "unsupported query modifier"
  end.
Definition WalkModifiers (l : list (option (modifier Expr))) : Walk :=
  for_each (some_or_unsafe WalkModifier "null query modifier") l.

Definition MergeOnlyUpdates (node : merge_node Expr TableRef) : bool :=
  let actions := mjoin (me_actions node) in
  negb (bool_decide (actions = [])) &&
  forallb (λ a : option (merge_action Expr), match a with Some a => ma_is_update a | None => false end) actions.

Definition WalkSetInfo (info : option (set_info Expr)) : Walk :=
  if_some (λ info, _ ← WalkExpressions (si_expressions info); if_some (λ e, rec (WExpr e)) (si_condition info)) info.

Definition WalkInsert (node : insert_node Expr QueryNode TableRef) : Walk :=
  _ ← on_req (λ req, AddObject req (in_target node));
  _ ← if_some (if_some (λ q, rec (WQuery q))) (in_select_statement node);
  _ ← if_some (λ t, rec (WTable t)) (in_table_ref node);
  _ ← WalkExpressions (in_returning_list node);
  if_some (λ info, _ ← WalkSetInfo (ci_set_info info); if_some (λ e, rec (WExpr e)) (ci_condition info))
    (in_on_conflict_info node).

Definition WalkUpdate (node : update_node Expr TableRef) : Walk :=
  _ ← if_some (λ t, rec (WTable t)) (up_table node);
  _ ← if_some (λ t, rec (WTable t)) (up_from_table node);
  _ ← WalkSetInfo (up_set_info node);
  WalkExpressions (up_returning_list node).

Definition WalkDelete (node : delete_node Expr TableRef) : Walk :=
  _ ← if_some (λ t, rec (WTable t)) (de_table node);
  _ ← for_each (if_some (λ t, rec (WTable t))) (de_using_clauses node);
  _ ← if_some (λ e, rec (WExpr e)) (de_condition node);
  WalkExpressions (de_returning_list node).

Definition WalkMerge (node : merge_node Expr TableRef) : Walk :=
  _ ← if_some (λ t, rec (WTable t)) (me_target node);
  _ ← if_some (λ t, rec (WTable t)) (me_source node);
  _ ← if_some (λ e, rec (WExpr e)) (me_join_condition node);
  _ ← for_each (for_each (some_or_unsafe (λ action,
        _ ← if_some (λ e, rec (WExpr e)) (ma_condition action);
        _ ← WalkSetInfo (ma_update_info action);
        WalkExpressions (ma_expressions action)) "null MERGE action")) (me_actions node);
  WalkExpressions (me_returning_list node).

(** [if (req.action != a) Unsafe(ctx, message);] *)
Definition require_action (a : Action) (message : string) : Walk :=
  on_req (λ req, if bool_decide (rq_action req = a) then req else mark_unsafe message req).

Definition WalkQueryBody (body : query_body Expr QueryNode TableRef) : Walk :=
  match body with
  | SELECT_NODE from_table select_list where_clause having qualify group_expressions =>
      _ ← if_some (λ t, rec (WTable t)) from_table;
      _ ← WalkExpressions select_list;
      _ ← if_some (λ e, rec (WExpr e)) where_clause;
      _ ← if_some (λ e, rec (WExpr e)) having;
      _ ← if_some (λ e, rec (WExpr e)) qualify;
      WalkExpressions group_expressions
  | SET_OPERATION_NODE children => for_each (λ child, rec (WQuery child)) children
  | CTE_NODE ctename query child =>
      _ ← some_or_unsafe (λ q, rec (WQuery q)) "null CTE body" query;
      AliasScope (lower_ascii ctename) (some_or_unsafe (λ q, rec (WQuery q)) "null CTE child" child)
  | RECURSIVE_CTE_NODE ctename seed arm =>
      _ ← some_or_unsafe (λ q, rec (WQuery q)) "null recursive CTE seed" seed;
      AliasScope (lower_ascii ctename) (some_or_unsafe (λ q, rec (WQuery q)) "null recursive CTE arm" arm)
  | BOUND_SUBQUERY_NODE => skip
  | UPDATE_QUERY node => _ ← require_action AUpdate "UPDATE hidden in query"; WalkUpdate node
  | DELETE_QUERY node => _ ← require_action ADelete "DELETE hidden in query"; WalkDelete node
  | INSERT_QUERY node => _ ← require_action AInsert "INSERT hidden in query"; WalkInsert node
  | MERGE_QUERY node =>
      _ ← on_req (λ req, if bool_decide (rq_action req = AUpdate) && MergeOnlyUpdates node then req
                         else mark_unsafe "MERGE hidden in query" req);
      WalkMerge node
  | COPY_QUERY info =>
      _ ← require_action CopyTo "COPY hidden in query";
      some_or_unsafe WalkCopyInfo "null COPY info" info
  | QUERY_OTHER => Unsafe "unsupported query node"
  end.

Definition WalkQueryNode (qn : QueryNode) : Walk :=
  v ← see (query_of qn);
  CteScope (qv_cte_map v) (_ ← WalkModifiers (qv_modifiers v); WalkQueryBody (qv_body v)).

(** A bare name that a common table expression in scope binds. *)
Definition bound_by_cte (t : target) (c : WalkCtx) : bool :=
  sempty (tg_catalog t) && sempty (tg_schema t) && IsCte (lower_ascii (tg_table t)) c.

Definition quoted (name : string) : string := String "034" (name +:+ String "034" "").

Definition WalkShow (t : target) : Walk :=
  let name := tg_table t in
  if seqb name (quoted "variables") then Unsafe "SHOW VARIABLES exposes session variables"
  else if seqb name (quoted "databases") || seqb name (quoted "schemas") || seqb name (quoted "tables")
          || seqb name "__show_tables_expanded" then skip
  else if sempty name then Unsafe "SHOW without inspectable target"
  else if IsReplacementScanName t then Unsafe "path-like SHOW target"
  else
    bound ← gets (bound_by_cte t);
    if negb bound then on_req (λ req, AddObject req t) else skip.

(** The name of a table function, empty when there is none. *)
Definition function_name (function : option Expr) : M WalkCtx string :=
  match function with
  | None => mret ""
  | Some f => v ← see (expr_of f); mret (match ev_class v with FUNCTION name => name | _ => "" end)
  end.

Definition WalkTableRef (ref : TableRef) : Walk :=
  v ← see (table_of ref);
  match v with
  | BASE_TABLE at_clause t =>
      _ ← if_some (some_or_unsafe (λ e, rec (WExpr e)) "null AT clause expression") at_clause;
      bound ← gets (bound_by_cte t);
      if (bound : bool) then skip
      else if IsReplacementScanName t then Unsafe "path-like replacement scan"
      else on_req (λ req, AddObject req t)
  | JOIN lhs rhs condition =>
      _ ← if_some (λ t, rec (WTable t)) lhs;
      _ ← if_some (λ t, rec (WTable t)) rhs;
      if_some (λ e, rec (WExpr e)) condition
  | SUBQUERY_REF subquery => node_or_unsafe (λ q, rec (WQuery q)) "null subquery ref" subquery
  | TABLE_FUNCTION function subquery =>
      fn_name ← function_name function;
      _ ← (if sempty fn_name then on_req (fail_with "unnamed table function")
           else
             _ ← on_req (λ req, AddFunctionObject req fn_name);
             let lowered := lower_ascii fn_name in
             if seqb lowered "query" || seqb lowered "query_table" then Unsafe "dynamic SQL table function" else skip);
      _ ← if_some (λ e, rec (WExpr e)) function;
      if_some (some_or_unsafe (λ q, rec (WQuery q)) "null table-function subquery") subquery
  | PIVOT source aggregates pivots =>
      _ ← if_some (λ t, rec (WTable t)) source;
      _ ← WalkExpressions aggregates;
      for_each (λ p,
        _ ← WalkExpressions (pv_pivot_expressions p);
        _ ← if_some (λ q, rec (WQuery q)) (pv_subquery p);
        WalkExpressions (pv_entries p)) pivots
  | EXPRESSION_LIST values => for_each WalkExpressions values
  | SHOW_REF query t => match query with Some q => rec (WQuery q) | None => WalkShow t end
  | EMPTY_FROM | CTE_REF | COLUMN_DATA | DELIM_GET | BOUND_TABLE_REF | INVALID_REF => skip
  | TABLE_OTHER => Unsafe "unsupported table reference"
  end.

Definition WalkColumn (column : column_def Expr) : Walk :=
  match column with
  | GeneratedColumn e | DefaultColumn e => rec (WExpr e)
  | PlainColumn => skip
  end.

Definition WalkConstraint (constraint : constraint_def Expr) : Walk :=
  match constraint with
  | CHECK_CONSTRAINT expression => some_or_unsafe (λ e, rec (WExpr e)) "null CHECK expression" expression
  | NOT_NULL_CONSTRAINT | UNIQUE_CONSTRAINT | FOREIGN_KEY_CONSTRAINT => skip
  | CONSTRAINT_OTHER => Unsafe "unknown CREATE TABLE constraint"
  end.

Definition WalkCreate (info : create_info Expr QueryNode Statement) : Walk :=
  match info with
  | TABLE_ENTRY t query columns constraints extras =>
      _ ← on_req (λ req, AddObject req t);
      _ ← if_some (some_or_unsafe (λ q, rec (WQuery q)) "null CREATE TABLE query") query;
      _ ← for_each WalkColumn columns;
      _ ← for_each (some_or_unsafe WalkConstraint "null CREATE TABLE constraint") constraints;
      if_some (λ x,
        _ ← WalkExpressions (te_partition_keys x);
        _ ← WalkExpressions (te_sort_keys x);
        WalkNamedExpressions (te_options x)) extras
  | VIEW_ENTRY t query =>
      _ ← on_req (λ req, AddObject req t);
      node_or_unsafe (λ q, rec (WQuery q)) "null CREATE VIEW query" query
  | TYPE_ENTRY t query =>
      _ ← on_req (λ req, AddObject req t);
      if_some (λ s, rec (WStmt s)) query
  | MACRO_ENTRY t =>
      _ ← on_req (λ req, AddObject req t);
      Unsafe "CREATE MACRO body requires catalog binding"
  | SCHEMA_ENTRY t options =>
      _ ← (if negb (sempty (tg_catalog t)) then Unsafe "catalog-qualified CREATE SCHEMA" else skip);
      _ ← (if sempty (tg_schema t) then Unsafe "unnamed CREATE SCHEMA"
           else on_req (λ req, AddNamedObject req ("schema:" +:+ lower_ascii (tg_schema t))));
      if_some WalkNamedExpressions options
  | CREATE_OTHER => Unsafe "unsupported CREATE body"
  end.

Definition WalkDrop (info : drop_info) : Walk :=
  _ ← (if negb (dr_table_or_view info) then Unsafe "unsupported DROP entry type" else skip);
  if sempty (tg_table (dr_target info)) then Unsafe "unnamed DROP target"
  else on_req (λ req, AddObject req (dr_target info)).

Definition WalkAlter (info : alter_info Expr) : Walk :=
  _ ← (if sempty (tg_table (al_target info)) then Unsafe "unnamed ALTER target"
       else on_req (λ req, AddObject req (al_target info)));
  match al_kind info with
  | NOT_ALTER_TABLE => Unsafe "unsupported ALTER kind"
  | RENAME_COLUMN | RENAME_TABLE | REMOVE_COLUMN | SET_NOT_NULL | DROP_NOT_NULL => skip
  | ALTER_COLUMN_TYPE expression => some_or_unsafe (λ e, rec (WExpr e)) "null ALTER TYPE expression" expression
  | SET_DEFAULT expression => if_some (λ e, rec (WExpr e)) expression
  | ADD_COLUMN new_column => WalkColumn new_column
  | ALTER_TABLE_OTHER => Unsafe "unsupported ALTER subtype"
  end.

(** [if (b) Unsafe(ctx, message);] *)
Definition unsafe_if (b : bool) (message : string) : Walk := if b then Unsafe message else skip.

Definition ClassifyStatement (s : Statement) : M WalkCtx Action :=
  v ← see (stmt_of s);
  match v with
  | SELECT_STATEMENT _ | EXPLAIN_STATEMENT _ _ | RELATION_STATEMENT => mret Scan
  | INSERT_STATEMENT _ _ => mret AInsert
  | UPDATE_STATEMENT _ _ => mret AUpdate
  | DELETE_STATEMENT _ _ => mret ADelete
  | MERGE_INTO_STATEMENT _ node =>
      _ ← unsafe_if (negb (MergeOnlyUpdates node)) "MERGE has non-UPDATE action"; mret AUpdate
  | CREATE_STATEMENT _ | DROP_STATEMENT _ | ALTER_STATEMENT _ | TRANSACTION_STATEMENT | DETACH_STATEMENT _ => mret Ddl
  | CREATE_FUNC_STATEMENT => _ ← Unsafe "CREATE FUNCTION body is not inspectable"; mret Ddl
  | COPY_STATEMENT info =>
      mret (match info with Some info => if co_is_from info then CopyFrom else CopyTo | None => CopyTo end)
  | ATTACH_STATEMENT _ => mret Attach
  | PRAGMA_STATEMENT info =>
      match info with
      | None => _ ← Unsafe "null PRAGMA info"; mret Pragma
      | Some info =>
          let name := lower_ascii (pr_name info) in
          if seqb name "quack_serve" || seqb name "quack_stop" || seqb name "quack_restart" then mret ServeAdmin
          else
            _ ← unsafe_if (starts_with "quack_oauth_" name) "quack_oauth PRAGMA is not inspectable";
            _ ← unsafe_if (negb (AllowedPragma name)) "PRAGMA is not allowlisted";
            mret Pragma
      end
  | SET_STATEMENT name global _ =>
      let name := lower_ascii name in
      _ ← unsafe_if (starts_with "quack_oauth_" name || negb (AllowedSetting name)) "SET/RESET is not allowlisted";
      _ ← unsafe_if global "GLOBAL SET/RESET changes shared state";
      mret Pragma
  | RESET_STATEMENT name global =>
      let name := lower_ascii name in
      _ ← unsafe_if (starts_with "quack_oauth_" name || negb (AllowedSetting name)) "SET/RESET is not allowlisted";
      _ ← unsafe_if global "GLOBAL SET/RESET changes shared state";
      _ ← Unsafe "RESET changes shared state";
      mret Pragma
  | LOAD_STATEMENT => _ ← Unsafe "extension LOAD or INSTALL"; mret Ddl
  | STATEMENT_OTHER => _ ← Unsafe "unsupported statement type"; mret Scan
  end.

Definition WalkStatement (s : Statement) : Walk :=
  v ← see (stmt_of s);
  match v with
  | SELECT_STATEMENT node => if_some (λ q, rec (WQuery q)) node
  | EXPLAIN_STATEMENT stmt analyze =>
      match stmt with
      | None => Unsafe "null EXPLAIN statement"
      | Some stmt =>
          _ ← unsafe_if analyze "EXPLAIN ANALYZE may execute SQL";
          _ ← ClassifyStatement stmt;
          rec (WStmt stmt)
      end
  | INSERT_STATEMENT ctes node => CteScope ctes (WalkInsert node)
  | UPDATE_STATEMENT ctes node => CteScope ctes (WalkUpdate node)
  | DELETE_STATEMENT ctes node => CteScope ctes (WalkDelete node)
  | MERGE_INTO_STATEMENT ctes node => CteScope ctes (WalkMerge node)
  | COPY_STATEMENT info => some_or_unsafe WalkCopyInfo "null COPY info" info
  | CREATE_STATEMENT info => some_or_unsafe WalkCreate "null CREATE info" info
  | DROP_STATEMENT info => some_or_unsafe WalkDrop "null DROP info" info
  | ALTER_STATEMENT info => some_or_unsafe WalkAlter "null ALTER info" info
  | PRAGMA_STATEMENT info =>
      some_or_unsafe (λ info, _ ← WalkExpressions (pr_parameters info); WalkNamedExpressions (pr_named_parameters info))
        "null PRAGMA info" info
  | ATTACH_STATEMENT info => some_or_unsafe WalkNamedExpressions "null ATTACH info" info
  | DETACH_STATEMENT info =>
      some_or_unsafe (λ name,
        let name := lower_ascii name in
        if sempty name then Unsafe "unnamed DETACH target"
        else on_req (λ req, AddNamedObject req ("catalog:" +:+ name))) "null DETACH info" info
  | SET_STATEMENT name _ value =>
      some_or_unsafe (λ e,
        _ ← rec (WExpr e);
        v ← see (expr_of e);
        _ ← unsafe_if (match ev_class v with CONSTANT => false | _ => true end) "nonconstant SET value";
        unsafe_if (seqb (lower_ascii name) "threads" && negb (seqb (ev_ToString v) "4"))
          "threads setting must be the approved value 4") "null SET value" value
  | RESET_STATEMENT _ _ => skip
  | LOAD_STATEMENT | TRANSACTION_STATEMENT | RELATION_STATEMENT => skip
  | CREATE_FUNC_STATEMENT => Unsafe "CREATE FUNCTION body is not inspectable"
  | STATEMENT_OTHER => Unsafe "unsupported statement walk"
  end.
End handlers.

(** The recursion, with fuel: [Stuck] when it runs out. *)
Fixpoint walk (fuel : nat) (w : work) : Walk :=
  match fuel with
  | O => lift Stuck
  | S fuel =>
      match w with
      | WExpr e => WalkExpression (walk fuel) e
      | WQuery q => WalkQueryNode (walk fuel) q
      | WTable t => WalkTableRef (walk fuel) t
      | WStmt s => WalkStatement (walk fuel) s
      end
  end.

Definition rank (w : work) : nat :=
  match w with
  | WExpr e => expr_rank e
  | WQuery q => query_rank q
  | WTable t => table_rank t
  | WStmt s => stmt_rank s
  end.

(** The loop over the statements, each in a scope of its own. *)
Fixpoint inspect_statements (first : bool) (l : list (option Statement)) : Walk :=
  match l with
  | [] => skip
  | None :: l => _ ← Unsafe "null statement"; inspect_statements first l
  | Some stmt :: l =>
      _ ← modify (λ c, mkWalkCtx (wc_req c) []);
      action ← ClassifyStatement stmt;
      _ ← (if first then on_req (set_action action)
           else on_req (λ req, if bool_decide (action = rq_action req) then req
                               else mark_unsafe "mixed statement actions" req));
      _ ← walk (S (rank (WStmt stmt))) (WStmt stmt);
      inspect_statements false l
  end.

Definition AuthzRequest_default : AuthzRequest := mkAuthzRequest Scan [] [] false "".

Definition InspectSql (query : string) : exc AuthzRequest :=
  let req := AuthzRequest_default in
  if sempty query then Ret req
  else match ParseBuiltin query with
       | inl e => Ret (fail_with (default "parse_error" (exn_what e)) req)
       | inr statements =>
           match inspect_statements true statements (mkWalkCtx req []) with
           | (Ret _, c) => Ret (wc_req c)
           | (Throw e, c) => Ret (fail_with (default "statement inspection error" (exn_what e)) (wc_req c))
           | (Stuck, _) => Stuck
           end
       end.
End walk.

(** ** What a request owes

    A declarative reading of a tree: [owes scope w f] says that node [w], read in
    a scope of common-table-expression names, makes the request owe the fact [f].
    [obls] lists the facts of one node and its parts, each part with the scope SQL
    gives it. *)
Inductive fact : Type :=
  | FTable (t : target)        (* a table or view read, written or defined *)
  | FFunction (name : string)  (* a table function *)
  | FColumn (name : string)
  | FNamed (object : string)
  | FAction (a : Action)       (* a data-changing node of this action *)
  | FRejected.                 (* a shape that must not pass *)

Definition schema_of (t : target) : string := if sempty (tg_schema t) then "main" else lower_ascii (tg_schema t).
Definition object_name (t : target) : string := schema_of t +:+ "." +:+ lower_ascii (tg_table t).
Definition system_schema (schema : string) : bool := seqb schema "information_schema" || seqb schema "pg_catalog".

(** The request accounts for a fact. *)
Definition listed (req : AuthzRequest) (f : fact) : Prop :=
  match f with
  | FTable t => tg_table t = "" ∨
      tg_catalog t = "" ∧
      if system_schema (schema_of t) then schema_of t = "information_schema" ∧ lower_ascii (tg_table t) = "tables"
      else object_name t ∈ rq_objects req
  | FFunction name => IsExemptFunction (lower_ascii name) = true ∨ "fn:" +:+ lower_ascii name ∈ rq_objects req
  | FColumn name => name = "" ∨ lower_ascii name ∈ rq_columns req
  | FNamed object => object ∈ rq_objects req
  | FAction a => rq_action req = a
  | FRejected => False
  end.

Definition met (req : AuthzRequest) (f : fact) : Prop := rq_unsafe req = true ∨ listed req f.

Definition opt {A B} (g : A → list B) (p : option A) : list B := match p with Some x => g x | None => [] end.
Definition each {A B} (g : A → list B) (l : list A) : list B := mjoin (g <$> l).

Section owes.
Context `{!DuckParser}.

Inductive obl : Type := OFact (f : fact) | OWork (scope : list string) (w : work).

Definition reject_if (b : bool) : list obl := if b then [OFact FRejected] else [].

Section parts.
Variable s : list string.

Definition ex (e : Expr) : list obl := [OWork s (WExpr e)].
Definition qu (q : QueryNode) : list obl := [OWork s (WQuery q)].
Definition ta (t : TableRef) : list obl := [OWork s (WTable t)].
Definition exs : list (option Expr) → list obl := each (opt ex).
Definition nameds (l : named Expr) : list obl := each (λ entry, opt ex entry.2) l.

Definition set_obls : option (set_info Expr) → list obl :=
  opt (λ i, exs (si_expressions i) ++ opt ex (si_condition i)).
Definition insert_obls (n : insert_node Expr QueryNode TableRef) : list obl :=
  [OFact (FTable (in_target n))] ++ opt (opt qu) (in_select_statement n) ++ opt ta (in_table_ref n)
  ++ exs (in_returning_list n)
  ++ opt (λ i, set_obls (ci_set_info i) ++ opt ex (ci_condition i)) (in_on_conflict_info n).
Definition update_obls (n : update_node Expr TableRef) : list obl :=
  opt ta (up_table n) ++ opt ta (up_from_table n) ++ set_obls (up_set_info n) ++ exs (up_returning_list n).
Definition delete_obls (n : delete_node Expr TableRef) : list obl :=
  opt ta (de_table n) ++ each (opt ta) (de_using_clauses n) ++ opt ex (de_condition n) ++ exs (de_returning_list n).
Definition merge_obls (n : merge_node Expr TableRef) : list obl :=
  opt ta (me_target n) ++ opt ta (me_source n) ++ opt ex (me_join_condition n)
  ++ each (each (opt (λ a, opt ex (ma_condition a) ++ set_obls (ma_update_info a) ++ exs (ma_expressions a))))
       (me_actions n)
  ++ exs (me_returning_list n).
Definition copy_obls (i : copy_info Expr QueryNode) : list obl :=
  [OFact (FTable (co_target i))] ++ opt qu (co_select_statement i) ++ opt ex (co_file_path_expression i)
  ++ nameds (co_parsed_options i).

Definition modifier_obls (m : modifier Expr) : list obl :=
  match m with
  | ORDER_MODIFIER orders => exs orders
  | LIMIT_MODIFIER limit offset => opt ex limit ++ opt ex offset
  | DISTINCT_MODIFIER targets => exs targets
  | LEGACY_LIMIT_PERCENT visited => opt (λ '(limit, offset), opt ex limit ++ opt ex offset) visited
  | MODIFIER_OTHER => [OFact FRejected]
  end.

(** A bare name is bound by a name in scope. *)
Definition bound_in (t : target) : bool :=
  sempty (tg_catalog t) && sempty (tg_schema t) && existsb (seqb (lower_ascii (tg_table t))) s.

Definition expr_obls (v : expr_view Expr QueryNode) : list obl :=
  match ev_class v with
  | COLUMN_REF names => opt (λ name, [OFact (FColumn name)]) (last names)
  | STAR => [OFact (FColumn "*")]
  | SUBQUERY_EXPR subquery => opt (opt qu) subquery
  | FUNCTION name =>
      reject_if (existsb (seqb (lower_ascii name)) ["current_setting"; "getvariable"; "nextval"; "currval"])
  | CONSTANT | EXPRESSION_OTHER => []
  end ++ each ex (ev_children v).

(** The names of a function expression, where there is one. *)
Definition function_name_of (function : option Expr) : string :=
  match function with
  | Some f => match expr_of f with
              | inr v => match ev_class v with FUNCTION name => name | _ => "" end
              | inl _ => ""
              end
  | None => ""
  end.

Definition table_obls (v : table_view Expr QueryNode TableRef) : list obl :=
  match v with
  | BASE_TABLE at_clause t =>
      opt (opt ex) at_clause ++
      if bound_in t then [] else OFact (FTable t) :: reject_if (IsReplacementScanName t)
  | JOIN lhs rhs condition => opt ta lhs ++ opt ta rhs ++ opt ex condition
  | SUBQUERY_REF subquery => opt (opt qu) subquery
  | TABLE_FUNCTION function subquery =>
      (let name := function_name_of function in
       [OFact (FFunction name)]
       ++ reject_if (existsb (seqb (lower_ascii name)) [""; "query"; "query_table"]))
      ++ opt ex function ++ opt (opt qu) subquery
  | PIVOT source aggregates pivots =>
      opt ta source ++ exs aggregates
      ++ each (λ p, exs (pv_pivot_expressions p) ++ opt qu (pv_subquery p) ++ exs (pv_entries p)) pivots
  | EXPRESSION_LIST values => each exs values
  | SHOW_REF (Some q) _ => qu q
  | SHOW_REF None t =>
      if existsb (seqb (tg_table t)) [quoted "databases"; quoted "schemas"; quoted "tables"; "__show_tables_expanded"]
      then []
      else reject_if (existsb (seqb (tg_table t)) [quoted "variables"; ""])
           ++ if bound_in t && negb (IsReplacementScanName t) then []
              else OFact (FTable t) :: reject_if (IsReplacementScanName t)
  | EMPTY_FROM | CTE_REF | COLUMN_DATA | DELIM_GET | BOUND_TABLE_REF | INVALID_REF => []
  | TABLE_OTHER => [OFact FRejected]
  end.

Definition column_obls (c : column_def Expr) : list obl :=
  match c with GeneratedColumn e | DefaultColumn e => ex e | PlainColumn => [] end.
Definition constraint_obls (c : constraint_def Expr) : list obl :=
  match c with
  | CHECK_CONSTRAINT e => opt ex e
  | NOT_NULL_CONSTRAINT | UNIQUE_CONSTRAINT | FOREIGN_KEY_CONSTRAINT => []
  | CONSTRAINT_OTHER => [OFact FRejected]
  end.

Definition create_obls (i : create_info Expr QueryNode Statement) : list obl :=
  match i with
  | TABLE_ENTRY t query columns constraints extras =>
      [OFact (FTable t)] ++ opt (opt qu) query ++ each column_obls columns
      ++ each (opt constraint_obls) constraints
      ++ opt (λ x, exs (te_partition_keys x) ++ exs (te_sort_keys x) ++ nameds (te_options x)) extras
  | VIEW_ENTRY t query => [OFact (FTable t)] ++ opt (opt qu) query
  | TYPE_ENTRY t query => [OFact (FTable t)] ++ opt (λ st, [OWork s (WStmt st)]) query
  | MACRO_ENTRY t => [OFact (FTable t)] ++ [OFact FRejected]
  | SCHEMA_ENTRY t options =>
      reject_if (negb (sempty (tg_catalog t)))
      ++ [OFact (FNamed ("schema:" +:+ lower_ascii (tg_schema t)))] ++ opt nameds options
  | CREATE_OTHER => [OFact FRejected]
  end.

Definition drop_obls (i : drop_info) : list obl :=
  reject_if (negb (dr_table_or_view i)) ++ [OFact (FTable (dr_target i))].

Definition alter_obls (i : alter_info Expr) : list obl :=
  [OFact (FTable (al_target i))] ++
  match al_kind i with
  | RENAME_COLUMN | RENAME_TABLE | REMOVE_COLUMN | SET_NOT_NULL | DROP_NOT_NULL => []
  | ALTER_COLUMN_TYPE e | SET_DEFAULT e => opt ex e
  | ADD_COLUMN c => column_obls c
  | NOT_ALTER_TABLE | ALTER_TABLE_OTHER => [OFact FRejected]
  end.
End parts.

Definition alias_scope (s : list string) (alias : string) : list string := if sempty alias then s else s ++ [alias].

(** The definition of an expression sees the names before it. *)
Fixpoint cte_obls (s : list string) (map : cte_map QueryNode) : list obl :=
  match map with
  | [] => []
  | (key, def) :: map => opt (opt (qu s)) def ++ cte_obls (s ++ [lower_ascii key]) map
  end.
Definition cte_scope (s : list string) (map : cte_map QueryNode) : list string := s ++ (lower_ascii <$> map.*1).

Definition body_obls (s : list string) (b : query_body Expr QueryNode TableRef) : list obl :=
  match b with
  | SELECT_NODE from_table select_list where_clause having qualify group_expressions =>
      opt (ta s) from_table ++ exs s select_list ++ opt (ex s) where_clause ++ opt (ex s) having
      ++ opt (ex s) qualify ++ exs s group_expressions
  | SET_OPERATION_NODE children => each (qu s) children
  | CTE_NODE name query child => opt (qu s) query ++ opt (qu (alias_scope s (lower_ascii name))) child
  | RECURSIVE_CTE_NODE name seed arm => opt (qu s) seed ++ opt (qu (alias_scope s (lower_ascii name))) arm
  | BOUND_SUBQUERY_NODE => []
  | UPDATE_QUERY n => [OFact (FAction AUpdate)] ++ update_obls s n
  | DELETE_QUERY n => [OFact (FAction ADelete)] ++ delete_obls s n
  | INSERT_QUERY n => [OFact (FAction AInsert)] ++ insert_obls s n
  | MERGE_QUERY n => (OFact (FAction AUpdate) :: reject_if (negb (MergeOnlyUpdates n))) ++ merge_obls s n
  | COPY_QUERY info => [OFact (FAction CopyTo)] ++ opt (copy_obls s) info
  | QUERY_OTHER => [OFact FRejected]
  end.

(** The allow-lists on the statement itself. *)
Definition allowed_statement (v : stmt_view Expr QueryNode TableRef Statement) : bool :=
  match v with
  | MERGE_INTO_STATEMENT _ node => MergeOnlyUpdates node
  | PRAGMA_STATEMENT (Some info) =>
      existsb (seqb (lower_ascii (pr_name info))) ["quack_serve"; "quack_stop"; "quack_restart"; "version"]
  | SET_STATEMENT name global _ => seqb (lower_ascii name) "threads" && negb global
  | PRAGMA_STATEMENT None | CREATE_FUNC_STATEMENT | RESET_STATEMENT _ _ | LOAD_STATEMENT | STATEMENT_OTHER => false
  | _ => true
  end.
Definition is_allowed (s : Statement) : bool :=
  match stmt_of s with inr v => allowed_statement v | inl _ => true end.

Definition set_value_ok (name : string) (e : Expr) : bool :=
  match expr_of e with
  | inr v => match ev_class v with CONSTANT => true | _ => false end
             && (negb (seqb (lower_ascii name) "threads") || seqb (ev_ToString v) "4")
  | inl _ => true
  end.

Definition stmt_obls (s : list string) (v : stmt_view Expr QueryNode TableRef Statement) : list obl :=
  match v with
  | SELECT_STATEMENT node => opt (qu s) node
  | EXPLAIN_STATEMENT stmt analyze =>
      opt (λ st, reject_if analyze ++ reject_if (negb (is_allowed st)) ++ [OWork s (WStmt st)]) stmt
  | INSERT_STATEMENT ctes n => cte_obls s ctes ++ insert_obls (cte_scope s ctes) n
  | UPDATE_STATEMENT ctes n => cte_obls s ctes ++ update_obls (cte_scope s ctes) n
  | DELETE_STATEMENT ctes n => cte_obls s ctes ++ delete_obls (cte_scope s ctes) n
  | MERGE_INTO_STATEMENT ctes n => cte_obls s ctes ++ merge_obls (cte_scope s ctes) n
  | COPY_STATEMENT info => opt (copy_obls s) info
  | CREATE_STATEMENT info => opt (create_obls s) info
  | DROP_STATEMENT info => opt drop_obls info
  | ALTER_STATEMENT info => opt (alter_obls s) info
  | PRAGMA_STATEMENT info => opt (λ i, exs s (pr_parameters i) ++ nameds s (pr_named_parameters i)) info
  | ATTACH_STATEMENT info => opt (nameds s) info
  | DETACH_STATEMENT info => opt (λ name, [OFact (FNamed ("catalog:" +:+ lower_ascii name))]) info
  | SET_STATEMENT name _ value => opt (λ e, ex s e ++ reject_if (negb (set_value_ok name e))) value
  | RESET_STATEMENT _ _ | LOAD_STATEMENT | TRANSACTION_STATEMENT | RELATION_STATEMENT => []
  | CREATE_FUNC_STATEMENT | STATEMENT_OTHER => [OFact FRejected]
  end.

Definition query_obls (s : list string) (v : query_view Expr QueryNode TableRef) : list obl :=
  let s' := cte_scope s (qv_cte_map v) in
  cte_obls s (qv_cte_map v) ++ each (opt (modifier_obls s')) (qv_modifiers v) ++ body_obls s' (qv_body v).

Definition obls (s : list string) (w : work) : list obl :=
  match w with
  | WExpr e => match expr_of e with inr v => expr_obls s v | inl _ => [] end
  | WQuery q => match query_of q with inr v => query_obls s v | inl _ => [] end
  | WTable t => match table_of t with inr v => table_obls s v | inl _ => [] end
  | WStmt st => match stmt_of st with inr v => stmt_obls s v | inl _ => [] end
  end.

Inductive owes : list string → work → fact → Prop :=
  | owes_here s w f : OFact f ∈ obls s w → owes s w f
  | owes_part s w s' w' f : OWork s' w' ∈ obls s w → owes s' w' f → owes s w f.

(** Parse trees are finite. *)
Class DuckParserLaws : Prop :=
  rank_of_part : ∀ s w s' w', OWork s' w' ∈ obls s w → (rank w' < rank w)%nat.
End owes.

(** ** Growing requests *)
Record req_le (r r' : AuthzRequest) : Prop := {
  le_action : rq_action r' = rq_action r;
  le_objects : ∀ x, x ∈ rq_objects r → x ∈ rq_objects r';
  le_columns : ∀ x, x ∈ rq_columns r → x ∈ rq_columns r';
  le_unsafe : rq_unsafe r = true → rq_unsafe r' = true;
}.
#[export] Instance req_le_preorder : PreOrder req_le.
Proof.
  split; [by split|]. intros r1 r2 r3 [] []. split; [congruence|auto..].
Qed.

Lemma listed_mono r r' f : req_le r r' → listed r f → listed r' f.
Proof.
  intros [Ha Ho Hc _]. destruct f; simpl; [|naive_solver..|by rewrite Ha|done].
  destruct (system_schema _); naive_solver.
Qed.
Lemma met_mono r r' f : req_le r r' → met r f → met r' f.
Proof. intros Hle [Hu|Hl]; [left; by apply Hle|right; by eapply listed_mono]. Qed.

Lemma push_unique_elem x y l : y ∈ push_unique x l ↔ y = x ∨ y ∈ l.
Proof.
  unfold push_unique. destruct (existsb (seqb x) l) eqn:He.
  - apply existsb_elem in He as (z & Hz & Heq). apply seqb_true in Heq as ->. naive_solver.
  - rewrite elem_of_app, list_elem_of_singleton. tauto.
Qed.

Lemma mark_unsafe_le e r : req_le r (mark_unsafe e r).
Proof. by split. Qed.
Lemma fail_with_le e r : req_le r (fail_with e r).
Proof. by split. Qed.
Lemma AddNamedObject_le r o : req_le r (AddNamedObject r o).
Proof. split; try done. intros x Hx. apply push_unique_elem. by right. Qed.
Lemma AddFunctionObject_le r n : req_le r (AddFunctionObject r n).
Proof. unfold AddFunctionObject. destruct (IsExemptFunction _); [done|]. apply AddNamedObject_le. Qed.
Lemma AddColumn_le r c : req_le r (AddColumn r c).
Proof.
  unfold AddColumn. destruct (sempty c); [done|]. split; try done. intros x Hx. apply push_unique_elem. by right.
Qed.
Lemma AddObject_le r t : req_le r (AddObject r t).
Proof.
  unfold AddObject. destruct (sempty (tg_table t)); [done|].
  set (r' := if negb (sempty (tg_catalog t)) then _ else r).
  assert (req_le r r') as Hr by (subst r'; destruct (negb _); [apply mark_unsafe_le|done]).
  clearbody r'. etrans; [exact Hr|]. repeat case_match; first [reflexivity|apply mark_unsafe_le|apply AddNamedObject_le].
Qed.
Create HintDb sql.
#[export] Hint Resolve mark_unsafe_le fail_with_le AddNamedObject_le AddFunctionObject_le AddColumn_le AddObject_le : sql.

Lemma AddNamedObject_met r o : met (AddNamedObject r o) (FNamed o).
Proof. right. apply push_unique_elem. by left. Qed.
Lemma AddColumn_met r c : met (AddColumn r c) (FColumn c).
Proof.
  right. unfold AddColumn. simpl. destruct (sempty c) eqn:Hc; [left; by apply sempty_true|].
  right. apply push_unique_elem. by left.
Qed.
Lemma AddFunctionObject_met r n : n ≠ "" → met (AddFunctionObject r n) (FFunction n).
Proof.
  intros Hn. right. unfold AddFunctionObject. simpl. rewrite (proj2 (sempty_false n) Hn).
  destruct (IsExemptFunction _); [by left|]. right. apply push_unique_elem. by left.
Qed.
Lemma AddObject_met r t : met (AddObject r t) (FTable t).
Proof.
  unfold AddObject, met, listed. destruct (sempty (tg_table t)) eqn:Ht; [right; left; by apply sempty_true|].
  fold (schema_of t). fold (system_schema (schema_of t)).
  destruct (sempty (tg_catalog t)) eqn:Hc; simpl.
  - apply sempty_true in Hc. destruct (system_schema (schema_of t)).
    + unfold IsAllowedSystemView. destruct (_ && _) eqn:Ha; [|by left]. right; right. split; [done|].
      by apply andb_true_iff in Ha as [?%seqb_true ?%seqb_true].
    + destruct (_ && _); [by left|]. right; right. split; [done|]. apply push_unique_elem. by left.
  - left. destruct (system_schema _); [by destruct (negb _)|]. by destruct (_ && _).
Qed.
#[export] Hint Resolve AddNamedObject_met AddColumn_met AddFunctionObject_met AddObject_met : sql.

(** ** Visiting *)
Section visits.
Context `{!DuckParser}.
Implicit Types (s : list string) (os : list obl).

Definition omet (req : AuthzRequest) (o : obl) : Prop :=
  match o with
  | OFact f => met req f
  | OWork s w => ∀ f, owes s w f → met req f
  end.

Lemma omet_mono r r' o : req_le r r' → omet r o → omet r' o.
Proof. destruct o; simpl; eauto using met_mono. Qed.
Lemma omet_unsafe r o : rq_unsafe r = true → omet r o.
Proof. intros Hu. destruct o; simpl; by left. Qed.

(** A walk that starts in scope [s], ends in [s'], only grows the request, does
    not get stuck and, unless it throws, meets the obligations. *)
Definition walks {A} s s' os (m : M WalkCtx A) : Prop :=
  ∀ c, cte_names c = s → wp m (λ r c',
    match r with
    | Ret _ => cte_names c' = s' ∧ req_le (wc_req c) (wc_req c') ∧ ∀ o, o ∈ os → omet (wc_req c') o
    | Throw _ => req_le (wc_req c) (wc_req c')
    | Stuck => False
    end) c.

(** The same, if the recursive calls are right on the parts. *)
Definition visits {A} (rec : work → Walk) s s' os (m : M WalkCtx A) : Prop :=
  (∀ s0 w0, OWork s0 w0 ∈ os → walks s0 s0 [OWork s0 w0] (rec w0)) → walks s s' os m.

Lemma walks_bind {A B} s s1 s' os1 os2 (m : M WalkCtx A) (f : A → M WalkCtx B) :
  walks s s1 os1 m → (∀ a, walks s1 s' os2 (f a)) → walks s s' (os1 ++ os2) (m ≫= f).
Proof.
  intros Hm Hf c Hc. apply wp_bind. eapply wp_mono; [by apply Hm|]. intros [a|e|] c1; simpl; [|done..].
  intros (Hc1 & Hle & Ho). eapply wp_mono; [by apply Hf|]. intros [b|e|] c2; [|by etrans|done].
  intros (Hc2 & Hle2 & Ho2). split; [done|]. split; [by etrans|].
  intros o [Hin|Hin]%elem_of_app; [|auto]. eapply omet_mono; [done|auto].
Qed.

Section rules.
Variable rec : work → Walk.
Implicit Types m : Walk.

Lemma visits_bind {A B} s s1 s' os1 os2 (m : M WalkCtx A) (f : A → M WalkCtx B) :
  visits rec s s1 os1 m → (∀ a, visits rec s1 s' os2 (f a)) → visits rec s s' (os1 ++ os2) (m ≫= f).
Proof.
  intros Hm Hf Hrec. eapply walks_bind.
  - apply Hm. intros s0 w0 Hw. apply Hrec. apply elem_of_app. by left.
  - intros a. apply Hf. intros s0 w0 Hw. apply Hrec. apply elem_of_app. by right.
Qed.
Lemma visits_after {A B} s s1 s' os (m : M WalkCtx A) (f : A → M WalkCtx B) :
  visits rec s s1 [] m → (∀ a, visits rec s1 s' os (f a)) → visits rec s s' os (m ≫= f).
Proof. apply (visits_bind s s1 s' []). Qed.
Lemma visits_nil_r {A} s s' os (m : M WalkCtx A) : visits rec s s' os m → visits rec s s' (os ++ []) m.
Proof. by rewrite app_nil_r. Qed.

Lemma visits_iff {A} s s' os os' (m : M WalkCtx A) :
  (∀ o, o ∈ os' ↔ o ∈ os) → visits rec s s' os m → visits rec s s' os' m.
Proof.
  intros Hos Hm Hrec c Hc. eapply wp_mono; [apply Hm; [|exact Hc]|].
  - intros s0 w0 Hw. by apply Hrec, Hos.
  - intros [a|e|] c'; [|done..]. intros (? & ? & Ho). split_and!; [done..|]. intros o ?%Hos. auto.
Qed.
Lemma visits_ret {A} s (a : A) : visits rec s s [] (mret a).
Proof. intros _ c Hc. split; [done|]. split; [done|]. by intros o ?%not_elem_of_nil. Qed.
Lemma visits_rec s w : visits rec s s [OWork s w] (rec w).
Proof. intros Hrec. apply Hrec. left. Qed.
Lemma visits_on_req s os f :
  (∀ r, req_le r (f r)) → (∀ r o, o ∈ os → omet (f r) o) → visits rec s s os (on_req f).
Proof. intros Hle Ho _ c Hc. split; [done|]. split; [apply Hle|]. intros o Hin. by apply Ho. Qed.
Lemma visits_fact s f F :
  (∀ r, req_le r (f r)) → (∀ r, met (f r) F) → visits rec s s [OFact F] (on_req f).
Proof. intros Hle Hf. apply visits_on_req; [done|]. intros r o ->%list_elem_of_singleton. apply Hf. Qed.
Lemma visits_unsafe s os msg : visits rec s s os (Unsafe msg).
Proof. apply visits_on_req; [auto with sql|]. intros r o _. by apply omet_unsafe. Qed.
Lemma visits_see {A B} s s' os (v : cpp_exn + A) (f : A → M WalkCtx B) :
  (∀ a, v = inr a → visits rec s s' os (f a)) → visits rec s s' os (see v ≫= f).
Proof.
  intros Hf Hrec c Hc. apply wp_bind, wp_lift. destruct v as [e|a]; simpl; [done|]. by apply Hf.
Qed.
Lemma visits_bound {B} s s' os t (f : bool → M WalkCtx B) :
  visits rec s s' os (f (bound_in s t)) → visits rec s s' os (gets (bound_by_cte t) ≫= f).
Proof.
  intros Hf Hrec c Hc. apply wp_bind, wp_gets. simpl. unfold bound_by_cte, IsCte. rewrite Hc. by apply Hf.
Qed.
Lemma visits_push s alias : visits rec s (s ++ [alias]) [] (push_cte alias).
Proof. intros _ c <-. split; [done|]. split; [done|]. by intros o ?%not_elem_of_nil. Qed.

Lemma visits_if_some {A} s (g : A → list obl) (f : A → Walk) (p : option A) :
  (∀ x, visits rec s s (g x) (f x)) → visits rec s s (opt g p) (if_some f p).
Proof. intros Hf. destruct p; [apply Hf|apply visits_ret]. Qed.
Lemma visits_some_or_unsafe {A} s (g : A → list obl) (f : A → Walk) msg (p : option A) :
  (∀ x, visits rec s s (g x) (f x)) → visits rec s s (opt g p) (some_or_unsafe f msg p).
Proof. intros Hf. destruct p; [apply Hf|apply visits_unsafe]. Qed.
Lemma visits_node_or_unsafe {A} s (g : A → list obl) (f : A → Walk) msg (p : option (option A)) :
  (∀ x, visits rec s s (g x) (f x)) → visits rec s s (opt (opt g) p) (node_or_unsafe f msg p).
Proof. intros Hf. destruct p as [[x|]|]; [apply Hf|apply visits_unsafe..]. Qed.
Lemma visits_for_each {A} s (g : A → list obl) (f : A → Walk) (l : list A) :
  (∀ x, visits rec s s (g x) (f x)) → visits rec s s (each g l) (for_each f l).
Proof.
  intros Hf. unfold for_each, each. induction l as [|x l IH]; simpl; [apply visits_ret|].
  eapply visits_bind; [apply Hf|]. by intros [].
Qed.
Lemma visits_unsafe_if s (b : bool) msg : visits rec s s (reject_if b) (unsafe_if b msg).
Proof. destruct b; [apply visits_unsafe|apply visits_ret]. Qed.
Lemma visits_require s a msg : visits rec s s [OFact (FAction a)] (require_action a msg).
Proof.
  apply visits_fact; intros r; case_bool_decide; [reflexivity|auto with sql|by right|by left].
Qed.

(** A scope that closes again. *)
Lemma visits_with_scope s s' os1 os2 enter body :
  visits rec s s' os1 enter → visits rec s' s' os2 body → s `prefix_of` s' →
  visits rec s s (os1 ++ os2) (with_scope enter body).
Proof.
  intros He Hb [t ->] Hrec c Hc. unfold with_scope. apply wp_bind, wp_gets. simpl. rewrite Hc.
  assert (walks s (s ++ t) (os1 ++ os2) (_ ← enter; body)) as Hw.
  { apply (visits_bind s (s ++ t) (s ++ t)); [done|by intros []|done]. }
  specialize (Hw c Hc). apply wp_bind. apply wp_bind_inv in Hw. eapply wp_mono; [exact Hw|].
  intros [[]|e|] c1; simpl; [|done..]. intros Hw1. apply wp_bind. eapply wp_mono; [exact Hw1|].
  intros [[]|e|] c2; simpl; [|done..]. intros (Hc2 & Hle & Ho).
  apply wp_modify. cbn [cte_names wc_req]. split; [by rewrite Hc2, take_app_length|done].
Qed.
End rules.
End visits.

(** One rule per constructor of a walk. *)
Ltac visits_step :=
  lazymatch goal with
  | |- visits _ _ _ (_ ++ _) (_ ≫= _) => eapply visits_bind; [|intros []]
  | |- visits _ _ _ _ (see _ ≫= _) => let v := fresh "v" in let Hv := fresh "Hv" in apply visits_see; intros v Hv
  | |- visits _ _ _ _ (gets (bound_by_cte _) ≫= _) => apply visits_bound
  | |- visits _ _ _ _ (if_some _ _) => apply visits_if_some; intros
  | |- visits _ _ _ _ (some_or_unsafe _ _ _) => apply visits_some_or_unsafe; intros
  | |- visits _ _ _ _ (node_or_unsafe _ _ _) => apply visits_node_or_unsafe; intros
  | |- visits _ _ _ _ (for_each _ _) => apply visits_for_each; intros
  | |- visits _ _ _ _ (Unsafe _) => apply visits_unsafe
  | |- visits _ _ _ _ (unsafe_if _ _) => apply visits_unsafe_if
  | |- visits _ _ _ _ (require_action _ _) => apply visits_require
  | |- visits _ _ _ [OFact _] (on_req _) => apply visits_fact; auto with sql
  | |- visits _ _ _ [] skip => apply visits_ret
  | |- visits ?rec _ _ _ (?rec _) => apply visits_rec
  end.
Ltac visits := repeat visits_step.

Section handlers_visit.
Context `{!DuckParser} (rec : work → Walk).
Implicit Types s : list string.

Lemma WalkExpressions_visits s l : visits rec s s (exs s l) (WalkExpressions rec l).
Proof. unfold WalkExpressions, exs. visits. Qed.
Lemma WalkNamedExpressions_visits s l : visits rec s s (nameds s l) (WalkNamedExpressions rec l).
Proof. unfold WalkNamedExpressions, nameds. visits. Qed.
Hint Resolve WalkExpressions_visits WalkNamedExpressions_visits : sql.

Lemma WalkSetInfo_visits s i : visits rec s s (set_obls s i) (WalkSetInfo rec i).
Proof. unfold WalkSetInfo, set_obls. visits. auto with sql. Qed.
Lemma WalkCopyInfo_visits s i : visits rec s s (copy_obls s i) (WalkCopyInfo rec i).
Proof. unfold WalkCopyInfo, copy_obls. visits. auto with sql. Qed.
Hint Resolve WalkSetInfo_visits WalkCopyInfo_visits : sql.

Lemma WalkInsert_visits s n : visits rec s s (insert_obls s n) (WalkInsert rec n).
Proof. unfold WalkInsert, insert_obls. visits; auto with sql. Qed.
Lemma WalkUpdate_visits s n : visits rec s s (update_obls s n) (WalkUpdate rec n).
Proof. unfold WalkUpdate, update_obls. visits; auto with sql. Qed.
Lemma WalkDelete_visits s n : visits rec s s (delete_obls s n) (WalkDelete rec n).
Proof. unfold WalkDelete, delete_obls. visits; auto with sql. Qed.
Lemma WalkMerge_visits s n : visits rec s s (merge_obls s n) (WalkMerge rec n).
Proof. unfold WalkMerge, merge_obls. visits; auto with sql. Qed.
Hint Resolve WalkInsert_visits WalkUpdate_visits WalkDelete_visits WalkMerge_visits : sql.

Lemma WalkModifiers_visits s l : visits rec s s (each (opt (modifier_obls s)) l) (WalkModifiers rec l).
Proof.
  apply visits_for_each. intros p. apply visits_some_or_unsafe. intros m.
  destruct m as [orders|limit offset|targets|visited|]; simpl; [unfold exs; visits|visits|auto with sql| |visits].
  apply visits_if_some. intros [limit offset]. visits.
Qed.

Lemma open_ctes_visits s map : visits rec s (cte_scope s map) (cte_obls s map) (open_ctes rec map).
Proof.
  unfold open_ctes, for_each. revert s. induction map as [|[key def] map IH]; intros s; simpl.
  - unfold cte_scope. simpl. rewrite app_nil_r. apply visits_ret.
  - unfold cte_scope in *. simpl. rewrite cons_middle, app_assoc. eapply visits_bind; [|intros []; apply IH].
    rewrite <-(app_nil_r (opt _ def)). eapply visits_bind; [|intros; apply visits_push].
    destruct def as [[q|]|]; [apply (visits_rec rec s (WQuery q))|apply visits_unsafe..].
Qed.
Lemma CteScope_visits s map os body :
  visits rec (cte_scope s map) (cte_scope s map) os body →
  visits rec s s (cte_obls s map ++ os) (CteScope rec map body).
Proof.
  intros Hb. eapply visits_with_scope; [apply open_ctes_visits|exact Hb|]. by eexists.
Qed.
Lemma AliasScope_visits s alias os body :
  visits rec (alias_scope s alias) (alias_scope s alias) os body → visits rec s s os (AliasScope alias body).
Proof.
  intros Hb. apply (visits_with_scope rec s (alias_scope s alias) []); [|exact Hb|].
  - unfold alias_scope. destruct (sempty alias); [apply visits_ret|apply visits_push].
  - unfold alias_scope. destruct (sempty alias); [done|by eexists].
Qed.

Lemma WalkQueryBody_visits s b : visits rec s s (body_obls s b) (WalkQueryBody rec b).
Proof.
  destruct b; cbn [body_obls WalkQueryBody]; visits; auto with sql.
  - apply AliasScope_visits. visits.
  - apply AliasScope_visits. visits.
  - apply visits_on_req; intros r.
    + destruct (_ && _); auto with sql. reflexivity.
    + destruct (bool_decide (rq_action r = AUpdate)) eqn:Ha; [|intros o _; by apply omet_unsafe].
      destruct (MergeOnlyUpdates node); [|intros o _; by apply omet_unsafe].
      intros o ->%list_elem_of_singleton. right. by apply bool_decide_eq_true in Ha.
Qed.

Lemma WalkQueryNode_visits s q : visits rec s s (obls s (WQuery q)) (WalkQueryNode rec q).
Proof.
  unfold WalkQueryNode. visits. cbn [obls]. rewrite Hv. apply CteScope_visits.
  visits; [apply WalkModifiers_visits|apply WalkQueryBody_visits].
Qed.

Lemma WalkExpression_visits s e : visits rec s s (obls s (WExpr e)) (WalkExpression rec e).
Proof.
  unfold WalkExpression. visits. cbn [obls]. rewrite Hv. unfold expr_obls. visits.
  destruct (ev_class v); visits.
  cbn [existsb]. rewrite orb_false_r, !orb_assoc. apply visits_unsafe_if.
Qed.

Lemma seqb_empty n : seqb n "" = sempty n.
Proof. by destruct n. Qed.

Lemma WalkShow_visits s t : visits rec s s (table_obls s (SHOW_REF None t)) (WalkShow t).
Proof.
  unfold WalkShow. cbn [table_obls existsb]. rewrite !orb_false_r, !orb_assoc.
  destruct (seqb (tg_table t) (quoted "variables")) eqn:Hvar; [apply visits_unsafe|].
  destruct (_ || _); [apply visits_ret|].
  rewrite seqb_empty.
  destruct (sempty (tg_table t)); [apply visits_unsafe|]. cbn [orb reject_if app].
  destruct (IsReplacementScanName t); [apply visits_unsafe|]. rewrite andb_true_r. apply visits_bound.
  destruct (bound_in s t); cbn [negb reject_if]; visits.
Qed.

Lemma function_name_visits {B} s s' os function (f : string → M WalkCtx B) :
  visits rec s s' os (f (function_name_of function)) → visits rec s s' os (function_name function ≫= f).
Proof.
  intros Hf. destruct function as [e|]; [|exact Hf]. intros Hrec c Hc. specialize (Hf Hrec c Hc).
  unfold function_name, function_name_of in *. destruct (expr_of e) as [x|v] eqn:Hv; [|exact Hf].
  by unfold wp.
Qed.

Lemma WalkTableRef_visits s t : visits rec s s (obls s (WTable t)) (WalkTableRef rec t).
Proof.
  unfold WalkTableRef. visits. cbn [obls]. rewrite Hv. destruct v; cbn [table_obls]; try apply function_name_visits; visits; auto with sql.
  - destruct (bound_in s tgt); [apply visits_ret|]. destruct (IsReplacementScanName tgt); cbn [reject_if]; visits.
  - set (name := function_name_of function).
    destruct (sempty name) eqn:He.
    + apply sempty_true in He as ->. apply visits_on_req; [auto with sql|]. intros r o _. by apply omet_unsafe.
    + cbn [existsb]. assert (seqb (lower_ascii name) "" = false) as ->.
      { apply sempty_false in He. destruct name; [done|]. done. }
      rewrite orb_false_r. cbn [orb]. visits.
      * intros r. apply AddFunctionObject_met. by apply sempty_false.
      * apply visits_unsafe_if.
  - destruct query; [apply visits_rec|apply WalkShow_visits].
Qed.

Lemma WalkColumn_visits s c : visits rec s s (column_obls s c) (WalkColumn rec c).
Proof. destruct c; simpl; visits. Qed.
Lemma WalkConstraint_visits s c : visits rec s s (constraint_obls s c) (WalkConstraint rec c).
Proof. destruct c; simpl; visits. Qed.
Hint Resolve WalkColumn_visits WalkConstraint_visits : sql.

Lemma WalkCreate_visits s i : visits rec s s (create_obls s i) (WalkCreate rec i).
Proof.
  destruct i; cbn [create_obls WalkCreate]; visits; auto with sql.
  - apply visits_unsafe_if.
  - destruct (sempty (tg_schema tgt)); visits.
Qed.
Lemma WalkDrop_visits s i : visits rec s s (drop_obls i) (WalkDrop i).
Proof.
  unfold WalkDrop, drop_obls. visits; [apply visits_unsafe_if|]. destruct (sempty _); visits.
Qed.
Lemma WalkAlter_visits s i : visits rec s s (alter_obls s i) (WalkAlter rec i).
Proof.
  unfold WalkAlter, alter_obls. visits; [destruct (sempty _); visits|].
  destruct (al_kind i); visits; auto with sql.
Qed.
Hint Resolve WalkCreate_visits WalkDrop_visits WalkAlter_visits : sql.

(** The action and the allow-lists of a statement. *)
Definition statement_action (v : stmt_view Expr QueryNode TableRef Statement) : Action :=
  match v with
  | SELECT_STATEMENT _ | EXPLAIN_STATEMENT _ _ | RELATION_STATEMENT | STATEMENT_OTHER => Scan
  | INSERT_STATEMENT _ _ => AInsert
  | UPDATE_STATEMENT _ _ | MERGE_INTO_STATEMENT _ _ => AUpdate
  | DELETE_STATEMENT _ _ => ADelete
  | COPY_STATEMENT info => match info with Some i => if co_is_from i then CopyFrom else CopyTo | None => CopyTo end
  | ATTACH_STATEMENT _ => Attach
  | PRAGMA_STATEMENT (Some i) =>
      if existsb (seqb (lower_ascii (pr_name i))) ["quack_serve"; "quack_stop"; "quack_restart"] then ServeAdmin
      else Pragma
  | PRAGMA_STATEMENT None | SET_STATEMENT _ _ _ | RESET_STATEMENT _ _ => Pragma
  | CREATE_STATEMENT _ | DROP_STATEMENT _ | ALTER_STATEMENT _ | TRANSACTION_STATEMENT | DETACH_STATEMENT _
  | CREATE_FUNC_STATEMENT | LOAD_STATEMENT => Ddl
  end.
Definition action_of (st : Statement) : option Action :=
  match stmt_of st with inr v => Some (statement_action v) | inl _ => None end.

Lemma visits_ret_reject {A} s (a : A) b : b = false → visits rec s s (reject_if b) (mret a).
Proof. intros ->. apply visits_ret. Qed.

Lemma visits_then_ret {A} s os (m : Walk) (a : A) : visits rec s s os m → visits rec s s os (_ ← m; mret a).
Proof.
  intros Hm. rewrite <-(app_nil_r os). eapply visits_bind; [exact Hm|]. intros _. apply visits_ret.
Qed.

Lemma visits_reject_or {A} s b b1 b2 (m1 : Walk) (m2 : M WalkCtx A) :
  b = b1 || b2 → visits rec s s (reject_if b1) m1 → visits rec s s (reject_if b2) m2 →
  visits rec s s (reject_if b) (_ ← m1; m2).
Proof.
  intros -> H1 H2. apply (visits_iff rec s s (reject_if b1 ++ reject_if b2)).
  - intros o. destruct b1, b2; simpl; set_solver.
  - eapply visits_bind; [exact H1|]. intros _. exact H2.
Qed.

Lemma ClassifyStatement_visits s st :
  visits rec s s (reject_if (negb (is_allowed st))) (ClassifyStatement st).
Proof.
  unfold ClassifyStatement. visits. unfold is_allowed. rewrite Hv.
  destruct v; cbn [allowed_statement negb]; try apply visits_ret;
    try (apply visits_then_ret, visits_unsafe).
  - apply visits_then_ret, visits_unsafe_if.
  - destruct info as [i|]; [|apply visits_then_ret, visits_unsafe]. cbn [existsb].
    rewrite !orb_false_r, !orb_assoc. destruct (_ || _ || seqb _ "quack_restart"); [by apply visits_ret_reject|].
    cbn [orb]. unfold AllowedPragma. cbn [existsb]. rewrite orb_false_r.
    set (name := lower_ascii (pr_name i)).
    apply (visits_reject_or s _ (starts_with "quack_oauth_" name) (negb (seqb name "version") || false));
      [|apply visits_unsafe_if|eapply visits_reject_or; [done|apply visits_unsafe_if|by apply visits_ret_reject]].
    destruct (seqb name "version") eqn:Hn; [by apply seqb_true in Hn as ->|simpl; by rewrite orb_true_r].
  - unfold AllowedSetting. cbn [existsb]. rewrite orb_false_r. set (n := lower_ascii name).
    apply (visits_reject_or s _ (starts_with "quack_oauth_" n || negb (seqb n "threads")) (global || false));
      [|apply visits_unsafe_if|eapply visits_reject_or; [done|apply visits_unsafe_if|by apply visits_ret_reject]].
    destruct (seqb n "threads") eqn:Hn, global; rewrite ?orb_true_r; try done. by apply seqb_true in Hn as ->.
  - eapply (visits_reject_or s true _ (global || true)); [by rewrite !orb_true_r|apply visits_unsafe_if|].
    eapply visits_reject_or; [done|apply visits_unsafe_if|apply visits_then_ret, visits_unsafe].
Qed.

Lemma ClassifyStatement_action st c a c' :
  ClassifyStatement st c = (Ret a, c') → action_of st = Some a.
Proof.
  unfold ClassifyStatement, action_of. destruct (stmt_of st) as [e|v]; [done|].
  unfold mbind, M_bind, see, lift, mret, M_ret.
  destruct v; cbn [statement_action]; unfold unsafe_if; try (intros; by simplify_eq/=).
  - destruct (MergeOnlyUpdates node); intros; by simplify_eq/=.
  - destruct info as [i|]; [|intros; by simplify_eq/=]. cbn [existsb]. rewrite orb_false_r, orb_assoc.
    destruct (_ || _); [intros; by simplify_eq/=|].
    destruct (starts_with _ _), (AllowedPragma _); intros; by simplify_eq/=.
  - destruct (_ || _), global; intros; by simplify_eq/=.
  - destruct (_ || _), global; intros; by simplify_eq/=.
Qed.

Lemma set_value_visits s name e v :
  expr_of e = inr v →
  visits rec s s (reject_if (negb (set_value_ok name e)))
    (_ ← unsafe_if (match ev_class v with CONSTANT => false | _ => true end) "nonconstant SET value";
     unsafe_if (seqb (lower_ascii name) "threads" && negb (seqb (ev_ToString v) "4"))
       "threads setting must be the approved value 4").
Proof.
  intros Hv. unfold set_value_ok. rewrite Hv. eapply visits_reject_or; [|apply visits_unsafe_if..].
  rewrite negb_andb, negb_orb, negb_involutive. by destruct (ev_class v).
Qed.

Lemma WalkStatement_visits s st : visits rec s s (obls s (WStmt st)) (WalkStatement rec st).
Proof.
  unfold WalkStatement. visits. cbn [obls]. rewrite Hv.
  destruct v; cbn [stmt_obls]; visits; auto with sql; try apply visits_ret; try (apply CteScope_visits; auto with sql).
  - destruct stmt as [st'|]; [|apply visits_unsafe]. cbn [opt].
    eapply visits_bind; [apply visits_unsafe_if|intros []].
    eapply visits_bind; [apply ClassifyStatement_visits|intros _; apply visits_rec].
  - destruct (sempty (lower_ascii x)); visits.
  - by apply set_value_visits.
Qed.
End handlers_visit.


(** ** The whole walk *)
Section inspect.
Context `{!DuckParser, !DuckParserLaws}.

Lemma walk_visits fuel s w : (rank w < fuel)%nat → walks s s [OWork s w] (walk fuel w).
Proof.
  revert s w. induction fuel as [|fuel IH]; intros s w Hf; [lia|].
  assert (walks s s (obls s w) (walk (S fuel) w)) as Hw.
  { destruct w as [e|q|t|st]; [apply WalkExpression_visits|apply WalkQueryNode_visits|apply WalkTableRef_visits
                |apply WalkStatement_visits];
      intros s0 w0 Hin; apply IH; pose proof (rank_of_part _ _ _ _ Hin); lia. }
  intros c Hc. eapply wp_mono; [by apply Hw|]. intros [a|e|] c'; [|done..].
  intros (? & ? & Ho). split_and!; [done..|]. intros o ->%list_elem_of_singleton f Hf'.
  inversion Hf' as [? ? ? Hin|? ? s' w' ? Hin Hsub]; subst.
  - exact (Ho _ Hin).
  - exact (Ho _ Hin f Hsub).
Qed.

(** What a safe request guarantees of each statement. *)
Definition accounted (req : AuthzRequest) (p : option Statement) : Prop :=
  ∃ st, p = Some st ∧ action_of st = Some (rq_action req) ∧ is_allowed st = true ∧
    ∀ f, owes [] (WStmt st) f → listed req f.

Lemma accounted_mono r r' p : req_le r r' → accounted r p → accounted r' p.
Proof.
  intros Hle (st & -> & Ha & Hok & Hf). exists st. rewrite (le_action _ _ Hle).
  split_and!; [done..|]. intros f Hw. eapply listed_mono; eauto.
Qed.

Lemma ClassifyStatement_walks st : walks [] [] (reject_if (negb (is_allowed st))) (ClassifyStatement st).
Proof.
  apply (ClassifyStatement_visits (λ _, skip)). intros s0 w0 Hin.
  destruct (is_allowed st); cbn in Hin; [by apply not_elem_of_nil in Hin|].
  by apply list_elem_of_singleton in Hin.
Qed.

(** The first statement sets the action of the request, the others are compared with it. *)
Lemma set_or_check (first : bool) a c :
  wp (if first then on_req (set_action a)
      else on_req (λ req, if bool_decide (a = rq_action req) then req
                          else mark_unsafe "mixed statement actions" req) : Walk)
    (λ r c', r = Ret tt ∧ cte_names c' = cte_names c ∧
       (a = rq_action (wc_req c') ∨ rq_unsafe (wc_req c') = true) ∧
       (rq_unsafe (wc_req c) = true → rq_unsafe (wc_req c') = true) ∧
       (first = false → req_le (wc_req c) (wc_req c'))) c.
Proof.
  destruct first; (eapply wp_unfold; [apply surjective_pairing|]); cbn [on_req modify fst snd wc_req cte_names].
  - split_and!; [done..|by left|done|done].
  - case_bool_decide; split_and!; try done; [by left|by right].
Qed.

Lemma inspect_statements_spec first l c :
  wp (inspect_statements first l) (λ r c',
    match r with
    | Ret _ =>
        (rq_unsafe (wc_req c) = true → rq_unsafe (wc_req c') = true) ∧
        (first = false → req_le (wc_req c) (wc_req c')) ∧
        (rq_unsafe (wc_req c') = false → Forall (accounted (wc_req c')) l)
    | Throw _ => True
    | Stuck => False
    end) c.
Proof.
  revert first c. induction l as [|[st|] l IH]; intros first c; cbn [inspect_statements].
  - split_and!; [done..|]. constructor.
  - apply wp_bind, wp_modify. cbn [wp_then]. set (c1 := mkWalkCtx (wc_req c) []).
    apply wp_bind. pose proof (ClassifyStatement_walks st c1 eq_refl) as Hcl. unfold wp in Hcl.
    eapply wp_unfold; [apply surjective_pairing|].
    destruct (ClassifyStatement st c1) as [[a|e|] c2] eqn:Hst; cbn [fst snd wp_then] in *; [|done..].
    destruct Hcl as (Hc2 & Hle2 & Hok). apply ClassifyStatement_action in Hst.
    apply wp_bind. eapply wp_mono; [apply (set_or_check first a c2)|].
    intros r c3 (-> & Hc3 & Hact & Hu3 & Hle3). cbn [wp_then]. apply wp_bind.
    eapply wp_mono; [apply (walk_visits _ [] (WStmt st)); [lia|congruence]|].
    intros [[]|e|] c4; cbn [wp_then]; [|done..]. intros (Hc4 & Hle4 & Ho4).
    eapply wp_mono; [apply IH|]. intros [[]|e|] c5; [|done..]. intros (Hu5 & Hle5 & Hall).
    specialize (Hle5 eq_refl). assert (req_le (wc_req c3) (wc_req c5)) as Hle35 by (by etrans).
    split_and!.
    + intros Hu. apply (le_unsafe _ _ Hle35), Hu3. by apply Hle2.
    + intros Hf. etrans; [exact Hle2|]. etrans; [by apply Hle3|done].
    + intros Hsafe. constructor; [|by apply Hall].
      assert (∀ r, req_le r (wc_req c5) → rq_unsafe r = true → False) as Hno.
      { intros r Hr Hu. apply (le_unsafe _ _ Hr) in Hu. congruence. }
      exists st. split; [done|]. rewrite (le_action _ _ Hle35). split_and!.
      * rewrite Hst. destruct Hact as [<-|Hu]; [done|]. by destruct (Hno _ Hle35 Hu).
      * destruct (is_allowed st); [done|]. destruct (Hok (OFact FRejected)) as [Hu|[]]; [left|].
        destruct (Hno _ Hle35). by apply Hu3.
      * intros f Hf. destruct (Ho4 (OWork [] (WStmt st)) ltac:(left) f Hf) as [Hu|Hl].
        -- by destruct (Hno _ Hle5 Hu).
        -- exact (listed_mono _ _ _ Hle5 Hl).
  - apply wp_bind. eapply wp_unfold; [apply surjective_pairing|]. cbn [wp_then Unsafe on_req modify fst snd].
    eapply wp_mono; [apply IH|]. intros [[]|e|] c5; [|done..]. cbn [wc_req]. intros (Hu5 & Hle5 & Hall).
    split_and!.
    + intros _. by apply Hu5.
    + intros Hf. etrans; [apply mark_unsafe_le|by apply Hle5].
    + intros Hsafe. rewrite Hu5 in Hsafe by done. done.
Qed.

Lemma InspectSql_spec query :
  ∃ req, InspectSql query = Ret req ∧
    (rq_unsafe req = false → query = "" ∨
       ∃ stmts, ParseBuiltin query = inr stmts ∧ Forall (accounted req) stmts).
Proof.
  unfold InspectSql. destruct (sempty query) eqn:Hq; [eexists; split; [done|]; left; by apply sempty_true|].
  destruct (ParseBuiltin query) as [e|stmts]; [by eexists|].
  pose proof (inspect_statements_spec true stmts (mkWalkCtx AuthzRequest_default [])) as Hw. unfold wp in Hw.
  destruct (inspect_statements _ _ _) as [[[]|e|] c]; simpl in Hw; [|by eexists|done].
  eexists. split; [done|]. intros Hsafe. right. exists stmts. split; [done|]. by apply Hw.
Qed.

(** ** Properties *)

(** Claim C7.  Inspection always produces a request, whatever the parser and the
    tree accessors do, and the request accounts for the whole text: unless it is
    marked unsafe the text parsed (or is empty), every statement has the action of
    the request and passes the allow-lists, and everything its tree contains, at
    any depth and in every clause, is listed: each table not bound by a common
    table expression in scope, each table function, each column, and no
    data-changing node of another action. *)
Theorem inspect_complete query :
  ∃ req, InspectSql query = Ret req ∧
    (rq_unsafe req = false → query = "" ∨
       ∃ stmts, ParseBuiltin query = inr stmts ∧ Forall (accounted req) stmts).
Proof. apply InspectSql_spec. Qed.
End inspect.

(** ** Evaluations: a parser that knows two texts *)
Definition bare (table : string) : target := mkTarget "" "" table.
Definition toy_expr (n : nat) : expr_view nat nat :=
  match n with
  | 0%nat => mkExprView (COLUMN_REF ["t"; "A"]) [] "t.A"
  | 1%nat => mkExprView STAR [] "*"
  | _ => mkExprView EXPRESSION_OTHER [] ""
  end.
(** [WITH C AS (SELECT * FROM acme.Secret) SELECT t.A FROM c JOIN t]. *)
Definition toy_query (n : nat) : query_view nat nat nat :=
  match n with
  | 0%nat => mkQueryView [] [] (SELECT_NODE (Some 0%nat) [Some 1%nat] None None None [])
  | 1%nat => mkQueryView [("C", Some (Some 0%nat))] [] (SELECT_NODE (Some 3%nat) [Some 0%nat] None None None [])
  | _ => mkQueryView [] [] QUERY_OTHER
  end.
Definition toy_table (n : nat) : table_view nat nat nat :=
  match n with
  | 0%nat => BASE_TABLE None (mkTarget "" "acme" "Secret")
  | 1%nat => BASE_TABLE None (bare "c")
  | 2%nat => BASE_TABLE None (bare "T")
  | 3%nat => JOIN (Some 1%nat) (Some 2%nat) None
  | _ => TABLE_OTHER
  end.
Definition toy_stmt (n : nat) : stmt_view nat nat nat nat :=
  match n with
  | 0%nat => SELECT_STATEMENT (Some 1%nat)
  | 1%nat => DELETE_STATEMENT [] (mkDeleteNode (Some 2%nat) [] None [])
  | _ => STATEMENT_OTHER
  end.
Definition toy_parser : DuckParser := {|
  Expr := nat; QueryNode := nat; TableRef := nat; Statement := nat;
  expr_of n := inr (toy_expr n);
  query_of n := inr (toy_query n);
  table_of n := inr (toy_table n);
  stmt_of n := inr (toy_stmt n);
  ParseBuiltin q :=
    if seqb q "read" then inr [Some 0%nat]
    else if seqb q "mixed" then inr [Some 0%nat; Some 1%nat]
    else inl (InvalidInputException "syntax error");
  exn_what e := match e with InvalidInputException msg | IOException msg | BinderException msg => Some msg | StdException => None end;
  expr_rank _ := 0%nat;
  query_rank n := match n with 1%nat => 6%nat | _ => 5%nat end;
  table_rank n := match n with 3%nat => 2%nat | _ => 1%nat end;
  stmt_rank _ := 9%nat;
|}.

Lemma toy_parser_laws : @DuckParserLaws toy_parser.
Proof.
  intros s w s' w' Hin. destruct w as [n|n|n|n]; do 4 (try destruct n as [|n]); cbn in Hin;
    try (destruct (existsb _ s); cbn in Hin);
    repeat (apply elem_of_cons in Hin as [Hin|Hin]); try (by apply not_elem_of_nil in Hin);
    simplify_eq; cbn; lia.
Qed.

(** The name of the common table expression is not an object, its body's table is. *)
Example inspect_read : @InspectSql toy_parser "read" =
  Ret (mkAuthzRequest Scan ["acme.secret"; "main.t"] ["*"; "a"] false "").
Proof. vm_compute. reflexivity. Qed.
Example inspect_mixed : rq_unsafe <$> @InspectSql toy_parser "mixed" = Ret true.
Proof. vm_compute. reflexivity. Qed.
Example inspect_error : rq_error <$> @InspectSql toy_parser "SELEC" = Ret "syntax error".
Proof. vm_compute. reflexivity. Qed.

Lemma inspect_complete_witness :
  ∃ req stmts, @InspectSql toy_parser "read" = Ret req ∧ @ParseBuiltin toy_parser "read" = inr stmts ∧
    Forall (@accounted toy_parser req) stmts.
Proof.
  destruct (@inspect_complete toy_parser toy_parser_laws "read") as (req & Hr & Hsafe).
  exists req, [Some 0%nat]. rewrite inspect_read in Hr. injection Hr as <-.
  split; [apply inspect_read|]. split; [reflexivity|].
  destruct (Hsafe eq_refl) as [Hq|(stmts & Hp & Hall)]; [discriminate Hq|].
  injection Hp as <-. exact Hall.
Defined.
