(* ===== verification/CheckToken.v ===== *)
(** * quack_oauth_check_token ([src/check_token_function.cpp])

    The SQL function that authenticates a bearer token: configuration, the
    plaintext guard, the row loop with its locking, auditing and session store. *)
From S2P Require Import Prelude CppString Executor StdList JwksCache Http DecisionCache AuditLog External.
From S2P Require Import Toy Json JwtParse JwtVerify Validator Introspect UrlGuard Providers Policy DuckDb PolicyTable State.

Record ServerConfig : Type := mkServerConfig {
  sc_mode : string;
  sc_issuer : string;
  sc_audience : string;
  sc_clock_skew_s : Z;
  sc_jwks_uri : string;
  sc_introspection_endpoint : string;
  sc_introspect_client_id : string;
  sc_introspect_client_secret : string;
}.

(** [jwt.scope] split on spaces, then [scp], then [roles]. *)
Definition PrincipalFromJwt (jwt : JwtParsed) : Principal :=
  mkPrincipal (jp_subject jwt) (jp_issuer jwt)
    ((if negb (sempty (jp_scope jwt)) then SplitScopes (jp_scope jwt) else []) ++ jp_scp jwt ++ jp_roles jwt)
    (jp_exp jwt).

Definition VerifyResultReason (r : VerifyResult) : string :=
  match r with
  | Ok => "ok"
  | Malformed => "malformed"
  | DisallowedAlgorithm => "disallowed_algorithm"
  | InvalidSignature => "invalid_signature"
  | Expired => "expired"
  | NotYetValid => "not_yet_valid"
  | WrongIssuer => "wrong_issuer"
  | WrongAudience => "wrong_audience"
  | UnsupportedKeyType => "unsupported_key_type"
  | UnusableKey => "unusable_key"
  | UnknownKid => "unknown_kid"
  | JwksFetchFailed => "jwks_fetch_failed"
  | JwksThrottled => "jwks_throttled"
  | NoMatchingKey => "no_matching_key"
  end.

Record RowValidation : Type := mkRowValidation {
  rv_outcome : VerifyResult;
  rv_have_principal : bool;
  rv_principal : Principal;
  rv_refresh_kid : string;
  rv_refresh_reason : string;
  rv_refresh_reason_enum : RefreshReason;
}.
Definition Principal_default : Principal := mkPrincipal "" "" [] 0.

Record ThrottledLogEvent : Type := mkThrottledLogEvent {
  te_kid : string;
  te_reason : string;
  te_jwks_uri : string;
}.
#[export] Instance ThrottledLogEvent_eq_dec : EqDecision ThrottledLogEvent.
Proof. solve_decision. Defined.

(** [std::string]'s order, and the tuple order of [operator<]. *)
Fixpoint chars_ltb (a b : list ascii) : bool :=
  match a, b with
  | _, [] => false
  | [], _ :: _ => true
  | c :: a, d :: b => if uc c <? uc d then true else if uc d <? uc c then false else chars_ltb a b
  end.
Definition string_ltb (a b : string) : bool := chars_ltb (chars a) (chars b).
Definition ThrottledLogEvent_ltb (a b : ThrottledLogEvent) : bool :=
  if string_ltb (te_kid a) (te_kid b) then true
  else if string_ltb (te_kid b) (te_kid a) then false
  else if string_ltb (te_reason a) (te_reason b) then true
  else if string_ltb (te_reason b) (te_reason a) then false
  else string_ltb (te_jwks_uri a) (te_jwks_uri b).

(** [std::sort] by insertion: the order of elements that compare equal is the one
    of the input. *)
Fixpoint insert_by {A} (ltb : A → A → bool) (x : A) (l : list A) : list A :=
  match l with
  | [] => [x]
  | y :: l' => if ltb y x then y :: insert_by ltb x l' else x :: l
  end.
Definition sort_by {A} (ltb : A → A → bool) (l : list A) : list A := foldr (insert_by ltb) [] l.

(** [std::unique] and [erase]. *)
Fixpoint unique_adjacent {A} `{!EqDecision A} (l : list A) : list A :=
  match l with
  | x :: ((y :: _) as l') => if decide (x = y) then unique_adjacent l' else x :: unique_adjacent l'
  | _ => l
  end.

Definition SanitizeLogField (str : string) (max_len : nat) : string :=
  let ok c := (32 <=? uc c) && (uc c <? 127) && negb (is_char "034" c) && negb (is_char "'" c) && negb (is_char "\" c) in
  of_chars (take max_len (List.filter ok (chars str))).

(** ** The session store *)
Definition kMaxSessionPrincipals : nat := 1000.

(** Whether [it] replaces the current victim. *)
Definition evicts_before (it victim : SessionPrincipal) : bool :=
  let victim_exp := pr_exp (sp_principal victim) in
  let it_exp := pr_exp (sp_principal it) in
  ((0 <? it_exp) && (victim_exp <=? 0))
  || ((0 <? it_exp) && (0 <? victim_exp) && (it_exp <? victim_exp))
  || ((it_exp =? victim_exp) && (sp_updated_at_s it <? sp_updated_at_s victim)).

Section sessions.
Context `{!UMapOrder}.

Definition session_victim (m : gmap string SessionPrincipal) : option (string * SessionPrincipal) :=
  match um_iter m with
  | [] => None
  | first :: rest =>
      Some (foldl (λ victim it, if evicts_before it.2 victim.2 then it else victim) first (first :: rest))
  end.

Fixpoint evict_sessions (fuel : nat) (m : gmap string SessionPrincipal) : exc (gmap string SessionPrincipal) :=
  if (size m <=? kMaxSessionPrincipals)%nat then Ret m
  else
    match fuel with
    | O => Stuck
    | S fuel => victim ← defined (session_victim m); evict_sessions fuel (delete victim.1 m)
    end.

Definition StoreSessionPrincipal (m : gmap string SessionPrincipal) (sid : string) (principal : Principal) (now_s : Z)
    : exc (gmap string SessionPrincipal) :=
  let m := <[sid := mkSessionPrincipal principal now_s]> m in
  evict_sessions (size m) m.

(** An entry of the throttle log that no longer suppresses a message. *)
Definition throttle_stale (now_s : Z) (kv : string * Z) : bool := (now_s <? kv.2) || (30 <? now_s - kv.2).

(** The pruning at the end of [LogThrottledEvents]. *)
Definition prune_throttle_log (m : gmap string Z) (now_s : Z) : gmap string Z :=
  if (size m <=? 1000)%nat then m
  else
    let m := filter (λ kv, throttle_stale now_s kv = false) m in
    if (size m <=? 1000)%nat then m
    else
      let entries := sort_by (λ a b : string * Z, a.2 <? b.2) (um_iter m) in
      let to_remove := (length entries - 800)%nat in
      foldl (λ m e, delete e.1 m) m (take to_remove entries).
End sessions.

Section check_token.
Context `{!Executor, !PicoJson, !JwtCpp, !OpenSsl, !Sha256, !UMapOrder, !DuckValues}.
Context {W : Type} `{!Threads W} (context : ClientContext W) (state : Ref W QuackOauthState).

(** ** Configuration *)
Definition ReadStringSetting (key : string) : M W string :=
  v ← gets (cx_setting context key);
  mret (match v with None => "" | Some v => if dv_IsNull v then "" else dv_ToString v end).

Definition ReadIntSetting (key : string) (fallback : Z) : M W Z :=
  v ← gets (cx_setting context key);
  match v with None => mret fallback | Some v => if dv_IsNull v then mret fallback else lift (dv_int32 v) end.

Definition ReadServerConfigCore (accessor : SecretAccessor) : M W ServerConfig :=
  mode ← ReadStringSetting "quack_oauth_validation_mode";
  let mode := if sempty mode then "jwks" else mode in
  skew ← ReadIntSetting "quack_oauth_clock_skew_s" 60;
  mret (mkServerConfig mode (SecretGet accessor "issuer") (SecretGet accessor "audience") (clamp skew 0 3600)
          (SecretGet accessor "jwks_uri") (SecretGet accessor "introspection_endpoint")
          (SecretGet accessor "introspect_client_id") (SecretGet accessor "introspect_client_secret")).

(** [if (x.empty()) x = y;] *)
Definition fill (x y : string) : string := if sempty x then y else x.

Definition ApplyProviderPreset (accessor : SecretAccessor) (cfg : ServerConfig) : M W ServerConfig :=
  provider_name ← ReadStringSetting "quack_oauth_provider";
  if sempty provider_name || seqb provider_name "generic" then mret cfg
  else
    let provider_id := ProviderFromString provider_name in
    if bool_decide (provider_id = Okta) && (sempty (sc_issuer cfg) || sempty (sc_jwks_uri cfg)) then
      throw (InvalidInputException ("quack_oauth: provider preset 'okta' is reserved for future auto-fill; "
        +:+ "please configure `issuer` and `jwks_uri` explicitly on the SECRET (or use provider='generic')."))
    else
      let tenant_or_realm := SecretGet accessor "tenant_or_realm" in
      if negb (bool_decide (provider_id = Google)) && sempty tenant_or_realm then
        throw (InvalidInputException ("quack_oauth provider preset '" +:+ provider_name
          +:+ "' requires `tenant_or_realm` on the active SECRET "
          +:+ "(set it to the tenant id / realm URL / GitHub App client_id depending on the provider)."))
      else
        resolved ← lift (ResolveProvider provider_id tenant_or_realm);
        let github := bool_decide (provider_id = Github) in
        mret (mkServerConfig
          (if github && seqb (sc_mode cfg) "jwks" then "github_check" else sc_mode cfg)
          (fill (sc_issuer cfg) (prv_issuer resolved)) (sc_audience cfg) (sc_clock_skew_s cfg)
          (fill (sc_jwks_uri cfg) (prv_jwks_uri resolved))
          (fill (sc_introspection_endpoint cfg) (prv_introspection_endpoint resolved))
          (if github then fill (sc_introspect_client_id cfg) tenant_or_realm else sc_introspect_client_id cfg)
          (sc_introspect_client_secret cfg)).

Definition missing (secret_name what : string) : cpp_exn :=
  InvalidInputException ("quack_oauth_check_token: SECRET '" +:+ secret_name +:+ "' is missing " +:+ what).

Definition ValidateServerConfig (cfg : ServerConfig) (secret_name : string) : exc unit :=
  if seqb (sc_mode cfg) "jwks" then
    if sempty (sc_jwks_uri cfg) then
      Throw (missing secret_name "`jwks_uri` (required for validation_mode='jwks')")
    else ValidateHttpUrl "jwks_uri" (sc_jwks_uri cfg)
  else if seqb (sc_mode cfg) "introspect" then
    if sempty (sc_introspection_endpoint cfg) then
      Throw (missing secret_name "`introspection_endpoint` (required for validation_mode='introspect')")
    else ValidateHttpUrl "introspection_endpoint" (sc_introspection_endpoint cfg)
  else if seqb (sc_mode cfg) "tokeninfo" then
    if sempty (sc_introspection_endpoint cfg) then
      Throw (missing secret_name ("`introspection_endpoint` (required for validation_mode='tokeninfo' -- "
        +:+ "use the IdP's tokeninfo URL, e.g. https://oauth2.googleapis.com/tokeninfo)"))
    else ValidateHttpUrl "introspection_endpoint" (sc_introspection_endpoint cfg)
  else if seqb (sc_mode cfg) "github_check" then
    if sempty (sc_introspection_endpoint cfg) then
      Throw (missing secret_name ("`introspection_endpoint` (set to GitHub's "
        +:+ "`applications/{client_id}/token` URL, or rely on the "
        +:+ "`provider='github'` preset which fills it from tenant_or_realm)."))
    else if sempty (sc_introspect_client_id cfg) || sempty (sc_introspect_client_secret cfg) then
      Throw (missing secret_name ("`introspect_client_id` / `introspect_client_secret` "
        +:+ "(GitHub App credentials, required for HTTP Basic on the /applications/{client_id}/token endpoint)."))
    else ValidateHttpUrl "introspection_endpoint" (sc_introspection_endpoint cfg)
  else
    Throw (InvalidInputException ("quack_oauth_check_token: unknown validation_mode '" +:+ sc_mode cfg
      +:+ "' (expected 'jwks', 'introspect', 'tokeninfo', or 'github_check')")).

Definition LoadServerConfig : M W ServerConfig :=
  secret_name ← ReadStringSetting server_secret_name;
  if sempty secret_name then
    throw (InvalidInputException ("quack_oauth_check_token requires SET quack_oauth_server_secret_name "
      +:+ "to name the TYPE=quack_oauth_server SECRET to validate against."))
  else
    accessor ← OpenSecret context secret_name None "quack_oauth_check_token";
    cfg ← ReadServerConfigCore accessor;
    cfg ← ApplyProviderPreset accessor cfg;
    _ ← lift (ValidateServerConfig cfg secret_name);
    mret cfg.

(** ** Auditing *)
Definition EmitTokenAudit (token : string) (outcome : VerifyResult) (reason : string) (now_s : Z)
    (principal_on_success : option Principal) : M W unit :=
  let ok := bool_decide (outcome = Ok) in
  let who f := match principal_on_success with Some p => if ok then f p else "" | None => "" end in
  EmitAuditEvent context state
    (mkAuditEvent now_s (if ok then TokenAccepted else TokenRejected) (who pr_subject) (who pr_issuer) ""
       (RedactSensitive token) "" reason).

Definition is_throttled (r : RefreshReason) : bool :=
  match r with Throttled | BudgetThrottled => true | _ => false end.

(** The events of one row; the list of throttled events comes back extended.  The
    token is scrubbed here and not used again. *)
Definition EmitAuditsAndScrub (token_str : string) (row : RowValidation) (now_s : Z) (jwks_uri : string)
    (throttled_events : list ThrottledLogEvent) : M W (list ThrottledLogEvent) :=
  let ok := bool_decide (rv_outcome row = Ok) in
  _ ← unlock_mu state;
  let audit_reason :=
    if negb ok && is_throttled (rv_refresh_reason_enum row) then "jwks_throttled"
    else VerifyResultReason (rv_outcome row) in
  _ ← EmitTokenAudit token_str (rv_outcome row) audit_reason now_s
        (if ok && rv_have_principal row then Some (rv_principal row) else None);
  throttled_events ←
    (if negb (sempty (rv_refresh_kid row)) then
       let throttled_events :=
         if is_throttled (rv_refresh_reason_enum row)
         then throttled_events ++ [mkThrottledLogEvent (rv_refresh_kid row) (rv_refresh_reason row) jwks_uri]
         else throttled_events in
       _ ← (if ShouldAudit (rv_refresh_reason_enum row) then
              EmitAuditEvent context state
                (mkAuditEvent now_s JwksRefresh "" "" (rv_refresh_kid row) (RedactSensitive token_str) ""
                   (rv_refresh_reason row))
            else mret tt);
       mret throttled_events
     else mret throttled_events);
  _ ← lock_mu state;
  mret throttled_events.

(** One item of the deduplicated list: skipped when logged in the last 30 s. *)
Definition LogThrottledEvent (now_s : Z) (item : ThrottledLogEvent) : M W unit :=
  let safe_kid := SanitizeLogField (te_kid item) 256 in
  let safe_uri := SanitizeLogField (te_jwks_uri item) 512 in
  let dedup_key := safe_kid +:+ ":" +:+ te_reason item +:+ ":" +:+ safe_uri in
  let log_ref := ref_comp state last_throttle_logged_ref in
  last ← ref_read log_ref (λ m, m !! dedup_key);
  if match last with Some t => (t <=? now_s) && (now_s - t <? 30) | None => false end then mret tt
  else
    _ ← ref_upd log_ref <[dedup_key := now_s]>;
    let uri_suffix := if sempty safe_uri then "" else " jwks_uri='" +:+ safe_uri +:+ "'" in
    if seqb (te_reason item) "refresh_throttled" then
      cx_log context LogWarning ("quack_oauth: JWKS refresh rate-limited by min_refresh_s for kid='" +:+ safe_kid
        +:+ "'" +:+ uri_suffix)
    else
      cx_log context LogWarning ("quack_oauth: JWKS refresh throttled by global fetch budget (2s window) for kid='"
        +:+ safe_kid +:+ "'" +:+ uri_suffix).

Definition LogThrottledEvents (throttled_events : list ThrottledLogEvent) (now_s : Z) : M W unit :=
  if bool_decide (throttled_events = []) then mret tt
  else
    let items := unique_adjacent (sort_by ThrottledLogEvent_ltb throttled_events) in
    _ ← M_fold (λ _ item, LogThrottledEvent now_s item) tt items;
    ref_upd (ref_comp state last_throttle_logged_ref) (λ m, prune_throttle_log m now_s).

(** ** The client of the row validators: the mutex is free during a request. *)
Definition unlocking {A} (m : M W A) : M W A :=
  _ ← unlock_mu state;
  finally m (lock_mu state).
Definition UnlockingHttpClient (inner : IHttpClient W) : IHttpClient W :=
  mkHttp (λ url, unlocking (Get inner url)) (λ req, unlocking (Post inner req)).
Definition check_token_http : IHttpClient W :=
  RetryingHttpClient (UnlockingHttpClient (cx_http context)) 1 1000
    (Some (λ delay, _ ← unlock_mu state; _ ← cx_sleep context delay; lock_mu state)).

(** ** The row loop *)

(** One row of the three-argument form; [None] is SQL NULL. *)
Definition session_row (validate_row : string → M W RowValidation) (now_s : Z) (jwks_uri : string)
    (acc : list (option bool) * list ThrottledLogEvent) (row : option string * option string)
    : M W (list (option bool) * list ThrottledLogEvent) :=
  let '(out, throttled_events) := acc in
  match row.1 with
  | None => mret (out ++ [Some false], throttled_events)
  | Some raw_token =>
      let token_str := StripBearerPrefix raw_token in
      rv ← validate_row token_str;
      let ok := bool_decide (rv_outcome rv = Ok) in
      _ ← match row.2 with
          | Some sid =>
              if ok && rv_have_principal rv && negb (sempty sid) then
                ref_call (ref_comp state session_principals_ref)
                  (λ m, StoreSessionPrincipal m sid (rv_principal rv) now_s)
              else mret tt
          | None => mret tt
          end;
      throttled_events ← EmitAuditsAndScrub token_str rv now_s jwks_uri throttled_events;
      mret (out ++ [Some ok], throttled_events)
  end.

(** One row of the one-argument form: the function an executor calls, with the
    list of throttled events as a variable of the caller. *)
Definition plain_row (validate_row : string → M W RowValidation) (now_s : Z) (jwks_uri : string) (raw_token : string)
    : M (W * list ThrottledLogEvent) bool :=
  let token_str := StripBearerPrefix raw_token in
  rv ← local (validate_row token_str);
  throttled_events ← gets snd;
  throttled_events ← local (EmitAuditsAndScrub token_str rv now_s jwks_uri throttled_events);
  _ ← modify (λ w, (w.1, throttled_events));
  mret (bool_decide (rv_outcome rv = Ok)).

Definition RunValidationLoop (tokens : Column) (session_ids : option Column)
    (now_s : Z) (jwks_uri : string) (validate_row : string → M W RowValidation) : M W (list (option bool)) :=
  '(out, throttled_events) ←
    match session_ids with
    | Some sids => M_fold (session_row validate_row now_s jwks_uri) ([], []) (zip tokens sids)
    | None => run_local (ux_Execute (plain_row validate_row now_s jwks_uri) tokens) []
    end;
  _ ← LogThrottledEvents throttled_events now_s;
  mret out.

(** The row validators: [&r.principal] is a non-null pointer to a default value. *)
Definition opaque_row (validate : M W (VerifyResult * option Principal)) : M W RowValidation :=
  '(outcome, principal) ← validate;
  mret (mkRowValidation outcome (bool_decide (outcome = Ok)) (default Principal_default principal) "" "" RNone).

Definition jwks_row (vctx : ValidateContext W) (opts : VerifyOptions) (token_str : string) : M W RowValidation :=
  '(outcome, refresh_event) ← ValidateToken token_str opts vctx (Some RefreshEvent_default);
  let ev := default RefreshEvent_default refresh_event in
  let '(kid, reason, reason_enum) :=
    if negb (sempty (re_reason ev)) then (re_kid ev, re_reason ev, re_reason_enum ev) else ("", "", RNone) in
  let parsed := if bool_decide (outcome = Ok) then ParseJwt token_str else None in
  mret (mkRowValidation outcome (bool_decide (is_Some parsed))
          (match parsed with Some p => PrincipalFromJwt p | None => Principal_default end)
          kid reason reason_enum).

Definition row_validator (cfg : ServerConfig) (opts : VerifyOptions) (token_str : string) : M W RowValidation :=
  let cache := ref_comp state decision_cache_ref in
  let out := Some Principal_default in
  if seqb (sc_mode cfg) "introspect" then
    opaque_row (ValidateTokenViaIntrospection token_str opts
      (mkIntrospectContext check_token_http cache (sc_introspection_endpoint cfg) (sc_introspect_client_id cfg)
         (sc_introspect_client_secret cfg) (sc_issuer cfg) (sc_audience cfg)) out)
  else if seqb (sc_mode cfg) "tokeninfo" then
    opaque_row (ValidateTokenViaTokeninfo token_str opts
      (mkTokeninfoContext check_token_http cache (sc_introspection_endpoint cfg) (sc_audience cfg)) out)
  else if seqb (sc_mode cfg) "github_check" then
    opaque_row (ValidateTokenViaGithubCheck token_str opts
      (mkGithubContext check_token_http cache (sc_introspection_endpoint cfg) (sc_introspect_client_id cfg)
         (sc_introspect_client_secret cfg)) out)
  else
    jwks_row (mkValidateContext check_token_http (ref_comp state jwks_cache_ref) (sc_jwks_uri cfg)) opts token_str.

Definition options_of (cfg : ServerConfig) (now_s : Z) : VerifyOptions :=
  mkVerifyOptions (sc_issuer cfg) (sc_audience cfg) (sc_clock_skew_s cfg) now_s [].

Definition ValidateChunk (tokens : Column) (session_ids : option Column)
    : M W (list (option bool)) :=
  cfg ← LoadServerConfig;
  now_s ← cx_now_s context;
  with_guard state
    (RunValidationLoop tokens session_ids now_s (if seqb (sc_mode cfg) "introspect" || seqb (sc_mode cfg) "tokeninfo"
                                                    || seqb (sc_mode cfg) "github_check" then "" else sc_jwks_uri cfg)
       (row_validator cfg (options_of cfg now_s))).

(** ** The plaintext guard *)
Definition refuse_plaintext (uri : string) : cpp_exn :=
  InvalidInputException ("quack_oauth: refusing to validate a bearer token because the "
    +:+ "active quack listener '" +:+ uri +:+ "' is bound to a non-loopback host "
    +:+ "and `quack_oauth_trust_plaintext` is not true. Either "
    +:+ "terminate TLS in front of this listener and `SET "
    +:+ "quack_oauth_trust_plaintext = true`, or bind the listener "
    +:+ "to 127.0.0.1 / ::1 / localhost. (R-N-4)").

Definition listener_ok (row : list DValue) : exc unit :=
  uri_v ← GetValue row 0;
  if dv_IsNull uri_v then Ret tt
  else
    uri ← dv_string uri_v;
    if negb (IsLoopbackHost (HostFromQuackUri uri)) then Throw (refuse_plaintext uri) else Ret tt.

Definition listeners_sql : string := "SELECT listen_uri FROM quack_server_list()".

Definition EnforcePlaintextGuard : M W unit :=
  v ← gets (cx_setting context "quack_oauth_trust_plaintext");
  trusted ← match v with
            | Some v => if dv_IsNull v then mret false else lift (dv_bool v)
            | None => mret false
            end;
  if (trusted : bool) then mret tt
  else
    result ← cx_Query context listeners_sql;
    match result with
    | None => mret tt
    | Some rows => lift (exc_fold (λ _ row, listener_ok row) tt rows)
    end.

Definition CheckTokenScalarFun1 (tokens : Column) : M W (list (option bool)) :=
  _ ← EnforcePlaintextGuard;
  ValidateChunk tokens None.

Definition CheckTokenScalarFun3 (session_ids auth_strings : Column) : M W (list (option bool)) :=
  _ ← EnforcePlaintextGuard;
  ValidateChunk auth_strings (Some session_ids).
End check_token.

(** ** The session store: bounded, and it drops what expires first *)

(** [v] may be dropped while [s] stays: a known (positive) date of expiry is dropped
    before an unknown one and an early one before a late one, and of two equal ones
    the one that was updated first. *)
Definition dropped_before (v s : SessionPrincipal) : Prop :=
  (0 < pr_exp (sp_principal s) → 0 < pr_exp (sp_principal v) ∧ pr_exp (sp_principal v) ≤ pr_exp (sp_principal s)) ∧
  (pr_exp (sp_principal s) = pr_exp (sp_principal v) → sp_updated_at_s v ≤ sp_updated_at_s s).

Lemma evicts_before_spec a b :
  evicts_before a b = true ↔
  let ea := pr_exp (sp_principal a) in let eb := pr_exp (sp_principal b) in
  (0 < ea ∧ eb ≤ 0) ∨ (0 < ea ∧ 0 < eb ∧ ea < eb) ∨ (ea = eb ∧ sp_updated_at_s a < sp_updated_at_s b).
Proof.
  unfold evicts_before. rewrite !orb_true_iff, !andb_true_iff, !Z.ltb_lt, Z.leb_le, Z.eqb_eq. tauto.
Qed.

Lemma evicts_before_dropped s v : evicts_before s v = false ↔ dropped_before v s.
Proof. rewrite <-not_true_iff_false, evicts_before_spec. unfold dropped_before. simpl. lia. Qed.

(** The comparison is a strict order, also of expiries below zero. *)
Lemma evicts_before_irrefl a : evicts_before a a = false.
Proof. apply evicts_before_dropped. unfold dropped_before. lia. Qed.
Lemma evicts_before_trans a b c :
  evicts_before a b = true → evicts_before b c = true → evicts_before a c = true.
Proof. rewrite !evicts_before_spec. simpl. lia. Qed.

Section session_lemmas.
Context `{!UMapOrder}.

Lemma victim_fold (l : list (string * SessionPrincipal)) victim :
  let r := foldl (λ victim it, if evicts_before it.2 victim.2 then it else victim) victim l in
  (r = victim ∨ r ∈ l ∧ evicts_before r.2 victim.2 = true) ∧ ∀ kv, kv ∈ l → evicts_before kv.2 r.2 = false.
Proof.
  revert victim. induction l as [|it l IH]; intros victim; cbn [foldl].
  { split; [by left|]. by intros ? ?%not_elem_of_nil. }
  destruct (evicts_before it.2 victim.2) eqn:Hit.
  - destruct (IH it) as [Hr Hmin]. set (r := foldl _ it l) in *. split.
    + right. destruct Hr as [->|[? ?]]; (split; [|by first [exact Hit|by eapply evicts_before_trans]]); [left|by right].
    + intros kv [->|?]%elem_of_cons; [|by apply Hmin]. destruct Hr as [->|[_ Hr]]; [apply evicts_before_irrefl|].
      apply not_true_iff_false. intros Hlt. pose proof (evicts_before_trans _ _ _ Hlt Hr) as Hc.
      by rewrite evicts_before_irrefl in Hc.
  - destruct (IH victim) as [Hr Hmin]. set (r := foldl _ victim l) in *. split.
    + destruct Hr as [->|[? ?]]; [by left|]. right. split; [by right|done].
    + intros kv [->|?]%elem_of_cons; [|by apply Hmin]. destruct Hr as [->|[_ Hr]]; [done|].
      apply not_true_iff_false. intros Hlt. pose proof (evicts_before_trans _ _ _ Hlt Hr). congruence.
Qed.

Lemma session_victim_spec (m : gmap string SessionPrincipal) :
  m ≠ ∅ → ∃ k v, session_victim m = Some (k, v) ∧ m !! k = Some v ∧ ∀ k' v', m !! k' = Some v' → dropped_before v v'.
Proof.
  intros Hne. unfold session_victim. destruct (um_iter m) as [|first rest] eqn:Hit.
  { destruct Hne. apply map_empty. intros k. destruct (m !! k) as [v|] eqn:Hk; [|done].
    apply um_iter_elem in Hk. rewrite Hit in Hk. by apply not_elem_of_nil in Hk. }
  destruct (victim_fold (first :: rest) first) as [Hr Hmin]. cbv zeta in Hr, Hmin. revert Hr Hmin.
  generalize (foldl (λ victim it : string * SessionPrincipal, if evicts_before it.2 victim.2 then it else victim) first (first :: rest)).
  intros [k v] Hr Hmin. exists k, v. split; [done|]. split.
  - apply um_iter_elem. rewrite Hit. destruct Hr as [->|[? _]]; [left|done].
  - intros k' v' Hk'. apply evicts_before_dropped, (Hmin (k', v')). rewrite <-Hit. by apply um_iter_elem.
Qed.

Lemma StoreSessionPrincipal_spec (m : gmap string SessionPrincipal) sid principal now_s :
  (size m ≤ 1000)%nat →
  let m1 := <[sid := mkSessionPrincipal principal now_s]> m in
  ∃ m', StoreSessionPrincipal m sid principal now_s = Ret m' ∧ (size m' ≤ 1000)%nat ∧
    (m' = m1 ∨ ∃ k v, m' = delete k m1 ∧ m1 !! k = Some v ∧ size m1 = 1001%nat ∧
       ∀ k' v', m' !! k' = Some v' → dropped_before v v').
Proof.
  intros Hsz m1. unfold StoreSessionPrincipal. fold m1.
  assert (size m1 ≤ 1001)%nat as Hsz1.
  { unfold m1. destruct (m !! sid) eqn:Hs.
    - rewrite map_size_insert_Some by eauto. lia.
    - rewrite map_size_insert_None by done. lia. }
  destruct (size m1) as [|n] eqn:Hn; [exists m1; split_and!; [by unfold evict_sessions; rewrite Hn|lia|by left]|].
  cbn [evict_sessions]. rewrite Hn. unfold kMaxSessionPrincipals. destruct (Nat.leb_spec (S n) 1000).
  { exists m1. split_and!; [done|lia|by left]. }
  assert (m1 ≠ ∅) as Hne by (intros He; rewrite He, map_size_empty in Hn; lia).
  destruct (session_victim_spec m1 Hne) as (k & v & -> & Hk & Hmin). simpl.
  assert (size (delete k m1) = 1000%nat) as Hd by (rewrite map_size_delete_Some by eauto; lia).
  exists (delete k m1). split_and!; [|lia|].
  - destruct n as [|n]; cbn [evict_sessions]; rewrite Hd; done.
  - right. exists k, v. split_and!; [done|done|lia|]. intros k' v' [_ Hk']%lookup_delete_Some.
    by eapply Hmin.
Qed.

(** Claim C37.  The session store stays within a thousand sessions in every hash
    map order: storing a principal always returns, keeps every other session
    unless the store was full, and then drops exactly one.  Whatever the expiries
    are, if a session with a known expiry (a positive one) stays, then the dropped
    one has a known expiry too, and not a later one; and no session of the same
    expiry that was updated earlier stays. *)
Theorem session_store_bounded (m : gmap string SessionPrincipal) sid principal now_s :
  (size m ≤ 1000)%nat →
  let m1 := <[sid := mkSessionPrincipal principal now_s]> m in
  ∃ m', StoreSessionPrincipal m sid principal now_s = Ret m' ∧ (size m' ≤ 1000)%nat ∧
    (m' = m1 ∨ ∃ k v, m' = delete k m1 ∧ m1 !! k = Some v ∧ size m1 = 1001%nat ∧
       ∀ k' v', m' !! k' = Some v' → dropped_before v v').
Proof. apply StoreSessionPrincipal_spec. Qed.
End session_lemmas.

(** ** Loop lemmas *)
Section loop.
Context `{!Executor, !ExecutorLaws, !PicoJson, !JwtCpp, !OpenSsl, !Sha256, !UMapOrder, !DuckValues}.
Context {W : Type} `{!Threads W} (context : ClientContext W) (state : Ref W QuackOauthState) `{!RefLaws state}.
Context (J : JwksCache → Prop) (D : DecisionCache → Prop) (S : string → SessionPrincipal → Prop).
Context (F : W → Prop) `{!Frame state F, !Keeps (Inv state J D S F false)}.
Local Abbreviation I := (Inv state J D S F).
Hypothesis Henv : env_ok context state J D S F.

Lemma EmitAuditsAndScrub_inv token row now_s uri events :
  hoare (I true) (EmitAuditsAndScrub context state token row now_s uri events) (λ _, I true).
Proof.
  unfold EmitAuditsAndScrub, EmitTokenAudit.
  apply (hoare_bind _ _ _ (λ _, I false)); [by apply hoare_unlock|]. intros [].
  apply (hoare_bind _ _ _ (λ _, I false)); [by apply EmitAuditEvent_inv|]. intros [].
  apply (hoare_bind _ _ _ (λ _, I false)).
  { destruct (negb _); [|by apply hoare_ret].
    apply (hoare_bind _ _ _ (λ _, I false)); [|intros []; by apply hoare_ret].
    destruct (ShouldAudit _); [by apply EmitAuditEvent_inv|by apply hoare_ret]. }
  intros ev. apply (hoare_bind _ _ _ (λ _, I true)); [by apply hoare_lock|]. intros []. by apply hoare_ret.
Qed.

(** The throttle log is not part of the invariant. *)
Lemma throttle_upd_inv f :
  hoare (I true) (ref_upd (ref_comp state last_throttle_logged_ref) f) (λ _, I true).
Proof.
  apply hoare_upd. intros w Hw. by apply Inv_throttle.
Qed.

Lemma LogThrottledEvents_inv events now_s :
  hoare (I true) (LogThrottledEvents context state events now_s) (λ _, I true).
Proof.
  destruct Henv as [Hlog Hexec]. unfold LogThrottledEvents. destruct (bool_decide _); [by apply hoare_ret|].
  apply (hoare_bind _ _ _ (λ _, I true)); [|intros []; apply throttle_upd_inv].
  apply (hoare_fold (λ _, I true)). intros [] item _. unfold LogThrottledEvent.
  apply (hoare_bind _ _ _ (λ _, I true)); [by apply hoare_read|]. intros last.
  destruct (match last with Some _ => _ | None => _ end); [by apply hoare_ret|].
  apply (hoare_bind _ _ _ (λ _, I true)); [apply throttle_upd_inv|]. intros [].
  destruct (seqb _ _); apply Hlog.
Qed.

Lemma store_session_inv sid principal now_s :
  S sid (mkSessionPrincipal principal now_s) →
  hoare (I true) (ref_call (ref_comp state session_principals_ref)
    (λ m, StoreSessionPrincipal m sid principal now_s)) (λ _, I true).
Proof.
  intros Hnew. apply hoare_call. intros w Hw. pose proof Hw as [[HJ HD HS Hsz Hring] _]. simpl.
  destruct (StoreSessionPrincipal_spec _ sid principal now_s Hsz) as (m' & -> & Hsz' & Hm').
  exists m'. split; [done|].
  assert (map_Forall S m') as HS'.
  { assert (map_Forall S (<[sid := mkSessionPrincipal principal now_s]> (st_session_principals (ref_get state w))))
      as Hins by (by apply map_Forall_insert_2).
    destruct Hm' as [->|(k & v & -> & _)]; [done|by apply map_Forall_delete]. }
  by apply Inv_sessions.
Qed.

(** What a row validator promises of the tokens in [O]: it keeps the invariant under
    the lock, and its verdict and its principal are justified. *)
Definition row_sound (O V : string → Prop) (P : string → Principal → Prop) (validate_row : string → M W RowValidation) : Prop :=
  ∀ token, O token → hoare (I true) (validate_row token)
    (λ rv w, (rv_outcome rv = Ok → V token ∧ (rv_have_principal rv = true → P token (rv_principal rv))) ∧ I true w).

(** [true] only for rows with a token that validated. *)
Definition result_sound (V : string → Prop) (token : option string) (result : option bool) : Prop :=
  result = Some true → ∃ raw, token = Some raw ∧ V (StripBearerPrefix raw).

Lemma session_rows_inv O V P validate_row now_s uri rows acc :
  row_sound O V P validate_row →
  (∀ raw sid, (Some raw, sid) ∈ rows → O (StripBearerPrefix raw)) →
  (∀ raw sid p, (Some raw, Some sid) ∈ rows → P (StripBearerPrefix raw) p → S sid (mkSessionPrincipal p now_s)) →
  hoare (I true) (M_fold (session_row context state validate_row now_s uri) acc rows)
    (λ r w, (∃ out, r.1 = acc.1 ++ out ∧ Forall2 (λ row o, result_sound V row.1 o) rows out) ∧ I true w).
Proof.
  intros Hrow. revert acc. induction rows as [|[tok sid] rows IH]; intros acc HO HS; cbn [M_fold].
  { apply hoare_ret. intros w Hw. split; [|done]. exists []. by rewrite app_nil_r. }
  apply (hoare_bind _ _ _ (λ acc' w, (∃ o, acc'.1 = acc.1 ++ [o] ∧ result_sound V tok o) ∧ I true w)).
  - destruct acc as [out events]. unfold session_row. destruct tok as [raw|]; simpl.
    2: { apply hoare_ret. intros w Hw. split; [|done]. by exists (Some false). }
    eapply hoare_bind; [apply Hrow, (HO raw sid); left|]. intros rv. apply hoare_pure. intros Hok.
    apply (hoare_bind _ _ _ (λ _, I true)).
    { destruct sid as [sid|]; [|by apply hoare_ret].
      destruct (bool_decide_reflect (rv_outcome rv = Ok)) as [Ho|]; simpl; [|by apply hoare_ret].
      destruct (rv_have_principal rv) eqn:Hp; simpl; [|by apply hoare_ret]. destruct (negb _); [|by apply hoare_ret].
      apply store_session_inv. apply (HS raw); [left|]. by apply Hok. }
    intros []. apply (hoare_bind _ _ _ (λ _, I true)); [apply EmitAuditsAndScrub_inv|]. intros ev.
    apply hoare_ret. intros w Hw. split; [|done]. eexists. split; [done|].
    intros [= Ho%bool_decide_eq_true]. exists raw. split; [done|]. by apply Hok.
  - intros acc'. apply hoare_pure. intros (o & Ho & Hs).
    eapply hoare_post; [|apply IH]; [|intros raw s ?; apply (HO raw s); by right|intros raw s p ?; apply HS; by right]. simpl.
    intros r w [(out & Hr & Hall) Hw]. split; [|done]. exists (o :: out). split.
    + by rewrite Hr, Ho, <-app_assoc.
    + by constructor.
Qed.

(** The row of the one-argument form. *)
Lemma plain_row_inv O V P validate_row now_s uri raw :
  row_sound O V P validate_row → O (StripBearerPrefix raw) →
  triple (λ w, I true w.1) (plain_row context state validate_row now_s uri raw)
    (λ b w, (b = true → V (StripBearerPrefix raw)) ∧ I true w.1) (λ _ _, False).
Proof.
  intros Hrow HO. unfold plain_row.
  apply (triple_bind _ _ _ (λ rv w, (rv_outcome rv = Ok → V (StripBearerPrefix raw)) ∧ I true w.1)).
  { eapply triple_post; [|exact (triple_local _ _ _ _ (triple_hoare _ _ _ (λ _ _, False) (Hrow _ HO)))].
    intros rv w [Hrv Hw]. split; [|done]. intros Ho. by apply Hrv. }
  intros rv. apply triple_pure. intros Hrv.
  apply (triple_bind _ _ _ (λ _ w, I true w.1)); [by intros w Hw|]. intros ev.
  apply (triple_bind _ _ _ (λ _ w, I true w.1)).
  { exact (triple_local _ _ _ _ (triple_hoare _ _ _ (λ _ _, False) (EmitAuditsAndScrub_inv _ _ _ _ _))). }
  intros ev'. apply (triple_bind _ _ _ (λ _ w, I true w.1)); [by intros w Hw|]. intros [].
  apply triple_ret. intros w Hw. split; [|done]. intros Ho%bool_decide_eq_true. by apply Hrv.
Qed.

(** What is asked of the rows that carry a session. *)
Definition sessions_recorded (P : string → Principal → Prop) (now_s : Z) (tokens : Column) (session_ids : option Column) : Prop :=
  match session_ids with
  | Some sids => length sids = length tokens ∧
      ∀ raw sid p, (Some raw, Some sid) ∈ zip tokens sids → P (StripBearerPrefix raw) p → S sid (mkSessionPrincipal p now_s)
  | None => True
  end.

Lemma RunValidationLoop_inv O V P validate_row now_s uri tokens session_ids :
  row_sound O V P validate_row → (∀ raw, Some raw ∈ tokens → O (StripBearerPrefix raw)) → sessions_recorded P now_s tokens session_ids →
  hoare (I true) (RunValidationLoop context state tokens session_ids now_s uri validate_row)
    (λ out w, Forall2 (result_sound V) tokens out ∧ I true w).
Proof.
  intros Hrow HO Hsids. unfold RunValidationLoop.
  apply (hoare_bind _ _ _ (λ r w, Forall2 (result_sound V) tokens r.1 ∧ I true w)).
  - destruct session_ids as [sids|].
    + destruct Hsids as [Hlen HS]. eapply hoare_post; [|apply (session_rows_inv O V P); [done| |done]].
      2: { intros raw sid Hin%elem_of_zip_l. by apply HO. }
      intros r w [(out & Hout & Hall) Hw]. split; [|done]. simpl in Hout. rewrite Hout.
      assert (tokens = (zip tokens sids).*1) as -> by (symmetry; apply fst_zip; lia).
      by apply Forall2_fmap_l.
    + apply hoare_triple. eapply triple_post.
      2: { apply (triple_run_local (I true) _ [] (λ out w, Forall2 (row_answer (λ raw b, b = true → V (StripBearerPrefix raw)))
             tokens out ∧ I true w) (λ _ _, False)), (ux_triple _ _ _ _ (λ w, I true w.1)).
           intros raw Hin. apply (plain_row_inv O V P); auto. }
      intros r w [Hall Hw]. split; [|done]. eapply Forall2_impl; [exact Hall|].
      intros [raw|] o; simpl; [|by intros ->]. intros (b & -> & Hb) [= ->]. exists raw. auto.
  - intros [out events]. apply hoare_pure. intros Hall.
    apply (hoare_bind _ _ _ (λ _, I true)); [apply LogThrottledEvents_inv|]. intros [].
    by apply hoare_ret.
Qed.
End loop.

(** ** The client of the row validators *)
Section client.
Context `{!Sha256, !DuckValues}.
Context {W : Type} `{!Threads W} (context : ClientContext W) (state : Ref W QuackOauthState) `{!RefLaws state}.
Context (J : JwksCache → Prop) (D : DecisionCache → Prop) (S : string → SessionPrincipal → Prop).
Context (F : W → Prop) `{!Frame state F, !Keeps (Inv state J D S F false)}.
Local Abbreviation I := (Inv state J D S F).
Hypothesis Hsleep : ∀ ms, hoare (I false) (cx_sleep context ms) (λ _, I false).

(** A request made without the mutex keeps what it would keep on its own. *)
Lemma unlocking_inv {R} (m : M W R) (Q : R → Prop) :
  hoare (I false) m (λ r w, Q r ∧ I false w) → hoare (I true) (unlocking state m) (λ r w, Q r ∧ I true w).
Proof.
  intros Hm. unfold unlocking. apply (hoare_bind _ _ _ (λ _, I false)); [by apply hoare_unlock|]. intros [] w Hw.
  destruct (m w) as [r w1] eqn:Hr. destruct (hoare_run _ _ _ _ _ _ Hm Hw Hr) as (a & -> & Hk & Hw1).
  unfold wp, finally. rewrite Hr.
  assert (hoare (I false) (_ ← lock_mu state; mret a) (λ r w, Q r ∧ I true w)) as Hback.
  { apply (hoare_bind _ _ _ (λ _, I true)); [by apply hoare_lock|]. intros []. by apply hoare_ret. }
  exact (Hback w1 Hw1).
Qed.

Lemma retried_inv (m : M W (option Response)) (Q : option Response → Prop) :
  hoare (I false) m (λ r w, Q r ∧ I false w) →
  hoare (I true) (RunWithRetries 1 1000 (Some (λ delay, _ ← unlock_mu state; _ ← cx_sleep context delay; lock_mu state))
    (unlocking state m)) (λ r w, Q r ∧ I true w).
Proof.
  intros Hm. apply RunWithRetries_inv; [by split|by apply unlocking_inv|]. intros f [= <-] delay.
  apply (hoare_bind _ _ _ (λ _, I false)); [by apply hoare_unlock|]. intros [].
  apply (hoare_bind _ _ _ (λ _, I false)); [apply Hsleep|]. intros []. by apply hoare_lock.
Qed.
End client.

(** ** JWKS mode, end to end *)
Section jwks.
Context `{!Executor, !ExecutorLaws, !PicoJson, !JwtCpp, !OpenSsl, !Sha256, !UMapOrder, !DuckValues}.
Context {W : Type} `{!Threads W} (context : ClientContext W) (state : Ref W QuackOauthState) `{!RefLaws state}.
Context (T : string → Jwk → Prop) (D : DecisionCache → Prop) (S : string → SessionPrincipal → Prop).
Context (F : W → Prop) `{!Frame state F, !Keeps (Inv state (good T) D S F false)}.
Local Abbreviation I := (Inv state (good T) D S F).

(** [published] without a context: the keys of a 200 answer are the issuer's. *)
Definition issuer_keys (uri : string) (r : option Response) : Prop :=
  ∀ resp, r = Some resp → status_code resp = 200 →
    Forall (λ k, T (CacheKey uri (jwk_kid k)) k) (ParseJwksJson (body resp)).

(** While the mutex is free: a request returns, what the endpoint answers with 200
    is the issuer's document, and other threads keep the invariant. *)
Hypothesis Hget : ∀ uri, hoare (I false) (Get (cx_http context) uri) (λ r w, issuer_keys uri r ∧ I false w).
Hypothesis Hsleep : ∀ ms, hoare (I false) (cx_sleep context ms) (λ _, I false).

Lemma check_token_get uri :
  hoare (I true) (Get (check_token_http context state) uri) (λ r w, issuer_keys uri r ∧ I true w).
Proof. apply (retried_inv context state (good T) D S F Hsleep), Hget. Qed.

(** What acceptance of a token means. *)
Definition token_verified (uri : string) (opts : VerifyOptions) (token : string) : Prop :=
  ∃ parsed k, ParseJwt token = Some parsed ∧ T (CacheKey uri (jp_kid parsed)) k ∧
    JwkMatchesTokenHeader k (jp_alg parsed) = true ∧ VerifyJwt token k opts = Ret Ok.
Definition token_principal (uri : string) (opts : VerifyOptions) (token : string) (p : Principal) : Prop :=
  token_verified uri opts token ∧ ∃ parsed, ParseJwt token = Some parsed ∧ p = PrincipalFromJwt parsed.

Lemma jwks_row_sound uri opts :
  row_sound state (good T) D S F (λ _, True) (token_verified uri opts) (token_principal uri opts)
    (jwks_row (mkValidateContext (check_token_http context state) (ref_comp state jwks_cache_ref) uri) opts).
Proof.
  intros token _. unfold jwks_row.
  set (ctx := mkValidateContext (check_token_http context state) (ref_comp state jwks_cache_ref) uri).
  apply (hoare_bind _ _ _ (λ r w, (r.1 = Ok → token_verified uri opts token) ∧ I true w)).
  - destruct (ParseJwt token) as [parsed|] eqn:Hp.
    2: { unfold ValidateToken. rewrite Hp. apply hoare_ret. intros w Hw. done. }
    assert (RefLaws (vx_jwks_cache ctx)) by (simpl; apply _).
    eapply hoare_post; [|apply (ValidateToken_inv ctx T (λ _ w, I true w) token parsed opts Hp)].
    + intros [v ev] w [[_ Hw] Hacc]. split; [|done]. simpl. intros ->.
      destruct (Hacc Ok eq_refl eq_refl) as (k & ? & ? & ?). by exists parsed, k.
    + intros _ w [[HJ _ _ _ _] _]. exact HJ.
    + intros _ w c Hw [Hc _]. by apply (Inv_jwks state (good T) D S F).
    + intros w Hw _.
      match goal with |- ∃ r w', Get _ _ ?w0 = _ ∧ _ =>
        assert (I true w0) as Hw0; [|destruct (Get (vx_http ctx) (vx_jwks_uri ctx) w0) as [r w1] eqn:Hr] end.
      { pose proof Hw as [[[Hwf HT] _ _ _ _] _]. apply (Inv_jwks state (good T) D S F); [done|].
        destruct (wf_record_fetch (st_jwks_cache (ref_get state w)) (vo_now_s opts) Hwf) as (? & Hh & _).
        split; [done|by eapply same_hits_trusted]. }
      destruct (hoare_run _ _ _ _ _ _ (check_token_get uri) Hw0 Hr) as (a & -> & ? & ?). by exists a, w1.
  - intros [v ev]. apply hoare_pure. simpl. intros Hv.
    destruct (if negb (sempty (re_reason (default RefreshEvent_default ev))) then _ else _) as [[kid reason] renum].
    apply hoare_ret. intros w Hw. split; [|done]. simpl. intros ->. specialize (Hv eq_refl). split; [done|].
    intros _. split; [done|]. pose proof Hv as (parsed & k & Hp & _). exists parsed.
    rewrite bool_decide_eq_true_2 by done. by rewrite Hp.
Qed.

(** Claim C3.  End to end, in JWKS mode: the three-argument SQL function answers
    [true] only for a row whose token, after the Bearer prefix, verifies with a key
    the issuer published for its kid, and stores a session only with the principal
    of a token that verified this way.  The call returns, with the mutex released
    (it never locks it twice, in any of the audit, logging, fetch and retry paths),
    and both caches, the session store and the audit ring keep their invariants,
    whatever other threads that keep them do in between. *)
Theorem check_token_jwks_sound tokens sids cfg now_s w w1 w2 :
  env_ok context state (good T) D S F →
  LoadServerConfig context w = (Ret cfg, w1) → sc_mode cfg = "jwks" →
  cx_now_s context w1 = (Ret now_s, w2) → I false w2 → length sids = length tokens →
  (∀ raw sid p, (Some raw, Some sid) ∈ zip tokens sids →
     token_principal (sc_jwks_uri cfg) (options_of cfg now_s) (StripBearerPrefix raw) p →
     S sid (mkSessionPrincipal p now_s)) →
  ∃ out w', ValidateChunk context state tokens (Some sids) w = (Ret out, w') ∧ I false w' ∧
    Forall2 (result_sound (token_verified (sc_jwks_uri cfg) (options_of cfg now_s))) tokens out.
Proof.
  intros Henv Hcfg Hmode Hnow Hw2 Hlen HS. unfold ValidateChunk.
  unfold mbind at 1, M_bind at 1. rewrite Hcfg. unfold mbind at 1, M_bind at 1. rewrite Hnow.
  unfold row_validator. rewrite Hmode. simpl (seqb _ _). simpl (_ || _). cbv iota.
  match goal with |- ∃ out w', with_guard state ?m w2 = _ ∧ _ =>
    destruct (with_guard state m w2) as [r w'] eqn:Hr;
    assert (hoare (I false) (with_guard state m) (λ out w,
      Forall2 (result_sound (token_verified (sc_jwks_uri cfg) (options_of cfg now_s))) tokens out ∧ I false w)) as Hall
  end.
  { apply (hoare_with_guard state (good T) D S F _
      (Forall2 (result_sound (token_verified (sc_jwks_uri cfg) (options_of cfg now_s))) tokens)).
    apply (RunValidationLoop_inv context state (good T) D S F Henv (λ _, True) _
      (token_principal (sc_jwks_uri cfg) (options_of cfg now_s))); [apply jwks_row_sound|done|by split]. }
  destruct (hoare_run _ _ _ _ _ _ Hall Hw2 Hr) as (out & -> & ? & ?). by exists out, w'.
Qed.
End jwks.

(** ** The other promises *)
Section promises.
Context `{!Executor, !ExecutorLaws, !PicoJson, !JwtCpp, !OpenSsl, !Sha256, !UMapOrder, !DuckValues}.
Context {W : Type} `{!Threads W} (context : ClientContext W) (state : Ref W QuackOauthState).

Lemma listeners_ok rows : exc_fold (λ _ row, listener_ok row) tt rows = Ret tt → Forall (λ row, listener_ok row = Ret tt) rows.
Proof.
  induction rows as [|row rows IH]; cbn [exc_fold]; [constructor|].
  intros ([] & ? & ?)%exc_bind_Ret. constructor; auto.
Qed.

(** What has to hold before a token is looked at: the operator opted in, or DuckDB has
    no list of listeners, or each one that it lists is bound to the machine itself. *)
Definition listeners_guarded (w : W) : Prop :=
  (∃ v, cx_setting context "quack_oauth_trust_plaintext" w = Some v ∧ dv_IsNull v = false ∧ dv_bool v = Ret true) ∨
  (∃ w1, cx_Query context listeners_sql w = (Ret None, w1)) ∨
  (∃ rows w1, cx_Query context listeners_sql w = (Ret (Some rows), w1) ∧
     ∀ row v uri, row ∈ rows → row !! 0%nat = Some v → dv_IsNull v = false → dv_string v = Ret uri →
       ∃ host, listens_on uri host ∧ loopback_name host).

Lemma listener_ok_bound row v uri :
  listener_ok row = Ret tt → row !! 0%nat = Some v → dv_IsNull v = false → dv_string v = Ret uri →
  ∃ host, listens_on uri host ∧ loopback_name host.
Proof.
  unfold listener_ok, GetValue. intros Hok Hv Hn Hs. rewrite Hv in Hok. simpl in Hok. rewrite Hn, Hs in Hok. simpl in Hok.
  destruct (IsLoopbackHost (HostFromQuackUri uri)) eqn:Hl; [|done]. exists (HostFromQuackUri uri).
  split; [|by apply IsLoopbackHost_spec]. apply HostFromQuackUri_spec; [done|]. intros He. by rewrite He in Hl.
Qed.

(** The guard passes only then, and does no more than to ask for the listeners. *)
Lemma EnforcePlaintextGuard_spec w r w1 :
  EnforcePlaintextGuard context w = (r, w1) →
  (r = Ret tt → listeners_guarded w) ∧ (w1 = w ∨ w1 = (cx_Query context listeners_sql w).2).
Proof.
  unfold EnforcePlaintextGuard, listeners_guarded, gets. rewrite M_bind_eq, M_bind_eq.
  assert (∀ r w1, (result ← cx_Query context listeners_sql;
      match result with None => mret tt | Some rows => lift (exc_fold (λ _ row, listener_ok row) tt rows) end) w
      = (r, w1) →
    (r = Ret tt → (∃ w1, cx_Query context listeners_sql w = (Ret None, w1)) ∨
    (∃ rows w1, cx_Query context listeners_sql w = (Ret (Some rows), w1) ∧
     ∀ row v uri, row ∈ rows → row !! 0%nat = Some v → dv_IsNull v = false → dv_string v = Ret uri →
       ∃ host, listens_on uri host ∧ loopback_name host)) ∧
    w1 = (cx_Query context listeners_sql w).2) as Hquery.
  { intros r0 w0. rewrite M_bind_eq. destruct (cx_Query context listeners_sql w) as [[[rows|]|e|] w3];
      [| |by intros [= <- <-]..].
    - unfold lift. intros [= Hf <-]. split; [|done]. intros ->. right. exists rows, w3. split; [done|].
      intros row v uri Hin. apply listener_ok_bound. apply listeners_ok in Hf. by eapply Forall_forall in Hf.
    - intros [= <- <-]. split; [|done]. left. by exists w3. }
  destruct (cx_setting context _ w) as [v|]; simpl; [destruct (dv_IsNull v) eqn:Hn|]; simpl.
  - intros [Hr ->]%Hquery. split; auto.
  - unfold lift at 1. destruct (dv_bool v) as [[|]|e|] eqn:Hb.
    + intros [= <- <-]. split; [|by left]. intros _. left. eauto.
    + intros [Hr ->]%Hquery. split; auto.
    + intros [= <- <-]. by split; [|left].
    + intros [= <- <-]. by split; [|left].
  - intros [Hr ->]%Hquery. split; auto.
Qed.

Lemma guarded_call {A} (m : M W A) w r w' :
  (_ ← EnforcePlaintextGuard context; m) w = (r, w') →
  listeners_guarded w ∨ (is_ret r = false ∧ (w' = w ∨ w' = (cx_Query context listeners_sql w).2)).
Proof.
  rewrite M_bind_eq. destruct (EnforcePlaintextGuard context w) as [g w1] eqn:Hg.
  apply EnforcePlaintextGuard_spec in Hg as [Hret Hw1]. destruct g as [[]|e|]; [by left; apply Hret|..];
    intros [= <- <-]; by right.
Qed.

(** Claim C19.  No token is validated in front of an open plaintext listener, by
    either form of the function.  If a call is made, then the operator opted in, or
    DuckDB has no list of listeners, or every listener that it lists is bound to
    localhost, ::1 or an address 127.*; or else the call does not return a result,
    and has done nothing but ask for the listeners: no token was looked at. *)
Theorem plaintext_guard w r w' :
  (∃ tokens, CheckTokenScalarFun1 context state tokens w = (r, w')) ∨
  (∃ sids auth, CheckTokenScalarFun3 context state sids auth w = (r, w')) →
  listeners_guarded w ∨ (is_ret r = false ∧ (w' = w ∨ w' = (cx_Query context listeners_sql w).2)).
Proof. intros [(tokens & Hrun)|(sids & auth & Hrun)]; by eapply guarded_call. Qed.

(** A configuration whose mode is known and whose endpoint is usable. *)
Definition config_valid (cfg : ServerConfig) : Prop :=
  0 ≤ sc_clock_skew_s cfg ≤ 3600 ∧
  match sc_mode cfg with
  | "jwks" => sc_jwks_uri cfg ≠ "" ∧ acceptable_url (sc_jwks_uri cfg)
  | "introspect" | "tokeninfo" =>
      sc_introspection_endpoint cfg ≠ "" ∧ acceptable_url (sc_introspection_endpoint cfg)
  | "github_check" =>
      sc_introspection_endpoint cfg ≠ "" ∧ acceptable_url (sc_introspection_endpoint cfg) ∧
      sc_introspect_client_id cfg ≠ "" ∧ sc_introspect_client_secret cfg ≠ ""
  | _ => False
  end.

Lemma LoadServerConfig_valid cfg w w' : LoadServerConfig context w = (Ret cfg, w') → config_valid cfg.
Proof.
  unfold LoadServerConfig. unfold mbind at 1, M_bind at 1.
  destruct (ReadStringSetting context server_secret_name w) as [[name|e|] w1]; [|done|done].
  destruct (sempty name); [done|]. unfold mbind at 1, M_bind at 1.
  destruct (OpenSecret context name None _ w1) as [[accessor|e|] w2]; [|done|done].
  unfold mbind at 1, M_bind at 1.
  destruct (ReadServerConfigCore context accessor w2) as [[cfg0|e|] w3] eqn:Hcore; [|done|done].
  assert (0 ≤ sc_clock_skew_s cfg0 ≤ 3600) as Hskew.
  { revert Hcore. unfold ReadServerConfigCore. unfold mbind, M_bind.
    destruct (ReadStringSetting context _ w2) as [[?|?|] ?]; [|done|done].
    destruct (ReadIntSetting context _ _ _) as [[skew|?|] ?]; [|done|done]. intros [= <- _]. simpl.
    apply clamp_bounds. lia. }
  unfold mbind at 1, M_bind at 1.
  destruct (ApplyProviderPreset context accessor cfg0 w3) as [[cfg1|e|] w4] eqn:Hpreset; [|done|done].
  assert (sc_clock_skew_s cfg1 = sc_clock_skew_s cfg0) as Hsame.
  { revert Hpreset. unfold ApplyProviderPreset. unfold mbind at 1, M_bind at 1.
    destruct (ReadStringSetting context _ w3) as [[?|?|] ?]; [|done|done].
    destruct (_ || _); [by intros [= <- _]|]. destruct (_ && _); [done|]. destruct (_ && _); [done|].
    unfold mbind, M_bind, lift. destruct (ResolveProvider _ _); [|done|done]. by intros [= <- _]. }
  unfold mbind at 1, M_bind at 1, lift. destruct (ValidateServerConfig cfg1 name) as [[]|e|] eqn:Hval; [|done|done].
  intros [= <- _]. split; [by rewrite Hsame|]. revert Hval. unfold ValidateServerConfig.
  destruct (seqb (sc_mode cfg1) "jwks") eqn:Hm; [apply seqb_true in Hm as ->|].
  { destruct (sempty _) eqn:He; [done|]. intros Hu%ValidateHttpUrl_accepts. by apply sempty_false in He. }
  clear Hm. destruct (seqb (sc_mode cfg1) "introspect") eqn:Hm; [apply seqb_true in Hm as ->|].
  { destruct (sempty _) eqn:He; [done|]. intros Hu%ValidateHttpUrl_accepts. by apply sempty_false in He. }
  clear Hm. destruct (seqb (sc_mode cfg1) "tokeninfo") eqn:Hm; [apply seqb_true in Hm as ->|].
  { destruct (sempty _) eqn:He; [done|]. intros Hu%ValidateHttpUrl_accepts. by apply sempty_false in He. }
  clear Hm. destruct (seqb (sc_mode cfg1) "github_check") eqn:Hm; [apply seqb_true in Hm as ->|done].
  destruct (sempty (sc_introspection_endpoint cfg1)) eqn:He; [done|].
  destruct (sempty (sc_introspect_client_id cfg1)) eqn:Hi; [done|].
  destruct (sempty (sc_introspect_client_secret cfg1)) eqn:Hs; [done|].
  intros Hu%ValidateHttpUrl_accepts. by apply sempty_false in He, Hi, Hs.
Qed.

(** Claim C20.  A configuration that loads is usable and safe: its mode is one of
    the four, the clock skew is between zero and an hour, and the endpoint the mode
    needs is present and an acceptable URL, whether it came from the secret or from
    a preset; GitHub's mode also has both App credentials. *)
Theorem server_config_valid cfg w w' : LoadServerConfig context w = (Ret cfg, w') → config_valid cfg.
Proof. apply LoadServerConfig_valid. Qed.

(** A preset decides the mode for GitHub alone: every other provider runs in the
    mode of the setting, also Google, whose preset names another. *)
Theorem preset_mode accessor cfg w cfg' w' :
  ApplyProviderPreset context accessor cfg w = (Ret cfg', w') →
  ∃ provider w1, ReadStringSetting context "quack_oauth_provider" w = (Ret provider, w1) ∧
    sc_mode cfg' =
      if bool_decide (ProviderFromString provider = Github) && seqb (sc_mode cfg) "jwks" then "github_check"
      else sc_mode cfg.
Proof.
  unfold ApplyProviderPreset. unfold mbind at 1, M_bind at 1.
  destruct (ReadStringSetting context "quack_oauth_provider" w) as [[provider|e|] w1] eqn:Hp; [|done..]. intros Hrun.
  exists provider, w1. split; [done|]. revert Hrun.
  destruct (sempty provider || seqb provider "generic") eqn:Hgen.
  { intros [= <- _]. apply orb_true_iff in Hgen as [->%sempty_true| ->%seqb_true]; reflexivity. }
  destruct (_ && _); [done|]. destruct (_ && _); [done|].
  unfold mbind, M_bind, lift. destruct (ResolveProvider _ _); [|done..]. by intros [= <- _].
Qed.
End promises.

(** The pruned throttle log. *)
Lemma insert_by_perm {A} (ltb : A → A → bool) x l : insert_by ltb x l ≡ₚ x :: l.
Proof.
  induction l as [|y l IH]; simpl; [done|]. destruct (ltb y x); [|done]. rewrite IH. apply Permutation_swap.
Qed.
Lemma sort_by_perm {A} (ltb : A → A → bool) l : sort_by ltb l ≡ₚ l.
Proof. induction l as [|x l IH]; simpl; [done|]. by rewrite insert_by_perm, IH. Qed.

Lemma delete_entries_size (m : gmap string Z) (l : list (string * Z)) :
  NoDup l.*1 → (∀ e, e ∈ l → m !! e.1 = Some e.2) →
  size (foldl (λ m e, delete e.1 m) m l) = (size m - length l)%nat.
Proof.
  revert m. induction l as [|e l IH]; intros m Hnd Hin; simpl; [lia|].
  apply NoDup_cons in Hnd as [Hne Hnd]. assert (m !! e.1 = Some e.2) as He by (apply Hin; left).
  rewrite IH; [|done|].
  - rewrite map_size_delete_Some by eauto. lia.
  - intros e' He'. rewrite lookup_delete_ne; [apply Hin; by right|].
    intros Heq. apply Hne. rewrite Heq. by apply list_elem_of_fmap_2.
Qed.

(** The log of throttled refreshes is bounded: pruning leaves at most a
    thousand entries in every hash map order, never touches a log that is not
    larger, and otherwise first drops only entries that no longer suppress a
    message (in the future or older than thirty seconds). *)
Theorem throttle_log_bounded `{!UMapOrder} (m : gmap string Z) now_s :
  (size (prune_throttle_log m now_s) ≤ 1000)%nat ∧ prune_throttle_log m now_s ⊆ m ∧
  ((size m ≤ 1000)%nat → prune_throttle_log m now_s = m) ∧
  ((size (filter (λ kv, throttle_stale now_s kv = false) m) ≤ 1000)%nat →
   ∀ k t, m !! k = Some t → t ≤ now_s ≤ t + 30 → prune_throttle_log m now_s !! k = Some t).
Proof.
  unfold prune_throttle_log. destruct (Nat.leb_spec (size m) 1000); [split_and!; done|].
  set (m1 := filter _ m). destruct (Nat.leb_spec (size m1) 1000).
  - split_and!; [done|apply map_filter_subseteq|lia|].
    intros _ k t Hk Ht. apply map_lookup_filter_Some. split; [done|]. unfold throttle_stale. simpl.
    destruct (Z.ltb_spec now_s t), (Z.ltb_spec 30 (now_s - t)); simpl; lia || done.
  - set (entries := sort_by _ _). assert (entries ≡ₚ map_to_list m1) as Hperm.
    { unfold entries. rewrite sort_by_perm. apply um_iter_perm. }
    assert (length entries = size m1) as Hlen by (rewrite Hperm; apply length_map_to_list).
    assert (NoDup entries.*1) as Hnd by (rewrite Hperm; apply NoDup_fst_map_to_list).
    assert (∀ l m0, foldl (λ (m : gmap string Z) (e : string * Z), delete e.1 m) m0 l ⊆ m0) as Hsub.
    { induction l as [|e l IH]; intros m0; simpl; [done|]. etransitivity; [apply IH|apply delete_subseteq]. }
    split_and!.
    + rewrite delete_entries_size.
      * rewrite length_take. lia.
      * rewrite fmap_take. by apply sublist_NoDup with (entries.*1); [|apply sublist_take].
      * intros [k t] Hin. apply elem_of_map_to_list. rewrite <-Hperm. apply elem_of_take in Hin as (i & Hi & _). by eapply list_elem_of_lookup_2.
    + etransitivity; [apply Hsub|apply map_filter_subseteq].
    + lia.
    + lia.
Qed.
(** ** Evaluations *)
Section evaluations.
#[local] Existing Instance no_threads.
#[local] Existing Instance no_threads_keep.
#[local] Existing Instance flat_executor.
#[local] Existing Instance flat_executor_laws.
#[local] Existing Instance toy_json.
#[local] Existing Instance toy_jwt.
#[local] Existing Instance toy_ssl.
#[local] Existing Instance toy_duck.
#[local] Existing Instance um_canonical.
#[local] Instance toy_sha_ok : Sha256 := toy_sha true.

Definition toy_server_secret : SecretEntry :=
  mkSecretEntry (Some (mkKeyValueSecret [] "quack_oauth_server" "config" "srv"
    {["issuer" := DStr "idp"; "audience" := DStr "app"; "jwks_uri" := DStr "https://idp"]} ∅)) "temporary" "memory".

(** A process with one thread, a fixed clock and an endpoint that always answers
    [doc]; [settings] and [listeners] are DuckDB's. *)
Definition toy_context (settings : list (string * dval)) (listeners : option (list string)) (doc : string)
    : ClientContext QuackOauthState :=
  mkClientContext (λ key _, assoc key settings)
    (λ name _, if seqb name "srv" then Some toy_server_secret else None) (λ _, mret tt)
    (λ _, mret (option_map (map (λ u, [DStr u])) listeners)) (λ _ _, mret Executed) (λ _ _, mret tt)
    (mkHttp (λ _, mret (Some (mkResponse 200 doc))) (λ _, mret None)) (λ _, mret tt) (mret 1000).
Definition toy_settings : list (string * dval) := [("quack_oauth_server_secret_name", DStr "srv")].
Definition toy_state : QuackOauthState := QuackOauthState_new (λ _, None).

(** A good token, a token signed with another key, NULL and a replay without
    session: one session is stored and three audit events are kept. *)
Example check_token_run :
  (let '(r, s) := CheckTokenScalarFun3 (toy_context toy_settings (Some ["quack:127.0.0.1:9494"]) "jwks-n1") ref_id
       [Some "s1"; Some "s2"; Some "s3"; None]
       [Some "Bearer RS256/a/n1/idp/app/2000"; Some "RS256/a/n2/idp/app/2000"; None; Some "RS256/a/n1/idp/app/2000"]
       toy_state in
   (r, sp_principal <$> (st_session_principals s !! "s1"), size (st_session_principals s), st_mu s,
    map ae_event_type <$> Snapshot (st_audit_ring s))) =
  (Ret [Some true; Some false; Some false; Some true], Some (mkPrincipal "alice" "idp" [] 2000), 1%nat, false,
   Ret [TokenAccepted; TokenRejected; TokenAccepted]).
Proof. vm_compute. reflexivity. Qed.

Example check_token_refuses_plaintext :
  fst (CheckTokenScalarFun3 (toy_context toy_settings (Some ["quack:0.0.0.0:9494"]) "jwks-n1") ref_id
    [Some "s1"] [Some "RS256/a/n1/idp/app/2000"] toy_state) = Throw (refuse_plaintext "quack:0.0.0.0:9494").
Proof. vm_compute. reflexivity. Qed.

(** The configuration under a provider, for a secret with these fields. *)
Definition preset_config (provider : string) (fields : gmap string dval) : exc ServerConfig :=
  fst (LoadServerConfig (mkClientContext
    (λ key _, assoc key [("quack_oauth_server_secret_name", DStr "srv"); ("quack_oauth_provider", DStr provider)])
    (λ name _, Some (mkSecretEntry (Some (mkKeyValueSecret [] "quack_oauth_server" "config" "srv" fields ∅)) "temporary" "memory"))
    (λ _, mret tt) (λ _, mret None) (λ _ _, mret Executed) (λ _ _, mret tt)
    (mkHttp (λ _, mret None) (λ _, mret None)) (λ _, mret tt) (mret 1000)) toy_state).

(** Google's tokens are opaque, and with the default setting they are taken for
    JWTs; the realm's name alone is not a Keycloak tenant. *)
Example google_stays_jwks : sc_mode <$> preset_config "google" {["audience" := DStr "app"]} = Ret "jwks".
Proof. vm_compute. reflexivity. Qed.
Example github_switches :
  sc_mode <$> preset_config "github" {["tenant_or_realm" := DStr "Iv1"; "introspect_client_secret" := DStr "s"]} =
  Ret "github_check".
Proof. vm_compute. reflexivity. Qed.
Example keycloak_needs_url :
  ∃ msg, preset_config "keycloak" {["tenant_or_realm" := DStr "prod"]} = Throw (InvalidInputException msg).
Proof. eexists. vm_compute. reflexivity. Qed.
Example keycloak_realm :
  sc_jwks_uri <$> preset_config "keycloak" {["tenant_or_realm" := DStr "https://kc.example.com/realms/prod"]} =
  Ret "https://kc.example.com/realms/prod/protocol/openid-connect/certs".
Proof. vm_compute. reflexivity. Qed.

Lemma session_store_bounded_witness :
  ∃ m', StoreSessionPrincipal ∅ "s1" Principal_default 7 = Ret m' ∧ (size m' ≤ 1000)%nat.
Proof.
  destruct (session_store_bounded ∅ "s1" Principal_default 7) as (m' & Hm & Hs & _); [vm_compute; lia|].
  exists m'. split; [exact Hm|exact Hs].
Defined.

Lemma plaintext_guard_witness :
  let context := toy_context toy_settings (Some ["quack:[::1]:9494"]) "jwks-n1" in
  ∃ out w', CheckTokenScalarFun3 context ref_id [] [] toy_state = (Ret out, w') ∧ listeners_guarded context toy_state.
Proof.
  intros context.
  assert (is_ret (fst (CheckTokenScalarFun3 context ref_id [] [] toy_state)) = true) as Hret by (vm_compute; reflexivity).
  destruct (CheckTokenScalarFun3 context ref_id [] [] toy_state) as [[out|e|] w'] eqn:Hr;
    [|discriminate Hret|discriminate Hret].
  exists out, w'. split; [reflexivity|].
  destruct (plaintext_guard context ref_id toy_state (Ret out) w' (or_intror (ex_intro _ [] (ex_intro _ [] Hr)))) as [Hg|[Hno _]].
  - exact Hg.
  - discriminate Hno.
Defined.

Lemma server_config_valid_witness :
  let context := toy_context toy_settings None "jwks-n1" in
  ∃ cfg w', LoadServerConfig context toy_state = (Ret cfg, w') ∧ 0 ≤ sc_clock_skew_s cfg ≤ 3600.
Proof.
  intros context.
  assert (is_ret (fst (LoadServerConfig context toy_state)) = true) as Hret by (vm_compute; reflexivity).
  destruct (LoadServerConfig context toy_state) as [[cfg|e|] w'] eqn:Hr; [|discriminate Hret|discriminate Hret].
  exists cfg, w'. split; [reflexivity|]. exact (proj1 (server_config_valid context cfg toy_state w' Hr)).
Defined.

(** Sessions of the evaluation: alice's. *)
Definition toy_session (sid : string) (sp : SessionPrincipal) : Prop := pr_subject (sp_principal sp) = "alice".
Definition toy_config : ServerConfig := mkServerConfig "jwks" "idp" "app" 60 "https://idp" "" "" "".

Lemma toy_inv : Inv ref_id (good toy_trusted) (λ _, True) toy_session (λ _, True) false toy_state.
Proof.
  split; [|by split]. constructor; simpl.
  - split; [by apply jc_wf_new|]. done.
  - done.
  - apply map_Forall_empty.
  - rewrite map_size_empty. lia.
  - unfold ring_ok. simpl. lia.
Qed.

Lemma check_token_jwks_sound_witness :
  let context := toy_context toy_settings None "jwks-n1" in
  let token := "RS256/a/n1/idp/app/2000" in
  ∃ out w', ValidateChunk context ref_id [Some token] (Some [Some "s1"]) toy_state = (Ret out, w') ∧
    Inv ref_id (good toy_trusted) (λ _, True) toy_session (λ _, True) false w' ∧ out = [Some true] ∧
    token_verified toy_trusted "https://idp" (options_of toy_config 1000) (StripBearerPrefix token).
Proof.
  intros context token.
  destruct (check_token_jwks_sound context ref_id toy_trusted (λ _, True) toy_session (λ _, True)) with
    (tokens := [Some token]) (sids := [Some "s1"]) (cfg := toy_config) (now_s := 1000)
    (w := toy_state) (w1 := toy_state) (w2 := toy_state) as (out & w' & Hrun & Hinv & Hall).
  - intros uri. apply hoare_ret. intros w Hw. split; [|exact Hw].
    intros r [= <-] _. vm_compute. constructor; [by split|constructor].
  - intros ms. by apply hoare_ret.
  - split; intros; by apply hoare_ret.
  - vm_compute. reflexivity.
  - reflexivity.
  - reflexivity.
  - apply toy_inv.
  - reflexivity.
  - intros raw sid p Hin (_ & parsed & Hp & ->). apply list_elem_of_singleton in Hin. simplify_eq.
    vm_compute in Hp. simplify_eq. reflexivity.
  - exists out, w'. split; [exact Hrun|]. split; [exact Hinv|].
    assert (out = [Some true]) as Hout.
    { assert (fst (ValidateChunk context ref_id [Some token] (Some [Some "s1"]) toy_state) = Ret [Some true]) as Hc
        by (vm_compute; reflexivity).
      rewrite Hrun in Hc. cbn [fst] in Hc. injection Hc as Hc. exact Hc. }
    split; [exact Hout|]. subst out. inversion Hall as [|? ? ? ? Hhd _]; subst.
    destruct (Hhd eq_refl) as (raw & Hraw & Hv). injection Hraw as Hraw. rewrite Hraw. exact Hv.
Defined.
End evaluations.
