(* ===== verification/Scrub.v ===== *)
(** * Memory scrubbing ([src/secure_scrub.cpp])

    A [std::string] with the storage behind it, and what is left in storage that was
    given back.  [check_token] scrubs the token of a row when it is done with it;
    the strings of a row and their lifetimes are those of the loop in
    [src/check_token_function.cpp]. *)
From S2P Require Import Prelude CppString JwtParse.

Definition NUL : ascii := "000".

(** The characters, and the rest of the storage. *)
Record StringStorage : Type := mkStorage { ss_live : list ascii; ss_spare : list ascii }.
(** What was given back, block by block. *)
Definition Freed : Type := list (list ascii).

(** OpenSSL's part: it overwrites the bytes with zeros. *)
Class Cleanse : Type := OPENSSL_cleanse : list ascii → list ascii.
Class CleanseLaws `{!Cleanse} : Prop := cleanse_zeroes l : OPENSSL_cleanse l = replicate (length l) NUL.

Definition bytes (s : StringStorage) : list ascii := ss_live s ++ ss_spare s.
(** [clear] keeps the storage and writes the terminator. *)
Definition clear (s : StringStorage) : StringStorage :=
  mkStorage [] (match bytes s with [] => [] | _ :: rest => NUL :: rest end).
(** [shrink_to_fit] is a request, which the library grants or not. *)
Definition shrink_to_fit (granted : bool) (s : StringStorage) (freed : Freed) : StringStorage * Freed :=
  if granted then (mkStorage (ss_live s) [], freed ++ [bytes s]) else (s, freed).
Definition destroy (s : StringStorage) (freed : Freed) : Freed := freed ++ [bytes s].

Section scrub.
Context `{!Cleanse}.

Definition SecureScrub (granted : bool) (s : StringStorage) (freed : Freed) : StringStorage * Freed :=
  let s := if bool_decide (ss_live s = []) then s else mkStorage (OPENSSL_cleanse (ss_live s)) (ss_spare s) in
  shrink_to_fit granted (clear s) freed.

(** The two strings of a row: the value as it came, and the token without its
    prefix, which is scrubbed; then both go out of scope, the last one first. *)
Definition row_strings (granted : bool) (raw_token : StringStorage) (token_spare : list ascii) (freed : Freed) : Freed :=
  let token_str := mkStorage (chars (StripBearerPrefix (of_chars (ss_live raw_token)))) token_spare in
  let '(token_str, freed) := SecureScrub granted token_str freed in
  destroy raw_token (destroy token_str freed).

(** The scrubbed string is empty, and wherever its storage is, in the blocks given
    back or still behind the string, every byte of the old contents is zero. *)
Theorem SecureScrub_zeroes `{!CleanseLaws} granted s freed :
  let '(s', freed') := SecureScrub granted s freed in
  let zeroed := replicate (length (ss_live s)) NUL ++
    match ss_live s, ss_spare s with [], _ :: rest => NUL :: rest | _, spare => spare end in
  ss_live s' = [] ∧ destroy s' freed' = freed ++ (if granted then [zeroed; []] else [zeroed]).
Proof.
  destruct s as [[|c live] spare]; unfold SecureScrub, shrink_to_fit, destroy, clear, bytes; cbn;
    rewrite ?cleanse_zeroes; destruct granted, spare; cbn; by rewrite <-?app_assoc, ?app_nil_r.
Qed.

(** The other copy is not scrubbed: when the row is done, a block that was given
    back holds the bearer token as it came. *)
Theorem raw_token_lingers granted raw_token token_spare freed :
  bytes raw_token ∈ row_strings granted raw_token token_spare freed.
Proof.
  unfold row_strings. destruct (SecureScrub _ _ _) as [s' freed']. unfold destroy.
  apply elem_of_app. right. left.
Qed.

End scrub.

Definition zeroing : Cleanse := λ l, (λ _, NUL) <$> l.
Lemma zeroing_laws : @CleanseLaws zeroing.
Proof. intros l. unfold OPENSSL_cleanse, zeroing. induction l as [|c l IH]; [done|]. cbn. by rewrite IH. Qed.

Example scrubbed_row :
  row_strings (H:=zeroing) true (mkStorage (chars "Bearer abc") []) [] [] =
  [replicate 3 NUL; []; chars "Bearer abc"].
Proof. vm_compute. reflexivity. Qed.
