(* ===== verification/CheckAuthorization.v ===== *)
(** * quack_oauth_check_authorization ([src/check_authorization_function.cpp], [src/principal_expiry.cpp])

    The SQL function that decides a session's query: the stored principal and its
    expiry, the policy, the inspected SQL, and an audit event per decision. *)
From S2P Require Import Prelude CppString Executor StdList JwksCache Http DecisionCache AuditLog External UrlGuard.
From S2P Require Import Policy DuckDb PolicyTable State SqlAst SqlInspect CheckToken Toy Introspect.

(** The sum is of 64 bits, on an expiry that the issuer chose. *)
Definition IsPrincipalExpired (p : Principal) (now_s skew_s : Z) : exc bool :=
  if pr_exp p <=? 0 then Ret false
  else latest ← i64_ok (pr_exp p + skew_s); Ret (latest <? now_s).

(** What the function reads once per chunk. *)
Record AuthzConfig : Type := mkAuthzConfig {
  az_policy : option PolicyDocument;
  az_policy_load_failed : bool;
  az_now_s : Z;
  az_clock_skew_s : Z;
}.

(** The event of a decision: [e] with its type and reason set. *)
Definition authz_event (e : AuditEvent) (t : AuditEventType) (reason : string) : AuditEvent :=
  mkAuditEvent (ae_timestamp_unix_s e) t (ae_subject e) (ae_issuer e) (ae_kid e) (ae_token_hash e) (ae_action e) reason.

Section check_authorization.
Context `{!Executor, !DuckValues, !DuckParser, !Sha256}.
Context {W : Type} `{!Threads W} (context : ClientContext W) (state : Ref W QuackOauthState).

Definition LookupPolicyTable : M W string :=
  v ← gets (cx_setting context "quack_oauth_server_secret_name");
  match v with
  | None => mret ""
  | Some v =>
      if dv_IsNull v then mret ""
      else
        accessor ← TryOpenSecret context (dv_ToString v) (Some "quack_oauth_server");
        mret (SecretGet accessor "policy_table")
  end.

Definition LookupDefaultAllow : M W bool :=
  v ← gets (cx_setting context "quack_oauth_policy_default");
  match v with
  | None => mret false
  | Some v => if dv_IsNull v then mret false else mret (seqb (dv_ToString v) "allow")
  end.

Definition LookupClockSkew : M W Z :=
  v ← gets (cx_setting context "quack_oauth_clock_skew_s");
  match v with
  | None => mret 60
  | Some v => if dv_IsNull v then mret 60 else skew ← lift (dv_int32 v); mret (clamp skew 0 3600)
  end.

Definition ReadAuthzConfig : M W AuthzConfig :=
  policy_table ← LookupPolicyTable;
  default_allow ← LookupDefaultAllow;
  '(policy, policy_load_failed) ←
    (if negb (sempty policy_table) then
       policy ← LoadPolicyFromTable context policy_table;
       mret (match policy with
             | None => (None, true)
             | Some doc => (Some (mkPolicyDocument (pd_rules doc) default_allow), false)
             end)
     else mret (None, false));
  now_s ← cx_now_s context;
  clock_skew_s ← LookupClockSkew;
  mret (mkAuthzConfig policy policy_load_failed now_s clock_skew_s).

Section rows.
Variable cfg : AuthzConfig.

(** [EmitAuditEvent(context, e); return false;] *)
Definition deny (e : AuditEvent) (reason : string) : M W bool :=
  _ ← EmitAuditEvent context state (authz_event e AuthzDeny reason);
  mret false.

Definition authorize_query (sid query : string) : M W bool :=
  request ← lift (InspectSql query);
  let e := mkAuditEvent (az_now_s cfg) (ae_event_type AuditEvent_default) "" "" "" "" (ActionName (rq_action request)) "" in
  found ← with_guard state (ref_read (ref_comp state session_principals_ref) (λ m, m !! sid));
  match found with
  | None => deny e "unknown session"
  | Some entry =>
      let principal := sp_principal entry in
      let e := mkAuditEvent (ae_timestamp_unix_s e) (ae_event_type e) (pr_subject principal) (pr_issuer principal)
                 (ae_kid e) (ae_token_hash e) (ae_action e) (ae_reason e) in
      expired ← lift (IsPrincipalExpired principal (az_now_s cfg) (az_clock_skew_s cfg));
      if (expired : bool) then
        _ ← with_guard state (ref_upd (ref_comp state session_principals_ref) (delete sid));
        deny e "principal expired"
      else if az_policy_load_failed cfg then deny e "policy_table load failed"
      else if rq_unsafe request then deny e "parse_error"
      else
        outcome ← lift (match az_policy cfg with
                        | Some policy => EvaluatePolicy policy principal request
                        | None => Ret (EvaluateDefaultPolicy principal (rq_action request))
                        end);
        let allow := bool_decide (po_decision outcome = Allow) in
        _ ← EmitAuditEvent context state (authz_event e (if allow then AuthzAllow else AuthzDeny) (po_reason outcome));
        mret allow
  end.

End rows.

Definition CheckAuthorizationScalarFun (session_ids queries : Column) : M W (list (option bool)) :=
  cfg ← ReadAuthzConfig;
  bx_Execute (authorize_query cfg) session_ids queries.
End check_authorization.

(** ** Expiry *)

(** Up to the skew, at the time of the configuration. *)
Definition unexpired (cfg : AuthzConfig) (p : Principal) : Prop :=
  0 < pr_exp p → az_now_s cfg ≤ pr_exp p + az_clock_skew_s cfg.
Definition skew_ok (cfg : AuthzConfig) : Prop := 0 ≤ az_clock_skew_s cfg ≤ 3600.

Lemma IsPrincipalExpired_Ret p cfg b :
  IsPrincipalExpired p (az_now_s cfg) (az_clock_skew_s cfg) = Ret b → b = false ↔ unexpired cfg p.
Proof.
  unfold IsPrincipalExpired, unexpired. destruct (Z.leb_spec (pr_exp p) 0); [intros [= <-]; by split; [lia|]|].
  intros (latest & [-> _]%i64_ok_inv & [= <-])%exc_bind_Ret. rewrite Z.ltb_ge. tauto.
Qed.

Lemma IsPrincipalExpired_total cfg p :
  skew_ok cfg → leaves_room (pr_exp p) → ∃ b, IsPrincipalExpired p (az_now_s cfg) (az_clock_skew_s cfg) = Ret b.
Proof.
  intros Hskew Hroom. unfold IsPrincipalExpired. destruct (Z.leb_spec (pr_exp p) 0); [by eexists|].
  rewrite i64_ok_Ret; [by eexists|]. by apply (leaves_room_fits _ _ Hskew Hroom).
Qed.

Lemma LookupClockSkew_bounds `{!DuckValues} {W} (context : ClientContext W) w skew w' :
  LookupClockSkew context w = (Ret skew, w') → 0 ≤ skew ≤ 3600.
Proof.
  unfold LookupClockSkew, mbind, M_bind, gets.
  destruct (cx_setting context "quack_oauth_clock_skew_s" w) as [v|]; [|intros [= <- _]; lia].
  destruct (dv_IsNull v); [intros [= <- _]; lia|]. cbn. destruct (dv_int32 v); [|done..]. cbn.
  intros [= <- _]. by apply clamp_bounds.
Qed.

Lemma ReadAuthzConfig_skew `{!DuckValues} {W} (context : ClientContext W) w cfg w' :
  ReadAuthzConfig context w = (Ret cfg, w') → skew_ok cfg.
Proof.
  unfold ReadAuthzConfig. intros (table & w1 & _ & Hrun)%M_bind_Ret. apply M_bind_Ret in Hrun as (b & w2 & _ & Hrun).
  apply M_bind_Ret in Hrun as ([policy failed] & w3 & _ & Hrun). apply M_bind_Ret in Hrun as (now_s & w4 & _ & Hrun).
  apply M_bind_Ret in Hrun as (skew & w5 & Hskew%LookupClockSkew_bounds & Hrun). by injection Hrun as <- _.
Qed.

Section soundness.
Context `{!Executor, !ExecutorLaws, !DuckValues, !DuckParser, !DuckParserLaws, !Sha256}.
Context {W : Type} `{!Threads W} (context : ClientContext W) (state : Ref W QuackOauthState) `{!RefLaws state}.
Context (J : JwksCache → Prop) (D : DecisionCache → Prop) (S : string → SessionPrincipal → Prop).
Context (F : W → Prop) `{!Frame state F, !Keeps (Inv state J D S F false)}.
Local Abbreviation I := (Inv state J D S F).

(** What the policy in force says of a request. *)
Definition permitted (cfg : AuthzConfig) (p : Principal) (request : AuthzRequest) : Prop :=
  match az_policy cfg with
  | Some doc => ∀ cell, cell ∈ cells request → cell_allowed doc p (rq_action request) cell
  | None => po_decision (EvaluateDefaultPolicy p (rq_action request)) = Allow
  end.

(** What an answer of [true] rests on. *)
Definition authorized (cfg : AuthzConfig) (sid query : string) : Prop :=
  ∃ entry request, S sid entry ∧ unexpired cfg (sp_principal entry) ∧
    az_policy_load_failed cfg = false ∧
    InspectSql query = Ret request ∧ rq_unsafe request = false ∧
    (query = "" ∨ ∃ stmts, ParseBuiltin query = inr stmts ∧ Forall (accounted request) stmts) ∧
    permitted cfg (sp_principal entry) request.

(** NULL for a NULL argument, and [true] only for an authorized query. *)
Definition answer_sound (cfg : AuthzConfig) : option (string * string) → option bool → Prop :=
  row_answer (λ row (b : bool), b = true → authorized cfg row.1 row.2).

Hypothesis Henv : env_ok context state J D S F.
(** The stored expiry of a session leaves room for the skew. *)
Definition session_room (sid : string) : Prop := ∀ entry, S sid entry → leaves_room (pr_exp (sp_principal entry)).

Lemma deny_sound cfg sid query e reason :
  hoare (I false) (deny context state e reason) (λ b w, (b = true → authorized cfg sid query) ∧ I false w).
Proof.
  unfold deny. apply (hoare_bind _ _ _ (λ _, I false)); [by apply EmitAuditEvent_inv|].
  intros []. apply hoare_ret. intros w Hw. by split.
Qed.

Lemma permitted_outcome cfg p request :
  ∃ o, match az_policy cfg with
       | Some policy => EvaluatePolicy policy p request
       | None => Ret (EvaluateDefaultPolicy p (rq_action request))
       end = Ret o ∧ (po_decision o = Allow ↔ permitted cfg p request).
Proof.
  unfold permitted. destruct (az_policy cfg) as [doc|].
  - destruct (EvaluatePolicy_spec doc p request) as (o & -> & Ho & _). by exists o.
  - by eexists.
Qed.

Lemma find_session_inv sid :
  hoare (I false) (with_guard state (ref_read (ref_comp state session_principals_ref) (λ m, m !! sid)))
    (λ found w, (∀ entry, found = Some entry → S sid entry) ∧ I false w).
Proof.
  apply (hoare_with_guard state J D S F _ (λ found, ∀ entry, found = Some entry → S sid entry)).
  apply hoare_read. intros w Hw. split; [|done]. intros entry He. destruct Hw as [Hok _].
  exact (so_sessions _ _ _ _ Hok sid entry He).
Qed.

Lemma drop_session_inv sid :
  hoare (I false) (with_guard state (ref_upd (ref_comp state session_principals_ref) (delete sid))) (λ _, I false).
Proof.
  eapply hoare_post; [|apply (hoare_with_guard state J D S F _ (λ _, True))]; [by intros [] w [_ ?]|].
  apply hoare_upd. intros w Hw. pose proof Hw as [[HJ HD HS Hsz Hring] _]. split; [done|].
  assert (size (delete sid (st_session_principals (ref_get state w))) ≤ 1000)%nat.
  { etrans; [|exact Hsz]. apply map_subseteq_size, delete_subseteq. }
  assert (map_Forall S (delete sid (st_session_principals (ref_get state w)))) by (by apply map_Forall_delete).
  by apply Inv_sessions.
Qed.

Lemma authorize_query_inv cfg sid query :
  skew_ok cfg → session_room sid →
  hoare (I false) (authorize_query context state cfg sid query)
    (λ b w, (b = true → authorized cfg sid query) ∧ I false w).
Proof.
  intros Hskew Hroom. unfold authorize_query. destruct (InspectSql_spec query) as (request & Hreq & Hsafe).
  eapply hoare_bind; [eapply (hoare_lift _ _ _ (λ r w, r = request ∧ I false w)); [exact Hreq|by auto]|].
  intros r. apply hoare_pure. intros ->.
  eapply hoare_bind; [apply find_session_inv|]. intros found. apply hoare_pure. intros Hfound.
  destruct found as [entry|]; [|apply deny_sound].
  destruct (IsPrincipalExpired_total cfg (sp_principal entry) Hskew) as [expired Hexp]; [by apply Hroom, Hfound|].
  eapply hoare_bind; [eapply (hoare_lift _ _ _ (λ r w, r = expired ∧ I false w)); [exact Hexp|by auto]|].
  intros r. apply hoare_pure. intros ->. destruct expired.
  { apply (hoare_bind _ _ _ (λ _, I false)); [apply drop_session_inv|]. intros []. apply deny_sound. }
  destruct (az_policy_load_failed cfg) eqn:Hfail; [apply deny_sound|].
  destruct (rq_unsafe request) eqn:Hunsafe; [apply deny_sound|].
  destruct (permitted_outcome cfg (sp_principal entry) request) as (o & Ho & Hallow).
  eapply hoare_bind; [eapply (hoare_lift _ _ _ (λ r w, r = o ∧ I false w)); [exact Ho|by auto]|].
  intros r. apply hoare_pure. intros ->.
  apply (hoare_bind _ _ _ (λ _, I false)); [by apply EmitAuditEvent_inv|]. intros []. apply hoare_ret.
  intros w Hw. split; [|done]. intros Hd%bool_decide_eq_true. exists entry, request.
  split_and!; [by apply Hfound|by eapply IsPrincipalExpired_Ret|done..|by apply Hsafe|by apply Hallow].
Qed.

Lemma authorize_rows_inv cfg session_ids queries :
  skew_ok cfg → (∀ sid, session_room sid) →
  hoare (I false) (bx_Execute (authorize_query context state cfg) session_ids queries)
    (λ out w, Forall2 (answer_sound cfg) (zip_with both session_ids queries) out ∧ I false w).
Proof.
  intros Hskew Hroom. apply hoare_triple, bx_triple. intros sid query _.
  exact (triple_hoare _ _ _ (λ _ _, False) (authorize_query_inv cfg sid query Hskew (Hroom sid))).
Qed.

(** What is decided about a query, given the session that was found. *)
Definition grants (cfg : AuthzConfig) (found : option SessionPrincipal) (query : string) : Prop :=
  ∃ entry request, found = Some entry ∧ unexpired cfg (sp_principal entry) ∧
    az_policy_load_failed cfg = false ∧ InspectSql query = Ret request ∧ rq_unsafe request = false ∧
    permitted cfg (sp_principal entry) request.

Lemma deny_false cfg found query e reason w b w' :
  ¬ grants cfg found query → deny context state e reason w = (Ret b, w') → (b = true ↔ grants cfg found query).
Proof.
  unfold deny. intros Hno ([] & w1 & _ & [= <- _])%M_bind_Ret. split; [done|]. by intros ?%Hno.
Qed.

Lemma authorize_query_exact cfg sid query w :
  skew_ok cfg → session_room sid → I false w →
  ∃ w1 b w', wait_mu w = (Ret tt, w1) ∧ authorize_query context state cfg sid query w = (Ret b, w') ∧ I false w' ∧
    (b = true ↔ grants cfg (st_session_principals (ref_get state w1) !! sid) query).
Proof.
  intros Hskew Hroom Hw. destruct (wait_mu w) as [rw w1] eqn:Hwait.
  destruct (hoare_run _ _ _ _ _ _ threads_keep Hw Hwait) as ([] & -> & Hw1).
  destruct (authorize_query context state cfg sid query w) as [r w'] eqn:Hrun.
  destruct (hoare_run _ _ _ _ _ _ (authorize_query_inv cfg sid query Hskew Hroom) Hw Hrun) as (b & -> & _ & Hw').
  exists w1, b, w'. split_and!; [done..|]. unfold authorize_query in Hrun.
  apply M_bind_Ret in Hrun as (request & w0 & (Hreq & ->)%lift_Ret & Hrun). rewrite M_bind_eq in Hrun.
  rewrite (with_guard_run state _ w w1) in Hrun; [|apply Hw|done]. cbn [ref_read gets] in Hrun.
  assert (st_session_principals (ref_get state (ref_set (ref_comp state mu_ref) true w1)) =
    st_session_principals (ref_get state w1)) as Hsame by (cbn; rewrite ref_get_set; by destruct (ref_get state w1)).
  unfold ref_read, gets in Hrun. cbn in Hrun, Hsame. rewrite Hsame in Hrun.
  destruct (st_session_principals (ref_get state w1) !! sid) as [entry|] eqn:Hfound.
  2: { eapply deny_false; [|exact Hrun]. by intros (? & ? & ? & _). }
  apply M_bind_Ret in Hrun as (expired & w2 & (Hexp%IsPrincipalExpired_Ret & ->)%lift_Ret & Hrun). destruct expired.
  { apply M_bind_Ret in Hrun as ([] & w3 & _ & Hrun). eapply deny_false; [|exact Hrun].
    intros (? & ? & [= <-] & ?%Hexp & _). done. }
  destruct (az_policy_load_failed cfg) eqn:Hfail.
  { eapply deny_false; [|exact Hrun]. intros (? & ? & ? & ? & ? & _). congruence. }
  destruct (rq_unsafe request) eqn:Hunsafe.
  { eapply deny_false; [|exact Hrun]. intros (? & ? & ? & ? & ? & ? & ? & _). congruence. }
  destruct (permitted_outcome cfg (sp_principal entry) request) as (o & Ho & Hallow).
  apply M_bind_Ret in Hrun as (o' & w2 & (Ho' & ->)%lift_Ret & Hrun).
  apply M_bind_Ret in Hrun as ([] & w3 & _ & [= <- _]). assert (o' = o) as -> by congruence.
  rewrite bool_decide_eq_true, Hallow. split.
  - intros Hperm. exists entry, request. split_and!; [done|by apply Hexp|done..].
  - intros (entry' & request' & ? & _ & _ & ? & _ & Hperm). assert (request' = request) as -> by congruence.
    assert (entry' = entry) as -> by congruence. exact Hperm.
Qed.

(** Claim C6.  The answer is exact, not only safe: a query is answered, and [true]
    if and only if, at the moment the call gets the mutex, a principal is stored for
    the session whose expiry, if it is known, lies at most the skew in the past, the
    policy loaded, the inspection finds the query safe and the policy in force
    permits what it touches.  The skew is one that the code reads, and the stored
    expiries leave room to add it in 64 bits ([expiry_overflow] is what happens
    otherwise). *)
Theorem authorization_exact cfg sid query w :
  skew_ok cfg → session_room sid → I false w →
  ∃ w1 b w', wait_mu w = (Ret tt, w1) ∧ authorize_query context state cfg sid query w = (Ret b, w') ∧ I false w' ∧
    (b = true ↔ grants cfg (st_session_principals (ref_get state w1) !! sid) query).
Proof. apply authorize_query_exact. Qed.

(** Claim C5.  End to end, authorization fails closed: once the configuration is
    read the call returns, with the mutex released and the process invariants
    kept, and it answers [true] for a row only if a principal is stored for the
    session (which by the invariant came from a verified token), is not past its
    expiry and the skew, the policy did not fail to load, the query parsed and
    everything in it is accounted for in the inspected request, and the policy in
    force permits that request: every object and column of it under a policy
    table, its action under the default policy.  The stored expiries are assumed
    to leave room to add the skew in 64 bits. *)
Theorem check_authorization_sound session_ids queries cfg w w1 :
  ReadAuthzConfig context w = (Ret cfg, w1) → (∀ sid, session_room sid) → I false w1 →
  ∃ out w', CheckAuthorizationScalarFun context state session_ids queries w = (Ret out, w') ∧ I false w' ∧
    Forall2 (answer_sound cfg) (zip_with both session_ids queries) out.
Proof.
  intros Hcfg Hroom Hw1. pose proof (ReadAuthzConfig_skew _ _ _ _ Hcfg) as Hskew. unfold CheckAuthorizationScalarFun. unfold mbind, M_bind. rewrite Hcfg.
  destruct (bx_Execute (authorize_query context state cfg) session_ids queries w1) as [r w'] eqn:Hr.
  destruct (hoare_run _ _ _ _ _ _ (authorize_rows_inv cfg session_ids queries Hskew Hroom) Hw1 Hr) as (out & -> & ? & ?).
  by exists out, w'.
Qed.
End soundness.

Section promises.
Context `{!DuckValues, !DuckParser, !DuckParserLaws, !Sha256}.
Context {W : Type} `{!Threads W} (context : ClientContext W) (state : Ref W QuackOauthState) `{!RefLaws state}.

(** What other threads write while this one waits is theirs; logging and the audit
    table are outside the process's memory. *)
Local Abbreviation ring := (λ w, st_audit_ring (ref_get state w)).
Hypothesis Hquiet : unchanged ring wait_mu.
Hypothesis Hlog : ∀ level line, unchanged ring (cx_log context level line).
Hypothesis Hexec : ∀ sql params, unchanged ring (cx_Execute context sql params).

(** The ring is not touched by a section under the mutex that does not write it. *)
Lemma guard_keeps_ring {A} (m : M W A) w r w' :
  unchanged ring m → with_guard state m w = (r, w') → ring w' = ring w.
Proof.
  intros Hm. apply (unchanged_run ring), (guard_unchanged state ring); [|done..].
  intros b v. simpl. rewrite ref_get_set. by destruct (ref_get state v).
Qed.

(** A section that returns got the mutex after waiting for it. *)
Lemma with_guard_Ret {A} (m : M W A) w a w' :
  with_guard state m w = (Ret a, w') →
  ∃ w1 w2, wait_mu w = (Ret tt, w1) ∧ m (ref_set (ref_comp state mu_ref) true w1) = (Ret a, w2) ∧
    w' = ref_set (ref_comp state mu_ref) false w2.
Proof.
  unfold with_guard, finally, lock_mu, gets. rewrite M_bind_eq, M_bind_eq. destruct (st_mu (ref_get state w)); [done|].
  rewrite M_bind_eq. destruct (wait_mu w) as [[[]|e|] w1]; [|done..]. cbn [modify mret M_ret].
  unfold modify. destruct (m _) as [[a'|e|] w2] eqn:Hm; [|done..]. intros [= -> <-]. by exists w1, w2.
Qed.

(** An event is pushed exactly once. *)
Lemma EmitAuditEvent_ring e w w' :
  EmitAuditEvent context state e w = (Ret tt, w') → Push (ring w) e = Ret (ring w').
Proof.
  unfold EmitAuditEvent. intros ([] & w1 & Hpush & Hrest)%M_bind_Ret.
  apply with_guard_Ret in Hpush as (w2 & w3 & Hwait & Hcall & ->).
  assert (ring w' = ring w3) as ->.
  { assert (∀ k : M W unit, unchanged ring k → k (ref_set (ref_comp state mu_ref) false w3) = (Ret tt, w') →
      ring w' = ring w3) as Hk.
    { intros k Hk Hrun. rewrite (unchanged_run ring _ _ _ _ Hk Hrun). simpl. rewrite ref_get_set. by destruct (ref_get state w3). }
    eapply Hk; [|exact Hrest]. unfold LookupAuditTable, TryOpenSecret, InsertAuditRow. leaves_alone. }
  rewrite <-(unchanged_run ring _ _ _ _ Hquiet Hwait). revert Hcall. unfold ref_call. simpl. rewrite ref_get_set.
  destruct (ref_get state w2) as [j d s a t m]. simpl. destruct (Push a e) as [a'|x|]; [|done..].
  intros [= <-]. by rewrite ref_get_set.
Qed.

(** Why a request is decided this way: the first of these that applies. *)
Inductive reason_for (cfg : AuthzConfig) (request : AuthzRequest) : option SessionPrincipal → bool → string → Prop :=
  | reason_unknown : reason_for cfg request None false "unknown session"
  | reason_expired entry :
      ¬ unexpired cfg (sp_principal entry) → reason_for cfg request (Some entry) false "principal expired"
  | reason_load entry :
      unexpired cfg (sp_principal entry) → az_policy_load_failed cfg = true →
      reason_for cfg request (Some entry) false "policy_table load failed"
  | reason_unsafe entry :
      unexpired cfg (sp_principal entry) → az_policy_load_failed cfg = false → rq_unsafe request = true →
      reason_for cfg request (Some entry) false "parse_error"
  | reason_policy entry b outcome :
      unexpired cfg (sp_principal entry) → az_policy_load_failed cfg = false → rq_unsafe request = false →
      match az_policy cfg with
      | Some doc => EvaluatePolicy doc (sp_principal entry) request = Ret outcome
      | None => EvaluateDefaultPolicy (sp_principal entry) (rq_action request) = outcome
      end →
      b = true ↔ permitted cfg (sp_principal entry) request →
      reason_for cfg request (Some entry) b (po_reason outcome).

(** The event of a decision. *)
Record event_for (cfg : AuthzConfig) (request : AuthzRequest) (found : option SessionPrincipal) (b : bool)
    (e : AuditEvent) : Prop := mk_event_for {
  ef_time : ae_timestamp_unix_s e = az_now_s cfg;
  ef_type : ae_event_type e = if b then AuthzAllow else AuthzDeny;
  ef_who : (ae_subject e, ae_issuer e) =
    match found with Some entry => (pr_subject (sp_principal entry), pr_issuer (sp_principal entry)) | None => ("", "") end;
  ef_no_token : ae_kid e = "" ∧ ae_token_hash e = "";
  ef_action : ae_action e = ActionName (rq_action request);
  ef_reason : reason_for cfg request found b (ae_reason e);
}.

(** The ring has got one event more, this one; in terms of its contents, it is the
    last one. *)
Definition one_more (e : AuditEvent) (r r' : AuditRing) : Prop :=
  Push r e = Ret r' ∧ ∀ cap evs, ring_wf cap evs r → ring_wf cap (evs ++ [e]) r'.

Lemma one_more_push e r r' : Push r e = Ret r' → one_more e r r'.
Proof.
  intros Hp. split; [done|]. intros cap evs Hwf. destruct (ring_push cap evs r e Hwf) as (r1 & Hr1 & Hwf1). congruence.
Qed.

Lemma deny_audited e reason w b w' :
  deny context state e reason w = (Ret b, w') → b = false ∧ one_more (authz_event e AuthzDeny reason) (ring w) (ring w').
Proof.
  unfold deny. intros ([] & w1 & He & [= <- <-])%M_bind_Ret. split; [done|]. by apply one_more_push, EmitAuditEvent_ring.
Qed.

(** Claim C23.  Every decision is audited exactly once: when a row is answered, one
    event has been written to the audit ring and nothing else (what other threads
    write while the call waits for the mutex apart).  It is an allow event exactly
    when the answer is [true], at the time of the configuration, with the action of
    the query, the principal of the session as it was found under the mutex, no
    token, and the reason: the first check that refused, or the policy's. *)
Theorem authorization_audited cfg sid query w b w' :
  authorize_query context state cfg sid query w = (Ret b, w') →
  ∃ request w1 e, InspectSql query = Ret request ∧ wait_mu w = (Ret tt, w1) ∧
    event_for cfg request (st_session_principals (ref_get state w1) !! sid) b e ∧
    one_more e (st_audit_ring (ref_get state w)) (st_audit_ring (ref_get state w')).
Proof.
  unfold authorize_query. intros (request & w0 & (Hreq & ->)%lift_Ret & Hrun)%M_bind_Ret.
  apply M_bind_Ret in Hrun as (found & w2 & Hfind & Hrun).
  pose proof (guard_keeps_ring _ _ _ _ (un_read ring _ _) Hfind) as Hring. simpl in Hring.
  apply with_guard_Ret in Hfind as (w1 & w3 & Hwait & [= Hfound <-] & Hw2).
  assert (found = st_session_principals (ref_get state w1) !! sid) as Hsame.
  { rewrite <-Hfound. simpl. rewrite ref_get_set. by destruct (ref_get state w1). }
  clear Hw2 Hfound.
  assert (∀ e reason, deny context state e reason w2 = (Ret b, w') →
    event_for cfg request found false (authz_event e AuthzDeny reason) →
    ∃ e, event_for cfg request found b e ∧ one_more e (ring w2) (ring w')) as Hdeny.
  { intros e reason Hd He. apply deny_audited in Hd as [-> Hmore]. eauto. }
  enough (∃ e, event_for cfg request found b e ∧ one_more e (ring w2) (ring w')) as (e & ? & ?)
    by (exists request, w1, e; split_and!; [done..|by rewrite <-Hsame|by rewrite <-Hring]).
  destruct found as [entry|]; [|eapply Hdeny; [exact Hrun|by repeat constructor]].
  apply M_bind_Ret in Hrun as (expired & w4 & (Hexp%IsPrincipalExpired_Ret & ->)%lift_Ret & Hrun). destruct expired.
  { apply M_bind_Ret in Hrun as ([] & w4 & Hdrop & Hrun). apply guard_keeps_ring in Hdrop.
    2: { apply un_upd. intros m v. simpl. rewrite ref_get_set. by destruct (ref_get state v). }
    rewrite <-Hdrop. apply deny_audited in Hrun as [-> Hmore]. eexists. split; [|exact Hmore].
    split; [done..|]. constructor. intros ?%Hexp. done. }
  assert (unexpired cfg (sp_principal entry)) as Hun by (by apply Hexp).
  destruct (az_policy_load_failed cfg) eqn:Hfail; [eapply Hdeny; [exact Hrun|]; by repeat constructor|].
  destruct (rq_unsafe request) eqn:Hunsafe; [eapply Hdeny; [exact Hrun|]; by repeat constructor|].
  destruct (permitted_outcome cfg (sp_principal entry) request) as (o & Ho & Hallow).
  apply M_bind_Ret in Hrun as (o' & w4 & (Ho' & ->)%lift_Ret & Hrun). assert (o' = o) as -> by congruence.
  apply M_bind_Ret in Hrun as ([] & w5 & He & [= <- <-]). apply EmitAuditEvent_ring in He.
  eexists. split; [|by apply one_more_push]. split; [done..|]. apply reason_policy; [done..| |].
  - destruct (az_policy cfg); [done|]. by injection Ho.
  - by rewrite bool_decide_eq_true.
Qed.





End promises.

(** ** Evaluations *)
Section evaluations.
#[local] Existing Instance no_threads.
#[local] Existing Instance no_threads_keep.
#[local] Existing Instance flat_executor.
#[local] Existing Instance flat_executor_laws.
#[local] Existing Instance toy_duck.
#[local] Existing Instance toy_parser.
#[local] Existing Instance toy_parser_laws.
#[local] Instance toy_sha_authz : Sha256 := toy_sha true.

(** Alice's session, with the scope to read. *)
Definition toy_sessions : gmap string SessionPrincipal :=
  {["s1" := mkSessionPrincipal (mkPrincipal "alice" "idp" ["quack:read"] 2000) 0]}.
Definition toy_authz_state : QuackOauthState := ref_set session_principals_ref toy_sessions toy_state.
Definition toy_authz_context : ClientContext QuackOauthState := toy_context toy_settings None "".
Definition toy_authz_config : AuthzConfig := mkAuthzConfig None false 1000 60.

Example authorize_run :
  (let '(r, s) := CheckAuthorizationScalarFun toy_authz_context ref_id
       [Some "s1"; Some "s1"; Some "s2"; None] [Some "read"; Some "mixed"; Some "read"; Some "read"]
       toy_authz_state in
   (r, st_mu s, map (λ e, (ae_event_type e, ae_reason e)) <$> Snapshot (st_audit_ring s))) =
  (Ret [Some true; Some false; Some false; None], false,
   Ret [(AuthzAllow, "ok"); (AuthzDeny, "parse_error"); (AuthzDeny, "unknown session")]).
Proof. vm_compute. reflexivity. Qed.

(** An expired session is dropped. *)
Example authorize_expired :
  (let '(r, s) := authorize_query toy_authz_context ref_id (mkAuthzConfig None false 2061 60) "s1" "read" toy_authz_state in
   (r, size (st_session_principals s))) = (Ret false, 0%nat).
Proof. vm_compute. reflexivity. Qed.

(** A session whose issuer put the end of time as its expiry. *)
Example expiry_overflow :
  fst (authorize_query toy_authz_context ref_id toy_authz_config "s1" "read"
         (ref_set session_principals_ref
           {["s1" := mkSessionPrincipal (mkPrincipal "alice" "idp" ["quack:read"] (2 ^ 63 - 1)) 0]} toy_state)) = Stuck.
Proof. vm_compute. reflexivity. Qed.

Definition toy_authz_session (sid : string) (sp : SessionPrincipal) : Prop :=
  pr_subject (sp_principal sp) = "alice" ∧ leaves_room (pr_exp (sp_principal sp)).

Lemma toy_authz_inv : Inv ref_id (λ _, True) (λ _, True) toy_authz_session (λ _, True) false toy_authz_state.
Proof.
  split; [|by split]. constructor; simpl; [done|done| | |unfold ring_ok; simpl; lia].
  - unfold toy_sessions. apply map_Forall_singleton. by split.
  - unfold toy_sessions. rewrite map_size_singleton. lia.
Qed.

Lemma check_authorization_sound_witness :
  ∃ out w', CheckAuthorizationScalarFun toy_authz_context ref_id [Some "s1"] [Some "read"] toy_authz_state =
      (Ret out, w') ∧ out = [Some true] ∧
    authorized toy_authz_session toy_authz_config "s1" "read".
Proof.
  destruct (check_authorization_sound toy_authz_context ref_id (λ _, True) (λ _, True) toy_authz_session (λ _, True)) with
    (session_ids := [Some "s1"]) (queries := [Some "read"]) (cfg := toy_authz_config) (w := toy_authz_state) (w1 := toy_authz_state)
    as (out & w' & Hrun & _ & Hall).
  - split; intros; by apply hoare_ret.
  - vm_compute. reflexivity.
  - by intros sid sp [_ Hroom].
  - apply toy_authz_inv.
  - assert (fst (CheckAuthorizationScalarFun toy_authz_context ref_id [Some "s1"] [Some "read"] toy_authz_state)
      = Ret [Some true]) as Hc by (vm_compute; reflexivity).
    rewrite Hrun in Hc. cbn [fst] in Hc. injection Hc as ->. exists [Some true], w'.
    split; [exact Hrun|]. split; [reflexivity|]. inversion Hall as [|? ? ? ? Hhd _]; subst.
    destruct Hhd as (b & Hb & Hok). injection Hb as <-. by apply Hok.
Defined.

Lemma authorization_exact_witness :
  ∃ w1 b w', authorize_query toy_authz_context ref_id toy_authz_config "s1" "read" toy_authz_state = (Ret b, w') ∧
    (b = true ↔ grants toy_authz_config (st_session_principals w1 !! "s1") "read").
Proof.
  destruct (authorization_exact toy_authz_context ref_id (λ _, True) (λ _, True) toy_authz_session (λ _, True))
    with (cfg := toy_authz_config) (sid := "s1") (query := "read") (w := toy_authz_state)
    as (w1 & b & w' & _ & Hrun & _ & Hb).
  - split; intros; by apply hoare_ret.
  - vm_compute. by split.
  - by intros sp [_ Hroom].
  - apply toy_authz_inv.
  - exists w1, b, w'. split; [exact Hrun|exact Hb].
Defined.

Definition is_true_ret (r : exc bool) : bool := match r with Ret b => b | _ => false end.

Lemma authorization_audited_witness :
  ∃ w', authorize_query toy_authz_context ref_id toy_authz_config "s1" "read" toy_authz_state = (Ret true, w') ∧
    ∃ request e, InspectSql "read" = Ret request ∧ ae_event_type e = AuthzAllow ∧ ae_subject e = "alice" ∧
      one_more e (st_audit_ring toy_authz_state) (st_audit_ring w').
Proof.
  assert (is_true_ret (fst (authorize_query toy_authz_context ref_id toy_authz_config "s1" "read" toy_authz_state)) = true)
    as Hret by (vm_compute; reflexivity).
  destruct (authorize_query toy_authz_context ref_id toy_authz_config "s1" "read" toy_authz_state) as [[[]|e|] w'] eqn:Hr;
    [|discriminate Hret..].
  exists w'. split; [reflexivity|].
  destruct (authorization_audited (Threads0 := no_threads) toy_authz_context ref_id (λ w, eq_refl) (λ _ _ w, eq_refl) (λ _ _ w, eq_refl)
    toy_authz_config "s1" "read" toy_authz_state true w' Hr) as (request & w1 & e & Hreq & Hwait & Hevent & Hmore).
  exists request, e. split; [exact Hreq|]. split; [exact (ef_type _ _ _ _ _ Hevent)|].
  split; [|exact Hmore]. injection Hwait as Hw. subst w1. pose proof (ef_who _ _ _ _ _ Hevent) as Hwho.
  assert (st_session_principals (ref_get ref_id toy_authz_state) !! "s1"
    = Some (mkSessionPrincipal (mkPrincipal "alice" "idp" ["quack:read"] 2000) 0)) as Hs by (vm_compute; reflexivity).
  rewrite Hs in Hwho. by injection Hwho.
Defined.

End evaluations.
