(* ===== verification/Login.v ===== *)
(** * Logging in and asking ([src/src/check_token_function.cpp],
    [src/src/check_authorization_function.cpp])

    The two SQL functions one after the other, for a user in good order: the token is
    accepted, its principal is stored for the session, and the queries the policy
    permits to that principal are answered.  What else the process does meanwhile is
    assumed to leave the session store alone; [renewal_lost] of Threads shows that
    this cannot be dropped. *)
From S2P Require Import Prelude CppString Executor StdList JwksCache Http DecisionCache AuditLog External Toy Json JwtParse.
From S2P Require Import JwtVerify Validator Availability Introspect UrlGuard Providers Policy DuckDb PolicyTable State Settings.
From S2P Require Import SqlAst SqlInspect CheckToken CheckAuthorization.

(** ** What a validation does not touch *)
Section validator.
Context `{!PicoJson, !JwtCpp, !OpenSsl, !UMapOrder}.
Context {W X : Type} (f : W → X) (ctx : ValidateContext W).
Hypothesis Hcache : ∀ c w, f (ref_set (vx_jwks_cache ctx) c w) = f w.
Hypothesis Hget : unchanged f (Get (vx_http ctx) (vx_jwks_uri ctx)).

Lemma FetchAndParseJwks_unchanged kid opts out : unchanged f (FetchAndParseJwks kid opts ctx out).
Proof. unfold FetchAndParseJwks. leaves_alone. Qed.

Lemma CommitTargetKid_unchanged kid rid token alg m opts out o :
  unchanged f (CommitTargetKid kid rid token alg m opts ctx out o).
Proof. unfold CommitTargetKid, CommitAndAudit. leaves_alone. Qed.

Lemma TryRefreshRotatedKid_unchanged token kid alg opts out :
  unchanged f (TryRefreshRotatedKid token kid alg opts ctx out).
Proof.
  pose proof FetchAndParseJwks_unchanged as Hfetch. pose proof CommitTargetKid_unchanged as Hcommit.
  unfold TryRefreshRotatedKid, IngestSiblingKeys, ReverifyAfterCommit. leaves_alone; auto; leaves_alone.
Qed.

Lemma ValidateToken_unchanged token opts out : unchanged f (ValidateToken token opts ctx out).
Proof.
  pose proof TryRefreshRotatedKid_unchanged as Hrefresh.
  unfold ValidateToken, CachedKid, ColdFetch, IngestAllKeys. leaves_alone; auto; leaves_alone.
Qed.
End validator.

(** ** One row, then a query *)
Section login.
Context `{!Executor, !ExecutorLaws, !PicoJson, !JwtCpp, !JwtCppTimes _, !OpenSsl, !Sha256, !UMapOrder, !DuckValues, !DuckParser, !DuckParserLaws}.
Context {W : Type} `{!Threads W} (context : ClientContext W) (state : Ref W QuackOauthState) `{!RefLaws state}.
Local Abbreviation I := (Inv state (good (λ _ _, True)) (λ _, True) (λ _ _, True) (λ _, True)).
Local Abbreviation sessions := (λ w, st_session_principals (ref_get state w)).
Context `{!Keeps (I false)}.

(** The outside returns and keeps the process in order. *)
Record outside_ok : Prop := {
  ou_get : ∀ uri, hoare (I false) (Get (cx_http context) uri) (λ _, I false);
  ou_sleep : ∀ ms, hoare (I false) (cx_sleep context ms) (λ _, I false);
  ou_env : env_ok context state (good (λ _ _, True)) (λ _, True) (λ _ _, True) (λ _, True);
}.

(** Nobody else logs in or is dropped meanwhile. *)
Record sessions_quiet : Prop := {
  sq_wait : unchanged sessions wait_mu;
  sq_get : ∀ uri, unchanged sessions (Get (cx_http context) uri);
  sq_sleep : ∀ ms, unchanged sessions (cx_sleep context ms);
  sq_log : ∀ level line, unchanged sessions (cx_log context level line);
  sq_execute : ∀ sql params, unchanged sessions (cx_Execute context sql params);
}.
Hypothesis Hok : outside_ok.
Hypothesis Hquiet : sessions_quiet.

Lemma sessions_mu b w : sessions (ref_set (ref_comp state mu_ref) b w) = sessions w.
Proof. simpl. rewrite ref_get_set. by destruct (ref_get state w). Qed.
Lemma sessions_jwks c w : sessions (ref_set (ref_comp state jwks_cache_ref) c w) = sessions w.
Proof. simpl. rewrite ref_get_set. by destruct (ref_get state w). Qed.
Lemma sessions_ring r w : sessions (ref_set (ref_comp state audit_ring_ref) r w) = sessions w.
Proof. simpl. rewrite ref_get_set. by destruct (ref_get state w). Qed.
Lemma sessions_throttle m w : sessions (ref_set (ref_comp state last_throttle_logged_ref) m w) = sessions w.
Proof. simpl. rewrite ref_get_set. by destruct (ref_get state w). Qed.

Lemma lock_keeps_sessions : unchanged sessions (lock_mu state).
Proof. apply lock_unchanged; [apply sessions_mu|apply Hquiet]. Qed.
Lemma unlock_keeps_sessions : unchanged sessions (unlock_mu state).
Proof. apply unlock_unchanged, sessions_mu. Qed.

Lemma request_keeps_sessions uri : unchanged sessions (Get (check_token_http context state) uri).
Proof.
  pose proof lock_keeps_sessions as Hlock. pose proof unlock_keeps_sessions as Hunlock.
  pose proof (sq_get Hquiet) as Hget. pose proof (sq_sleep Hquiet) as Hsleep.
  apply RunWithRetries_unchanged; [simpl; unfold unlocking; leaves_alone|].
  intros g [= <-] delay. leaves_alone.
Qed.

Lemma audit_keeps_sessions e : unchanged sessions (EmitAuditEvent context state e).
Proof.
  pose proof (sq_log Hquiet) as Hlog. pose proof (sq_execute Hquiet) as Hexec.
  unfold EmitAuditEvent, LookupAuditTable, TryOpenSecret, InsertAuditRow.
  apply un_bind; [|intros _; leaves_alone].
  apply guard_unchanged; [apply sessions_mu|apply Hquiet|]. apply un_call, sessions_ring.
Qed.

Lemma row_audit_keeps_sessions token row now_s uri events :
  unchanged sessions (EmitAuditsAndScrub context state token row now_s uri events).
Proof.
  pose proof lock_keeps_sessions as Hlock. pose proof unlock_keeps_sessions as Hunlock.
  pose proof audit_keeps_sessions as Haudit. unfold EmitAuditsAndScrub, EmitTokenAudit. leaves_alone.
Qed.

Lemma throttle_log_keeps_sessions events now_s : unchanged sessions (LogThrottledEvents context state events now_s).
Proof.
  pose proof (sq_log Hquiet) as Hlog. pose proof sessions_throttle.
  unfold LogThrottledEvents, LogThrottledEvent. leaves_alone.
Qed.

(** What is known of the stored sessions stays so while nobody touches them. *)
Section known_sessions.
Context (S : string → SessionPrincipal → Prop).
Local Abbreviation IS := (Inv state (good (λ _ _, True)) (λ _, True) S (λ _, True)).

Lemma Inv_sessions_known b w : IS b w ↔ I b w ∧ map_Forall S (sessions w).
Proof.
  split.
  - intros [[] Hrest]. split; [split; [constructor; try done; by intros ???|done]|done].
  - intros [[[HJ HD _ Hsz Hring] Hrest] HS]. by split; [split|].
Qed.

Lemma hoare_known {A} b (m : M W A) :
  hoare (I b) m (λ _, I b) → unchanged sessions m → hoare (IS b) m (λ _, IS b).
Proof.
  intros Hm Hsame w [Hw HS]%Inv_sessions_known. destruct (m w) as [r w'] eqn:Hr.
  destruct (hoare_run _ _ _ _ _ _ Hm Hw Hr) as (a & -> & Hw'). unfold wp. rewrite Hr. exists a. split; [done|].
  apply Inv_sessions_known. split; [done|]. pose proof (unchanged_run sessions _ _ _ _ Hsame Hr) as Heq.
  change (map_Forall S (sessions w')). refine (eq_ind_r (map_Forall S) HS Heq).
Qed.

Lemma known_env : env_ok context state (good (λ _ _, True)) (λ _, True) S (λ _, True).
Proof.
  pose proof (ou_env Hok) as [Hlog Hexec].
  split; intros; apply hoare_known; [apply Hlog|apply (sq_log Hquiet)|apply Hexec|apply (sq_execute Hquiet)].
Qed.
Lemma known_keeps : Keeps (IS false).
Proof. apply hoare_known; [apply threads_keep|apply (sq_wait Hquiet)]. Qed.
End known_sessions.

Section row.
Context (cfg : ServerConfig) (now_s : Z) (token : string) (parsed : JwtParsed).
Local Abbreviation vctx := (mkValidateContext (check_token_http context state) (ref_comp state jwks_cache_ref) (sc_jwks_uri cfg)).
Local Abbreviation opts := (options_of cfg now_s).

(** The row of a token in order: accepted, with its principal. *)
Lemma good_row w :
  I true w → ParseJwt token = Some parsed → jp_kid parsed ≠ "" → owed token parsed opts vctx Ok w →
  ∃ rv w', jwks_row vctx opts token w = (Ret rv, w') ∧ I true w' ∧ sessions w' = sessions w ∧
    rv_outcome rv = Ok ∧ rv_have_principal rv = true ∧ rv_principal rv = PrincipalFromJwt parsed.
Proof.
  intros Hw Hp Hkid Howed.
  destruct (owed_verdict vctx token parsed opts (Some RefreshEvent_default) Ok w Hp Hkid Howed) as (ev & w' & Hrun & _).
  assert (hoare (I true) (jwks_row vctx opts token) (λ _, I true)) as Hinv.
  { eapply hoare_post; [|apply (jwks_row_sound context state (λ _ _, True) (λ _, True) (λ _ _, True) (λ _, True))].
    - by intros rv v [_ ?].
    - intros uri. eapply hoare_post; [|apply (ou_get Hok)]. intros r v Hv. split; [|done].
      intros resp _ _. by apply Forall_true.
    - apply (ou_sleep Hok).
    - done. }
  assert (unchanged sessions (ValidateToken token opts vctx (Some RefreshEvent_default))) as Hsame.
  { apply ValidateToken_unchanged; [apply sessions_jwks|apply request_keeps_sessions]. }
  destruct (jwks_row vctx opts token w) as [r w1] eqn:Hrow.
  destruct (hoare_run _ _ _ _ _ _ Hinv Hw Hrow) as (rv & -> & Hw1). exists rv, w1.
  unfold jwks_row in Hrow. rewrite (M_bind_run _ _ _ _ _ Hrun) in Hrow.
  destruct (if negb (sempty (re_reason (default RefreshEvent_default ev))) then _ else _) as [[kid reason] renum].
  rewrite Hp in Hrow. injection Hrow as <- <-. split_and!; [done|done| |done|done|done].
  exact (unchanged_run _ _ _ _ _ Hsame Hrun).
Qed.

(** Storing into a store that is not full. *)
Lemma store_run sid p w :
  (size (sessions w) < 1000)%nat → I true w →
  ∃ w', ref_call (ref_comp state session_principals_ref) (λ m, StoreSessionPrincipal m sid p now_s) w = (Ret tt, w') ∧
    I true w' ∧ sessions w' = <[sid := mkSessionPrincipal p now_s]> (sessions w).
Proof.
  intros Hsz Hw. destruct (StoreSessionPrincipal_spec (sessions w) sid p now_s) as (m' & Hm & Hsz' & Hm'); [lia|].
  assert (size (<[sid := mkSessionPrincipal p now_s]> (sessions w)) ≤ 1000)%nat as Hins.
  { rewrite map_size_insert. simpl in *. destruct (_ !! sid); unfold id; lia. }
  destruct Hm' as [->|(k & v & _ & _ & Hfull & _)]; [|lia].
  eexists. split; [unfold ref_call; simpl in *; by rewrite Hm|]. split.
  - by apply (Inv_sessions state (good (λ _ _, True)) (λ _, True) (λ _ _, True) (λ _, True)).
  - simpl. rewrite ref_get_set. by destruct (ref_get state w).
Qed.
End row.

(** The row loop over the one row, under the mutex. *)
Lemma good_login cfg now_s uri raw parsed sid w :
  sc_mode cfg = "jwks" → I true w → sid ≠ "" → (size (sessions w) < 1000)%nat →
  ParseJwt (StripBearerPrefix raw) = Some parsed → jp_kid parsed ≠ "" →
  owed (StripBearerPrefix raw) parsed (options_of cfg now_s)
    (mkValidateContext (check_token_http context state) (ref_comp state jwks_cache_ref) (sc_jwks_uri cfg)) Ok w →
  ∃ w', RunValidationLoop context state [Some raw] (Some ([Some sid] : Column)) now_s uri
      (row_validator context state cfg (options_of cfg now_s)) w = (Ret [Some true], w') ∧ I true w' ∧
    sessions w' = <[sid := mkSessionPrincipal (PrincipalFromJwt parsed) now_s]> (sessions w).
Proof.
  intros Hmode Hw Hsid Hsz Hp Hkid Howed.
  destruct (good_row cfg now_s _ parsed w Hw Hp Hkid Howed) as (rv & w1 & Hrow & Hw1 & Hs1 & Hout & Hhave & Hprin).
  destruct (store_run now_s sid (PrincipalFromJwt parsed) w1) as (w2 & Hstore & Hw2 & Hs2); [by rewrite Hs1|done|].
  pose proof (ou_env Hok) as Henv.
  destruct (hoare_exists _ _ _ sessions w2 (EmitAuditsAndScrub_inv context state _ _ _ _ Henv (StripBearerPrefix raw) rv now_s uri [])
    (row_audit_keeps_sessions _ _ _ _ _) Hw2) as (ev & w3 & Haudit & Hw3 & Hs3).
  destruct (hoare_exists _ _ _ sessions w3 (LogThrottledEvents_inv context state _ _ _ _ Henv ev now_s)
    (throttle_log_keeps_sessions _ _) Hw3) as ([] & w4 & Hlog & Hw4 & Hs4).
  exists w4. split; [|split; [done|congruence]].
  unfold RunValidationLoop. cbn [zip_with M_fold].
  rewrite (M_bind_run _ _ w ([Some true], ev) w3); [by rewrite (M_bind_run _ _ _ _ _ Hlog)|].
  rewrite (M_bind_run _ _ w ([Some true], ev) w3); [done|].
  unfold session_row, row_validator. rewrite Hmode. cbn [fst snd]. cbv iota zeta.
  rewrite (M_bind_run _ _ _ _ _ Hrow), Hout, Hhave, (proj2 (sempty_false sid) Hsid), Hprin. cbn [negb andb bool_decide].
  rewrite (M_bind_run _ _ _ _ _ Hstore), (M_bind_run _ _ _ _ _ Haudit). done.
Qed.

(** Claim C4.  A user in good order gets in and gets answers.  check_token is called
    for a token that the issuer's keys vouch for (their verdict on it is [Ok], and the
    key is cached, can be fetched, or comes with a refresh) and a session, behind no
    plaintext listener, with a valid configuration in JWKS mode and room in the
    session store, while nothing else changes the sessions.  Then the call answers
    [true] and leaves the process in order with the mutex free; and whatever the
    configuration of the next check_authorization (its skew being one that the code
    reads), it answers [true] to every query of that session that is granted to the
    principal of the token: not past its expiry and the skew, policy loaded, query
    accounted for, policy permitting it. *)
Theorem good_user_served cfg now_s raw parsed sid w w1 w2 w3 w4 :
  EnforcePlaintextGuard context w = (Ret tt, w1) → LoadServerConfig context w1 = (Ret cfg, w2) →
  sc_mode cfg = "jwks" → cx_now_s context w2 = (Ret now_s, w3) → I false w3 → wait_mu w3 = (Ret tt, w4) →
  sid ≠ "" → (size (sessions w4) < 1000)%nat →
  ParseJwt (StripBearerPrefix raw) = Some parsed → jp_kid parsed ≠ "" →
  owed (StripBearerPrefix raw) parsed (options_of cfg now_s)
    (mkValidateContext (check_token_http context state) (ref_comp state jwks_cache_ref) (sc_jwks_uri cfg)) Ok
    (ref_set (ref_comp state mu_ref) true w4) →
  ∃ w', CheckTokenScalarFun3 context state [Some sid] [Some raw] w = (Ret [Some true], w') ∧ I false w' ∧
    ∀ acfg query, skew_ok acfg → grants acfg (Some (mkSessionPrincipal (PrincipalFromJwt parsed) now_s)) query →
      ∃ w'', authorize_query context state acfg sid query w' = (Ret true, w'') ∧ I false w''.
Proof.
  intros Hguard Hcfg Hmode Hnow Hw3 Hwait Hsid Hsz Hp Hkid Howed.
  destruct (hoare_run _ _ _ _ _ _ threads_keep Hw3 Hwait) as ([] & _ & Hw4).
  set (wl := ref_set (ref_comp state mu_ref) true w4) in *.
  assert (I true wl) as Hwl by by apply (Inv_mu state _ _ _ _ false).
  assert (sessions wl = sessions w4) as Hsl by apply sessions_mu.
  destruct (good_login cfg now_s (sc_jwks_uri cfg) raw parsed sid wl) as (w5 & Hloop & Hw5 & Hs5); [by rewrite ?Hsl..|].
  exists (ref_set (ref_comp state mu_ref) false w5). split_and!.
  - unfold CheckTokenScalarFun3, ValidateChunk. rewrite (M_bind_run _ _ _ _ _ Hguard), (M_bind_run _ _ _ _ _ Hcfg),
      (M_bind_run _ _ _ _ _ Hnow), (with_guard_run state _ w3 w4); [|apply Hw3|done].
    rewrite Hmode. fold wl. change (seqb "jwks" "introspect" || seqb "jwks" "tokeninfo" || seqb "jwks" "github_check") with false.
    cbv iota. by rewrite Hloop.
  - by apply (Inv_mu state _ _ _ _ true).
  - intros acfg query Hskew Hgrants. set (w6 := ref_set _ _ w5).
    set (entry := mkSessionPrincipal (PrincipalFromJwt parsed) now_s) in *.
    set (S := λ (s : string) sp, s = sid → sp = entry).
    assert (sessions w6 = <[sid := entry]> (sessions wl)) as Hs6 by (unfold w6; by rewrite sessions_mu).
    assert (Inv state (good (λ _ _, True)) (λ _, True) S (λ _, True) false w6) as Hw6.
    { apply Inv_sessions_known. split; [by apply (Inv_mu state _ _ _ _ true)|]. rewrite Hs6.
      intros s sp Hsp ->. rewrite lookup_insert_eq in Hsp. by injection Hsp. }
    pose proof (known_keeps S) as Hkeeps.
    destruct (authorize_query_exact context state (good (λ _ _, True)) (λ _, True) S (λ _, True) (known_env S)
      acfg sid query w6 Hskew) as (w7 & b & w' & Hwait' & Hrun & Hw' & Hb); [|done|].
    { intros sp Hsp. rewrite (Hsp eq_refl). pose proof (ParseJwt_exp _ _ Hp). unfold leaves_room. simpl. lia. }
    exists w'. split; [|by apply Inv_sessions_known in Hw' as [? _]]. rewrite Hrun. do 2 f_equal. apply Hb.
    assert (sessions w7 = sessions w6) as -> by exact (unchanged_run _ _ _ _ _ (sq_wait Hquiet) Hwait').
    by rewrite Hs6, lookup_insert_eq.
Qed.
End login.

(** ** Evaluation: alice logs in and reads *)
Section evaluations.
#[local] Existing Instance no_threads.
#[local] Existing Instance no_threads_keep.
#[local] Existing Instance flat_executor.
#[local] Existing Instance flat_executor_laws.
#[local] Existing Instance toy_json.
#[local] Existing Instance toy_jwt.
#[local] Existing Instance toy_jwt_times.
#[local] Existing Instance toy_ssl.
#[local] Existing Instance um_canonical.
#[local] Existing Instance toy_duck.
#[local] Existing Instance toy_parser.
#[local] Existing Instance toy_parser_laws.
#[local] Instance toy_sha_login : Sha256 := toy_sha true.

Definition login_context : ClientContext QuackOauthState := toy_context toy_settings None "jwks-n1".
Definition login_token : string := "RS256/a/n1/idp/app/2000/quack:read".

Definition login_config : ServerConfig := mkServerConfig "jwks" "idp" "app" 60 "https://idp" "" "" "".
Definition login_parsed : JwtParsed :=
  mkJwtParsed "RS256" "a" "" "alice" "idp" ["app"] 2000 0 0 "quack:read" [] [].
Definition login_vctx : ValidateContext QuackOauthState :=
  mkValidateContext (check_token_http login_context ref_id) (ref_comp ref_id jwks_cache_ref) "https://idp".

Lemma login_token_owed :
  owed login_token login_parsed (options_of login_config 1000) login_vctx Ok (ref_set (ref_comp ref_id mu_ref) true toy_state).
Proof.
  eapply owed_fetched.
  1, 2, 3, 4, 6: vm_compute; reflexivity.
  - change (jc_wf (RecordJwksFetch (JwksCache_new 30 1000) 1000)). apply wf_record_fetch. by apply jc_wf_new.
  - split; [reflexivity|vm_compute; discriminate|by_single_key].
Qed.

(** A read at time 1000 under the default policy. *)
Definition read_config : AuthzConfig := mkAuthzConfig None false 1000 60.
Lemma read_granted : grants read_config (Some (mkSessionPrincipal (PrincipalFromJwt login_parsed) 1000)) "read".
Proof.
  eexists _, _. split; [reflexivity|]. split; [intros _; vm_compute; discriminate|].
  do 2 (split; [vm_compute; reflexivity|]). split; vm_compute; reflexivity.
Qed.

Lemma good_user_served_witness :
  ∃ w', CheckTokenScalarFun3 login_context ref_id [Some "s1"] [Some login_token] toy_state = (Ret [Some true], w') ∧
    ∃ w'', authorize_query login_context ref_id read_config "s1" "read" w' = (Ret true, w'').
Proof.
  destruct (good_user_served login_context ref_id) with (cfg := login_config) (now_s := 1000) (raw := login_token)
    (parsed := login_parsed) (sid := "s1") (w := toy_state) (w1 := toy_state) (w2 := toy_state) (w3 := toy_state)
    (w4 := toy_state) as (w' & Hrun & _ & Hask).
  - split; [intros uri; by apply hoare_ret|intros ms; by apply hoare_ret|split; intros; by apply hoare_ret].
  - split; intros; intros w; reflexivity.
  - vm_compute. reflexivity.
  - vm_compute. reflexivity.
  - reflexivity.
  - reflexivity.
  - split; [|by split]. constructor; simpl; [by split; [apply jc_wf_new|]|done|apply map_Forall_empty| |unfold ring_ok; simpl; lia].
    rewrite map_size_empty. lia.
  - reflexivity.
  - done.
  - simpl. rewrite map_size_empty. lia.
  - vm_compute. reflexivity.
  - done.
  - exact login_token_owed.
  - exists w'. split; [exact Hrun|]. destruct (Hask read_config "read" ltac:(vm_compute; by split) read_granted) as (w'' & Hq & _).
    exists w''. exact Hq.
Defined.
End evaluations.
