(* ===== verification/Diagnose.v ===== *)
(** * Table functions ([src/diagnose.cpp], [src/inspect_sql_function.cpp])

    [quack_oauth_diagnose], [quack_oauth_audit_log],
    [quack_oauth_current_principal] and [quack_oauth_inspect_sql]: what their bind
    phase collects, and how a scan hands the rows out in chunks.  A chunk is the
    list of its rows; its cardinality is their number. *)
From S2P Require Import Prelude CppString StdList JwksCache Http DecisionCache AuditLog External.
From S2P Require Import UrlGuard Policy DuckDb PolicyTable State SqlAst SqlInspect Toy.

(** ** Scanning *)
Definition STANDARD_VECTOR_SIZE : nat := 2048.

Section scan.
Context {R V : Type} (emit : R → V).

(** [while (cursor < rows.size() && out_row < STANDARD_VECTOR_SIZE)]: [room] is what
    is left of the chunk. *)
Fixpoint scan_loop (room : nat) (rows : list R) (cursor : nat) (output : list V) : list V * nat :=
  match room with
  | O => (output, cursor)
  | S room =>
      match rows !! cursor with
      | None => (output, cursor)
      | Some row => scan_loop room rows (S cursor) (output ++ [emit row])
      end
  end.
Definition scan (rows : list R) (cursor : nat) : list V * nat := scan_loop STANDARD_VECTOR_SIZE rows cursor [].

(** The caller: DuckDB scans until a chunk is empty. *)
Fixpoint drain (fuel : nat) (rows : list R) (cursor : nat) : option (list (list V)) :=
  match fuel with
  | O => None
  | S fuel =>
      match scan rows cursor with
      | ([], _) => Some []
      | (chunk, cursor) => cons chunk <$> drain fuel rows cursor
      end
  end.

Lemma scan_loop_eq room rows cursor output :
  scan_loop room rows cursor output =
  (output ++ (emit <$> take room (drop cursor rows)), (cursor + (room `min` (length rows - cursor)))%nat).
Proof.
  revert cursor output. induction room as [|room IH]; intros cursor output; cbn [scan_loop].
  - rewrite take_0. simpl. by rewrite app_nil_r, Nat.add_0_r.
  - destruct (rows !! cursor) as [row|] eqn:Hrow.
    + rewrite IH, (drop_S rows row cursor) by done. cbn [take fmap list_fmap]. rewrite <-app_assoc.
      apply lookup_lt_Some in Hrow. apply (f_equal2 pair); [done|lia].
    + apply lookup_ge_None in Hrow. rewrite (drop_ge rows cursor) by done. rewrite take_nil. cbn [fmap list_fmap].
      rewrite app_nil_r. apply (f_equal2 pair); [done|lia].
Qed.

Lemma scan_eq rows cursor :
  scan rows cursor = (emit <$> take STANDARD_VECTOR_SIZE (drop cursor rows),
                      (cursor + (STANDARD_VECTOR_SIZE `min` (length rows - cursor)))%nat).
Proof. unfold scan. by rewrite scan_loop_eq. Qed.

(** Scanning from a cursor hands out the rest. *)
Lemma drain_from (rows : list R) fuel cursor :
  ((length rows - cursor + STANDARD_VECTOR_SIZE - 1) `div` STANDARD_VECTOR_SIZE < fuel)%nat →
  ∃ chunks, drain fuel rows cursor = Some chunks ∧ mjoin chunks = emit <$> drop cursor rows ∧
    Forall (λ c, c ≠ [] ∧ (length c ≤ STANDARD_VECTOR_SIZE)%nat) chunks.
Proof.
  assert (0 < STANDARD_VECTOR_SIZE)%nat as Hsize by (unfold STANDARD_VECTOR_SIZE; lia).
  revert cursor. induction fuel as [|fuel IH]; intros cursor Hf; [lia|]. cbn [drain]. rewrite scan_eq.
  destruct (decide (length rows ≤ cursor)%nat) as [Hge|Hlt].
  { rewrite (drop_ge rows cursor), take_nil by done. exists []. by repeat split. }
  destruct (emit <$> take STANDARD_VECTOR_SIZE (drop cursor rows)) as [|v chunk] eqn:Hchunk.
  { apply (f_equal length) in Hchunk. rewrite length_fmap, length_take, length_drop in Hchunk. cbn [length] in Hchunk. lia. }
  rewrite <-Hchunk.
  destruct (IH (cursor + STANDARD_VECTOR_SIZE `min` (length rows - cursor))%nat) as (chunks & -> & Hjoin & Hall).
  { destruct (decide (length rows - cursor ≤ STANDARD_VECTOR_SIZE)%nat) as [Hle|Hgt].
    - rewrite Nat.min_r by done. rewrite Nat.div_small by lia.
      assert (1 ≤ (length rows - cursor + STANDARD_VECTOR_SIZE - 1) `div` STANDARD_VECTOR_SIZE)%nat; [|lia].
      apply Nat.div_le_lower_bound; lia.
    - rewrite Nat.min_l by lia.
      replace (length rows - cursor + STANDARD_VECTOR_SIZE - 1)%nat
        with (1 * STANDARD_VECTOR_SIZE + (length rows - (cursor + STANDARD_VECTOR_SIZE) + STANDARD_VECTOR_SIZE - 1))%nat
        in Hf by lia.
      rewrite Nat.div_add_l in Hf by lia. lia. }
  eexists. split; [done|]. split.
  - change (mjoin (_ :: chunks)) with ((emit <$> take STANDARD_VECTOR_SIZE (drop cursor rows)) ++ mjoin chunks).
    rewrite Hjoin, <-fmap_app. f_equal. rewrite <-(take_drop STANDARD_VECTOR_SIZE (drop cursor rows)) at 2.
    f_equal. rewrite drop_drop.
    destruct (decide (length rows - cursor ≤ STANDARD_VECTOR_SIZE)%nat).
    + rewrite !drop_ge by lia. done.
    + by rewrite Nat.min_l by lia.
  - constructor; [|done]. split; [by rewrite Hchunk|]. rewrite length_fmap, length_take. lia.
Qed.

(** A scan hands out every row exactly once.  Whatever the number of
    rows, the caller that scans until an empty chunk terminates after one call
    per started chunk and one more; the chunks are not empty, no larger than a
    vector, and their concatenation is the rows in order. *)
Theorem scan_complete (rows : list R) fuel :
  ((length rows + STANDARD_VECTOR_SIZE - 1) `div` STANDARD_VECTOR_SIZE < fuel)%nat →
  ∃ chunks, drain fuel rows 0 = Some chunks ∧ mjoin chunks = emit <$> rows ∧
    Forall (λ c, c ≠ [] ∧ (length c ≤ STANDARD_VECTOR_SIZE)%nat) chunks.
Proof.
  intros Hf. destruct (drain_from rows fuel 0) as (chunks & ? & ? & ?); [by rewrite Nat.sub_0_r|].
  exists chunks. by rewrite drop_0 in *.
Qed.
End scan.

Lemma scan_complete_witness :
  ∃ chunks, drain (λ n : nat, n) 4 (seq 0 4100) 0 = Some chunks ∧ mjoin chunks = id <$> seq 0 4100.
Proof.
  destruct (scan_complete (λ n : nat, n) (seq 0 4100) 4) as (chunks & Hd & Hj & _).
  - rewrite length_seq. vm_compute. lia.
  - exists chunks. split; [exact Hd|exact Hj].
Defined.

(** ** [quack_oauth_diagnose] *)
Record DiagnoseRow : Type := mkDiagnoseRow { dr_component : string; dr_status : string; dr_detail : string }.

Definition Append (os k v : string) : string := (if negb (sempty os) then os +:+ " " else os) +:+ k +:+ "=" +:+ v.
(** A sequence of calls on one stream. *)
Definition details (l : list (string * string)) : string := foldl (λ os '(k, v), Append os k v) "" l.
Definition or_else (v fallback : string) : string := if sempty v then fallback else v.

Record ProbeCache : Type := mkProbeCache { pc_uri : string; pc_probed_at_s : Z; pc_result : IdpProbeResult }.
Definition ProbeCache_default : ProbeCache := mkProbeCache "" 0 (mkIdpProbeResult Unconfigured 0 "").

(** Events of the ring by outcome. *)
Record EventCounts : Type := mkEventCounts {
  n_accepts : nat; n_rejects : nat; n_allows : nat; n_denies : nat;
  n_refreshes : nat; n_refresh_noops : nat; n_refresh_failures : nat;
}.
Definition count_event (n : EventCounts) (e : AuditEvent) : EventCounts :=
  let '(mkEventCounts ac rj al dn rf no fl) := n in
  match ae_event_type e with
  | TokenAccepted => mkEventCounts (S ac) rj al dn rf no fl
  | TokenRejected => mkEventCounts ac (S rj) al dn rf no fl
  | AuthzAllow => mkEventCounts ac rj (S al) dn rf no fl
  | AuthzDeny => mkEventCounts ac rj al (S dn) rf no fl
  | JwksRefresh =>
      let r := ae_reason e in
      if seqb r "refresh_rotated" || seqb r "refresh_revoked" || seqb r "refresh_kid_absent"
         || seqb r "refresh_kid_evicted" then mkEventCounts ac rj al dn (S rf) no fl
      else if seqb r "refresh_no_rotation" || seqb r "refresh_superseded" then mkEventCounts ac rj al dn rf (S no) fl
      else if negb (seqb r "refresh_throttled") && negb (seqb r "refresh_budget_throttled") then
        mkEventCounts ac rj al dn rf no (S fl)
      else n
  end.
Definition count_events (snap : list AuditEvent) : EventCounts := foldl count_event (mkEventCounts 0 0 0 0 0 0 0) snap.
Definition show_nat (n : nat) : string := show_Z (Z.of_nat n).

(** [std::sort] by component; the components are distinct, so the order is determined. *)
Definition component_le (a b : DiagnoseRow) : Prop := String.leb (dr_component a) (dr_component b) = true.
#[export] Instance component_le_dec a b : Decision (component_le a b).
Proof. unfold component_le. apply _. Defined.
Definition sort_rows (rows : list DiagnoseRow) : list DiagnoseRow := merge_sort component_le rows.

Section diagnose.
Context `{!DuckValues} {W : Type} `{!Threads W} (context : ClientContext W) (state : Ref W QuackOauthState)
  (g_probe_cache : Ref W ProbeCache) (min_refresh_floor : Z).

Definition ReadSetting (key : string) : M W string :=
  v ← gets (cx_setting context key);
  mret (match v with Some v => if dv_IsNull v then "" else dv_ToString v | None => "" end).

Definition extension_row : M W DiagnoseRow :=
  enabled ← ReadSetting "quack_oauth_enabled";
  secret_name ← ReadSetting "quack_oauth_server_secret_name";
  mode ← ReadSetting "quack_oauth_validation_mode";
  provider ← ReadSetting "quack_oauth_provider";
  mret (mkDiagnoseRow "extension" (if sempty secret_name then "unconfigured" else "configured")
    (details [("enabled", or_else enabled "false"); ("secret_name", or_else secret_name "(unset)");
              ("validation_mode", mode); ("provider", provider)])).

Definition jwks_cache_row (c : JwksCache) : DiagnoseRow :=
  let entries := JwksCache.Size c in
  let unknown_kids := MissSize c in
  mkDiagnoseRow "jwks_cache" (if 0 <? entries then "warm" else if 0 <? unknown_kids then "misses_only" else "empty")
    (details [("entries", show_Z entries); ("unknown_kids", show_Z unknown_kids);
              ("min_refresh_s", show_Z (min_refresh_s_ c)); ("min_refresh_floor", show_Z min_refresh_floor);
              ("throttled", show_Z (throttled_refreshes_ c));
              ("budget_throttled", show_Z (throttled_budget_refreshes_ c));
              ("kid_throttled", show_Z (throttled_per_kid_refreshes_ c));
              ("last_refresh_reason", or_else (last_refresh_reason_ c) "(none)");
              ("last_throttled_at", show_Z (last_throttled_at_s_ c))]).

Definition decision_cache_row (c : DecisionCache) : DiagnoseRow :=
  let entries := DecisionCache.Size c in
  mkDiagnoseRow "decision_cache" (if entries =? 0 then "empty" else "warm") (details [("entries", show_Z entries)]).

Definition session_principals_row (m : gmap string SessionPrincipal) : DiagnoseRow :=
  mkDiagnoseRow "session_principals" (if (size m =? 0)%nat then "empty" else "active")
    (details [("sessions", show_nat (size m))]).

Definition recent_decisions_row (snap : list AuditEvent) (ring_cap : nat) : DiagnoseRow :=
  let n := count_events snap in
  mkDiagnoseRow "recent_decisions" (match snap with [] => "empty" | _ => "active" end)
    (details [("count", show_nat (length snap) +:+ "/" +:+ show_nat ring_cap);
              ("accepted", show_nat (n_accepts n)); ("rejected", show_nat (n_rejects n));
              ("allowed", show_nat (n_allows n)); ("denied", show_nat (n_denies n));
              ("refreshed", show_nat (n_refreshes n)); ("refresh_noop", show_nat (n_refresh_noops n));
              ("refresh_failed", show_nat (n_refresh_failures n))]).

(** The uri that is probed: the JWKS, or the introspection endpoint without one. *)
Definition read_probe_uri : M W string :=
  secret_name ← ReadSetting "quack_oauth_server_secret_name";
  accessor ← TryOpenSecret context secret_name (Some "quack_oauth_server");
  mret (or_else (SecretGet accessor "jwks_uri") (SecretGet accessor "introspection_endpoint")).

(** The probe, at most one in two seconds.  The cache has a mutex of its own, held
    only for the two accesses. *)
Definition probe_fresh (c : ProbeCache) (probe_uri : string) (now_s : Z) : bool :=
  seqb (pc_uri c) probe_uri && (0 <? pc_probed_at_s c) && (pc_probed_at_s c <=? now_s)
  && (now_s - pc_probed_at_s c <? 2).
Definition probe_idp (probe_uri : string) : M W IdpProbeResult :=
  now_s ← cx_now_s context;
  if sempty probe_uri then mret (mkIdpProbeResult Unconfigured 0 "")
  else
    c ← gets (ref_get g_probe_cache);
    if probe_fresh c probe_uri now_s then mret (pc_result c)
    else
      probe ← ProbeIdpReachability (RetryingHttpClient (cx_http context) 0 1000 (Some (cx_sleep context))) probe_uri;
      _ ← ref_upd g_probe_cache (λ _, mkProbeCache probe_uri now_s probe);
      mret probe.

Definition idp_reachability_row (probe : IdpProbeResult) : DiagnoseRow :=
  let detail := Append "" "uri" (or_else (ip_probed_uri probe) "(none)") in
  mkDiagnoseRow "idp_reachability" (StatusName (ip_status probe))
    (match ip_status probe with
     | Unconfigured => detail
     | _ => Append detail "http_status" (show_Z (ip_http_status probe))
     end).

Definition DiagnoseBind : M W (list DiagnoseRow) :=
  _ ← lock_mu state;
  extension ← extension_row;
  jwks ← ref_read (ref_comp state jwks_cache_ref) jwks_cache_row;
  decisions ← ref_read (ref_comp state decision_cache_ref) decision_cache_row;
  sessions ← ref_read (ref_comp state session_principals_ref) session_principals_row;
  ring ← gets (ref_get (ref_comp state audit_ring_ref));
  snap ← lift (Snapshot ring);
  _ ← unlock_mu state;
  probe_uri ← read_probe_uri;
  probe ← probe_idp probe_uri;
  mret (sort_rows [extension; jwks; decisions; sessions; idp_reachability_row probe;
                   recent_decisions_row snap (length (ring_ ring))]).

Definition DiagnoseValues (row : DiagnoseRow) : list DValue :=
  [dv_of_string (dr_component row); dv_of_string (dr_status row); dv_of_string (dr_detail row)].
Definition DiagnoseScan : list DiagnoseRow → nat → list (list DValue) * nat := scan DiagnoseValues.

(** ** [quack_oauth_audit_log] *)
Definition AuditLogBind : M W (list AuditEvent) :=
  with_guard state (ring ← gets (ref_get (ref_comp state audit_ring_ref)); lift (Snapshot ring)).
Definition AuditLogValues (e : AuditEvent) : list DValue :=
  [dv_of_int64 (ae_timestamp_unix_s e); dv_of_string (AuditEventTypeName (ae_event_type e));
   nullable (ae_subject e); nullable (ae_issuer e); nullable (ae_kid e); nullable (ae_token_hash e);
   nullable (ae_action e); nullable (ae_reason e)].
Definition AuditLogScan : list AuditEvent → nat → list (list DValue) * nat := scan AuditLogValues.

(** ** [quack_oauth_current_principal] *)
Record PrincipalRow : Type := mkPrincipalRow {
  pw_session_id : string; pw_subject : string; pw_issuer : string; pw_scopes : list string; pw_exp : Z;
}.
Definition principal_row (kv : string * SessionPrincipal) : PrincipalRow :=
  let p := sp_principal kv.2 in mkPrincipalRow kv.1 (pr_subject p) (pr_issuer p) (pr_scopes p) (pr_exp p).
Definition CurrentPrincipalBind `{!UMapOrder} : M W (list PrincipalRow) :=
  with_guard state (ref_read (ref_comp state session_principals_ref) (λ m, principal_row <$> um_iter m)).
Definition PrincipalValues (row : PrincipalRow) : list DValue :=
  [dv_of_string (pw_session_id row); nullable (pw_subject row); nullable (pw_issuer row);
   dv_of_list (dv_of_string <$> pw_scopes row); dv_of_int64 (pw_exp row)].
Definition CurrentPrincipalScan : list PrincipalRow → nat → list (list DValue) * nat := scan PrincipalValues.

(** ** [quack_oauth_inspect_sql] *)
Definition InspectSqlBind `{!DuckParser} (inputs : list DValue) : exc AuthzRequest :=
  match inputs with
  | v :: _ =>
      if dv_IsNull v then Throw (BinderException "quack_oauth_inspect_sql: SQL argument must not be NULL")
      else sql ← dv_string v; InspectSql sql
  | [] => Throw (BinderException "quack_oauth_inspect_sql: SQL argument must not be NULL")
  end.
Definition StringList (items : list string) : DValue := dv_of_list (dv_of_string <$> items).
Definition InspectSqlScan (req : AuthzRequest) (done : bool) : list (list DValue) * bool :=
  if done then ([], done)
  else ([[dv_of_string (ActionName (rq_action req)); StringList (rq_objects req); StringList (rq_columns req);
          dv_of_bool (rq_unsafe req); nullable (rq_error req)]], true).
End diagnose.

(** ** Lemmas *)
Lemma Snapshot_total r : ring_ok r → ∃ l, Snapshot r = Ret l.
Proof.
  intros Hr. unfold ring_ok in Hr. unfold Snapshot.
  destruct (exc_fold_total (λ _, True) (λ _ : nat, True)
    (λ out i, e ← defined (ring_ r !! (((head_ r + length (ring_ r) - count_ r) `mod` length (ring_ r) + i) `mod` length (ring_ r))%nat);
              Ret (out ++ [e])) (seq 0 (count_ r)) []) as (l & -> & _); [|apply Forall_true; done|done|by exists l].
  intros out i _ _.
  destruct (lookup_lt_is_Some_2 (ring_ r)
    ((((head_ r + length (ring_ r) - count_ r) `mod` length (ring_ r)) + i) `mod` length (ring_ r))%nat) as [e ->].
  - apply Nat.mod_upper_bound. lia.
  - simpl. eauto.
Qed.

(** *** What the rows should say

    The detail of a row: [k=v] for each field, separated by spaces. *)
Definition kv (field : string * string) : string := field.1 +:+ "=" +:+ field.2.
Definition line (fields : list (string * string)) : string := String.concat " " (kv <$> fields).

Lemma Append_line os k v : os ≠ "" → Append os k v = os +:+ " " +:+ kv (k, v).
Proof. intros Hne. unfold Append, kv. rewrite (proj2 (sempty_false os) Hne). simpl. by rewrite !sapp_assoc. Qed.

Lemma details_line l : details l = line l.
Proof.
  assert (∀ l os, os ≠ "" → foldl (λ os '(k, v), Append os k v) os l = String.concat " " (os :: (kv <$> l))) as Hgen.
  { clear l. induction l as [|[k v] l IH]; intros os Hne; [done|]. cbn [foldl]. rewrite Append_line by done.
    rewrite IH by (by destruct os). cbn [fmap list_fmap]. destruct l as [|f l]; [done|].
    cbn [fmap list_fmap String.concat]. by rewrite !sapp_assoc. }
  unfold details, line. destruct l as [|[k v] l]; [done|]. cbn [foldl]. rewrite Hgen; [done|].
  unfold Append. simpl. destruct k; done.
Qed.

(** Events of a type, and refreshes with one of these reasons. *)
Definition of_type (t : AuditEventType) (e : AuditEvent) : Prop := ae_event_type e = t.
Definition refresh_with (reasons : list string) (e : AuditEvent) : Prop :=
  ae_event_type e = JwksRefresh ∧ ae_reason e ∈ reasons.
Definition refresh_without (reasons : list string) (e : AuditEvent) : Prop :=
  ae_event_type e = JwksRefresh ∧ ae_reason e ∉ reasons.
#[export] Instance of_type_dec t e : Decision (of_type t e).
Proof. unfold of_type. apply _. Defined.
#[export] Instance refresh_with_dec l e : Decision (refresh_with l e).
Proof. unfold refresh_with. apply _. Defined.
#[export] Instance refresh_without_dec l e : Decision (refresh_without l e).
Proof. unfold refresh_without. apply _. Defined.
Definition tally (P : AuditEvent → Prop) `{!∀ e, Decision (P e)} (snap : list AuditEvent) : nat := length (filter P snap).

Definition refreshed : list string := ["refresh_rotated"; "refresh_revoked"; "refresh_kid_absent"; "refresh_kid_evicted"].
Definition unneeded : list string := ["refresh_no_rotation"; "refresh_superseded"].
Definition throttled : list string := ["refresh_throttled"; "refresh_budget_throttled"].

Lemma tally_cons P `{!∀ e, Decision (P e)} e snap :
  tally P (e :: snap) = ((if decide (P e) then 1 else 0) + tally P snap)%nat.
Proof. unfold tally. rewrite filter_cons. by case_decide. Qed.

(** The seven counts of the reasons' lists. *)
Definition counts (snap : list AuditEvent) : EventCounts :=
  mkEventCounts (tally (of_type TokenAccepted) snap) (tally (of_type TokenRejected) snap)
    (tally (of_type AuthzAllow) snap) (tally (of_type AuthzDeny) snap)
    (tally (refresh_with refreshed) snap) (tally (refresh_with unneeded) snap)
    (tally (refresh_without (refreshed ++ unneeded ++ throttled)) snap).

Definition add_counts (n m : EventCounts) : EventCounts :=
  mkEventCounts (n_accepts n + n_accepts m) (n_rejects n + n_rejects m) (n_allows n + n_allows m) (n_denies n + n_denies m)
    (n_refreshes n + n_refreshes m) (n_refresh_noops n + n_refresh_noops m) (n_refresh_failures n + n_refresh_failures m).

Lemma count_event_add n e : count_event n e = add_counts n (counts [e]).
Proof.
  assert (∀ x l, seqb x l = bool_decide (x = l)) as Hb.
  { intros x l. destruct (seqb x l) eqn:E; symmetry; [by apply bool_decide_eq_true, seqb_true|].
    apply bool_decide_eq_false. intros ->. by rewrite seqb_refl in E. }
  destruct n as [ac rj al dn rf no fl], e as [ts ty su iss ki ha act re]. unfold count_event, counts, add_counts. simpl.
  rewrite !tally_cons. unfold of_type, refresh_with, refresh_without, tally. simpl.
  destruct ty; simpl; f_equal; try lia; rewrite !Hb; repeat case_bool_decide; subst; cbn [andb orb negb];
    cbv iota; f_equal; try lia; repeat case_decide; try lia; exfalso; set_solver.
Qed.

Lemma counts_cons e snap : counts (e :: snap) = add_counts (counts [e]) (counts snap).
Proof. unfold counts, add_counts. simpl. rewrite !tally_cons. f_equal; unfold tally; simpl; lia. Qed.

(** Every event is counted under its own outcome. *)
Lemma count_events_spec snap : count_events snap = counts snap.
Proof.
  unfold count_events.
  assert (∀ n, foldl count_event n snap = add_counts n (counts snap)) as Hgen.
  { induction snap as [|e snap IH]; intros n; cbn [foldl].
    - destruct n. unfold add_counts, counts, tally. simpl. f_equal; lia.
    - rewrite IH, count_event_add, (counts_cons e snap). unfold add_counts. simpl. f_equal; lia. }
  rewrite Hgen. unfold add_counts. by destruct (counts snap).
Qed.

Definition component_names : list string :=
  ["decision_cache"; "extension"; "idp_reachability"; "jwks_cache"; "recent_decisions"; "session_principals"].

Section correct.
Context `{!DuckValues, !Sha256} {W : Type} `{!Threads W} (context : ClientContext W) (state : Ref W QuackOauthState)
  (g_probe_cache : Ref W ProbeCache) (floor : Z).
Context `{!RefLaws state, !RefLaws g_probe_cache}.

Lemma ReadSetting_run key w : ∃ v, ReadSetting context key w = (Ret v, w).
Proof. by eexists. Qed.

Lemma read_probe_uri_run w : ∃ u, read_probe_uri context w = (Ret u, w).
Proof.
  unfold read_probe_uri, TryOpenSecret. rewrite M_bind_eq.
  destruct (ReadSetting_run "quack_oauth_server_secret_name" w) as [v ->]. rewrite M_bind_eq.
  destruct (sempty v); by eexists.
Qed.

(** What a setting says, and a text or what stands for none. *)
Definition setting_text (w : W) (key : string) : string :=
  match cx_setting context key w with Some v => if dv_IsNull v then "" else dv_ToString v | None => "" end.
Definition text_or (v fallback : string) : string := match v with "" => fallback | _ => v end.

Definition says (rows : list DiagnoseRow) (component status : string) (fields : list (string * string)) : Prop :=
  mkDiagnoseRow component status (line fields) ∈ rows.

(** What is known of an endpoint from world [w] on: nothing without a uri; the result
    of a probe of the last two seconds; or what a request shows now. *)
Inductive probed (uri : string) (w : W) : IdpProbeResult → Prop :=
  | probed_nothing : uri = "" → probed uri w (mkIdpProbeResult Unconfigured 0 "")
  | probed_lately now w' :
      uri ≠ "" → cx_now_s context w = (Ret now, w') → pc_uri (ref_get g_probe_cache w') = uri →
      0 < pc_probed_at_s (ref_get g_probe_cache w') ≤ now → now < pc_probed_at_s (ref_get g_probe_cache w') + 2 →
      probed uri w (pc_result (ref_get g_probe_cache w'))
  | probed_reachable now w' w'' code text :
      uri ≠ "" → cx_now_s context w = (Ret now, w') → Get (cx_http context) uri w' = (Ret (Some (mkResponse code text)), w'') →
      200 ≤ code < 300 → probed uri w (mkIdpProbeResult Reachable code uri)
  | probed_refused now w' w'' code text :
      uri ≠ "" → cx_now_s context w = (Ret now, w') → Get (cx_http context) uri w' = (Ret (Some (mkResponse code text)), w'') →
      ¬ 200 ≤ code < 300 → probed uri w (mkIdpProbeResult Unreachable code uri)
  | probed_silent now w' w'' :
      uri ≠ "" → cx_now_s context w = (Ret now, w') → Get (cx_http context) uri w' = (Ret None, w'') →
      probed uri w (mkIdpProbeResult Unreachable 0 uri).

Definition says_idp (rows : list DiagnoseRow) (p : IdpProbeResult) : Prop :=
  let uri := ("uri", text_or (ip_probed_uri p) "(none)") in
  let code := ("http_status", show_Z (ip_http_status p)) in
  match ip_status p with
  | Unconfigured => says rows "idp_reachability" "unconfigured" [uri]
  | Reachable => says rows "idp_reachability" "reachable" [uri; code]
  | Unreachable => says rows "idp_reachability" "unreachable" [uri; code]
  end.

(** A truthful diagnosis: the settings as in world [w1], the caches, sessions and
    events of state [s], and the endpoint from world [w2] on. *)
Record diagnosis (w1 w2 : W) (s : QuackOauthState) (snap : list AuditEvent) (rows : list DiagnoseRow) : Prop := mk_diagnosis {
  dg_names : dr_component <$> rows = component_names;
  dg_extension :
    says rows "extension" (match setting_text w1 "quack_oauth_server_secret_name" with "" => "unconfigured" | _ => "configured" end)
      [("enabled", text_or (setting_text w1 "quack_oauth_enabled") "false");
       ("secret_name", text_or (setting_text w1 "quack_oauth_server_secret_name") "(unset)");
       ("validation_mode", setting_text w1 "quack_oauth_validation_mode"); ("provider", setting_text w1 "quack_oauth_provider")];
  dg_jwks_cache :
    let c := st_jwks_cache s in
    says rows "jwks_cache"
      (if decide (hits_ c = ∅) then if decide (misses_ c = ∅) then "empty" else "misses_only" else "warm")
      [("entries", show_nat (size (hits_ c))); ("unknown_kids", show_nat (size (misses_ c)));
       ("min_refresh_s", show_Z (min_refresh_s_ c)); ("min_refresh_floor", show_Z floor);
       ("throttled", show_Z (throttled_refreshes_ c)); ("budget_throttled", show_Z (throttled_budget_refreshes_ c));
       ("kid_throttled", show_Z (throttled_per_kid_refreshes_ c));
       ("last_refresh_reason", text_or (last_refresh_reason_ c) "(none)");
       ("last_throttled_at", show_Z (last_throttled_at_s_ c))];
  dg_decision_cache :
    let entries := sl_nodes (dc_entries_ (st_decision_cache s)) in
    says rows "decision_cache" (match entries with [] => "empty" | _ => "warm" end) [("entries", show_nat (length entries))];
  dg_sessions :
    let m := st_session_principals s in
    says rows "session_principals" (if decide (m = ∅) then "empty" else "active") [("sessions", show_nat (size m))];
  dg_snapshot : Snapshot (st_audit_ring s) = Ret snap;
  dg_events :
    says rows "recent_decisions" (match snap with [] => "empty" | _ => "active" end)
      [("count", show_nat (length snap) +:+ "/" +:+ show_nat (length (ring_ (st_audit_ring s))));
       ("accepted", show_nat (tally (of_type TokenAccepted) snap)); ("rejected", show_nat (tally (of_type TokenRejected) snap));
       ("allowed", show_nat (tally (of_type AuthzAllow) snap)); ("denied", show_nat (tally (of_type AuthzDeny) snap));
       ("refreshed", show_nat (tally (refresh_with refreshed) snap));
       ("refresh_noop", show_nat (tally (refresh_with unneeded) snap));
       ("refresh_failed", show_nat (tally (refresh_without (refreshed ++ unneeded ++ throttled)) snap))];
  dg_idp : ∃ accessor p,
    TryOpenSecret context (setting_text w2 "quack_oauth_server_secret_name") (Some "quack_oauth_server") w2 = (Ret accessor, w2) ∧
    probed (text_or (SecretGet accessor "jwks_uri") (SecretGet accessor "introspection_endpoint")) w2 p ∧ says_idp rows p;
}.

Lemma or_else_text v fallback : or_else v fallback = text_or v fallback.
Proof. by destruct v. Qed.

Lemma says_row (rows : list DiagnoseRow) component status fields :
  mkDiagnoseRow component status (details fields) ∈ rows → says rows component status fields.
Proof. unfold says. by rewrite details_line. Qed.

Lemma extension_row_run w :
  extension_row context w = (Ret (mkDiagnoseRow "extension"
    (match setting_text w "quack_oauth_server_secret_name" with "" => "unconfigured" | _ => "configured" end)
    (details [("enabled", text_or (setting_text w "quack_oauth_enabled") "false");
       ("secret_name", text_or (setting_text w "quack_oauth_server_secret_name") "(unset)");
       ("validation_mode", setting_text w "quack_oauth_validation_mode"); ("provider", setting_text w "quack_oauth_provider")])), w).
Proof.
  assert (∀ key, ReadSetting context key w = (Ret (setting_text w key), w)) as Hread by done.
  unfold extension_row. do 4 (rewrite M_bind_eq, Hread). rewrite !or_else_text.
  by destruct (setting_text w "quack_oauth_server_secret_name").
Qed.

Lemma read_probe_uri_spec w u w' :
  read_probe_uri context w = (Ret u, w') →
  ∃ accessor, w' = w ∧
    TryOpenSecret context (setting_text w "quack_oauth_server_secret_name") (Some "quack_oauth_server") w = (Ret accessor, w) ∧
    u = text_or (SecretGet accessor "jwks_uri") (SecretGet accessor "introspection_endpoint").
Proof.
  unfold read_probe_uri. intros (name & w1 & [= <- <-] & Hrun)%M_bind_Ret.
  apply M_bind_Ret in Hrun as (accessor & w1 & Hopen & [= <- <-]).
  assert (w1 = w) as ->.
  { revert Hopen. apply (unchanged_run (λ w, w)). unfold TryOpenSecret. leaves_alone. }
  exists accessor. split; [done|]. split; [done|]. apply or_else_text.
Qed.

Lemma probe_idp_probed uri w p w' : probe_idp context g_probe_cache uri w = (Ret p, w') → probed uri w p.
Proof.
  unfold probe_idp. intros (now & w1 & Hnow & Hrun)%M_bind_Ret. destruct (sempty uri) eqn:Hu.
  { injection Hrun as <- _. apply probed_nothing. by apply sempty_true. }
  apply sempty_false in Hu as Hne. rewrite M_bind_eq in Hrun. cbn [gets] in Hrun. unfold gets in Hrun.
  destruct (probe_fresh (ref_get g_probe_cache w1) uri now) eqn:Hfresh.
  { injection Hrun as <- _. unfold probe_fresh in Hfresh. rewrite !andb_true_iff, seqb_true in Hfresh.
    apply probed_lately with now; [done|done|apply Hfresh|lia|lia]. }
  apply M_bind_Ret in Hrun as (q & w2 & Hprobe & Hrun). apply M_bind_Ret in Hrun as ([] & w3 & _ & [= <- _]).
  unfold ProbeIdpReachability in Hprobe. rewrite Hu in Hprobe. cbn [Get RetryingHttpClient] in Hprobe.
  apply M_bind_Ret in Hprobe as (r & w4 & Hget & Hprobe). unfold RunWithRetries in Hget.
  apply M_bind_Ret in Hget as (r' & w5 & Hget & [= <- <-]). destruct r' as [[code text]|].
  - injection Hprobe as <- <-. cbn [status_code].
    destruct (Z.leb_spec 200 code), (Z.ltb_spec code 300); cbn [andb];
      first [by eapply probed_reachable|eapply probed_refused; [done..|lia]].
  - injection Hprobe as <- <-. by eapply probed_silent.
Qed.

Lemma idp_row_says rows p : idp_reachability_row p ∈ rows → says_idp rows p.
Proof.
  unfold idp_reachability_row, says_idp. rewrite or_else_text. destruct p as [[] code uri]; cbn; intros Hin; apply says_row; exact Hin.
Qed.

Lemma map_size_decide {A} (m : gmap string A) : (size m =? 0)%nat = bool_decide (m = ∅).
Proof.
  symmetry. case_bool_decide as Hm; [by rewrite Hm, map_size_empty|]. symmetry. apply Nat.eqb_neq.
  by intros ?%map_size_empty_inv.
Qed.

Lemma jwks_row_says rows c : jwks_cache_row floor c ∈ rows →
  says rows "jwks_cache"
    (if decide (hits_ c = ∅) then if decide (misses_ c = ∅) then "empty" else "misses_only" else "warm")
    [("entries", show_nat (size (hits_ c))); ("unknown_kids", show_nat (size (misses_ c)));
     ("min_refresh_s", show_Z (min_refresh_s_ c)); ("min_refresh_floor", show_Z floor);
     ("throttled", show_Z (throttled_refreshes_ c)); ("budget_throttled", show_Z (throttled_budget_refreshes_ c));
     ("kid_throttled", show_Z (throttled_per_kid_refreshes_ c));
     ("last_refresh_reason", text_or (last_refresh_reason_ c) "(none)");
     ("last_throttled_at", show_Z (last_throttled_at_s_ c))].
Proof.
  unfold jwks_cache_row, JwksCache.Size, MissSize. rewrite or_else_text. intros Hin. apply says_row.
  assert (∀ A (m : gmap string A), (0 <? Z.of_nat (size m)) = negb (bool_decide (m = ∅))) as Hpos.
  { intros A m. rewrite <-map_size_decide. destruct (Nat.eqb_spec (size m) 0), (Z.ltb_spec 0 (Z.of_nat (size m))); simpl; lia || done. }
  rewrite !Hpos in Hin. by do 2 (case_decide; case_bool_decide; try done).
Qed.

(** Probing is rate limited.  After a diagnosis at time [now] that
    looked at a uri, the probe cache holds that uri, the result that was shown and
    a probe time in the last two seconds; and a later diagnosis of the same uri
    within two seconds of that time shows the same result and makes no request:
    it does nothing but read the clock. *)
Theorem probe_rate_limited uri w p w1 now w0 :
  uri ≠ "" → 0 < now → cx_now_s context w = (Ret now, w0) →
  probe_idp context g_probe_cache uri w = (Ret p, w1) →
  let c := ref_get g_probe_cache w1 in
  pc_uri c = uri ∧ pc_result c = p ∧ 0 < pc_probed_at_s c ∧ pc_probed_at_s c ≤ now < pc_probed_at_s c + 2 ∧
  ∀ w2 now2 w3, cx_now_s context w2 = (Ret now2, w3) → ref_get g_probe_cache w3 = c →
    pc_probed_at_s c ≤ now2 < pc_probed_at_s c + 2 →
    probe_idp context g_probe_cache uri w2 = (Ret p, w3).
Proof.
  intros Hu Hnow Hclock Hrun. set (c := ref_get g_probe_cache w1). cbv zeta.
  assert (pc_uri c = uri ∧ pc_result c = p ∧ 0 < pc_probed_at_s c ∧ pc_probed_at_s c ≤ now < pc_probed_at_s c + 2)
    as (H1 & H2 & H3 & H4).
  { revert Hrun. unfold probe_idp. rewrite M_bind_eq, Hclock, (proj2 (sempty_false _) Hu), M_bind_eq. cbn [gets].
    unfold gets. destruct (probe_fresh (ref_get g_probe_cache w0) uri now) eqn:Hf.
    - intros [= <- <-]. unfold probe_fresh in Hf. fold c in Hf. rewrite !andb_true_iff, seqb_true in Hf.
      split_and!; [apply Hf|done|lia|lia|lia].
    - intros (q & w4 & _ & ([] & w5 & [= <-] & [= <- <-])%M_bind_Ret)%M_bind_Ret.
      subst c. rewrite ref_get_set. cbn. split_and!; [done|done|lia|lia|lia]. }
  split_and!; [done..|lia|lia|]. intros w2 now2 w3 Hclock2 Hc Hnow2. unfold probe_idp.
  rewrite M_bind_eq, Hclock2, (proj2 (sempty_false _) Hu), M_bind_eq. unfold gets. rewrite Hc.
  assert (probe_fresh c uri now2 = true) as ->; [|by rewrite H2].
  unfold probe_fresh. rewrite H1, seqb_refl. lia.
Qed.

Lemma decision_row_says rows c : decision_cache_row c ∈ rows →
  let entries := sl_nodes (dc_entries_ c) in
  says rows "decision_cache" (match entries with [] => "empty" | _ => "warm" end) [("entries", show_nat (length entries))].
Proof.
  unfold decision_cache_row, DecisionCache.Size, sl_size. intros Hin. apply says_row.
  by destruct (sl_nodes (dc_entries_ c)).
Qed.

Lemma session_row_says rows (m : gmap string SessionPrincipal) : session_principals_row m ∈ rows →
  says rows "session_principals" (if decide (m = ∅) then "empty" else "active") [("sessions", show_nat (size m))].
Proof.
  unfold session_principals_row. rewrite map_size_decide. intros Hin. apply says_row. by case_decide; case_bool_decide.
Qed.

Lemma events_row_says rows snap cap : recent_decisions_row snap cap ∈ rows →
  says rows "recent_decisions" (match snap with [] => "empty" | _ => "active" end)
    [("count", show_nat (length snap) +:+ "/" +:+ show_nat cap);
     ("accepted", show_nat (tally (of_type TokenAccepted) snap)); ("rejected", show_nat (tally (of_type TokenRejected) snap));
     ("allowed", show_nat (tally (of_type AuthzAllow) snap)); ("denied", show_nat (tally (of_type AuthzDeny) snap));
     ("refreshed", show_nat (tally (refresh_with refreshed) snap));
     ("refresh_noop", show_nat (tally (refresh_with unneeded) snap));
     ("refresh_failed", show_nat (tally (refresh_without (refreshed ++ unneeded ++ throttled)) snap))].
Proof. unfold recent_decisions_row. rewrite count_events_spec. apply says_row. Qed.

(** The rows of the code, in their order, are a diagnosis. *)
Lemma diagnosis_of_rows w1 w2 s snap u probe :
  Snapshot (st_audit_ring s) = Ret snap → read_probe_uri context w2 = (Ret u, w2) → probed u w2 probe →
  diagnosis w1 w2 s snap (sort_rows
    [mkDiagnoseRow "extension"
       (match setting_text w1 "quack_oauth_server_secret_name" with "" => "unconfigured" | _ => "configured" end)
       (details [("enabled", text_or (setting_text w1 "quack_oauth_enabled") "false");
          ("secret_name", text_or (setting_text w1 "quack_oauth_server_secret_name") "(unset)");
          ("validation_mode", setting_text w1 "quack_oauth_validation_mode"); ("provider", setting_text w1 "quack_oauth_provider")]);
     jwks_cache_row floor (st_jwks_cache s); decision_cache_row (st_decision_cache s);
     session_principals_row (st_session_principals s); idp_reachability_row probe;
     recent_decisions_row snap (length (ring_ (st_audit_ring s)))]).
Proof.
  intros Hsnap Hu Hprobed.
  assert (∀ a b c d e f : DiagnoseRow, ∀ x, x ∈ [a; b; c; d; e; f] → x ∈ sort_rows [a; b; c; d; e; f]) as Hin.
  { intros a b c d e f x Hx. unfold sort_rows. by rewrite merge_sort_Permutation. }
  split.
  - unfold jwks_cache_row, decision_cache_row, session_principals_row, idp_reachability_row, recent_decisions_row. reflexivity.
  - apply says_row, Hin. left.
  - apply jwks_row_says, Hin. right; left.
  - apply decision_row_says, Hin. do 2 right. left.
  - apply session_row_says, Hin. do 3 right. left.
  - done.
  - apply events_row_says, Hin. do 5 right. left.
  - apply read_probe_uri_spec in Hu as (accessor & _ & Hopen & ->). exists accessor, probe. split; [done|]. split; [done|].
    apply idp_row_says, Hin. do 4 right. left.
Qed.

Context (J : JwksCache → Prop) (D : DecisionCache → Prop) (S : string → SessionPrincipal → Prop).
Context (F : W → Prop) `{!Frame state F, !Keeps (Inv state J D S F false)}.
(** The invariant of the state, with the mutex free. *)
#[local] Abbreviation I := (Inv state J D S F false).
Context (Hget : ∀ uri, hoare I (Get (cx_http context) uri) (λ _, I)).
Context (Hnow : hoare I (cx_now_s context) (λ _, I)).
Context (Hframe : ∀ c w, ref_get state (ref_set g_probe_cache c w) = ref_get state w) `{!Frame g_probe_cache F}.

Lemma probe_idp_inv uri : hoare I (probe_idp context g_probe_cache uri) (λ _, I).
Proof.
  unfold probe_idp. eapply hoare_bind; [apply Hnow|]. intros now. destruct (sempty uri); [by apply hoare_ret|].
  apply (hoare_bind _ _ _ (λ _, I)); [by intros w Hw; eexists|]. intros c.
  destruct (probe_fresh c uri now); [by apply hoare_ret|]. apply (hoare_bind _ _ _ (λ _, I)).
  - unfold ProbeIdpReachability. destruct (sempty uri); [by apply hoare_ret|].
    apply (hoare_bind _ _ _ (λ _, I)); [|intros [r|]; by apply hoare_ret]. cbn [Get RetryingHttpClient].
    unfold RunWithRetries. eapply hoare_bind; [apply Hget|]. intros r. by apply hoare_ret.
  - intros probe. apply (hoare_bind _ _ _ (λ _, I)); [|intros []; by apply hoare_ret].
    apply hoare_upd. intros w (Hok & Hmu & HF). unfold Inv. rewrite Hframe. split_and!; [done..|by apply frame_set].
Qed.

(** Claim C32.  A diagnosis always comes out, whatever the network answers, and
    tells the truth: six rows, one per component and in alphabetical order.  The
    cache, session and event rows give the numbers of one state, that at the moment
    the call gets the mutex, and a status that fits them, the events counted by
    outcome; the extension row gives the settings; and the last row gives what a
    request to the endpoint of the secret shows, or a probe of the last two seconds.
    The mutex is free again, was not held during the probe, and the state keeps its
    invariant. *)
Theorem diagnose_correct w :
  I w →
  ∃ w0 rows w' snap, wait_mu w = (Ret tt, w0) ∧
    DiagnoseBind context state g_probe_cache floor w = (Ret rows, w') ∧ I w' ∧
    let w1 := ref_set (ref_comp state mu_ref) true w0 in
    diagnosis w1 (ref_set (ref_comp state mu_ref) false w1) (ref_get state w0) snap rows.
Proof.
  intros Hw. destruct (wait_mu w) as [r w0] eqn:Hwait.
  destruct (hoare_run _ _ _ _ _ _ threads_keep Hw Hwait) as ([] & -> & Hw0). set (s := ref_get state w0).
  destruct (Snapshot_total (st_audit_ring s)) as [snap Hsnap]; [apply Hw0|].
  set (w1 := ref_set (ref_comp state mu_ref) true w0).
  assert (Hw1 : Inv state J D S F true w1) by (by apply (Inv_mu state J D S F false)).
  assert (Hlock : lock_mu state w = (Ret tt, w1)).
  { apply lock_mu_run; [apply Hw|done]. }
  assert (ref_get state w1 = ref_set mu_ref true s) as Hs1 by (unfold w1; cbn; by rewrite ref_get_set).
  set (w2 := ref_set (ref_comp state mu_ref) false w1).
  assert (unlock_mu state w1 = (Ret tt, w2)) as Hunlock.
  { unfold unlock_mu. by rewrite (proj1 (proj2 Hw1)). }
  assert (Hw2 : I w2) by (by apply (Inv_mu state J D S F true)).
  destruct (read_probe_uri_run w2) as [u Hu].
  destruct (probe_idp context g_probe_cache u w2) as [r w3] eqn:Hprobe.
  destruct (hoare_run _ _ _ _ _ _ (probe_idp_inv u) Hw2 Hprobe) as (probe & -> & Hw3).
  pose proof (extension_row_run w1) as Hext.
  match type of Hext with _ = (Ret ?row, _) => set (extension := row) in * end.
  set (all := [extension; jwks_cache_row floor (st_jwks_cache s); decision_cache_row (st_decision_cache s);
    session_principals_row (st_session_principals s); idp_reachability_row probe;
    recent_decisions_row snap (length (ring_ (st_audit_ring s)))]).
  assert (DiagnoseBind context state g_probe_cache floor w = (Ret (sort_rows all), w3)) as Hrun.
  { unfold DiagnoseBind. apply M_bind_Ret. exists tt, w1. split; [exact Hlock|].
    apply M_bind_Ret. exists extension, w1. split; [exact Hext|].
    do 4 (apply M_bind_Ret; eexists _, w1; split; [reflexivity|]).
    apply M_bind_Ret. exists snap, w1. split.
    { apply lift_Ret. split; [|done]. cbn [ref_comp ref_get]. rewrite Hs1. by destruct s. }
    apply M_bind_Ret. exists tt, w2. split; [exact Hunlock|]. apply M_bind_Ret. exists u, w2. split; [exact Hu|].
    apply M_bind_Ret. exists probe, w3. split; [exact Hprobe|]. cbn [ref_comp ref_get]. rewrite Hs1. by destruct s. }
  eexists w0, _, w3, snap. split; [done|]. split; [exact Hrun|]. split; [done|].
  apply diagnosis_of_rows with u; [done|done|by apply probe_idp_probed in Hprobe].
Qed.
End correct.

(** ** Evaluations *)
#[local] Existing Instance no_threads.
#[local] Existing Instance no_threads_keep.
#[local] Existing Instance toy_duck.
#[local] Existing Instance um_canonical.

Definition dworld : Type := QuackOauthState * ProbeCache.
Definition dw_state : Ref dworld QuackOauthState := mkRef fst (λ s w, (s, snd w)).
Definition dw_probe : Ref dworld ProbeCache := mkRef snd (λ c w, (fst w, c)).
Lemma dw_state_laws : RefLaws dw_state.
Proof. by split; [..|intros []]. Qed.
Lemma dw_probe_laws : RefLaws dw_probe.
Proof. by split; [..|intros []]. Qed.

#[local] Existing Instance dw_state_laws.
#[local] Existing Instance dw_probe_laws.

Definition toy_probe_secret : SecretEntry :=
  mkSecretEntry (Some (mkKeyValueSecret [] "quack_oauth_server" "config" "srv" {["jwks_uri" := DStr "https://idp/jwks"]} ∅)) "" "".
Definition toy_diagnose_context (now : Z) : ClientContext dworld :=
  mkClientContext (λ key _, if seqb key "quack_oauth_server_secret_name" then Some (DStr "srv") else None)
    (λ name _, if seqb name "srv" then Some toy_probe_secret else None) (λ _, mret tt) (λ _, mret None)
    (λ _ _, mret Executed) (λ _ _, mret tt)
    (mkHttp (λ _, mret (Some (mkResponse 503 ""))) (λ _, mret None)) (λ _, mret tt) (mret now).
Definition toy_dworld : dworld := (QuackOauthState_new (λ _, None), ProbeCache_default).

Example toy_diagnose :
  (let '(r, w) := DiagnoseBind (toy_diagnose_context 1000) dw_state dw_probe 30 toy_dworld in
   (map (λ row, (dr_component row, dr_status row)) <$> r, pc_probed_at_s (snd w))) =
  (Ret [("decision_cache", "empty"); ("extension", "configured"); ("idp_reachability", "unreachable");
        ("jwks_cache", "empty"); ("recent_decisions", "empty"); ("session_principals", "empty")], 1000).
Proof. vm_compute. reflexivity. Qed.

Lemma toy_dworld_inv : Inv dw_state (λ _, True) (λ _, True) (λ _ _, True) (λ _, True) false toy_dworld.
Proof.
  split; [|by split]. constructor; try done.
  - vm_compute. lia.
  - unfold ring_ok. vm_compute. lia.
Qed.

Lemma diagnose_correct_witness :
  ∃ rows w', DiagnoseBind (toy_diagnose_context 1000) dw_state dw_probe 30 toy_dworld = (Ret rows, w') ∧
    dr_component <$> rows = component_names.
Proof.
  destruct (diagnose_correct (toy_diagnose_context 1000) dw_state dw_probe 30
    (λ _, True) (λ _, True) (λ _ _, True) (λ _, True)
    (λ uri w Hw, ex_intro _ _ (conj eq_refl Hw)) (λ w Hw, ex_intro _ _ (conj eq_refl Hw)) (λ c w, eq_refl)
    toy_dworld toy_dworld_inv) as (w0 & rows & w' & snap & _ & Hr & _ & Hd).
  exists rows, w'. split; [exact Hr|exact (dg_names _ _ _ _ _ _ _ _ Hd)].
Defined.

Lemma probe_rate_limited_witness :
  ∃ p w1, probe_idp (toy_diagnose_context 1000) dw_probe "https://idp/jwks" toy_dworld = (Ret p, w1) ∧
    (ref_get dw_probe w1 = ref_get dw_probe w1 → pc_probed_at_s (ref_get dw_probe w1) = 1000 →
     probe_idp (toy_diagnose_context 1000) dw_probe "https://idp/jwks" w1 = (Ret p, w1)).
Proof.
  destruct (probe_idp (toy_diagnose_context 1000) dw_probe "https://idp/jwks" toy_dworld) as [r w1] eqn:Hr.
  destruct r as [p|e|]; [|discriminate Hr|discriminate Hr].
  exists p, w1. split; [reflexivity|]. intros _ Hat.
  destruct (probe_rate_limited (toy_diagnose_context 1000) dw_probe "https://idp/jwks"
    toy_dworld p w1 1000 toy_dworld ltac:(discriminate) ltac:(lia) eq_refl Hr) as (_ & _ & _ & _ & Hlater).
  apply (Hlater w1 1000 w1); [reflexivity|reflexivity|rewrite Hat; lia].
Defined.
