(* ===== verification/Server.v ===== *)
(** * The calls of the server process

    The SQL functions and settings of a server as calls on one process, and their
    common invariant, which ties the state to what was observed ([History]): every
    cached key was published by a JWKS endpoint, every cached decision is the answer
    of a configured endpoint about a token given to the server, and every session
    principal rests on the evidence for a token presented with that session.  Each
    call keeps it and comes back, in any world whose other threads keep it too
    ([world_ok]).  [Threads] discharges that assumption. *)
From S2P Require Import Prelude CppString Executor StdList JwksCache Http DecisionCache AuditLog External Toy Json JwtParse.
From S2P Require Import JwtVerify Validator Introspect UrlGuard Providers Policy DuckDb PolicyTable State Settings.
From S2P Require Import SqlAst SqlInspect CheckToken CheckAuthorization Diagnose.

(** ** Code that neither throws something else nor gets stuck *)

(** Reading a value of the wrong type throws. *)
Class DuckValuesTotal `{!DuckValues} : Prop := {
  dv_int32_total v : dv_int32 v ≠ Stuck;
  dv_bool_total v : dv_bool v ≠ Stuck;
  dv_string_total v : dv_string v ≠ Stuck;
  dv_children_total v : dv_children v ≠ Stuck;
}.

(** The queries the server sends, and the number of columns of their rows. *)
Inductive issued : string → nat → Prop :=
  | issued_listeners : issued listeners_sql 1
  | issued_columns table : issued (columns_sql table) 1
  | issued_rows layout table :
      issued (rows_sql layout table)
        (5 + (if obj_pos_of layout then 1 else 0) + (if col_pos_of layout then 1 else 0))%nat.

Lemma ValidateHttpUrl_total field_name url : ValidateHttpUrl field_name url ≠ Stuck.
Proof. unfold ValidateHttpUrl. repeat case_match; done. Qed.

Lemma ValidateServerConfig_total cfg secret_name : ValidateServerConfig cfg secret_name ≠ Stuck.
Proof. unfold ValidateServerConfig. repeat case_match; try done; apply ValidateHttpUrl_total. Qed.

Lemma ResolveProvider_total id tenant : ResolveProvider id tenant ≠ Stuck.
Proof. unfold ResolveProvider. by rewrite !Substitute_eq. Qed.

Section rows.
Context `{!DuckValues, !DuckValuesTotal}.

Lemma GetValue_total (row : list DValue) i : (i < length row)%nat → GetValue row i ≠ Stuck.
Proof. intros Hi. unfold GetValue. by destruct (lookup_lt_is_Some_2 row i Hi) as [v ->]. Qed.

Lemma listener_ok_total row : length row = 1%nat → listener_ok row ≠ Stuck.
Proof.
  intros Hrow. unfold listener_ok. apply exc_bind_total; [apply GetValue_total; lia|]. intros v _.
  destruct (dv_IsNull v); [done|]. apply exc_bind_total; [apply dv_string_total|]. intros uri _. by case_match.
Qed.

Lemma layout_of_total rows : Forall (λ row, length row = 1%nat) rows → layout_of rows ≠ Stuck.
Proof.
  apply (exc_fold_not_stuck (λ row, length row = 1%nat)). intros [layout i] row Hrow.
  apply exc_bind_total; [apply GetValue_total; lia|]. intros v _.
  destruct (dv_IsNull v); [done|]. apply exc_bind_total; [apply dv_string_total|done].
Qed.

Lemma list_strings_total v : list_strings v ≠ Stuck.
Proof.
  unfold list_strings. destruct (dv_IsNull v); [done|]. apply exc_bind_total; [apply dv_children_total|]. intros l _.
  apply (exc_fold_not_stuck (λ _, True)); [|by apply Forall_true]. intros acc x _.
  destruct (dv_IsNull x); [done|]. apply exc_bind_total; [apply dv_string_total|done].
Qed.

Lemma parse_actions_total v : parse_actions v ≠ Stuck.
Proof.
  unfold parse_actions. destruct (dv_IsNull v); [done|]. apply exc_bind_total; [apply dv_children_total|]. intros l _.
  apply (exc_fold_not_stuck (λ _, True)); [|by apply Forall_true]. intros [acc|] x _; [|done].
  destruct (dv_IsNull x); [done|]. apply exc_bind_total; [apply dv_string_total|done].
Qed.

Lemma NormalisePattern_total v : NormalisePattern v ≠ Stuck.
Proof.
  unfold NormalisePattern. destruct (dv_IsNull v); [done|]. apply exc_bind_total; [apply dv_string_total|done].
Qed.

(** Positions within the row. *)
Definition within (n : nat) (pos : option nat) : Prop := ∀ i, pos = Some i → (i < n)%nat.

Lemma pattern_total row pos :
  within (length row) pos →
  match pos with Some i => v ← GetValue row i; NormalisePattern v | None => Ret None end ≠ Stuck.
Proof.
  intros Hpos. destruct pos as [i|]; [|done].
  apply exc_bind_total; [by apply GetValue_total, Hpos|]. intros v _. apply NormalisePattern_total.
Qed.

Lemma parse_row_total obj_pos col_pos row :
  (5 ≤ length row)%nat → within (length row) obj_pos → within (length row) col_pos →
  parse_row obj_pos col_pos row ≠ Stuck.
Proof.
  intros Hlen Hobj Hcol. unfold parse_row.
  do 4 (apply exc_bind_total; [apply GetValue_total; lia|]; intros ? _).
  destruct (dv_IsNull _); [done|]. apply exc_bind_total; [apply dv_bool_total|]. intros allow _.
  apply exc_bind_total.
  { destruct (dv_IsNull _); [done|]. apply exc_bind_total; [apply dv_string_total|done]. }
  intros subject _. apply exc_bind_total; [apply list_strings_total|]. intros any_scope _.
  apply exc_bind_total; [apply parse_actions_total|]. intros [actions|] _; [|done].
  apply exc_bind_total; [by apply pattern_total|]. intros op _.
  apply exc_bind_total; [by apply pattern_total|]. done.
Qed.

Lemma parse_rows_total obj_pos col_pos n rows rules :
  (5 ≤ n)%nat → within n obj_pos → within n col_pos → Forall (λ row, length row = n) rows →
  parse_rows obj_pos col_pos rows rules ≠ Stuck.
Proof.
  intros Hn Hobj Hcol Hrows. revert rules. induction Hrows as [|row rows <- Hrows IH]; intros rules; cbn [parse_rows]; [done|].
  apply exc_bind_total; [by apply parse_row_total|]. intros [rule|] _; [apply IH|done].
Qed.
End rows.

Lemma pattern_positions layout :
  let n := (5 + (if obj_pos_of layout then 1 else 0) + (if col_pos_of layout then 1 else 0))%nat in
  within n (obj_pos_of layout) ∧ within n (col_pos_of layout).
Proof.
  unfold within, col_pos_of, obj_pos_of. destruct (0 <=? object_pattern_idx layout), (0 <=? column_pattern_idx layout);
    cbn; split; intros i; intros [= <-]; lia.
Qed.

(** ** What was observed

    The history of a run, as relations that hold of everything seen in it: the answers
    to GET and to POST requests, the configurations that were loaded, the readings of
    the clock, what was given to check_token as a token, and what was given to it
    with a session.  The theorems are about any such relations: the least ones say
    most. *)
Record History : Type := mkHistory {
  fetched : string → Response → Prop;
  answered : PostRequest → Response → Prop;
  configured : ServerConfig → Prop;
  clocked : Z → Prop;
  offered : string → Prop;
  presented : string → string → Prop;
}.

Section server.
Context `{!Executor, !PicoJson, !JwtCpp, !OpenSsl, !Sha256, !UMapOrder, !DuckValues, !DuckParser}.
Context {W : Type} `{!Threads W} (context : ClientContext W) (state : Ref W QuackOauthState).
Context (h : History) (F : W → Prop).

(** A key of a JWKS document served for that URI. *)
Definition published (cache_key : string) (k : Jwk) : Prop :=
  ∃ uri resp, fetched h uri resp ∧ status_code resp = 200 ∧ k ∈ ParseJwksJson (body resp) ∧
    cache_key = CacheKey uri (jwk_kid k).

(** The word of the endpoint of a configuration about a token, for each mode: who was
    asked, what the answer says, and what it was checked for. *)
Inductive attested (cfg : ServerConfig) (opts : VerifyOptions) (token : string) (p : Principal) : Prop :=
  | attested_introspection resp r :
      sc_mode cfg = "introspect" →
      answered h (mkPostRequest (sc_introspection_endpoint cfg)
        ("token=" +:+ UrlEncode token +:+ "&token_type_hint=access_token") form_urlencoded
        (sc_introspect_client_id cfg) (sc_introspect_client_secret cfg)) resp →
      status_code resp = 200 → ParseIntrospectionResponse (body resp) = Some r → ir_active r = true →
      (sc_issuer cfg = "" ∨ ir_issuer r = "" ∨ ir_issuer r = sc_issuer cfg) →
      (sc_audience cfg = "" ∨ ir_audience r = [] ∨ sc_audience cfg ∈ ir_audience r) →
      p = introspect_principal r → attested cfg opts token p
  | attested_tokeninfo resp r :
      sc_mode cfg = "tokeninfo" →
      answered h (mkPostRequest (sc_introspection_endpoint cfg) ("access_token=" +:+ UrlEncode token)
        form_urlencoded "" "") resp →
      status_code resp = 200 → ParseTokeninfoResponse (body resp) true = Some r →
      (sc_audience cfg = "" ∨ ti_aud r = sc_audience cfg ∨ ti_azp r = sc_audience cfg) →
      (0 < ti_exp r → vo_now_s opts ≤ ti_exp r + vo_clock_skew_s opts) →
      p = tokeninfo_principal r → attested cfg opts token p
  | attested_github resp :
      sc_mode cfg = "github_check" →
      answered h (mkPostRequest (sc_introspection_endpoint cfg)
        ("{" +:+ String "034" "access_token" +:+ String "034" ":" +:+ String "034" (JsonEscape token)
           +:+ String "034" "}")
        "application/json" (sc_introspect_client_id cfg) (sc_introspect_client_secret cfg)) resp →
      status_code resp = 200 → ParseGithubCheckResponse (body resp) = Some p → attested cfg opts token p.

(** A configuration and a time that the process has seen. *)
Definition in_use (cfg : ServerConfig) (now_s : Z) : Prop := configured h cfg ∧ config_valid cfg ∧ clocked h now_s.

(** What the decision cache may hold under a key: the principal of an answer about a
    token with that key which the server was given, by the endpoint of a
    configuration that it had loaded, checked as the mode of that configuration
    asks.  The cache does not know which configuration it was. *)
Definition vouched (key : string) (p : Principal) : Prop :=
  ∃ raw cfg now_s, offered h raw ∧ in_use cfg now_s ∧ KeyOf (StripBearerPrefix raw) = key ∧
    attested cfg (options_of cfg now_s) (StripBearerPrefix raw) p.

Definition opaque_mode (mode : string) : bool :=
  seqb mode "introspect" || seqb mode "tokeninfo" || seqb mode "github_check".

(** Why [check_token] believes that a token is [p]'s: in the opaque modes the word of
    an endpoint, now or when the decision was cached; in JWKS mode a published key
    for it, by which it passes the configured checks. *)
Definition evidence (cfg : ServerConfig) (opts : VerifyOptions) (token : string) (p : Principal) : Prop :=
  if opaque_mode (sc_mode cfg) then vouched (KeyOf token) p
  else token_principal published (sc_jwks_uri cfg) opts token p.

(** What a stored session rests on. *)
Definition session_backed (sid : string) (sp : SessionPrincipal) : Prop :=
  ∃ raw cfg, presented h sid raw ∧ in_use cfg (sp_updated_at_s sp) ∧
    evidence cfg (options_of cfg (sp_updated_at_s sp)) (StripBearerPrefix raw) (sp_principal sp).

Definition server_inv (locked : bool) : W → Prop :=
  Inv state (good published) (dc_justified vouched) session_backed F locked.

(** The issuers' dates of expiry leave room to add the skew in 64 bits: the code adds
    them unchecked. *)
Definition expiries_fit : Prop := ∀ request resp, answered h request resp →
  (∀ r, ParseIntrospectionResponse (body resp) = Some r → leaves_room (ir_exp r)) ∧
  (∀ r, ParseTokeninfoResponse (body resp) true = Some r → leaves_room (ti_exp r)).

(** ** What is asked of the rest of the process

    Requests, queries, logging, sleeping and the clock return; what they bring back
    is in the history, and so is a configuration that can be loaded; a query's rows
    have its columns; and the other threads, which run meanwhile, keep the
    invariant. *)
Record world_ok : Prop := {
  wo_env : env_ok context state (good published) (dc_justified vouched) session_backed F;
  wo_wait : hoare (server_inv false) wait_mu (λ _, server_inv false);
  wo_get uri : hoare (server_inv false) (Get (cx_http context) uri)
    (λ r w, (∀ resp, r = Some resp → fetched h uri resp) ∧ server_inv false w);
  wo_post request : hoare (server_inv false) (Post (cx_http context) request)
    (λ r w, (∀ resp, r = Some resp → answered h request resp) ∧ server_inv false w);
  wo_sleep ms : hoare (server_inv false) (cx_sleep context ms) (λ _, server_inv false);
  wo_now : hoare (server_inv false) (cx_now_s context) (λ now_s w, clocked h now_s ∧ server_inv false w);
  wo_config w cfg w' : LoadServerConfig context w = (Ret cfg, w') → configured h cfg;
  wo_expiries : expiries_fit;
  wo_query sql n : issued sql n → hoare (server_inv false) (cx_Query context sql)
    (λ r w, (∀ rows, r = Some rows → Forall (λ row, length row = n) rows) ∧ server_inv false w);
}.

Section operations.
Context `{!ExecutorLaws, !JwtCppTimes _, !DuckValuesTotal, !DuckParserLaws, !RefLaws state, !Frame state F}.
Hypothesis Hworld : world_ok.
#[local] Instance others_keep : Keeps (Inv state (good published) (dc_justified vouched) session_backed F false).
Proof. exact (wo_wait Hworld). Qed.
Local Abbreviation SI := (server_inv false).

(** *** Reading settings, secrets and tables *)
Lemma ReadIntSetting_safe key fallback : safe SI (ReadIntSetting context key fallback) (λ _, True).
Proof. unfold ReadIntSetting. safe_steps; apply safe_lift; [apply dv_int32_total|done]. Qed.

Lemma LoadServerConfig_safe : safe SI (LoadServerConfig context) (λ cfg, configured h cfg ∧ config_valid cfg).
Proof.
  apply (safe_returns _ _ (λ _, True)).
  2: { intros w cfg w' Hcfg. split; [by apply (wo_config Hworld) in Hcfg|by apply LoadServerConfig_valid in Hcfg]. }
  unfold LoadServerConfig, ReadServerConfigCore, OpenSecret, ApplyProviderPreset, ReadStringSetting. safe_steps.
  - apply ReadIntSetting_safe.
  - apply safe_lift; [apply ResolveProvider_total|done].
  - apply safe_lift; [apply ValidateServerConfig_total|done].
Qed.

Lemma now_safe : safe SI (cx_now_s context) (clocked h).
Proof. apply safe_hoare, (wo_now Hworld). Qed.

Lemma query_safe sql n : issued sql n →
  safe SI (cx_Query context sql) (λ r, ∀ rows, r = Some rows → Forall (λ row, length row = n) rows).
Proof. intros Hsql. by apply safe_hoare, (wo_query Hworld). Qed.

Lemma EnforcePlaintextGuard_safe : safe SI (EnforcePlaintextGuard context) (λ _, True).
Proof.
  unfold EnforcePlaintextGuard. do 2 safe_step.
  { safe_steps. apply safe_lift; [apply dv_bool_total|done]. }
  safe_step; [safe_steps|]. eapply safe_bind; [apply query_safe, issued_listeners|]. intros [rows|] Hrows; [|safe_steps].
  apply safe_lift; [|done]. apply (exc_fold_not_stuck (λ row, length row = 1%nat)); [|by apply Hrows].
  intros _ row. apply listener_ok_total.
Qed.

Lemma DiscoverColumns_safe table : safe SI (DiscoverColumns context table) (λ _, True).
Proof.
  unfold DiscoverColumns. eapply safe_bind; [apply query_safe, issued_columns|]. intros [rows|] Hrows; [|safe_steps].
  safe_steps. apply safe_lift; [|done]. by apply layout_of_total, Hrows.
Qed.

Lemma LoadPolicyFromTable_safe table : safe SI (LoadPolicyFromTable context table) (λ _, True).
Proof.
  unfold LoadPolicyFromTable. safe_step; [safe_steps|]. safe_step; [apply DiscoverColumns_safe|].
  safe_step; [|safe_steps]. eapply safe_bind; [apply query_safe, issued_rows|]. intros [rows|] Hrows; [|safe_steps].
  safe_steps. apply safe_lift; [|done].
  eapply parse_rows_total; [..|by apply Hrows]; [lia|by apply pattern_positions..].
Qed.

Lemma ReadAuthzConfig_safe : safe SI (ReadAuthzConfig context) skew_ok.
Proof.
  apply (safe_returns _ _ (λ _, True)); [|by intros ???; apply ReadAuthzConfig_skew].
  unfold ReadAuthzConfig, LookupPolicyTable, LookupDefaultAllow, LookupClockSkew, TryOpenSecret. safe_steps.
  - apply LoadPolicyFromTable_safe.
  - apply safe_hoare. eapply hoare_post; [|apply (wo_now Hworld)]. by intros now_s w [_ Hw].
  - apply safe_lift; [apply dv_int32_total|done].
Qed.

(** *** Validating a row *)

(** What a request of a row validator brings back. *)
Lemma check_token_post request :
  hoare (server_inv true) (Post (check_token_http context state) request)
    (λ r w, (∀ resp, r = Some resp → answered h request resp) ∧ server_inv true w).
Proof. apply (retried_inv context state _ _ _ F (wo_sleep Hworld)), (wo_post Hworld). Qed.

Lemma fetched_keys uri :
  hoare (server_inv false) (Get (cx_http context) uri) (λ r w, issuer_keys published uri r ∧ server_inv false w).
Proof.
  eapply hoare_post; [|apply (wo_get Hworld)]. intros r w [Hr Hw]. split; [|done].
  intros resp Hresp Hstatus. apply Forall_forall. intros k Hk. exists uri, resp. auto.
Qed.

Lemma decisions_justified w : server_inv true w → dc_justified vouched (ref_get (ref_comp state decision_cache_ref) w).
Proof. intros [[_ HD _ _ _] _]. exact HD. Qed.

Lemma decisions_set w c :
  server_inv true w → dc_justified vouched c → server_inv true (ref_set (ref_comp state decision_cache_ref) c w).
Proof.
  apply (Inv_decisions state (good published) (dc_justified vouched) session_backed F).
Qed.

(** *** Room for the skew *)
Lemma attested_room cfg opts token p : attested cfg opts token p → leaves_room (pr_exp p).
Proof.
  intros [resp r _ Hr _ Hp _ _ _ ->|resp r _ Hr _ Hp _ _ ->|resp _ _ _ Hp].
  - by apply (wo_expiries Hworld) in Hr as [Hr _]; apply Hr.
  - by apply (wo_expiries Hworld) in Hr as [_ Hr]; apply Hr.
  - unfold ParseGithubCheckResponse in Hp. destruct (json_object _) as [obj|]; [|done]. cbn in Hp.
    destruct (sub_object obj "user") as [user|]; [|done]. cbn in Hp.
    destruct (match user !! "id" with Some _ => _ | None => _ end); [|done]. by injection Hp as <-.
Qed.

Lemma session_backed_room sid : session_room session_backed sid.
Proof.
  intros sp (raw & cfg & _ & _ & Hev). unfold evidence in Hev. destruct (opaque_mode (sc_mode cfg)).
  - destruct Hev as (? & ? & ? & _ & _ & _ & Hatt). by eapply attested_room.
  - destruct Hev as (_ & parsed & Hp%ParseJwt_exp & ->). unfold leaves_room. simpl. lia.
Qed.

(** *** The answers, for a token that was given to the server under a configuration
    in use. *)
Section asking.
Context (raw : string) (cfg : ServerConfig) (now_s : Z).
Hypothesis Hoffered : offered h raw.
Hypothesis Huse : in_use cfg now_s.
Local Abbreviation token := (StripBearerPrefix raw).
Local Abbreviation opts := (options_of cfg now_s).

Lemma attested_vouched p : attested cfg opts token p → vouched (KeyOf token) p.
Proof. intros Hatt. by exists raw, cfg, now_s. Qed.

Lemma introspection_answers :
  sc_mode cfg = "introspect" →
  answers_justified (server_inv true)
    (IntrospectToken (check_token_http context state) (sc_introspection_endpoint cfg) (sc_introspect_client_id cfg)
       (sc_introspect_client_secret cfg) token)
    (λ r, ir_active r = true → (sc_issuer cfg = "" ∨ ir_issuer r = "" ∨ ir_issuer r = sc_issuer cfg) →
          (sc_audience cfg = "" ∨ ir_audience r = [] ∨ sc_audience cfg ∈ ir_audience r) →
          vouched (KeyOf token) (introspect_principal r)).
Proof.
  intros Hmode. unfold answers_justified, IntrospectToken. destruct (_ || _); [by apply hoare_ret|].
  eapply hoare_bind; [apply check_token_post|]. intros resp. apply hoare_pure. intros Hresp.
  apply hoare_ret. intros w Hw. split; [|done]. intros r Hr Hactive Hiss Haud. destruct resp as [resp|]; [|done].
  destruct (Z.eqb_spec (status_code resp) 200) as [Hst|]; [|done]. apply attested_vouched.
  eapply attested_introspection; eauto.
Qed.

Lemma tokeninfo_answers :
  sc_mode cfg = "tokeninfo" →
  answers_justified (server_inv true)
    (QueryTokeninfo (check_token_http context state) (sc_introspection_endpoint cfg) token)
    (λ r, fits_with (vo_clock_skew_s opts) (ti_exp r) ∧
          (ti_active r = true → (sc_audience cfg = "" ∨ ti_aud r = sc_audience cfg ∨ ti_azp r = sc_audience cfg) →
           (0 < ti_exp r → vo_now_s opts ≤ ti_exp r + vo_clock_skew_s opts) →
           vouched (KeyOf token) (tokeninfo_principal r))).
Proof.
  intros Hmode. unfold answers_justified, QueryTokeninfo. destruct (_ || _); [by apply hoare_ret|].
  eapply hoare_bind; [apply check_token_post|]. intros resp. apply hoare_pure. intros Hresp.
  apply hoare_ret. intros w Hw. split; [|done]. intros r Hr. destruct resp as [resp|]; [|done].
  specialize (Hresp resp eq_refl). destruct (Z.eqb_spec (status_code resp) 200) as [Hst|].
  - split; [|intros _ Haud Hexp; apply attested_vouched; by eapply attested_tokeninfo].
    apply leaves_room_fits; [by destruct Huse as (_ & [? _] & _)|]. by apply (wo_expiries Hworld) in Hresp as [_ Hfit]; apply Hfit.
  - destruct (status_code resp =? 400); [|done]. by injection Hr as <-.
Qed.

Lemma github_answers context' :
  sc_mode cfg = "github_check" →
  gc_check_url context' = sc_introspection_endpoint cfg → gc_client_id context' = sc_introspect_client_id cfg →
  gc_client_secret context' = sc_introspect_client_secret cfg → gc_http context' = check_token_http context state →
  answers_justified (server_inv true) (Post (gc_http context') (github_request context' token))
    (λ r, status_code r = 200 → ∀ p, ParseGithubCheckResponse (body r) = Some p → vouched (KeyOf token) p).
Proof.
  intros Hmode Hurl Hid Hsecret ->. eapply hoare_post; [|apply check_token_post]. intros resp w [Hresp Hw]. split; [|done].
  intros r -> Hst p Hp. apply attested_vouched, (attested_github _ _ _ _ r); [done| |done..].
  rewrite <-Hurl, <-Hid, <-Hsecret. by apply Hresp.
Qed.
End asking.

Lemma opaque_row_inv token validate :
  hoare (server_inv true) validate (λ r w, decided vouched (KeyOf token) (Some Principal_default) r ∧ server_inv true w) →
  hoare (server_inv true) (opaque_row validate) (λ rv w,
    (rv_outcome rv = Ok → vouched (KeyOf token) (rv_principal rv)) ∧ server_inv true w).
Proof.
  intros Hv. unfold opaque_row. eapply hoare_bind; [exact Hv|]. intros [outcome principal]. apply hoare_pure.
  intros Hd. apply hoare_ret. intros w Hw. split; [|done]. simpl. intros Ho.
  destruct Hd as [(_ & p & Hp & Hout)|[Hno _]]; [|by destruct Hno]. simpl in Hout. by subst principal.
Qed.

(** The verdict of a row validator and its principal rest on evidence, in every
    mode. *)
Lemma row_validator_sound cfg now_s :
  in_use cfg now_s →
  let opts := options_of cfg now_s in
  row_sound state (good published) (dc_justified vouched) session_backed F
    (λ token, ∃ raw, offered h raw ∧ token = StripBearerPrefix raw)
    (λ token, ∃ p, evidence cfg opts token p) (evidence cfg opts) (row_validator context state cfg opts).
Proof.
  intros Huse opts token (raw & Hoffered & ->). unfold row_validator, evidence, opaque_mode.
  set (token := StripBearerPrefix raw).
  assert (∀ validate : M W (VerifyResult * option Principal),
    hoare (server_inv true) validate
      (λ r w, decided vouched (KeyOf token) (Some Principal_default) r ∧ server_inv true w) →
    hoare (server_inv true) (opaque_row validate) (λ rv w,
      (rv_outcome rv = Ok → (∃ p, vouched (KeyOf token) p) ∧
        (rv_have_principal rv = true → vouched (KeyOf token) (rv_principal rv))) ∧ server_inv true w)) as Hopaque.
  { intros validate Hv. eapply hoare_post; [|by apply opaque_row_inv]. simpl. intros rv w [Hrv Hw].
    split; [|done]. intros Ho. specialize (Hrv Ho). eauto. }
  destruct (seqb (sc_mode cfg) "introspect") eqn:Hm1; [|destruct (seqb (sc_mode cfg) "tokeninfo") eqn:Hm2;
    [|destruct (seqb (sc_mode cfg) "github_check") eqn:Hm3]]; cbn [orb].
  - apply Hopaque. apply (introspection_inv (ref_comp state decision_cache_ref) vouched (server_inv true) decisions_justified decisions_set); [done|].
    by apply (introspection_answers raw cfg now_s), seqb_true.
  - apply Hopaque. apply (tokeninfo_inv (ref_comp state decision_cache_ref) vouched (server_inv true) decisions_justified decisions_set); [done|].
    by apply (tokeninfo_answers raw cfg now_s), seqb_true.
  - apply Hopaque. apply (github_inv (ref_comp state decision_cache_ref) vouched (server_inv true) decisions_justified decisions_set); [done|].
    apply (github_answers raw cfg now_s); [done|done|by apply seqb_true|done..].
  - eapply hoare_post; [|apply (jwks_row_sound context state published (dc_justified vouched) session_backed F
      fetched_keys (wo_sleep Hworld)); done]. simpl. intros rv w [Hrv Hw]. split; [|done]. intros Ho.
    destruct (Hrv Ho) as [Hv Hp]. split; [|exact Hp].
    pose proof Hv as (parsed & k & Hparsed & _). exists (PrincipalFromJwt parsed). split; [done|]. eauto.
Qed.
(** *** The SQL functions *)

(** The rows are in the history. *)
Definition rows_presented (tokens : Column) (session_ids : option Column) : Prop :=
  (∀ raw, Some raw ∈ tokens → offered h raw) ∧
  match session_ids with
  | Some sids => length sids = length tokens ∧ ∀ raw sid, (Some raw, Some sid) ∈ zip tokens sids → presented h sid raw
  | None => True
  end.

(** Every [true] of a chunk rests on evidence, under one configuration in use. *)
Definition chunk_sound (tokens : Column) (out : list (option bool)) : Prop :=
  ∃ cfg now_s, in_use cfg now_s ∧
    Forall2 (result_sound (λ token, ∃ p, evidence cfg (options_of cfg now_s) token p)) tokens out.

Lemma ValidateChunk_safe tokens session_ids :
  rows_presented tokens session_ids →
  safe SI (ValidateChunk context state tokens session_ids) (chunk_sound tokens).
Proof.
  intros [Hoffered Hrows]. unfold ValidateChunk. eapply safe_bind; [apply LoadServerConfig_safe|]. intros cfg [Hcfg Hvalid].
  eapply safe_bind; [apply now_safe|]. intros now_s Hnow. apply safe_hoare.
  assert (in_use cfg now_s) as Huse by done.
  assert (sessions_recorded session_backed (evidence cfg (options_of cfg now_s)) now_s tokens session_ids) as Hrec.
  { destruct session_ids as [sids|]; [|done]. destruct Hrows as [Hlen Hpres]. split; [done|].
    intros raw sid p Hin Hp. exists raw, cfg. split; [by apply Hpres|done]. }
  eapply hoare_post; [|exact (hoare_with_guard state _ _ _ F _ _ (RunValidationLoop_inv context state _ _ _ F (wo_env Hworld)
    _ _ _ _ now_s _ tokens session_ids (row_validator_sound cfg now_s Huse) (λ raw Hin, ex_intro _ raw (conj (Hoffered raw Hin) eq_refl)) Hrec))].
  intros out w [Hout Hw]. split; [|exact Hw]. by exists cfg, now_s.
Qed.

Lemma CheckTokenScalarFun1_safe tokens :
  rows_presented tokens None →
  safe SI (CheckTokenScalarFun1 context state tokens) (chunk_sound tokens).
Proof.
  intros Hrows. unfold CheckTokenScalarFun1. safe_step; [apply EnforcePlaintextGuard_safe|]. by apply ValidateChunk_safe.
Qed.

Lemma CheckTokenScalarFun3_safe session_ids auth_strings :
  rows_presented auth_strings (Some session_ids) →
  safe SI (CheckTokenScalarFun3 context state session_ids auth_strings) (chunk_sound auth_strings).
Proof.
  intros Hrows. unfold CheckTokenScalarFun3. safe_step; [apply EnforcePlaintextGuard_safe|]. by apply ValidateChunk_safe.
Qed.

Lemma CheckAuthorizationScalarFun_safe session_ids queries :
  safe SI (CheckAuthorizationScalarFun context state session_ids queries)
    (λ out, ∃ cfg, skew_ok cfg ∧ Forall2 (answer_sound session_backed cfg) (zip_with both session_ids queries) out).
Proof.
  unfold CheckAuthorizationScalarFun. eapply safe_bind; [apply ReadAuthzConfig_safe|]. intros cfg Hskew. apply safe_hoare.
  eapply hoare_post; [|exact (authorize_rows_inv context state _ _ _ F (wo_env Hworld) cfg session_ids queries Hskew session_backed_room)].
  intros out w [Hout Hw]. split; [by exists cfg|done].
Qed.

(** Where an allowed query comes from. *)
Definition allowed_provenance (cfg : AuthzConfig) (sid query : string) : Prop :=
  ∃ raw scfg sp request,
    presented h sid raw ∧ in_use scfg (sp_updated_at_s sp) ∧
    evidence scfg (options_of scfg (sp_updated_at_s sp)) (StripBearerPrefix raw) (sp_principal sp) ∧
    unexpired cfg (sp_principal sp) ∧
    az_policy_load_failed cfg = false ∧
    InspectSql query = Ret request ∧ rq_unsafe request = false ∧
    (query = "" ∨ ∃ stmts, ParseBuiltin query = inr stmts ∧ Forall (accounted request) stmts) ∧
    permitted cfg (sp_principal sp) request.

Lemma allowed_query session_ids queries w out w' :
  SI w → CheckAuthorizationScalarFun context state session_ids queries w = (Ret out, w') →
  ∃ cfg w1, ReadAuthzConfig context w = (Ret cfg, w1) ∧
    ∀ j sid query, session_ids !! j = Some (Some sid) → queries !! j = Some (Some query) → out !! j = Some (Some true) →
      allowed_provenance cfg sid query.
Proof.
  intros Hw (cfg & w1 & Hcfg & Hrun)%M_bind_Ret. exists cfg, w1. split; [done|]. intros j sid query Hsid Hquery Hout.
  destruct (safe_run _ _ _ _ _ _ ReadAuthzConfig_safe Hw Hcfg) as (Hw1 & _).
  pose proof (ReadAuthzConfig_skew _ _ _ _ Hcfg) as Hskew.
  destruct (hoare_run _ _ _ _ _ _ (authorize_rows_inv context state _ _ _ F (wo_env Hworld) cfg session_ids queries Hskew session_backed_room) Hw1 Hrun)
    as (out' & [= <-] & Hall & _).
  destruct (Forall2_lookup_r _ _ _ j _ Hall Hout) as (row & Hrow & Hans).
  apply lookup_zip_with_Some in Hrow as (x & y & -> & Hx & Hy).
  unfold Column in *. assert (x = Some sid) as -> by congruence. assert (y = Some query) as -> by congruence.
  destruct Hans as (b & [= <-] & Hauth).
  destruct (Hauth eq_refl) as (sp & request & (raw & scfg & Hpres & Huse & Hev) & Hrest).
  by exists raw, scfg, sp, request.
Qed.

(** Updates of the refresh interval. *)
Lemma set_min_refresh_inv s :
  hoare SI (with_guard state (ref_upd (ref_comp state jwks_cache_ref) (λ c, SetMinRefreshSeconds c s))) (λ _, SI).
Proof.
  eapply hoare_post; [|apply (hoare_with_guard state _ _ _ F _ (λ _, True))]; [by intros [] w [_ Hw]|].
  apply hoare_upd. intros w Hw. pose proof Hw as [[[Hwf HT] _ _ _ _] _]. split; [done|].
  apply (Inv_jwks state _ _ _ F); [done|]. split; [by apply wf_set_min|].
  apply (same_hits_trusted _ (st_jwks_cache (ref_get state w))); [|exact HT].
  simpl. by destruct (st_jwks_cache _).
Qed.

Lemma run_callback_safe o scope v : safe SI (run_callback state o scope v) (λ _, True).
Proof.
  unfold run_callback, OnClockSkewSeconds, OnJwksMinRefreshSeconds.
  safe_steps; try (apply safe_lift; [apply dv_int32_total|done]).
  apply safe_hoare. eapply hoare_post; [|apply set_min_refresh_inv]. by split.
Qed.

(** Reading the state. *)
Lemma AuditLogBind_inv : hoare SI (AuditLogBind state) (λ _, SI).
Proof.
  unfold AuditLogBind. eapply hoare_post; [|apply (hoare_with_guard state _ _ _ F _ (λ _, True))]; [by intros l w [_ Hw]|].
  intros w Hw. destruct (Snapshot_total (st_audit_ring (ref_get state w))) as [l Hl]; [apply Hw|].
  unfold wp, gets, lift, mbind, M_bind. simpl. rewrite Hl. by exists l.
Qed.

Lemma CurrentPrincipalBind_inv : hoare SI (CurrentPrincipalBind state) (λ _, SI).
Proof.
  unfold CurrentPrincipalBind. eapply hoare_post; [|apply (hoare_with_guard state _ _ _ F _ (λ _, True))]; [by intros l w [_ Hw]|].
  apply hoare_read. by split.
Qed.
(** The probe cache of [diagnose] and the once-flag of the settings are static
    variables of their own. *)
Section statics.
Context (g_probe_cache : Ref W ProbeCache) (once : Ref W (option Z)) `{!RefLaws g_probe_cache}.
Hypothesis probe_apart : ∀ c w, ref_get state (ref_set g_probe_cache c w) = ref_get state w.
Hypothesis once_apart : ∀ o w, ref_get state (ref_set once o w) = ref_get state w.
Context `{!Frame g_probe_cache F, !Frame once F}.

Lemma DiagnoseBind_inv floor : hoare SI (DiagnoseBind context state g_probe_cache floor) (λ _, SI).
Proof.
  unfold DiagnoseBind. apply (hoare_bind _ _ _ (λ _, server_inv true)); [by apply (hoare_lock state _ _ _ F)|]. intros [].
  apply (hoare_bind _ _ _ (λ _, server_inv true)); [by intros w Hw; eexists|]. intros extension.
  do 3 (apply (hoare_bind _ _ _ (λ _, server_inv true)); [by apply hoare_read|]; intros ?).
  apply (hoare_bind _ _ _ (λ ring w, ring_ok ring ∧ server_inv true w)).
  { intros w Hw. eexists. split; [done|]. split; [apply Hw|done]. }
  intros ring. apply hoare_pure. intros Hring. destruct (Snapshot_total ring Hring) as [snap Hsnap].
  apply (hoare_bind _ _ _ (λ _, server_inv true)); [by eapply hoare_lift|]. intros ?.
  apply (hoare_bind _ _ _ (λ _, SI)); [by apply (hoare_unlock state _ _ _ F)|]. intros [].
  apply (hoare_bind _ _ _ (λ _, SI)).
  { intros w Hw. destruct (read_probe_uri_run context w) as [u Hu]. unfold wp. rewrite Hu. by exists u. }
  intros uri. apply (hoare_bind _ _ _ (λ _, SI)); [|intros ?; by apply hoare_ret].
  apply (probe_idp_inv context state g_probe_cache _ _ _ F); [|eapply hoare_post; [|apply (wo_now Hworld)]; by intros ? w [_ Hw]|exact probe_apart|done].
  intros u. eapply hoare_post; [|apply (wo_get Hworld)]. by intros r w [_ Hw].
Qed.

Lemma RegisterQuackOauthSettings_inv getenv :
  hoare SI (RegisterQuackOauthSettings getenv state once) (λ _, SI).
Proof.
  unfold RegisterQuackOauthSettings. apply (hoare_bind _ _ _ (λ _, SI)); [by intros w Hw; eexists|]. intros flag.
  apply (hoare_bind _ _ _ (λ _, SI)).
  - destruct flag as [f|]; [by apply hoare_ret|].
    apply (hoare_bind _ _ _ (λ _, SI)); [apply set_min_refresh_inv|]. intros [].
    apply hoare_upd. intros w (Hok & Hmu & HF). unfold server_inv, Inv. rewrite once_apart.
    split_and!; [done..|by apply frame_set].
  - intros []. apply (hoare_bind _ _ _ (λ _, SI)); [by intros w Hw; eexists|]. intros floor. by apply hoare_ret.
Qed.

(** ** Runs of the server *)

(** What a client of the process can call. *)
Inductive api_call : Type :=
  | LoadCall (getenv : string → option string)
  | SetOptionCall (option : ExtensionOption) (scope : SetScope) (value : DValue)
  | CheckTokenCall1 (tokens : Column)
  | CheckTokenCall3 (session_ids auth_strings : Column)
  | CheckAuthorizationCall (session_ids queries : Column)
  | DiagnoseCall (floor : Z)
  | AuditLogCall
  | CurrentPrincipalCall.

(** The answers of a call: the column of a scalar function. *)
Definition silent {A} (m : M W A) : M W (list (option bool)) := _ ← m; mret [].
Definition run_call (call : api_call) : M W (list (option bool)) :=
  match call with
  | LoadCall getenv => silent (RegisterQuackOauthSettings getenv state once)
  | SetOptionCall option scope value => silent (run_callback state option scope value)
  | CheckTokenCall1 tokens => CheckTokenScalarFun1 context state tokens
  | CheckTokenCall3 session_ids auth_strings => CheckTokenScalarFun3 context state session_ids auth_strings
  | CheckAuthorizationCall session_ids queries => CheckAuthorizationScalarFun context state session_ids queries
  | DiagnoseCall floor => silent (DiagnoseBind context state g_probe_cache floor)
  | AuditLogCall => silent (AuditLogBind state)
  | CurrentPrincipalCall => silent (CurrentPrincipalBind state)
  end.

(** The tokens of a call are in the history. *)
Definition admissible (call : api_call) : Prop :=
  match call with
  | CheckTokenCall1 tokens => rows_presented tokens None
  | CheckTokenCall3 session_ids auth_strings => rows_presented auth_strings (Some session_ids)
  | _ => True
  end.

(** What the answers of a call rest on. *)
Definition answers_sound (call : api_call) (out : list (option bool)) : Prop :=
  match call with
  | CheckTokenCall1 tokens | CheckTokenCall3 _ tokens => chunk_sound tokens out
  | CheckAuthorizationCall session_ids queries =>
      ∃ cfg, skew_ok cfg ∧ Forall2 (answer_sound session_backed cfg) (zip_with both session_ids queries) out
  | _ => out = []
  end.

Lemma silent_safe {A} (m : M W A) Q : safe SI m Q → safe SI (silent m) (λ out, out = []).
Proof. intros Hm. eapply safe_bind; [exact Hm|]. intros a _. by apply safe_ret. Qed.

Lemma silent_hoare {A} (m : M W A) : hoare SI m (λ _, SI) → safe SI (silent m) (λ out, out = []).
Proof. intros Hm. apply (silent_safe m (λ _, True)), safe_hoare. eapply hoare_post; [|exact Hm]. by split. Qed.

Lemma run_call_safe call : admissible call → safe SI (run_call call) (answers_sound call).
Proof.
  destruct call as [getenv|option scope v|tokens|sids auth|sids queries|floor| |]; intros Hcall; simpl.
  - apply silent_hoare, RegisterQuackOauthSettings_inv.
  - eapply silent_safe, run_callback_safe.
  - by apply CheckTokenScalarFun1_safe.
  - by apply CheckTokenScalarFun3_safe.
  - apply CheckAuthorizationScalarFun_safe.
  - apply silent_hoare, DiagnoseBind_inv.
  - apply silent_hoare, AuditLogBind_inv.
  - apply silent_hoare, CurrentPrincipalBind_inv.
Qed.

Lemma new_state_inv w getenv : ref_get state w = QuackOauthState_new getenv → F w → SI w.
Proof.
  intros Hw HF. unfold server_inv, Inv. rewrite Hw. split; [|by split]. constructor; simpl.
  - split; [by apply jc_wf_new|]. done.
  - by apply dc_justified_new.
  - apply map_Forall_empty.
  - rewrite map_size_empty. lia.
  - unfold ring_ok. simpl. lia.
Qed.
End statics.
End operations.
End server.
