(* ===== verification/Uniform.v ===== *)
(** * The calls are uniform in the world

    The code of the server reaches the world only through the state, DuckDB's context
    and the waiting for the mutex.  So when two worlds give related answers there, the
    calls of [Server] are related as a whole: [run_call_uniform], for any relation
    that respects how code is put together.  [Threads] uses it to compare the runs
    of one thread under different scripts, and a replay with a plain call. *)
From S2P Require Import Prelude CppString Executor StdList JwksCache Http DecisionCache AuditLog External Json JwtParse.
From S2P Require Import JwtVerify Validator Introspect UrlGuard Providers Policy DuckDb PolicyTable State Settings.
From S2P Require Import SqlAst SqlInspect CheckToken CheckAuthorization Diagnose Server.

Create HintDb uniform discriminated.

(** One construct of related code: a step, a case distinction, or a lemma about the
    function that is called. *)
Ltac uniform_step :=
  lazymatch goal with
  | |- ?R _ (mbind _ _) (mbind _ _) => apply cg_bind; [|intros ?]
  | |- ?R _ (mret _) (mret _) => apply (cg_ret R)
  | |- ?R _ (throw _) (throw _) => apply (cg_throw R)
  | |- ?R _ (lift _) (lift _) => apply cg_lift
  | |- ?R _ (M_fold _ _ _) (M_fold _ _ _) => apply (cg_fold R); intros ? ?
  | |- ?R _ (match ?x with _ => _ end) (match ?x with _ => _ end) => destruct x
  | |- ?R _ (gets (ref_get _)) (gets (ref_get _)) => apply (cg_object R)
  | |- ?R _ (ref_read _ _) (ref_read _ _) => apply (cg_read R)
  | |- ?R _ (ref_upd _ _) (ref_upd _ _) => apply (cg_upd R)
  | |- ?R _ (ref_call _ _) (ref_call _ _) => apply (cg_call R)
  | |- ?R _ (ref_run _ _) (ref_run _ _) => apply (cg_run R)
  | |- ?R _ (modify (ref_set _ _)) (modify (ref_set _ _)) => apply (cg_set R)
  | |- ?R _ (finally _ _) (finally _ _) => apply (cg_finally R)
  | |- ?R _ (with_guard _ _) (with_guard _ _) => unfold with_guard
  | |- same_object ?R (ref_comp _ _) (ref_comp _ _) => apply (same_object_comp R)
  | |- _ => solve [eauto with uniform nocore]
  end.
Ltac uniform := cbv zeta; repeat (uniform_step; cbv beta zeta).

Section uniform.
Context `{!Executor, !ExecutorUniform, !PicoJson, !JwtCpp, !OpenSsl, !Sha256, !UMapOrder, !DuckValues, !DuckParser}.
Context {V V' : Type} `{!Threads V, !Threads V'} (R : ∀ A, M V A → M V' A → Prop) `{!Congruent R, !CongruentCatch R}.

(** Clients and contexts that answer alike. *)
Record same_client (http : IHttpClient V) (http' : IHttpClient V') : Prop := {
  sc_get uri : R _ (Get http uri) (Get http' uri);
  sc_post request : R _ (Post http request) (Post http' request);
}.
Record same_context (context : ClientContext V) (context' : ClientContext V') : Prop := {
  sx_setting key : R _ (gets (cx_setting context key)) (gets (cx_setting context' key));
  sx_secret name : R _ (gets (@cx_GetSecretByName _ _ context name)) (gets (@cx_GetSecretByName _ _ context' name));
  sx_query sql : R _ (cx_Query context sql) (cx_Query context' sql);
  sx_execute sql params : R _ (cx_Execute context sql params) (cx_Execute context' sql params);
  sx_log level line : R _ (cx_log context level line) (cx_log context' level line);
  sx_http : same_client (cx_http context) (cx_http context');
  sx_sleep ms : R _ (cx_sleep context ms) (cx_sleep context' ms);
  sx_now : R _ (cx_now_s context) (cx_now_s context');
}.
#[local] Hint Resolve sc_get sc_post sx_setting sx_secret sx_query sx_execute sx_log sx_http sx_sleep sx_now : uniform.

Context (context : ClientContext V) (context' : ClientContext V') (Hcontext : same_context context context').
Context (state : Ref V QuackOauthState) (state' : Ref V' QuackOauthState) (Hstate : same_object R state state').
Hypothesis Hwait : R unit wait_mu wait_mu.

#[local] Hint Resolve Hcontext Hstate Hwait : uniform.

(** ** The mutex and the audit sink *)
Lemma lock_mu_uniform : R _ (lock_mu state) (lock_mu state').
Proof.
  unfold lock_mu. uniform_step; [apply (cg_get R _ _ Hstate)|]. uniform.
Qed.
Lemma unlock_mu_uniform : R _ (unlock_mu state) (unlock_mu state').
Proof.
  eapply (cg_ext (R:=R)); [..|apply (Hstate unit (λ s, if st_mu s then (Ret tt, Some (ref_set mu_ref false s))
    else (Throw StdException, None)))]; intros v; unfold unlock_mu, method; cbn; by destruct (st_mu _).
Qed.
#[local] Hint Resolve lock_mu_uniform unlock_mu_uniform : uniform.

Lemma TryOpenSecret_uniform name t : R _ (TryOpenSecret context name t) (TryOpenSecret context' name t).
Proof. unfold TryOpenSecret. uniform. Qed.
Lemma OpenSecret_uniform name t fn : R _ (OpenSecret context name t fn) (OpenSecret context' name t fn).
Proof. unfold OpenSecret. uniform. Qed.
#[local] Hint Resolve TryOpenSecret_uniform OpenSecret_uniform : uniform.

Lemma EmitAuditEvent_uniform e : R _ (EmitAuditEvent context state e) (EmitAuditEvent context' state' e).
Proof.
  unfold EmitAuditEvent, LookupAuditTable, InsertAuditRow. uniform.
Qed.
#[local] Hint Resolve EmitAuditEvent_uniform : uniform.

(** ** Settings *)
Lemma run_callback_uniform o scope v : R _ (run_callback state o scope v) (run_callback state' o scope v).
Proof. unfold run_callback, OnClockSkewSeconds, OnJwksMinRefreshSeconds. uniform. Qed.

(** ** check_token *)
Lemma LoadServerConfig_uniform : R _ (LoadServerConfig context) (LoadServerConfig context').
Proof.
  unfold LoadServerConfig, ReadServerConfigCore, ApplyProviderPreset, ReadStringSetting, ReadIntSetting. uniform.
Qed.
Lemma EnforcePlaintextGuard_uniform : R _ (EnforcePlaintextGuard context) (EnforcePlaintextGuard context').
Proof. unfold EnforcePlaintextGuard. uniform. Qed.
#[local] Hint Resolve LoadServerConfig_uniform EnforcePlaintextGuard_uniform : uniform.

Lemma RunWithRetries_uniform n delay sleep sleep' call call' :
  (∀ d, R _ (sleep d) (sleep' d)) → R _ call call' →
  R _ (RunWithRetries n delay (Some sleep) call) (RunWithRetries n delay (Some sleep') call').
Proof.
  intros Hsleep Hcall. unfold RunWithRetries. uniform_step; [done|]. generalize (Z.to_nat n) as k. intros k.
  match goal with |- R _ (retry_loop _ _ _ _ ?r) _ => generalize r as res end.
  intros res. revert delay res. induction k as [|k IH]; intros delay res; cbn [retry_loop]; uniform.
Qed.
Lemma unlocking_uniform {A} (m : M V A) (m' : M V' A) : R _ m m' → R _ (unlocking state m) (unlocking state' m').
Proof. intros Hm. unfold unlocking. uniform. Qed.

#[local] Hint Resolve RunWithRetries_uniform unlocking_uniform : uniform.

Lemma check_token_http_uniform : same_client (check_token_http context state) (check_token_http context' state').
Proof.
  split; intros; apply RunWithRetries_uniform; intros; cbn [Get Post UnlockingHttpClient]; uniform.
Qed.

Lemma EmitAuditsAndScrub_uniform token row now_s uri events :
  R _ (EmitAuditsAndScrub context state token row now_s uri events)
      (EmitAuditsAndScrub context' state' token row now_s uri events).
Proof. unfold EmitAuditsAndScrub, EmitTokenAudit. uniform. Qed.
Lemma LogThrottledEvents_uniform events now_s :
  R _ (LogThrottledEvents context state events now_s) (LogThrottledEvents context' state' events now_s).
Proof. unfold LogThrottledEvents, LogThrottledEvent. uniform. Qed.
#[local] Hint Resolve EmitAuditsAndScrub_uniform LogThrottledEvents_uniform : uniform.

(** *** The validators *)
Section validators.
Context (http : IHttpClient V) (http' : IHttpClient V') (Hhttp : same_client http http').
#[local] Hint Resolve Hhttp : uniform.

Section jwks.
Context (cache : Ref V JwksCache) (cache' : Ref V' JwksCache) (Hcache : same_object R cache cache') (uri : string).
#[local] Hint Resolve Hcache : uniform.
Local Abbreviation ctx := (mkValidateContext http cache uri).
Local Abbreviation ctx' := (mkValidateContext http' cache' uri).

Lemma CommitTargetKid_uniform kid id token alg keys opts out verified :
  R _ (CommitTargetKid kid id token alg keys opts ctx out verified)
      (CommitTargetKid kid id token alg keys opts ctx' out verified).
Proof. unfold CommitTargetKid, CommitAndAudit. uniform. Qed.
Lemma IngestSiblingKeys_uniform keys kid now_s :
  R _ (IngestSiblingKeys keys kid now_s ctx) (IngestSiblingKeys keys kid now_s ctx').
Proof. unfold IngestSiblingKeys. uniform. Qed.
Lemma FetchAndParseJwks_uniform kid opts out :
  R _ (FetchAndParseJwks kid opts ctx out) (FetchAndParseJwks kid opts ctx' out).
Proof. unfold FetchAndParseJwks. uniform. Qed.
#[local] Hint Resolve CommitTargetKid_uniform IngestSiblingKeys_uniform FetchAndParseJwks_uniform : uniform.

Lemma TryRefreshRotatedKid_uniform token kid alg opts out :
  R _ (TryRefreshRotatedKid token kid alg opts ctx out) (TryRefreshRotatedKid token kid alg opts ctx' out).
Proof. unfold TryRefreshRotatedKid, ReverifyAfterCommit. uniform. Qed.
Lemma ColdFetch_uniform token parsed opts :
  R _ (ColdFetch token parsed opts ctx) (ColdFetch token parsed opts ctx').
Proof. unfold ColdFetch, IngestAllKeys. uniform. Qed.
#[local] Hint Resolve TryRefreshRotatedKid_uniform ColdFetch_uniform : uniform.

Lemma ValidateToken_uniform token opts out :
  R _ (ValidateToken token opts ctx out) (ValidateToken token opts ctx' out).
Proof. unfold ValidateToken, CachedKid. uniform. Qed.
End jwks.

Section opaque.
Context (cache : Ref V DecisionCache) (cache' : Ref V' DecisionCache) (Hcache : same_object R cache cache').
#[local] Hint Resolve Hcache : uniform.

Lemma introspection_uniform token opts endpoint id secret issuer audience out :
  R _ (ValidateTokenViaIntrospection token opts (mkIntrospectContext http cache endpoint id secret issuer audience) out)
      (ValidateTokenViaIntrospection token opts (mkIntrospectContext http' cache' endpoint id secret issuer audience) out).
Proof.
  unfold ValidateTokenViaIntrospection, IntrospectToken.
  cbn [ic_http ic_decision_cache ic_endpoint ic_client_id ic_client_secret ic_expected_issuer ic_expected_audience]. uniform.
Qed.
Lemma tokeninfo_uniform token opts endpoint audience out :
  R _ (ValidateTokenViaTokeninfo token opts (mkTokeninfoContext http cache endpoint audience) out)
      (ValidateTokenViaTokeninfo token opts (mkTokeninfoContext http' cache' endpoint audience) out).
Proof.
  unfold ValidateTokenViaTokeninfo, QueryTokeninfo.
  cbn [tc_http tc_decision_cache tc_endpoint tc_expected_audience]. uniform.
Qed.
Lemma github_uniform token opts url id secret out :
  R _ (ValidateTokenViaGithubCheck token opts (mkGithubContext http cache url id secret) out)
      (ValidateTokenViaGithubCheck token opts (mkGithubContext http' cache' url id secret) out).
Proof.
  unfold ValidateTokenViaGithubCheck, github_request.
  cbn [gc_http gc_decision_cache gc_check_url gc_client_id gc_client_secret]. uniform.
Qed.
End opaque.
End validators.
#[local] Hint Resolve check_token_http_uniform ValidateToken_uniform introspection_uniform tokeninfo_uniform
  github_uniform same_object_comp : uniform.

Lemma row_validator_uniform cfg opts token :
  R _ (row_validator context state cfg opts token) (row_validator context' state' cfg opts token).
Proof. unfold row_validator, opaque_row, jwks_row. uniform. Qed.

Lemma RunValidationLoop_uniform tokens sids now_s uri validate validate' :
  (∀ token, R _ (validate token) (validate' token)) →
  R _ (RunValidationLoop context state tokens sids now_s uri validate)
      (RunValidationLoop context' state' tokens sids now_s uri validate').
Proof.
  intros Hvalidate. unfold RunValidationLoop. uniform_step; [|uniform]. destruct sids as [sids|].
  - unfold session_row. uniform; apply Hvalidate.
  - apply (ux_uniform _ _ (with_variable R _)). intros raw. unfold plain_row.
    apply cg_bind; [by apply (cg_local R)|]. intros rv. apply cg_bind; [apply (cg_variable R)|]. intros events.
    apply cg_bind; [apply (cg_local R); uniform|]. intros events'. apply cg_bind; [apply (cg_assign R)|]. intros [].
    apply (cg_ret (with_variable R _)).
Qed.
#[local] Hint Resolve row_validator_uniform RunValidationLoop_uniform : uniform.

Lemma ValidateChunk_uniform tokens sids :
  R _ (ValidateChunk context state tokens sids) (ValidateChunk context' state' tokens sids).
Proof. unfold ValidateChunk. uniform. Qed.
#[local] Hint Resolve ValidateChunk_uniform : uniform.

(** ** check_authorization *)
Lemma LoadPolicyFromTable_uniform table :
  R _ (LoadPolicyFromTable context table) (LoadPolicyFromTable context' table).
Proof. unfold LoadPolicyFromTable, DiscoverColumns. uniform. Qed.
#[local] Hint Resolve LoadPolicyFromTable_uniform : uniform.

Lemma ReadAuthzConfig_uniform : R _ (ReadAuthzConfig context) (ReadAuthzConfig context').
Proof. unfold ReadAuthzConfig, LookupPolicyTable, LookupDefaultAllow, LookupClockSkew. uniform. Qed.
Lemma authorize_query_uniform cfg sid query :
  R _ (authorize_query context state cfg sid query) (authorize_query context' state' cfg sid query).
Proof. unfold authorize_query, deny. uniform. Qed.
#[local] Hint Resolve ReadAuthzConfig_uniform : uniform.

(** ** Every call *)
Section statics.
Context (g_probe_cache : Ref V ProbeCache) (g_probe_cache' : Ref V' ProbeCache)
  (Hprobe : same_object R g_probe_cache g_probe_cache').
Context (once : Ref V (option Z)) (once' : Ref V' (option Z)) (Honce : same_object R once once').
#[local] Hint Resolve Hprobe Honce : uniform.

Lemma DiagnoseBind_uniform floor :
  R _ (DiagnoseBind context state g_probe_cache floor) (DiagnoseBind context' state' g_probe_cache' floor).
Proof.
  unfold DiagnoseBind, extension_row, read_probe_uri, probe_idp, ReadSetting, ProbeIdpReachability.
  cbn [Get RetryingHttpClient]. uniform.
Qed.
Lemma RegisterQuackOauthSettings_uniform getenv :
  R _ (RegisterQuackOauthSettings getenv state once) (RegisterQuackOauthSettings getenv state' once').
Proof. unfold RegisterQuackOauthSettings, SetStartupFloor. uniform. Qed.

#[local] Hint Resolve DiagnoseBind_uniform RegisterQuackOauthSettings_uniform run_callback_uniform : uniform.

Lemma run_call_uniform call :
  R _ (run_call context state g_probe_cache once call) (run_call context' state' g_probe_cache' once' call).
Proof.
  destruct call; cbn [run_call]; unfold silent.
  1,2,6: uniform.
  - unfold CheckTokenScalarFun1. uniform.
  - unfold CheckTokenScalarFun3. uniform.
  - unfold CheckAuthorizationScalarFun. uniform_step; [uniform|]. by apply bx_uniform; [|apply authorize_query_uniform].
  - unfold AuditLogBind. uniform.
  - unfold CurrentPrincipalBind. uniform.
Qed.
End statics.
End uniform.
