(* ===== verification/Threads.v ===== *)
(** * Threads of the server process

    Several calls at once.  A thread runs until it has to wait for the mutex, or asks
    the outside for something while it does not hold the mutex; there it is paused,
    any other thread may run, and it goes on in the world they leave.  Shared state is
    touched under the mutex only, so that these are all the points that matter.

    A call is a function of the world, not a coroutine, so a thread is its call, the
    world it started in and the worlds it was resumed in so far; running it on means
    to run the call again with the pauses answered from that script, up to the next
    pause ([segment]).  [pool] is a set of such threads over one world, [step] runs a
    segment of one of them.  The theorems hold in every pool that is reached, with no
    assumption but on the outside. *)
From S2P Require Import Prelude CppString Executor StdList JwksCache Http DecisionCache AuditLog External Toy Json JwtParse.
From S2P Require Import JwtVerify Validator Introspect UrlGuard Providers Policy DuckDb PolicyTable State Settings.
From S2P Require Import SqlAst SqlInspect CheckToken CheckAuthorization Diagnose Server Uniform.

(** ** A world with a record of the pauses *)
Section replay.
Context `{!DuckValues} {W : Type} (raw : ClientContext W) (state : Ref W QuackOauthState).

(** The world now, and the worlds in which the thread was paused. *)
Definition rworld : Type := W * list W.
Definition now_ref : Ref rworld W := mkRef fst (λ w rw, (w, rw.2)).
Definition rstate : Ref rworld QuackOauthState := ref_comp now_ref state.

(** The [n]-th pause ends in the [n]-th world of the script; after the script
    nothing happens in between. *)
Definition pause (script : list W) : M rworld unit := λ rw,
  (Ret tt, (default rw.1 (script !! length rw.2), rw.2 ++ [rw.1])).

(** A request to the outside; a held mutex keeps the others out. *)
Definition pausing (script : list W) {A} (m : M W A) : M rworld A :=
  held ← gets (λ rw, st_mu (ref_get rstate rw));
  _ ← (if (held : bool) then mret tt else pause script);
  local m.

Definition replay (script : list W) : ClientContext rworld :=
  mkClientContext (λ key rw, cx_setting raw key rw.1) (λ name rw, cx_GetSecretByName raw name rw.1)
    (λ entry, local (cx_RegisterSecret raw entry))
    (λ sql, pausing script (cx_Query raw sql))
    (λ sql params, pausing script (cx_Execute raw sql params))
    (λ level line, pausing script (cx_log raw level line))
    (mkHttp (λ uri, pausing script (Get (cx_http raw) uri)) (λ request, pausing script (Post (cx_http raw) request)))
    (λ ms, pausing script (cx_sleep raw ms))
    (pausing script (cx_now_s raw)).

#[export] Instance now_ref_laws : RefLaws now_ref.
Proof. by split; [..|intros []]. Qed.
End replay.
Arguments rworld W : clear implicits.

(** ** Comparing replays

    Relations between runs of the same code, for [run_call_uniform]. *)
Section comparisons.
Context `{!DuckValues} {W : Type} (raw : ClientContext W) (state : Ref W QuackOauthState).

(** Code that is not paused leaves the record alone. *)
Definition unpaused {A} (m : M (rworld W) A) : Prop := ∀ rw, (m rw).2.2 = rw.2.
Lemma unpaused_method {S A} (r : Ref W S) (f : S → exc A * option S) : unpaused (method (ref_comp now_ref r) f).
Proof. intros rw. unfold method. cbn. by destruct (f _) as [? []]. Qed.
Lemma unpaused_local {A} (m : M W A) : unpaused (local m).
Proof. intros rw. unfold local. by destruct (m rw.1). Qed.

(** *** One more resumption: the first [k] pauses are the same, and so is what
    happens before the next one. *)
Definition same_past (k : nat) A (m m' : M (rworld W) A) : Prop := ∀ rw,
  rw.2 `prefix_of` (m rw).2.2 ∧ rw.2 `prefix_of` (m' rw).2.2 ∧
  (m rw = m' rw ∨ ∃ l, length l = S k ∧ l `prefix_of` (m rw).2.2 ∧ l `prefix_of` (m' rw).2.2).

Lemma same_past_unpaused k A (m : M (rworld W) A) : unpaused m → same_past k A m m.
Proof. intros Hm rw. rewrite Hm. by split_and!; [..|left]. Qed.

#[export] Instance same_past_congruent k : Congruent (same_past k).
Proof.
  split.
  - intros A m n m' n' Hm Hm' Hn rw. rewrite Hm, Hm'. apply Hn.
  - intros A x. by apply same_past_unpaused.
  - intros A B m m' f f' Hm Hf rw. rewrite !M_bind_eq. destruct (Hm rw) as (Hg & Hg' & Hd).
    destruct Hd as [<-|(l & Hl & Hp & Hp')].
    + destruct (m rw) as [[a|e|] rw1]; cbn in *; [|split_and!; [done|done|by left]..].
      destruct (Hf a rw1) as (Hg1 & Hg1' & Hd1). split_and!; [by trans rw1.2..|exact Hd1].
    + assert (∀ (r : exc A) rw1 (g g' : A → M (rworld W) B), (∀ a, same_past k B (g a) (g' a)) →
        rw1.2 `prefix_of` (match r with Ret a => g a rw1 | Throw e => (Throw e, rw1) | Stuck => (Stuck, rw1) end).2.2 ∧
        rw1.2 `prefix_of` (match r with Ret a => g' a rw1 | Throw e => (Throw e, rw1) | Stuck => (Stuck, rw1) end).2.2)
        as Hgrow.
      { intros r rw1 g g' Hgg. destruct r as [a|e|]; [|done..]. destruct (Hgg a rw1) as (? & ? & _). done. }
      destruct (m rw) as [r rw1], (m' rw) as [r' rw1']. cbn in *.
      destruct (Hgrow r rw1 f f' Hf) as [Hf1 _], (Hgrow r' rw1' f f' Hf) as [_ Hf1'].
      split_and!; [by trans rw1.2|by trans rw1'.2|]. right. exists l. split_and!; [done|by trans rw1.2|by trans rw1'.2].
Qed.
#[export] Instance same_past_catch k : CongruentCatch (same_past k).
Proof.
  intros A m m' Hm rw. unfold catch. destruct (Hm rw) as (Hg & Hg' & [<-|(l & Hl & Hp & Hp')]).
  - destruct (m rw) as [[a|e|] rw1]; (split; [done|split; [done|by left]]).
  - destruct (m rw) as [[] rw1], (m' rw) as [[] rw1']; (split; [done|split; [done|right; by exists l]]).
Qed.

Lemma same_past_object k {S} (r : Ref W S) : same_object (same_past k) (ref_comp now_ref r) (ref_comp now_ref r).
Proof. intros A f. apply same_past_unpaused, unpaused_method. Qed.

Lemma same_past_pause s x : same_past (length s) unit (pause s) (pause (s ++ [x])).
Proof.
  intros [w l]. unfold pause. cbn. split_and!; [by apply prefix_app_r..|].
  destruct (decide (length l < length s)%nat) as [Hlt|Hge].
  - left. by rewrite lookup_app_l by done.
  - right. exists (take (S (length s)) (l ++ [w])). split_and!; [|apply prefix_take..].
    rewrite length_take_le; [done|]. rewrite length_app. simpl. lia.
Qed.

Lemma same_past_pausing s x {A} (m : M W A) : same_past (length s) A (pausing state s m) (pausing state (s ++ [x]) m).
Proof.
  unfold pausing. apply cg_bind; [by apply same_past_unpaused|]. intros held. apply cg_bind.
  - destruct held; [by apply same_past_unpaused|apply same_past_pause].
  - intros []. apply same_past_unpaused, unpaused_local.
Qed.

Lemma same_past_context s x :
  same_context (same_past (length s)) (replay raw state s) (replay raw state (s ++ [x])).
Proof. split; [..|split| |]; intros; by first [apply same_past_unpaused|apply same_past_pausing]. Qed.

(** *** Resumptions in the very world of the pause change nothing. *)
Definition agrees (s l : list W) : Prop := ∀ j x y, s !! j = Some x → l !! j = Some y → x = y.
Lemma agrees_prefix s l1 l2 : l1 `prefix_of` l2 → agrees s l2 → agrees s l1.
Proof. intros Hp Hs j x y Hx Hy. by eapply Hs, prefix_lookup_Some. Qed.

Definition undisturbed (s : list W) A (m m' : M (rworld W) A) : Prop := ∀ rw,
  rw.2 `prefix_of` (m' rw).2.2 ∧ (agrees s (m' rw).2.2 → m rw = m' rw).

Lemma undisturbed_unpaused s A (m : M (rworld W) A) : unpaused m → undisturbed s A m m.
Proof. intros Hm rw. by rewrite Hm. Qed.

#[export] Instance undisturbed_congruent s : Congruent (undisturbed s).
Proof.
  split.
  - intros A m n m' n' Hm Hm' Hn rw. rewrite Hm, Hm'. apply Hn.
  - intros A x. by apply undisturbed_unpaused.
  - intros A B m m' f f' Hm Hf rw. rewrite !M_bind_eq. destruct (Hm rw) as [Hg Heq].
    destruct (m' rw) as [[a|e|] rw1]; cbn in *; [|split; [done|]; intros Hs; by rewrite (Heq Hs)..].
    destruct (Hf a rw1) as [Hg1 Heq1]. split; [by trans rw1.2|]. intros Hs.
    rewrite (Heq (agrees_prefix _ _ _ Hg1 Hs)). by apply Heq1.
Qed.
#[export] Instance undisturbed_catch s : CongruentCatch (undisturbed s).
Proof.
  intros A m m' Hm rw. unfold catch. destruct (Hm rw) as [Hg Heq].
  destruct (m' rw) as [[a|e|] rw1]; (split; [done|]); intros Hs; by rewrite (Heq Hs).
Qed.
Lemma undisturbed_object s {S} (r : Ref W S) : same_object (undisturbed s) (ref_comp now_ref r) (ref_comp now_ref r).
Proof. intros A f. apply undisturbed_unpaused, unpaused_method. Qed.
Lemma undisturbed_pause s : undisturbed s unit (pause s) (pause []).
Proof.
  intros [w l]. unfold pause. cbn. split; [by apply prefix_app_r|]. intros Hs. rewrite lookup_nil. cbn.
  destruct (s !! length l) as [x|] eqn:Hx; [|done]. cbn. by rewrite (Hs _ x w Hx (list_lookup_middle _ _ _ _ eq_refl)).
Qed.
Lemma undisturbed_pausing s {A} (m : M W A) : undisturbed s A (pausing state s m) (pausing state [] m).
Proof.
  unfold pausing. apply cg_bind; [by apply undisturbed_unpaused|]. intros held. apply cg_bind.
  - destruct held; [by apply undisturbed_unpaused|apply undisturbed_pause].
  - intros []. apply undisturbed_unpaused, unpaused_local.
Qed.
Lemma undisturbed_context s : same_context (undisturbed s) (replay raw state s) (replay raw state []).
Proof. split; [..|split| |]; intros; by first [apply undisturbed_unpaused|apply undisturbed_pausing]. Qed.

(** *** Without resumptions, a replay is the plain call. *)
Definition erased A (m : M (rworld W) A) (m' : M W A) : Prop := ∀ rw, m' rw.1 = ((m rw).1, (m rw).2.1).

#[export] Instance erased_congruent : Congruent erased.
Proof.
  split.
  - intros A m n m' n' Hm Hm' Hn rw. rewrite Hm, Hm'. apply Hn.
  - by intros A x rw.
  - intros A B m m' f f' Hm Hf rw. rewrite !M_bind_eq. rewrite (Hm rw).
    destruct (m rw) as [[a|e|] rw1]; cbn; [apply Hf|done..].
Qed.
#[export] Instance erased_catch : CongruentCatch erased.
Proof. intros A m m' Hm rw. unfold catch. rewrite (Hm rw). by destruct (m rw) as [[]]. Qed.
Lemma erased_object {S} (r : Ref W S) : same_object erased (ref_comp now_ref r) r.
Proof. intros A f rw. unfold method. cbn. by destruct (f _) as [? []]. Qed.
Lemma erased_local {A} (m : M W A) : erased A (local m) m.
Proof. intros rw. unfold local. by destruct (m rw.1). Qed.
Lemma erased_pausing {A} (m : M W A) : erased A (pausing state [] m) m.
Proof.
  intros [w l]. unfold pausing. rewrite M_bind_eq. cbn. rewrite M_bind_eq. unfold local.
  destruct (st_mu _); cbn; rewrite ?lookup_nil; cbn; by destruct (m w).
Qed.
(** Code that only reads settings and secrets is the same in a replay, whatever the
    script. *)
Definition only_reads {V} (context : ClientContext V) : ClientContext V :=
  mkClientContext (cx_setting context) (@cx_GetSecretByName _ _ context) (λ _, mret tt) (λ _, mret None) (λ _ _, mret Executed)
    (λ _ _, mret tt) (mkHttp (λ _, mret None) (λ _, mret None)) (λ _, mret tt) (mret 0).
Lemma only_reads_replay s : same_context erased (only_reads (replay raw state s)) (only_reads raw).
Proof. split; [..|split| |]; intros; by intros rw. Qed.
Lemma LoadServerConfig_replay s rw :
  LoadServerConfig raw rw.1 = ((LoadServerConfig (replay raw state s) rw).1, (LoadServerConfig (replay raw state s) rw).2.1).
Proof. exact (LoadServerConfig_uniform erased _ _ (only_reads_replay s) rw). Qed.

Lemma erased_context : same_context erased (replay raw state []) raw.
Proof. split; [..|split| |]; intros; first [done|apply erased_pausing]. Qed.
End comparisons.

(** ** Threads, pools and their steps *)
Section pools.
Context `{!Executor, !PicoJson, !JwtCpp, !OpenSsl, !Sha256, !UMapOrder, !DuckValues, !DuckParser}.
Context {W : Type} (raw : ClientContext W) (state : Ref W QuackOauthState).
Context (g_probe_cache : Ref W ProbeCache) (once : Ref W (option Z)).
Context (h : History).

Record Thread : Type := mkThread {
  th_call : api_call;
  th_start : W;
  th_script : list W;
}.

Definition replayed (th : Thread) : exc (list (option bool)) * rworld W :=
  run_call (Threads0 := pause (th_script th)) (replay raw state (th_script th)) (rstate state)
    (ref_comp now_ref g_probe_cache) (ref_comp now_ref once) (th_call th) (th_start th, []).

(** Where the thread gets to: its next pause, or its end. *)
Inductive SegmentEnd : Type :=
  | Paused (w : W)
  | Finished (r : exc (list (option bool))) (w : W).
Definition segment (th : Thread) : SegmentEnd :=
  let '(r, rw) := replayed th in
  match rw.2 !! length (th_script th) with
  | Some w => Paused w
  | None => Finished r rw.1
  end.

Definition pool : Type := W * gmap nat Thread.

(** A call begins, or a paused thread is resumed in the world as it is now. *)
Definition begin (call : api_call) (w : W) : Thread := mkThread call w [].
Definition resume (th : Thread) (w : W) : Thread := mkThread (th_call th) (th_start th) (th_script th ++ [w]).
Inductive runnable (p : pool) (i : nat) : Thread → Prop :=
  | runnable_begin call : p.2 !! i = None → admissible h call → runnable p i (begin call p.1)
  | runnable_resume th : p.2 !! i = Some th → runnable p i (resume th p.1).

(** The world may also change on its own, as long as the state of the extension
    stays as it is: settings, secrets, tables, time. *)
Inductive step (p : pool) : pool → Prop :=
  | step_pause i th w' : runnable p i th → segment th = Paused w' → step p (w', <[i := th]> p.2)
  | step_finish i th r w' : runnable p i th → segment th = Finished r w' → step p (w', delete i p.2)
  | step_outside w' : ref_get state w' = ref_get state p.1 → step p (w', p.2).

(** From a process that has just started. *)
Definition reachable (p : pool) : Prop :=
  ∃ w getenv, ref_get state w = QuackOauthState_new getenv ∧ rtc step (w, ∅) p.

(** Schedules, to evaluate: what happens next. *)
Inductive action : Type :=
  | Begin (i : nat) (call : api_call)
  | Resume (i : nat)
  | Outside (f : W → W).
Definition run_thread (p : pool) (i : nat) (th : Thread) : pool * list (nat * exc (list (option bool))) :=
  match segment th with
  | Paused w => ((w, <[i := th]> p.2), [])
  | Finished r w => ((w, delete i p.2), [(i, r)])
  end.
Definition act (p : pool) (a : action) : pool * list (nat * exc (list (option bool))) :=
  match a with
  | Begin i call => match p.2 !! i with None => run_thread p i (begin call p.1) | Some _ => (p, []) end
  | Resume i => match p.2 !! i with None => (p, []) | Some th => run_thread p i (resume th p.1) end
  | Outside f => ((f p.1, p.2), [])
  end.
(** The pool after a schedule, and the threads that finished, in order. *)
Fixpoint run_schedule (p : pool) (l : list action) : pool * list (nat * exc (list (option bool))) :=
  match l with
  | [] => (p, [])
  | a :: l => let '(p1, out) := act p a in let '(p2, out') := run_schedule p1 l in (p2, out ++ out')
  end.

Definition action_ok (a : action) : Prop :=
  match a with
  | Begin _ call => admissible h call
  | Resume _ => True
  | Outside f => ∀ w, ref_get state (f w) = ref_get state w
  end.

Lemma act_steps p a : action_ok a → rtc step p (act p a).1.
Proof.
  assert (∀ i th, runnable p i th → rtc step p (run_thread p i th).1) as Hrun.
  { intros i th Hth. unfold run_thread. destruct (segment th) eqn:Hseg; apply rtc_once; cbn.
    - by apply step_pause.
    - by eapply step_finish. }
  destruct a as [i call|i|f]; cbn; intros Ha.
  - destruct (p.2 !! i) eqn:Hi; [done|]. by apply Hrun, runnable_begin.
  - destruct (p.2 !! i) eqn:Hi; [|done]. by apply Hrun, runnable_resume.
  - by apply rtc_once, step_outside.
Qed.

Lemma run_schedule_steps p l : Forall action_ok l → rtc step p (run_schedule p l).1.
Proof.
  intros Hl. revert p. induction Hl as [|a l Ha Hl IH]; intros p; cbn; [done|].
  pose proof (act_steps p a Ha) as Hact. destruct (act p a) as [p1 out]. specialize (IH p1).
  destruct (run_schedule p1 l) as [p2 out']. by etrans.
Qed.

(** ** A thread is one run of its call *)
Section continuity.
Context `{!ExecutorUniform}.

Definition pauses (th : Thread) : list W := (replayed th).2.2.

(** A resumed thread goes on from where it was paused: the replay with one more
    world comes through the same pauses up to the one it is resumed from. *)
Theorem resume_keeps_past th x :
  take (S (length (th_script th))) (pauses (resume th x)) = take (S (length (th_script th))) (pauses th).
Proof.
  pose proof (run_call_uniform (Threads0 := pause (th_script th)) (Threads1 := pause (th_script th ++ [x]))
    (same_past (length (th_script th))) _ _ (same_past_context raw state (th_script th) x) _ _ (same_past_object _ state)
    (same_past_pause _ x) _ _ (same_past_object _ g_probe_cache) _ _ (same_past_object _ once) (th_call th)
    (th_start th, [])) as (_ & _ & [Heq|(l & Hl & Hp & Hp')]); unfold pauses, replayed, rstate; cbn [resume th_script th_call th_start].
  - by rewrite Heq.
  - destruct Hp as [k ->], Hp' as [k' ->]. by rewrite <-Hl, !take_app_length.
Qed.

Lemma replayed_alone call w r w' :
  run_call (Threads0 := no_threads) raw state g_probe_cache once call w = (r, w') →
  ∃ l, ∀ n, replayed (mkThread call w (take n l)) = (r, (w', l)).
Proof.
  intros Hrun. exists (pauses (begin call w)).
  assert (replayed (begin call w) = (r, (w', pauses (begin call w)))) as Halone.
  { pose proof (run_call_uniform (Threads0 := pause []) (Threads1 := no_threads) erased _ _ (erased_context raw state) _ _
      (erased_object state) (λ _, eq_refl) _ _ (erased_object g_probe_cache) _ _ (erased_object once) call (w, [])) as Herased.
    cbn [fst] in Herased. rewrite Hrun in Herased. injection Herased as Hr Hw.
    rewrite Hr, Hw. unfold pauses, replayed, rstate. cbn [begin th_script th_call th_start].
    by rewrite <-!surjective_pairing. }
  intros n. rewrite <-Halone. set (l := pauses (begin call w)).
  apply (run_call_uniform (Threads0 := pause (take n l)) (Threads1 := pause [])
    (undisturbed (take n l)) _ _ (undisturbed_context raw state (take n l)) _ _ (undisturbed_object _ state)
    (undisturbed_pause _) _ _ (undisturbed_object _ g_probe_cache) _ _ (undisturbed_object _ once) call (w, [])).
  intros j x y Hx Hy. apply lookup_take_Some in Hx as [Hx _]. fold (rstate state) in Hy.
  change (l !! j = Some y) in Hy. congruence.
Qed.

(** A call that nothing interrupts is the sequential call: begun on a free id and
    resumed until it ends, it gives the outcome and the world of the plain call that
    waits for nobody. *)
Theorem uninterrupted_call (p : pool) i call r w' :
  p.2 !! i = None → run_call (Threads0 := no_threads) raw state g_probe_cache once call p.1 = (r, w') →
  ∃ n, run_schedule p (Begin i call :: repeat (Resume i) n) = ((w', p.2), [(i, r)]).
Proof.
  intros Hi (l & Hl)%replayed_alone. exists (length l). cbn [run_schedule act]. rewrite Hi.
  assert (∀ m n q, (n + m)%nat = length l → delete i q.2 = p.2 →
    (let '(p1, out) := run_thread q i (mkThread call p.1 (take n l)) in
     let '(p2, out') := run_schedule p1 (repeat (Resume i) m) in (p2, out ++ out')) = ((w', p.2), [(i, r)])) as Hgen.
  { induction m as [|m IH]; intros n q Hn Hq; unfold run_thread, segment; rewrite Hl; cbn [fst snd th_script];
      rewrite length_take_le by lia.
    - rewrite lookup_ge_None_2 by lia. cbn. by rewrite Hq.
    - destruct (lookup_lt_is_Some_2 l n) as [x Hx]; [lia|]. rewrite Hx. cbn [repeat run_schedule act snd fst].
      rewrite lookup_insert_eq. unfold resume. cbn [th_call th_start th_script]. rewrite <-take_S_r by done.
      specialize (IH (S n) (x, <[i := mkThread call p.1 (take n l)]> q.2)).
      cbn [snd fst] in IH. rewrite delete_insert_eq in IH.
      destruct (run_thread _ i _) as [p1 out]. destruct (run_schedule p1 _) as [p2 out']. apply IH; [lia|done]. }
  apply (Hgen (length l) 0%nat p); [done|]. by apply delete_id.
Qed.
End continuity.

(** ** The invariant of a pool *)
Section invariant.
Context `{!ExecutorLaws, !JwtCppTimes _, !DuckValuesTotal, !DuckParserLaws, !RefLaws state, !RefLaws g_probe_cache}.
Hypothesis probe_apart : ∀ c w, ref_get state (ref_set g_probe_cache c w) = ref_get state w.
Hypothesis once_apart : ∀ o w, ref_get state (ref_set once o w) = ref_get state w.

(** The outside returns, leaves the state of the extension alone, and what it gives
    is in the history: answers, the time, and the configurations that can be loaded. *)
Definition outside {A} (m : M W A) (Q : A → Prop) : Prop :=
  ∀ w, ∃ a w', m w = (Ret a, w') ∧ ref_get state w' = ref_get state w ∧ Q a.
Record raw_ok : Prop := {
  ro_get uri : outside (Get (cx_http raw) uri) (λ r, ∀ resp, r = Some resp → fetched h uri resp);
  ro_post request : outside (Post (cx_http raw) request) (λ r, ∀ resp, r = Some resp → answered h request resp);
  ro_sleep ms : outside (cx_sleep raw ms) (λ _, True);
  ro_now : outside (cx_now_s raw) (clocked h);
  ro_config w cfg w' : LoadServerConfig raw w = (Ret cfg, w') → configured h cfg;
  ro_expiries : expiries_fit h;
  ro_query sql : outside (cx_Query raw sql)
    (λ r, ∀ n rows, issued sql n → r = Some rows → Forall (λ row, length row = n) rows);
  ro_execute sql params : outside (cx_Execute raw sql params) (λ _, True);
  ro_log level line : outside (cx_log raw level line) (λ _, True);
}.
Hypothesis Hraw : raw_ok.

(** The invariant between segments: the mutex is free. *)
Definition process_inv (w : W) : Prop :=
  Inv state (good (published h)) (dc_justified (vouched h)) (session_backed h)
    (λ _, True) false w.

(** While a thread runs: so were the worlds it was paused in. *)
Definition pauses_ok (rw : rworld W) : Prop := Forall process_inv rw.2.
#[local] Instance pauses_frame : Frame (@now_ref W) pauses_ok.
Proof. by intros w rw. Qed.
Local Abbreviation SI := (server_inv (rstate state) h pauses_ok).

Lemma running_inv w l : SI false (w, l) ↔ process_inv w ∧ Forall process_inv l.
Proof. unfold server_inv, process_inv, Inv. cbn. tauto. Qed.

Lemma pause_inv script : Forall process_inv script → hoare (SI false) (pause script) (λ _, SI false).
Proof.
  intros Hscript [w l] [Hw Hl]%running_inv. exists tt. split; [done|]. cbn. apply running_inv. split.
  - destruct (script !! length l) as [w'|] eqn:Hw'; [|done]. exact (Forall_lookup_1 _ _ _ _ Hscript Hw').
  - by apply Forall_app_2; [|apply Forall_singleton].
Qed.

Lemma outside_inv {A} (m : M W A) Q b : outside m Q → hoare (SI b) (local m) (λ a rw, Q a ∧ SI b rw).
Proof.
  intros Hm [w l] (Hok & Hmu & Hl). destruct (Hm w) as (a & w' & Hr & Hsame & HQ). unfold wp, local. cbn. rewrite Hr.
  exists a. split; [done|]. split; [done|]. unfold server_inv, Inv in *. cbn in *. by rewrite Hsame.
Qed.

Lemma pausing_inv {A} script (m : M W A) Q b :
  Forall process_inv script → outside m Q → hoare (SI b) (pausing state script m) (λ a rw, Q a ∧ SI b rw).
Proof.
  intros Hscript Hm. unfold pausing.
  apply (hoare_bind _ _ _ (λ held rw, held = b ∧ SI b rw)); [intros rw Hrw; eexists; split; [done|]; split; [apply Hrw|done]|].
  intros held. apply hoare_pure. intros ->.
  apply (hoare_bind _ _ _ (λ _, SI b)); [destruct b; [by apply hoare_ret|by apply pause_inv]|]. intros [].
  by apply outside_inv.
Qed.

(** A replay is a world that the theorems about the calls speak of. *)
Lemma replay_world script :
  Forall process_inv script →
  world_ok (Threads0 := pause script) (replay raw state script) (rstate state) h pauses_ok.
Proof.
  intros Hscript.
  assert (∀ A (m : M W A) b Q, outside m Q → hoare (SI b) (pausing state script m) (λ _, SI b)) as Hany.
  { intros A m b Q Hm. eapply hoare_post; [|by apply pausing_inv]. by intros a w [_ Hw]. }
  split; [split|..]; intros; cbn.
  - eapply Hany, (ro_log Hraw).
  - eapply Hany, (ro_execute Hraw).
  - by apply pause_inv.
  - by apply pausing_inv, (ro_get Hraw).
  - by apply pausing_inv, (ro_post Hraw).
  - eapply Hany, (ro_sleep Hraw).
  - by apply pausing_inv, (ro_now Hraw).
  - pose proof (LoadServerConfig_replay raw state script w) as Heq.
    match goal with Hcfg : LoadServerConfig _ w = _ |- _ => rewrite Hcfg in Heq end. by apply (ro_config Hraw) in Heq.
  - by apply (ro_expiries Hraw).
  - eapply hoare_post; [|by apply pausing_inv, (ro_query Hraw)]. intros r w [Hr Hw]. split; [|done]. eauto.
Qed.

Definition thread_ok (th : Thread) : Prop :=
  admissible h (th_call th) ∧ process_inv (th_start th) ∧ Forall process_inv (th_script th).

Lemma replayed_ok th r rw :
  thread_ok th → replayed th = (r, rw) →
  process_inv rw.1 ∧ Forall process_inv rw.2 ∧ r ≠ Stuck ∧
  ∀ out, r = Ret out → answers_sound h (th_call th) out.
Proof.
  intros (Hcall & Hstart & Hscript) Hrun.
  pose proof (run_call_safe (Threads0 := pause (th_script th)) (replay raw state (th_script th)) (rstate state)
    h pauses_ok (replay_world _ Hscript) (ref_comp now_ref g_probe_cache) (ref_comp now_ref once)
    (λ c rw, probe_apart c rw.1) (λ o rw, once_apart o rw.1) _ Hcall) as Hsafe.
  destruct rw as [w l].
  destruct (safe_run _ _ _ _ _ _ Hsafe (proj2 (running_inv _ []) (conj Hstart (Forall_nil_2 _))) Hrun) as (Hw & Hns & Hout).
  apply running_inv in Hw as [Hw Hl]. by split_and!.
Qed.

(** What a segment ends in. *)
Definition segment_sound (th : Thread) (e : SegmentEnd) : Prop :=
  match e with
  | Paused w => process_inv w
  | Finished r w => process_inv w ∧ r ≠ Stuck ∧
      ∀ out, r = Ret out → answers_sound h (th_call th) out
  end.

Lemma segment_ok th : thread_ok th → segment_sound th (segment th).
Proof.
  intros Hth. unfold segment. destruct (replayed th) as [r rw] eqn:Hrun.
  destruct (replayed_ok th r rw Hth Hrun) as (Hw & Hl & Hr). destruct (rw.2 !! length (th_script th)) as [w|] eqn:Hp; cbn.
  - by eapply Forall_lookup_1.
  - by split.
Qed.

Definition pool_inv (p : pool) : Prop := process_inv p.1 ∧ map_Forall (λ _, thread_ok) p.2.

Lemma runnable_ok p i th : pool_inv p → runnable p i th → thread_ok th.
Proof.
  intros [Hw Hts] [call _ Hcall|th0 Hi]; [by split_and!|].
  destruct (Hts i th0 Hi) as (Hcall & Hstart & Hscript). split_and!; [done|done|].
  by apply Forall_app_2; [|apply Forall_singleton].
Qed.

Lemma step_inv p p' : pool_inv p → step p p' → pool_inv p'.
Proof.
  intros Hp Hstep. pose proof Hp as [Hw Hts]. destruct Hstep as [i th w' Hth Hseg|i th r w' Hth Hseg|w' Hsame].
  - pose proof (runnable_ok p i th Hp Hth) as Hok. pose proof (segment_ok th Hok) as Hend. rewrite Hseg in Hend.
    split; [exact Hend|]. by apply map_Forall_insert_2.
  - pose proof (segment_ok th (runnable_ok p i th Hp Hth)) as Hend. rewrite Hseg in Hend.
    split; [apply Hend|]. by apply map_Forall_delete.
  - split; [|done]. unfold process_inv, Inv in *. cbn. by rewrite Hsame.
Qed.

Lemma reachable_inv p : reachable p → pool_inv p.
Proof.
  intros (w & getenv & Hw & Hsteps).
  assert (pool_inv (w, ∅)) as Hinit.
  { split; [|apply map_Forall_empty]. by eapply (new_state_inv state h (λ _, True)). }
  clear Hw. revert Hinit. induction Hsteps as [|p p1 p2 Hstep _ IH]; [done|]. intros Hp. by eapply IH, step_inv.
Qed.

(** Claim C1.  The process as a whole, with no assumption but on the outside: calls
    begin at any time, any number run at once, and they are interleaved in any way
    at the points where a thread does not hold the mutex.  Whenever no thread runs,
    the mutex is free; every cached key was published for its kid by a JWKS endpoint;
    every cached decision is the principal of an answer about a token that was given
    to the server (or one with the same hash), by the endpoint of a valid
    configuration that was loaded, and passed the checks of its mode (issuer and
    audience of an introspection, audience and expiry of a tokeninfo answer, a 200
    with a user from GitHub); every session principal rests on such an answer or on a published key, for
    a token that was presented with that session; and the stores are within their
    bounds.  Every thread that can run gets to its next pause or its end, in such a
    world again: it neither locks the mutex twice nor runs into undefined behaviour,
    and what it answers is sound.  Of the issuers it is assumed that the expiries
    they announce leave room to add the skew in 64 bits: the code does not check. *)
Theorem server_invariant p :
  reachable p →
  Inv state (good (published h)) (dc_justified (vouched h)) (session_backed h)
    (λ _, True) false p.1 ∧
  ∀ i th, runnable p i th → segment_sound th (segment th).
Proof.
  intros Hp%reachable_inv. split; [apply Hp|]. intros i th Hth. by eapply segment_ok, runnable_ok.
Qed.

(** Claim C2.  The two SQL functions together: however the calls of the process are
    interleaved, a query is let through only in a session for which a token was
    presented with evidence, under a valid configuration that was loaded.  In JWKS
    mode the evidence is a key that the configured endpoint published for the
    token's kid and by which the token passes the configured checks.  In the other
    modes it is an answer about the token: from the endpoint of the configuration,
    with its credentials, which passed the checks of its mode; or a decision of that
    kind that was cached for the hash of the token, under a configuration loaded
    earlier.  The session's principal is the one the evidence
    gives, and is not expired; and the inspection accounts for the query and the
    policy that the call read permits it to this principal. *)
Theorem allowed_query_provenance p i th session_ids queries out w' :
  reachable p → runnable p i th → th_call th = CheckAuthorizationCall session_ids queries →
  segment th = Finished (Ret out) w' →
  ∃ cfg rw1, ReadAuthzConfig (replay raw state (th_script th)) (th_start th, []) = (Ret cfg, rw1) ∧
    ∀ j sid query, session_ids !! j = Some (Some sid) → queries !! j = Some (Some query) → out !! j = Some (Some true) →
      allowed_provenance h cfg sid query.
Proof.
  intros Hp%reachable_inv Hth Hcall Hseg. pose proof (runnable_ok p i th Hp Hth) as (_ & Hstart & Hscript).
  unfold segment in Hseg. destruct (replayed th) as [r rw] eqn:Hrun. destruct (rw.2 !! _); [done|].
  injection Hseg as -> <-. unfold replayed in Hrun. rewrite Hcall in Hrun.
  eapply (allowed_query (Threads0 := pause (th_script th)) (replay raw state (th_script th)) (rstate state)
    h pauses_ok (replay_world _ Hscript)); [|exact Hrun].
  apply running_inv. by split.
Qed.
End invariant.
End pools.

(** ** Evaluations *)
Section evaluations.
#[local] Existing Instance flat_executor.
#[local] Existing Instance flat_executor_laws.
#[local] Existing Instance toy_json.
#[local] Existing Instance toy_jwt.
#[local] Existing Instance toy_jwt_times.
#[local] Existing Instance toy_ssl.
#[local] Existing Instance toy_duck.
#[local] Existing Instance toy_parser.
#[local] Existing Instance toy_parser_laws.
#[local] Existing Instance um_canonical.
#[local] Instance toy_sha_server : Sha256 := toy_sha true.

Lemma toy_duck_total : DuckValuesTotal.
Proof. by split; intros []. Qed.
#[local] Existing Instance toy_duck_total.

(** A process with its static variables, and the time. *)
Definition sworld : Type := QuackOauthState * ProbeCache * option Z * Z.
Definition sw_state : Ref sworld QuackOauthState := mkRef (λ w, w.1.1.1) (λ s w, (s, w.1.1.2, w.1.2, w.2)).
Definition sw_probe : Ref sworld ProbeCache := mkRef (λ w, w.1.1.2) (λ c w, (w.1.1.1, c, w.1.2, w.2)).
Definition sw_once : Ref sworld (option Z) := mkRef (λ w, w.1.2) (λ o w, (w.1.1, o, w.2)).
#[local] Instance sw_state_laws : RefLaws sw_state.
Proof. by split; intros; repeat match goal with w : sworld |- _ => destruct w as [[[]]] end. Qed.
#[local] Instance sw_probe_laws : RefLaws sw_probe.
Proof. by split; intros; repeat match goal with w : sworld |- _ => destruct w as [[[]]] end. Qed.

(** A secret for JWKS mode, and an endpoint that serves one document. *)
Definition server_context : ClientContext sworld :=
  mkClientContext (λ key _, assoc key toy_settings)
    (λ name _, if seqb name "srv" then Some toy_server_secret else None) (λ _, mret tt)
    (λ _, mret None) (λ _ _, mret Executed) (λ _ _, mret tt)
    (mkHttp (λ _, mret (Some (mkResponse 200 "jwks-n1"))) (λ _, mret None)) (λ _, mret tt) (gets snd).
Definition early_token : string := "RS256/a/n1/idp/app/1100/quack:read".
Definition late_token : string := "RS256/a/n1/idp/app/9000/quack:read".
(** One document, no answers to POST requests, one configuration, two tokens. *)
Definition toy_history : History :=
  mkHistory (λ uri resp, resp = mkResponse 200 "jwks-n1") (λ _ _, False) (λ cfg, cfg = toy_config) (λ _, True)
    (λ raw, raw = early_token ∨ raw = late_token) (λ _ raw, raw = early_token ∨ raw = late_token).

Definition server_start : sworld := (toy_state, ProbeCache_default, None, 1000).
Definition login (sid token : string) : api_call := CheckTokenCall3 [Some sid] [Some token].
Definition query (sid : string) : api_call := CheckAuthorizationCall [Some sid] [Some "read"].
Definition clock (now : Z) : action (W:=sworld) := Outside (λ w, (w.1, now)).
Definition run (l : list action) : pool * list (nat * exc (list (option bool))) :=
  run_schedule server_context sw_state sw_probe sw_once (server_start, ∅) l.

(** [n] rounds in which these threads take turns. *)
Definition turns (n : nat) (l : list nat) : list (action (W:=sworld)) := mjoin (repeat (Resume <$> l) n).
(** A call with nothing in between. *)
Definition alone (i : nat) (call : api_call) : list (action (W:=sworld)) := Begin i call :: turns 12 [i].

(** Two logins take turns, neither inside a pause of the other.  The fetch of the
    first has used up the budget when the second looks for the key, which is why the
    second is refused although its token is good; two queries follow, interleaved too. *)
Example overlapping_logins :
  (let '(p, out) := run ([Begin 1 (login "s1" early_token); Begin 2 (login "s2" late_token)] ++ turns 12 [1; 2]%nat
                         ++ [Begin 3 (query "s1"); Begin 4 (query "s2")] ++ turns 12 [3; 4]%nat) in
   (out, size p.2, size (st_session_principals (ref_get sw_state p.1)))) =
  ([(2, Ret [Some false]); (1, Ret [Some true]); (3, Ret [Some true]); (4, Ret [Some false])]%nat, 0%nat, 1%nat).
Proof. vm_compute. reflexivity. Qed.

(** A session whose principal has expired, renewed with a new token. *)
Definition expired_session : list (action (W:=sworld)) := alone 1 (login "s1" early_token) ++ [clock 3000].
Example renewal_before_query :
  (run (expired_session ++ alone 2 (login "s1" late_token) ++ alone 3 (query "s1"))).2 =
  [(1, Ret [Some true]); (2, Ret [Some true]); (3, Ret [Some true])]%nat.
Proof. vm_compute. reflexivity. Qed.
(** The same renewal, between the moment a query finds the expired principal and the
    moment it erases the session: it erases the new principal, and the session is
    unknown although its token is good. *)
Example renewal_lost :
  (run (expired_session ++ Begin 3 (query "s1") :: turns 2 [3]%nat ++ alone 2 (login "s1" late_token)
        ++ turns 12 [3]%nat ++ alone 4 (query "s1"))).2 =
  [(1, Ret [Some true]); (2, Ret [Some true]); (3, Ret [Some false]); (4, Ret [Some false])]%nat.
Proof. vm_compute. reflexivity. Qed.
Lemma toy_raw_ok : raw_ok server_context sw_state toy_history.
Proof.
  split; intros.
  5: { match goal with Hcfg : LoadServerConfig _ _ = _ |- _ => vm_compute in Hcfg; injection Hcfg as <- _ end. reflexivity. }
  5: { by intros request resp []. }
  all: intros w; eexists _, w; (split; [reflexivity|]); (split; [reflexivity|]); try done.
  by intros resp [= <-].
Qed.

Lemma login_ok sid token : token = early_token ∨ token = late_token → admissible toy_history (login sid token).
Proof.
  intros Htoken. split; [by intros raw [= ->]%list_elem_of_singleton|]. split; [done|].
  by intros raw sid' [= -> ->]%list_elem_of_singleton.
Qed.

Lemma turns_ok n l : Forall (action_ok sw_state toy_history) (turns n l).
Proof.
  unfold turns. induction n as [|n IH]; cbn; [done|]. apply Forall_app_2; [|done]. by apply Forall_fmap, Forall_true.
Qed.

(** A session, and a query in it that has one segment to go. *)
Definition midway : pool := (run (alone 1 (login "s1" early_token) ++ Begin 3 (query "s1") :: turns 3 [3%nat])).1.
Lemma midway_reachable : reachable server_context sw_state sw_probe sw_once toy_history midway.
Proof.
  exists server_start, (λ _, None). split; [reflexivity|]. apply run_schedule_steps.
  apply Forall_app_2; constructor; [by apply login_ok; left|apply turns_ok|done|apply turns_ok].
Qed.
Definition last_segment : option (SegmentEnd (W:=sworld)) :=
  (λ th, segment server_context sw_state sw_probe sw_once (resume th midway.1)) <$> midway.2 !! 3%nat.
Definition answer_of (e : option (SegmentEnd (W:=sworld))) : option (exc (list (option bool))) :=
  match e with Some (Finished r _) => Some r | _ => None end.
Lemma last_answer : answer_of last_segment = Some (Ret [Some true]).
Proof. vm_compute. reflexivity. Qed.

Lemma server_invariant_witness :
  ∃ th, runnable toy_history midway 3 th ∧
    segment_sound sw_state toy_history th (segment server_context sw_state sw_probe sw_once th).
Proof.
  pose proof last_answer as Hlast. unfold last_segment in Hlast.
  destruct (midway.2 !! 3%nat) as [th|] eqn:Hth; [|discriminate Hlast].
  exists (resume th midway.1). assert (runnable toy_history midway 3 (resume th midway.1)) as Hrun by (by constructor).
  split; [exact Hrun|].
  exact (proj2 (server_invariant server_context sw_state sw_probe sw_once toy_history
    ltac:(done) ltac:(done) toy_raw_ok midway midway_reachable) 3%nat _ Hrun).
Defined.

Lemma allowed_query_provenance_witness :
  ∃ cfg, allowed_provenance toy_history cfg "s1" "read".
Proof.
  pose proof last_answer as Hlast. unfold last_segment in Hlast.
  destruct (midway.2 !! 3%nat) as [th|] eqn:Hth; [|discriminate Hlast]. cbn [fmap option_fmap option_map answer_of] in Hlast.
  assert (runnable toy_history midway 3 (resume th midway.1)) as Hrun by (by constructor).
  assert (th_call th = query "s1") as Hcall.
  { assert (th_call <$> midway.2 !! 3%nat = Some (query "s1")) as Hc by (vm_compute; reflexivity).
    rewrite Hth in Hc. by injection Hc. }
  destruct (segment server_context sw_state sw_probe sw_once (resume th midway.1)) as [|r w'] eqn:Hseg; [discriminate Hlast|].
  injection Hlast as ->.
  destruct (allowed_query_provenance server_context sw_state sw_probe sw_once toy_history
    ltac:(done) ltac:(done) toy_raw_ok midway 3%nat _ [Some "s1"] [Some "read"] [Some true] w' midway_reachable Hrun Hcall Hseg)
    as (cfg & rw1 & _ & Hall).
  exists cfg. exact (Hall 0%nat "s1" "read" eq_refl eq_refl eq_refl).
Defined.
End evaluations.
