(* ===== verification/Catalog.v ===== *)
(** * What the extension registers ([src/quack_oauth_extension.cpp] and the
      [Register...] functions)

    A load makes calls on DuckDB's loader; they are collected in order.  A column
    of arguments is the list of its rows, NULL being [None]: every scalar function
    takes strings only.  A function is registered with the types of its arguments
    and results, and DuckDB reads its columns at those types: that what the code
    writes has them is the theorem of this file. *)
From S2P Require Import Prelude CppString Executor StdList JwksCache Http DecisionCache AuditLog External UrlGuard Policy DuckDb Introspect.
From S2P Require Import Acquire PolicyTable State Settings SqlAst SqlInspect CheckToken CheckAuthorization Diagnose Toy.

(** ** DuckDB's vocabulary *)
Inductive FunctionStability : Type := CONSISTENT | VOLATILE.
Inductive FunctionErrors : Type := CANNOT_ERROR | CAN_THROW_RUNTIME_ERROR.
Record FunctionDescription : Type := mkFunctionDescription {
  fd_description : string;
  fd_parameter_names : list string;
  fd_parameter_types : list LogicalType;
  fd_examples : list string;
  fd_categories : list string;
}.

Section catalog.
Context `{!DuckValues} {W : Type}.

Record ScalarFunction : Type := mkScalarFunction {
  sf_arguments : list LogicalType;
  sf_return_type : LogicalType;
  sf_function : list Column → M W (list (option DValue));
  sf_stability : FunctionStability;
  sf_errors : FunctionErrors;
}.
(** The constructor's defaults, and the two setters every function goes through. *)
Definition ScalarFunction_new (arguments : list LogicalType) (return_type : LogicalType)
    (function : list Column → M W (list (option DValue))) : ScalarFunction :=
  mkScalarFunction arguments return_type function CONSISTENT CANNOT_ERROR.
Definition SetStability (fn : ScalarFunction) (s : FunctionStability) : ScalarFunction :=
  mkScalarFunction (sf_arguments fn) (sf_return_type fn) (sf_function fn) s (sf_errors fn).
Definition SetFallible (fn : ScalarFunction) : ScalarFunction :=
  mkScalarFunction (sf_arguments fn) (sf_return_type fn) (sf_function fn) (sf_stability fn) CAN_THROW_RUNTIME_ERROR.

(** A table function: the columns its bind phase declares, and bind followed by
    scans until a chunk is empty. *)
Record TableFunction : Type := mkTableFunction {
  tf_name : string;
  tf_arguments : list LogicalType;
  tf_names : list string;
  tf_return_types : list LogicalType;
  tf_run : list DValue → M W (list (list DValue));
}.
Record CreateSecretFunction : Type := mkCreateSecretFunction {
  cs_secret_type : string;
  cs_provider : string;
  cs_function : CreateSecretInput → exc KeyValueSecret;
  cs_named_parameters : list (string * LogicalType);
}.

Inductive LoaderCall : Type :=
  | TelemetrySetAPIKey (key : string)
  | TelemetrySetProduct (product version edition : string)
  | TelemetryAssociateGroup (group key : string)
  | TelemetryCaptureExtensionLoad (extension version : string)
  | AddExtensionOption (o : ExtensionOption)
  | RegisterSecretType (name default_provider : string)
  | RegisterCreateSecret (f : CreateSecretFunction)
  | RegisterScalar (name : string) (overloads : list ScalarFunction) (descriptions : list FunctionDescription)
  | RegisterTable (f : TableFunction) (description : FunctionDescription)
  | RegisterBannerOption
  | ShowBanner (name version url : string).

(** [args.data[i]] *)
Definition arg (args : list Column) (i : nat) : M W Column := lift (defined (args !! i)).
Definition varchar_result (l : list (option string)) : list (option DValue) := option_map dv_of_string <$> l.
Definition boolean_result (l : list (option bool)) : list (option DValue) := option_map dv_of_bool <$> l.

(** Scans until a chunk is empty; the fuel is enough by [drain_from]. *)
Definition scan_all {R} (emit : R → list DValue) (rows : list R) : M W (list (list DValue)) :=
  chunks ← lift (defined (drain emit (S (length rows)) rows 0));
  mret (mjoin chunks).
End catalog.
Arguments ScalarFunction {_} W.
Arguments TableFunction {_} W.
Arguments LoaderCall {_} W.

(** ** The descriptions *)
Definition login_description : FunctionDescription := mkFunctionDescription
  ("Run an RFC 6749 §4.4 client_credentials flow against the token endpoint of the "
    +:+ "named quack_oauth SECRET. POSTs the SECRET's token_endpoint with "
    +:+ "grant_type=client_credentials, persists the resulting access_token, "
    +:+ "refresh_token (if any), and expires_at back onto the SECRET, and returns the "
    +:+ "ISO-8601 expires_at timestamp. Use for machine-to-machine (service account) flows.")
  ["secret_name"] [VARCHAR]
  ["SELECT quack_oauth_login('my_client_secret')"]
  ["quack_oauth"].
Definition logout_description : FunctionDescription := mkFunctionDescription
  ("Clears access_token, refresh_token, and expires_at on the named "
    +:+ "TYPE=quack_oauth SECRET (R-C-8). Returns true. The RFC 7009 "
    +:+ "revocation-endpoint call is a SHOULD in the spec and is deferred -- "
    +:+ "this version only does the local field clear. Use after a user "
    +:+ "explicitly logs out so a stolen refresh_token cannot be reused.")
  ["secret_name"] [VARCHAR]
  ["SELECT quack_oauth_logout('my_client_secret')"]
  ["quack_oauth"].
Definition refresh_description : FunctionDescription := mkFunctionDescription
  ("Run an RFC 6749 §6 refresh_token grant against the token endpoint of the named "
    +:+ "quack_oauth SECRET. Reads token_endpoint + client_id [+ client_secret] + "
    +:+ "refresh_token from the SECRET, POSTs grant_type=refresh_token, and persists the "
    +:+ "rotated access_token + refresh_token (if returned) + expires_at back onto the "
    +:+ "SECRET, and returns the ISO-8601 expires_at timestamp. Supports both public and confidential clients.")
  ["secret_name"] [VARCHAR]
  ["SELECT quack_oauth_refresh('my_client_secret')"]
  ["quack_oauth"].
Definition device_login_description : FunctionDescription := mkFunctionDescription
  ("Run an RFC 8628 device authorization flow against the named quack_oauth SECRET. "
    +:+ "Requests a device + user code, prints the verification URL + user_code to stderr "
    +:+ "for the operator to visit on a second device, then polls the token endpoint with "
    +:+ "RFC 8628 §3.5 error handling (pending / slow_down back-off / access_denied / "
    +:+ "expired_token). On success persists access_token + refresh_token + expires_at "
    +:+ "back onto the SECRET and returns the ISO-8601 expires_at timestamp. Use for interactive auth on "
    +:+ "input-constrained devices.")
  ["secret_name"] [VARCHAR]
  ["SELECT quack_oauth_device_login('my_client_secret')"]
  ["quack_oauth"].
Definition acquire_description : FunctionDescription := mkFunctionDescription
  ("One-stop client-side OAuth orchestrator (R-C-2 + R-C-4). Reads the "
    +:+ "named TYPE=quack_oauth SECRET, decides the right flow from what's "
    +:+ "available -- a fresh cached `access_token` short-circuits; "
    +:+ "otherwise tries `refresh_token` grant, then `client_credentials`, "
    +:+ "then RFC 8628 device_code -- runs it, persists rotated tokens "
    +:+ "back onto the SECRET, and returns the access_token. Designed to "
    +:+ "be threaded into ATTACH: "
    +:+ "`ATTACH 'quack:host:port' AS rs (TYPE quack, token quack_oauth_acquire('cli'))`. "
    +:+ "Honours `quack_oauth_renew_skew_s` (default 60 s) -- ATs within "
    +:+ "the skew window of expiry are treated as stale and re-minted.")
  ["secret_name"] [VARCHAR]
  ["SELECT quack_oauth_acquire('my_client')"; "ATTACH 'quack:rs.example.com:9494' AS rs (TYPE quack, token quack_oauth_acquire('cli'))"]
  ["quack_oauth"].
Definition check_token_description1 : FunctionDescription := mkFunctionDescription
  ("Validate an OAuth 2.1 / OIDC access token against the active quack_oauth_server "
    +:+ "SECRET. Returns true if the token verifies (JWKS-mode signature check, RFC 7662 "
    +:+ "introspection, or Google-style tokeninfo per global setting quack_oauth_validation_mode "
    +:+ "or provider preset).")
  ["token"] [VARCHAR]
  ["SELECT quack_oauth_check_token('eyJhbGciOi...')"]
  ["quack_oauth"].
Definition check_token_description3 : FunctionDescription := mkFunctionDescription
  ("3-argument form matching quack's quack_check_token callback signature. "
    +:+ "Validates client token in auth_string (arg 2) after stripping optional Bearer prefix (ignoring quack's "
    +:+ "internal PSK in arg 3) AND caches the extracted Principal keyed by session_id (arg 1) so a subsequent "
    +:+ "quack_oauth_check_authorization() call can apply policies. Wired into quack via `SET "
    +:+ "quack_authentication_function = 'quack_oauth_check_token'`.")
  ["session_id"; "auth_string"; "token"] [VARCHAR; VARCHAR; VARCHAR]
  ["SELECT quack_oauth_check_token('sess-1', 'Bearer eyJhbGciOi...', '')"]
  ["quack_oauth"].
Definition check_authorization_description : FunctionDescription := mkFunctionDescription
  ("Authorize a query for a session whose Principal was previously cached by "
    +:+ "quack_oauth_check_token(). Parses the SQL with DuckDB's parser, classifies the "
    +:+ "action (Attach / Scan / Insert / Update / Delete / Ddl / Pragma / CopyTo / CopyFrom / "
    +:+ "ServeAdmin) and enumerates the referenced objects + columns, then evaluates the "
    +:+ "policy: either the SQL-native rules in the table named by `policy_table` on the "
    +:+ "active quack_oauth_server SECRET (rules can target subject / scope / action / "
    +:+ "object_pattern / column_pattern), or the default scope-based policy (quack:read → "
    +:+ "Attach + Scan; quack:write → also Insert/Update/Delete/CopyTo/CopyFrom; admin "
    +:+ "actions always denied). Returns false for unknown session_id, policy_table load "
    +:+ "failure, parser failure, or any policy deny. Wired into quack via "
    +:+ "`SET quack_authorization_function = 'quack_oauth_check_authorization'`.")
  ["session_id"; "query_string"] [VARCHAR; VARCHAR]
  ["SELECT quack_oauth_check_authorization('sess-1', 'SELECT * FROM t')"; "SELECT quack_oauth_check_authorization('sess-1', 'COPY t TO ''out.csv''')"]
  ["quack_oauth"].
Definition diagnose_description : FunctionDescription := mkFunctionDescription
  ("Health and configuration snapshot for the quack_oauth extension. Returns one row "
    +:+ "per component (extension, jwks_cache, decision_cache, session_principals, "
    +:+ "recent_decisions) with a status and a free-form `detail` string of key=value "
    +:+ "pairs. Use to verify that a freshly-loaded extension is configured and that the "
    +:+ "caches behave (R-N-13).")
  [] []
  ["SELECT * FROM quack_oauth_diagnose()"]
  ["quack_oauth"].
Definition current_principal_description : FunctionDescription := mkFunctionDescription
  ("Returns the per-session Principal cache as a typed table (R-S-6): "
    +:+ "one row per active session_id with subject, issuer, scopes "
    +:+ "(VARCHAR[]), and exp (BIGINT unix seconds). Populated by the "
    +:+ "3-arg form of quack_oauth_check_token. Useful for ops "
    +:+ "introspection -- e.g. `SELECT * FROM quack_oauth_current_principal() "
    +:+ "WHERE exp < epoch(now())` shows stale entries that should be "
    +:+ "expired.")
  [] []
  ["SELECT * FROM quack_oauth_current_principal()"]
  ["quack_oauth"].
Definition audit_log_description : FunctionDescription := mkFunctionDescription
  ("Returns the in-memory audit ring (last N auth decisions) as a typed table. "
    +:+ "Columns: timestamp_unix_s BIGINT, event_type VARCHAR, subject VARCHAR, "
    +:+ "issuer VARCHAR, kid VARCHAR, token_hash VARCHAR, action VARCHAR, reason VARCHAR. "
    +:+ "`token_hash` is the 8-hex-char SHA-256 prefix of the raw token; the raw token "
    +:+ "is never exposed. For persistent audit, set `audit_table` on the server SECRET.")
  [] []
  ["SELECT * FROM quack_oauth_audit_log() ORDER BY timestamp_unix_s DESC LIMIT 20"]
  ["quack_oauth"].
Definition inspect_sql_description : FunctionDescription := mkFunctionDescription
  ("Parses a SQL string and returns what the authorization layer would gate on: "
    +:+ "action VARCHAR, objects VARCHAR[], columns VARCHAR[], unsafe BOOLEAN, error VARCHAR. "
    +:+ "Objects are `schema.table` for base tables and views, or `fn:<name>` for table "
    +:+ "functions (`fn:read_csv`). Catalog metadata -- information_schema.*, pg_catalog.*, "
    +:+ "and the duckdb_* family -- is not gated, except duckdb_secrets / duckdb_settings, "
    +:+ "which carry credentials. `unsafe` marks SQL that fails closed. The statement is "
    +:+ "only parsed, never executed, and no policy is consulted -- use it to see why a "
    +:+ "query was denied, or which object_pattern a rule needs.")
  ["sql"] [VARCHAR]
  ["SELECT * FROM quack_oauth_inspect_sql('SELECT a FROM t')"]
  ["quack_oauth"].

(** ** Functions and their registration *)
Section extension.
Context `{!Executor, !PicoJson, !JwtCpp, !OpenSsl, !Sha256, !UMapOrder, !DuckValues, !DuckParser}.
Context {W : Type} `{!Threads W} (context : ClientContext W) (env : DeviceEnv W).
Context (state : Ref W QuackOauthState) (g_probe_cache : Ref W ProbeCache) (once : Ref W (option Z)).
Context (getenv : string → option string).
(** [EXT_VERSION_QUACK_OAUTH], and PostHog's identifier of the machine. *)
Context (ext_version : option string) (distinct_id : string).

Definition LoginScalarFun (args : list Column) : M W (list (option DValue)) :=
  c ← arg args 0; out ← ux_Execute (DoLogin context) c; mret (varchar_result out).
Definition LogoutScalarFun (args : list Column) : M W (list (option DValue)) :=
  c ← arg args 0; out ← ux_Execute (DoLogout context) c; mret (boolean_result out).
Definition RefreshScalarFun (args : list Column) : M W (list (option DValue)) :=
  c ← arg args 0; out ← ux_Execute (DoRefresh context) c; mret (varchar_result out).
Definition DeviceLoginScalarFun (args : list Column) : M W (list (option DValue)) :=
  c ← arg args 0; out ← ux_Execute (DoDeviceLoginImpl context env) c; mret (varchar_result out).
Definition AcquireScalarFun (args : list Column) : M W (list (option DValue)) :=
  c ← arg args 0; out ← ux_Execute (DoAcquire context env) c; mret (varchar_result out).
Definition check_token_1 (args : list Column) : M W (list (option DValue)) :=
  tokens ← arg args 0; out ← CheckTokenScalarFun1 context state tokens; mret (boolean_result out).
(** quack passes the session, the Authorization header and its own key, which is ignored. *)
Definition check_token_3 (args : list Column) : M W (list (option DValue)) :=
  auth_strings ← arg args 1; session_ids ← arg args 0;
  out ← CheckTokenScalarFun3 context state session_ids auth_strings; mret (boolean_result out).
Definition check_authorization_2 (args : list Column) : M W (list (option DValue)) :=
  session_ids ← arg args 0; queries ← arg args 1;
  out ← CheckAuthorizationScalarFun context state session_ids queries; mret (boolean_result out).

(** [SetStability(fn, VOLATILE); SetFallible(fn);] *)
Definition volatile (fn : ScalarFunction W) : ScalarFunction W := SetFallible (SetStability fn VOLATILE).

Definition RegisterQuackOauthLogin : list (LoaderCall W) :=
  [RegisterScalar "quack_oauth_login" [volatile (ScalarFunction_new [VARCHAR] VARCHAR LoginScalarFun)] [login_description]].
Definition RegisterQuackOauthLogout : list (LoaderCall W) :=
  [RegisterScalar "quack_oauth_logout" [volatile (ScalarFunction_new [VARCHAR] BOOLEAN LogoutScalarFun)] [logout_description]].
Definition RegisterQuackOauthRefresh : list (LoaderCall W) :=
  [RegisterScalar "quack_oauth_refresh" [volatile (ScalarFunction_new [VARCHAR] VARCHAR RefreshScalarFun)]
     [refresh_description]].
Definition RegisterQuackOauthDeviceLogin : list (LoaderCall W) :=
  [RegisterScalar "quack_oauth_device_login" [volatile (ScalarFunction_new [VARCHAR] VARCHAR DeviceLoginScalarFun)]
     [device_login_description]].
Definition RegisterQuackOauthAcquire : list (LoaderCall W) :=
  [RegisterScalar "quack_oauth_acquire" [volatile (ScalarFunction_new [VARCHAR] VARCHAR AcquireScalarFun)]
     [acquire_description]].
Definition RegisterQuackOauthCheckToken : list (LoaderCall W) :=
  [RegisterScalar "quack_oauth_check_token"
     [volatile (ScalarFunction_new [VARCHAR] BOOLEAN check_token_1);
      volatile (ScalarFunction_new [VARCHAR; VARCHAR; VARCHAR] BOOLEAN check_token_3)]
     [check_token_description1; check_token_description3]].
Definition RegisterQuackOauthCheckAuthorization : list (LoaderCall W) :=
  [RegisterScalar "quack_oauth_check_authorization"
     [volatile (ScalarFunction_new [VARCHAR; VARCHAR] BOOLEAN check_authorization_2)] [check_authorization_description]].

(** *** Table functions *)
Definition GetJwksMinRefreshFloor : M W Z := gets (λ w, default 30 (ref_get once w)).
Definition diagnose_function : TableFunction W :=
  mkTableFunction "quack_oauth_diagnose" [] ["component"; "status"; "detail"] [VARCHAR; VARCHAR; VARCHAR]
    (λ _, floor ← GetJwksMinRefreshFloor; rows ← DiagnoseBind context state g_probe_cache floor; scan_all DiagnoseValues rows).
Definition current_principal_function : TableFunction W :=
  mkTableFunction "quack_oauth_current_principal" [] ["session_id"; "subject"; "issuer"; "scopes"; "exp"]
    [VARCHAR; VARCHAR; VARCHAR; LIST VARCHAR; BIGINT]
    (λ _, rows ← CurrentPrincipalBind state; scan_all PrincipalValues rows).
Definition audit_log_function : TableFunction W :=
  mkTableFunction "quack_oauth_audit_log" []
    ["timestamp_unix_s"; "event_type"; "subject"; "issuer"; "kid"; "token_hash"; "action"; "reason"]
    [BIGINT; VARCHAR; VARCHAR; VARCHAR; VARCHAR; VARCHAR; VARCHAR; VARCHAR]
    (λ _, rows ← AuditLogBind state; scan_all AuditLogValues rows).
Definition inspect_sql_function : TableFunction W :=
  mkTableFunction "quack_oauth_inspect_sql" [VARCHAR] ["action"; "objects"; "columns"; "unsafe"; "error"]
    [VARCHAR; LIST VARCHAR; LIST VARCHAR; BOOLEAN; VARCHAR]
    (λ inputs, request ← lift (InspectSqlBind inputs);
               let '(first, done) := InspectSqlScan request false in
               let '(second, _) := InspectSqlScan request done in
               mret (first ++ second)).

Definition RegisterQuackOauthDiagnose : list (LoaderCall W) :=
  [RegisterTable diagnose_function diagnose_description;
   RegisterTable current_principal_function current_principal_description;
   RegisterTable audit_log_function audit_log_description].
Definition RegisterQuackOauthInspectSql : list (LoaderCall W) :=
  [RegisterTable inspect_sql_function inspect_sql_description].

(** *** Secret types *)
Definition RegisterClientSecretType : list (LoaderCall W) :=
  [RegisterSecretType "quack_oauth" "config";
   RegisterCreateSecret (mkCreateSecretFunction "quack_oauth" "config" CreateClientSecret
     [("issuer", VARCHAR); ("client_id", VARCHAR); ("client_secret", VARCHAR); ("audience", VARCHAR);
      ("scope", VARCHAR); ("device_authorization_endpoint", VARCHAR); ("token_endpoint", VARCHAR);
      ("redirect_listener_port", INTEGER); ("access_token", VARCHAR); ("refresh_token", VARCHAR);
      ("expires_at", VARCHAR)])].
Definition RegisterServerSecretType : list (LoaderCall W) :=
  [RegisterSecretType "quack_oauth_server" "config";
   RegisterCreateSecret (mkCreateSecretFunction "quack_oauth_server" "config" CreateServerSecret
     [("issuer", VARCHAR); ("audience", VARCHAR); ("jwks_uri", VARCHAR); ("policy_table", VARCHAR);
      ("audit_table", VARCHAR); ("introspection_endpoint", VARCHAR); ("introspect_client_id", VARCHAR);
      ("introspect_client_secret", VARCHAR); ("tenant_or_realm", VARCHAR)])].
Definition RegisterQuackOauthSecrets : list (LoaderCall W) := RegisterClientSecretType ++ RegisterServerSecretType.

(** *** [LoadInternal], on native builds *)
Definition Version : string := default "" ext_version.
Definition QUACK_OAUTH_BANNER : LoaderCall W :=
  ShowBanner "quack_oauth" (default "2026.05.28" ext_version) "https://github.com/DataZooDE/quack-oauth".
Definition telemetry_calls : list (LoaderCall W) :=
  [TelemetrySetAPIKey "phc_t3wwRLtpyEmLHYaZCSszG0MqVr74J6wnCrj9D41zk2t";
   TelemetrySetProduct "quack_oauth" "2026.05.28" "oss";
   TelemetryAssociateGroup "deployment" distinct_id;
   TelemetryCaptureExtensionLoad "quack_oauth" Version].

Definition LoadInternal : M W (list (LoaderCall W)) :=
  options ← RegisterQuackOauthSettings getenv state once;
  mret (telemetry_calls ++ (AddExtensionOption <$> options) ++ RegisterQuackOauthSecrets ++ RegisterQuackOauthDiagnose
        ++ RegisterQuackOauthInspectSql ++ RegisterQuackOauthCheckAuthorization ++ RegisterQuackOauthCheckToken
        ++ RegisterQuackOauthLogin ++ RegisterQuackOauthLogout ++ RegisterQuackOauthRefresh
        ++ RegisterQuackOauthDeviceLogin ++ RegisterQuackOauthAcquire ++ [RegisterBannerOption; QUACK_OAUTH_BANNER]).
End extension.

(** ** The lengths of the answers *)
Section lengths.
Context `{!Executor, !ExecutorLaws, !PicoJson, !JwtCpp, !OpenSsl, !Sha256, !UMapOrder, !DuckValues, !DuckParser}.
Context {W : Type} `{!Threads W} (context : ClientContext W) (state : Ref W QuackOauthState).

Lemma RunValidationLoop_length tokens sids now_s uri validate_row w out w' :
  match sids with Some l => length l = length tokens | None => True end →
  RunValidationLoop context state tokens sids now_s uri validate_row w = (Ret out, w') → length out = length tokens.
Proof.
  intros Hsids ([out1 events] & w1 & Hfold & ([] & w2 & _ & [= <- _])%M_bind_Ret)%M_bind_Ret.
  destruct sids as [sids|].
  - apply (M_fold_count (λ acc, length acc.1)) in Hfold.
    + cbn in Hfold. rewrite Hfold, length_zip_with. lia.
    + intros [o ev] [[raw|] sid] w3 [o' ev'] w4; cbn.
      * intros (rv & w5 & _ & ([] & w6 & _ & (ev2 & w7 & _ & [= <- _ _])%M_bind_Ret)%M_bind_Ret)%M_bind_Ret.
        rewrite length_app. cbn. lia.
      * intros [= <- _ _]. rewrite length_app. cbn. lia.
  - unfold run_local in Hfold.
    destruct (ux_Execute (plain_row context state validate_row now_s uri) tokens (w, [])) as [[l|e|] [w3 ev]] eqn:Hrun;
      [|done..]. injection Hfold as <- _ _. by eapply ux_length.
Qed.

Lemma ValidateChunk_length tokens sids w out w' :
  match sids with Some l => length l = length tokens | None => True end →
  ValidateChunk context state tokens sids w = (Ret out, w') → length out = length tokens.
Proof.
  intros Hsids (cfg & w1 & _ & (now_s & w2 & _ & (w3 & w4 & _ & Hloop & _)%with_guard_Ret)%M_bind_Ret)%M_bind_Ret.
  by eapply RunValidationLoop_length.
Qed.

Lemma CheckAuthorizationScalarFun_length session_ids queries w out w' :
  length session_ids = length queries →
  CheckAuthorizationScalarFun context state session_ids queries w = (Ret out, w') → length out = length session_ids.
Proof. intros Hlen (cfg & w1 & _ & Hrun)%M_bind_Ret. by eapply bx_length. Qed.
End lengths.

(** ** What a load promises *)
Section promises.
Context `{!DuckValues} {W : Type}.

(** A result column of [n] rows and type [t], NULLs included. *)
Definition column_typed (t : LogicalType) (n : nat) (col : list (option DValue)) : Prop :=
  length col = n ∧ Forall (λ v, ∀ x, v = Some x → has_type x t) col.
(** A cell of a table: NULL only where the type is VARCHAR. *)
Definition cell_typed (v : DValue) (t : LogicalType) : Prop := has_type v t ∨ (t = VARCHAR ∧ v = dv_null_varchar).

Definition description_ok (arguments : list LogicalType) (d : FunctionDescription) : Prop :=
  fd_parameter_types d = arguments ∧ length (fd_parameter_names d) = length arguments.

(** DuckDB may neither fold nor memoise the function, expects it to throw, and
    gets a column of the declared type from columns of the declared arity. *)
Definition scalar_ok (f : ScalarFunction W) (d : FunctionDescription) : Prop :=
  description_ok (sf_arguments f) d ∧ sf_stability f = VOLATILE ∧ sf_errors f = CAN_THROW_RUNTIME_ERROR ∧
  ∀ args n w col w', length args = length (sf_arguments f) → Forall (λ c, length c = n) args →
    sf_function f args w = (Ret col, w') → column_typed (sf_return_type f) n col.

(** Every row handed out has one cell per declared column, of its type. *)
Definition table_ok (t : TableFunction W) (d : FunctionDescription) : Prop :=
  description_ok (tf_arguments t) d ∧ length (tf_names t) = length (tf_return_types t) ∧ NoDup (tf_names t) ∧
  ∀ inputs w rows w', tf_run t inputs w = (Ret rows, w') → Forall (λ row, Forall2 cell_typed row (tf_return_types t)) rows.

(** A secret holds the parameters it was given, and nothing that is not one. *)
Definition secret_ok (f : CreateSecretFunction) : Prop :=
  let parameters := (cs_named_parameters f).*1 in
  NoDup parameters ∧
  ∀ input kv, cs_function f input = Ret kv →
    (∀ k v, k ∈ parameters → ci_options input !! k = Some v → secret_map kv !! k = Some v) ∧
    (∀ k, k ∉ parameters → secret_map kv !! k = None) ∧
    (∀ k, k ∈ redact_keys kv → k ∈ parameters).

Definition call_ok (c : LoaderCall W) : Prop :=
  match c with
  | AddExtensionOption o => option_typed o
  | RegisterCreateSecret f => secret_ok f
  | RegisterScalar _ fs ds => Forall2 scalar_ok fs ds ∧ NoDup (sf_arguments <$> fs)
  | RegisterTable t d => table_ok t d
  | _ => True
  end.

Definition function_name (c : LoaderCall W) : option string :=
  match c with
  | RegisterScalar name _ _ => Some name
  | RegisterTable t _ => Some (tf_name t)
  | _ => None
  end.

Lemma boolean_result_typed n (l : list (option bool)) : length l = n → column_typed BOOLEAN n (boolean_result l).
Proof.
  intros <-. unfold boolean_result. split; [by rewrite length_fmap|]. apply Forall_fmap, Forall_true. intros [b|] x; [|done].
  intros [= <-]. by exists b.
Qed.
Lemma varchar_result_typed n (l : list (option string)) : length l = n → column_typed VARCHAR n (varchar_result l).
Proof.
  intros <-. unfold varchar_result. split; [by rewrite length_fmap|]. apply Forall_fmap, Forall_true. intros [s|] x; [|done].
  intros [= <-]. by exists s.
Qed.

Lemma cell_string s : cell_typed (dv_of_string s) VARCHAR.
Proof. left. by exists s. Qed.
Lemma cell_nullable s : cell_typed (nullable s) VARCHAR.
Proof. unfold nullable. destruct (sempty s); [by right|apply cell_string]. Qed.
Lemma cell_strings l : cell_typed (dv_of_list (dv_of_string <$> l)) (LIST VARCHAR).
Proof. left. eexists. split; [done|]. apply Forall_fmap, Forall_true. intros s. by exists s. Qed.
Lemma cell_bigint z : cell_typed (dv_of_int64 z) BIGINT.
Proof. left. by exists z. Qed.
Lemma cell_bool b : cell_typed (dv_of_bool b) BOOLEAN.
Proof. left. by exists b. Qed.

Lemma scan_all_rows {R} (emit : R → list DValue) rows (w : W) : scan_all emit rows w = (Ret (emit <$> rows), w).
Proof.
  unfold scan_all. destruct (drain_from emit rows (S (length rows)) 0) as (chunks & -> & Hjoin & _).
  - rewrite Nat.sub_0_r. destruct (length rows) as [|n]; [vm_compute; lia|].
    apply Nat.Div0.div_lt_upper_bound. unfold STANDARD_VECTOR_SIZE. lia.
  - rewrite drop_0 in Hjoin. rewrite M_bind_eq. unfold lift, defined. by rewrite Hjoin.
Qed.

(** A bind followed by a scan: it is enough to look at one row. *)
Lemma scanned_typed {R} (emit : R → list DValue) types (m : M W (list R)) w rows w' :
  (∀ row, Forall2 cell_typed (emit row) types) →
  (m ≫= scan_all emit) w = (Ret rows, w') → Forall (λ row, Forall2 cell_typed row types) rows.
Proof.
  intros Hemit (l & w1 & _ & Hscan)%M_bind_Ret. rewrite scan_all_rows in Hscan. injection Hscan as <- _.
  apply Forall_fmap, Forall_true. intros row. apply Hemit.
Qed.
End promises.

(** The facts about single cells. *)
Create HintDb cells.
#[export] Hint Resolve cell_string cell_nullable cell_strings cell_bigint cell_bool : cells.
Ltac typed_row := repeat (apply Forall2_cons_2; [auto with cells|]); apply Forall2_nil_2.

Section secret_types.
Context `{!DuckValues}.

Lemma elem_of_Redact keys l k : k ∈ Redact keys l ↔ k ∈ keys ∨ k ∈ l.
Proof.
  unfold Redact. revert keys. induction l as [|x l IH]; intros keys; cbn [foldl].
  - pose proof (not_elem_of_nil k). tauto.
  - rewrite IH, elem_of_union, elem_of_singleton, elem_of_cons. tauto.
Qed.

(** The redacted fields are among the parameters. *)
Lemma redacted_parameters (l parameters : list string) :
  Forall (λ x, x ∈ parameters) l → ∀ k, k ∈ Redact ∅ l → k ∈ parameters.
Proof.
  intros Hl k [Hk|Hk]%elem_of_Redact; [by apply not_elem_of_empty in Hk|].
  rewrite Forall_forall in Hl. by apply Hl.
Qed.

(** The named parameters are the fields the constructor copies. *)
Lemma client_secret_ok parameters :
  parameters.*1 = client_fields → secret_ok (mkCreateSecretFunction "quack_oauth" "config" CreateClientSecret parameters).
Proof.
  unfold secret_ok. cbn [cs_named_parameters cs_function]. intros ->. split; [decide_closed|].
  intros input kv. unfold CreateClientSecret. generalize (CopyParams_lookup input client_fields).
  generalize (CopyParams input ∅ client_fields). intros m Hm ([] & _ & ([] & _ & [= <-])%exc_bind_Ret)%exc_bind_Ret.
  cbn [secret_map redact_keys].
  assert ("scope" ∈ client_fields) as Hscope by (decide_closed).
  split_and!.
  - intros k v Hk Hv. assert (m !! k = Some v) as Hmk by (by rewrite Hm, bool_decide_eq_true_2).
    destruct (bool_decide_reflect (m !! "scope" = None)) as [Hnone|]; [|done].
    destruct (negb _); [|done]. cbn [andb]. rewrite lookup_insert_ne; [done|]. intros <-. congruence.
  - intros k Hk. assert (m !! k = None) as Hmk by (by rewrite Hm, bool_decide_eq_false_2).
    destruct (_ && _); [|done]. rewrite lookup_insert_ne; [done|]. by intros <-.
  - apply (redacted_parameters kClientSensitiveFields). decide_closed.
Qed.

Lemma server_secret_ok parameters :
  parameters.*1 = server_fields →
  secret_ok (mkCreateSecretFunction "quack_oauth_server" "config" CreateServerSecret parameters).
Proof.
  unfold secret_ok. cbn [cs_named_parameters cs_function]. intros ->. split; [decide_closed|].
  intros input kv. unfold CreateServerSecret.
  generalize (CopyParams_lookup input server_fields). generalize (CopyParams input ∅ server_fields).
  intros m Hm ([] & _ & ([] & _ & ([] & _ & [= <-])%exc_bind_Ret)%exc_bind_Ret)%exc_bind_Ret.
  cbn [secret_map redact_keys]. split_and!.
  - intros k v Hk Hv. by rewrite Hm, bool_decide_eq_true_2.
  - intros k Hk. by rewrite Hm, bool_decide_eq_false_2.
  - apply (redacted_parameters ["introspect_client_secret"]). decide_closed.
Qed.
End secret_types.

(** ** The load *)
Section load.
Context `{!Executor, !ExecutorLaws, !PicoJson, !JwtCpp, !OpenSsl, !Sha256, !UMapOrder, !DuckValues, !DuckParser}.
Context {W : Type} `{!Threads W} (context : ClientContext W) (env : DeviceEnv W).
Context (state : Ref W QuackOauthState) (g_probe_cache : Ref W ProbeCache) (once : Ref W (option Z)) `{!RefLaws once}.
Context `{!Keeps (λ w, st_mu (ref_get state w) = false)}.
Context (getenv : string → option string) (ext_version : option string) (distinct_id : string).

Lemma arg_Ret (args : list Column) i (w : W) c w' : arg args i w = (Ret c, w') → args !! i = Some c ∧ w' = w.
Proof. unfold arg. by intros [?%defined_Ret ->]%lift_Ret. Qed.

Lemma arg_length n (args : list Column) i (w : W) c w' :
  Forall (λ c, length c = n) args → arg args i w = (Ret c, w') → length c = n.
Proof. intros Hargs [Hc _]%arg_Ret. exact (Forall_lookup_1 _ _ _ _ Hargs Hc). Qed.

(** A function of one column run by the executor. *)
Lemma unary_ok {A} (f : string → M W A) (convert : list (option A) → list (option DValue)) t d :
  description_ok [VARCHAR] d → (∀ n l, length l = n → column_typed t n (convert l)) →
  scalar_ok (volatile (ScalarFunction_new [VARCHAR] t
    (λ args, c ← arg args 0; out ← ux_Execute f c; mret (convert out)))) d.
Proof.
  intros Hd Hconvert. split_and!; [done..|]. cbn.
  intros args n w col w' _ Hargs (c & w1 & Hc & (out & w2 & Hout & [= <- _])%M_bind_Ret)%M_bind_Ret.
  apply Hconvert. rewrite (ux_length _ _ _ _ _ Hout). by eapply arg_length.
Qed.

(** A function without overloads. *)
Lemma single_ok name (f : ScalarFunction W) d : scalar_ok f d → call_ok (RegisterScalar name [f] [d]).
Proof. intros Hf. split; [by apply Forall2_cons_2|apply NoDup_singleton]. Qed.

Lemma check_token_1_ok :
  scalar_ok (volatile (ScalarFunction_new [VARCHAR] BOOLEAN (check_token_1 context state))) check_token_description1.
Proof.
  split_and!; [done..|]. cbn. unfold check_token_1.
  intros args n w col w' _ Hargs (c & w1 & Hc & (out & w2 & Hout & [= <- _])%M_bind_Ret)%M_bind_Ret.
  apply boolean_result_typed. apply M_bind_Ret in Hout as ([] & w3 & _ & Hout).
  apply ValidateChunk_length in Hout as ->; [|done]. by eapply arg_length.
Qed.

Lemma check_token_3_ok :
  scalar_ok (volatile (ScalarFunction_new [VARCHAR; VARCHAR; VARCHAR] BOOLEAN (check_token_3 context state)))
    check_token_description3.
Proof.
  split_and!; [done..|]. cbn. unfold check_token_3.
  intros args n w col w' _ Hargs
    (c & w1 & Hc & (sids & w2 & Hsids & (out & w3 & Hout & [= <- _])%M_bind_Ret)%M_bind_Ret)%M_bind_Ret.
  apply boolean_result_typed. apply M_bind_Ret in Hout as ([] & w4 & _ & Hout).
  assert (length c = n ∧ length sids = n) as [Hcn Hsn] by (split; by eapply arg_length).
  apply ValidateChunk_length in Hout as ->; [done|congruence].
Qed.

Lemma check_authorization_ok :
  scalar_ok (volatile (ScalarFunction_new [VARCHAR; VARCHAR] BOOLEAN (check_authorization_2 context state)))
    check_authorization_description.
Proof.
  split_and!; [done..|]. cbn. unfold check_authorization_2.
  intros args n w col w' _ Hargs
    (sids & w1 & Hsids & (queries & w2 & Hq & (out & w3 & Hout & [= <- _])%M_bind_Ret)%M_bind_Ret)%M_bind_Ret.
  assert (length sids = n ∧ length queries = n) as [Hs Hn] by (split; by eapply arg_length).
  apply boolean_result_typed. apply CheckAuthorizationScalarFun_length in Hout as ->; congruence.
Qed.

Lemma diagnose_ok : table_ok (diagnose_function context state g_probe_cache once) diagnose_description.
Proof.
  split_and!; [done..|decide_closed|]. cbn [tf_run diagnose_function tf_return_types].
  intros inputs w rows w' (floor & w1 & _ & Hrun)%M_bind_Ret. revert Hrun. apply scanned_typed.
  intros row. typed_row.
Qed.

Lemma current_principal_ok : table_ok (current_principal_function state) current_principal_description.
Proof.
  split_and!; [done..|decide_closed|]. intros inputs w rows w'.
  apply scanned_typed. intros row. typed_row.
Qed.

Lemma audit_log_ok : table_ok (audit_log_function state) audit_log_description.
Proof.
  split_and!; [done..|decide_closed|]. intros inputs w rows w'.
  apply scanned_typed. intros row. typed_row.
Qed.

Lemma inspect_sql_ok : table_ok (inspect_sql_function (W:=W)) inspect_sql_description.
Proof.
  split_and!; [done..|decide_closed|]. intros inputs w rows w'.
  cbn [tf_run inspect_sql_function tf_return_types].
  intros (request & w1 & _ & [= <- _])%M_bind_Ret. apply Forall_singleton. unfold StringList. typed_row.
Qed.

(** Claim C33.  A load of the extension completes when the mutex is free, and what
    it registers is sound: every call of a scalar function that returns gives a
    column of as many rows as its arguments and of its declared type (and DuckDB
    may neither fold nor memoise it); every row of a table function has one cell
    per declared column, of that column's type; every default of an option has its
    type; a secret holds the named parameters it was given and no other field;
    function names are unique and the descriptions match the signatures.  The
    banner comes last, the telemetry key first, and loading again changes nothing. *)
Theorem load_sound w :
  st_mu (ref_get state w) = false → once_ok (ref_get once w) →
  ∃ calls w',
    LoadInternal context env state g_probe_cache once getenv ext_version distinct_id w = (Ret calls, w') ∧
    Forall call_ok calls ∧ NoDup (omap function_name calls) ∧ length (omap function_name calls) = 11%nat ∧
    head calls = Some (TelemetrySetAPIKey "phc_t3wwRLtpyEmLHYaZCSszG0MqVr74J6wnCrj9D41zk2t") ∧
    last calls = Some (QUACK_OAUTH_BANNER ext_version) ∧
    LoadInternal context env state g_probe_cache once getenv ext_version distinct_id w' = (Ret calls, w').
Proof.
  intros Hmu Honce. destruct (RegisterQuackOauthSettings_total getenv state once w Hmu) as (opts & w' & Hreg).
  destruct (RegisterQuackOauthSettings_floor getenv state once w opts w' Honce Hreg) as (floor & Hfloor & Hw' & -> & _).
  eexists _, w'. unfold LoadInternal. split; [apply M_bind_Ret; eexists _, w'; split; [exact Hreg|reflexivity]|].
  split; [|split; [decide_closed|split_and!; [reflexivity..|]]].
  2: { apply M_bind_Ret. eexists _, w'. split; [by apply RegisterQuackOauthSettings_again|reflexivity]. }
  unfold telemetry_calls, RegisterQuackOauthSecrets, RegisterClientSecretType, RegisterServerSecretType.
  rewrite !Forall_app. split_and!.
  - by repeat constructor.
  - apply Forall_fmap. by apply quack_oauth_options_typed.
  - constructor; [done|]. by apply Forall_singleton, client_secret_ok.
  - constructor; [done|]. by apply Forall_singleton, server_secret_ok.
  - apply Forall_cons_2; [apply diagnose_ok|]. apply Forall_cons_2; [apply current_principal_ok|].
    apply Forall_singleton, audit_log_ok.
  - apply Forall_singleton, inspect_sql_ok.
  - apply Forall_singleton, single_ok, check_authorization_ok.
  - apply Forall_singleton. split; [|decide_closed].
    apply Forall2_cons_2; [apply check_token_1_ok|]. apply Forall2_cons_2; [apply check_token_3_ok|done].
  - by apply Forall_singleton, single_ok, unary_ok, varchar_result_typed.
  - by apply Forall_singleton, single_ok, unary_ok, boolean_result_typed.
  - by apply Forall_singleton, single_ok, unary_ok, varchar_result_typed.
  - by apply Forall_singleton, single_ok, unary_ok, varchar_result_typed.
  - by apply Forall_singleton, single_ok, unary_ok, varchar_result_typed.
  - by repeat constructor.
Qed.
End load.

(** ** Evaluations *)
Section evaluations.
#[local] Existing Instance no_threads.
#[local] Existing Instance no_threads_keep.
#[local] Existing Instance toy_json.
#[local] Existing Instance toy_jwt.
#[local] Existing Instance toy_ssl.
#[local] Existing Instance toy_duck.
#[local] Existing Instance toy_parser.
#[local] Existing Instance um_canonical.
#[local] Instance toy_sha_catalog : Sha256 := toy_sha true.

#[local] Existing Instance flat_executor.
#[local] Existing Instance flat_executor_laws.

(** A process at its start: nothing set, no secrets, no network. *)
Definition cworld : Type := QuackOauthState * ProbeCache * option Z.
Definition cw_state : Ref cworld QuackOauthState := mkRef (λ w, w.1.1) (λ s w, (s, w.1.2, w.2)).
Definition cw_probe : Ref cworld ProbeCache := mkRef (λ w, w.1.2) (λ c w, (w.1.1, c, w.2)).
Definition cw_once : Ref cworld (option Z) := mkRef snd (λ o w, (fst w, o)).
#[local] Instance cw_once_laws : RefLaws cw_once.
Proof. by split; [..|intros [[] ?]]. Qed.

Definition catalog_context : ClientContext cworld :=
  mkClientContext (λ _ _, None) (λ _ _, None) (λ _, mret tt) (λ _, mret None) (λ _ _, mret Executed) (λ _ _, mret tt)
    (mkHttp (λ _, mret None) (λ _, mret None)) (λ _, mret tt) (mret 1000).
Definition catalog_env : DeviceEnv cworld := mkDeviceEnv (mret 0) (λ _, mret tt).
Definition catalog_world : cworld := (QuackOauthState_new (λ _, None), ProbeCache_default, None).
Definition catalog_load : M cworld (list (LoaderCall cworld)) :=
  LoadInternal catalog_context catalog_env cw_state cw_probe cw_once (λ _, None) (Some "1.2") "machine".

(** The functions a user sees, and one of them called by name. *)
Example catalog_names :
  fmap (M:=exc) (omap (M:=list) function_name) (catalog_load catalog_world).1 =
  Ret ["quack_oauth_diagnose"; "quack_oauth_current_principal"; "quack_oauth_audit_log"; "quack_oauth_inspect_sql";
       "quack_oauth_check_authorization"; "quack_oauth_check_token"; "quack_oauth_login"; "quack_oauth_logout";
       "quack_oauth_refresh"; "quack_oauth_device_login"; "quack_oauth_acquire"].
Proof. vm_compute. reflexivity. Qed.

Example catalog_diagnose :
  fmap (M:=exc) (map (take 2))
    (tf_run (diagnose_function catalog_context cw_state cw_probe cw_once) [] catalog_world).1 =
  Ret [[DStr "decision_cache"; DStr "empty"]; [DStr "extension"; DStr "unconfigured"];
       [DStr "idp_reachability"; DStr "unconfigured"]; [DStr "jwks_cache"; DStr "empty"];
       [DStr "recent_decisions"; DStr "empty"]; [DStr "session_principals"; DStr "empty"]].
Proof. vm_compute. reflexivity. Qed.

(** No session is known: a query is refused, NULL stays NULL. *)
Example catalog_authorize :
  (check_authorization_2 catalog_context cw_state [[Some "s1"; Some "s2"]; [Some "SELECT"; None]] catalog_world).1 =
  Ret [Some (DBool false); None].
Proof. vm_compute. reflexivity. Qed.

Lemma load_sound_witness :
  ∃ calls w', catalog_load catalog_world = (Ret calls, w') ∧ Forall call_ok calls ∧
    length (omap function_name calls) = 11%nat.
Proof.
  destruct (load_sound catalog_context catalog_env cw_state cw_probe cw_once (λ _, None) (Some "1.2") "machine"
    catalog_world eq_refl (or_introl eq_refl)) as (calls & w' & Hload & Hok & _ & Hlen & _).
  exists calls, w'. split; [exact Hload|]. split; [exact Hok|exact Hlen].
Defined.
End evaluations.
